(* ===== verification/_CoqProject ===== *)
-Q . S2P
Prelude.v
Json.v
JsonText.v
KvApi.v
ExpiryHeap.v
Store.v
StoreProps.v
ShardState.v
Tx.v
TxProps.v
Topology.v
TopologyProps.v
Pb.v
Router.v
RouterProps.v
RouterCalls.v
RouterScan.v
TxCoord.v
TxCoordProps.v
TxOutcomes.v
TxGlobal.v
TxMoved.v
Server.v
ServerProps.v
Wal.v
WalProps.v
Rsm.v
RsmProps.v
RsmClients.v
RsmRuns.v
RsmLoop.v
Watch.v
WatchProps.v
Grpc.v
GrpcProps.v
Net.v
Client.v
ClientProps.v
Migrator.v
MigratorProps.v
MigratorOnline.v
MigratorNet.v
KvMigrate.v
KvMigrateProps.v
Kvcli.v
KvcliProps.v
Bootstrap.v
BootstrapProps.v
Gob.v
Persister.v
PersisterProps.v
PersisterWorker.v
PersisterWorkerProps.v
PersisterDurable.v
Disk.v
DiskProps.v
PersisterFiles.v
PersisterDisk.v
RaftState.v
RaftStateProps.v
Raft.v
RaftLemmas.v
RaftNode.v
RaftInv.v
RaftProps.v
RaftRuns.v
Election.v
ElectionSafety.v
RaftPeers.v
