(* ===== verification/Prelude.v ===== *)
(** * OrbisKV: a verification library

    OrbisKV is a sharded, replicated key-value store written in Go.  A group of
    nodes replicates a log with Raft (pkg/raft) over a durable persister
    (pkg/persister); committed commands drive a state machine (pkg/kv/server.go)
    over a Badger database (pkg/storage); cross-shard transactions use two-phase
    commit with a participant in every group (pkg/kv/tx.go), and shards move
    between groups under a per-shard state table (pkg/kv/shard_state.go).  A
    client (pkg/kv/client.go) finds the group and its leader through a router
    (pkg/sharding/router.go) that calls the gRPC service of a node
    (pkg/kv/grpc.go); a migrator (pkg/sharding/migrator.go) moves keys and shards.
    This library translates that code into Rocq functions and proves what makes
    it correct.

    ** Files, and the code they model

    - [Prelude]: machine integers with wrap-around, little-endian bytes, slices,
      string prefixes, and the lemmas and hints the components share.
    - [Json]: the JSON values encoding/json writes and reads (field lookup,
      integer ranges, omitempty, maps with integer keys).
    - [JsonText]: their text: the printer and the parser of encoding/json, the
      round trip, and that a cut object text does not parse.
    - [KvApi]: the request and reply types of pkg/kv/kvapi.go.
    - [ExpiryHeap]: container/heap on the slice of expiry items of
      pkg/storage/store.go, with its invariant and its permutation lemmas.
    - [Store], [StoreProps]: pkg/storage/store.go over the class [Badger].
      [Store] is the record of the database, the TTL heap and the tombstones;
      every method is a function with the source's name.
    - [ShardState]: pkg/kv/shard_state.go, table, snapshot and forwarding pool.
    - [Tx], [TxProps]: pkg/kv/tx.go.  The mutex is part of the state, so that an
      operation that waits for ever is the value [None].
    - [Topology], [TopologyProps]: pkg/sharding/topology.go, the owner table.
    - [Pb]: the messages of api/pb/kvraft.proto.
    - [Router], [RouterProps], [RouterCalls], [RouterScan]: pkg/sharding/router.go.
      Connection pools and caches are maps in the record [ShardRouter]; dialling and
      the answers of replicas are functions; a write into a nil map is [None].
    - [TxCoord], [TxCoordProps]: pkg/kv/tx_coordinator.go, the client's side of a
      transaction, with the transaction queries of pkg/kv/grpc.go.
    - [TxOutcomes], [TxGlobal], [TxMoved]: which records an operation of a participant may
      write, and the step relation of any number of clients and groups over a
      network that delays, repeats and loses requests; [TxMoved] is a run in which
      a [Rollback] after a shard moved splits a transaction.
    - [Server], [ServerProps]: pkg/kv/server.go, [DoOp] and all handlers.
    - [Wal], [WalProps]: pkg/wal/logger.go.  The file is its bytes; the worker's
      queue and batch are lists; a write may stop anywhere.
    - [Rsm], [RsmProps], [RsmClients], [RsmRuns]: pkg/kv/consensus.go over the
      class [StateMachine] ([kv_state_machine] is the server).  [Submit] is split
      into its critical sections; [RsmClients] is the step relation of any number
      of clients with the apply loop; [RsmRuns] has concrete runs.
    - [RsmLoop]: the apply loop over a sequence of messages.
    - [Watch], [WatchProps]: pkg/watch/manager.go.  The watchers live in a heap
      shared with their subscribers; [WatchProps] interleaves subscribers,
      publishers, the process loop, the health check and [Close].
    - [Grpc], [GrpcProps]: pkg/kv/grpc.go, every method of the service as a
      function of [Submit], and the watch stream as a session.
    - [Net]: groups as abstract machines, with a script of what happens around
      every call (other clients, executions without an answer, refusals).
    - [Client], [ClientProps]: pkg/kv/client.go, the retry loops of a clerk.
    - [Migrator], [MigratorProps], [MigratorOnline], [MigratorNet]:
      pkg/sharding/migrator.go over records of operations, the laws its theorems
      need of them, and the proof that the groups of [Net] satisfy the laws.
    - [KvMigrate], [KvMigrateProps]: cmd/kvmigrate/main.go, from the flags and the
      configuration files to the exit code and the file written.
    - [Kvcli], [KvcliProps]: cmd/kvcli/main.go, lines of input to commands, the
      retries of a put and the watches of a session.
    - [Bootstrap], [BootstrapProps]: the server process: cmd/server/main.go,
      pkg/kv/bootstrap.go, the settings of pkg/kv/consensus.go, the addresses and
      the cluster status of pkg/kv/grpc.go.  [StartKVServer] is the composition of
      [NewKVServer], [MakeRSM] and [RebuildLockTable].
    - [Gob]: the gob stream of an integer command, the instance that shows the
      interface [GobCommand] of a replicated command can be implemented.
    - [Persister], [PersisterProps]: pkg/persister/file.go.  The directory is a
      map from file names to contents; a durable write is one map update; a
      crash leaves a prefix of the writes, or a prefix of the appended bytes.
    - [PersisterWorker], [PersisterWorkerProps], [PersisterDurable]: its worker,
      with channels, batches and done channels, under any schedule of clients and
      worker, and what an acknowledgement means after a crash.
    - [Disk], [DiskProps]: the file system below: [durableWrite], [syncDir] and the
      append as system calls, each of which can fail, on inodes and directory
      entries; [crash] relates a state of the disk to the files a crash may leave.
    - [PersisterFiles], [PersisterDisk]: file names, [parseGeneration], the scan of
      the directory, the manifest's JSON and [loadManifest] over bytes; full saves
      and appends on the disk, read back after a crash.
    - [RaftState], [RaftStateProps]: the node of pkg/raft/raft.go, its log and
      the incremental encoder with its cache.
    - [Raft]: the handlers of pkg/raft/raft.go.  Every critical section under
      [rf.mu] is a function from the node to [option]al (node, messages, disk
      requests), where [None] is a panic (a slice or index out of range).
      [raft_event] and [raft_exec] collect them.
    - [RaftNode]: pkg/raft/types.go, the interface [Node] with its laws, and the
      node of raft.go as an instance.
    - [RaftPeers]: the connection cache of [callPeer], its steps interleaved.
    - [RaftLemmas], [RaftInv], [RaftProps], [RaftRuns]: frame lemmas, the
      invariant of a node with its disk, the theorems, and concrete runs.
    - [Election], [ElectionSafety]: what each handler does to term and vote, and
      a cluster of nodes over a network that loses, repeats and reorders
      messages, with crashes.

    ** What the theorems show

    - Elections: a cluster never has two leaders in one term, restarts included.
    - Raft: the only event that panics a reachable node is a heartbeat goroutine of
      a deposed leader whose log was cut; a restart recovers the term, the
      vote and the log when the disk requests are carried out in order;
      [AppendEntries] computes the merged log and the answer for any message, and
      changes committed entries only if the message contradicts them; the commit
      rule takes the highest entry of the current term that a majority stores,
      the node itself only what it has persisted; the applier delivers each index
      once and in order; snapshots keep the suffix of the log; the hint of a
      rejected append gives the exact next index, and the cases in which the leader
      backs up.  What the events are assumed to be is [event_ok] of [RaftInv]: replies
      answer what was sent, messages do not contradict committed entries (this is
      what the missing role test of a heartbeat can break, as two runs show),
      values are of 64 bits and the encoded state is below 4 GiB.
    - Persister: an append reads back, a crash in an append leaves a prefix of
      its frames, a crash in a full save leaves the old or the new generation;
      acknowledged hard states survive any schedule of the worker, acknowledged
      states do when full saves and appends are not under way at once.
    - Disk: whatever system calls fail and wherever the machine stops, a
      [durableWrite] leaves the old or the new content and touches nothing else; a
      restart over the bytes left by a full save reads the old or the new state, and
      the new one once it was acknowledged; an acknowledged append is read back.
      Only a delta file that an append has to create can be lost after the
      acknowledgement.
    - Connections between nodes: none is closed twice, none leaks, at most one per
      address stays open.
    - Store: compare-and-swap with expiry, atomic batches, well-formedness of
      the stores that any methods reach, failed restores, [Clear] and [Close]
      included, snapshot round trip, the heap walk equals the scan.
    - Log of applied operations: replay after a crash sees every whole line and
      some first ones of the cut write, truncation keeps exactly the later
      entries, accepted entries reach the file in order.
    - Replicated state machine: an answer OK is the result of executing the
      client's operation at its index; operations survive the log in the form
      [wal_request]; recovery executes, each with its own clock, the operations
      above the snapshot that the log marks for execution ([ResolveTxStatus] is
      not, although it can abort a transaction); the state after the apply loop depends on the messages alone.
    - Start: the configuration is accepted exactly when the node's index is that of
      a peer; distinct servers get distinct gRPC addresses; after the start exactly
      the keys of undecided transactions are locked.
    - Transactions in one group: outcomes are exclusive and stable, prepare locks
      and validates, commit is all or nothing, recovery rebuilds exactly the
      undecided transactions.
    - Transactions across groups: as long as [Rollback] finds the coordinator that
      [Commit] chose, when one group has committed a transaction no group has
      aborted it, and what [Commit] returns is the outcome recorded; the plan of
      [Commit] sends every key to its owner, and the retries of phase 2 end.
    - Topology: every key has a registered owner, assignment and expansion are
      balanced, and the planning loops end.
    - Watch: no interleaving panics, and a subscriber gets the matching events in
      the order of processing, except those that found its buffer full.
    - Router: the constructor and calls made one after another, [Close] among them,
      with dialling results that change all the time, keep the pools and caches
      consistent and never write into a nil map (a [Close] while a hint is being
      dialled does); a call returns the answer of a leader that is among the
      candidates, and caches it; a scan of all groups with a limit is the first
      part of a sorted merge of everything, keys that are in two groups twice.
    - Service: transaction messages arrive as the requests the coordinator meant,
      the configuration of a recovery survives its message, a watch session leaves
      no watcher behind unless it cancels a watch that is not its current one.
    - Client: every call ends; the pauses, computed in double precision as the code
      does, are bounded; a definite answer is the
      group's reply to the last request executed.
    - Migrator: while nobody else writes the keys, a plan lists exactly the entries
      to move; executing it changes nothing else, moves everything when it reports
      no error and loses no more values than it reports failures; an online
      migration of the keys with a prefix loses none of them; after an expansion
      that succeeds the configuration written routes every key to its value,
      except keys without the prefix in a moved shard.
    - Interactive client: commands survive typing and parsing, a put reports the
      answer to its last write, a session leaves no watch behind its exit.
    - Server: refinement of an abstract versioned map, read your write, what the
      source does for a write in a migrating shard, refusals, expiry, scans,
      snapshots and what a restore decides of the prepared transactions in them.
    - Several theorems are concrete runs in which the code does not do what its
      comments or its other paths intend; their doc comments say so.

    ** Interfaces and parameters

    [Badger] is the interface of the database, with its transaction laws as
    class fields; [StoreProps] gives two instances, a map and a map whose
    commits fail from some point on.  [GobCommand] is the interface of a
    command that can travel through encoding/gob.  [StateMachine] is what the
    replicated state machine asks of the server.  [lawful_router] and
    [lawful_server] are what the migrator relies on; [net_router_lawful] and
    [net_server_lawful] show that groups refining the abstract map provide it,
    [doCleanupShard_refines] that the server's clean-up is the abstract one.
    [Node] and [NodeLaws] are what the layer above raft relies on
    ([raft_node_laws] is the instance).  The hash of a key, the dialer
    and the RPC stubs, the order in which Go ranges over a map, and clocks are
    arguments.

    ** Bounds and fuel

    Integers are unbounded [Z] with Go's wrap-around written where it can
    matter (TTL arithmetic, versions, statistics, conversions, encodings).
    Raft terms and indices are kept within int64 by the invariant, and the
    events carry the bound as a premise.  Loops that are not structural carry
    fuel that is proved or evidently enough: [up] and [down] the length of the
    heap, [peek_loop] the length of the heap, [wal_replay_loop] and [rewrite_loop]
    one more than the length of the file (a round consumes a newline), [parse_value]
    the length of its text, [replay_loop] one more than the
    length of the file (a frame has at least 16 bytes), [advance_loop] and
    [applier_loop] the distance of the indices they walk, [take_shards] one more
    than the number of shards (each round moves one).  [retryCommitInBackground]
    is a loop without bound in the source: [retry_terminates] gives the number of
    rounds after which it has returned.  The loops of a clerk have one more than
    [maxAttempts] ([clerk_terminates]); [watchSingleGroup] is endless in the source
    and its fuel bounds the rounds looked at.

    ** Not modelled

    Goroutine scheduling other than the order of critical sections, the RPC
    transport itself, timers other than as clock arguments, performance counters and
    logging.  A failed system call is a value in [Disk]; in [Persister] and the
    files over it durable writes succeed, and [PersisterDisk] relates the two.  Keys are non-empty and
    not reserved by Badger, strings are valid UTF-8, JSON names are matched
    exactly.  Badger directories that were removed or renamed in part are not
    states of [Store].  User writes to the reserved keys _tx:... are excluded in
    the theorems on transactions.  In [TxGlobal] a group is one participant: that its
    replicas agree is what the theorems on Raft and the replicated state machine
    are about.  In [Net] and the theorems on the migrator a group is the abstract
    map a server refines, and keys that are moved do not expire and have no other
    writer.  Generated protobuf code, the opening of listening sockets,
    pprof and the benchmark programs are left out. *)
From stdpp Require Import prelude gmap strings sorting.
From stdpp Require Import options.

Declare Scope orbis_scope.
Delimit Scope orbis_scope with orbis.
Local Open Scope Z_scope.

Create HintDb orbis.
Create Rewrite HintDb orbis_rw.

(** ** Machine integers *)

(** Go's conversion to [uint64]: reduction modulo [2^64]. *)
Definition wrapU64 (z : Z) : Z := z `mod` 2^64.

(** Go's conversion to [int64] (and to [int] on a 64-bit platform): two's
    complement wrap-around. *)
Definition wrapS64 (z : Z) : Z := (z + 2^63) `mod` 2^64 - 2^63.

(** Go's conversion to [int32]. *)
Definition wrapS32 (z : Z) : Z := (z + 2^31) `mod` 2^32 - 2^31.

Definition isU64 (z : Z) : Prop := 0 ≤ z < 2^64.
Definition isS64 (z : Z) : Prop := - 2^63 ≤ z < 2^63.
Definition isS32 (z : Z) : Prop := - 2^31 ≤ z < 2^31.

#[global] Instance isU64_dec z : Decision (isU64 z).
Proof. unfold isU64. apply _. Defined.
#[global] Instance isS64_dec z : Decision (isS64 z).
Proof. unfold isS64. apply _. Defined.
#[global] Instance isS32_dec z : Decision (isS32 z).
Proof. unfold isS32. apply _. Defined.

Lemma wrapU64_id z : isU64 z → wrapU64 z = z.
Proof. unfold isU64, wrapU64. intros ?. by apply Z.mod_small. Qed.
Lemma wrapS64_id z : isS64 z → wrapS64 z = z.
Proof. unfold isS64, wrapS64. intros ?. rewrite Z.mod_small; lia. Qed.
Lemma wrapS32_id z : isS32 z → wrapS32 z = z.
Proof. unfold isS32, wrapS32. intros ?. rewrite Z.mod_small; lia. Qed.
Lemma wrapU64_range z : isU64 (wrapU64 z).
Proof. unfold isU64, wrapU64. apply Z.mod_pos_bound. lia. Qed.
Lemma wrapS64_range z : isS64 (wrapS64 z).
Proof. unfold isS64, wrapS64. pose proof (Z.mod_pos_bound (z + 2^63) (2^64)). lia. Qed.
Lemma wrapS64_U64 z : isS64 z → wrapS64 (wrapU64 z) = z.
Proof.
  unfold isS64, wrapS64, wrapU64. intros ?.
  rewrite Zplus_mod_idemp_l. rewrite Z.mod_small; lia.
Qed.
#[export] Hint Resolve wrapU64_range wrapS64_range : orbis.
#[export] Hint Rewrite wrapU64_id wrapS64_id wrapS32_id wrapS64_U64
  using (assumption || lia) : orbis_rw.

(** ** Bytes: a byte is a [Z] in [0, 256) *)
Abbreviation bytes := (list Z) (only parsing).

(** [binary.LittleEndian.PutUint32/64]: the [n] low bytes of [z]. *)
Fixpoint le_put (n : nat) (z : Z) : bytes :=
  match n with
  | O => []
  | S n => z `mod` 256 :: le_put n (z `div` 256)
  end.

(** [binary.LittleEndian.Uint32/64]. *)
Fixpoint le_get (bs : bytes) : Z :=
  match bs with
  | [] => 0
  | b :: bs => b + 256 * le_get bs
  end.

Lemma length_le_put n z : length (le_put n z) = n.
Proof. revert z. induction n; intros; simpl; auto. Qed.

Lemma le_get_put n z : le_get (le_put n z) = z `mod` 256 ^ Z.of_nat n.
Proof.
  revert z. induction n as [|n IH]; intros z; simpl le_put; simpl le_get.
  - by rewrite Z.mod_1_r.
  - rewrite IH, Nat2Z.inj_succ, Z.pow_succ_r by lia.
    rewrite Z.rem_mul_r by lia. lia.
Qed.

Lemma le_get_put4 z : 0 ≤ z < 2^32 → le_get (le_put 4 z) = z.
Proof. intros. rewrite le_get_put. by apply Z.mod_small. Qed.
Lemma le_get_put8 z : isU64 z → le_get (le_put 8 z) = z.
Proof. intros. rewrite le_get_put. by apply Z.mod_small. Qed.
(** A signed value survives [uint64(int64(v))], eight bytes and back. *)
Lemma le_get_put8_signed z : isS64 z → wrapS64 (le_get (le_put 8 (wrapU64 z))) = z.
Proof.
  intros. rewrite le_get_put8 by apply wrapU64_range. by apply wrapS64_U64.
Qed.
#[export] Hint Rewrite length_le_put : orbis_rw.

(** The slice expression [s[a:b]] for [0 <= a <= b <= len s]. *)
Definition slice (a b : nat) (s : bytes) : bytes := take (b - a) (drop a s).

Lemma length_slice a b s : (a ≤ b ≤ length s)%nat → length (slice a b s) = (b - a)%nat.
Proof. intros. unfold slice. rewrite length_take, length_drop. lia. Qed.

Lemma slice_app_l a b s t : (b ≤ length s)%nat → slice a b (s ++ t) = slice a b s.
Proof.
  intros. unfold slice. destruct (decide (a ≤ length s)%nat).
  - rewrite drop_app_le, take_app_le by (rewrite ?length_drop; lia). done.
  - rewrite !(proj2 (Nat.sub_0_le b a)) by lia. done.
Qed.

Lemma slice_app_r a b s t :
  (length s ≤ a)%nat → slice a b (s ++ t) = slice (a - length s) (b - length s) t.
Proof.
  intros. unfold slice. rewrite drop_app_ge by lia. f_equal. lia.
Qed.

Lemma slice_prefix b s t : b = length s → slice 0 b (s ++ t) = s.
Proof. intros ->. unfold slice. rewrite drop_0, Nat.sub_0_r. by rewrite take_app_length. Qed.

(** ** Strings *)

Fixpoint has_prefix (p s : string) : bool :=
  match p, s with
  | EmptyString, _ => true
  | String a p, String b s => bool_decide (a = b) && has_prefix p s
  | String _ _, EmptyString => false
  end.

(** [strings.Contains]. *)
Fixpoint Contains (s sub : string) : bool :=
  has_prefix sub s || match s with EmptyString => false | String _ s => Contains s sub end.

Lemma has_prefix_spec p s : has_prefix p s = true ↔ ∃ t, s = p +:+ t.
Proof.
  revert s. induction p as [|a p IH]; intros s; simpl.
  - split; [|done]. intros _. by exists s.
  - destruct s as [|b s].
    + split; [done|]. by intros [? ?].
    + rewrite andb_true_iff, bool_decide_eq_true, IH. split.
      * intros [-> [t ->]]. by exists t.
      * intros [t [= -> ->]]. split; [done|]. by exists t.
Qed.

Lemma has_prefix_app p t : has_prefix p (p +:+ t) = true.
Proof. apply has_prefix_spec. by exists t. Qed.

Lemma string_app_inj p s t : p +:+ s = p +:+ t → s = t.
Proof. induction p as [|a p IH]; simpl; [done|]. intros [= ?]. auto. Qed.

Lemma string_app_assoc p s t : (p +:+ s) +:+ t = p +:+ (s +:+ t).
Proof. induction p as [|a p IH]; [done|]. change (String a ((p +:+ s) +:+ t) = String a (p +:+ (s +:+ t))). by rewrite IH. Qed.

(** [strings.TrimPrefix], [strings.HasSuffix], [strings.TrimSuffix] *)
Definition TrimPrefix (p s : string) : string :=
  if has_prefix p s then String.substring (String.length p) (String.length s - String.length p) s else s.
Definition has_suffix (p s : string) : bool :=
  bool_decide (String.length p ≤ String.length s)%nat &&
  bool_decide (String.substring (String.length s - String.length p) (String.length p) s = p).
Definition TrimSuffix (p s : string) : string :=
  if has_suffix p s then String.substring 0 (String.length s - String.length p) s else s.

Lemma length_string_app (s t : string) : String.length (s +:+ t) = (String.length s + String.length t)%nat.
Proof. induction s as [|c s IH]; [done|]. change (S (String.length (s +:+ t)) = S (String.length s + String.length t)). by rewrite IH. Qed.
Lemma substring_0_app (s t : string) : String.substring 0 (String.length s) (s +:+ t) = s.
Proof. induction s as [|c s IH]; [by destruct t|]. change (String c (String.substring 0 (String.length s) (s +:+ t)) = String c s). by rewrite IH. Qed.
Lemma substring_all (s : string) : String.substring 0 (String.length s) s = s.
Proof. induction s as [|c s IH]; [done|]. cbn. f_equal. exact IH. Qed.
Lemma substring_app_r (s t : string) : String.substring (String.length s) (String.length t) (s +:+ t) = t.
Proof. induction s as [|c s IH]; [apply substring_all|done]. Qed.
Lemma TrimPrefix_app p t : TrimPrefix p (p +:+ t) = t.
Proof.
  unfold TrimPrefix. rewrite has_prefix_app, length_string_app.
  replace (_ + _ - _)%nat with (String.length t) by lia. apply substring_app_r.
Qed.
Lemma has_suffix_spec p s : has_suffix p s = true ↔ ∃ t, s = t +:+ p.
Proof.
  unfold has_suffix. rewrite andb_true_iff, !bool_decide_eq_true. split.
  - intros [Hl E]. exists (String.substring 0 (String.length s - String.length p) s). rewrite <-E at 2.
    clear E. remember (String.length s - String.length p)%nat as k eqn:Ek.
    assert (String.length p = String.length s - k)%nat as -> by lia. clear Ek Hl.
    revert k. induction s as [|c s IH]; intros k; [by destruct k|]. destruct k as [|k]; [|exact (f_equal (String c) (IH k))].
    change (String.substring 0 0 (String c s)) with "". change (String.length (String c s) - 0)%nat with (String.length (String c s)).
    by rewrite substring_all.
  - intros [t ->]. rewrite length_string_app. split; [lia|].
    replace (_ + _ - _)%nat with (String.length t) by lia. apply substring_app_r.
Qed.
Lemma has_suffix_app p t : has_suffix p (t +:+ p) = true.
Proof. apply has_suffix_spec. by exists t. Qed.
Lemma TrimSuffix_app p t : TrimSuffix p (t +:+ p) = t.
Proof.
  unfold TrimSuffix. rewrite has_suffix_app, length_string_app.
  replace (_ + _ - _)%nat with (String.length t) by lia. apply substring_0_app.
Qed.

#[export] Hint Resolve has_prefix_app : orbis.
#[global] Arguments has_prefix : simpl never.
