(* ===== verification/Json.v ===== *)
(** * encoding/json at the level of documents

    The program stores every value it persists as JSON ([json.Marshal] /
    [json.Unmarshal] in store.go, tx.go, server.go).  A stored byte slice is
    represented by the document it parses to; [JInvalid] stands for bytes that
    are not JSON text.  Decoding into a Go struct follows the documented rules
    of the standard library: members are matched by tag, an unknown member is
    ignored, an absent member or [null] leaves the zero value, a member of the
    wrong type is an error.  A [[]byte] member is a base64 string literal; it
    is represented by [JBytes] of the document those bytes parse to. *)
From stdpp Require Import prelude gmap strings pretty.
From Stdlib Require Import Ascii.
From stdpp Require Import options.
From S2P Require Import Prelude.
Local Open Scope Z_scope.

Inductive json :=
  | JNull
  | JBool (b : bool)
  | JNum (z : Z)
  | JStr (s : string)
  | JArr (l : list json)
  | JObj (m : list (string * json))
  | JBytes (j : json)
  | JInvalid.

#[global] Instance json_inhabited : Inhabited json := populate JNull.

(** The last member with the given name: a later duplicate overrides. *)
Fixpoint jfield (name : string) (m : list (string * json)) : option json :=
  match m with
  | [] => None
  | (k, j) :: m =>
      match jfield name m with
      | Some j' => Some j'
      | None => if decide (k = name) then Some j else None
      end
  end.

(** Decoding one member into a Go field of a given type. *)
Definition as_string (j : option json) : option string :=
  match j with
  | None | Some JNull => Some ""
  | Some (JStr s) => Some s
  | _ => None
  end.

Definition as_bool (j : option json) : option bool :=
  match j with
  | None | Some JNull => Some false
  | Some (JBool b) => Some b
  | _ => None
  end.

(** A [uint64] field: a number outside the type's range is an error. *)
Definition as_uint64 (j : option json) : option Z :=
  match j with
  | None | Some JNull => Some 0
  | Some (JNum z) => if decide (isU64 z) then Some z else None
  | _ => None
  end.

(** An [int64] or [int] field. *)
Definition as_int64 (j : option json) : option Z :=
  match j with
  | None | Some JNull => Some 0
  | Some (JNum z) => if decide (isS64 z) then Some z else None
  | _ => None
  end.

(** A slice field with an element decoder. *)
Definition as_slice {A} (f : json → option A) (j : option json) : option (list A) :=
  match j with
  | None | Some JNull => Some []
  | Some (JArr l) => mapM f l
  | _ => None
  end.

(** An [int32] field, and the elements of slices. *)
Definition as_int32 (j : option json) : option Z :=
  z ← as_int64 j; if decide (isS32 z) then Some z else None.
Definition as_string_elem (j : json) : option string := as_string (Some j).
Definition as_int64_elem (j : json) : option Z := as_int64 (Some j).
Definition as_bool_elem (j : json) : option bool := as_bool (Some j).

(** A member list as the fields of a struct: [null] decodes to the zero
    struct, anything that is not an object is an error. *)
Definition as_struct (j : json) : option (list (string * json)) :=
  match j with
  | JNull => Some []
  | JObj m => Some m
  | _ => None
  end.

(** A [map[string]T] field; a nil map when the member is absent. *)
Definition as_map {A} (f : json → option A) (j : option json) : option (option (list (string * A))) :=
  match j with
  | None | Some JNull => Some None
  | Some (JObj m) => Some <$> mapM (λ '(k, v), pair k <$> f v) m
  | _ => None
  end.

Definition as_bytes (j : json) : option json :=
  match j with
  | JBytes b => Some b
  | JNull => Some JInvalid
  | _ => None
  end.

(** [omitempty]: a member whose value is empty is left out. *)
Definition omit_if (b : bool) (name : string) (j : json) : list (string * json) :=
  if b then [] else [(name, j)].

Lemma as_uint64_num z : isU64 z → as_uint64 (Some (JNum z)) = Some z.
Proof. intros. simpl. by rewrite decide_True. Qed.
Lemma as_int64_num z : isS64 z → as_int64 (Some (JNum z)) = Some z.
Proof. intros. simpl. by rewrite decide_True. Qed.
#[export] Hint Rewrite as_uint64_num as_int64_num using assumption : orbis_rw.

Lemma as_slice_arr {A} (f : json → option A) (g : A → json) l :
  Forall (λ x, f (g x) = Some x) l → as_slice f (Some (JArr (g <$> l))) = Some l.
Proof.
  intros Hl. simpl. induction Hl as [|x l Hx _ IH]; [done|].
  cbn. rewrite Hx. cbn. by rewrite IH.
Qed.

Lemma as_map_obj {A} (f : json → option A) (g : A → json) (l : list (string * A)) :
  Forall (λ x, f (g x.2) = Some x.2) l →
  as_map f (Some (JObj (prod_map id g <$> l))) = Some (Some l).
Proof.
  intros Hl. simpl. induction Hl as [|[k x] l Hx _ IH]; [done|].
  cbn in *. rewrite Hx. cbn.
  destruct (mapM _ (prod_map id g <$> l)) eqn:E; cbn in *; simplify_eq; done.
Qed.

(** ** Integer keys

    A [map[int]T] is encoded as an object whose names are the keys in decimal,
    and decoded with [strconv.ParseInt(name, 10, 64)]. *)
Definition digit_of (c : ascii) : option N :=
  let n := N_of_ascii c in
  if decide (48 ≤ n ∧ n ≤ 57)%N then Some (n - 48)%N else None.

Fixpoint parse_digits (acc : N) (s : string) : option N :=
  match s with
  | EmptyString => Some acc
  | String c s =>
      match digit_of c with
      | Some d => parse_digits (10 * acc + d)%N s
      | None => None
      end
  end.

Definition ParseInt (s : string) : option Z :=
  let checked (z : Z) := if decide (isS64 z) then Some z else None in
  match s with
  | EmptyString => None
  | String c rest =>
      if decide (c = "-"%char) then
        if decide (rest = "") then None else n ← parse_digits 0 rest; checked (- Z.of_N n)
      else if decide (c = "+"%char) then
        if decide (rest = "") then None else n ← parse_digits 0 rest; checked (Z.of_N n)
      else n ← parse_digits 0 s; checked (Z.of_N n)
  end.

Definition as_int_map {A} (f : json → option A) (j : option json) : option (option (list (Z * A))) :=
  match j with
  | None | Some JNull => Some None
  | Some (JObj m) => Some <$> mapM (λ '(k, v), k ← ParseInt k; pair k <$> f v) m
  | _ => None
  end.

Lemma digit_of_char d : (d < 10)%N → digit_of (pretty_N_char d) = Some d.
Proof.
  intros. assert (d = 0 ∨ d = 1 ∨ d = 2 ∨ d = 3 ∨ d = 4 ∨ d = 5 ∨ d = 6 ∨ d = 7 ∨ d = 8 ∨ d = 9)%N
    as Hd by lia.
  destruct_or!; subst; reflexivity.
Qed.

Lemma parse_pretty_go x s :
  ∃ m, ∀ acc, parse_digits acc (pretty_N_go x s) = parse_digits (acc * m + x)%N s.
Proof.
  revert s. induction (N.lt_wf_0 x) as [x _ IH]; intros s.
  destruct (decide (x = 0)%N) as [->|Hx].
  { exists 1%N. intros acc. rewrite pretty_N_go_0. f_equal. lia. }
  destruct (IH (x `div` 10)%N) with (s := String (pretty_N_char (x `mod` 10)) s) as [m Hm].
  { apply N.div_lt; lia. }
  exists (m * 10)%N. intros acc. rewrite pretty_N_go_step, Hm by lia. cbn [parse_digits].
  rewrite digit_of_char by (apply N.mod_lt; lia). f_equal.
  pose proof (N.div_mod x 10). lia.
Qed.

Lemma parse_pretty_N (x : N) : parse_digits 0 (pretty x) = Some x.
Proof.
  unfold pretty, pretty_N. case_decide; [by subst|].
  destruct (parse_pretty_go x "") as [m Hm]. rewrite Hm. done.
Qed.

Lemma pretty_N_nonempty (x : N) : pretty x ≠ "".
Proof. intros E. assert (Hx := parse_pretty_N x). rewrite E in Hx. by injection Hx as <-. Qed.

Lemma ParseInt_pretty z : isS64 z → ParseInt (pretty z) = Some z.
Proof.
  intros Hz. destruct z as [|p|p]; [done| |].
  - change (pretty (Z.pos p)) with (pretty (N.pos p)).
    assert (Hp := parse_pretty_N (N.pos p)). unfold ParseInt.
    destruct (pretty (N.pos p)) as [|c rest] eqn:E; [by destruct (pretty_N_nonempty (N.pos p))|].
    rewrite decide_False; [rewrite decide_False|].
    + rewrite Hp. cbn [mbind option_bind]. by rewrite decide_True.
    + intros ->. done.
    + intros ->. done.
  - change (pretty (Z.neg p)) with (String "-"%char (pretty (N.pos p))). unfold ParseInt.
    rewrite decide_True by done. rewrite decide_False by apply pretty_N_nonempty.
    rewrite parse_pretty_N. cbn [mbind option_bind]. by rewrite decide_True.
Qed.

Lemma as_int_map_obj {A} (f : json → option A) (g : A → json) (l : list (Z * A)) :
  Forall (λ x, isS64 x.1 ∧ f (g x.2) = Some x.2) l →
  as_int_map f (Some (JObj (prod_map pretty g <$> l))) = Some (Some l).
Proof.
  intros Hl. cbn [as_int_map].
  assert (mapM (λ '(k, v), k ← ParseInt k; pair k <$> f v) (prod_map pretty g <$> l) = Some l) as ->; [|done].
  induction Hl as [|[k x] l [Hk Hx] _ IH]; [done|]. cbn [fmap list_fmap prod_map fst snd mapM] in *.
  rewrite ParseInt_pretty by done. cbn [mbind option_bind]. rewrite Hx. cbn. by rewrite IH.
Qed.

(** ** Structs with many members

    [members] writes the fields of a struct in order, leaving out those marked
    as empty. *)
Definition members (fs : list (string * bool * json)) : list (string * json) :=
  fs ≫= (λ f : string * bool * json, omit_if f.1.2 f.1.1 f.2).

Lemma jfield_app n (l1 l2 : list (string * json)) :
  jfield n (l1 ++ l2) = match jfield n l2 with Some j => Some j | None => jfield n l1 end.
Proof.
  induction l1 as [|[k j] l1 IH]; cbn; [by destruct (jfield n l2)|]. rewrite IH. by destruct (jfield n l2).
Qed.

Lemma jfield_not_in n (fs : list (string * bool * json)) : n ∉ fs.*1.*1 → jfield n (members fs) = None.
Proof.
  induction fs as [|[[k b] j] fs IH]; intros Hn; [done|]. cbn in Hn. apply not_elem_of_cons in Hn as [Hk Hn].
  unfold members. rewrite bind_cons, jfield_app. fold (members fs). rewrite IH by done.
  unfold omit_if. cbn. destruct b; [done|]. cbn. rewrite decide_False by done. done.
Qed.

Lemma jfield_members n (b : bool) j (fs : list (string * bool * json)) : NoDup fs.*1.*1 → (n, b, j) ∈ fs →
  jfield n (members fs) = if b then None else Some j.
Proof.
  induction fs as [|[[k b'] j'] fs IH]; intros Hd Hin; [by apply elem_of_nil in Hin|].
  cbn in Hd. apply NoDup_cons in Hd as [Hk Hd]. unfold members. rewrite bind_cons, jfield_app. fold (members fs).
  apply elem_of_cons in Hin as [[= <- <- <-]|Hin].
  - rewrite jfield_not_in by done. unfold omit_if. cbn. destruct b; [done|]. cbn. by rewrite decide_True.
  - rewrite (IH Hd Hin). destruct b; [|done].
    unfold omit_if. cbn. destruct b'; [done|]. cbn. rewrite decide_False; [done|]. intros ->. apply Hk.
    apply list_elem_of_fmap. exists (n, true). split; [done|]. apply list_elem_of_fmap. by exists (n, true, j).
Qed.

Lemma as_string_omit (s : string) : as_string (if bool_decide (s = "") then None else Some (JStr s)) = Some s.
Proof. case_bool_decide; by subst. Qed.
Lemma as_int64_omit (z : Z) : isS64 z → as_int64 (if bool_decide (z = 0) then None else Some (JNum z)) = Some z.
Proof. intros. case_bool_decide; [by subst|]. by apply as_int64_num. Qed.
Lemma as_int32_omit (z : Z) : isS32 z → as_int32 (if bool_decide (z = 0) then None else Some (JNum z)) = Some z.
Proof.
  intros Hz. unfold as_int32. rewrite as_int64_omit by (unfold isS64, isS32 in *; lia).
  cbn. by rewrite decide_True.
Qed.
Lemma as_slice_omit {A} (f : json → option A) (g : A → json) l :
  Forall (λ x, f (g x) = Some x) l →
  as_slice f (if bool_decide (l = []) then None else Some (JArr (g <$> l))) = Some l.
Proof. intros Hl. case_bool_decide; [by subst|]. by apply as_slice_arr. Qed.
