(* ===== verification/JsonText.v ===== *)
(** * encoding/json at the level of text

    The write-ahead log is a file of JSON lines, and what recovery makes of a
    line that was cut off depends on the text.  [print_json] writes the compact
    text of [json.Marshal]; [parse_json] reads one document with optional white
    space, as [json.Unmarshal] does.

    Numbers are integers (a fraction or an exponent, which the program never
    writes, is refused).  Strings are byte strings: bytes from 0x80 on are
    copied, which for valid UTF-8 is what the library does, except that it
    writes U+2028 and U+2029 as escapes.  A surrogate escape, which the library
    never writes either, is refused.  Documents with [JBytes] or [JInvalid] do
    not occur here ([plain]). *)
From stdpp Require Import prelude strings pretty.
From Stdlib Require Import Ascii.
From stdpp Require Import options.
From S2P Require Import Prelude Json.

Abbreviation text := (list ascii) (only parsing).

Definition code (c : ascii) : N := N_of_ascii c.
Definition dquote : ascii := ascii_of_N 34.

(** ** Writing *)

Definition hex_digit (n : N) : ascii :=
  ascii_of_N (if decide (n < 10)%N then n + 48 else n + 87)%N.

(** One byte of a string literal. *)
Definition escape (c : ascii) : text :=
  let n := code c in
  if decide (c = dquote ∨ c = "\"%char) then ["\"%char; c]
  else if decide (n = 8)%N then ["\"%char; "b"%char]
  else if decide (n = 12)%N then ["\"%char; "f"%char]
  else if decide (n = 10)%N then ["\"%char; "n"%char]
  else if decide (n = 13)%N then ["\"%char; "r"%char]
  else if decide (n = 9)%N then ["\"%char; "t"%char]
  else if decide (n < 32 ∨ n = 60 ∨ n = 62 ∨ n = 38)%N
  then ["\"%char; "u"%char; "0"%char; "0"%char; hex_digit (n / 16); hex_digit (n mod 16)]
  else [c].

Definition print_string (s : string) : text :=
  dquote :: (String.list_ascii_of_string s ≫= escape) ++ [dquote].

Definition print_num (z : Z) : text := String.list_ascii_of_string (pretty z).

(** The elements of a list separated by commas. *)
Fixpoint sep (l : list text) : text :=
  match l with
  | [] => []
  | [x] => x
  | x :: l => x ++ ","%char :: sep l
  end.

Fixpoint print_json (j : json) : text :=
  match j with
  | JNull => ["n"; "u"; "l"; "l"]%char
  | JBool true => ["t"; "r"; "u"; "e"]%char
  | JBool false => ["f"; "a"; "l"; "s"; "e"]%char
  | JNum z => print_num z
  | JStr s => print_string s
  | JArr l => "["%char :: sep (map print_json l) ++ ["]"%char]
  | JObj m => "{"%char :: sep (map (λ kv, print_string kv.1 ++ ":"%char :: print_json kv.2) m) ++ ["}"%char]
  | JBytes _ | JInvalid => []
  end.

(** ** Reading *)

Definition is_ws (c : ascii) : bool :=
  bool_decide (code c = 32 ∨ code c = 9 ∨ code c = 10 ∨ code c = 13)%N.

Fixpoint skip_ws (s : text) : text :=
  match s with
  | c :: s' => if is_ws c then skip_ws s' else s
  | [] => []
  end.

Definition hex_value (c : ascii) : option N :=
  let n := code c in
  if decide (48 ≤ n ∧ n ≤ 57)%N then Some (n - 48)%N
  else if decide (97 ≤ n ∧ n ≤ 102)%N then Some (n - 87)%N
  else if decide (65 ≤ n ∧ n ≤ 70)%N then Some (n - 55)%N
  else None.

(** The UTF-8 bytes of a code point of the basic plane, surrogates refused. *)
Definition utf8 (n : N) : option text :=
  if decide (n < 128)%N then Some [ascii_of_N n]
  else if decide (n < 2048)%N then Some [ascii_of_N (192 + n / 64); ascii_of_N (128 + n mod 64)]
  else if decide (55296 ≤ n ∧ n ≤ 57343)%N then None
  else Some [ascii_of_N (224 + n / 4096); ascii_of_N (128 + (n / 64) mod 64); ascii_of_N (128 + n mod 64)].

Definition simple_escape (c : ascii) : option ascii :=
  if decide (c = dquote ∨ c = "\"%char ∨ c = "/"%char) then Some c
  else if decide (c = "b"%char) then Some (ascii_of_N 8)
  else if decide (c = "f"%char) then Some (ascii_of_N 12)
  else if decide (c = "n"%char) then Some (ascii_of_N 10)
  else if decide (c = "r"%char) then Some (ascii_of_N 13)
  else if decide (c = "t"%char) then Some (ascii_of_N 9)
  else None.

Definition unicode_escape (a b c d : ascii) : option text :=
  a ← hex_value a; b ← hex_value b; c ← hex_value c; d ← hex_value d;
  utf8 (((a * 16 + b) * 16 + c) * 16 + d)%N.

(** The rest of a string literal after the opening quote. *)
Fixpoint parse_str (s : text) : option (text * text) :=
  match s with
  | [] => None
  | c :: s =>
      if decide (c = dquote) then Some ([], s)
      else if decide (c = "\"%char) then
        match s with
        | e :: s =>
            if decide (e = "u"%char) then
              match s with
              | h1 :: h2 :: h3 :: h4 :: s =>
                  u ← unicode_escape h1 h2 h3 h4; '(r, s) ← parse_str s; Some (u ++ r, s)
              | _ => None
              end
            else u ← simple_escape e; '(r, s) ← parse_str s; Some (u :: r, s)
        | [] => None
        end
      else if decide (code c < 32)%N then None
      else '(r, s) ← parse_str s; Some (c :: r, s)
  end.

Definition is_digit (c : ascii) : bool := bool_decide (is_Some (digit_of c)).

Fixpoint take_digits (s : text) : text * text :=
  match s with
  | c :: s' => if is_digit c then let '(d, r) := take_digits s' in (c :: d, r) else ([], s)
  | [] => ([], [])
  end.

(** An integer literal without sign: no leading zero, no fraction, no
    exponent. *)
Definition parse_nat (s : text) : option (N * text) :=
  let '(d, r) := take_digits s in
  match d with
  | [] => None
  | c :: d' =>
      if decide (c = "0"%char ∧ d' ≠ []) then None
      else
        match r with
        | c :: _ => if decide (c = "."%char ∨ c = "e"%char ∨ c = "E"%char) then None
                    else n ← parse_digits 0 (String.string_of_list_ascii d); Some (n, r)
        | [] => n ← parse_digits 0 (String.string_of_list_ascii d); Some (n, r)
        end
  end.

Definition parse_num (s : text) : option (json * text) :=
  match s with
  | c :: s' => if decide (c = "-"%char) then '(n, r) ← parse_nat s'; Some (JNum (- Z.of_N n), r)
               else '(n, r) ← parse_nat s; Some (JNum (Z.of_N n), r)
  | [] => None
  end.

Definition parse_name (s : text) : option (string * text) :=
  match skip_ws s with
  | c :: s => if decide (c = dquote) then '(r, s) ← parse_str s; Some (String.string_of_list_ascii r, s) else None
  | [] => None
  end.

(** A literal name such as [true]. *)
Definition parse_lit (lit : text) (j : json) (s : text) : option (json * text) :=
  if decide (take (length lit) s = lit) then Some (j, drop (length lit) s) else None.

(** One value, the elements of an array up to its bracket, and the members of
    an object up to its brace, with fuel. *)
Fixpoint parse_value (fuel : nat) (s : text) : option (json * text) :=
  match fuel with
  | O => None
  | S fuel =>
      match skip_ws s with
      | [] => None
      | c :: s' =>
          if decide (c = "{"%char) then
            match skip_ws s' with
            | c :: s'' => if decide (c = "}"%char) then Some (JObj [], s'')
                          else '(m, r) ← parse_members fuel s'; Some (JObj m, r)
            | [] => None
            end
          else if decide (c = "["%char) then
            match skip_ws s' with
            | c :: s'' => if decide (c = "]"%char) then Some (JArr [], s'')
                          else '(l, r) ← parse_elems fuel s'; Some (JArr l, r)
            | [] => None
            end
          else if decide (c = dquote) then '(r, s) ← parse_str s'; Some (JStr (String.string_of_list_ascii r), s)
          else if decide (c = "n"%char) then parse_lit ["n"; "u"; "l"; "l"]%char JNull (c :: s')
          else if decide (c = "t"%char) then parse_lit ["t"; "r"; "u"; "e"]%char (JBool true) (c :: s')
          else if decide (c = "f"%char) then parse_lit ["f"; "a"; "l"; "s"; "e"]%char (JBool false) (c :: s')
          else parse_num (c :: s')
      end
  end
with parse_elems (fuel : nat) (s : text) : option (list json * text) :=
  match fuel with
  | O => None
  | S fuel =>
      '(j, r) ← parse_value fuel s;
      match skip_ws r with
      | c :: r => if decide (c = ","%char) then '(l, r) ← parse_elems fuel r; Some (j :: l, r)
                  else if decide (c = "]"%char) then Some ([j], r) else None
      | [] => None
      end
  end
with parse_members (fuel : nat) (s : text) : option (list (string * json) * text) :=
  match fuel with
  | O => None
  | S fuel =>
      '(k, r) ← parse_name s;
      match skip_ws r with
      | c :: r =>
          if decide (c = ":"%char) then
            '(j, r) ← parse_value fuel r;
            match skip_ws r with
            | c :: r => if decide (c = ","%char) then '(m, r) ← parse_members fuel r; Some ((k, j) :: m, r)
                        else if decide (c = "}"%char) then Some ([(k, j)], r) else None
            | [] => None
            end
          else None
      | [] => None
      end
  end.

(** [json.Unmarshal] as far as the syntax: one value and nothing after it.
    Every call consumes a character or is followed by one that does, so twice
    the length is enough fuel. *)
Definition parse_json (s : text) : option json :=
  '(j, r) ← parse_value (2 * length s + 2) s;
  match skip_ws r with [] => Some j | _ => None end.

(** ** Print, then parse *)

Fixpoint plain (j : json) : bool :=
  match j with
  | JNull | JBool _ | JNum _ | JStr _ => true
  | JArr l => forallb plain l
  | JObj m => forallb (λ kv, plain kv.2) m
  | JBytes _ | JInvalid => false
  end.

Lemma json_nested_ind (P : json → Prop) :
  P JNull → (∀ b, P (JBool b)) → (∀ z, P (JNum z)) → (∀ s, P (JStr s)) →
  (∀ l, Forall P l → P (JArr l)) → (∀ m, Forall (λ kv, P kv.2) m → P (JObj m)) →
  (∀ j, P j → P (JBytes j)) → P JInvalid → ∀ j, P j.
Proof.
  intros H1 H2 H3 H4 H5 H6 H7 H8. fix IH 1. intros [|b|z|s|l|m|j|]; [apply H1|apply H2|apply H3|apply H4| | |apply H7, IH|apply H8].
  - apply H5. revert l. fix IHl 1. intros [|x l]; constructor; [apply IH|apply IHl].
  - apply H6. revert m. fix IHm 1. intros [|x m]; constructor; [apply IH|apply IHm].
Qed.

Lemma hex_value_digit n : (n < 16)%N → hex_value (hex_digit n) = Some n.
Proof.
  intros Hn. assert (n ∈ [0; 1; 2; 3; 4; 5; 6; 7; 8; 9; 10; 11; 12; 13; 14; 15]%N) as Hin
    by (rewrite !elem_of_cons; lia).
  revert n Hn Hin. cut (Forall (λ n, hex_value (hex_digit n) = Some n)
    [0; 1; 2; 3; 4; 5; 6; 7; 8; 9; 10; 11; 12; 13; 14; 15]%N).
  - intros Hf n _ Hin. by eapply Forall_forall in Hf.
  - by repeat constructor.
Qed.

Lemma parse_str_app s : ∀ r s' t, parse_str s = Some (r, s') → parse_str (s ++ t) = Some (r, s' ++ t).
Proof.
  assert (∀ n s, length s < n → ∀ r s' t, parse_str s = Some (r, s') → parse_str (s ++ t) = Some (r, s' ++ t))%nat
    as Hn; [|intros; by apply (Hn (S (length s))); [lia|]].
  clear s. intros n. induction n as [|n IH]; intros s Hl r s' t E; [lia|].
  destruct s as [|c s]; [done|]. cbn [parse_str app length] in *.
  case_decide; [by injection E as <- <-|]. case_decide.
  - destruct s as [|e s]; [done|]. cbn [app length] in *. case_decide.
    + destruct s as [|h1 [|h2 [|h3 [|h4 s]]]]; try done. cbn [app length] in *.
      apply bind_Some in E as (u & Eu & E). apply bind_Some in E as ([r1 s1] & Es & E). injection E as <- <-.
      rewrite Eu. cbn [mbind option_bind]. rewrite (IH s ltac:(lia) _ _ t Es). done.
    + apply bind_Some in E as (u & Eu & E). apply bind_Some in E as ([r1 s1] & Es & E). injection E as <- <-.
      rewrite Eu. cbn [mbind option_bind]. rewrite (IH s ltac:(lia) _ _ t Es). done.
  - case_decide; [done|]. apply bind_Some in E as ([r1 s1] & Es & E). injection E as <- <-.
    rewrite (IH s ltac:(lia) _ _ t Es). done.
Qed.

Lemma parse_str_escape c s r s' : parse_str s = Some (r, s') → parse_str (escape c ++ s) = Some (c :: r, s').
Proof.
  intros E. unfold escape. cbv zeta. case_decide as H1.
  { destruct H1 as [-> | ->]; cbn; rewrite E; done. }
  assert (c = ascii_of_N (code c)) as Hc by (unfold code; by rewrite ascii_N_embedding).
  do 5 (case_decide as H2; [rewrite H2 in Hc; subst c; cbn; rewrite E; done|clear H2]).
  case_decide as H3.
  - cbn [app parse_str]. rewrite decide_False by done. rewrite decide_True by done.
    rewrite decide_True by done. unfold unicode_escape.
    assert (code c < 256)%N as Hb by apply N_ascii_bounded.
    rewrite !(hex_value_digit (code c `mod` 16)) by (by apply N.mod_lt).
    rewrite (hex_value_digit (code c `div` 16)) by (apply N.Div0.div_lt_upper_bound; lia).
    change (hex_value "0"%char) with (Some 0%N). cbn [mbind option_bind].
    replace (((0 * 16 + 0) * 16 + code c `div` 16) * 16 + code c `mod` 16)%N with (code c)
      by (pose proof (N.div_mod (code c) 16); lia).
    unfold utf8. rewrite decide_True by lia. cbn [mbind option_bind]. rewrite E. cbn [mbind option_bind].
    unfold code. by rewrite ascii_N_embedding.
  - cbn [app parse_str]. rewrite decide_False by tauto. rewrite decide_False by tauto.
    rewrite decide_False by lia. rewrite E. done.
Qed.

Lemma parse_print_string s rest :
  parse_str ((String.list_ascii_of_string s ≫= escape) ++ dquote :: rest) =
  Some (String.list_ascii_of_string s, rest).
Proof.
  induction s as [|c s IH]; [done|]. cbn [String.list_ascii_of_string]. rewrite bind_cons, <-app_assoc.
  by apply parse_str_escape.
Qed.

(** What may follow a number. *)
Definition stops (s : text) : Prop :=
  match s with
  | [] => True
  | c :: _ => is_digit c = false ∧ c ≠ "."%char ∧ c ≠ "e"%char ∧ c ≠ "E"%char
  end.

Lemma take_digits_app d rest : Forall (λ c, is_digit c = true) d → stops rest →
  take_digits (d ++ rest) = (d, rest).
Proof.
  intros Hd Hs. induction Hd as [|c d Hc _ IH]; cbn.
  - destruct rest as [|c rest]; [done|]. cbn. destruct Hs as [-> _]. done.
  - rewrite Hc, IH. done.
Qed.

Lemma pretty_N_go_digits x : ∀ s, Forall (λ c, is_digit c = true) (String.list_ascii_of_string s) →
  Forall (λ c, is_digit c = true) (String.list_ascii_of_string (pretty_N_go x s)).
Proof.
  induction (N.lt_wf_0 x) as [x _ IH]; intros s Hs.
  destruct (decide (x = 0)%N) as [->|Hx]; [by rewrite pretty_N_go_0|].
  rewrite pretty_N_go_step by lia. apply IH; [apply N.div_lt; lia|]. constructor; [|done].
  unfold is_digit. rewrite digit_of_char by (apply N.mod_lt; lia). by apply bool_decide_eq_true.
Qed.

(** The text of a positive number begins with a digit other than 0. *)
Lemma pretty_N_go_head x : ∀ s, (0 < x)%N → ∃ d r, (0 < d < 10)%N ∧ pretty_N_go x s = String (pretty_N_char d) r.
Proof.
  induction (N.lt_wf_0 x) as [x _ IH]; intros s Hx. rewrite pretty_N_go_step by lia.
  destruct (decide (x < 10)%N).
  - rewrite (N.div_small x 10), pretty_N_go_0 by lia. exists x, s. split; [lia|].
    by rewrite N.mod_small.
  - apply IH; [apply N.div_lt; lia|]. apply N.div_str_pos. lia.
Qed.

Lemma parse_nat_pretty (n : N) rest : stops rest →
  parse_nat (String.list_ascii_of_string (pretty n) ++ rest) = Some (n, rest).
Proof.
  intros Hs. unfold parse_nat.
  assert (Forall (λ c, is_digit c = true) (String.list_ascii_of_string (pretty n))) as Hd.
  { unfold pretty, pretty_N. case_decide; [by repeat constructor|]. by apply pretty_N_go_digits. }
  rewrite take_digits_app by done. pose proof (parse_pretty_N n) as Hp.
  destruct (String.list_ascii_of_string (pretty n)) as [|c d] eqn:E.
  { destruct (pretty n) eqn:E2; [by destruct (pretty_N_nonempty n)|done]. }
  rewrite decide_False.
  2:{ intros [-> Hne]. unfold pretty, pretty_N in E. case_decide as Hn; [by injection E as <-|].
      destruct (pretty_N_go_head n "") as (k & r & Hk & E2); [lia|]. rewrite E2 in E. injection E as E _.
      assert (digit_of (pretty_N_char k) = Some k) as Hdk by (apply digit_of_char; lia).
      rewrite E in Hdk. cbn in Hdk. injection Hdk as <-. lia. }
  rewrite <-E, String.string_of_list_ascii_of_string, Hp. cbn [mbind option_bind].
  destruct rest as [|c' rest]; [done|]. destruct Hs as (_ & ? & ? & ?). rewrite decide_False by tauto. done.
Qed.

Lemma print_num_head z : ∃ c r, print_num z = c :: r ∧ (c = "-"%char ∨ is_digit c = true).
Proof.
  assert (∀ n : N, ∃ c r, String.list_ascii_of_string (pretty n) = c :: r ∧ is_digit c = true) as Hn.
  { intros n. assert (Forall (λ c, is_digit c = true) (String.list_ascii_of_string (pretty n))) as Hd.
    { unfold pretty, pretty_N. case_decide; [by repeat constructor|]. by apply pretty_N_go_digits. }
    destruct (pretty n) as [|c s] eqn:E; [by destruct (pretty_N_nonempty n)|]. cbn in *.
    apply Forall_cons in Hd as [? _]. by eexists _, _. }
  unfold print_num. destruct z as [|p|p].
  - eexists _, _. split; [reflexivity|]. by right.
  - destruct (Hn (N.pos p)) as (c & r & E & Hc). exists c, r. split; [exact E|by right].
  - eexists _, _. split; [reflexivity|by left].
Qed.

Lemma parse_print_num z rest : stops rest → parse_num (print_num z ++ rest) = Some (JNum z, rest).
Proof.
  intros Hs. unfold print_num. destruct z as [|p|p].
  - change (pretty 0%Z) with (pretty 0%N). cbn [parse_num].
    pose proof (parse_nat_pretty 0 rest Hs) as Hp. change (String.list_ascii_of_string (pretty 0%N)) with ["0"%char] in *.
    cbn [app parse_num] in *. rewrite decide_False by done. rewrite Hp. done.
  - change (pretty (Z.pos p)) with (pretty (N.pos p)). pose proof (parse_nat_pretty (N.pos p) rest Hs) as Hp.
    destruct (print_num_head (Z.pos p)) as (c & r & E & Hc). unfold print_num in E.
    change (pretty (Z.pos p)) with (pretty (N.pos p)) in E. rewrite E in *. cbn [app parse_num] in *.
    rewrite decide_False.
    + rewrite Hp. done.
    + intros ->. destruct Hc as [_|Hc]; [|done].
      assert (Forall (λ c, is_digit c = true) (String.list_ascii_of_string (pretty (N.pos p)))) as Hd.
      { unfold pretty, pretty_N. case_decide; [done|]. by apply pretty_N_go_digits. }
      rewrite E in Hd. by apply Forall_cons in Hd as [Hd _].
  - change (String.list_ascii_of_string (pretty (Z.neg p))) with
      ("-"%char :: String.list_ascii_of_string (pretty (N.pos p))). cbn [app parse_num].
    rewrite decide_True by done. rewrite (parse_nat_pretty (N.pos p) rest Hs). done.
Qed.

(** The first character of the text of a value. *)
Lemma print_head j : plain j = true → ∃ c r, print_json j = c :: r ∧ is_ws c = false ∧
  c ≠ "]"%char ∧ c ≠ "}"%char.
Proof.
  destruct j as [|[]|z|s|l|m|j|]; intros Hp; try done; try (eexists _, _; split; [reflexivity|done]).
  destruct (print_num_head z) as (c & r & E & Hc). exists c, r. split; [exact E|].
  destruct Hc as [->|Hc]; [done|]. unfold is_digit in Hc. apply bool_decide_eq_true in Hc as [d Hd].
  unfold digit_of in Hd. case_decide as Hr; [|done]. split_and!.
  - unfold is_ws. apply bool_decide_eq_false. unfold code. lia.
  - intros ->. cbn in Hr. lia.
  - intros ->. cbn in Hr. lia.
Qed.

Lemma skip_ws_nows c s : is_ws c = false → skip_ws (c :: s) = c :: s.
Proof. intros H. cbn. by rewrite H. Qed.

Lemma sep_cons x y l : sep (x :: y :: l) = x ++ ","%char :: sep (y :: l).
Proof. done. Qed.

Lemma parse_value_num f z rest : stops rest →
  parse_value (S f) (print_num z ++ rest) = Some (JNum z, rest).
Proof.
  intros Hs. rewrite <-(parse_print_num z rest Hs). destruct (print_num_head z) as (c & r & -> & Hc).
  cbn [app parse_value].
  assert (∀ a, a ≠ "-"%char → is_digit a = false → c ≠ a) as Hne by (destruct Hc; congruence).
  rewrite skip_ws_nows.
  2:{ destruct Hc as [->|Hc]; [done|]. unfold is_digit in Hc. apply bool_decide_eq_true in Hc as [d Hd].
      unfold digit_of in Hd. case_decide; [|done]. apply bool_decide_eq_false. unfold code. lia. }
  by rewrite !decide_False by (apply Hne; done).
Qed.

Lemma parse_name_print k rest : parse_name (print_string k ++ rest) = Some (k, rest).
Proof.
  unfold parse_name, print_string. cbn [app]. rewrite skip_ws_nows by done. rewrite decide_True by done.
  rewrite <-app_assoc. cbn [app]. rewrite parse_print_string. cbn [mbind option_bind].
  by rewrite String.string_of_list_ascii_of_string.
Qed.

Definition prints (j : json) : Prop := ∀ f rest,
  (2 * length (print_json j) ≤ f)%nat → stops rest → parse_value f (print_json j ++ rest) = Some (j, rest).

Lemma parse_elems_print l : Forall prints l → l ≠ [] → ∀ f rest,
  (2 * length (sep (map print_json l)) < f)%nat →
  parse_elems f (sep (map print_json l) ++ "]"%char :: rest) = Some (l, rest).
Proof.
  induction 1 as [|j l Hj _ IH]; intros Hne f rest Hf; [done|]. destruct f as [|f]; [lia|].
  destruct l as [|j2 l].
  - cbn [map sep app parse_elems] in *. rewrite Hj by (done || lia). cbn [mbind option_bind].
    rewrite skip_ws_nows by done. by rewrite decide_False, decide_True by done.
  - cbn [map] in *. rewrite sep_cons in *. rewrite length_app in Hf. cbn [length] in Hf.
    rewrite <-app_assoc. cbn [app parse_elems]. rewrite Hj by (done || lia). cbn [mbind option_bind].
    rewrite skip_ws_nows by done. rewrite decide_True by done. by rewrite IH by (done || lia).
Qed.

Lemma parse_members_print m : Forall (λ kv, prints kv.2) m → m ≠ [] → ∀ f rest,
  (2 * length (sep (map (λ kv, print_string kv.1 ++ ":"%char :: print_json kv.2) m)) < f)%nat →
  parse_members f (sep (map (λ kv, print_string kv.1 ++ ":"%char :: print_json kv.2) m) ++ "}"%char :: rest) =
  Some (m, rest).
Proof.
  induction 1 as [|[k j] m Hj _ IH]; intros Hne f rest Hf; [done|]. destruct f as [|f]; [lia|].
  cbn [snd] in Hj. destruct m as [|kv m].
  - cbn [map sep fst snd] in *. rewrite length_app in Hf. cbn [length] in Hf.
    rewrite <-app_assoc. cbn [app parse_members]. rewrite parse_name_print. cbn [mbind option_bind].
    rewrite skip_ws_nows by done. rewrite decide_True by done. rewrite Hj by (done || lia). cbn [mbind option_bind].
    rewrite skip_ws_nows by done. by rewrite decide_False, decide_True by done.
  - cbn [map fst snd] in *. rewrite sep_cons in *. rewrite !length_app in Hf. cbn [length] in Hf.
    rewrite <-!app_assoc. cbn [app parse_members]. rewrite parse_name_print. cbn [mbind option_bind].
    rewrite skip_ws_nows by done. rewrite decide_True by done.
    rewrite Hj by (done || lia). cbn [mbind option_bind].
    rewrite skip_ws_nows by done. rewrite decide_True by done. by rewrite IH by (done || lia).
Qed.

Lemma sep_head j l c r : print_json j = c :: r → ∃ r', sep (map print_json (j :: l)) = c :: r'.
Proof. intros E. destruct l; cbn [map]; [cbn|rewrite sep_cons]; rewrite E; by eexists. Qed.

Lemma parse_value_print j : plain j = true → prints j.
Proof.
  induction j as [|b|z|s|l IH|m IH|j IH|] using json_nested_ind; intros Hp f rest Hf Hs; try done;
    (destruct f as [|f]; [destruct (print_head _ Hp) as (c & r & E & _); rewrite E in Hf; cbn in Hf; lia|]).
  - done.
  - by destruct b.
  - by apply parse_value_num.
  - unfold print_json, print_string. cbn [app parse_value]. rewrite skip_ws_nows by done.
    rewrite 2!decide_False, decide_True by done. rewrite <-app_assoc. cbn [app].
    rewrite parse_print_string. cbn [mbind option_bind]. by rewrite String.string_of_list_ascii_of_string.
  - cbn [print_json app length] in *. rewrite length_app in Hf. cbn [length] in Hf.
    cbn [parse_value]. rewrite skip_ws_nows by done. rewrite decide_False, decide_True by done.
    rewrite <-app_assoc. cbn [app]. destruct l as [|j l]; [done|].
    cbn [plain] in Hp. apply Is_true_eq_left in Hp.
    assert (Forall prints (j :: l)) as Hall.
    { apply Forall_forall. intros x Hx. eapply Forall_forall in IH; [|exact Hx]. apply IH.
      apply Is_true_true. apply forallb_True in Hp. by eapply Forall_forall in Hp. }
    destruct (print_head j) as (c & r & E & Hw & H1 & H2).
    { apply forallb_True in Hp. apply Forall_cons in Hp as [Hp _]. by apply Is_true_true. }
    destruct (sep_head j l c r E) as [r' Er]. rewrite Er at 1. cbn [app]. rewrite skip_ws_nows by done.
    rewrite decide_False by done. rewrite parse_elems_print; [done|done|done|]. lia.
  - cbn [print_json app length] in *. rewrite length_app in Hf. cbn [length] in Hf.
    cbn [parse_value]. rewrite skip_ws_nows by done. rewrite decide_True by done.
    rewrite <-app_assoc. cbn [app]. destruct m as [|[k j] m]; [done|].
    assert (Forall (λ kv, prints kv.2) ((k, j) :: m)) as Hall.
    { cbn [plain] in Hp. apply Is_true_eq_left, forallb_True in Hp.
      apply Forall_forall. intros x Hx. eapply Forall_forall in IH; [|exact Hx]. apply IH.
      apply Is_true_true. by eapply Forall_forall in Hp. }
    assert (∃ r, sep (map (λ kv, print_string kv.1 ++ ":"%char :: print_json kv.2) ((k, j) :: m)) = dquote :: r)
      as [r Er] by (destruct m; [cbn|cbn [map]; rewrite sep_cons]; by eexists).
    rewrite Er at 1. cbn [app]. rewrite skip_ws_nows by done.
    rewrite decide_False by done. rewrite parse_members_print; [done|done|done|]. lia.
Qed.

Lemma parse_json_print j : plain j = true → parse_json (print_json j) = Some j.
Proof.
  intros Hp. unfold parse_json. pose proof (parse_value_print j Hp (2 * length (print_json j) + 2) []) as H.
  rewrite app_nil_r in H. rewrite H; [done|lia|done].
Qed.

(** ** A value is read the same way when more text follows *)

Lemma skip_ws_app s c r t : skip_ws s = c :: r → skip_ws (s ++ t) = c :: r ++ t.
Proof.
  induction s as [|a s IH]; [done|]. cbn. destruct (is_ws a); [done|]. by intros [= -> ->].
Qed.

Lemma take_digits_ext s d c r t : take_digits s = (d, c :: r) → take_digits (s ++ t) = (d, c :: r ++ t).
Proof.
  revert d. induction s as [|a s IH]; intros d E; [done|]. cbn in *. destruct (is_digit a).
  - destruct (take_digits s) as [d1 r1] eqn:E1. injection E as <- ->. by rewrite (IH d1).
  - by injection E as <- <- <-.
Qed.

Lemma parse_nat_app s n r t : parse_nat s = Some (n, r) → r ≠ [] → parse_nat (s ++ t) = Some (n, r ++ t).
Proof.
  unfold parse_nat. destruct (take_digits s) as [d r1] eqn:E. intros Hp Hr.
  destruct d as [|a d]; [done|]. case_decide as Hz; [done|].
  destruct r1 as [|c r1].
  - apply bind_Some in Hp as (k & _ & Hp). by injection Hp as _ <-.
  - rewrite (take_digits_ext _ _ _ _ t E). rewrite decide_False by done. case_decide; [done|].
    apply bind_Some in Hp as (k & Ek & Hp). injection Hp as <- <-. by rewrite Ek.
Qed.

Lemma parse_num_app s j r t : parse_num s = Some (j, r) → r ≠ [] → parse_num (s ++ t) = Some (j, r ++ t).
Proof.
  unfold parse_num. destruct s as [|c s]; [done|]. cbn [app]. intros E Hr.
  case_decide; apply bind_Some in E as ([n r1] & E1 & E); injection E as <- <-.
  - by rewrite (parse_nat_app _ _ _ t E1 Hr).
  - change (c :: s ++ t) with ((c :: s) ++ t). by rewrite (parse_nat_app _ _ _ t E1 Hr).
Qed.

Lemma parse_lit_app lit j s j' r t : parse_lit lit j s = Some (j', r) → parse_lit lit j (s ++ t) = Some (j', r ++ t).
Proof.
  unfold parse_lit. case_decide as E; [|done]. intros [= <- <-].
  assert (length lit ≤ length s)%nat by (rewrite <-E at 1; rewrite length_take; lia).
  rewrite take_app_le, decide_True by done. by rewrite drop_app_le.
Qed.

Lemma parse_name_app s k r t : parse_name s = Some (k, r) → parse_name (s ++ t) = Some (k, r ++ t).
Proof.
  unfold parse_name. destruct (skip_ws s) as [|c s'] eqn:E; [done|]. rewrite (skip_ws_app _ _ _ t E).
  case_decide; [|done]. intros Hp. apply bind_Some in Hp as ([a b] & E1 & Hp). injection Hp as <- <-.
  by rewrite (parse_str_app _ _ _ t E1).
Qed.

Definition is_num (j : json) : bool := match j with JNum _ => true | _ => false end.

Lemma parse_ext f :
  (∀ s j r f' t, parse_value f s = Some (j, r) → (f ≤ f')%nat → r ≠ [] ∨ is_num j = false →
     parse_value f' (s ++ t) = Some (j, r ++ t)) ∧
  (∀ s l r f' t, parse_elems f s = Some (l, r) → (f ≤ f')%nat → parse_elems f' (s ++ t) = Some (l, r ++ t)) ∧
  (∀ s m r f' t, parse_members f s = Some (m, r) → (f ≤ f')%nat → parse_members f' (s ++ t) = Some (m, r ++ t)).
Proof.
  induction f as [|f (IHv & IHe & IHm)]; [done|]. split_and!.
  - intros s j r f' t E Hf Hr. destruct f' as [|f']; [lia|]. assert (f ≤ f')%nat as Hf' by lia.
    cbn [parse_value] in *. destruct (skip_ws s) as [|c s'] eqn:Es; [done|]. rewrite (skip_ws_app _ _ _ t Es).
    case_decide.
    { destruct (skip_ws s') as [|c1 s1] eqn:E1; [done|]. rewrite (skip_ws_app _ _ _ t E1).
      case_decide; [by injection E as <- <-|]. apply bind_Some in E as ([m r1] & Em & E). injection E as <- <-.
      by rewrite (IHm _ _ _ f' t Em Hf'). }
    case_decide.
    { destruct (skip_ws s') as [|c1 s1] eqn:E1; [done|]. rewrite (skip_ws_app _ _ _ t E1).
      case_decide; [by injection E as <- <-|]. apply bind_Some in E as ([m r1] & Em & E). injection E as <- <-.
      by rewrite (IHe _ _ _ f' t Em Hf'). }
    case_decide.
    { apply bind_Some in E as ([a b] & E1 & E). injection E as <- <-. by rewrite (parse_str_app _ _ _ t E1). }
    change (c :: s' ++ t) with ((c :: s') ++ t).
    do 3 (case_decide; [by apply parse_lit_app|]). apply parse_num_app; [done|].
    destruct Hr as [Hr|Hr]; [done|]. cbn [parse_num] in E.
    case_decide; apply bind_Some in E as ([a b] & _ & E); by injection E as <- <-.
  - intros s l r f' t E Hf. destruct f' as [|f']; [lia|]. assert (f ≤ f')%nat as Hf' by lia.
    cbn [parse_elems] in *. apply bind_Some in E as ([j r1] & Ev & E).
    destruct (skip_ws r1) as [|c r2] eqn:E1; [done|].
    rewrite (IHv _ _ _ f' t Ev Hf') by (left; by intros ->). cbn [mbind option_bind].
    rewrite (skip_ws_app _ _ _ t E1). case_decide.
    + apply bind_Some in E as ([l' r3] & El & E). injection E as <- <-. by rewrite (IHe _ _ _ f' t El Hf').
    + case_decide; [|done]. by injection E as <- <-.
  - intros s m r f' t E Hf. destruct f' as [|f']; [lia|]. assert (f ≤ f')%nat as Hf' by lia.
    cbn [parse_members] in *. apply bind_Some in E as ([k r1] & Ek & E).
    rewrite (parse_name_app _ _ _ t Ek). cbn [mbind option_bind].
    destruct (skip_ws r1) as [|c r2] eqn:E1; [done|]. rewrite (skip_ws_app _ _ _ t E1). case_decide; [|done].
    apply bind_Some in E as ([j r3] & Ev & E). destruct (skip_ws r3) as [|c3 r4] eqn:E3; [done|].
    rewrite (IHv _ _ _ f' t Ev Hf') by (left; by intros ->). cbn [mbind option_bind].
    rewrite (skip_ws_app _ _ _ t E3). case_decide.
    + apply bind_Some in E as ([l' r5] & El & E). injection E as <- <-. by rewrite (IHm _ _ _ f' t El Hf').
    + case_decide; [|done]. by injection E as <- <-.
Qed.

(** The text of an object that was cut off is not a document. *)
Lemma parse_json_cut m s t : plain (JObj m) = true → print_json (JObj m) = s ++ t → t ≠ [] → parse_json s = None.
Proof.
  intros Hp E Ht. unfold parse_json. destruct (parse_value _ s) as [[j r]|] eqn:Ev; [|done].
  cbn [mbind option_bind]. destruct s as [|c s]; [done|].
  assert (c = "{"%char) as -> by (cbn in E; by injection E).
  assert (is_num j = false) as Hj.
  { replace (2 * length ("{"%char :: s) + 2)%nat with (S (2 * length ("{"%char :: s) + 1))%nat in Ev by lia.
    cbn [parse_value] in Ev. rewrite skip_ws_nows in Ev by done. rewrite decide_True in Ev by done.
    destruct (skip_ws s); [done|]. case_decide; [by injection Ev as <- _|].
    apply bind_Some in Ev as ([? ?] & _ & Ev). by injection Ev as <- _. }
  pose proof (proj1 (parse_ext _) _ _ _ (2 * length (print_json (JObj m)) + 2)%nat t Ev) as Hx.
  rewrite <-E in Hx. pose proof (parse_value_print (JObj m) Hp (2 * length (print_json (JObj m)) + 2) []) as Hy.
  rewrite app_nil_r in Hy. rewrite Hy in Hx by (done || lia).
  assert (2 * length ("{"%char :: s) + 2 ≤ 2 * length (print_json (JObj m)) + 2)%nat as Hl
    by (rewrite E, length_app; lia).
  specialize (Hx Hl (or_intror Hj)). injection Hx as _ Hx. symmetry in Hx. apply app_eq_nil in Hx as [_ Hx]. done.
Qed.

(** Printed text is one line. *)
Definition no_newline (s : text) : Prop := Forall (λ c, code c ≠ 10%N) s.

Lemma hex_digit_code n : (n < 16)%N → code (hex_digit n) ≠ 10%N.
Proof.
  intros Hn. unfold hex_digit, code. case_decide; rewrite N_ascii_embedding by lia; lia.
Qed.

Lemma escape_no_newline c : no_newline (escape c).
Proof.
  unfold escape. cbv zeta. assert (code c < 256)%N as Hb by apply N_ascii_bounded.
  case_decide as H1; [destruct H1; subst; by repeat constructor|].
  do 5 (case_decide; [by repeat constructor|]).
  case_decide; [|repeat constructor; lia].
  repeat (apply Forall_cons; split); try done; apply hex_digit_code; [|by apply N.mod_lt].
  apply N.Div0.div_lt_upper_bound. lia.
Qed.

Lemma print_string_no_newline s : no_newline (print_string s).
Proof.
  apply Forall_cons. split; [done|]. apply Forall_app. split; [|by repeat constructor].
  induction (String.list_ascii_of_string s) as [|c l IH]; [constructor|].
  rewrite bind_cons. apply Forall_app. split; [apply escape_no_newline|done].
Qed.

Lemma print_num_no_newline z : no_newline (print_num z).
Proof.
  assert (∀ n : N, no_newline (String.list_ascii_of_string (pretty n))) as Hn.
  { intros n. assert (Forall (λ c, is_digit c = true) (String.list_ascii_of_string (pretty n))) as Hd.
    { unfold pretty, pretty_N. case_decide; [by repeat constructor|]. by apply pretty_N_go_digits. }
    eapply Forall_impl; [exact Hd|]. intros c Hc Hn'. unfold is_digit, digit_of in Hc. unfold code in Hn'.
    rewrite decide_False in Hc by lia. by apply bool_decide_eq_true in Hc as [? ?]. }
  unfold print_num. destruct z; [by repeat constructor|apply (Hn (N.pos p))|].
  apply Forall_cons. split; [done|]. apply (Hn (N.pos p)).
Qed.

Lemma sep_no_newline l : Forall no_newline l → no_newline (sep l).
Proof.
  induction 1 as [|x l Hx Hl IH]; [constructor|]. destruct l as [|y l]; [done|]. rewrite sep_cons.
  apply Forall_app. split; [done|]. by apply Forall_cons.
Qed.

Lemma print_no_newline j : no_newline (print_json j).
Proof.
  induction j as [|[]|z|s|l IH|m IH|j IH|] using json_nested_ind; try by repeat constructor.
  - apply print_num_no_newline.
  - apply print_string_no_newline.
  - apply Forall_cons. split; [done|]. apply Forall_app. split; [|by repeat constructor].
    apply sep_no_newline. by apply Forall_fmap.
  - apply Forall_cons. split; [done|]. apply Forall_app. split; [|by repeat constructor].
    apply sep_no_newline. apply Forall_fmap. eapply Forall_impl; [exact IH|]. intros [k v] Hv.
    change (no_newline (print_string k ++ ":"%char :: print_json v)). apply Forall_app. split; [apply print_string_no_newline|]. by apply Forall_cons.
Qed.
