(* ===== verification/KvApi.v ===== *)
(** * pkg/kv/kvapi.go: request, reply and error types of the KV service

    One record per Go struct, with the struct's fields in order; the [any]
    that travels through the replicated log is the sum [request], and the [any]
    that [DoOp] returns is the sum [reply].  [Tversion] is Go's [int]. *)
From stdpp Require Import prelude gmap strings.
From stdpp Require Import options.
From S2P Require Import Prelude.
Local Open Scope Z_scope.

Inductive Err :=
  | OK | ErrNoKey | ErrWrongLeader | ErrVersion | ErrMaybe
  | ErrWrongGroup | ErrTxConflict | ErrTxNotFound | ErrTxTimeout.
#[global] Instance Err_eq_dec : EqDecision Err.
Proof. solve_decision. Defined.

(** The error codes are strings on the wire ([errReply] of grpc.go). *)
Definition errReply (e : Err) : string :=
  match e with
  | OK => "OK" | ErrNoKey => "ErrNoKey" | ErrWrongLeader => "ErrWrongLeader"
  | ErrVersion => "ErrVersion" | ErrMaybe => "ErrMaybe"
  | ErrWrongGroup => "ErrWrongGroup" | ErrTxConflict => "ErrTxConflict"
  | ErrTxNotFound => "ErrTxNotFound" | ErrTxTimeout => "ErrTxTimeout"
  end.

(** [mapPBErr] of client.go: every text that is not a known code is treated
    as a leader error. *)
Definition mapPBErr (s : string) : Err :=
  if decide (s = "OK" ∨ s = "") then OK
  else if decide (s = "ErrNoKey") then ErrNoKey
  else if decide (s = "ErrWrongLeader") then ErrWrongLeader
  else if decide (s = "ErrVersion") then ErrVersion
  else if decide (s = "ErrMaybe") then ErrMaybe
  else if decide (s = "ErrWrongGroup") then ErrWrongGroup
  else if decide (s = "ErrTxConflict") then ErrTxConflict
  else if decide (s = "ErrTxNotFound") then ErrTxNotFound
  else if decide (s = "ErrTxTimeout") then ErrTxTimeout
  else ErrWrongLeader.

(** The generated enum [pb.ShardState]: an open [int32], so a number without a
    name is a value of the type as well. *)
Abbreviation ShardState := Z (only parsing).
Definition OWNED : ShardState := 0.
Definition MIGRATING : ShardState := 1.
Definition IMPORTING : ShardState := 2.
Definition ABSENT : ShardState := 3.

Record GetArgs := { GetArgs_Key : string }.
Record GetReply := {
  GetReply_Value : string; GetReply_Version : Z; GetReply_Expires : Z; GetReply_Err : Err;
  GetReply_HintGroupID : Z; GetReply_HintReplicas : list string; GetReply_HintEpoch : Z }.
Record PutArgs := {
  PutArgs_Key : string; PutArgs_Value : string; PutArgs_Version : Z; PutArgs_TTL : Z }.
Record PutReply := {
  PutReply_Err : Err; PutReply_OldValue : string;
  PutReply_HintGroupID : Z; PutReply_HintReplicas : list string; PutReply_HintEpoch : Z }.
Record DeleteArgs := { DeleteArgs_Key : string }.
Record DeleteReply := {
  DeleteReply_Err : Err; DeleteReply_OldValue : string;
  DeleteReply_HintGroupID : Z; DeleteReply_HintReplicas : list string;
  DeleteReply_HintEpoch : Z }.

Record CleanupShardKey := {
  CleanupShardKey_Key : string; CleanupShardKey_ExpectedVersion : Z }.
Record CleanupShardArgs := {
  CleanupShardArgs_ShardID : Z; CleanupShardArgs_Keys : list CleanupShardKey }.
Record CleanupShardReply := { CleanupShardReply_Deleted : Z; CleanupShardReply_Err : Err }.

Record SetShardStateArgs := {
  SetShardStateArgs_ShardID : Z; SetShardStateArgs_State : ShardState;
  SetShardStateArgs_TargetGroup : Z; SetShardStateArgs_TopologyEpoch : Z;
  SetShardStateArgs_TargetReplicas : list string }.
Record SetShardStateReply := { SetShardStateReply_Error : string }.

Record ScanArgs := { ScanArgs_Prefix : string; ScanArgs_Limit : Z }.
Record ScanItem := {
  ScanItem_Key : string; ScanItem_Value : string;
  ScanItem_Version : Z; ScanItem_Expires : Z }.
Record ScanReply := { ScanReply_Items : list ScanItem; ScanReply_Err : Err }.

Record ExpireArgs := { ExpireArgs_Keys : list string; ExpireArgs_Cutoff : Z }.
Record ExpireReply := {
  ExpireReply_ExpiredKeys : list string;
  ExpireReply_ExpiredOldValues : gmap string string; ExpireReply_Err : Err }.

(** ** Two-phase commit *)

Record ReadKey := {
  ReadKey_Key : string; ReadKey_Value : string; ReadKey_ExpectedVersion : Z }.
Record WriteKey := {
  WriteKey_Key : string; WriteKey_Value : string;
  WriteKey_Version : Z; WriteKey_IsDelete : bool }.
#[global] Instance ReadKey_eq_dec : EqDecision ReadKey.
Proof. solve_decision. Defined.
#[global] Instance WriteKey_eq_dec : EqDecision WriteKey.
Proof. solve_decision. Defined.

Record PrepareTxArgs := {
  PrepareTxArgs_TxID : string; PrepareTxArgs_ReadKeys : list ReadKey;
  PrepareTxArgs_WriteKeys : list WriteKey; PrepareTxArgs_TimeoutMs : Z;
  PrepareTxArgs_CoordinatorGroupID : Z; PrepareTxArgs_ParticipantGroupIDs : list Z }.
Record PrepareTxReply := { PrepareTxReply_Err : Err }.
Record CommitTxArgs := { CommitTxArgs_TxID : string; CommitTxArgs_WriteKeys : list WriteKey }.
Record CommitTxReply := { CommitTxReply_Err : Err }.
Record AbortTxArgs := { AbortTxArgs_TxID : string }.
Record AbortTxReply := { AbortTxReply_Err : Err }.

(** [type TxStatus int] with its [iota] constants. *)
Abbreviation TxStatus := Z (only parsing).
Definition TxStatusNotFound : TxStatus := 0.
Definition TxStatusPrepared : TxStatus := 1.
Definition TxStatusCommitted : TxStatus := 2.
Definition TxStatusAborted : TxStatus := 3.
Definition TxStatusUnknown : TxStatus := 4.

Record RecordTxDecisionArgs := {
  RecordTxDecisionArgs_TxID : string; RecordTxDecisionArgs_Decision : TxStatus;
  RecordTxDecisionArgs_ParticipantGroupIDs : list Z;
  RecordTxDecisionArgs_WriteKeys : list WriteKey }.
Record RecordTxDecisionReply := { RecordTxDecisionReply_Err : Err }.

Record ResolveTxStatusArgs := { ResolveTxStatusArgs_TxID : string }.
Record ResolveTxStatusReply := {
  ResolveTxStatusReply_Status : TxStatus; ResolveTxStatusReply_PreparedAt : Z;
  ResolveTxStatusReply_WriteKeys : list WriteKey; ResolveTxStatusReply_Err : Err;
  ResolveTxStatusReply_CoordinatorGroupID : Z;
  ResolveTxStatusReply_ParticipantGroupIDs : list Z }.

(** The values that [Op.Req] carries through the log. *)
Inductive request :=
  | ReqSetShardState (a : SetShardStateArgs)
  | ReqGet (a : GetArgs)
  | ReqPut (a : PutArgs)
  | ReqDelete (a : DeleteArgs)
  | ReqCleanupShard (a : CleanupShardArgs)
  | ReqScan (a : ScanArgs)
  | ReqExpire (a : ExpireArgs)
  | ReqPrepareTx (a : PrepareTxArgs)
  | ReqCommitTx (a : CommitTxArgs)
  | ReqAbortTx (a : AbortTxArgs)
  | ReqResolveTxStatus (a : ResolveTxStatusArgs)
  | ReqRecordTxDecision (a : RecordTxDecisionArgs).

Inductive reply :=
  | RepSetShardState (r : SetShardStateReply)
  | RepGet (r : GetReply)
  | RepPut (r : PutReply)
  | RepDelete (r : DeleteReply)
  | RepCleanupShard (r : CleanupShardReply)
  | RepScan (r : ScanReply)
  | RepExpire (r : ExpireReply)
  | RepPrepareTx (r : PrepareTxReply)
  | RepCommitTx (r : CommitTxReply)
  | RepAbortTx (r : AbortTxReply)
  | RepResolveTxStatus (r : ResolveTxStatusReply)
  | RepRecordTxDecision (r : RecordTxDecisionReply).

Lemma mapPBErr_errReply e : mapPBErr (errReply e) = e.
Proof. by destruct e. Qed.

