(* ===== verification/ExpiryHeap.v ===== *)
(** * The TTL heap of pkg/storage/store.go

    [expiryHeap] with its [Less]/[Swap]/[Push]/[Pop] methods and the routines of
    [container/heap] the store calls on it ([heap.Push], [heap.Pop] with their
    sift loops [up] and [down]).  The loops carry fuel; the heap-order theorems
    show that the fuel chosen, the length of the slice, is always enough. *)
From stdpp Require Import prelude gmap strings sorting.
From Stdlib Require Import ZifyNat.
From stdpp Require Import options.
From S2P Require Import Prelude.
Local Open Scope nat_scope.

(** Parent indices are [(k - 1) / 2]: let [lia] see the division. *)
#[local] Ltac Zify.zify_post_hook ::= Z.to_euclidean_division_equations.

Record expiryItem := { ei_key : string; ei_expires : Z }.
Abbreviation expiryHeap := (list expiryItem) (only parsing).

(** The [expires] field at index [i], for the indices in range. *)
Definition exp (h : expiryHeap) (i : nat) : Z := default 0%Z (ei_expires <$> h !! i).

Definition Less (h : expiryHeap) (i j : nat) : bool := bool_decide (exp h i < exp h j)%Z.

(** [h[i], h[j] = h[j], h[i]] *)
Definition Swap (h : expiryHeap) (i j : nat) : expiryHeap :=
  match h !! i, h !! j with
  | Some x, Some y => <[j := x]> (<[i := y]> h)
  | _, _ => h
  end.

(** The [up] loop of container/heap; [(0 - 1) / 2] is [0] in Go. *)
Fixpoint up (fuel : nat) (h : expiryHeap) (j : nat) : expiryHeap :=
  match fuel with
  | O => h
  | S fuel =>
      let i := (j - 1) / 2 in
      if decide (i = j) then h
      else if negb (Less h j i) then h
      else up fuel (Swap h i j) i
  end.

(** The [down] loop of container/heap on the first [n] elements. *)
Fixpoint down (fuel : nat) (h : expiryHeap) (i n : nat) : expiryHeap :=
  match fuel with
  | O => h
  | S fuel =>
      let j1 := 2 * i + 1 in
      if decide (n ≤ j1) then h
      else
        let j := if decide (j1 + 1 < n) then (if Less h (j1 + 1) j1 then j1 + 1 else j1) else j1 in
        if negb (Less h j i) then h
        else down fuel (Swap h i j) j n
  end.

(** [heap.Push]: append, then sift up. *)
Definition heap_Push (h : expiryHeap) (x : expiryItem) : expiryHeap :=
  let h := h ++ [x] in
  up (length h) h (length h - 1).

(** [heap.Pop]: swap the root with the last element, sift down, remove. *)
Definition heap_Pop (h : expiryHeap) : option (expiryItem * expiryHeap) :=
  let n := length h - 1 in
  let h := down (length h) (Swap h 0 n) 0 n in
  match h !! n with
  | Some x => Some (x, take n h)
  | None => None
  end.

(** The heap order on the first [n] elements. *)
Definition heap_upto (h : expiryHeap) (n : nat) : Prop :=
  ∀ k, 0 < k < n → (exp h ((k - 1) / 2) ≤ exp h k)%Z.
Definition heap_ok (h : expiryHeap) : Prop := heap_upto h (length h).

Lemma length_Swap h i j : length (Swap h i j) = length h.
Proof. unfold Swap. repeat case_match; by rewrite ?length_insert. Qed.

Lemma Swap_Permutation h i j : Swap h i j ≡ₚ h.
Proof.
  unfold Swap. destruct (h !! i) as [x|] eqn:Hi, (h !! j) as [y|] eqn:Hj; try done.
  by apply Permutation_insert_swap.
Qed.

Lemma exp_Swap h i j k :
  i < length h → j < length h →
  exp (Swap h i j) k = if decide (k = j) then exp h i else if decide (k = i) then exp h j else exp h k.
Proof.
  intros Hi Hj. unfold Swap, exp.
  destruct (lookup_lt_is_Some_2 _ _ Hi) as [x Hx], (lookup_lt_is_Some_2 _ _ Hj) as [y Hy].
  rewrite Hx, Hy. destruct (decide (k = j)) as [->|].
  - by rewrite list_lookup_insert_eq by (rewrite length_insert; lia).
  - rewrite list_lookup_insert_ne by done. destruct (decide (k = i)) as [->|].
    + by rewrite list_lookup_insert_eq by lia.
    + by rewrite list_lookup_insert_ne.
Qed.

Lemma Less_true h i j : Less h i j = true ↔ (exp h i < exp h j)%Z.
Proof. apply bool_decide_eq_true. Qed.
Lemma Less_false h i j : Less h i j = false ↔ (exp h j ≤ exp h i)%Z.
Proof. unfold Less. rewrite bool_decide_eq_false. lia. Qed.

(** Case analysis on [exp (Swap ...)] and on indices, closed by [lia]. *)
Ltac swap_cases :=
  rewrite !exp_Swap by (rewrite ?length_Swap; lia);
  repeat case_decide; try lia.

Lemma length_up fuel h j : length (up fuel h j) = length h.
Proof.
  revert h j. induction fuel as [|fuel IH]; intros h j; simpl; [done|].
  repeat case_match; try done. by rewrite IH, length_Swap.
Qed.
Lemma up_Permutation fuel h j : up fuel h j ≡ₚ h.
Proof.
  revert h j. induction fuel as [|fuel IH]; intros h j; simpl; [done|].
  repeat case_match; try done. by rewrite IH, Swap_Permutation.
Qed.
Lemma length_down fuel h i n : length (down fuel h i n) = length h.
Proof.
  revert h i. induction fuel as [|fuel IH]; intros h i; simpl; [done|].
  repeat case_match; try done; by rewrite IH, length_Swap.
Qed.
Lemma down_Permutation fuel h i n : down fuel h i n ≡ₚ h.
Proof.
  revert h i. induction fuel as [|fuel IH]; intros h i; simpl; [done|].
  repeat case_match; try done; by rewrite IH, Swap_Permutation.
Qed.

(** [up] restores the order when only index [j] is too small for its parent. *)
Lemma up_heap fuel h j :
  j < length h → j < fuel →
  (∀ k, 0 < k < length h → k ≠ j → (exp h ((k - 1) / 2) ≤ exp h k)%Z) →
  (∀ k, 0 < k < length h → (k - 1) / 2 = j → 0 < j → (exp h ((j - 1) / 2) ≤ exp h k)%Z) →
  heap_ok (up fuel h j).
Proof.
  revert h j. induction fuel as [|fuel IH]; intros h j Hj Hf H1 H2; [lia|]. cbn [up].
  case_decide as Hij.
  { intros k Hk. assert (j = 0) by lia.
    apply H1; lia. }
  assert (0 < j) by (destruct j; [done|lia]).
  assert ((j - 1) / 2 < j) by lia.
  destruct (Less h j ((j - 1) / 2)) eqn:E; cbn [negb].
  - apply Less_true in E. apply IH; rewrite ?length_Swap; try lia.
    + intros k Hk Hkp. pose proof (H1 k Hk). pose proof (H2 k Hk).
      remember ((j - 1) / 2) as p eqn:Hp. remember ((k - 1) / 2) as q eqn:Hq.
      destruct (decide (q = p)) as [Eq|]; [rewrite Eq in *|];
        (destruct (decide (k = j)) as [->|]; [|destruct (decide (q = j)) as [Eq'|]; [rewrite Eq' in *|]]);
        swap_cases.
    + intros k Hk Hkp Hp. pose proof (H1 ((j - 1) / 2) ltac:(lia) ltac:(lia)).
      assert (((j - 1) / 2 - 1) / 2 < (j - 1) / 2) by lia.
      pose proof (H1 k Hk). rewrite Hkp in *. swap_cases.
  - apply Less_false in E. intros k Hk. destruct (decide (k = j)) as [->|]; [lia|]. by apply H1.
Qed.

(** [down] restores the order when only index [i] is too large for its children. *)
Lemma down_heap fuel h i n :
  n ≤ length h → n ≤ i + fuel →
  (∀ k, 0 < k < n → (k - 1) / 2 ≠ i → (exp h ((k - 1) / 2) ≤ exp h k)%Z) →
  (∀ k, 0 < k < n → (k - 1) / 2 = i → 0 < i → (exp h ((i - 1) / 2) ≤ exp h k)%Z) →
  heap_upto (down fuel h i n) n.
Proof.
  revert h i. induction fuel as [|fuel IH]; intros h i Hn Hf H1 H2; cbn [down].
  { intros k Hk. apply H1; [done|]. lia. }
  case_decide as Hle.
  { intros k Hk. apply H1; [done|]. intros Hp. lia. }
  set (j := if decide (2 * i + 1 + 1 < n) then (if Less h (2 * i + 1 + 1) (2 * i + 1) then 2 * i + 1 + 1 else 2 * i + 1) else 2 * i + 1).
  assert (Hj : j < n ∧ (j - 1) / 2 = i ∧ i < j ∧ ∀ k, 0 < k < n → (k - 1) / 2 = i → (exp h j ≤ exp h k)%Z).
  { assert (Hpar : ∀ k, 0 < k → (k - 1) / 2 = i → k = 2 * i + 1 ∨ k = 2 * i + 1 + 1).
    { intros k ? ?. lia. }
    assert (Hd1 : (2 * i + 1 - 1) / 2 = i) by lia.
    assert (Hd2 : (2 * i + 1 + 1 - 1) / 2 = i) by lia.
    subst j. case_decide; [destruct (Less _ _ _) eqn:E|];
      [apply Less_true in E|apply Less_false in E|];
      repeat split; try lia; intros k ? ?;
      destruct (Hpar k) as [->| ->]; lia. }
  clearbody j. destruct Hj as (Hjn & Hjp & Hij & Hmin).
  destruct (Less h j i) eqn:E; cbn [negb].
  - apply Less_true in E. apply IH; rewrite ?length_Swap; try lia.
    + intros k Hk Hkp. pose proof (H1 k Hk). pose proof (Hmin k Hk).
      pose proof (H2 k Hk). pose proof (H2 j ltac:(lia)).
      swap_cases; subst; try lia.
    + intros k Hk Hkp Hp. rewrite Hjp.
      pose proof (H1 k Hk ltac:(lia)). rewrite Hkp in *. swap_cases.
  - apply Less_false in E. intros k Hk. destruct (decide ((k - 1) / 2 = i)) as [Hp|]; [|by apply H1].
    rewrite Hp. specialize (Hmin k Hk Hp). lia.
Qed.

Lemma exp_app h x k : k < length h → exp (h ++ [x]) k = exp h k.
Proof. intros. unfold exp. by rewrite lookup_app_l. Qed.
Lemma exp_take n h k : k < n → exp (take n h) k = exp h k.
Proof. intros. unfold exp. by rewrite lookup_take_lt. Qed.

Lemma heap_ok_nil : heap_ok [].
Proof. intros k Hk. simpl in Hk. lia. Qed.

Lemma heap_Push_ok h x : heap_ok h → heap_ok (heap_Push h x).
Proof.
  intros Hh. unfold heap_Push. rewrite length_app; cbn [length].
  apply up_heap; rewrite ?length_app; cbn [length]; try lia.
  intros k Hk Hne. rewrite !exp_app by lia. apply Hh. lia.
Qed.

Lemma heap_Push_Permutation h x : heap_Push h x ≡ₚ x :: h.
Proof. unfold heap_Push. rewrite up_Permutation. by rewrite Permutation_app_comm. Qed.

(** The root is minimal. *)
Lemma heap_root_min h k : heap_ok h → k < length h → (exp h 0 ≤ exp h k)%Z.
Proof.
  intros Hh. induction k as [k IH] using lt_wf_ind. intros Hk.
  destruct k as [|k]; [lia|].
 
  specialize (IH ((S k - 1) / 2) ltac:(lia) ltac:(lia)). specialize (Hh (S k) ltac:(lia)). lia.
Qed.

(** [down] never touches the indices from [n] on. *)
Lemma down_lookup_ge fuel h i n k : n ≤ length h → i < n → n ≤ k → down fuel h i n !! k = h !! k.
Proof.
  revert h i. induction fuel as [|fuel IH]; intros h i Hn Hi Hk; cbn [down]; [done|].
  case_decide; [done|].
  set (j := if decide (2 * i + 1 + 1 < n) then _ else _).
  assert (i < j < n) by (subst j; repeat case_match; lia). clearbody j.
  destruct (Less h j i); cbn [negb]; [|done].
  rewrite IH by (rewrite ?length_Swap; lia). unfold Swap.
  repeat case_match; try done. by rewrite !list_lookup_insert_ne by lia.
Qed.

(** [heap.Pop] on a non-empty heap removes the root, which is minimal, and
    leaves a heap of the other items. *)
Lemma heap_Pop_spec h x0 :
  heap_ok h → h !! 0 = Some x0 →
  ∃ h', heap_Pop h = Some (x0, h') ∧ heap_ok h' ∧ h ≡ₚ x0 :: h' ∧
        Forall (λ y, (ei_expires x0 ≤ ei_expires y)%Z) h'.
Proof.
  intros Hh Hx0. unfold heap_Pop. set (n := length h - 1).
  assert (Hlen : length h = S n) by (apply lookup_lt_Some in Hx0; subst n; lia).
  set (h2 := down (length h) (Swap h 0 n) 0 n).
  assert (Hn : h2 !! n = Some x0).
  { destruct (lookup_lt_is_Some_2 h n ltac:(lia)) as [y Hy].
    destruct (decide (n = 0)) as [E|].
    - assert (Hdn : h2 = Swap h 0 n) by (subst h2; rewrite Hlen, E; simpl; done).
      rewrite Hdn. unfold Swap. rewrite Hx0, Hy.
      apply list_lookup_insert_eq. rewrite length_insert. lia.
    - subst h2. rewrite down_lookup_ge by (rewrite ?length_Swap; lia). unfold Swap.
      rewrite Hx0, Hy. apply list_lookup_insert_eq. rewrite length_insert. lia. }
  assert (Hl2 : length h2 = S n) by (subst h2; rewrite length_down, length_Swap; lia).
  assert (HP : h ≡ₚ x0 :: take n h2).
  { rewrite <- (Swap_Permutation h 0 n), <- (down_Permutation (length h) _ 0 n). fold h2.
    rewrite <- (take_drop_middle h2 n x0 Hn) at 1.
    rewrite drop_ge by lia. by rewrite Permutation_app_comm. }
  rewrite Hn. exists (take n h2). repeat split; [|done|].
  - intros k Hk. rewrite length_take in Hk.
   
    rewrite !exp_take by lia. subst h2. apply down_heap; rewrite ?length_Swap; try lia.
    intros j Hj Hp.
    swap_cases. apply Hh. lia.
  - apply Forall_forall. intros y Hy.
    assert (Hin : y ∈ h) by (rewrite HP; set_solver).
    apply list_elem_of_lookup in Hin as [k Hk].
    pose proof (heap_root_min h k Hh (lookup_lt_Some _ _ _ Hk)) as Hm.
    unfold exp in Hm. by rewrite Hx0, Hk in Hm.
Qed.

#[export] Hint Resolve heap_ok_nil heap_Push_ok : orbis.
