(* ===== verification/Store.v ===== *)
(** * pkg/storage/store.go: the BadgerDB-backed store

    BadgerDB is not part of the repository: it is the class [Badger], whose
    laws are its documented behaviour (a committed transaction is what later
    transactions see, an iterator yields exactly the keys with its prefix in
    key order).  A commit may fail; reads of an open database do not.  The
    operations below are the methods of [Store], with [db.Update] as
    [db_update] on an explicit transaction value. *)
From stdpp Require Import prelude gmap strings sorting.
From stdpp Require Import options.
From S2P Require Import Prelude Json ExpiryHeap.
Local Open Scope Z_scope.

(** ** BadgerDB *)
Class Badger (DB : Type) := {
  db_new : DB;
  (** what a transaction started on the database sees *)
  db_view : DB → gmap string json;
  (** the items of an iterator with [opts.Prefix] set *)
  db_iter : DB → string → list (string * json);
  (** commit of a transaction whose view is the second argument *)
  db_commit : DB → gmap string json → option DB;
  db_new_view : db_view db_new = ∅;
  db_commit_view d v d' : db_commit d v = Some d' → db_view d' = v;
  db_iter_elem d p k j :
    (k, j) ∈ db_iter d p ↔ db_view d !! k = Some j ∧ has_prefix p k = true;
  db_iter_sorted d p :
    StronglySorted (λ x y, String.le x y ∧ x ≠ y) (db_iter d p).*1
}.

(** Errors of the store, one per distinct [return ... err] cause. *)
Inductive store_err :=
  | ErrDecode
  | ErrCommit
  | ErrBatchNotFound (key : string) (expected : Z)
  | ErrBatchMismatch (key : string) (expected got : Z)
  | ErrRollbackPresent (key : string)
  | ErrRollbackRead (key : string)
  | ErrRollbackMismatch (key : string) (expected got : Z)
  | ErrRestore (step : string)
  | ErrDrop.
#[global] Instance store_err_eq_dec : EqDecision store_err.
Proof. solve_decision. Defined.

(** ** Entries and their JSON form *)
Record kvEntry := { ke_Value : string; ke_Version : Z; ke_Expires : Z }.
#[global] Instance kvEntry_eq_dec : EqDecision kvEntry.
Proof. solve_decision. Defined.

Definition marshal_kvEntry (e : kvEntry) : json :=
  JObj [("value", JStr (ke_Value e)); ("version", JNum (ke_Version e));
        ("expires", JNum (ke_Expires e))].

Definition unmarshal_kvEntry (j : json) : option kvEntry :=
  m ← as_struct j;
  v ← as_string (jfield "value" m);
  n ← as_uint64 (jfield "version" m);
  x ← as_int64 (jfield "expires" m);
  Some {| ke_Value := v; ke_Version := n; ke_Expires := x |}.

(** The field ranges of the Go struct. *)
Definition kvEntry_wf (e : kvEntry) : Prop := isU64 (ke_Version e) ∧ isS64 (ke_Expires e).

Definition txKeyPrefix : string := "_tx:".

Record WriteBatchOp := {
  wb_Key : string; wb_Value : string; wb_ExpectedVersion : Z;
  wb_Expires : Z; wb_IsDelete : bool }.

Inductive PutCASStatus := PutCASOK | PutCASNoKey | PutCASVersionMismatch.
#[global] Instance PutCASStatus_eq_dec : EqDecision PutCASStatus.
Proof. solve_decision. Defined.

(** ** Transactions *)
Record txn := { t_view : gmap string json; t_dirty : bool }.
Definition txn_get (t : txn) (k : string) : option json := t_view t !! k.
Definition txn_set (t : txn) (k : string) (j : json) : txn :=
  {| t_view := <[k := j]> (t_view t); t_dirty := true |}.
Definition txn_delete (t : txn) (k : string) : txn :=
  {| t_view := delete k (t_view t); t_dirty := true |}.

Section store.
Context {DB : Type} `{Badger DB}.

Record Store := {
  st_db : DB;
  st_expiryHeap : list expiryItem;
  st_tombstones : gset string }.

Definition NewStore : Store :=
  {| st_db := db_new; st_expiryHeap := []; st_tombstones := ∅ |}.

Definition with_db (s : Store) (d : DB) : Store :=
  {| st_db := d; st_expiryHeap := st_expiryHeap s; st_tombstones := st_tombstones s |}.

(** [s.db.Update(fn)]: an error of [fn] discards the transaction, otherwise it
    is committed (a transaction without writes commits trivially). *)
Definition db_update {A} (s : Store) (fn : txn → txn * A * option store_err)
    : Store * A * option store_err :=
  let '(t, a, e) := fn {| t_view := db_view (st_db s); t_dirty := false |} in
  match e with
  | Some _ => (s, a, e)
  | None =>
      if t_dirty t then
        match db_commit (st_db s) (t_view t) with
        | Some d => (with_db s d, a, None)
        | None => (s, a, Some ErrCommit)
        end
      else (s, a, None)
  end.

Definition trackExpiry (s : Store) (key : string) (expires : Z) : Store :=
  if decide (expires ≤ 0) then s
  else {| st_db := st_db s;
          st_expiryHeap := heap_Push (st_expiryHeap s) {| ei_key := key; ei_expires := expires |};
          st_tombstones := st_tombstones s ∖ {[key]} |}.

Definition markTombstone (s : Store) (key : string) : Store :=
  {| st_db := st_db s; st_expiryHeap := st_expiryHeap s;
     st_tombstones := {[key]} ∪ st_tombstones s |}.

(** [Get]: [inr None] is [exists = false] without an error. *)
Definition Get (s : Store) (key : string) : store_err + option kvEntry :=
  match db_view (st_db s) !! key with
  | None => inr None
  | Some data =>
      match unmarshal_kvEntry data with
      | Some e => inr (Some e)
      | None => inl ErrDecode
      end
  end.

Definition Put (s : Store) (key value : string) (version expires : Z) : Store * option store_err :=
  let '(s, _, e) := db_update s (λ t,
    (txn_set t key (marshal_kvEntry {| ke_Value := value; ke_Version := version; ke_Expires := expires |}),
     tt, None)) in
  (s, e).

Definition PutCAS_body (now : Z) (key value : string) (expectedVersion expires : Z) (t : txn)
    : txn * (string * PutCASStatus) * option store_err :=
  let fresh := marshal_kvEntry {| ke_Value := value; ke_Version := 1; ke_Expires := expires |} in
  match txn_get t key with
  | None =>
      if decide (expectedVersion = 0) then (txn_set t key fresh, ("", PutCASOK), None)
      else (t, ("", PutCASNoKey), None)
  | Some raw =>
      match unmarshal_kvEntry raw with
      | None => (t, ("", PutCASOK), Some ErrDecode)
      | Some cur =>
          if decide (0 < ke_Expires cur ∧ ke_Expires cur ≤ now) then
            if decide (expectedVersion = 0) then (txn_set t key fresh, ("", PutCASOK), None)
            else (t, ("", PutCASNoKey), None)
          else if decide (ke_Version cur = expectedVersion) then
            (txn_set t key (marshal_kvEntry
               {| ke_Value := value; ke_Version := wrapU64 (ke_Version cur + 1);
                  ke_Expires := expires |}),
             (ke_Value cur, PutCASOK), None)
          else (t, ("", PutCASVersionMismatch), None)
      end
  end.

Definition PutCASWithTTL (now : Z) (s : Store) (key value : string) (expectedVersion expires : Z)
    : Store * (string * PutCASStatus) * option store_err :=
  let '(s, r, e) := db_update s (PutCAS_body now key value expectedVersion expires) in
  if decide (e = None ∧ r.2 = PutCASOK ∧ 0 < expires) then (trackExpiry s key expires, r, e)
  else (s, r, e).

(** The body of one iteration of [writeBatchWithCASInTxn]. *)
Definition writeBatchOp_step (t : txn) (op : WriteBatchOp) : txn * option store_err :=
  match txn_get t (wb_Key op) with
  | None =>
      if decide (wb_ExpectedVersion op = 0) then
        if wb_IsDelete op then (t, None)
        else (txn_set t (wb_Key op) (marshal_kvEntry
                {| ke_Value := wb_Value op; ke_Version := 1; ke_Expires := wb_Expires op |}), None)
      else (t, Some (ErrBatchNotFound (wb_Key op) (wb_ExpectedVersion op)))
  | Some raw =>
      match unmarshal_kvEntry raw with
      | None => (t, Some ErrDecode)
      | Some cur =>
          if decide (ke_Version cur = wb_ExpectedVersion op) then
            if wb_IsDelete op then (txn_delete t (wb_Key op), None)
            else (txn_set t (wb_Key op) (marshal_kvEntry
                    {| ke_Value := wb_Value op; ke_Version := wrapU64 (ke_Version cur + 1);
                       ke_Expires := wb_Expires op |}), None)
          else (t, Some (ErrBatchMismatch (wb_Key op) (wb_ExpectedVersion op) (ke_Version cur)))
      end
  end.

Fixpoint writeBatchWithCASInTxn (t : txn) (ops : list WriteBatchOp) : txn * option store_err :=
  match ops with
  | [] => (t, None)
  | op :: ops =>
      match writeBatchOp_step t op with
      | (t, Some e) => (t, Some e)
      | (t, None) => writeBatchWithCASInTxn t ops
      end
  end.

Definition RollbackCASMutation (s : Store) (key : string) (expectedCurrentVersion : Z)
    (previousValue : string) (previousVersion previousExpires : Z) (previousExists : bool)
    : Store * option store_err :=
  let '(s, _, e) := db_update s (λ t,
    let guard :=
      if decide (expectedCurrentVersion = 0) then
        match txn_get t key with
        | None => None
        | Some _ => Some (ErrRollbackPresent key)
        end
      else
        match txn_get t key with
        | None => Some (ErrRollbackRead key)
        | Some raw =>
            match unmarshal_kvEntry raw with
            | None => Some ErrDecode
            | Some current =>
                if decide (ke_Version current = expectedCurrentVersion) then None
                else Some (ErrRollbackMismatch key expectedCurrentVersion (ke_Version current))
            end
        end in
    match guard with
    | Some e => (t, tt, Some e)
    | None =>
        if previousExists then
          (txn_set t key (marshal_kvEntry
             {| ke_Value := previousValue; ke_Version := previousVersion;
                ke_Expires := previousExpires |}), tt, None)
        else (txn_delete t key, tt, None)
    end) in
  if decide (e = None ∧ previousExists = true ∧ 0 < previousExpires)
  then (trackExpiry s key previousExpires, e)
  else (s, e).

Definition WriteBatchWithCAS (s : Store) (ops : list WriteBatchOp) : Store * option store_err :=
  let '(s, _, e) := db_update s (λ t,
    let '(t, e) := writeBatchWithCASInTxn t ops in (t, tt, e)) in
  (s, e).

Definition WriteBatchWithCASAndRecord (s : Store) (ops : list WriteBatchOp)
    (recordKey : string) (recordData : json) : Store * option store_err :=
  let '(s, _, e) := db_update s (λ t,
    match writeBatchWithCASInTxn t ops with
    | (t, Some e) => (t, tt, Some e)
    | (t, None) => (txn_set t (txKeyPrefix +:+ recordKey) recordData, tt, None)
    end) in
  (s, e).

Definition PutTxRecord (s : Store) (txKey : string) (data : json) : Store * option store_err :=
  let '(s, _, e) := db_update s (λ t, (txn_set t (txKeyPrefix +:+ txKey) data, tt, None)) in
  (s, e).

Definition GetTxRecord (s : Store) (txKey : string) : option json :=
  db_view (st_db s) !! (txKeyPrefix +:+ txKey).

Definition DeleteTxRecord (s : Store) (txKey : string) : Store * option store_err :=
  let '(s, _, e) := db_update s (λ t, (txn_delete t (txKeyPrefix +:+ txKey), tt, None)) in
  (s, e).

(** The result map, as the list of its members (full keys). *)
Definition ScanTxRecordsByPrefix (s : Store) (subPrefix : string) : list (string * json) :=
  db_iter (st_db s) (txKeyPrefix +:+ subPrefix).

(** The loop of [PeekExpiredKeys]; each iteration pops one item, so the length
    of the heap is enough fuel. *)
Fixpoint peek_loop (fuel : nat) (cutoff : Z) (limit : nat) (h : list expiryItem)
    (tomb : gset string) (keys : list string) : list expiryItem * gset string * list string :=
  match fuel with
  | O => (h, tomb, keys)
  | S fuel =>
      if decide (limit ≤ length keys)%nat then (h, tomb, keys)
      else
        match h !! 0%nat with
        | None => (h, tomb, keys)
        | Some top =>
            if decide (cutoff < ei_expires top) then (h, tomb, keys)
            else
              match heap_Pop h with
              | None => (h, tomb, keys)
              | Some (_, h) =>
                  if decide (ei_key top ∈ tomb)
                  then peek_loop fuel cutoff limit h (tomb ∖ {[ei_key top]}) keys
                  else peek_loop fuel cutoff limit h tomb (keys ++ [ei_key top])
              end
        end
  end.

Definition norm_limit (limit : Z) : nat :=
  if decide (limit ≤ 0) then 128%nat else Z.to_nat limit.

Definition PeekExpiredKeys (s : Store) (cutoff limit : Z) : Store * list string :=
  let '(h, tomb, keys) :=
    peek_loop (length (st_expiryHeap s)) cutoff (norm_limit limit)
      (st_expiryHeap s) (st_tombstones s) [] in
  ({| st_db := st_db s; st_expiryHeap := h; st_tombstones := tomb |}, keys).

(** The full-table scan [GetExpiredKeys] falls back to with an empty heap. *)
Fixpoint scan_expired (cutoff : Z) (limit : nat) (items : list (string * json))
    (keys : list string) : list string :=
  match items with
  | [] => keys
  | (k, val) :: items =>
      if decide (limit ≤ length keys)%nat then keys
      else
        match unmarshal_kvEntry val with
        | None => scan_expired cutoff limit items keys
        | Some e =>
            if decide (0 < ke_Expires e ∧ ke_Expires e ≤ cutoff)
            then scan_expired cutoff limit items (keys ++ [k])
            else scan_expired cutoff limit items keys
        end
  end.

Definition GetExpiredKeys (s : Store) (cutoff limit : Z) : Store * list string :=
  if decide (0 < length (st_expiryHeap s))%nat then PeekExpiredKeys s cutoff limit
  else (s, scan_expired cutoff (norm_limit limit) (db_iter (st_db s) "") []).

Definition rebuild_push (h : list expiryItem) (kv : string * json) : list expiryItem :=
  match unmarshal_kvEntry kv.2 with
  | None => h
  | Some e =>
      if decide (0 < ke_Expires e)
      then heap_Push h {| ei_key := kv.1; ei_expires := ke_Expires e |}
      else h
  end.

Definition RebuildExpiryHeap (s : Store) : Store :=
  {| st_db := st_db s;
     st_expiryHeap := foldl rebuild_push [] (db_iter (st_db s) "");
     st_tombstones := ∅ |}.

Fixpoint scan_prefix_loop (limit : Z) (items : list (string * json)) (acc : list (string * kvEntry))
    : list (string * kvEntry) :=
  match items with
  | [] => acc
  | (k, val) :: items =>
      if decide (0 < limit ∧ limit ≤ Z.of_nat (length acc)) then acc
      else
        match unmarshal_kvEntry val with
        | None => scan_prefix_loop limit items acc
        | Some e => scan_prefix_loop limit items (acc ++ [(k, e)])
        end
  end.

(** The two result slices of [ScanPrefix], zipped. *)
Definition ScanPrefix (s : Store) (prefix : string) (limit : Z) : list (string * kvEntry) :=
  scan_prefix_loop limit (db_iter (st_db s) prefix) [].

Definition Delete (s : Store) (key : string) : Store * option store_err :=
  let '(s, _, e) := db_update s (λ t, (txn_delete t key, tt, None)) in
  match e with
  | None => (markTombstone s key, None)
  | Some _ => (s, e)
  end.

Definition GetAll (s : Store) : option (list (string * kvEntry)) :=
  mapM (λ '(k, val), pair k <$> unmarshal_kvEntry val) (db_iter (st_db s) "").

(** ** Snapshots *)

(** The loop of [SaveSnapshot]: transaction records are copied as bytes, every
    other value must decode as an entry. *)
Fixpoint save_loop (items : list (string * json)) (kv : list (string * kvEntry))
    (tx : list (string * json)) : option (list (string * kvEntry) * list (string * json)) :=
  match items with
  | [] => Some (kv, tx)
  | (k, val) :: items =>
      if has_prefix txKeyPrefix k then save_loop items kv (tx ++ [(k, val)])
      else
        match unmarshal_kvEntry val with
        | None => None
        | Some e => save_loop items (kv ++ [(k, e)]) tx
        end
  end.

Definition marshal_envelope (kv : list (string * kvEntry)) (tx : list (string * json)) : json :=
  JObj (("kv", JObj (prod_map id marshal_kvEntry <$> kv)) ::
        omit_if (bool_decide (tx = [])) "tx_records" (JObj (prod_map id JBytes <$> tx))).

Definition SaveSnapshot (s : Store) : option json :=
  '(kv, tx) ← save_loop (db_iter (st_db s) "") [] [];
  Some (marshal_envelope kv tx).

(** The file-system steps of [LoadSnapshot] that may fail.  [re_renameBack] is
    the rename of the backup to [dbPath] on the two error paths and
    [re_removeNew] the removal of the directory that could not be opened (a
    failure leaves it as it was); the code ignores both errors. *)
Record restore_env := {
  re_removeTmp : bool; re_openTmp : bool; re_closeTmp : bool; re_closeOld : bool;
  re_removeBackup : bool; re_renameOld : bool; re_renameTmp : bool; re_openNew : bool;
  re_removeNew : bool; re_renameBack : bool; re_openFallback : bool }.

(** In the last two cases [s] is what [dbPath] holds: a missing directory reads
    as a new database, since opening it creates one. *)
Inductive load_result :=
  | LoadOK (s : Store)
  | LoadErr (e : store_err) (s : Store)            (* the handle is as it was *)
  | LoadErrReopened (e : store_err) (s : Store)    (* a new handle, on [s] *)
  | LoadErrClosed (e : store_err) (s : Store).     (* the handle is nil or closed *)

Definition unmarshal_envelope (j : json)
    : option (list (string * kvEntry) * list (string * json)) :=
  m ← as_struct j;
  kv ← as_map unmarshal_kvEntry (jfield "kv" m);
  tx ← as_map as_bytes (jfield "tx_records" m);
  kv ← match kv with
       | Some kv => Some kv
       | None => default [] <$> as_map unmarshal_kvEntry (Some j)
       end;
  Some (kv, default [] tx).

(** One [tmpDB.Update] per record. *)
Fixpoint restore_writes (d : DB) (items : list (string * json)) : option DB :=
  match items with
  | [] => Some d
  | (k, j) :: items =>
      match db_commit d (<[k := j]> (db_view d)) with
      | None => None
      | Some d => restore_writes d items
      end
  end.

Definition LoadSnapshot (env : restore_env) (s : Store) (snapshotData : json) : load_result :=
  match unmarshal_envelope snapshotData with
  | None => LoadErr ErrDecode s
  | Some (kv, tx) =>
      if negb (re_removeTmp env) then LoadErr (ErrRestore "remove tmp") s
      else if negb (re_openTmp env) then LoadErr (ErrRestore "open tmp") s
      else
        match restore_writes db_new ((prod_map id marshal_kvEntry <$> kv) ++ tx) with
        | None => LoadErr (ErrRestore "write tmp") s
        | Some tmp =>
            let moved_back := if re_renameBack env then s else with_db s db_new in
            if negb (re_closeTmp env) then LoadErr (ErrRestore "close tmp") s
            else if negb (re_closeOld env) then LoadErrClosed (ErrRestore "close current") s
            else if negb (re_removeBackup env) then LoadErrClosed (ErrRestore "remove backup") s
            else if negb (re_renameOld env) then LoadErrClosed (ErrRestore "backup current") s
            else if negb (re_renameTmp env) then LoadErrClosed (ErrRestore "switch") moved_back
            else if negb (re_openNew env) then
              let left := if re_removeNew env then moved_back else with_db s tmp in
              if re_openFallback env then LoadErrReopened (ErrRestore "reopen") left
              else LoadErrClosed (ErrRestore "reopen") left
            else LoadOK (with_db s tmp)
        end
  end.

(** [Clear]; [DropAll] is Badger's: the database it leaves and whether it
    succeeded. *)
Definition Clear (DropAll : DB → DB * bool) (s : Store) : Store * option store_err :=
  let '(d, ok) := DropAll (st_db s) in
  (with_db s d, if ok : bool then None else Some ErrDrop).

End store.

Arguments Store : clear implicits.
Arguments load_result : clear implicits.

(** ** Lemmas on entries and transactions *)

Lemma unmarshal_marshal_kvEntry e :
  kvEntry_wf e → unmarshal_kvEntry (marshal_kvEntry e) = Some e.
Proof.
  intros [Hv Hx]. destruct e as [v n x]; simpl in *.
  transitivity (n ← as_uint64 (Some (JNum n)); x ← as_int64 (Some (JNum x));
                Some {| ke_Value := v; ke_Version := n; ke_Expires := x |}); [done|].
  by rewrite as_uint64_num, as_int64_num.
Qed.

Lemma unmarshal_kvEntry_wf j e : unmarshal_kvEntry j = Some e → kvEntry_wf e.
Proof.
  unfold unmarshal_kvEntry. intros Hj.
  destruct (as_struct j) as [m|]; simplify_eq/=.
  destruct (as_string _) as [v|]; simplify_eq/=.
  destruct (as_uint64 _) as [n|] eqn:En; simplify_eq/=.
  destruct (as_int64 _) as [x|] eqn:Ex; simplify_eq/=.
  split; simpl.
  - unfold as_uint64 in En. repeat case_match; simplify_eq; try done; unfold isU64; lia.
  - unfold as_int64 in Ex. repeat case_match; simplify_eq; try done; unfold isS64; lia.
Qed.

(** A transaction that is not dirty has changed nothing. *)
Definition honest (v : gmap string json) (t : txn) : Prop :=
  t_dirty t = false → t_view t = v.

Section store_lemmas.
Context {DB : Type} `{Badger DB}.
Implicit Types s : Store DB.

(** The decoded entry stored under a key. *)
Definition entry_at (s : Store DB) (k : string) : option kvEntry :=
  j ← db_view (st_db s) !! k; unmarshal_kvEntry j.

Definition entry_expired (now : Z) (e : kvEntry) : bool :=
  bool_decide (0 < ke_Expires e ∧ ke_Expires e ≤ now).

(** What a reader at time [now] sees. *)
Definition live (now : Z) (s : Store DB) (k : string) : option kvEntry :=
  e ← entry_at s k; if entry_expired now e then None else Some e.

(** The value under a key is an entry (always so for keys outside [_tx:]). *)
Definition decodable (s : Store DB) (k : string) : Prop :=
  ∀ j, db_view (st_db s) !! k = Some j → is_Some (unmarshal_kvEntry j).

Lemma db_update_cases {A} s (fn : txn → txn * A * option store_err) s' a e :
  db_update s fn = (s', a, e) →
  (∀ t b e', fn {| t_view := db_view (st_db s); t_dirty := false |} = (t, b, e') →
     honest (db_view (st_db s)) t) →
  let '(t, b, e') := fn {| t_view := db_view (st_db s); t_dirty := false |} in
  a = b ∧
  match e with
  | None => e' = None ∧ db_view (st_db s') = t_view t ∧
            st_expiryHeap s' = st_expiryHeap s ∧ st_tombstones s' = st_tombstones s
  | Some _ => s' = s ∧ (e' = e ∨ e' = None ∧ e = Some ErrCommit)
  end.
Proof.
  unfold db_update. intros Hu Hh. destruct (fn _) as [[t b] e'] eqn:Hfn.
  specialize (Hh _ _ _ eq_refl).
  destruct e' as [err|]; simplify_eq/=; [by eauto|].
  destruct (t_dirty t) eqn:Hd; simplify_eq/=.
  - destruct (db_commit _ _) as [d|] eqn:Hc; simplify_eq/=; [|by eauto].
    rewrite (db_commit_view _ _ _ Hc). done.
  - by rewrite Hh.
Qed.

(** A failed update leaves the store as it was. *)
Lemma db_update_err {A} s (fn : txn → txn * A * option store_err) s' a err :
  db_update s fn = (s', a, Some err) → s' = s.
Proof. unfold db_update. intros. repeat case_match; simplify_eq; done. Qed.

Lemma honest_refl v b : honest v {| t_view := v; t_dirty := b |}.
Proof. by intros _. Qed.
Lemma honest_set v t k j : honest v (txn_set t k j).
Proof. done. Qed.
Lemma honest_delete v t k : honest v (txn_delete t k).
Proof. done. Qed.
Hint Resolve honest_refl honest_set honest_delete : orbis.

Lemma PutCAS_body_honest now key value ev exp s t b e :
  PutCAS_body now key value ev exp {| t_view := db_view (st_db s); t_dirty := false |} = (t, b, e) →
  honest (db_view (st_db s)) t.
Proof. unfold PutCAS_body. intros. repeat case_match; simplify_eq; auto with orbis. Qed.

Lemma writeBatch_honest t ops t' e v :
  honest v t → writeBatchWithCASInTxn t ops = (t', e) → honest v t'.
Proof.
  revert t. induction ops as [|op ops IH]; intros t Ht Hw; simplify_eq/=; [done|].
  unfold writeBatchOp_step in Hw.
  repeat case_match; simplify_eq; eauto with orbis.
Qed.

(** ** Compare-and-swap on one entry: the contract of [PutCASWithTTL] *)
Definition cas_spec (cur : option kvEntry) (value : string) (expectedVersion expires : Z)
    : option kvEntry * string * PutCASStatus :=
  match cur with
  | None =>
      if decide (expectedVersion = 0)
      then (Some {| ke_Value := value; ke_Version := 1; ke_Expires := expires |}, "", PutCASOK)
      else (None, "", PutCASNoKey)
  | Some c =>
      if decide (ke_Version c = expectedVersion)
      then (Some {| ke_Value := value; ke_Version := wrapU64 (ke_Version c + 1);
                    ke_Expires := expires |}, ke_Value c, PutCASOK)
      else (Some c, "", PutCASVersionMismatch)
  end.

Lemma trackExpiry_db s k x : st_db (trackExpiry s k x) = st_db s.
Proof. unfold trackExpiry. by case_decide. Qed.

Lemma entry_at_db s s' k : st_db s = st_db s' → entry_at s k = entry_at s' k.
Proof. unfold entry_at. by intros ->. Qed.

Lemma entry_at_insert s s' k e :
  kvEntry_wf e → db_view (st_db s') = <[k := marshal_kvEntry e]> (db_view (st_db s)) →
  entry_at s' k = Some e ∧ ∀ k', k' ≠ k → entry_at s' k' = entry_at s k'.
Proof.
  intros Hwf Hv. unfold entry_at. rewrite Hv. split.
  - rewrite lookup_insert_eq. by apply unmarshal_marshal_kvEntry.
  - intros k' Hk. by rewrite lookup_insert_ne.
Qed.

(** What the transaction body of [PutCASWithTTL] computes, in terms of the
    entry a reader at [now] sees. *)
Lemma PutCAS_body_spec now key value ev exp s t r e :
  decodable s key →
  PutCAS_body now key value ev exp {| t_view := db_view (st_db s); t_dirty := false |} = (t, r, e) →
  e = None ∧
  let '(post, old, st) := cas_spec (live now s key) value ev exp in
  r = (old, st) ∧
  match st, post with
  | PutCASOK, Some p => t_view t = <[key := marshal_kvEntry p]> (db_view (st_db s))
  | _, _ => t_view t = db_view (st_db s) ∧ t_dirty t = false
  end.
Proof.
  unfold PutCAS_body, decodable, live, entry_at, entry_expired, cas_spec, txn_get. cbn [t_view].
  intros Hdec. destruct (db_view (st_db s) !! key) as [raw|] eqn:Hraw; cbn.
  - destruct (Hdec raw eq_refl) as [cur Hcur]. rewrite Hcur. cbn.
    case_decide as Hx; case_bool_decide; try done; repeat case_decide; intros; simplify_eq/=; done.
  - repeat case_decide; intros; simplify_eq/=; done.
Qed.

Lemma cas_spec_post_wf now s key value ev exp p old :
  isS64 exp → cas_spec (live now s key) value ev exp = (Some p, old, PutCASOK) → kvEntry_wf p.
Proof.
  intros Hx. unfold cas_spec. repeat case_match; intros; simplify_eq; split; simpl; auto with orbis.
  unfold isU64. lia.
Qed.

(** The contract of [PutCASWithTTL]: without an error it is [cas_spec] on what
    a reader sees, on that key only; with an error nothing has changed. *)
Lemma PutCASWithTTL_spec now s key value ev exp s' old st e :
  isS64 exp → decodable s key →
  PutCASWithTTL now s key value ev exp = (s', (old, st), e) →
  match e with
  | Some err => err = ErrCommit ∧ s' = s
  | None =>
      let '(post, old', st') := cas_spec (live now s key) value ev exp in
      old = old' ∧ st = st' ∧
      match st with
      | PutCASOK => entry_at s' key = post ∧ ∀ k, k ≠ key → entry_at s' k = entry_at s k
      | _ => ∀ k, entry_at s' k = entry_at s k
      end
  end.
Proof.
  intros Hx Hdec. unfold PutCASWithTTL.
  destruct (db_update s _) as [[s1 r] e1] eqn:Hu. intros Heq.
  apply db_update_cases in Hu as HC; [|intros; by eapply PutCAS_body_honest].
  destruct (PutCAS_body now key value ev exp _) as [[t b] e2] eqn:Hb.
  pose proof Hb as Hs. apply PutCAS_body_spec in Hs as [-> Hs]; [|done].
  destruct HC as [-> HC].
  destruct (cas_spec _ _ _ _) as [[post old'] st'] eqn:Hcas. destruct Hs as [-> Hs].
  assert (st_db s' = st_db s1 ∧ old = old' ∧ st = st' ∧ e = e1) as (Hdb & -> & -> & ->).
  { case_decide; simplify_eq; auto using trackExpiry_db. }
  destruct e1 as [err|].
  - destruct HC as [-> [?|[_ [= ->]]]]; [done|].
    rewrite decide_False in Heq by naive_solver. by simplify_eq.
  - destruct HC as (_ & Hv & _ & _). split_and!; [done..|].
    assert (Hsame : ∀ k, entry_at s' k = entry_at s1 k) by (intros; by apply entry_at_db).
    destruct st'.
    + destruct post as [p|]; [|by unfold cas_spec in Hcas; repeat case_match; simplify_eq].
      rewrite Hs in Hv. apply entry_at_insert in Hv as [H1 H2]; [|by eapply cas_spec_post_wf].
      setoid_rewrite Hsame. done.
    + intros k. rewrite Hsame. unfold entry_at. rewrite Hv.
      destruct post; destruct Hs as [-> _]; done.
    + intros k. rewrite Hsame. unfold entry_at. rewrite Hv.
      destruct post; destruct Hs as [-> _]; done.
Qed.

(** ** Batches *)

(** Whether one operation of a batch passes its version check. *)
Definition batch_pre (v : gmap string json) (op : WriteBatchOp) : Prop :=
  match v !! wb_Key op with
  | None => wb_ExpectedVersion op = 0
  | Some raw =>
      match unmarshal_kvEntry raw with
      | None => False
      | Some cur => ke_Version cur = wb_ExpectedVersion op
      end
  end.

(** What one operation leaves under its key. *)
Definition batch_post (v : gmap string json) (op : WriteBatchOp) : option json :=
  if wb_IsDelete op then None
  else Some (marshal_kvEntry
    {| ke_Value := wb_Value op;
       ke_Version := match v !! wb_Key op ≫= unmarshal_kvEntry with
                     | Some cur => wrapU64 (ke_Version cur + 1)
                     | None => 1
                     end;
       ke_Expires := wb_Expires op |}).

Lemma writeBatchOp_step_spec t op :
  match writeBatchOp_step t op with
  | (t', None) =>
      batch_pre (t_view t) op ∧ t_view t' !! wb_Key op = batch_post (t_view t) op ∧
      ∀ k, k ≠ wb_Key op → t_view t' !! k = t_view t !! k
  | (_, Some _) => ¬ batch_pre (t_view t) op
  end.
Proof.
  unfold writeBatchOp_step, batch_pre, batch_post, txn_get.
  destruct (t_view t !! wb_Key op) as [raw|] eqn:Hraw; cbn; [destruct (unmarshal_kvEntry raw) as [cur|]; cbn|];
    try (by intros []); repeat case_decide; try done; destruct (wb_IsDelete op); cbn;
    rewrite ?lookup_insert_eq, ?lookup_delete_eq; split_and?; try done;
    intros; by rewrite ?lookup_insert_ne, ?lookup_delete_ne.
Qed.

Lemma batch_pre_ext v v' op : v !! wb_Key op = v' !! wb_Key op → batch_pre v op ↔ batch_pre v' op.
Proof. unfold batch_pre. by intros ->. Qed.
Lemma batch_post_ext v v' op : v !! wb_Key op = v' !! wb_Key op → batch_post v op = batch_post v' op.
Proof. unfold batch_post. by intros ->. Qed.

(** A batch on distinct keys succeeds exactly when every operation passes its
    check against the initial view, and then every key holds its result. *)
Lemma writeBatch_spec t ops :
  NoDup (wb_Key <$> ops) →
  match writeBatchWithCASInTxn t ops with
  | (t', None) =>
      Forall (batch_pre (t_view t)) ops ∧
      Forall (λ op, t_view t' !! wb_Key op = batch_post (t_view t) op) ops ∧
      ∀ k, k ∉ wb_Key <$> ops → t_view t' !! k = t_view t !! k
  | (_, Some _) => ¬ Forall (batch_pre (t_view t)) ops
  end.
Proof.
  revert t. induction ops as [|op ops IH]; intros t Hnd; cbn.
  { split_and!; auto using Forall_nil_2. }
  apply NoDup_cons in Hnd as [Hop Hnd].
  pose proof (writeBatchOp_step_spec t op) as Hs.
  destruct (writeBatchOp_step t op) as [t1 [err|]]; [by intros [? _]%Forall_cons|].
  destruct Hs as (Hpre & Hpost & Hoth). specialize (IH t1 Hnd).
  assert (Hext : ∀ o, o ∈ ops → t_view t1 !! wb_Key o = t_view t !! wb_Key o).
  { intros o Ho. apply Hoth. intros E. apply Hop. rewrite <- E. by apply list_elem_of_fmap_2. }
  assert (Hfa : Forall (batch_pre (t_view t1)) ops ↔ Forall (batch_pre (t_view t)) ops).
  { rewrite !Forall_forall. split; intros Hf o Ho; apply (batch_pre_ext (t_view t) (t_view t1)); auto; by rewrite Hext. }
  destruct (writeBatchWithCASInTxn t1 ops) as [t2 [err|]].
  { rewrite Hfa in IH. by intros [_ ?]%Forall_cons. }
  destruct IH as (IH1 & IH2 & IH3). split_and!.
  - constructor; [done|]. by apply Hfa.
  - constructor; [by rewrite IH3|]. rewrite Forall_forall in *. intros o Ho.
    rewrite (IH2 o Ho). apply batch_post_ext. auto.
  - intros k Hk. apply not_elem_of_cons in Hk as [? ?]. by rewrite IH3, Hoth.
Qed.

Definition record_body (ops : list WriteBatchOp) (rk : string) (rd : json) (t : txn)
    : txn * unit * option store_err :=
  match writeBatchWithCASInTxn t ops with
  | (t, Some e) => (t, tt, Some e)
  | (t, None) => (txn_set t (txKeyPrefix +:+ rk) rd, tt, None)
  end.

(** [WriteBatchWithCASAndRecord] is atomic: on success every write and the
    record are in the store and nothing else changed; on any error the store
    is untouched. *)
Lemma WriteBatchWithCASAndRecord_spec s ops rk rd s' e :
  NoDup (wb_Key <$> ops) → (txKeyPrefix +:+ rk) ∉ wb_Key <$> ops →
  WriteBatchWithCASAndRecord s ops rk rd = (s', e) →
  let v := db_view (st_db s) in let v' := db_view (st_db s') in
  match e with
  | Some err => s' = s ∧ (err = ErrCommit ∨ ¬ Forall (batch_pre v) ops)
  | None =>
      Forall (batch_pre v) ops ∧
      Forall (λ op, v' !! wb_Key op = batch_post v op) ops ∧
      v' !! (txKeyPrefix +:+ rk) = Some rd ∧
      (∀ k, k ∉ wb_Key <$> ops → k ≠ txKeyPrefix +:+ rk → v' !! k = v !! k) ∧
      st_expiryHeap s' = st_expiryHeap s ∧ st_tombstones s' = st_tombstones s
  end.
Proof.
  intros Hnd Hrk. unfold WriteBatchWithCASAndRecord.
  change (λ t : txn, match writeBatchWithCASInTxn t ops with (t0, Some e0) => _ | (t0, None) => _ end)
    with (record_body ops rk rd).
  destruct (db_update s (record_body ops rk rd)) as [[s1 u] e1] eqn:Hu. intros [= <- <-]. cbn.
  apply db_update_cases in Hu.
  2:{ intros t b e' Hfn. unfold record_body in Hfn.
      destruct (writeBatchWithCASInTxn _ ops) as [t2 [?|]] eqn:Hw; simplify_eq; [|done].
      eapply writeBatch_honest; [apply honest_refl|done]. }
  unfold record_body in Hu. revert Hu.
  pose proof (writeBatch_spec {| t_view := db_view (st_db s); t_dirty := false |} ops Hnd) as Hs.
  destruct (writeBatchWithCASInTxn _ ops) as [t2 [err|]]; cbn in *; intros [_ Hu].
  - destruct e1 as [e1|]; [|by destruct Hu]. destruct Hu as [-> _]. auto.
  - destruct Hs as (H1 & H2 & H3). destruct e1 as [e1|].
    { destruct Hu as [-> [?|[_ [= ->]]]]; [done|auto]. }
    destruct Hu as (_ & Hv & Hh & Ht). rewrite Hv. split_and!; try done.
    + rewrite Forall_forall in *. intros op Hop. rewrite lookup_insert_ne; [by apply H2|].
      intros E. apply Hrk. rewrite E. by apply list_elem_of_fmap_2.
    + by rewrite lookup_insert_eq.
    + intros k Hk Hne. rewrite lookup_insert_ne by done. auto.
Qed.

Lemma WriteBatchWithCASAndRecord_err s ops rk rd s' err :
  WriteBatchWithCASAndRecord s ops rk rd = (s', Some err) → s' = s.
Proof.
  unfold WriteBatchWithCASAndRecord. destruct (db_update s _) as [[s1 u] e1] eqn:Hu.
  intros [= <- ->]. by apply db_update_err in Hu.
Qed.

Lemma PutTxRecord_spec s k j s' e :
  PutTxRecord s k j = (s', e) →
  match e with
  | Some _ => s' = s
  | None => db_view (st_db s') = <[txKeyPrefix +:+ k := j]> (db_view (st_db s)) ∧
            st_expiryHeap s' = st_expiryHeap s ∧ st_tombstones s' = st_tombstones s
  end.
Proof.
  unfold PutTxRecord. destruct (db_update s _) as [[s1 u] e1] eqn:Hu. intros [= <- <-].
  apply db_update_cases in Hu as [_ Hu]; [|intros; simplify_eq; auto with orbis].
  destruct e1; naive_solver.
Qed.

Lemma DeleteTxRecord_spec s k s' e :
  DeleteTxRecord s k = (s', e) →
  match e with
  | Some _ => s' = s
  | None => db_view (st_db s') = delete (txKeyPrefix +:+ k) (db_view (st_db s)) ∧
            st_expiryHeap s' = st_expiryHeap s ∧ st_tombstones s' = st_tombstones s
  end.
Proof.
  unfold DeleteTxRecord. destruct (db_update s _) as [[s1 u] e1] eqn:Hu. intros [= <- <-].
  apply db_update_cases in Hu as [_ Hu]; [|intros; simplify_eq; auto with orbis].
  destruct e1; naive_solver.
Qed.

Lemma Delete_spec s k s' e :
  Delete s k = (s', e) →
  match e with
  | Some _ => s' = s
  | None => db_view (st_db s') = delete k (db_view (st_db s)) ∧ k ∈ st_tombstones s'
  end.
Proof.
  unfold Delete. destruct (db_update s _) as [[s1 u] e1] eqn:Hu.
  apply db_update_cases in Hu as [_ Hu]; [|intros; simplify_eq; auto with orbis].
  destruct e1; intros [= <- <-]; [naive_solver|]. cbn in *. split; [naive_solver|set_solver].
Qed.

End store_lemmas.
