(* ===== verification/StoreProps.v ===== *)
(** * Properties of the store

    Instances of [Badger] (a map, and a map whose commits start to fail), the
    TTL heap walk, the snapshot round trip, and the claims on the store. *)
From stdpp Require Import prelude gmap strings sorting.
From stdpp Require Import options.
From S2P Require Import Prelude Json ExpiryHeap Store.
Local Open Scope Z_scope.

(** ** Concrete databases *)

(** The keys of a map with a prefix, in order, with their values. *)
Definition map_iter (m : gmap string json) (p : string) : list (string * json) :=
  omap (λ k, pair k <$> m !! k)
    (merge_sort String.le (elements (filter (λ k, has_prefix p k = true) (dom m)))).

Lemma omap_pair_fst (m : gmap string json) l :
  (∀ k, k ∈ l → is_Some (m !! k)) → (omap (λ k, pair k <$> m !! k) l).*1 = l.
Proof.
  induction l as [|k l IH]; intros Hl; [done|]. cbn.
  destruct (Hl k ltac:(set_solver)) as [j Hj]. rewrite Hj. cbn. f_equal. apply IH. set_solver.
Qed.

Lemma map_iter_keys m p :
  (map_iter m p).*1 = merge_sort String.le (elements (filter (λ k, has_prefix p k = true) (dom m))).
Proof.
  apply omap_pair_fst. intros k. rewrite merge_sort_Permutation, elem_of_elements, elem_of_filter.
  intros [_ Hk]. by apply elem_of_dom.
Qed.

Lemma map_iter_elem m p k j :
  (k, j) ∈ map_iter m p ↔ m !! k = Some j ∧ has_prefix p k = true.
Proof.
  unfold map_iter. rewrite list_elem_of_omap. split.
  - intros (k' & Hk' & Heq). rewrite merge_sort_Permutation, elem_of_elements, elem_of_filter in Hk'.
    destruct (m !! k') eqn:E; simplify_eq/=. naive_solver.
  - intros [Hm Hp]. exists k. rewrite merge_sort_Permutation, elem_of_elements, elem_of_filter, Hm.
    split; [|done]. split; [done|]. apply elem_of_dom. eauto.
Qed.

Lemma StronglySorted_strict (l : list string) :
  NoDup l → StronglySorted String.le l → StronglySorted (λ x y, String.le x y ∧ x ≠ y) l.
Proof.
  induction 2 as [|x l Hl IH Hx]; constructor.
  - apply IH. by inversion H.
  - apply NoDup_cons in H as [Hnx _]. rewrite Forall_forall in *. intros y Hy. split; [auto|].
    intros ->. done.
Qed.

#[global] Program Instance badger_map : Badger (gmap string json) := {|
  db_new := ∅;
  db_view m := m;
  db_iter := map_iter;
  db_commit _ v := Some v
|}.
Next Obligation. done. Qed.
Next Obligation. by intros ? ? ? [= ->]. Qed.
Next Obligation. apply map_iter_elem. Qed.
Next Obligation.
  intros m p. rewrite map_iter_keys. apply StronglySorted_strict.
  - rewrite merge_sort_Permutation. apply NoDup_elements.
  - apply StronglySorted_merge_sort; apply _.
Qed.

(** A database that accepts a given number of commits and then fails: disk
    full, or a conflict on every commit. *)
Record budget_db := { bd_map : gmap string json; bd_left : nat }.
#[global] Program Instance badger_budget : Badger budget_db := {|
  db_new := {| bd_map := ∅; bd_left := 1000 |};
  db_view d := bd_map d;
  db_iter d := map_iter (bd_map d);
  db_commit d v :=
    match bd_left d with
    | O => None
    | S n => Some {| bd_map := v; bd_left := n |}
    end
|}.
Next Obligation. done. Qed.
Next Obligation. intros d v d' Hc. simpl in Hc. case_match; by simplify_eq. Qed.
Next Obligation. intros. apply map_iter_elem. Qed.
Next Obligation. intros. apply (@db_iter_sorted _ badger_map). Qed.

(** ** The TTL heap walk *)

(** What the walk establishes, started from [(h, tomb, keys)]. *)
Definition peek_post (cutoff : Z) (limit : nat) (h : list expiryItem) (tomb : gset string)
    (keys : list string) (r : list expiryItem * gset string * list string) : Prop :=
  let '(h', tomb', keys') := r in
  heap_ok h' ∧ tomb' ⊆ tomb ∧
  ((length keys' < limit)%nat → Forall (λ x, cutoff < ei_expires x) h') ∧
  (length keys' ≤ length keys `max` limit)%nat ∧
  ∃ popped new, h ≡ₚ popped ++ h' ∧ keys' = keys ++ new ∧
    Forall (λ x, ei_expires x ≤ cutoff) popped ∧ new ⊆ ei_key <$> popped ∧
    Forall (λ x, ei_key x ∉ tomb → ei_key x ∈ new) popped.

Lemma peek_post_stop cutoff limit h tomb keys :
  heap_ok h → ((length keys < limit)%nat → Forall (λ x, cutoff < ei_expires x) h) →
  peek_post cutoff limit h tomb keys (h, tomb, keys).
Proof.
  intros Hh Hl. unfold peek_post. split_and!; try done; [lia|]. exists [], [].
  rewrite app_nil_r. split_and!; try apply Forall_nil_2; set_solver.
Qed.

Lemma peek_loop_spec fuel cutoff limit h tomb keys :
  heap_ok h → (length h ≤ fuel)%nat →
  peek_post cutoff limit h tomb keys (peek_loop fuel cutoff limit h tomb keys).
Proof.
  revert h tomb keys. induction fuel as [|fuel IH]; intros h tomb keys Hh Hf; cbn [peek_loop].
  { assert (h = []) as -> by (apply nil_length_inv; lia). apply peek_post_stop; auto. }
  case_decide; [apply peek_post_stop; [done|lia]|].
  destruct (h !! 0%nat) as [top|] eqn:Htop.
  2:{ apply peek_post_stop; [done|]. destruct h; [|done]. intros _. constructor. }
  case_decide.
  { apply peek_post_stop; [done|]. intros _. apply Forall_forall. intros x Hx.
    apply list_elem_of_lookup in Hx as [k Hk].
    pose proof (heap_root_min h k Hh (lookup_lt_Some _ _ _ Hk)) as Hm.
    unfold exp in Hm. rewrite Htop, Hk in Hm. simpl in Hm. lia. }
  destruct (heap_Pop_spec h top Hh Htop) as (h1 & -> & Hh1 & Hp & _).
  assert (Hl1 : (length h1 ≤ fuel)%nat) by (apply Permutation_length in Hp; simpl in Hp; lia).
  case_decide as Ht.
  - specialize (IH h1 (tomb ∖ {[ei_key top]}) keys Hh1 Hl1).
    destruct (peek_loop fuel cutoff limit h1 _ keys) as [[h' tomb'] keys'].
    destruct IH as (IH1 & IH2 & IH3 & IH4 & popped & new & IH5 & IH6 & IH7 & IH8 & IH9).
    unfold peek_post. split_and!; try done; [set_solver|]. exists (top :: popped), new. split_and!; try done.
    + rewrite Hp, IH5. done.
    + constructor; [lia|done].
    + set_solver.
    + constructor; [done|]. eapply Forall_impl; [exact IH9|]. intros x Hx Hn. apply Hx. set_solver.
  - specialize (IH h1 tomb (keys ++ [ei_key top]) Hh1 Hl1).
    destruct (peek_loop fuel cutoff limit h1 _ _) as [[h' tomb'] keys'].
    destruct IH as (IH1 & IH2 & IH3 & IH4 & popped & new & IH5 & IH6 & IH7 & IH8 & IH9).
    unfold peek_post. split_and!; try done; [rewrite length_app in IH4; simpl in IH4; lia|].
    exists (top :: popped), (ei_key top :: new). split_and!.
    + rewrite Hp, IH5. done.
    + by rewrite IH6, <- app_assoc.
    + constructor; [lia|done].
    + set_solver.
    + constructor; [set_solver|]. eapply Forall_impl; [exact IH9|]. set_solver.
Qed.

Section props.
Context {DB : Type} `{Badger DB}.
Implicit Types s : Store DB.

Definition store_heap_ok (s : Store DB) : Prop := heap_ok (st_expiryHeap s).

Lemma trackExpiry_heap_ok s k x : store_heap_ok s → store_heap_ok (trackExpiry s k x).
Proof. unfold store_heap_ok, trackExpiry. case_decide; cbn; auto with orbis. Qed.

Lemma db_update_heap {A} s (fn : txn → txn * A * option store_err) s' a e :
  db_update s fn = (s', a, e) → st_expiryHeap s' = st_expiryHeap s.
Proof. unfold db_update. intros. repeat case_match; by simplify_eq. Qed.

Lemma PutCASWithTTL_heap_ok now s k v ev x s' r e :
  store_heap_ok s → PutCASWithTTL now s k v ev x = (s', r, e) → store_heap_ok s'.
Proof.
  unfold PutCASWithTTL. intros Hs. destruct (db_update s _) as [[s1 r1] e1] eqn:Hu.
  apply db_update_heap in Hu.
  assert (store_heap_ok s1) by (unfold store_heap_ok; by rewrite Hu).
  case_decide; intros; simplify_eq; auto using trackExpiry_heap_ok.
Qed.

Lemma rebuild_heap_ok items h : heap_ok h → heap_ok (foldl rebuild_push h items).
Proof.
  revert h. induction items as [|[k j] items IH]; intros h Hh; [done|]. apply IH.
  unfold rebuild_push. repeat case_match; auto with orbis.
Qed.

(** The rebuilt heap holds exactly the decodable items with an expiry. *)
Lemma rebuild_elem items h x :
  x ∈ foldl rebuild_push h items ↔
  x ∈ h ∨ ∃ j e, (ei_key x, j) ∈ items ∧ unmarshal_kvEntry j = Some e ∧
                 0 < ke_Expires e ∧ ei_expires x = ke_Expires e.
Proof.
  revert h. induction items as [|[k j] items IH]; intros h; cbn.
  { split; [auto|]. intros [?|(?&?&?&_)]; [done|set_solver]. }
  rewrite IH. unfold rebuild_push; cbn.
  destruct (unmarshal_kvEntry j) as [e|] eqn:Ej; [case_decide|].
  - rewrite heap_Push_Permutation, elem_of_cons. split.
    + intros [[->|?]|(j'&e'&?&?&?&?)]; [right; exists j, e; cbn; set_solver|auto|right; exists j', e'; set_solver].
    + intros [?|(j'&e'&[[= ? ->]|?]%elem_of_cons&?&?&?)]; [auto| |right; do 2 eexists; eauto].
      simplify_eq. left; left. destruct x; cbn in *; by subst.
  - split; (intros [?|(j'&e'&Hin&?&?&?)]; [auto|right; exists j', e']); [set_solver|].
    apply elem_of_cons in Hin as [[= ? ->]|?]; [simplify_eq; lia|done].
  - split; (intros [?|(j'&e'&Hin&?&?&?)]; [auto|right; exists j', e']); [set_solver|].
    apply elem_of_cons in Hin as [[= ? ->]|?]; [simplify_eq|done].
Qed.

(** ** Snapshots *)

Definition is_tx (x : string * json) : bool := has_prefix txKeyPrefix x.1.

(** [save_loop] splits the items by the [_tx:] prefix and decodes the rest. *)
Lemma save_loop_spec items kv tx kv' tx' :
  save_loop items kv tx = Some (kv', tx') →
  ∃ kv2, kv' = kv ++ kv2 ∧ tx' = tx ++ filter (λ x, is_tx x = true) items ∧
    Forall2 (λ x y, x.1 = y.1 ∧ unmarshal_kvEntry x.2 = Some y.2)
      (filter (λ x, is_tx x = false) items) kv2.
Proof.
  revert kv tx. induction items as [|[k j] items IH]; intros kv tx Hs; cbn [save_loop] in Hs.
  { simplify_eq. exists []. by rewrite !app_nil_r. }
  destruct (has_prefix txKeyPrefix k) eqn:Hp.
  - rewrite filter_cons_True, filter_cons_False by (unfold is_tx; cbn [fst]; congruence). destruct (IH _ _ Hs) as (kv2 & -> & -> & HF). exists kv2. by rewrite <- app_assoc.
  - rewrite filter_cons_False, filter_cons_True by (unfold is_tx; cbn [fst]; congruence).
    destruct (unmarshal_kvEntry j) as [e|] eqn:Ej; [|done].
    destruct (IH _ _ Hs) as (kv2 & -> & -> & HF). exists ((k, e) :: kv2).
    rewrite <- app_assoc. split_and!; [done..|]. by constructor.
Qed.

Lemma as_map_bytes (tx : list (string * json)) :
  as_map as_bytes (Some (JObj (prod_map id JBytes <$> tx))) = Some (Some tx).
Proof. apply as_map_obj. by apply Forall_forall. Qed.

Lemma unmarshal_marshal_envelope kv tx :
  Forall (λ x, kvEntry_wf x.2) kv → unmarshal_envelope (marshal_envelope kv tx) = Some (kv, tx).
Proof.
  intros Hkv.
  assert (Hm : as_map unmarshal_kvEntry (Some (JObj (prod_map id marshal_kvEntry <$> kv))) = Some (Some kv)).
  { apply as_map_obj. eapply Forall_impl; [exact Hkv|]. intros. by apply unmarshal_marshal_kvEntry. }
  unfold marshal_envelope, omit_if. case_bool_decide as Htx; [subst tx|].
  - transitivity (kv' ← as_map unmarshal_kvEntry (Some (JObj (prod_map id marshal_kvEntry <$> kv)));
      kv' ← match kv' with
            | Some kv' => Some kv'
            | None => default [] <$> as_map unmarshal_kvEntry (Some (marshal_envelope kv []))
            end;
      Some (kv', @nil (string * json))); [done|]. by rewrite Hm.
  - transitivity (kv' ← as_map unmarshal_kvEntry (Some (JObj (prod_map id marshal_kvEntry <$> kv)));
      tx' ← as_map as_bytes (Some (JObj (prod_map id JBytes <$> tx)));
      kv' ← match kv' with
            | Some kv' => Some kv'
            | None => default [] <$> as_map unmarshal_kvEntry
                (Some (JObj [("kv", JObj (prod_map id marshal_kvEntry <$> kv));
                             ("tx_records", JObj (prod_map id JBytes <$> tx))]))
            end;
      Some (kv', default [] tx')); [done|]. rewrite Hm, as_map_bytes. done.
Qed.

Lemma restore_writes_view d items d' :
  NoDup items.*1 → restore_writes d items = Some d' →
  db_view d' = list_to_map items ∪ db_view d.
Proof.
  revert d. induction items as [|[k j] items IH]; intros d Hnd Hr; cbn in Hr.
  { simplify_eq. cbn. by rewrite (left_id_L ∅ (∪)). }
  destruct (db_commit d _) as [d1|] eqn:Hc; [|done].
  apply NoDup_cons in Hnd as [Hk Hnd]. rewrite (IH _ Hnd Hr), (db_commit_view _ _ _ Hc).
  cbn. apply map_eq. intros i.
  destruct (decide (i = k)) as [->|].
  - rewrite lookup_union_r by (by apply not_elem_of_list_to_map_1).
    rewrite lookup_insert_eq. symmetry. apply lookup_union_Some_l. by rewrite lookup_insert_eq.
  - rewrite !lookup_union, !lookup_insert_ne by done. done.
Qed.

Lemma restore_writes_total d items :
  (∀ d v, is_Some (db_commit d v)) → is_Some (restore_writes d items).
Proof.
  intros Hc. revert d. induction items as [|[k j] items IH]; intros d; cbn; [eauto|].
  destruct (Hc d (<[k:=j]> (db_view d))) as [d1 ->]. apply IH.
Qed.

Lemma db_iter_NoDup (d : DB) p : NoDup (db_iter d p).*1.
Proof.
  pose proof (db_iter_sorted d p) as Hs. induction Hs as [|x l _ IH Hx]; constructor; [|done].
  intros Hin. rewrite Forall_forall in Hx. by destruct (Hx x Hin) as [_ ?].
Qed.

Lemma filter_fst_NoDup (P : string * json → Prop) `{∀ x, Decision (P x)} l :
  NoDup l.*1 → NoDup (filter P l).*1.
Proof.
  induction l as [|x l IH]; [done|]. rewrite fmap_cons, NoDup_cons. intros [Hx Hl].
  rewrite filter_cons. case_decide; [|auto]. rewrite fmap_cons, NoDup_cons. split; [|auto].
  intros (y & Hy & Hin)%list_elem_of_fmap. apply list_elem_of_filter in Hin as [_ Hin].
  apply Hx. rewrite Hy. by apply list_elem_of_fmap_2.
Qed.

(** The records a snapshot of [s] restores: the entries re-encoded, the
    transaction records as they are. *)
Lemma snapshot_items s kv tx :
  save_loop (db_iter (st_db s) "") [] [] = Some (kv, tx) →
  let items := (prod_map id marshal_kvEntry <$> kv) ++ tx in
  NoDup items.*1 ∧ Forall (λ x, kvEntry_wf x.2) kv ∧
  ∀ k j, (k, j) ∈ items ↔
    if has_prefix txKeyPrefix k then db_view (st_db s) !! k = Some j
    else ∃ e, entry_at s k = Some e ∧ j = marshal_kvEntry e.
Proof.
  intros Hs. apply save_loop_spec in Hs as (kv2 & -> & -> & HF). cbn [app].
  set (it := db_iter (st_db s) "") in *.
  assert (Hit : ∀ k j, (k, j) ∈ it ↔ db_view (st_db s) !! k = Some j).
  { intros. subst it. rewrite db_iter_elem. naive_solver. }
  assert (Hnd : NoDup it.*1) by apply db_iter_NoDup.
  assert (Hkeys : (prod_map id marshal_kvEntry <$> kv2).*1 = (filter (λ x, is_tx x = false) it).*1).
  { clear -HF. induction HF as [|x y l l' [Hxy _] _ IH]; [done|]. cbn. by rewrite IH, Hxy. }
  split_and!.
  - rewrite fmap_app, Hkeys. apply NoDup_app. split_and!; [by apply filter_fst_NoDup| |by apply filter_fst_NoDup].
    intros k ([k1 j1] & -> & [H1 _]%list_elem_of_filter)%list_elem_of_fmap
             ([k2 j2] & Hk & [H2 _]%list_elem_of_filter)%list_elem_of_fmap.
    unfold is_tx in *. cbn [fst] in *. congruence.
  - clear -HF. induction HF as [|x y l l' [_ Hxy] _ IH]; constructor; [|done].
    by eapply unmarshal_kvEntry_wf.
  - intros k j. rewrite elem_of_app, list_elem_of_filter, Hit. unfold is_tx at 1. cbn [fst].
    assert (Hkv : (k, j) ∈ prod_map id marshal_kvEntry <$> kv2 ↔
      has_prefix txKeyPrefix k = false ∧ ∃ e, entry_at s k = Some e ∧ j = marshal_kvEntry e).
    { rewrite list_elem_of_fmap. split.
      - intros ([k' e] & [= -> ->] & Hin).
        apply list_elem_of_lookup in Hin as [i Hi].
        destruct (Forall2_lookup_r _ _ _ _ _ HF Hi) as ([k2 j2] & Hj & Hk & Hu). cbn in *; subst.
        apply list_elem_of_lookup_2 in Hj. apply list_elem_of_filter in Hj as [Hp Hj].
        split; [done|]. exists e. unfold entry_at. apply Hit in Hj. by rewrite Hj.
      - intros [Hp (e & He & ->)]. exists (k, e). split; [done|].
        unfold entry_at in He. destruct (db_view (st_db s) !! k) as [raw|] eqn:Hraw; [|done]. cbn in He.
        assert (Hin : (k, raw) ∈ filter (λ x, is_tx x = false) it)
          by (apply list_elem_of_filter; split; [done|]; by apply Hit).
        apply list_elem_of_lookup in Hin as [i Hi].
        destruct (Forall2_lookup_l _ _ _ _ _ HF Hi) as ([k2 e2] & Hj & Hk & Hu). cbn in *; subst.
        rewrite He in Hu. simplify_eq. by eapply list_elem_of_lookup_2. }
    rewrite Hkv. destruct (has_prefix txKeyPrefix k); naive_solver.
Qed.

Definition env_ok (env : restore_env) : Prop :=
  re_removeTmp env && re_openTmp env && re_closeTmp env && re_closeOld env &&
  re_removeBackup env && re_renameOld env && re_renameTmp env && re_openNew env = true.

(** What a database restored from a snapshot of [s] holds: every transaction
    record byte for byte, every other key re-encoded, and no other key. *)
Definition restored_view (s : Store DB) (v : gmap string json) : Prop :=
  ∀ k, v !! k = if has_prefix txKeyPrefix k then db_view (st_db s) !! k
                else marshal_kvEntry <$> entry_at s k.

Lemma restored_entry s s' : restored_view s (db_view (st_db s')) →
  ∀ k, has_prefix txKeyPrefix k = false → entry_at s' k = entry_at s k.
Proof.
  intros Hr k Hk. unfold entry_at at 1. rewrite (Hr k), Hk.
  destruct (entry_at s k) as [e|] eqn:He; [|done]. cbn. apply unmarshal_marshal_kvEntry.
  unfold entry_at in He. destruct (_ !! k); [|done]. by eapply unmarshal_kvEntry_wf.
Qed.

Lemma restore_writes_snapshot s kv tx d :
  save_loop (db_iter (st_db s) "") [] [] = Some (kv, tx) →
  restore_writes db_new ((prod_map id marshal_kvEntry <$> kv) ++ tx) = Some d →
  restored_view s (db_view d).
Proof.
  intros Hl Hd k. pose proof (snapshot_items s kv tx Hl) as (Hnd & Hwf & Hel).
  apply restore_writes_view in Hd; [|done].
  rewrite db_new_view, (right_id_L ∅ (∪)) in Hd. rewrite Hd.
  apply option_eq. intros j. rewrite <- elem_of_list_to_map by done. rewrite Hel.
  destruct (has_prefix txKeyPrefix k); [done|]. rewrite fmap_Some. naive_solver.
Qed.

(** Whatever a successful [LoadSnapshot] of such a document installs. *)
Lemma LoadSnapshot_restored env s s0 j s' :
  SaveSnapshot s = Some j → LoadSnapshot env s0 j = LoadOK s' →
  restored_view s (db_view (st_db s')) ∧ st_expiryHeap s' = st_expiryHeap s0.
Proof.
  intros Hs Hload. unfold SaveSnapshot in Hs.
  destruct (save_loop _ [] []) as [[kv tx]|] eqn:Hl; simplify_eq/=.
  pose proof (snapshot_items s kv tx Hl) as (Hnd & Hwf & Hel).
  unfold LoadSnapshot in Hload. rewrite unmarshal_marshal_envelope in Hload by done.
  repeat case_match; simplify_eq/=. split; [|done]. by eapply restore_writes_snapshot.
Qed.

(** With every file-system step and commit succeeding, the load succeeds. *)
Lemma LoadSnapshot_total env s s0 j :
  (∀ d v, is_Some (db_commit d v)) → env_ok env → SaveSnapshot s = Some j →
  ∃ s', LoadSnapshot env s0 j = LoadOK s'.
Proof.
  intros Hc Henv Hs. unfold SaveSnapshot in Hs.
  destruct (save_loop _ [] []) as [[kv tx]|] eqn:Hl; simplify_eq/=.
  pose proof (snapshot_items s kv tx Hl) as (Hnd & Hwf & Hel).
  unfold env_ok in Henv. rewrite !andb_true_iff in Henv. destruct_and!.
  unfold LoadSnapshot. rewrite unmarshal_marshal_envelope by done.
  repeat match goal with E : _ env = true |- _ => rewrite E; clear E end. cbn [negb].
  destruct (restore_writes_total db_new ((prod_map id marshal_kvEntry <$> kv) ++ tx) Hc) as [d Hd].
  rewrite Hd. eauto.
Qed.

(** An error of [LoadSnapshot] before the switch leaves the store serving what
    it served. *)
Lemma LoadSnapshot_invalid env s0 j :
  unmarshal_envelope j = None → LoadSnapshot env s0 j = LoadErr ErrDecode s0.
Proof. unfold LoadSnapshot. by intros ->. Qed.

(** ** Rollback of a migration double-write *)

Definition rollback_guard (s : Store DB) (key : string) (expectedCurrentVersion : Z) : Prop :=
  if decide (expectedCurrentVersion = 0) then db_view (st_db s) !! key = None
  else ke_Version <$> entry_at s key = Some expectedCurrentVersion.

(** [RollbackCASMutation] puts the given entry back (or removes the key) when
    the key is at the expected version, and otherwise changes nothing. *)
Lemma RollbackCASMutation_spec s key ecv pv pver pexp (pe : bool) s' e :
  isU64 pver → isS64 pexp →
  RollbackCASMutation s key ecv pv pver pexp pe = (s', e) →
  match e with
  | Some err => s' = s ∧ (err = ErrCommit ∨ ¬ rollback_guard s key ecv)
  | None =>
      rollback_guard s key ecv ∧
      entry_at s' key =
        (if pe then Some {| ke_Value := pv; ke_Version := pver; ke_Expires := pexp |} else None) ∧
      ∀ k, k ≠ key → entry_at s' k = entry_at s k
  end.
Proof.
  intros Hv Hx. unfold RollbackCASMutation, rollback_guard.
  destruct (db_update s _) as [[s1 u] e1] eqn:Hu.
  apply db_update_cases in Hu as HC; [|intros; repeat case_match; by simplify_eq].
  intros Heq.
  assert (st_db s' = st_db s1 ∧ e = e1) as [Hdb ->].
  { case_decide; simplify_eq; auto using trackExpiry_db. }
  assert (Hs1 : ∀ err, e1 = Some err → s' = s1) by (intros ? ->; rewrite decide_False in Heq by naive_solver; by simplify_eq).
  clear Heq Hu. unfold txn_get in HC; cbn in HC.
  destruct e1 as [err|].
  - rewrite (Hs1 err eq_refl). unfold entry_at. clear Hs1 Hdb.
    destruct (db_view (st_db s) !! key) as [raw|] eqn:Hraw; cbn in *; case_decide; cbn in *;
      repeat case_match; simplify_eq/=; naive_solver.
  - clear Hs1.
    assert (Hat : ∀ k, entry_at s' k = entry_at s1 k) by (intros; by apply entry_at_db).
    setoid_rewrite Hat. clear Hat Hdb.
    assert (Hend : rollback_guard s key ecv ∧ db_view (st_db s1) =
      if pe then <[key := marshal_kvEntry {| ke_Value := pv; ke_Version := pver; ke_Expires := pexp |}]>
                   (db_view (st_db s))
      else delete key (db_view (st_db s))).
    { unfold rollback_guard, entry_at.
      destruct (db_view (st_db s) !! key) as [raw|] eqn:Hraw; cbn in *; case_decide; cbn in *;
        repeat case_match; simplify_eq/=; naive_solver. }
    destruct Hend as [Hg Hview]. split; [exact Hg|]. destruct pe.
    + apply entry_at_insert in Hview; [done|by split].
    + unfold entry_at. rewrite Hview, lookup_delete_eq. split; [done|].
      intros k Hk. by rewrite lookup_delete_ne.
Qed.

(** ** The store invariant *)

(** Every key outside [_tx:] holds an encoded entry, and the TTL heap is a heap. *)
Definition user_typed (v : gmap string json) : Prop :=
  ∀ k j, v !! k = Some j → has_prefix txKeyPrefix k = false →
    ∃ e, kvEntry_wf e ∧ j = marshal_kvEntry e.
Definition store_wf (s : Store DB) : Prop :=
  user_typed (db_view (st_db s)) ∧ store_heap_ok s.

Lemma user_typed_insert v k e : user_typed v → kvEntry_wf e → user_typed (<[k := marshal_kvEntry e]> v).
Proof.
  intros Hv He k' j [[<- <-]|[? Hk]]%lookup_insert_Some Hp; [by exists e|by eapply Hv].
Qed.
Lemma user_typed_tx v k j : user_typed v → user_typed (<[txKeyPrefix +:+ k := j]> v).
Proof.
  intros Hv k' j' [[<- <-]|[? Hk]]%lookup_insert_Some Hp; [|by eapply Hv].
  by rewrite has_prefix_app in Hp.
Qed.
Lemma user_typed_delete v k : user_typed v → user_typed (delete k v).
Proof. intros Hv k' j [? Hk]%lookup_delete_Some Hp. by eapply Hv. Qed.
Hint Resolve user_typed_insert user_typed_tx user_typed_delete : orbis.

Lemma store_wf_decodable s k :
  store_wf s → has_prefix txKeyPrefix k = false → decodable s k.
Proof.
  intros [Hs _] Hk j Hj. destruct (Hs _ _ Hj Hk) as (e & He & ->).
  rewrite unmarshal_marshal_kvEntry by done. eauto.
Qed.

(** A transaction body that keeps the view typed keeps the store typed. *)
Lemma db_update_typed {A} s (fn : txn → txn * A * option store_err) s' a e :
  store_wf s → db_update s fn = (s', a, e) →
  (∀ t b, fn {| t_view := db_view (st_db s); t_dirty := false |} = (t, b, None) → user_typed (t_view t)) →
  store_wf s'.
Proof.
  intros [Hs Hh] Hu Hfn. unfold db_update in Hu. destruct (fn _) as [[t b] [err|]] eqn:Hf; simplify_eq/=; [done|].
  specialize (Hfn _ _ eq_refl).
  destruct (t_dirty t); simplify_eq/=; [|done].
  destruct (db_commit _ _) as [d|] eqn:Hc; simplify_eq/=; [|done].
  split; [|done]. cbn. by rewrite (db_commit_view _ _ _ Hc).
Qed.

Lemma trackExpiry_wf s k x : store_wf s → store_wf (trackExpiry s k x).
Proof. intros [Hs Hh]. split; [by rewrite trackExpiry_db|by apply trackExpiry_heap_ok]. Qed.
Hint Resolve trackExpiry_wf : orbis.

Lemma entry_wf_intro v n x : isU64 n → isS64 x → kvEntry_wf {| ke_Value := v; ke_Version := n; ke_Expires := x |}.
Proof. by split. Qed.
Lemma isU64_1 : isU64 1.
Proof. unfold isU64. lia. Qed.
Hint Resolve entry_wf_intro isU64_1 : orbis.

Lemma writeBatch_typed t ops t' :
  Forall (λ op, isS64 (wb_Expires op)) ops → user_typed (t_view t) →
  writeBatchWithCASInTxn t ops = (t', None) → user_typed (t_view t').
Proof.
  revert t. induction ops as [|op ops IH]; intros t Hx Ht Hw; simplify_eq/=; [done|].
  apply Forall_cons in Hx as [Hx1 Hx]. unfold writeBatchOp_step in Hw.
  repeat case_match; simplify_eq; (eapply IH; [exact Hx| |eassumption]); cbn; auto with orbis.
Qed.

(** One call of a mutating method, with arguments in the range of their type. *)
Inductive store_step (s : Store DB) : Store DB → Prop :=
  | step_Put k v n x : isU64 n → isS64 x → store_step s (Put s k v n x).1
  | step_PutCAS now k v n x : isS64 x → store_step s (PutCASWithTTL now s k v n x).1.1
  | step_WriteBatch ops :
      Forall (λ op, isS64 (wb_Expires op)) ops → store_step s (WriteBatchWithCAS s ops).1
  | step_WriteBatchRecord ops rk rd :
      Forall (λ op, isS64 (wb_Expires op)) ops →
      store_step s (WriteBatchWithCASAndRecord s ops rk rd).1
  | step_Rollback k cv pv pn px pe :
      isU64 pn → isS64 px → store_step s (RollbackCASMutation s k cv pv pn px pe).1
  | step_PutTx k j : store_step s (PutTxRecord s k j).1
  | step_DeleteTx k : store_step s (DeleteTxRecord s k).1
  | step_Expired c l : store_step s (GetExpiredKeys s c l).1
  | step_Rebuild : store_step s (RebuildExpiryHeap s)
  | step_Delete k : store_step s (Delete s k).1
  | step_Clear (DropAll : DB → DB * bool) :
      (* what is left after [DropAll]: nothing if it succeeds, else some of the records *)
      db_view (DropAll (st_db s)).1 ⊆ (if (DropAll (st_db s)).2 : bool then ∅ else db_view (st_db s)) →
      store_step s (Clear DropAll s).1.

(** The handle: open, or (after [Close] or a failed [LoadSnapshot]) gone, with
    what is left on disk. *)
Inductive handle := Open (s : Store DB) | Closed (s : Store DB).
Definition handle_store (h : handle) : Store DB := match h with Open s | Closed s => s end.

(** Loading a document, which also a store without a handle can do. *)
Definition load_handle (env : restore_env) (j : json) (h : handle) : handle :=
  match LoadSnapshot env (handle_store h) j with
  | LoadOK s | LoadErrReopened _ s => Open s
  | LoadErr _ _ => h
  | LoadErrClosed _ s => Closed s
  end.

(** A document as [SaveSnapshot] and its predecessors write it: the records it
    calls transaction records are under [_tx:]. *)
Definition snapshot_doc (j : json) : Prop :=
  ∀ kv tx, unmarshal_envelope j = Some (kv, tx) → Forall (λ x, has_prefix txKeyPrefix x.1 = true) tx.

(** One method call.  Without a handle every method but [LoadSnapshot] panics or
    returns Badger's error. *)
Inductive store_method : handle → handle → Prop :=
  | sm_step s s' : store_step s s' → store_method (Open s) (Open s')
  | sm_load env j h : snapshot_doc j → store_method h (load_handle env j h)
  | sm_Close s : store_method (Open s) (Closed s).

Lemma restored_typed s v : restored_view s v → user_typed v.
Proof.
  intros Hr k j Hk Hp. rewrite (Hr k), Hp in Hk.
  destruct (entry_at s k) as [e|] eqn:He; simplify_eq/=. exists e. split; [|done].
  unfold entry_at in He. destruct (_ !! k); [|done]. by eapply unmarshal_kvEntry_wf.
Qed.

Lemma Rollback_wf s k cv pv pn px pe :
  store_wf s → isU64 pn → isS64 px → store_wf (RollbackCASMutation s k cv pv pn px pe).1.
Proof.
  intros Hs ??. unfold RollbackCASMutation. destruct (db_update s _) as [[s1 u] e] eqn:Hu.
  eapply db_update_typed in Hu; [|done|].
  - case_decide; cbn; auto with orbis.
  - destruct Hs. intros. repeat case_match; simplify_eq; cbn; auto with orbis.
Qed.

Lemma PutCAS_wf s now k v n x : store_wf s → isS64 x → store_wf (PutCASWithTTL now s k v n x).1.1.
Proof.
  intros Hs ?. unfold PutCASWithTTL. destruct (db_update s _) as [[s1 u] e] eqn:Hu.
  eapply db_update_typed in Hu; [|done|].
  - case_decide; cbn; auto with orbis.
  - destruct Hs. unfold PutCAS_body. intros. repeat case_match; simplify_eq; cbn; auto with orbis.
Qed.

Lemma GetExpiredKeys_wf s c l : store_wf s → store_wf (GetExpiredKeys s c l).1.
Proof.
  intros [Hs Hh]. unfold GetExpiredKeys. case_decide; [|done]. unfold PeekExpiredKeys.
  pose proof (peek_loop_spec (length (st_expiryHeap s)) c (norm_limit l) _ (st_tombstones s) [] Hh (le_n _)) as Hp.
  destruct (peek_loop _ _ _ _ _ _) as [[h t] ks]. split; [done|]. apply Hp.
Qed.

Lemma store_step_wf s s' : store_wf s → store_step s s' → store_wf s'.
Proof.
  intros Hs Hstep. destruct Hstep; auto using Rollback_wf, PutCAS_wf, GetExpiredKeys_wf.
  - unfold Put. destruct (db_update s _) as [[s1 u] e] eqn:Hu. eapply db_update_typed in Hu; [done|done|].
    destruct Hs. intros; simplify_eq; cbn. auto with orbis.
  - unfold WriteBatchWithCAS. destruct (db_update s _) as [[s1 u] e] eqn:Hu. eapply db_update_typed in Hu; [done|done|].
    destruct Hs. intros t b. destruct (writeBatchWithCASInTxn _ ops) eqn:Hw. intros. simplify_eq. by eapply writeBatch_typed in Hw.
  - unfold WriteBatchWithCASAndRecord. destruct (db_update s _) as [[s1 u] e] eqn:Hu. eapply db_update_typed in Hu; [done|done|].
    destruct Hs. intros t b. destruct (writeBatchWithCASInTxn _ ops) as [? []] eqn:Hw; intros; simplify_eq.
    apply writeBatch_typed in Hw; cbn; auto with orbis.
  - unfold PutTxRecord. destruct (db_update s _) as [[s1 u] e] eqn:Hu. eapply db_update_typed in Hu; [done|done|].
    destruct Hs. intros; simplify_eq; cbn. auto with orbis.
  - unfold DeleteTxRecord. destruct (db_update s _) as [[s1 u] e] eqn:Hu. eapply db_update_typed in Hu; [done|done|].
    destruct Hs. intros; simplify_eq; cbn. auto with orbis.
  - split; [apply Hs|]. apply rebuild_heap_ok, heap_ok_nil.
  - unfold Delete. destruct (db_update s _) as [[s1 u] e] eqn:Hu. eapply db_update_typed in Hu; [|done|].
    + by destruct e.
    + destruct Hs. intros; simplify_eq; cbn. auto with orbis.
  - unfold Clear. destruct (DropAll (st_db s)) as [d ok] eqn:Hd. cbn in *. split; [|apply Hs]. destruct Hs as [Hs _].
    intros k j Hk. apply Hs. destruct ok; [|by eapply lookup_weaken].
    exfalso. eapply lookup_weaken in Hk; [|eassumption]. by rewrite lookup_empty in Hk.
Qed.

Lemma unmarshal_envelope_wf j kv tx : unmarshal_envelope j = Some (kv, tx) → Forall (λ x, kvEntry_wf x.2) kv.
Proof.
  assert (∀ o m, as_map unmarshal_kvEntry o = Some (Some m) → Forall (λ x, kvEntry_wf x.2) m) as Hmap.
  { intros o m Hm. unfold as_map in Hm. destruct o as [j0|]; [|done]. destruct j0 as [| | | | |m0| |]; try done. destruct (mapM _ m0) as [m1|] eqn:E; [|done]. injection Hm as <-.
    apply mapM_Some_1 in E. clear -E. induction E as [|[k v] [k' e] l l' Hx _ IH]; constructor; [|done].
    destruct (unmarshal_kvEntry v) eqn:Hu; [|done]. cbn in Hx. simplify_eq. cbn. by eapply unmarshal_kvEntry_wf. }
  unfold unmarshal_envelope. intros Hu. apply bind_Some in Hu as (m & _ & Hu).
  apply bind_Some in Hu as (kv0 & E1 & Hu). apply bind_Some in Hu as (tx0 & _ & Hu). apply bind_Some in Hu as (kv1 & E2 & Hu).
  injection Hu as -> _. destruct kv0 as [kv0|]; [injection E2 as ->; by eapply Hmap|].
  apply fmap_Some in E2 as ([kv1|] & E2 & ->); [by eapply Hmap|constructor].
Qed.

Lemma restore_writes_typed items : ∀ d d', user_typed (db_view d) →
  Forall (λ x, has_prefix txKeyPrefix x.1 = true ∨ ∃ e, kvEntry_wf e ∧ x.2 = marshal_kvEntry e) items →
  restore_writes d items = Some d' → user_typed (db_view d').
Proof.
  induction items as [|[k j] items IH]; intros d d' Hd Hi Hr; cbn in Hr; [by simplify_eq|].
  apply Forall_cons in Hi as [Hx Hi]. destruct (db_commit d _) as [d1|] eqn:Hc; [|done].
  eapply (IH d1); [|done|done]. rewrite (db_commit_view _ _ _ Hc). destruct Hx as [Hp|(e & He & Hj)]; cbn in *.
  - intros k' j' [[<- <-]|[_ Hk]]%lookup_insert_Some Hk'; [congruence|by eapply Hd].
  - subst j. auto with orbis.
Qed.

Lemma new_typed : user_typed (db_view (db_new : DB)).
Proof. intros k j. by rewrite db_new_view, lookup_empty. Qed.
Lemma snapshot_typed j kv tx d : snapshot_doc j → unmarshal_envelope j = Some (kv, tx) →
  restore_writes db_new ((prod_map id marshal_kvEntry <$> kv) ++ tx) = Some d → user_typed (db_view d).
Proof.
  intros Hdoc Hu. apply restore_writes_typed; [apply new_typed|]. apply Forall_app. split.
  - pose proof (unmarshal_envelope_wf _ _ _ Hu) as Hwf. apply Forall_fmap. eapply Forall_impl; [exact Hwf|].
    intros [k e] He. right. by exists e.
  - eapply Forall_impl; [exact (Hdoc _ _ Hu)|]. by left.
Qed.
Lemma load_handle_wf env j h : snapshot_doc j → store_wf (handle_store h) → store_wf (handle_store (load_handle env j h)).
Proof.
  intros Hdoc Hs. unfold load_handle, LoadSnapshot. destruct (unmarshal_envelope j) as [[kv tx]|] eqn:Hu; [|done].
  destruct (negb (re_removeTmp env)); [done|]. destruct (negb (re_openTmp env)); [done|].
  destruct (restore_writes _ _) as [d|] eqn:Hd; [|done].
  assert (store_wf (with_db (handle_store h) d)) as Hd1 by (split; [by eapply snapshot_typed|apply Hs]).
  assert (store_wf (with_db (handle_store h) db_new)) as Hn by (split; [apply new_typed|apply Hs]).
  cbv zeta. destruct (negb (re_closeTmp env)); [done|]. destruct (negb (re_closeOld env)); [done|].
  destruct (negb (re_removeBackup env)); [done|]. destruct (negb (re_renameOld env)); [done|].
  destruct (negb (re_renameTmp env)); [by destruct (re_renameBack env)|]. destruct (negb (re_openNew env)); [|done].
  by destruct (re_openFallback env), (re_removeNew env), (re_renameBack env).
Qed.
Lemma store_method_wf h h' : store_wf (handle_store h) → store_method h h' → store_wf (handle_store h').
Proof.
  intros Hs Hm. revert Hs. destruct Hm as [s s' Hst|env j h0 Hdoc|s]; intros Hs; [by eapply store_step_wf|by apply load_handle_wf|done].
Qed.

(** What [SaveSnapshot] writes is such a document. *)
Lemma SaveSnapshot_doc s j : SaveSnapshot s = Some j → snapshot_doc j.
Proof.
  unfold SaveSnapshot. destruct (save_loop _ [] []) as [[kv tx]|] eqn:Hl; intros; simplify_eq/=.
  pose proof (snapshot_items s kv tx Hl) as (_ & Hwf & _). intros kv' tx' Hu.
  rewrite unmarshal_marshal_envelope in Hu by done. simplify_eq.
  apply save_loop_spec in Hl as (kv2 & _ & -> & _). apply Forall_forall. intros x Hx. cbn in Hx.
  by apply list_elem_of_filter in Hx as [? _].
Qed.

Lemma NewStore_wf : store_wf NewStore.
Proof. split; [|apply heap_ok_nil]. intros k j. unfold NewStore. cbn. rewrite db_new_view, lookup_empty. done. Qed.

(** On a typed store [SaveSnapshot] cannot fail. *)
Lemma save_loop_total items kv tx :
  Forall (λ x, has_prefix txKeyPrefix x.1 = false → is_Some (unmarshal_kvEntry x.2)) items →
  is_Some (save_loop items kv tx).
Proof.
  intros HF. revert kv tx. induction HF as [|[k j] items Hx _ IH]; intros kv tx; cbn; [eauto|].
  destruct (has_prefix txKeyPrefix k) eqn:Hp; [apply IH|]. cbn in Hx. destruct (Hx Hp) as [e ->]. apply IH.
Qed.

Lemma SaveSnapshot_total s : store_wf s → is_Some (SaveSnapshot s).
Proof.
  intros Hs. unfold SaveSnapshot.
  destruct (save_loop_total (db_iter (st_db s) "") [] []) as [[kv tx] ->]; [|by eexists].
  apply Forall_forall. intros [k j] Hin Hp. apply db_iter_elem in Hin as [Hin _].
  by eapply store_wf_decodable.
Qed.

(** ** The two ways to find expired keys *)

Definition expired_at (s : Store DB) (cutoff : Z) (k : string) : Prop :=
  ∃ e, entry_at s k = Some e ∧ 0 < ke_Expires e ∧ ke_Expires e ≤ cutoff.

Lemma scan_expired_elem cutoff limit items keys k :
  (length (scan_expired cutoff limit items keys) < limit)%nat →
  k ∈ scan_expired cutoff limit items keys ↔
  k ∈ keys ∨ ∃ j e, (k, j) ∈ items ∧ unmarshal_kvEntry j = Some e ∧
                    0 < ke_Expires e ∧ ke_Expires e ≤ cutoff.
Proof.
  revert keys. induction items as [|[k0 j0] items IH]; intros keys Hlen; cbn in *.
  { split; [auto|]. intros [?|(?&?&?&_)]; [done|set_solver]. }
  case_decide; [lia|].
  destruct (unmarshal_kvEntry j0) as [e0|] eqn:Ej; [case_decide|]; rewrite IH by done.
  - rewrite elem_of_app, list_elem_of_singleton. split.
    + intros [[?| ->]|(j&e&?&?)]; [auto|right; exists j0, e0; set_solver|right; exists j, e; set_solver].
    + intros [?|(j&e&[[= -> ->]|?]%elem_of_cons&?)]; [auto..|]. right; eauto.
  - split; (intros [?|(j&e&Hin&?&?)]; [auto|right; exists j, e]); [set_solver|].
    apply elem_of_cons in Hin as [[= -> ->]|?]; [simplify_eq; lia|done].
  - split; (intros [?|(j&e&Hin&?&?)]; [auto|right; exists j, e]); [set_solver|].
    apply elem_of_cons in Hin as [[= -> ->]|?]; [simplify_eq|done].
Qed.

Lemma scan_items_expired s cutoff k :
  (∃ j e, (k, j) ∈ db_iter (st_db s) "" ∧ unmarshal_kvEntry j = Some e ∧
          0 < ke_Expires e ∧ ke_Expires e ≤ cutoff) ↔ expired_at s cutoff k.
Proof.
  unfold expired_at, entry_at. setoid_rewrite db_iter_elem. split.
  - intros (j & e & [-> _] & ? & ?). eauto.
  - intros (e & He & ?). destruct (_ !! k) as [j|]; [|done]. exists j, e. done.
Qed.

Lemma rebuild_peek_elem s cutoff limit k :
  let r := PeekExpiredKeys (RebuildExpiryHeap s) cutoff limit in
  (length r.2 < norm_limit limit)%nat → k ∈ r.2 ↔ expired_at s cutoff k.
Proof.
  unfold PeekExpiredKeys, RebuildExpiryHeap. cbn [st_expiryHeap st_tombstones].
  set (h := foldl _ _ _).
  assert (Hh : heap_ok h) by apply rebuild_heap_ok, heap_ok_nil.
  pose proof (peek_loop_spec (length h) cutoff (norm_limit limit) h ∅ [] Hh (le_n _)) as Hp.
  destruct (peek_loop _ _ _ _ _ _) as [[h' t'] ks].
  destruct Hp as (_ & _ & Hrest & _ & popped & new & Hperm & -> & Hle & Hsub & Hall). cbn.
  intros Hlen. specialize (Hrest Hlen). rewrite <- scan_items_expired.
  assert (Hmem : ∀ x, x ∈ h ↔ ∃ j e, (ei_key x, j) ∈ db_iter (st_db s) "" ∧
     unmarshal_kvEntry j = Some e ∧ 0 < ke_Expires e ∧ ei_expires x = ke_Expires e).
  { intros x. unfold h. rewrite rebuild_elem. split; [intros [?|?]; [set_solver|done]|auto]. }
  rewrite !Forall_forall in *. split.
  - intros Hk. apply Hsub in Hk. apply list_elem_of_fmap in Hk as (x & -> & Hx).
    destruct (proj1 (Hmem x)) as (j & e & ? & ? & ? & Heq); [rewrite Hperm; set_solver|].
    exists j, e. split_and!; [done..|]. rewrite <- Heq. by apply Hle.
  - intros (j & e & ? & ? & ? & ?).
    assert (Hx : {| ei_key := k; ei_expires := ke_Expires e |} ∈ h) by (apply Hmem; exists j, e; by split_and!).
    rewrite Hperm, elem_of_app in Hx. destruct Hx as [Hx|Hx].
    + apply Hall in Hx; [done|set_solver].
    + apply Hrest in Hx. cbn in Hx. lia.
Qed.

End props.

(** ** Claims *)

Section claims.
Context {DB : Type} `{Badger DB}.
Implicit Types s : Store DB.

(** [PutCASWithTTL] is compare-and-swap on what a reader at [now] sees: an
    absent or expired key accepts only expected version 0 and restarts at
    version 1, a live key accepts only its own version and moves to the next;
    a refused call changes no entry, an accepted one only its key, and a failed
    commit leaves the store as it was. *)
Theorem put_cas_contract s now key value ev exp s' old st e :
  isS64 exp → store_wf s → has_prefix txKeyPrefix key = false →
  PutCASWithTTL now s key value ev exp = (s', (old, st), e) →
  match e with
  | Some err => err = ErrCommit ∧ s' = s
  | None =>
      let '(post, old', st') := cas_spec (live now s key) value ev exp in
      old = old' ∧ st = st' ∧
      match st with
      | PutCASOK => entry_at s' key = post ∧ ∀ k, k ≠ key → entry_at s' k = entry_at s k
      | _ => ∀ k, entry_at s' k = entry_at s k
      end
  end.
Proof. intros. eapply PutCASWithTTL_spec; eauto using store_wf_decodable. Qed.

(** C30: a batch of distinct keys with a record under another key is all or
    nothing: without an error every version check held on the initial contents,
    every key holds its new entry, the record is written and nothing else has
    changed; with an error the store is untouched, and the error is a failed
    commit or some version check that did not hold. *)
Theorem batch_and_record_atomic s ops rk rd s' e :
  NoDup (wb_Key <$> ops) → (txKeyPrefix +:+ rk) ∉ wb_Key <$> ops →
  WriteBatchWithCASAndRecord s ops rk rd = (s', e) →
  let v := db_view (st_db s) in let v' := db_view (st_db s') in
  match e with
  | Some err => s' = s ∧ (err = ErrCommit ∨ ¬ Forall (batch_pre v) ops)
  | None =>
      Forall (batch_pre v) ops ∧
      Forall (λ op, v' !! wb_Key op = batch_post v op) ops ∧
      v' !! (txKeyPrefix +:+ rk) = Some rd ∧
      (∀ k, k ∉ wb_Key <$> ops → k ≠ txKeyPrefix +:+ rk → v' !! k = v !! k)
  end.
Proof.
  intros Hnd Hrk Hw. pose proof (WriteBatchWithCASAndRecord_spec s ops rk rd s' e Hnd Hrk Hw) as Hs.
  destruct e; naive_solver.
Qed.

(** C31: in every state reached from a new store by any sequence of method
    calls, [Clear], [Close] and failing calls of [LoadSnapshot] included (the
    documents loaded keep their transaction records under [_tx:], as those that
    [SaveSnapshot] writes do, and integers are in the range of their types),
    every key outside [_tx:] holds an encoded entry and the TTL heap is a
    min-heap; so, as long as the handle of the database is open, taking a
    snapshot cannot fail, and the document can be loaded again.  After [Close],
    and after a [LoadSnapshot] that failed once it had closed the database, the
    handle is gone until a [LoadSnapshot] reopens it; then too everything in the
    database is an encoded entry. *)
Theorem reachable_store_wf h :
  rtc store_method (Open NewStore) h →
  store_wf (handle_store h) ∧
  match h with
  | Open s => ∃ j, SaveSnapshot s = Some j ∧ snapshot_doc j
  | Closed _ => ∀ env j s, snapshot_doc j → load_handle env j h = Open s → store_wf s
  end.
Proof.
  intros Hr. assert (Hwf : store_wf (handle_store h)).
  { revert Hr. generalize (NewStore_wf : store_wf (handle_store (Open NewStore))).
    generalize (Open (@NewStore DB _)). intros h0 H0. induction 1; eauto using store_method_wf. }
  split; [done|]. destruct h as [s|s].
  - destruct (SaveSnapshot_total s Hwf) as [j Hj]. exists j. split; [done|]. by eapply SaveSnapshot_doc.
  - intros env j s' Hdoc Hl. pose proof (load_handle_wf env j (Closed s) Hdoc Hwf) as Hw. by rewrite Hl in Hw.
Qed.

(** a snapshot round trip keeps every transaction record byte for byte and
    every user entry, and creates no other key; it succeeds when the file
    system and the commits do. *)
Theorem snapshot_roundtrip s s0 j env :
  (∀ d v, is_Some (db_commit d v)) → env_ok env → SaveSnapshot s = Some j →
  ∃ s', LoadSnapshot env s0 j = LoadOK s' ∧
    ∀ k, if has_prefix txKeyPrefix k then db_view (st_db s') !! k = db_view (st_db s) !! k
         else entry_at s' k = entry_at s k.
Proof.
  intros Hc Henv Hs. destruct (LoadSnapshot_total env s s0 j Hc Henv Hs) as [s' Hs'].
  exists s'. split; [done|]. destruct (LoadSnapshot_restored _ _ _ _ _ Hs Hs') as [Hr _].
  intros k. pose proof (restored_entry _ _ Hr k) as Hk. specialize (Hr k).
  destruct (has_prefix txKeyPrefix k); auto.
Qed.

(** C32: the heap walk agrees with the full scan: after [RebuildExpiryHeap],
    [PeekExpiredKeys] and the cold-start scan of [GetExpiredKeys] return the
    same keys, the ones whose stored entry has expired at the cutoff, as long
    as neither hits the limit. *)
Theorem heap_walk_equals_scan s cutoff limit k :
  let walk := (PeekExpiredKeys (RebuildExpiryHeap s) cutoff limit).2 in
  let scan := scan_expired cutoff (norm_limit limit) (db_iter (st_db s) "") [] in
  (length walk < norm_limit limit)%nat → (length scan < norm_limit limit)%nat →
  (k ∈ walk ↔ expired_at s cutoff k) ∧ (k ∈ scan ↔ expired_at s cutoff k).
Proof.
  intros walk scan Hw Hs. split; [by apply rebuild_peek_elem|].
  unfold scan. rewrite scan_expired_elem, <- scan_items_expired by done.
  split; [intros [?|?]; [set_solver|done]|auto].
Qed.

(** [RollbackCASMutation] undoes a double-write: run after a successful
    [PutCASWithTTL] with the version that call produced and the entry the key
    held before, it restores every entry of the store. *)
Theorem rollback_undoes_put s now key value ev exp old cur s1 s2 :
  isS64 exp → store_wf s → has_prefix txKeyPrefix key = false →
  entry_at s key = Some cur → entry_expired now cur = false → ke_Version cur < 2^64 - 1 →
  PutCASWithTTL now s key value ev exp = (s1, (old, PutCASOK), None) →
  RollbackCASMutation s1 key (ke_Version cur + 1) (ke_Value cur) (ke_Version cur) (ke_Expires cur) true
    = (s2, None) →
  ∀ k, entry_at s2 k = entry_at s k.
Proof.
  intros Hx Hwf Hp Hcur Hlive Hv Hput Hrb k.
  assert (kvEntry_wf cur) as [Hc1 Hc2].
  { unfold entry_at in Hcur. destruct (_ !! key); [|done]. by eapply unmarshal_kvEntry_wf. }
  pose proof (PutCASWithTTL_spec _ _ _ _ _ _ _ _ _ _ Hx (store_wf_decodable _ _ Hwf Hp) Hput) as Hs.
  destruct (cas_spec _ _ _ _) as [[post o] st]. destruct Hs as (_ & _ & _ & Hoth).
  pose proof (RollbackCASMutation_spec _ _ _ _ _ _ _ _ _ Hc1 Hc2 Hrb) as (_ & Hkey & Hrest).
  destruct (decide (k = key)) as [->|Hk].
  - rewrite Hkey, Hcur. by destruct cur.
  - rewrite Hrest, Hoth; done.
Qed.

End claims.

(** ** Witnesses: a map database with one entry and one transaction record *)
Definition wit_entry : kvEntry := {| ke_Value := "v"; ke_Version := 3; ke_Expires := 50 |}.
Definition wit_view : gmap string json :=
  <["a" := marshal_kvEntry wit_entry]> (<["_tx:commit:t" := JNum 1]> ∅).
Definition wit_store : Store (gmap string json) :=
  {| st_db := wit_view; st_expiryHeap := [{| ei_key := "a"; ei_expires := 50 |}]; st_tombstones := ∅ |}.

Lemma wit_store_wf : store_wf wit_store.
Proof.
  split; [|apply (heap_Push_ok [] _ heap_ok_nil)].
  apply user_typed_insert; [|by split]. apply (user_typed_tx ∅ "commit:t"). intros k j. done.
Qed.

Lemma put_cas_contract_witness :
  ∃ s', PutCASWithTTL 10 wit_store "a" "w" 3 0 = (s', ("v", PutCASOK), None) ∧
    entry_at s' "a" = Some {| ke_Value := "w"; ke_Version := 4; ke_Expires := 0 |}.
Proof.
  eexists. split; [reflexivity|].
  pose proof (put_cas_contract wit_store 10 "a" "w" 3 0 _ _ _ _ ltac:(done) wit_store_wf
    ltac:(reflexivity) eq_refl) as (_ & _ & Hs & _).
  exact Hs.
Defined.

Definition wit_ops : list WriteBatchOp :=
  [{| wb_Key := "a"; wb_Value := "x"; wb_ExpectedVersion := 3; wb_Expires := 0; wb_IsDelete := false |};
   {| wb_Key := "b"; wb_Value := "y"; wb_ExpectedVersion := 0; wb_Expires := 0; wb_IsDelete := false |}].
Lemma batch_and_record_atomic_witness :
  Forall (batch_pre wit_view) wit_ops ∧
  db_view (st_db (WriteBatchWithCASAndRecord wit_store wit_ops "commit:u" (JNum 1)).1) !! "_tx:commit:u"
    = Some (JNum 1).
Proof.
  pose proof (batch_and_record_atomic wit_store wit_ops "commit:u" (JNum 1) _ None
    ltac:(apply (bool_decide_unpack _); vm_compute; reflexivity)
    ltac:(apply (bool_decide_unpack _); vm_compute; reflexivity) eq_refl) as (H1 & _ & H2 & _).
  split; [exact H1|exact H2].
Defined.

Definition wit_env : restore_env :=
  {| re_removeTmp := true; re_openTmp := true; re_closeTmp := true; re_closeOld := true;
     re_removeBackup := true; re_renameOld := true; re_renameTmp := true; re_openNew := true;
     re_removeNew := true; re_renameBack := true; re_openFallback := true |}.
(** The restored directory cannot be opened and the backup not moved back: the
    store goes on with an empty database. *)
Definition wit_env_empty : restore_env :=
  {| re_removeTmp := true; re_openTmp := true; re_closeTmp := true; re_closeOld := true;
     re_removeBackup := true; re_renameOld := true; re_renameTmp := true; re_openNew := false;
     re_removeNew := true; re_renameBack := false; re_openFallback := true |}.
Definition wit_doc : json := marshal_envelope [("a", wit_entry)] [("_tx:commit:t", JNum 1)].
Lemma wit_doc_saved : SaveSnapshot wit_store = Some wit_doc.
Proof. by vm_compute. Qed.
Lemma reachable_store_wf_witness :
  let h := load_handle wit_env_empty wit_doc (Open (PutCASWithTTL 0 (@NewStore _ badger_map) "k" "v" 0 7).1.1) in
  store_wf (handle_store h) ∧ ∃ s, h = Open s ∧ ∃ j, SaveSnapshot s = Some j ∧ snapshot_doc j.
Proof.
  intros h. assert (rtc store_method (Open NewStore) h) as Hr.
  { eapply rtc_l; [apply sm_step, (step_PutCAS NewStore 0 "k" "v" 0 7); split; done|]. apply rtc_once, sm_load.
    exact (SaveSnapshot_doc _ _ wit_doc_saved). }
  pose proof (reachable_store_wf h Hr) as [Hwf Hh]. split; [exact Hwf|].
  destruct h as [s|s] eqn:E; [by exists s|]. exfalso. vm_compute in E. discriminate E.
Defined.
(** The failed load has lost the entry that was there. *)
Example failed_load_empties :
  match load_handle wit_env_empty wit_doc (Open (PutCASWithTTL 0 (@NewStore _ badger_map) "k" "v" 0 7).1.1) with
  | Open s => entry_at s "k" = None | Closed _ => False
  end.
Proof. by vm_compute. Qed.

Lemma snapshot_roundtrip_witness :
  ∃ s', LoadSnapshot wit_env (@NewStore _ badger_map)
          (marshal_envelope [("a", wit_entry)] [("_tx:commit:t", JNum 1)]) = LoadOK s' ∧
    entry_at s' "a" = Some wit_entry.
Proof.
  destruct (snapshot_roundtrip wit_store (@NewStore _ badger_map)
    (marshal_envelope [("a", wit_entry)] [("_tx:commit:t", JNum 1)]) wit_env) as (s' & Hl & Hs).
  - intros d v. by exists v.
  - reflexivity.
  - vm_compute. reflexivity.
  - exists s'. split; [exact Hl|]. exact (Hs "a").
Defined.

Lemma heap_walk_equals_scan_witness :
  "a" ∈ (PeekExpiredKeys (RebuildExpiryHeap wit_store) 60 0).2 ↔ expired_at wit_store 60 "a".
Proof.
  refine (proj1 (heap_walk_equals_scan wit_store 60 0 "a" _ _)); vm_compute; lia.
Defined.

Lemma rollback_undoes_put_witness :
  ∀ k, entry_at (RollbackCASMutation (PutCASWithTTL 10 wit_store "a" "w" 3 0).1.1
                   "a" 4 "v" 3 50 true).1 k = entry_at wit_store k.
Proof.
  eapply (rollback_undoes_put wit_store 10 "a" "w" 3 0 "v" wit_entry); try reflexivity; try done.
  apply wit_store_wf.
Defined.
