(* ===== verification/ShardState.v ===== *)
(** * pkg/kv/shard_state.go: per-shard state and double-write forwarding

    The manager of the shard states of one node.  A slice copied with
    [append([]string(nil), ...)] is a value here.  The connection pool maps a
    target group to the replica address the client was dialled to; dialling and
    the two RPCs are parameters, as is the order in which Go ranges over a map. *)
From stdpp Require Import prelude gmap strings pretty.
From stdpp Require Import options.
From S2P Require Import Prelude Json KvApi.
Local Open Scope Z_scope.

Record shardMeta := {
  sm_state : ShardState; sm_targetGroup : Z; sm_targetReplicas : list string }.
#[global] Instance shardMeta_eq_dec : EqDecision shardMeta.
Proof. solve_decision. Defined.

Record shardMetaSnapshot := {
  sms_State : Z; sms_TargetGroup : Z; sms_TargetReplicas : list string }.
Record shardStateSnapshot := {
  sss_Epoch : Z; sss_States : gmap Z shardMetaSnapshot }.

Record shardStateManager := {
  ssm_states : gmap Z shardMeta;
  ssm_epoch : Z;
  ssm_groupID : Z;
  ssm_numShards : Z;
  ssm_forwardClients : gmap Z string;
  ssm_forwardConns : gmap Z string }.

Definition newShardStateManager (groupID numShards : Z) : shardStateManager :=
  {| ssm_states := list_to_map ((λ i, (i, {| sm_state := OWNED; sm_targetGroup := 0;
                                             sm_targetReplicas := [] |})) <$> seqZ 0 numShards);
     ssm_epoch := 1; ssm_groupID := groupID; ssm_numShards := numShards;
     ssm_forwardClients := ∅; ssm_forwardConns := ∅ |}.

Definition validateShardID (m : shardStateManager) (shardID : Z) : option string :=
  if decide (shardID < 0 ∨ ssm_numShards m ≤ shardID) then
    Some ("shard " +:+ pretty shardID +:+ " out of range [0," +:+ pretty (ssm_numShards m) +:+ ")")
  else None.

Definition ssm_SetShardState (m : shardStateManager) (shardID : Z) (state : ShardState)
    (targetGroup epoch : Z) (targetReplicas : list string) : shardStateManager * option string :=
  match validateShardID m shardID with
  | Some err => (m, Some err)
  | None =>
      ({| ssm_states := <[shardID := {| sm_state := state; sm_targetGroup := targetGroup;
                                        sm_targetReplicas := targetReplicas |}]> (ssm_states m);
          ssm_epoch := if decide (ssm_epoch m < epoch) then epoch else ssm_epoch m;
          ssm_groupID := ssm_groupID m; ssm_numShards := ssm_numShards m;
          ssm_forwardClients := ssm_forwardClients m;
          ssm_forwardConns := ssm_forwardConns m |}, None)
  end.

Definition GetShardState (m : shardStateManager) (shardID : Z) : option shardMeta :=
  ssm_states m !! shardID.
Definition GetEpoch (m : shardStateManager) : Z := ssm_epoch m.
Definition AllStates (m : shardStateManager) : gmap Z shardMeta := ssm_states m.

Definition ssm_Snapshot (m : shardStateManager) : shardStateSnapshot :=
  {| sss_Epoch := ssm_epoch m;
     sss_States := (λ meta, {| sms_State := wrapS32 (sm_state meta);
                               sms_TargetGroup := sm_targetGroup meta;
                               sms_TargetReplicas := sm_targetReplicas meta |}) <$> ssm_states m |}.

Definition shard_in_range (m : shardStateManager) (shardID : Z) : Prop :=
  0 ≤ shardID ∧ shardID < ssm_numShards m.

(** The text of the last error names the first offending id in map order; it is
    only logged, and left out here. *)
Definition ssm_Restore (m : shardStateManager) (snapshot : shardStateSnapshot)
    : shardStateManager * option string :=
  if decide (Z.of_nat (size (sss_States snapshot)) ≠ ssm_numShards m) then
    (m, Some ("shard snapshot contains " +:+ pretty (size (sss_States snapshot)) +:+
              " states, want " +:+ pretty (ssm_numShards m)))
  else if decide (map_Forall (λ shardID _, 0 ≤ shardID ∧ shardID < ssm_numShards m) (sss_States snapshot)) then
    ({| ssm_states := (λ meta, {| sm_state := sms_State meta; sm_targetGroup := sms_TargetGroup meta;
                                  sm_targetReplicas := sms_TargetReplicas meta |}) <$> sss_States snapshot;
        ssm_epoch := sss_Epoch snapshot;
        ssm_groupID := ssm_groupID m; ssm_numShards := ssm_numShards m;
        ssm_forwardClients := ssm_forwardClients m; ssm_forwardConns := ssm_forwardConns m |}, None)
  else (m, Some "shard snapshot id out of range").

(** ** The JSON form of a snapshot *)
Definition marshal_shardMetaSnapshot (s : shardMetaSnapshot) : json :=
  JObj ([("state", JNum (sms_State s)); ("target_group", JNum (sms_TargetGroup s))] ++
        omit_if (bool_decide (sms_TargetReplicas s = [])) "target_replicas"
          (JArr (JStr <$> sms_TargetReplicas s))).
Definition unmarshal_shardMetaSnapshot (j : json) : option shardMetaSnapshot :=
  m ← as_struct j;
  st ← as_int32 (jfield "state" m);
  tg ← as_int64 (jfield "target_group" m);
  tr ← as_slice as_string_elem (jfield "target_replicas" m);
  Some {| sms_State := st; sms_TargetGroup := tg; sms_TargetReplicas := tr |}.

Definition marshal_shardStateSnapshot (s : shardStateSnapshot) : json :=
  JObj [("epoch", JNum (sss_Epoch s));
        ("states", JObj (prod_map pretty marshal_shardMetaSnapshot <$> map_to_list (sss_States s)))].
(** A later duplicate name overrides an earlier one, as it does in Go's map. *)
Definition unmarshal_shardStateSnapshot (j : json) : option shardStateSnapshot :=
  m ← as_struct j;
  ep ← as_int64 (jfield "epoch" m);
  st ← as_int_map unmarshal_shardMetaSnapshot (jfield "states" m);
  Some {| sss_Epoch := ep; sss_States := list_to_map (reverse (default [] st)) |}.

(** ** Forwarding *)
Section forward.
(** [grpc.DialContext] with a blocking dial: whether the address answers. *)
Variable dial : string → bool.
(** The Put and Delete RPCs of a client dialled to an address: [None] is a
    transport error, otherwise the [Error] field of the response. *)
Variable rpc_Put : string → string → string → Z → option string.
Variable rpc_Delete : string → string → option string.
(** The order in which the loop ranges over [ssm.states]. *)
Variable range_states : gmap Z shardMeta → list (Z * shardMeta).

Definition ensureForwardClient (m : shardStateManager) (targetGroup : Z) (replicas : list string)
    : shardStateManager * option string :=
  match ssm_forwardClients m !! targetGroup with
  | Some c => (m, Some c)
  | None =>
      match filter (λ a, dial a = true) replicas with
      | [] => (m, None)
      | addr :: _ =>
          ({| ssm_states := ssm_states m; ssm_epoch := ssm_epoch m;
              ssm_groupID := ssm_groupID m; ssm_numShards := ssm_numShards m;
              ssm_forwardClients := <[targetGroup := addr]> (ssm_forwardClients m);
              ssm_forwardConns := <[targetGroup := addr]> (ssm_forwardConns m) |}, Some addr)
      end
  end.

(** The replica addresses of the first migrating shard of a target group. *)
Definition forward_replicas (m : shardStateManager) (targetGroup : Z) : list string :=
  match filter (λ x, sm_targetGroup x.2 = targetGroup ∧ sm_state x.2 = MIGRATING)
          (range_states (ssm_states m)) with
  | [] => []
  | (_, meta) :: _ => sm_targetReplicas meta
  end.

(** The client lookup shared by [ForwardWrite] and [ForwardDelete]. *)
Definition forward_client (m : shardStateManager) (targetGroup : Z)
    : shardStateManager * option string :=
  match ssm_forwardClients m !! targetGroup with
  | Some c => (m, Some c)
  | None =>
      let replicas := forward_replicas m targetGroup in
      if decide (replicas = []) then (m, None)
      else ensureForwardClient m targetGroup replicas
  end.

Definition forward_ok (resp : option string) : bool :=
  match resp with
  | None => false
  | Some e => bool_decide (e = "" ∨ e = "OK" ∨ e = "ErrNoKey")
  end.

Definition ForwardWrite (m : shardStateManager) (targetGroup : Z) (key value : string)
    (version : Z) : shardStateManager * bool :=
  match forward_client m targetGroup with
  | (m, None) => (m, false)
  | (m, Some c) => (m, forward_ok (rpc_Put c key value version))
  end.

Definition ForwardDelete (m : shardStateManager) (targetGroup : Z) (key : string)
    : shardStateManager * bool :=
  match forward_client m targetGroup with
  | (m, None) => (m, false)
  | (m, Some c) => (m, forward_ok (rpc_Delete c key))
  end.
End forward.

Definition ssm_Close (m : shardStateManager) : shardStateManager :=
  {| ssm_states := ssm_states m; ssm_epoch := ssm_epoch m;
     ssm_groupID := ssm_groupID m; ssm_numShards := ssm_numShards m;
     ssm_forwardClients := ∅; ssm_forwardConns := ∅ |}.

(** ** The invariant *)

(** The state table is total on the shard range and nothing else, every state
    fits the protocol's [int32], and the client and connection pools agree. *)
Record ssm_wf (m : shardStateManager) : Prop := {
  wf_nonneg : 0 ≤ ssm_numShards m < 2^63;
  wf_dom : ∀ i, is_Some (ssm_states m !! i) ↔ 0 ≤ i ∧ i < ssm_numShards m;
  wf_states : map_Forall (λ _ x, isS32 (sm_state x) ∧ isS64 (sm_targetGroup x)) (ssm_states m);
  wf_epoch : isS64 (ssm_epoch m);
  wf_pool : ssm_forwardClients m = ssm_forwardConns m }.

Lemma newShardStateManager_wf g n : 0 ≤ n < 2^63 → ssm_wf (newShardStateManager g n).
Proof.
  intros Hn. set (d := {| sm_state := OWNED; sm_targetGroup := 0; sm_targetReplicas := [] |}).
  assert (Hl : ∀ i x, ssm_states (newShardStateManager g n) !! i = Some x ↔ (0 ≤ i < n ∧ x = d)).
  { intros i x. unfold newShardStateManager. cbn [ssm_states].
    rewrite <- elem_of_list_to_map.
    - rewrite list_elem_of_fmap. setoid_rewrite elem_of_seqZ.
      split; [intros (? & [= -> ->] & ?); split; [lia|done]|intros [? ->]; exists i; split; [done|lia]].
    - rewrite <- list_fmap_compose. cbn. rewrite list_fmap_id. apply NoDup_seqZ. }
  split; cbn [ssm_numShards ssm_epoch ssm_forwardClients ssm_forwardConns newShardStateManager].
  - done.
  - intros i. unfold is_Some. setoid_rewrite Hl. split; [intros [? ?]; lia|intros; eexists; split; [lia|done]].
  - intros i x Hx. apply Hl in Hx as [_ ->]. done.
  - done.
  - done.
Qed.

Lemma SetShardState_wf m i st tg ep tr :
  ssm_wf m → isS32 st → isS64 tg → isS64 ep → ssm_wf (ssm_SetShardState m i st tg ep tr).1.
Proof.
  intros [Hn Hd Hs He Hp] Hst Htg Hep. unfold ssm_SetShardState, validateShardID.
  case_decide; [done|]. cbn. split; cbn; [done| | |by case_decide|done].
  - intros j. rewrite lookup_insert_is_Some, Hd.
    destruct (decide (i = j)); [subst; split; [lia|auto]|naive_solver].
  - apply map_Forall_insert_2; done.
Qed.

Lemma ssm_Restore_wf m sn :
  ssm_wf m → isS64 (sss_Epoch sn) →
  map_Forall (λ _ x, isS32 (sms_State x) ∧ isS64 (sms_TargetGroup x)) (sss_States sn) →
  ssm_wf (ssm_Restore m sn).1.
Proof.
  intros [Hn Hd Hs He Hp] Hep Hst. unfold ssm_Restore.
  case_decide as Hsz; [done|]. case_decide as Hr; [|done].
  split; cbn; [done| | |done|done].
  - intros j. rewrite lookup_fmap, fmap_is_Some. split; [intros [x Hx]; by apply (Hr j x)|].
    intros Hj. apply elem_of_dom.
    assert (dom (sss_States sn) = list_to_set (seqZ 0 (ssm_numShards m))) as ->.
    { apply set_subseteq_size_eq.
      - intros i [x Hx]%elem_of_dom. apply elem_of_list_to_set, elem_of_seqZ.
        destruct (Hr i x Hx). lia.
      - rewrite size_dom, size_list_to_set, length_seqZ by apply NoDup_seqZ. lia. }
    apply elem_of_list_to_set, elem_of_seqZ. lia.
  - intros j x. rewrite lookup_fmap. intros (y & Hy & ->)%fmap_Some. by apply (Hst j).
Qed.

Lemma ensureForwardClient_states dial m tg reps :
  ssm_states (ensureForwardClient dial m tg reps).1 = ssm_states m ∧
  ssm_epoch (ensureForwardClient dial m tg reps).1 = ssm_epoch m ∧
  ssm_numShards (ensureForwardClient dial m tg reps).1 = ssm_numShards m.
Proof. unfold ensureForwardClient. by repeat case_match. Qed.

Lemma ensureForwardClient_wf dial m tg reps : ssm_wf m → ssm_wf (ensureForwardClient dial m tg reps).1.
Proof.
  intros [Hn Hd Hs He Hp]. unfold ensureForwardClient. repeat case_match; [done|done|].
  split; cbn; [done..|]. by rewrite Hp.
Qed.

Lemma forward_client_wf dial range m tg : ssm_wf m → ssm_wf (forward_client dial range m tg).1.
Proof. unfold forward_client. intros. repeat case_match; auto using ensureForwardClient_wf. Qed.

Lemma forward_client_states dial range m tg :
  ssm_states (forward_client dial range m tg).1 = ssm_states m ∧
  ssm_epoch (forward_client dial range m tg).1 = ssm_epoch m ∧
  ssm_numShards (forward_client dial range m tg).1 = ssm_numShards m.
Proof. unfold forward_client. repeat case_match; auto using ensureForwardClient_states. Qed.

Lemma ForwardWrite_client dial put range m tg k v n :
  (ForwardWrite dial put range m tg k v n).1 = (forward_client dial range m tg).1.
Proof. unfold ForwardWrite. by destruct (forward_client _ _ _ _) as [? []]. Qed.
Lemma ForwardDelete_client dial del range m tg k :
  (ForwardDelete dial del range m tg k).1 = (forward_client dial range m tg).1.
Proof. unfold ForwardDelete. by destruct (forward_client _ _ _ _) as [? []]. Qed.

(** One call of a mutating method of the manager. *)
Inductive ssm_step (m : shardStateManager) : shardStateManager → Prop :=
  | ssm_step_set i st tg ep tr :
      isS32 st → isS64 tg → isS64 ep → ssm_step m (ssm_SetShardState m i st tg ep tr).1
  | ssm_step_ensure dial tg reps : ssm_step m (ensureForwardClient dial m tg reps).1
  | ssm_step_write dial put range tg k v n : ssm_step m (ForwardWrite dial put range m tg k v n).1
  | ssm_step_delete dial del range tg k : ssm_step m (ForwardDelete dial del range m tg k).1
  | ssm_step_close : ssm_step m (ssm_Close m).

Lemma ssm_step_wf m m' : ssm_wf m → ssm_step m m' → ssm_wf m'.
Proof.
  intros Hm []; rewrite ?ForwardWrite_client, ?ForwardDelete_client;
    auto using SetShardState_wf, ensureForwardClient_wf, forward_client_wf.
  destruct Hm. by split.
Qed.

Lemma ssm_step_mono m m' :
  ssm_step m m' → ssm_epoch m ≤ ssm_epoch m' ∧ ssm_numShards m' = ssm_numShards m.
Proof.
  intros []; rewrite ?ForwardWrite_client, ?ForwardDelete_client.
  - unfold ssm_SetShardState. case_match; [cbn; split; [lia|done]|]. cbn. case_decide; split; try done; lia.
  - destruct (ensureForwardClient_states dial m tg reps) as (_ & He & Hn). rewrite He, Hn. split; [lia|done].
  - destruct (forward_client_states dial range m tg) as (_ & He & Hn). rewrite He, Hn. split; [lia|done].
  - destruct (forward_client_states dial range m tg) as (_ & -> & ->). split; [lia|done].
  - split; [cbn; lia|done].
Qed.

(** ** The snapshot round trip *)
Lemma unmarshal_marshal_meta s :
  isS32 (sms_State s) → isS64 (sms_TargetGroup s) →
  unmarshal_shardMetaSnapshot (marshal_shardMetaSnapshot s) = Some s.
Proof.
  intros Hst Htg. destruct s as [st tg tr]; cbn [sms_State sms_TargetGroup] in *.
  assert (isS64 st) by (unfold isS32, isS64 in *; lia).
  transitivity (st ← as_int32 (Some (JNum st)); tg ← as_int64 (Some (JNum tg));
    tr ← as_slice as_string_elem (if bool_decide (tr = []) then None else Some (JArr (JStr <$> tr)));
    Some {| sms_State := st; sms_TargetGroup := tg; sms_TargetReplicas := tr |}).
  { unfold marshal_shardMetaSnapshot, omit_if. cbn [sms_TargetReplicas]. by case_bool_decide. }
  unfold as_int32. rewrite !as_int64_num by done. cbn [mbind option_bind].
  rewrite decide_True by done.
  case_bool_decide as Htr; [by subst|]. rewrite as_slice_arr; [done|]. by apply Forall_forall.
Qed.

Lemma unmarshal_marshal_shards s :
  isS64 (sss_Epoch s) →
  map_Forall (λ i x, isS64 i ∧ isS32 (sms_State x) ∧ isS64 (sms_TargetGroup x)) (sss_States s) →
  unmarshal_shardStateSnapshot (marshal_shardStateSnapshot s) = Some s.
Proof.
  intros He Hs. destruct s as [ep sts]; cbn [sss_Epoch sss_States] in *.
  transitivity (ep ← as_int64 (Some (JNum ep));
    st ← as_int_map unmarshal_shardMetaSnapshot
           (Some (JObj (prod_map pretty marshal_shardMetaSnapshot <$> map_to_list sts)));
    Some {| sss_Epoch := ep; sss_States := list_to_map (reverse (default [] st)) |}); [done|].
  rewrite as_int64_num by done. cbn [mbind option_bind]. rewrite as_int_map_obj.
  - cbn [mbind option_bind default]. do 2 f_equal.
    rewrite <- (list_to_map_to_list sts) at 2. apply list_to_map_proper.
    + rewrite fmap_reverse, reverse_Permutation. apply NoDup_fst_map_to_list.
    + apply reverse_Permutation.
  - apply Forall_forall. intros [i x] Hx%elem_of_map_to_list.
    destruct (Hs _ _ Hx) as (? & ? & ?). split; [done|]. by apply unmarshal_marshal_meta.
Qed.

Lemma ssm_Restore_Snapshot m m0 :
  ssm_wf m → ssm_numShards m0 = ssm_numShards m →
  ∃ m', ssm_Restore m0 (ssm_Snapshot m) = (m', None) ∧
    ssm_states m' = ssm_states m ∧ ssm_epoch m' = ssm_epoch m.
Proof.
  intros [Hn Hd Hs He Hp] Hns. unfold ssm_Restore, ssm_Snapshot. cbn [sss_States sss_Epoch].
  assert (Hdom : dom (ssm_states m) = list_to_set (seqZ 0 (ssm_numShards m))).
  { apply set_eq. intros i. rewrite elem_of_dom, Hd, elem_of_list_to_set, elem_of_seqZ. lia. }
  rewrite decide_False.
  2:{ rewrite map_size_fmap, <- size_dom, Hdom, size_list_to_set, length_seqZ by apply NoDup_seqZ. lia. }
  rewrite decide_True.
  2:{ intros i x. rewrite lookup_fmap, Hns. intros (y & Hy & _)%fmap_Some. by apply Hd. }
  eexists. split; [done|]. cbn. split; [|done].
  rewrite <- map_fmap_compose. rewrite <- (map_fmap_id (ssm_states m)) at 2.
  apply map_fmap_ext. intros i x Hx. destruct x as [st tg tr]. unfold compose; cbn.
  rewrite wrapS32_id; [done|]. by apply (Hs i _ Hx).
Qed.

(** ** Claims *)

(** from the start of a node, through any sequence of state changes,
    forwards and pool closings, the table stays total on exactly the shards
    [0 .. numShards-1], every state and target fits its wire type, the client
    pool matches the connection pool, and the topology epoch never decreases. *)
Theorem shard_table_invariant g n m m' :
  0 ≤ n < 2^63 → rtc ssm_step (newShardStateManager g n) m → rtc ssm_step m m' →
  ssm_wf m' ∧ ssm_numShards m' = n ∧ ssm_epoch m ≤ ssm_epoch m'.
Proof.
  intros Hn Hr Hr'.
  assert (Hm : ssm_wf m ∧ ssm_numShards m = n).
  { assert (Hinv : ∀ x y, rtc ssm_step x y → ssm_wf x ∧ ssm_numShards x = n → ssm_wf y ∧ ssm_numShards y = n).
    { induction 1 as [|x y z Hxy _ IH]; [done|]. intros [Hx Hxn]. apply IH. split.
      - by eapply ssm_step_wf.
      - by rewrite (proj2 (ssm_step_mono _ _ Hxy)). }
    eapply Hinv; [exact Hr|]. split; [by apply newShardStateManager_wf|done]. }
  clear Hr. destruct Hm as [Hm Hns]. induction Hr' as [|x y z Hxy _ IH]; [by split_and!|].
  destruct (ssm_step_mono _ _ Hxy) as [He Hk].
  destruct IH as (? & ? & ?); [by eapply ssm_step_wf|congruence|]. split_and!; [done..|lia].
Qed.

Lemma shard_table_invariant_witness :
  ssm_wf (ssm_SetShardState (newShardStateManager 1 4) 2 MIGRATING 7 5 ["n1"]).1.
Proof.
  refine (proj1 (shard_table_invariant 1 4 (newShardStateManager 1 4) _ ltac:(done) (rtc_refl _ _) _)).
  apply rtc_once. by apply ssm_step_set.
Defined.

(** the shard table survives a snapshot: encoding the snapshot of a
    manager as JSON, decoding it and restoring it into any manager with the
    same number of shards gives back every state, target and the epoch. *)
Theorem shard_snapshot_roundtrip m m0 :
  ssm_wf m → ssm_numShards m0 = ssm_numShards m →
  ∃ sn m', unmarshal_shardStateSnapshot (marshal_shardStateSnapshot (ssm_Snapshot m)) = Some sn ∧
    ssm_Restore m0 sn = (m', None) ∧ ssm_states m' = ssm_states m ∧ ssm_epoch m' = ssm_epoch m.
Proof.
  intros Hm Hns. destruct (ssm_Restore_Snapshot m m0 Hm Hns) as (m' & H1 & H2).
  exists (ssm_Snapshot m), m'. split; [|done]. destruct Hm as [Hn Hd Hs He Hp].
  apply unmarshal_marshal_shards; [done|]. intros i x. cbn. rewrite lookup_fmap.
  intros (y & Hy & ->)%fmap_Some. cbn. destruct (Hs _ _ Hy) as [Hst Htg].
  rewrite wrapS32_id by done. split_and!; try done.
  assert (0 ≤ i ∧ i < ssm_numShards m) by (apply Hd; eauto). unfold isS64. lia.
Qed.

Lemma shard_snapshot_roundtrip_witness :
  let m := (ssm_SetShardState (newShardStateManager 1 4) 2 MIGRATING 7 5 ["n1"]).1 in
  ∃ sn m', unmarshal_shardStateSnapshot (marshal_shardStateSnapshot (ssm_Snapshot m)) = Some sn ∧
    ssm_Restore (newShardStateManager 2 4) sn = (m', None) ∧ ssm_states m' = ssm_states m ∧ ssm_epoch m' = 5.
Proof.
  refine (shard_snapshot_roundtrip _ (newShardStateManager 2 4) _ _); [|reflexivity].
  apply SetShardState_wf; [by apply newShardStateManager_wf|done..].
Defined.
