(* ===== verification/Tx.v ===== *)
(** * pkg/kv/tx.go: the two-phase-commit participant

    [TxManager] with its mutex: [tm_locked] is whether [tm.mu] is write-locked,
    and an operation that would wait for a lock nobody will release is [None].
    The store is the one of the server.  The remote coordinator query is a
    parameter ([router]: [None] is Go's nil), the clock an argument, and the
    order in which Go ranges over a map of scanned records is the argument
    [order]. *)
From stdpp Require Import prelude gmap strings.
From stdpp Require Import options.
From S2P Require Import Prelude Json KvApi ExpiryHeap Store StoreProps.
Local Open Scope Z_scope.

Definition txDefaultTimeoutMs : Z := 10000.
Definition txPreparePrefix : string := "prepare:".
Definition txCommitPrefix : string := "commit:".
Definition txAbortPrefix : string := "abort:".
Definition txDecisionPrefix : string := "decision:".

(** ** Records and their JSON form *)
Record preparedTxRecord := {
  pr_TxID : string; pr_ReadKeys : list ReadKey; pr_WriteKeys : list WriteKey;
  pr_PreparedAt : Z; pr_TimeoutMs : Z; pr_CoordinatorGroupID : Z;
  pr_ParticipantGroupIDs : list Z }.
Record txDecisionRecord := {
  dr_Decision : TxStatus; dr_ParticipantGroupIDs : list Z; dr_WriteKeys : list WriteKey }.

Definition marshal_ReadKey (r : ReadKey) : json :=
  JObj [("Key", JStr (ReadKey_Key r)); ("Value", JStr (ReadKey_Value r));
        ("ExpectedVersion", JNum (ReadKey_ExpectedVersion r))].
Definition unmarshal_ReadKey (j : json) : option ReadKey :=
  m ← as_struct j;
  k ← as_string (jfield "Key" m);
  v ← as_string (jfield "Value" m);
  n ← as_int64 (jfield "ExpectedVersion" m);
  Some {| ReadKey_Key := k; ReadKey_Value := v; ReadKey_ExpectedVersion := n |}.

Definition marshal_WriteKey (w : WriteKey) : json :=
  JObj [("Key", JStr (WriteKey_Key w)); ("Value", JStr (WriteKey_Value w));
        ("Version", JNum (WriteKey_Version w)); ("IsDelete", JBool (WriteKey_IsDelete w))].
Definition unmarshal_WriteKey (j : json) : option WriteKey :=
  m ← as_struct j;
  k ← as_string (jfield "Key" m);
  v ← as_string (jfield "Value" m);
  n ← as_int64 (jfield "Version" m);
  d ← as_bool (jfield "IsDelete" m);
  Some {| WriteKey_Key := k; WriteKey_Value := v; WriteKey_Version := n; WriteKey_IsDelete := d |}.

Definition marshal_prepared (r : preparedTxRecord) : json :=
  JObj [("tx_id", JStr (pr_TxID r));
        ("read_keys", JArr (marshal_ReadKey <$> pr_ReadKeys r));
        ("write_keys", JArr (marshal_WriteKey <$> pr_WriteKeys r));
        ("prepared_at", JNum (pr_PreparedAt r));
        ("timeout_ms", JNum (pr_TimeoutMs r));
        ("coordinator_group_id", JNum (pr_CoordinatorGroupID r));
        ("participant_group_ids", JArr (JNum <$> pr_ParticipantGroupIDs r))].
Definition unmarshal_prepared (j : json) : option preparedTxRecord :=
  m ← as_struct j;
  t ← as_string (jfield "tx_id" m);
  rk ← as_slice unmarshal_ReadKey (jfield "read_keys" m);
  wk ← as_slice unmarshal_WriteKey (jfield "write_keys" m);
  p ← as_int64 (jfield "prepared_at" m);
  o ← as_int64 (jfield "timeout_ms" m);
  c ← as_int64 (jfield "coordinator_group_id" m);
  g ← as_slice as_int64_elem (jfield "participant_group_ids" m);
  Some {| pr_TxID := t; pr_ReadKeys := rk; pr_WriteKeys := wk; pr_PreparedAt := p;
          pr_TimeoutMs := o; pr_CoordinatorGroupID := c; pr_ParticipantGroupIDs := g |}.

Definition marshal_decision (d : txDecisionRecord) : json :=
  JObj ([("decision", JNum (dr_Decision d));
         ("participant_group_ids", JArr (JNum <$> dr_ParticipantGroupIDs d))] ++
        omit_if (bool_decide (dr_WriteKeys d = [])) "write_keys"
          (JArr (marshal_WriteKey <$> dr_WriteKeys d))).
Definition unmarshal_decision (j : json) : option txDecisionRecord :=
  m ← as_struct j;
  d ← as_int64 (jfield "decision" m);
  g ← as_slice as_int64_elem (jfield "participant_group_ids" m);
  w ← as_slice unmarshal_WriteKey (jfield "write_keys" m);
  Some {| dr_Decision := d; dr_ParticipantGroupIDs := g; dr_WriteKeys := w |}.

Definition readkey_wf (r : ReadKey) : Prop := isS64 (ReadKey_ExpectedVersion r).
Definition writekey_wf (w : WriteKey) : Prop := isS64 (WriteKey_Version w).
Definition prepared_wf (r : preparedTxRecord) : Prop :=
  Forall readkey_wf (pr_ReadKeys r) ∧ Forall writekey_wf (pr_WriteKeys r) ∧
  isS64 (pr_PreparedAt r) ∧ isS64 (pr_TimeoutMs r) ∧ isS64 (pr_CoordinatorGroupID r) ∧
  Forall isS64 (pr_ParticipantGroupIDs r).
Definition decision_wf (d : txDecisionRecord) : Prop :=
  isS64 (dr_Decision d) ∧ Forall isS64 (dr_ParticipantGroupIDs d) ∧ Forall writekey_wf (dr_WriteKeys d).

Definition commitData : json := JNum 1.
Definition abortData : json := JNum 1.

(** The [WriteBatchOp]s built by [Commit] and [executeCommit]. *)
Definition write_ops (wks : list WriteKey) : list WriteBatchOp :=
  (λ wk, {| wb_Key := WriteKey_Key wk; wb_Value := WriteKey_Value wk;
            wb_ExpectedVersion := wrapU64 (WriteKey_Version wk); wb_Expires := 0;
            wb_IsDelete := WriteKey_IsDelete wk |}) <$> wks.

Definition tx_isExpired (expires now : Z) : bool := bool_decide (0 < expires ∧ expires ≤ now).

(** [for _, wk := range wks { delete(lockTable, wk.Key) }] *)
Definition delete_locks (wks : list WriteKey) (locks : gmap string string) : gmap string string :=
  foldl (λ m wk, delete (WriteKey_Key wk) m) locks wks.
(** [for _, wk := range wks { lockTable[wk.Key] = txID }] *)
Definition take_locks (txID : string) (wks : list WriteKey) (locks : gmap string string)
    : gmap string string :=
  foldl (λ m wk, <[WriteKey_Key wk := txID]> m) locks wks.

Section tx.
Context {DB : Type} `{Badger DB}.

Record TxManager := {
  tm_locked : bool;
  tm_lockTable : gmap string string;
  tm_preparedTxs : gmap string preparedTxRecord;
  tm_store : Store DB }.

Definition NewTxManager (s : Store DB) : TxManager :=
  {| tm_locked := false; tm_lockTable := ∅; tm_preparedTxs := ∅; tm_store := s |}.

Definition tm_with_store (tm : TxManager) (s : Store DB) : TxManager :=
  {| tm_locked := tm_locked tm; tm_lockTable := tm_lockTable tm;
     tm_preparedTxs := tm_preparedTxs tm; tm_store := s |}.
Definition tm_with_tables (tm : TxManager) (l : gmap string string)
    (p : gmap string preparedTxRecord) : TxManager :=
  {| tm_locked := tm_locked tm; tm_lockTable := l; tm_preparedTxs := p; tm_store := tm_store tm |}.
Definition tm_with_locked (tm : TxManager) (b : bool) : TxManager :=
  {| tm_locked := b; tm_lockTable := tm_lockTable tm;
     tm_preparedTxs := tm_preparedTxs tm; tm_store := tm_store tm |}.
Definition tm_Lock (tm : TxManager) : option TxManager :=
  if tm_locked tm then None else Some (tm_with_locked tm true).
Definition tm_Unlock (tm : TxManager) : option TxManager :=
  if tm_locked tm then Some (tm_with_locked tm false) else None.

Section group.
(** [tm.kv.groupID] and, for one call, what the router answers: the decision
    text of the coordinator group, or [None] for an error. *)
Variable groupID : Z.
Variable router : option (Z → string → option string).

Definition queryCoordinatorDecision (s : Store DB) (rec : preparedTxRecord) : TxStatus :=
  if decide (pr_CoordinatorGroupID rec = groupID) then
    match GetTxRecord s (txDecisionPrefix +:+ pr_TxID rec) with
    | Some decision =>
        match unmarshal_decision decision with
        | Some d => dr_Decision d
        | None => TxStatusUnknown
        end
    | None => TxStatusUnknown
    end
  else
    match router with
    | None => TxStatusUnknown
    | Some q =>
        match q (pr_CoordinatorGroupID rec) (pr_TxID rec) with
        | None => TxStatusUnknown
        | Some d =>
            if decide (d = "COMMITTED") then TxStatusCommitted
            else if decide (d = "ABORTED") then TxStatusAborted
            else TxStatusUnknown
        end
    end.

(** The common tail of [executeCommit] and [executeAbort]. *)
Definition execute_cleanup (tm : TxManager) (rec : preparedTxRecord) : option TxManager :=
  tm ← tm_Lock tm;
  let tm := tm_with_tables tm (delete_locks (pr_WriteKeys rec) (tm_lockTable tm))
              (delete (pr_TxID rec) (tm_preparedTxs tm)) in
  let tm := tm_with_store tm (DeleteTxRecord (tm_store tm) (txPreparePrefix +:+ pr_TxID rec)).1 in
  tm_Unlock tm.

Definition executeCommit (tm : TxManager) (rec : preparedTxRecord) : option TxManager :=
  match WriteBatchWithCASAndRecord (tm_store tm) (write_ops (pr_WriteKeys rec))
          (txCommitPrefix +:+ pr_TxID rec) commitData with
  | (s, Some _) => Some (tm_with_store tm s)
  | (s, None) => execute_cleanup (tm_with_store tm s) rec
  end.

Definition executeAbort (tm : TxManager) (rec : preparedTxRecord) : option TxManager :=
  match PutTxRecord (tm_store tm) (txAbortPrefix +:+ pr_TxID rec) abortData with
  | (s, Some _) => Some (tm_with_store tm s)
  | (s, None) => execute_cleanup (tm_with_store tm s) rec
  end.

Definition releaseLocksForTxLocked (tm : TxManager) (txID : string) : TxManager :=
  tm_with_tables tm (filter (λ x, x.2 ≠ txID) (tm_lockTable tm)) (tm_preparedTxs tm).

(** The prepare record of a transaction, from the cache or from disk; a record
    read from disk enters the cache. *)
Definition lookup_prepared (tm : TxManager) (txID : string)
    : TxManager * option preparedTxRecord :=
  match tm_preparedTxs tm !! txID with
  | Some rec => (tm, Some rec)
  | None =>
      match GetTxRecord (tm_store tm) (txPreparePrefix +:+ txID) ≫= unmarshal_prepared with
      | Some rec => (tm_with_tables tm (tm_lockTable tm) (<[txID := rec]> (tm_preparedTxs tm)), Some rec)
      | None => (tm, None)
      end
  end.

Definition resolveLockLocked (tm : TxManager) (txID : string) : option (TxManager * bool) :=
  match GetTxRecord (tm_store tm) (txCommitPrefix +:+ txID) with
  | Some _ => Some (releaseLocksForTxLocked tm txID, true)
  | None =>
  match GetTxRecord (tm_store tm) (txAbortPrefix +:+ txID) with
  | Some _ => Some (releaseLocksForTxLocked tm txID, true)
  | None =>
  match lookup_prepared tm txID with
  | (tm, None) => Some (releaseLocksForTxLocked tm txID, true)
  | (tm, Some rec) =>
      tm ← tm_Unlock tm;
      let decision := queryCoordinatorDecision (tm_store tm) rec in
      tm ← tm_Lock tm;
      if decide (decision = TxStatusCommitted) then
        tm ← tm_Unlock tm; tm ← executeCommit tm rec; tm ← tm_Lock tm; Some (tm, true)
      else if decide (decision = TxStatusAborted) then
        tm ← tm_Unlock tm; tm ← executeAbort tm rec; tm ← tm_Lock tm; Some (tm, true)
      else Some (tm, false)
  end end end.

(** ** Recovery of the lock table *)

(** The body of the loop of [RebuildLockTable] on one scanned record. *)
Definition rebuild_record (tm : TxManager) (raw : json) : option TxManager :=
  match unmarshal_prepared raw with
  | None => Some tm
  | Some rec =>
      match GetTxRecord (tm_store tm) (txCommitPrefix +:+ pr_TxID rec),
            GetTxRecord (tm_store tm) (txAbortPrefix +:+ pr_TxID rec) with
      | Some _, _ | None, Some _ =>
          Some (tm_with_store tm (DeleteTxRecord (tm_store tm) (txPreparePrefix +:+ pr_TxID rec)).1)
      | None, None =>
          let decision := queryCoordinatorDecision (tm_store tm) rec in
          if decide (decision = TxStatusCommitted) then
            tm ← tm_Unlock tm; tm ← executeCommit tm rec; tm_Lock tm
          else if decide (decision = TxStatusAborted) then
            tm ← tm_Unlock tm; tm ← executeAbort tm rec; tm_Lock tm
          else
            Some (tm_with_tables tm (take_locks (pr_TxID rec) (pr_WriteKeys rec) (tm_lockTable tm))
                    (<[pr_TxID rec := rec]> (tm_preparedTxs tm)))
      end
  end.

Fixpoint rebuild_loop (tm : TxManager) (records : list (string * json)) : option TxManager :=
  match records with
  | [] => Some tm
  | (_, raw) :: records => tm ← rebuild_record tm raw; rebuild_loop tm records
  end.

Definition RebuildLockTable (order : list (string * json) → list (string * json)) (tm : TxManager)
    : option TxManager :=
  tm ← tm_Lock tm;
  let tm := tm_with_tables tm ∅ ∅ in
  tm ← rebuild_loop tm (order (ScanTxRecordsByPrefix (tm_store tm) txPreparePrefix));
  tm_Unlock tm.

(** ** Phase 1 *)

Fixpoint prepare_locks (tm : TxManager) (txID : string) (wks : list WriteKey)
    : option (TxManager * option Err) :=
  match wks with
  | [] => Some (tm, None)
  | wk :: wks =>
      match tm_lockTable tm !! WriteKey_Key wk with
      | Some lockHolder =>
          if decide (lockHolder = txID) then prepare_locks tm txID wks
          else
            '(tm, resolved) ← resolveLockLocked tm lockHolder;
            if resolved : bool then
              match tm_lockTable tm !! WriteKey_Key wk with
              | Some holder =>
                  if decide (holder = txID) then prepare_locks tm txID wks
                  else Some (tm, Some ErrTxConflict)
              | None => prepare_locks tm txID wks
              end
            else Some (tm, Some ErrTxConflict)
      | None => prepare_locks tm txID wks
      end
  end.

Definition check_read (now : Z) (s : Store DB) (rk : ReadKey) : option Err :=
  match Get s (ReadKey_Key rk) with
  | inl _ => Some ErrWrongLeader
  | inr (Some e) =>
      if tx_isExpired (ke_Expires e) now then
        if decide (ReadKey_ExpectedVersion rk = 0) then None else Some ErrTxConflict
      else if decide (ReadKey_ExpectedVersion rk = wrapS64 (ke_Version e)) then None
      else Some ErrTxConflict
  | inr None => if decide (ReadKey_ExpectedVersion rk = 0) then None else Some ErrTxConflict
  end.

Fixpoint prepare_reads (now : Z) (s : Store DB) (rks : list ReadKey) : option Err :=
  match rks with
  | [] => None
  | rk :: rks =>
      match check_read now s rk with
      | Some e => Some e
      | None => prepare_reads now s rks
      end
  end.

Definition prepare_record (now : Z) (args : PrepareTxArgs) : preparedTxRecord :=
  {| pr_TxID := PrepareTxArgs_TxID args; pr_ReadKeys := PrepareTxArgs_ReadKeys args;
     pr_WriteKeys := PrepareTxArgs_WriteKeys args; pr_PreparedAt := now;
     pr_TimeoutMs := if decide (PrepareTxArgs_TimeoutMs args ≤ 0) then txDefaultTimeoutMs
                     else PrepareTxArgs_TimeoutMs args;
     pr_CoordinatorGroupID := PrepareTxArgs_CoordinatorGroupID args;
     pr_ParticipantGroupIDs := PrepareTxArgs_ParticipantGroupIDs args |}.

Definition Prepare (now : Z) (tm : TxManager) (args : PrepareTxArgs)
    : option (TxManager * PrepareTxReply) :=
  tm ← tm_Lock tm;
  let txID := PrepareTxArgs_TxID args in
  let wks := PrepareTxArgs_WriteKeys args in
  let return_ tm e := tm ← tm_Unlock tm; Some (tm, {| PrepareTxReply_Err := e |}) in
  '(tm, conflict) ← prepare_locks tm txID wks;
  match conflict with
  | Some e => return_ tm e
  | None =>
      match prepare_reads now (tm_store tm) (PrepareTxArgs_ReadKeys args) with
      | Some e => return_ tm e
      | None =>
          let tm := tm_with_tables tm (take_locks txID wks (tm_lockTable tm)) (tm_preparedTxs tm) in
          let rec := prepare_record now args in
          match PutTxRecord (tm_store tm) (txPreparePrefix +:+ txID) (marshal_prepared rec) with
          | (s, Some _) =>
              return_ (tm_with_tables (tm_with_store tm s)
                         (delete_locks wks (tm_lockTable tm)) (tm_preparedTxs tm)) ErrWrongLeader
          | (s, None) =>
              return_ (tm_with_tables (tm_with_store tm s) (tm_lockTable tm)
                         (<[txID := rec]> (tm_preparedTxs tm))) OK
          end
      end
  end.

(** ** The coordinator's decision *)
Definition RecordDecision (tm : TxManager) (args : RecordTxDecisionArgs)
    : TxManager * RecordTxDecisionReply :=
  let d := RecordTxDecisionArgs_Decision args in
  let key := txDecisionPrefix +:+ RecordTxDecisionArgs_TxID args in
  if decide (d ≠ TxStatusCommitted ∧ d ≠ TxStatusAborted) then
    (tm, {| RecordTxDecisionReply_Err := ErrTxConflict |})
  else
    match GetTxRecord (tm_store tm) key with
    | Some raw =>
        match unmarshal_decision raw with
        | Some existing =>
            if decide (dr_Decision existing = d) then (tm, {| RecordTxDecisionReply_Err := OK |})
            else (tm, {| RecordTxDecisionReply_Err := ErrTxConflict |})
        | None => (tm, {| RecordTxDecisionReply_Err := ErrTxConflict |})
        end
    | None =>
        match PutTxRecord (tm_store tm) key (marshal_decision
                {| dr_Decision := d;
                   dr_ParticipantGroupIDs := RecordTxDecisionArgs_ParticipantGroupIDs args;
                   dr_WriteKeys := RecordTxDecisionArgs_WriteKeys args |}) with
        | (s, Some _) => (tm_with_store tm s, {| RecordTxDecisionReply_Err := ErrWrongLeader |})
        | (s, None) => (tm_with_store tm s, {| RecordTxDecisionReply_Err := OK |})
        end
    end.

(** ** Phase 2 *)

(** The coordinator's own participant must have a COMMITTED decision record;
    the guard returns true when [Commit] leaves early (with [tm.mu] held). *)
Definition commit_refused (s : Store DB) (txID : string) : bool :=
  match GetTxRecord s (txPreparePrefix +:+ txID) ≫= unmarshal_prepared with
  | Some pending =>
      if decide (pr_ParticipantGroupIDs pending ≠ [] ∧ groupID = pr_CoordinatorGroupID pending) then
        match GetTxRecord s (txDecisionPrefix +:+ txID) with
        | None => true
        | Some decision =>
            match unmarshal_decision decision with
            | None => true
            | Some d => bool_decide (dr_Decision d ≠ TxStatusCommitted)
            end
        end
      else false
  | None => false
  end.

(** The write set comes from the cached prepare record, else from the disk, in
    which case the cache and the locks are rebuilt. *)
Definition commit_load (tm : TxManager) (txID : string)
    : option (TxManager * option preparedTxRecord) :=
  match tm_preparedTxs tm !! txID with
  | Some rec => Some (tm, Some rec)
  | None =>
      match GetTxRecord (tm_store tm) (txPreparePrefix +:+ txID) ≫= unmarshal_prepared with
      | None => Some (tm, None)
      | Some diskRec =>
          tm ← tm_Lock tm;
          tm ← tm_Unlock (tm_with_tables tm
                 (take_locks (pr_TxID diskRec) (pr_WriteKeys diskRec) (tm_lockTable tm))
                 (<[txID := diskRec]> (tm_preparedTxs tm)));
          Some (tm, Some diskRec)
      end
  end.

(** The atomic batch and the cleanup that follows it. *)
Definition commit_apply (tm : TxManager) (txID : string) (rec : preparedTxRecord)
    : option (TxManager * CommitTxReply) :=
  match WriteBatchWithCASAndRecord (tm_store tm) (write_ops (pr_WriteKeys rec))
          (txCommitPrefix +:+ txID) commitData with
  | (s, Some _) => Some (tm_with_store tm s, {| CommitTxReply_Err := ErrTxConflict |})
  | (s, None) =>
      tm ← tm_Lock (tm_with_store tm s);
      tm ← tm_Unlock (tm_with_tables tm (delete_locks (pr_WriteKeys rec) (tm_lockTable tm))
                        (delete txID (tm_preparedTxs tm)));
      Some (tm_with_store tm (DeleteTxRecord (tm_store tm) (txPreparePrefix +:+ txID)).1,
            {| CommitTxReply_Err := OK |})
  end.

Definition Commit (tm : TxManager) (args : CommitTxArgs) : option (TxManager * CommitTxReply) :=
  let txID := CommitTxArgs_TxID args in
  tm ← tm_Lock tm;
  match GetTxRecord (tm_store tm) (txCommitPrefix +:+ txID) with
  | Some _ => tm ← tm_Unlock tm; Some (tm, {| CommitTxReply_Err := OK |})
  | None =>
  match GetTxRecord (tm_store tm) (txAbortPrefix +:+ txID) with
  | Some _ => tm ← tm_Unlock tm; Some (tm, {| CommitTxReply_Err := ErrTxConflict |})
  | None =>
  if commit_refused (tm_store tm) txID then
    Some (tm, {| CommitTxReply_Err := ErrTxConflict |})
  else
    tm ← tm_Unlock tm;
    '(tm, rec) ← commit_load tm txID;
    match rec with
    | None => Some (tm, {| CommitTxReply_Err := ErrTxNotFound |})
    | Some rec => commit_apply tm txID rec
    end
  end end.

(** [Abort] frees only the locks the transaction itself holds. *)
Definition delete_own_locks (txID : string) (wks : list WriteKey) (locks : gmap string string)
    : gmap string string :=
  foldl (λ m wk, if decide (m !! WriteKey_Key wk = Some txID) then delete (WriteKey_Key wk) m else m)
    locks wks.

Definition Abort (tm : TxManager) (args : AbortTxArgs) : option (TxManager * AbortTxReply) :=
  let txID := AbortTxArgs_TxID args in
  tm ← tm_Lock tm;
  match GetTxRecord (tm_store tm) (txCommitPrefix +:+ txID) with
  | Some _ => tm ← tm_Unlock tm; Some (tm, {| AbortTxReply_Err := ErrTxConflict |})
  | None =>
  match GetTxRecord (tm_store tm) (txAbortPrefix +:+ txID) with
  | Some _ => tm ← tm_Unlock tm; Some (tm, {| AbortTxReply_Err := OK |})
  | None =>
      tm ← tm_Unlock tm;
      match PutTxRecord (tm_store tm) (txAbortPrefix +:+ txID) abortData with
      | (s, Some _) => Some (tm_with_store tm s, {| AbortTxReply_Err := ErrWrongLeader |})
      | (s, None) =>
          tm ← tm_Lock (tm_with_store tm s);
          let tm :=
            match tm_preparedTxs tm !! txID with
            | Some rec =>
                tm_with_tables tm (delete_own_locks txID (pr_WriteKeys rec) (tm_lockTable tm))
                  (delete txID (tm_preparedTxs tm))
            | None => tm
            end in
          tm ← tm_Unlock tm;
          Some (tm_with_store tm (DeleteTxRecord (tm_store tm) (txPreparePrefix +:+ txID)).1,
                {| AbortTxReply_Err := OK |})
      end
  end end.

(** ** Status *)
Definition status_reply (st : TxStatus) (e : Err) (groups : list Z) : ResolveTxStatusReply :=
  {| ResolveTxStatusReply_Status := st; ResolveTxStatusReply_PreparedAt := 0;
     ResolveTxStatusReply_WriteKeys := []; ResolveTxStatusReply_Err := e;
     ResolveTxStatusReply_CoordinatorGroupID := 0;
     ResolveTxStatusReply_ParticipantGroupIDs := groups |}.

(** A record without participants is aborted once its deadline has passed; the
    two writes that record it ignore their errors. *)
Definition prepare_timed_out (now : Z) (rec : preparedTxRecord) : bool :=
  bool_decide (pr_ParticipantGroupIDs rec = [] ∧ 0 < pr_TimeoutMs rec ∧
    wrapS64 (pr_PreparedAt rec + wrapS64 (pr_TimeoutMs rec * 1000000)) < now).

Definition ResolveTxStatus (now : Z) (tm : TxManager) (args : ResolveTxStatusArgs)
    : option (TxManager * ResolveTxStatusReply) :=
  let txID := ResolveTxStatusArgs_TxID args in
  let s := tm_store tm in
  match GetTxRecord s (txDecisionPrefix +:+ txID) ≫= unmarshal_decision with
  | Some d => Some (tm, status_reply (dr_Decision d) OK (dr_ParticipantGroupIDs d))
  | None =>
  match GetTxRecord s (txCommitPrefix +:+ txID) with
  | Some _ => Some (tm, status_reply TxStatusCommitted OK [])
  | None =>
  match GetTxRecord s (txAbortPrefix +:+ txID) with
  | Some _ => Some (tm, status_reply TxStatusAborted OK [])
  | None =>
  match GetTxRecord s (txPreparePrefix +:+ txID) with
  | None => Some (tm, status_reply TxStatusNotFound ErrTxNotFound [])
  | Some raw =>
      match unmarshal_prepared raw with
      | None => Some (tm, status_reply TxStatusNotFound ErrTxNotFound [])
      | Some rec =>
          if prepare_timed_out now rec then
            tm ← tm_Lock tm;
            let tm := releaseLocksForTxLocked tm txID in
            let tm := tm_with_tables tm (tm_lockTable tm) (delete txID (tm_preparedTxs tm)) in
            tm ← tm_Unlock tm;
            let s := (PutTxRecord (tm_store tm) (txAbortPrefix +:+ txID) abortData).1 in
            let s := (DeleteTxRecord s (txPreparePrefix +:+ txID)).1 in
            Some (tm_with_store tm s, status_reply TxStatusAborted OK [])
          else
            Some (tm, {| ResolveTxStatusReply_Status := TxStatusPrepared;
                         ResolveTxStatusReply_PreparedAt := pr_PreparedAt rec;
                         ResolveTxStatusReply_WriteKeys := pr_WriteKeys rec;
                         ResolveTxStatusReply_Err := OK;
                         ResolveTxStatusReply_CoordinatorGroupID := pr_CoordinatorGroupID rec;
                         ResolveTxStatusReply_ParticipantGroupIDs := pr_ParticipantGroupIDs rec |})
      end
  end end end end.

(** ** Recovery of the coordinator's phase 2 *)

Definition local_done (s : Store DB) (txID : string) (gid : Z) : bool :=
  bool_decide (gid = groupID ∧ is_Some (GetTxRecord s (txCommitPrefix +:+ txID))).

(** [router.Resolve] on the write keys, grouped. *)
Definition group_write_keys (resolve : string → Z) (wks : list WriteKey) : gmap Z (list WriteKey) :=
  foldl (λ m wk, let gid := resolve (WriteKey_Key wk) in
                 <[gid := default [] (m !! gid) ++ [wk]]> m) ∅ wks.

(** The retries one decision record starts: at most one. *)
Definition recover_decision (resolve : string → Z) (s : Store DB) (key : string) (raw : json)
    : list (string * list Z * gmap Z (list WriteKey)) :=
  let txID := TrimPrefix (txKeyPrefix +:+ txDecisionPrefix) key in
  match unmarshal_decision raw with
  | None => []
  | Some rec =>
      if decide (dr_Decision rec ≠ TxStatusCommitted) then []
      else if forallb (local_done s txID) (dr_ParticipantGroupIDs rec) then []
      else
        match (if decide (dr_WriteKeys rec ≠ []) then Some (dr_WriteKeys rec)
               else pr_WriteKeys <$>
                 (GetTxRecord s (txPreparePrefix +:+ txID) ≫= unmarshal_prepared)) with
        | None => []
        | Some writeKeys => [(txID, dr_ParticipantGroupIDs rec, group_write_keys resolve writeKeys)]
        end
  end.

Definition RecoverCoordinatorTransactions (resolve : string → Z)
    (order : list (string * json) → list (string * json)) (tm : TxManager)
    : list (string * list Z * gmap Z (list WriteKey)) :=
  flat_map (λ x, recover_decision resolve (tm_store tm) x.1 x.2)
    (order (ScanTxRecordsByPrefix (tm_store tm) txDecisionPrefix)).

End group.
End tx.
Arguments TxManager : clear implicits.
