(* ===== verification/TxProps.v ===== *)
(** * Properties of the two-phase-commit participant

    The record invariant (a transaction never has both outcomes, the cache
    agrees with the disk), that every operation returns and keeps it, the
    functional behaviour of the two phases, and recovery. *)
From stdpp Require Import prelude gmap strings.
From stdpp Require Import options.
From S2P Require Import Prelude Json KvApi ExpiryHeap Store StoreProps Tx.
Local Open Scope Z_scope.

(** ** JSON round trips *)
Lemma unmarshal_marshal_ReadKey r : readkey_wf r → unmarshal_ReadKey (marshal_ReadKey r) = Some r.
Proof.
  intros Hr. destruct r as [k v n]. unfold readkey_wf in Hr; cbn in Hr.
  transitivity (n ← as_int64 (Some (JNum n));
    Some {| ReadKey_Key := k; ReadKey_Value := v; ReadKey_ExpectedVersion := n |}); [done|].
  by rewrite as_int64_num.
Qed.

Lemma unmarshal_marshal_WriteKey w : writekey_wf w → unmarshal_WriteKey (marshal_WriteKey w) = Some w.
Proof.
  intros Hw. destruct w as [k v n d]. unfold writekey_wf in Hw; cbn in Hw.
  transitivity (n ← as_int64 (Some (JNum n));
    Some {| WriteKey_Key := k; WriteKey_Value := v; WriteKey_Version := n; WriteKey_IsDelete := d |}); [done|].
  by rewrite as_int64_num.
Qed.

Lemma as_slice_reads l :
  Forall readkey_wf l → as_slice unmarshal_ReadKey (Some (JArr (marshal_ReadKey <$> l))) = Some l.
Proof. intros Hl. apply as_slice_arr. eapply Forall_impl; [exact Hl|]. apply unmarshal_marshal_ReadKey. Qed.
Lemma as_slice_writes l :
  Forall writekey_wf l → as_slice unmarshal_WriteKey (Some (JArr (marshal_WriteKey <$> l))) = Some l.
Proof. intros Hl. apply as_slice_arr. eapply Forall_impl; [exact Hl|]. apply unmarshal_marshal_WriteKey. Qed.
Lemma as_slice_ints l :
  Forall isS64 l → as_slice as_int64_elem (Some (JArr (JNum <$> l))) = Some l.
Proof. intros Hl. apply as_slice_arr. eapply Forall_impl; [exact Hl|]. apply as_int64_num. Qed.

Lemma unmarshal_marshal_prepared r : prepared_wf r → unmarshal_prepared (marshal_prepared r) = Some r.
Proof.
  intros (Hr & Hw & Hp & Ho & Hc & Hg). destruct r as [t rk wk p o c g]; cbn in *.
  transitivity (
    rk ← as_slice unmarshal_ReadKey (Some (JArr (marshal_ReadKey <$> rk)));
    wk ← as_slice unmarshal_WriteKey (Some (JArr (marshal_WriteKey <$> wk)));
    p ← as_int64 (Some (JNum p)); o ← as_int64 (Some (JNum o)); c ← as_int64 (Some (JNum c));
    g ← as_slice as_int64_elem (Some (JArr (JNum <$> g)));
    Some {| pr_TxID := t; pr_ReadKeys := rk; pr_WriteKeys := wk; pr_PreparedAt := p;
          pr_TimeoutMs := o; pr_CoordinatorGroupID := c; pr_ParticipantGroupIDs := g |}); [done|].
  by rewrite as_slice_reads, as_slice_writes, !as_int64_num, as_slice_ints.
Qed.

Lemma unmarshal_marshal_decision d : decision_wf d → unmarshal_decision (marshal_decision d) = Some d.
Proof.
  intros (Hd & Hg & Hw). destruct d as [d g w]; cbn in *.
  transitivity (d ← as_int64 (Some (JNum d)); g ← as_slice as_int64_elem (Some (JArr (JNum <$> g)));
    w ← as_slice unmarshal_WriteKey (if bool_decide (w = []) then None
                                     else Some (JArr (marshal_WriteKey <$> w)));
    Some {| dr_Decision := d; dr_ParticipantGroupIDs := g; dr_WriteKeys := w |}).
  { unfold marshal_decision, omit_if. cbn [dr_WriteKeys]. by case_bool_decide. }
  rewrite as_int64_num, as_slice_ints by done. cbn [mbind option_bind].
  case_bool_decide; [by subst|]. by rewrite as_slice_writes.
Qed.

(** ** Records and user data *)

(** The keys of a write set are user keys. *)
Definition user_keys (wks : list WriteKey) : Prop :=
  Forall (λ wk, has_prefix txKeyPrefix (WriteKey_Key wk) = false) wks.

Lemma tx_key_inj p t t' : txKeyPrefix +:+ (p +:+ t) = txKeyPrefix +:+ (p +:+ t') → t = t'.
Proof. intros E%string_app_inj. by eapply string_app_inj. Qed.

(** Two record keys with different prefixes differ. *)
Ltac key_ne := by (intros ?; discriminate).
(** Unfold the names given to intermediate states. *)
Ltac inline_lets := repeat match goal with x := _ |- _ => subst x end; cbn.

Lemma lookup_take_locks t wks l k :
  take_locks t wks l !! k = if decide (k ∈ WriteKey_Key <$> wks) then Some t else l !! k.
Proof.
  unfold take_locks. revert l. induction wks as [|wk wks IH]; intros l; cbn; [done|].
  rewrite IH. destruct (decide (k ∈ WriteKey_Key <$> wks)).
  - rewrite decide_True by set_solver. done.
  - destruct (decide (k = WriteKey_Key wk)) as [->|].
    + rewrite lookup_insert_eq, decide_True by set_solver. done.
    + rewrite lookup_insert_ne, decide_False by set_solver. done.
Qed.
Lemma lookup_delete_locks wks l k :
  delete_locks wks l !! k = if decide (k ∈ WriteKey_Key <$> wks) then None else l !! k.
Proof.
  unfold delete_locks. revert l. induction wks as [|wk wks IH]; intros l; cbn; [done|].
  rewrite IH. destruct (decide (k ∈ WriteKey_Key <$> wks)).
  - rewrite decide_True by set_solver. done.
  - destruct (decide (k = WriteKey_Key wk)) as [->|].
    + rewrite lookup_delete_eq, decide_True by set_solver. done.
    + rewrite lookup_delete_ne, decide_False by set_solver. done.
Qed.

Section props.
Context {DB : Type} `{Badger DB}.
Implicit Types (s : Store DB) (tm : TxManager DB).

Notation R s k := (GetTxRecord s k).
Abbreviation commit_rec s t := (GetTxRecord s (txCommitPrefix +:+ t)).
Abbreviation abort_rec s t := (GetTxRecord s (txAbortPrefix +:+ t)).
Abbreviation prepare_rec s t := (GetTxRecord s (txPreparePrefix +:+ t)).
Abbreviation decision_rec s t := (GetTxRecord s (txDecisionPrefix +:+ t)).

Lemma write_ops_keys wks : wb_Key <$> write_ops wks = WriteKey_Key <$> wks.
Proof. unfold write_ops. rewrite <- list_fmap_compose. done. Qed.

Lemma writeBatch_frame t ops t' e k :
  writeBatchWithCASInTxn t ops = (t', e) → k ∉ wb_Key <$> ops → t_view t' !! k = t_view t !! k.
Proof.
  revert t. induction ops as [|op ops IH]; intros t Hw Hk; cbn in *; simplify_eq; [done|].
  apply not_elem_of_cons in Hk as [Hk1 Hk2].
  assert (Hs : t_view (writeBatchOp_step t op).1 !! k = t_view t !! k).
  { unfold writeBatchOp_step. repeat case_match; cbn; rewrite ?lookup_insert_ne, ?lookup_delete_ne; done. }
  destruct (writeBatchOp_step t op) as [t1 [err|]]; simplify_eq/=; [done|]. by rewrite (IH t1).
Qed.

(** The effect of a committed batch with a record on every key outside it. *)
Lemma batch_record_frame s ops rk rd s' k :
  WriteBatchWithCASAndRecord s ops rk rd = (s', None) →
  db_view (st_db s') !! (txKeyPrefix +:+ rk) = Some rd ∧
  (k ∉ wb_Key <$> ops → k ≠ txKeyPrefix +:+ rk → db_view (st_db s') !! k = db_view (st_db s) !! k).
Proof.
  unfold WriteBatchWithCASAndRecord, db_update. intros Hw.
  destruct (writeBatchWithCASInTxn _ ops) as [t e] eqn:Ht.
  destruct e; [done|]. cbn in Hw. destruct (db_commit _ _) as [d|] eqn:Hc; [|done]. simplify_eq/=.
  rewrite (db_commit_view _ _ _ Hc). split; [by rewrite lookup_insert_eq|].
  intros Hk Hne. rewrite lookup_insert_ne by done. by eapply writeBatch_frame in Ht.
Qed.

Lemma user_key_ne wks k : user_keys wks → txKeyPrefix +:+ k ∉ wb_Key <$> write_ops wks.
Proof.
  rewrite write_ops_keys. intros Hu (wk & Heq & Hin)%list_elem_of_fmap.
  unfold user_keys in Hu. rewrite Forall_forall in Hu. specialize (Hu _ Hin).
  rewrite <- Heq, has_prefix_app in Hu. done.
Qed.

Lemma batch_record_R s wks rk rd s' k :
  user_keys wks → WriteBatchWithCASAndRecord s (write_ops wks) rk rd = (s', None) →
  R s' k = if decide (k = rk) then Some rd else R s k.
Proof.
  intros Hu Hw. unfold GetTxRecord. case_decide as Hk.
  - subst. by eapply (batch_record_frame _ _ _ _ _ ""%string) in Hw as [-> _].
  - eapply batch_record_frame in Hw as [_ ->]; [done|by apply user_key_ne|].
    by intros ?%string_app_inj.
Qed.

Lemma PutTxRecord_R s k j s' k' :
  PutTxRecord s k j = (s', None) → R s' k' = if decide (k' = k) then Some j else R s k'.
Proof.
  intros (Hv & _)%PutTxRecord_spec. unfold GetTxRecord. rewrite Hv. case_decide; [subst|].
  - by rewrite lookup_insert_eq.
  - rewrite lookup_insert_ne; [done|]. by intros ?%string_app_inj.
Qed.

Lemma DeleteTxRecord_R s k k' : k' ≠ k → R (DeleteTxRecord s k).1 k' = R s k'.
Proof.
  intros Hk. destruct (DeleteTxRecord s k) as [s' e] eqn:Hd. apply DeleteTxRecord_spec in Hd.
  destruct e; [by subst|]. destruct Hd as (Hv & _). unfold GetTxRecord. cbn. rewrite Hv.
  rewrite lookup_delete_ne; [done|]. by intros ?%string_app_inj.
Qed.
Lemma DeleteTxRecord_R_same s k : R (DeleteTxRecord s k).1 k = None ∨ R (DeleteTxRecord s k).1 k = R s k.
Proof.
  destruct (DeleteTxRecord s k) as [s' e] eqn:Hd. apply DeleteTxRecord_spec in Hd.
  destruct e; [subst; auto|]. destruct Hd as (Hv & _). unfold GetTxRecord. cbn. rewrite Hv.
  rewrite lookup_delete_eq. auto.
Qed.

(** ** The invariant *)
Record tx_inv (tm : TxManager DB) : Prop := {
  inv_excl t : commit_rec (tm_store tm) t = None ∨ abort_rec (tm_store tm) t = None;
  inv_prep t j : prepare_rec (tm_store tm) t = Some j →
    ∃ rec, unmarshal_prepared j = Some rec ∧ pr_TxID rec = t ∧ user_keys (pr_WriteKeys rec);
  inv_mem t rec : tm_preparedTxs tm !! t = Some rec →
    prepare_rec (tm_store tm) t ≫= unmarshal_prepared = Some rec }.

(** Outcomes and decisions are only ever added. *)
Definition tx_mono (s s' : Store DB) : Prop :=
  ∀ t, (commit_rec s t ≠ None → commit_rec s' t = commit_rec s t) ∧
       (abort_rec s t ≠ None → abort_rec s' t = abort_rec s t) ∧
       (decision_rec s t ≠ None → decision_rec s' t = decision_rec s t).

#[global] Instance tx_mono_preorder : PreOrder tx_mono.
Proof.
  split.
  - by intros s t.
  - intros s1 s2 s3 H12 H23 t. destruct (H12 t) as (A1 & A2 & A3), (H23 t) as (B1 & B2 & B3).
    split_and!; intros Hx.
    + rewrite B1; [auto|]. by rewrite A1.
    + rewrite B2; [auto|]. by rewrite A2.
    + rewrite B3; [auto|]. by rewrite A3.
Qed.

Definition tx_ok (tm tm' : TxManager DB) : Prop := tx_inv tm' ∧ tx_mono (tm_store tm) (tm_store tm').

Lemma tx_ok_trans tm1 tm2 tm3 : tx_ok tm1 tm2 → tx_ok tm2 tm3 → tx_ok tm1 tm3.
Proof. intros [_ Ha] [? Hb]. split; [done|]. by etrans. Qed.

Lemma tx_inv_ext tm tm' :
  tx_inv tm → tm_store tm' = tm_store tm →
  (∀ t rec, tm_preparedTxs tm' !! t = Some rec → tm_preparedTxs tm !! t = Some rec ∨
     prepare_rec (tm_store tm) t ≫= unmarshal_prepared = Some rec) → tx_inv tm'.
Proof.
  intros [He Hp Hm] Hs Hc. split; rewrite ?Hs; [done|done|].
  intros t rec Hr. destruct (Hc _ _ Hr); auto.
Qed.

(** Writing one outcome record. *)
Lemma tx_inv_commit tm s' t :
  tx_inv tm → abort_rec (tm_store tm) t = None →
  (∀ k, R s' k = if decide (k = txCommitPrefix +:+ t) then Some commitData else R (tm_store tm) k) →
  commit_rec (tm_store tm) t = None →
  tx_ok tm (tm_with_store tm s').
Proof.
  intros [He Hp Hm] Ha Hs Hnc. split; [split|]; cbn.
  - intros t'. rewrite !Hs. rewrite (decide_False (P := txAbortPrefix +:+ t' = _)) by key_ne.
    case_decide as E; [|auto]. apply string_app_inj in E as ->. auto.
  - intros t' j. rewrite Hs, decide_False by key_ne. apply Hp.
  - intros t' rec. rewrite Hs, decide_False by key_ne. apply Hm.
  - intros t'. rewrite !Hs. rewrite (decide_False (P := txAbortPrefix +:+ t' = _)) by key_ne.
    rewrite (decide_False (P := txDecisionPrefix +:+ t' = _)) by key_ne.
    split_and!; [|done..]. intros Hc. rewrite decide_False; [done|].
    intros E%string_app_inj. by subst.
Qed.

Lemma tx_inv_abort tm s' t :
  tx_inv tm → commit_rec (tm_store tm) t = None →
  (∀ k, R s' k = if decide (k = txAbortPrefix +:+ t) then Some abortData else R (tm_store tm) k) →
  abort_rec (tm_store tm) t = None →
  tx_ok tm (tm_with_store tm s').
Proof.
  intros [He Hp Hm] Ha Hs Hnc. split; [split|]; cbn.
  - intros t'. rewrite !Hs. rewrite (decide_False (P := txCommitPrefix +:+ t' = _)) by key_ne.
    case_decide as E; [|auto]. apply string_app_inj in E as ->. auto.
  - intros t' j. rewrite Hs, decide_False by key_ne. apply Hp.
  - intros t' rec. rewrite Hs, decide_False by key_ne. apply Hm.
  - intros t'. rewrite !Hs. rewrite (decide_False (P := txCommitPrefix +:+ t' = _)) by key_ne.
    rewrite (decide_False (P := txDecisionPrefix +:+ t' = _)) by key_ne.
    split_and!; [done| |done]. intros Hc. rewrite decide_False; [done|].
    intros E%string_app_inj. by subst.
Qed.

(** Removing a prepare record, once the cache has dropped it. *)
Lemma tx_inv_cleanup tm t :
  tx_inv tm → tm_preparedTxs tm !! t = None →
  tx_ok tm (tm_with_store tm (DeleteTxRecord (tm_store tm) (txPreparePrefix +:+ t)).1).
Proof.
  intros [He Hp Hm] Ht. split; [split|]; cbn.
  - intros t'. rewrite !DeleteTxRecord_R by key_ne. auto.
  - intros t' j Hj. destruct (decide (t' = t)) as [->|Hne].
    + destruct (DeleteTxRecord_R_same (tm_store tm) (txPreparePrefix +:+ t)) as [E|E]; [congruence|].
      apply Hp. congruence.
    + rewrite DeleteTxRecord_R in Hj by (by intros ?%string_app_inj). by apply Hp.
  - intros t' rec Hr. destruct (decide (t' = t)) as [->|Hne]; [congruence|].
    rewrite DeleteTxRecord_R by (by intros ?%string_app_inj). by apply Hm.
  - intros t'. by rewrite !DeleteTxRecord_R by key_ne.
Qed.

Lemma tx_ok_refl tm : tx_inv tm → tx_ok tm tm.
Proof. by split. Qed.

(** Changes of the tables that leave the store alone. *)
Lemma tx_ok_tables tm tm' :
  tx_inv tm → tm_store tm' = tm_store tm →
  (∀ t rec, tm_preparedTxs tm' !! t = Some rec → tm_preparedTxs tm !! t = Some rec ∨
     prepare_rec (tm_store tm) t ≫= unmarshal_prepared = Some rec) →
  tx_ok tm tm'.
Proof. intros Hi Hs Hp. split; [|by rewrite Hs]. by eapply tx_inv_ext. Qed.

(** ** Every operation returns and keeps the invariant *)

Lemma execute_cleanup_ok tm rec :
  tm_locked tm = false → tx_inv tm →
  ∃ tm', execute_cleanup tm rec = Some tm' ∧ tm_locked tm' = false ∧ tx_ok tm tm' ∧
    tm_lockTable tm' = delete_locks (pr_WriteKeys rec) (tm_lockTable tm).
Proof.
  intros Hl Hi. unfold execute_cleanup, tm_Lock. rewrite Hl. cbn.
  eexists. split; [reflexivity|]. split; [done|]. split; [|done].
  set (tm1 := {| tm_locked := false; tm_lockTable := delete_locks (pr_WriteKeys rec) (tm_lockTable tm);
                 tm_preparedTxs := delete (pr_TxID rec) (tm_preparedTxs tm); tm_store := tm_store tm |}).
  assert (Ho : tx_ok tm tm1).
  { apply tx_ok_tables; [done|done|]. intros t r. inline_lets. intros [_ ?]%lookup_delete_Some. auto. }
  eapply tx_ok_trans; [exact Ho|]. eapply (tx_inv_cleanup tm1); [apply Ho|]. apply lookup_delete_eq.
Qed.

Lemma executeCommit_ok tm rec :
  tm_locked tm = false → tx_inv tm → user_keys (pr_WriteKeys rec) →
  commit_rec (tm_store tm) (pr_TxID rec) = None → abort_rec (tm_store tm) (pr_TxID rec) = None →
  ∃ tm', executeCommit tm rec = Some tm' ∧ tm_locked tm' = false ∧ tx_ok tm tm'.
Proof.
  intros Hl Hi Hu Hc Ha. unfold executeCommit.
  destruct (WriteBatchWithCASAndRecord _ _ _ _) as [s [err|]] eqn:Hw.
  { apply WriteBatchWithCASAndRecord_err in Hw as ->. exists tm. destruct tm. by split_and!. }
  assert (Ho : tx_ok tm (tm_with_store tm s)).
  { eapply tx_inv_commit; eauto. intros k. by eapply batch_record_R. }
  destruct (execute_cleanup_ok (tm_with_store tm s) rec Hl (proj1 Ho)) as (tm' & E & ? & ? & _).
  exists tm'. split_and!; [done..|]. by eapply tx_ok_trans.
Qed.

Lemma executeAbort_ok tm rec :
  tm_locked tm = false → tx_inv tm →
  commit_rec (tm_store tm) (pr_TxID rec) = None → abort_rec (tm_store tm) (pr_TxID rec) = None →
  ∃ tm', executeAbort tm rec = Some tm' ∧ tm_locked tm' = false ∧ tx_ok tm tm'.
Proof.
  intros Hl Hi Hc Ha. unfold executeAbort.
  destruct (PutTxRecord _ _ _) as [s [err|]] eqn:Hw.
  { apply PutTxRecord_spec in Hw as ->. exists tm. destruct tm. by split_and!. }
  assert (Ho : tx_ok tm (tm_with_store tm s)).
  { eapply tx_inv_abort; eauto. intros k. by eapply PutTxRecord_R. }
  destruct (execute_cleanup_ok (tm_with_store tm s) rec Hl (proj1 Ho)) as (tm' & E & ? & ? & _).
  exists tm'. split_and!; [done..|]. by eapply tx_ok_trans.
Qed.

(** Whatever record [lookup_prepared] or a scan yields is the durable one. *)
Lemma inv_disk_rec tm t rec :
  tx_inv tm → prepare_rec (tm_store tm) t ≫= unmarshal_prepared = Some rec →
  pr_TxID rec = t ∧ user_keys (pr_WriteKeys rec).
Proof.
  intros Hi Hr. destruct (prepare_rec (tm_store tm) t) as [j|] eqn:Hj; [|done]. cbn in Hr.
  destruct (inv_prep _ Hi _ _ Hj) as (r & ? & ? & ?). by simplify_eq.
Qed.

Lemma lookup_prepared_ok tm t :
  tx_inv tm →
  let '(tm', r) := lookup_prepared tm t in
  tx_ok tm tm' ∧ tm_locked tm' = tm_locked tm ∧ tm_store tm' = tm_store tm ∧
  tm_lockTable tm' = tm_lockTable tm ∧
  r = prepare_rec (tm_store tm) t ≫= unmarshal_prepared.
Proof.
  intros Hi. unfold lookup_prepared. destruct (tm_preparedTxs tm !! t) as [rec|] eqn:Hm.
  { split_and!; try done. symmetry. by apply inv_mem. }
  destruct (prepare_rec (tm_store tm) t ≫= unmarshal_prepared) as [rec|] eqn:Hd;
    split_and!; try done.
  apply tx_ok_tables; [done|done|]. intros t' r. inline_lets. intros [[<- <-]|[_ ?]]%lookup_insert_Some; auto.
Qed.

Lemma releaseLocks_ok tm t : tx_inv tm → tx_ok tm (releaseLocksForTxLocked tm t).
Proof. intros Hi. apply tx_ok_tables; auto. Qed.

Lemma tx_ok_same tm tm' :
  tx_inv tm → tm_store tm' = tm_store tm → tm_preparedTxs tm' = tm_preparedTxs tm → tx_ok tm tm'.
Proof.
  intros Hi Hs Hp. split; [|by rewrite Hs]. eapply tx_inv_ext; [done..|]. intros t r. rewrite Hp. auto.
Qed.
Lemma tx_ok_lock tm b : tx_inv tm → tx_ok tm (tm_with_locked tm b).
Proof. intros. apply tx_ok_tables; auto. Qed.
Lemma tm_Lock_free tm : tm_locked tm = false → tm_Lock tm = Some (tm_with_locked tm true).
Proof. unfold tm_Lock. by intros ->. Qed.
Lemma tm_Unlock_held tm : tm_locked tm = true → tm_Unlock tm = Some (tm_with_locked tm false).
Proof. unfold tm_Unlock. by intros ->. Qed.

Section group.
Variable groupID : Z.
Variable router : option (Z → string → option string).

Lemma resolveLockLocked_ok tm t :
  tm_locked tm = true → tx_inv tm →
  ∃ tm' b, resolveLockLocked groupID router tm t = Some (tm', b) ∧ tm_locked tm' = true ∧ tx_ok tm tm'.
Proof.
  intros Hl Hi. unfold resolveLockLocked.
  destruct (commit_rec _ t) eqn:Hc; [do 2 eexists; split_and!; [done..|by apply releaseLocks_ok]|].
  destruct (abort_rec _ t) eqn:Ha; [do 2 eexists; split_and!; [done..|by apply releaseLocks_ok]|].
  pose proof (lookup_prepared_ok tm t Hi) as Hlk. destruct (lookup_prepared tm t) as [tm1 r].
  destruct Hlk as (Ho1 & Hl1 & Hs1 & _ & Hr). rewrite Hl in Hl1. pose proof (proj1 Ho1) as Hi1.
  destruct r as [rec|].
  2:{ exists (releaseLocksForTxLocked tm1 t), true. split_and!; try done.
      eapply tx_ok_trans; [exact Ho1|]. by apply releaseLocks_ok. }
  symmetry in Hr. rewrite <- Hs1 in Hr, Hc, Ha. destruct (inv_disk_rec _ _ _ Hi1 Hr) as [HT Hu].
  rewrite tm_Unlock_held by done. cbn [mbind option_bind]. rewrite tm_Lock_free by done.
  cbn [mbind option_bind]. rewrite tm_Unlock_held by done. cbn [mbind option_bind].
  set (tm3 := tm_with_locked (tm_with_locked (tm_with_locked tm1 false) true) false).
  assert (Ho3 : tx_ok tm1 tm3) by by apply tx_ok_same.
  case_decide; [|case_decide].
  - destruct (executeCommit_ok tm3 rec eq_refl (proj1 Ho3) Hu) as (tm4 & -> & Hl4 & Ho4); [by rewrite HT..|].
    cbn [mbind option_bind]. rewrite tm_Lock_free by done. cbn. do 2 eexists. split_and!; [done..|].
    eapply tx_ok_trans; [exact Ho1|]. eapply tx_ok_trans; [exact Ho3|]. eapply tx_ok_trans; [exact Ho4|].
    apply tx_ok_lock, Ho4.
  - destruct (executeAbort_ok tm3 rec eq_refl (proj1 Ho3)) as (tm4 & -> & Hl4 & Ho4); [by rewrite HT..|].
    cbn [mbind option_bind]. rewrite tm_Lock_free by done. cbn. do 2 eexists. split_and!; [done..|].
    eapply tx_ok_trans; [exact Ho1|]. eapply tx_ok_trans; [exact Ho3|]. eapply tx_ok_trans; [exact Ho4|].
    apply tx_ok_lock, Ho4.
  - do 2 eexists. split_and!; [done..|]. eapply tx_ok_trans; [exact Ho1|]. by apply tx_ok_same.
Qed.

Lemma prepare_locks_ok tm t wks :
  tm_locked tm = true → tx_inv tm →
  ∃ tm' e, prepare_locks groupID router tm t wks = Some (tm', e) ∧ tm_locked tm' = true ∧ tx_ok tm tm'.
Proof.
  revert tm. induction wks as [|wk wks IH]; intros tm Hl Hi; cbn [prepare_locks].
  { by eauto 6 using tx_ok_refl. }
  destruct (tm_lockTable tm !! WriteKey_Key wk) as [h|]; [|by apply IH].
  case_decide; [by apply IH|].
  destruct (resolveLockLocked_ok tm h Hl Hi) as (tm1 & b & -> & Hl1 & Ho1). cbn [mbind option_bind].
  destruct b; [|by eauto 6].
  destruct (IH tm1 Hl1 (proj1 Ho1)) as (tm2 & e & E & Hl2 & Ho2).
  assert (Hgo : ∃ tm' e', prepare_locks groupID router tm1 t wks = Some (tm', e') ∧
                  tm_locked tm' = true ∧ tx_ok tm tm') by eauto 6 using tx_ok_trans.
  destruct (tm_lockTable tm1 !! WriteKey_Key wk); [|done]. case_decide; [done|]. by eauto 6.
Qed.

Lemma tx_inv_prepare tm s' rec :
  tx_inv tm → prepared_wf rec → user_keys (pr_WriteKeys rec) →
  PutTxRecord (tm_store tm) (txPreparePrefix +:+ pr_TxID rec) (marshal_prepared rec) = (s', None) →
  ∀ b l, tx_ok tm {| tm_locked := b; tm_lockTable := l;
                     tm_preparedTxs := <[pr_TxID rec := rec]> (tm_preparedTxs tm); tm_store := s' |}.
Proof.
  intros [He Hp Hm] Hwf Hu Hput b l.
  assert (Hs : ∀ k, R s' k = if decide (k = txPreparePrefix +:+ pr_TxID rec) then Some (marshal_prepared rec)
                             else R (tm_store tm) k) by (intros; by eapply PutTxRecord_R).
  split; [split|]; cbn.
  - intros t. rewrite !Hs, !decide_False by key_ne. auto.
  - intros t j. rewrite Hs. case_decide as E; [|apply Hp]. apply string_app_inj in E as ->.
    intros [= <-]. exists rec. by rewrite unmarshal_marshal_prepared.
  - intros t r. rewrite Hs. intros [[<- <-]|[Hne ?]]%lookup_insert_Some.
    + rewrite decide_True by done. cbn. by apply unmarshal_marshal_prepared.
    + rewrite decide_False by (intros E%string_app_inj; by subst). auto.
  - intros t. by rewrite !Hs, !decide_False by key_ne.
Qed.

(** Arguments in the ranges of their Go types, with user keys to write. *)
Definition prepare_args_wf (now : Z) (args : PrepareTxArgs) : Prop :=
  prepared_wf (prepare_record now args) ∧ user_keys (PrepareTxArgs_WriteKeys args).

Lemma Prepare_ok now tm args :
  tm_locked tm = false → tx_inv tm → prepare_args_wf now args →
  ∃ tm' r, Prepare groupID router now tm args = Some (tm', r) ∧ tm_locked tm' = false ∧ tx_ok tm tm'.
Proof.
  intros Hl Hi [Hwf Hu]. unfold Prepare. rewrite tm_Lock_free by done. cbn [mbind option_bind].
  set (tm0 := tm_with_locked tm true).
  assert (Ho0 : tx_ok tm tm0) by by apply tx_ok_same.
  destruct (prepare_locks_ok tm0 (PrepareTxArgs_TxID args) (PrepareTxArgs_WriteKeys args) eq_refl (proj1 Ho0))
    as (tm1 & e & -> & Hl1 & Ho1).
  assert (Ho : tx_ok tm tm1) by exact (tx_ok_trans _ _ _ Ho0 Ho1). clear Ho0 Ho1. pose proof (proj1 Ho) as Hi1.
  cbn [mbind option_bind]. unfold tm_Unlock.
  destruct e as [e|].
  { rewrite Hl1. cbn. do 2 eexists. split_and!; [done..|]. eapply tx_ok_trans; [exact Ho|]. by apply tx_ok_same. }
  destruct (prepare_reads _ _ _) as [e|].
  { rewrite Hl1. cbn. do 2 eexists. split_and!; [done..|]. eapply tx_ok_trans; [exact Ho|]. by apply tx_ok_same. }
  cbn [tm_with_tables tm_with_store tm_store tm_lockTable tm_preparedTxs tm_locked].
  destruct (PutTxRecord _ _ _) as [s [err|]] eqn:Hp; cbn [tm_with_tables tm_with_store tm_store tm_lockTable tm_preparedTxs tm_locked]; rewrite Hl1; cbn;
    do 2 eexists; (split_and!; [done..|]); (eapply tx_ok_trans; [exact Ho|]).
  - apply PutTxRecord_spec in Hp as ->. apply tx_ok_tables; auto.
  - by apply (tx_inv_prepare tm1 s (prepare_record now args)).
Qed.

Lemma RecordDecision_ok tm args :
  tx_inv tm → tx_ok tm (RecordDecision tm args).1.
Proof.
  intros Hi. unfold RecordDecision. case_decide; [by apply tx_ok_refl|].
  destruct (GetTxRecord _ _) eqn:Hd; [repeat case_match; by apply tx_ok_refl|].
  destruct (PutTxRecord _ _ _) as [s [err|]] eqn:Hp.
  { apply PutTxRecord_spec in Hp as ->. destruct tm. by apply tx_ok_refl. }
  assert (Hs := λ k, PutTxRecord_R _ _ _ _ k Hp). destruct Hi as [He Hpr Hm].
  split; [split|]; cbn.
  - intros t. rewrite !Hs, !decide_False by key_ne. auto.
  - intros t j. rewrite !Hs, !decide_False by key_ne. apply Hpr.
  - intros t j. rewrite !Hs, !decide_False by key_ne. apply Hm.
  - intros t. rewrite !Hs. do 2 (rewrite decide_False by key_ne). split_and!; [done..|].
    intros Hx. rewrite decide_False; [done|]. intros E. rewrite E in Hx. congruence.
Qed.

(** [Commit] returns unless it is called with the mutex taken; it leaves the
    mutex taken exactly when it refuses for want of a COMMITTED decision. *)
Definition commit_leaks (s : Store DB) (t : string) : bool :=
  bool_decide (commit_rec s t = None ∧ abort_rec s t = None) && commit_refused groupID s t.

Lemma commit_load_ok tm t :
  tm_locked tm = false → tx_inv tm →
  ∃ tm', commit_load tm t = Some (tm', prepare_rec (tm_store tm) t ≫= unmarshal_prepared) ∧
    tm_locked tm' = false ∧ tx_ok tm tm' ∧ tm_store tm' = tm_store tm.
Proof.
  intros Hl Hi. unfold commit_load. destruct (tm_preparedTxs tm !! t) as [rec|] eqn:Hm.
  { exists tm. rewrite (inv_mem _ Hi _ _ Hm). by split_and!. }
  destruct (prepare_rec (tm_store tm) t ≫= unmarshal_prepared) as [rec|] eqn:Hd; [|by exists tm].
  rewrite tm_Lock_free by done. cbn. eexists. split_and!; [done..| |done].
  apply tx_ok_tables; [done|done|]. intros t' r. inline_lets. intros [[<- <-]|[_ ?]]%lookup_insert_Some; auto.
Qed.

Lemma commit_apply_ok tm t rec :
  tm_locked tm = false → tx_inv tm → user_keys (pr_WriteKeys rec) →
  commit_rec (tm_store tm) t = None → abort_rec (tm_store tm) t = None →
  ∃ tm' r, commit_apply tm t rec = Some (tm', r) ∧ tm_locked tm' = false ∧ tx_ok tm tm'.
Proof.
  intros Hl Hi Hu Hc Ha. unfold commit_apply.
  destruct (WriteBatchWithCASAndRecord _ _ _ _) as [s [err|]] eqn:Hw.
  { apply WriteBatchWithCASAndRecord_err in Hw as ->. do 2 eexists. split_and!; [done..|]. by destruct tm. }
  assert (Ho2 : tx_ok tm (tm_with_store tm s)).
  { eapply (tx_inv_commit _ _ t); eauto. intros k. by eapply batch_record_R. }
  rewrite tm_Lock_free by done. cbn. do 2 eexists. split_and!; [done..|].
  eapply tx_ok_trans; [exact Ho2|].
  set (tm3 := {| tm_locked := false; tm_lockTable := delete_locks (pr_WriteKeys rec) (tm_lockTable tm);
                 tm_preparedTxs := delete t (tm_preparedTxs tm); tm_store := s |}).
  assert (Ho3 : tx_ok (tm_with_store tm s) tm3).
  { apply tx_ok_tables; [apply Ho2|done|]. intros t' r. inline_lets. intros [_ ?]%lookup_delete_Some. auto. }
  eapply tx_ok_trans; [exact Ho3|]. apply (tx_inv_cleanup tm3 t); [apply Ho3|]. apply lookup_delete_eq.
Qed.

Lemma Commit_ok tm args :
  tm_locked tm = false → tx_inv tm →
  ∃ tm' r, Commit groupID tm args = Some (tm', r) ∧
    tm_locked tm' = commit_leaks (tm_store tm) (CommitTxArgs_TxID args) ∧ tx_ok tm tm'.
Proof.
  intros Hl Hi. unfold Commit, commit_leaks. set (t := CommitTxArgs_TxID args).
  rewrite tm_Lock_free by done. cbn [mbind option_bind tm_store tm_with_locked].
  destruct (commit_rec (tm_store tm) t) eqn:Hc.
  { rewrite bool_decide_false by naive_solver. cbn. do 2 eexists. split_and!; [done..|]. by apply tx_ok_same. }
  destruct (abort_rec (tm_store tm) t) eqn:Ha.
  { rewrite bool_decide_false by naive_solver. cbn. do 2 eexists. split_and!; [done..|]. by apply tx_ok_same. }
  rewrite bool_decide_true by done. cbn [andb].
  destruct (commit_refused _ _ _) eqn:Href.
  { do 2 eexists. split_and!; [done..|]. by apply tx_ok_same. }
  rewrite tm_Unlock_held by done. cbn [mbind option_bind].
  set (tm0 := tm_with_locked (tm_with_locked tm true) false).
  assert (Ho0 : tx_ok tm tm0) by by apply tx_ok_same.
  destruct (commit_load_ok tm0 t eq_refl (proj1 Ho0)) as (tm1 & -> & Hl1 & Ho1 & Hs1). cbn [mbind option_bind].
  change (tm_store tm0) with (tm_store tm) in *.
  assert (Ho : tx_ok tm tm1) by exact (tx_ok_trans _ _ _ Ho0 Ho1).
  destruct (prepare_rec (tm_store tm) t ≫= unmarshal_prepared) as [rec|] eqn:Hr; [|by eauto 6].
  destruct (inv_disk_rec _ _ _ Hi Hr) as [_ Hu].
  destruct (commit_apply_ok tm1 t rec Hl1 (proj1 Ho) Hu) as (tm2 & r & -> & ? & Ho2); [by rewrite Hs1..|].
  do 2 eexists. split_and!; [done..|]. exact (tx_ok_trans _ _ _ Ho Ho2).
Qed.

Lemma Abort_ok tm args :
  tm_locked tm = false → tx_inv tm →
  ∃ tm' r, Abort tm args = Some (tm', r) ∧ tm_locked tm' = false ∧ tx_ok tm tm'.
Proof.
  intros Hl Hi. unfold Abort. set (t := AbortTxArgs_TxID args).
  rewrite tm_Lock_free by done. cbn [mbind option_bind tm_store tm_with_locked].
  destruct (commit_rec (tm_store tm) t) eqn:Hc.
  { cbn. do 2 eexists. split_and!; [done..|]. by apply tx_ok_same. }
  destruct (abort_rec (tm_store tm) t) eqn:Ha.
  { cbn. do 2 eexists. split_and!; [done..|]. by apply tx_ok_same. }
  rewrite tm_Unlock_held by done. cbn [mbind option_bind tm_with_locked tm_store].
  destruct (PutTxRecord _ _ _) as [s [err|]] eqn:Hp.
  { apply PutTxRecord_spec in Hp as ->. do 2 eexists. split_and!; [done..|]. by apply tx_ok_same. }
  rewrite tm_Lock_free by done. cbn [mbind option_bind].
  assert (Ho1 : tx_ok tm (tm_with_store tm s)).
  { eapply (tx_inv_abort _ _ t); eauto. intros k. by eapply PutTxRecord_R. }
  assert (Hend : ∀ l, tx_ok tm (tm_with_store
    {| tm_locked := false; tm_lockTable := l; tm_preparedTxs := delete t (tm_preparedTxs tm); tm_store := s |}
    (DeleteTxRecord s (txPreparePrefix +:+ t)).1)).
  { intros l. set (tm3 := {| tm_locked := false; tm_lockTable := l;
                             tm_preparedTxs := delete t (tm_preparedTxs tm); tm_store := s |}).
    assert (Ho3 : tx_ok (tm_with_store tm s) tm3).
    { apply tx_ok_tables; [apply Ho1|done|]. intros t' r. inline_lets. intros [_ ?]%lookup_delete_Some. auto. }
    eapply tx_ok_trans; [exact Ho1|]. eapply tx_ok_trans; [exact Ho3|].
    apply (tx_inv_cleanup tm3 t); [apply Ho3|]. apply lookup_delete_eq. }
  cbn [tm_with_locked tm_with_store tm_preparedTxs].
  destruct (tm_preparedTxs tm !! t) as [rec|] eqn:Hm; cbn; do 2 eexists; (split_and!; [done..|]); [apply Hend|].
  specialize (Hend (tm_lockTable tm)). rewrite (delete_id _ _ Hm) in Hend. exact Hend.
Qed.

Lemma ResolveTxStatus_ok now tm args :
  tm_locked tm = false → tx_inv tm →
  ∃ tm' r, ResolveTxStatus now tm args = Some (tm', r) ∧ tm_locked tm' = false ∧ tx_ok tm tm'.
Proof.
  intros Hl Hi. unfold ResolveTxStatus. set (t := ResolveTxStatusArgs_TxID args).
  destruct (decision_rec _ t ≫= _); [by eauto 6 using tx_ok_refl|].
  destruct (commit_rec _ t) eqn:Hc; [by eauto 6 using tx_ok_refl|].
  destruct (abort_rec _ t) eqn:Ha; [by eauto 6 using tx_ok_refl|].
  destruct (prepare_rec _ t) as [raw|] eqn:Hp; [|by eauto 6 using tx_ok_refl].
  destruct (unmarshal_prepared raw) as [rec|]; [|by eauto 6 using tx_ok_refl].
  case_match; [|by eauto 6 using tx_ok_refl].
  rewrite tm_Lock_free by done. cbn. do 2 eexists. split_and!; [done..|].
  set (tm1 := {| tm_locked := false; tm_lockTable := filter (λ x, x.2 ≠ t) (tm_lockTable tm);
                 tm_preparedTxs := delete t (tm_preparedTxs tm); tm_store := tm_store tm |}).
  assert (Ho1 : tx_ok tm tm1).
  { apply tx_ok_tables; [done|done|]. intros t' r. inline_lets. intros [_ ?]%lookup_delete_Some. auto. }
  set (s := (PutTxRecord (tm_store tm) (txAbortPrefix +:+ t) abortData).1).
  assert (Ho2 : tx_ok tm1 (tm_with_store tm1 s)).
  { subst s. destruct (PutTxRecord _ _ _) as [s [err|]] eqn:Hput.
    - apply PutTxRecord_spec in Hput as ->. apply tx_ok_same; [apply Ho1|done..].
    - eapply (tx_inv_abort tm1 s t); [apply Ho1|done| |done]. intros k. by eapply PutTxRecord_R in Hput. }
  eapply tx_ok_trans; [exact Ho1|]. eapply tx_ok_trans; [exact Ho2|].
  apply (tx_inv_cleanup (tm_with_store tm1 s) t); [apply Ho2|]. apply lookup_delete_eq.
Qed.

(** ** Recovery *)

(** Nothing but the outcome and the prepare record of one transaction changed. *)
Definition tx_frame (t : string) (s s' : Store DB) : Prop :=
  (∀ t', t' ≠ t → commit_rec s' t' = commit_rec s t' ∧ abort_rec s' t' = abort_rec s t' ∧
                  prepare_rec s' t' = prepare_rec s t') ∧
  ∀ t', decision_rec s' t' = decision_rec s t'.

Lemma tx_frame_refl t s : tx_frame t s s.
Proof. by split. Qed.
Lemma tx_frame_trans t s1 s2 s3 : tx_frame t s1 s2 → tx_frame t s2 s3 → tx_frame t s1 s3.
Proof.
  intros [Ha Hd] [Hb He]. split; [|intros; by rewrite He, Hd].
  intros t' Ht. destruct (Ha t' Ht) as (<- & <- & <-), (Hb t' Ht) as (-> & -> & ->). done.
Qed.
Lemma tx_frame_delete t s : tx_frame t s (DeleteTxRecord s (txPreparePrefix +:+ t)).1.
Proof.
  split; [|intros; by rewrite DeleteTxRecord_R by key_ne].
  intros t' Ht. rewrite !DeleteTxRecord_R; [done|by intros ?%string_app_inj|key_ne..].
Qed.

(** What executing a recovered outcome does to the tables and to other records. *)
Definition exec_effect (rec : preparedTxRecord) (tm tm' : TxManager DB) : Prop :=
  tx_frame (pr_TxID rec) (tm_store tm) (tm_store tm') ∧
  (tm_lockTable tm' = tm_lockTable tm ∨
   tm_lockTable tm' = delete_locks (pr_WriteKeys rec) (tm_lockTable tm)) ∧
  (tm_preparedTxs tm' = tm_preparedTxs tm ∨
   tm_preparedTxs tm' = delete (pr_TxID rec) (tm_preparedTxs tm)).

Lemma execute_cleanup_effect tm rec tm' :
  execute_cleanup tm rec = Some tm' →
  tx_frame (pr_TxID rec) (tm_store tm) (tm_store tm') ∧
  tm_lockTable tm' = delete_locks (pr_WriteKeys rec) (tm_lockTable tm) ∧
  tm_preparedTxs tm' = delete (pr_TxID rec) (tm_preparedTxs tm).
Proof.
  unfold execute_cleanup, tm_Lock. destruct (tm_locked tm); [done|]. cbn. intros [= <-]. cbn.
  split; [apply tx_frame_delete|done].
Qed.

Lemma executeCommit_effect tm rec tm' :
  user_keys (pr_WriteKeys rec) → executeCommit tm rec = Some tm' → exec_effect rec tm tm'.
Proof.
  intros Hu. unfold executeCommit, exec_effect.
  destruct (WriteBatchWithCASAndRecord _ _ _ _) as [s [err|]] eqn:Hw.
  { apply WriteBatchWithCASAndRecord_err in Hw as ->. intros [= <-]. split; [apply tx_frame_refl|auto]. }
  intros (Hf & Hl & Hp)%execute_cleanup_effect. cbn in *. split; [|auto].
  eapply tx_frame_trans; [|exact Hf].
  assert (Hs := λ k, batch_record_R _ _ _ _ _ k Hu Hw).
  split; [|intros; by rewrite Hs, decide_False by key_ne].
  intros t' Ht. rewrite !Hs. rewrite decide_False by (by intros ?%string_app_inj).
  by do 2 (rewrite decide_False by key_ne).
Qed.

Lemma executeAbort_effect tm rec tm' : executeAbort tm rec = Some tm' → exec_effect rec tm tm'.
Proof.
  unfold executeAbort, exec_effect. destruct (PutTxRecord _ _ _) as [s [err|]] eqn:Hw.
  { apply PutTxRecord_spec in Hw as ->. intros [= <-]. split; [apply tx_frame_refl|auto]. }
  intros (Hf & Hl & Hp)%execute_cleanup_effect. cbn in *. split; [|auto].
  eapply tx_frame_trans; [|exact Hf].
  assert (Hs := λ k, PutTxRecord_R _ _ _ _ k Hw).
  split; [|intros; by rewrite Hs, decide_False by key_ne].
  intros t' Ht. rewrite !Hs. rewrite (decide_False (P := txAbortPrefix +:+ t' = _)) by (by intros ?%string_app_inj).
  by do 2 (rewrite decide_False by key_ne).
Qed.

(** A prepared transaction without an outcome that anybody can tell. *)
Definition undecided (s : Store DB) (rec : preparedTxRecord) : Prop :=
  commit_rec s (pr_TxID rec) = None ∧ abort_rec s (pr_TxID rec) = None ∧
  queryCoordinatorDecision groupID router s rec ≠ TxStatusCommitted ∧
  queryCoordinatorDecision groupID router s rec ≠ TxStatusAborted.

#[local] Instance undecided_dec s rec : Decision (undecided s rec).
Proof. unfold undecided. apply _. Defined.

Lemma tx_frame_undecided t s s' rec :
  tx_frame t s s' → pr_TxID rec ≠ t → undecided s' rec ↔ undecided s rec.
Proof.
  intros [Ha Hd] Ht. unfold undecided, queryCoordinatorDecision.
  destruct (Ha _ Ht) as (-> & -> & _). rewrite Hd. done.
Qed.

Lemma rebuild_record_ok tm t raw rec :
  tm_locked tm = true → tx_inv tm → prepare_rec (tm_store tm) t = Some raw →
  unmarshal_prepared raw = Some rec →
  ∃ tm', rebuild_record groupID router tm raw = Some tm' ∧ tm_locked tm' = true ∧
    (tm_preparedTxs tm !! t = None → tx_ok tm tm') ∧ tx_frame t (tm_store tm) (tm_store tm') ∧
    (undecided (tm_store tm) rec →
      tm_lockTable tm' = take_locks t (pr_WriteKeys rec) (tm_lockTable tm) ∧
      tm_preparedTxs tm' = <[t := rec]> (tm_preparedTxs tm)) ∧
    (¬ undecided (tm_store tm) rec →
      (tm_lockTable tm' = tm_lockTable tm ∨
       tm_lockTable tm' = delete_locks (pr_WriteKeys rec) (tm_lockTable tm)) ∧
      (tm_preparedTxs tm' = tm_preparedTxs tm ∨ tm_preparedTxs tm' = delete t (tm_preparedTxs tm))).
Proof.
  intros Hl Hi Hj Hr. destruct (inv_prep _ Hi _ _ Hj) as (r & ? & HT & Hu). simplify_eq.
  unfold rebuild_record, undecided. rewrite Hr.
  destruct (commit_rec _ _) eqn:Hc.
  { eexists. split_and!; [done|done| |apply tx_frame_delete|naive_solver|auto]. intros. by apply tx_inv_cleanup. }
  destruct (abort_rec _ _) eqn:Ha.
  { eexists. split_and!; [done|done| |apply tx_frame_delete|naive_solver|auto]. intros. by apply tx_inv_cleanup. }
  rewrite tm_Unlock_held by done. cbn [mbind option_bind].
  set (tm1 := tm_with_locked tm false).
  assert (Ho1 : tx_ok tm tm1) by by apply tx_ok_same.
  case_decide as Hd1; [|case_decide as Hd2].
  - destruct (executeCommit_ok tm1 rec eq_refl (proj1 Ho1) Hu Hc Ha) as (tm2 & E & Hl2 & Ho2). rewrite E.
    apply executeCommit_effect in E as (Hf & Hlk & Hp); [|done]. cbn [mbind option_bind].
    rewrite tm_Lock_free by done. eexists. split_and!; [done..| |done|naive_solver|auto].
    intros _. eapply tx_ok_trans; [exact Ho1|]. eapply tx_ok_trans; [exact Ho2|]. apply tx_ok_lock, Ho2.
  - destruct (executeAbort_ok tm1 rec eq_refl (proj1 Ho1) Hc Ha) as (tm2 & E & Hl2 & Ho2). rewrite E.
    apply executeAbort_effect in E as (Hf & Hlk & Hp). cbn [mbind option_bind].
    rewrite tm_Lock_free by done. eexists. split_and!; [done..| |done|naive_solver|auto].
    intros _. eapply tx_ok_trans; [exact Ho1|]. eapply tx_ok_trans; [exact Ho2|]. apply tx_ok_lock, Ho2.
  - eexists. split_and!; [done|done| |apply tx_frame_refl|done|naive_solver].
    intros _. apply tx_ok_tables; [done|done|]. cbn.
    intros t' r' [[<- <-]|[_ ?]]%lookup_insert_Some; [|auto]. rewrite Hj. auto.
Qed.

Definition prepare_key (t : string) : string := txKeyPrefix +:+ (txPreparePrefix +:+ t).

(** The scanned records that are still on disk, with their transactions. *)
Definition recs_on (s : Store DB) (records : list (string * json)) : Prop :=
  Forall (λ x, ∃ t, x.1 = prepare_key t ∧ prepare_rec s t = Some x.2) records.

Lemma recs_on_frame t s s' records :
  tx_frame t s s' → prepare_key t ∉ records.*1 → recs_on s records → recs_on s' records.
Proof.
  intros [Hf _] Ht. unfold recs_on. rewrite !Forall_forall. intros Hr x Hx.
  destruct (Hr x Hx) as (t' & Hk & Hp). exists t'. split; [done|].
  destruct (Hf t') as (_ & _ & ->); [|done]. intros ->. apply Ht. rewrite <- Hk. by apply list_elem_of_fmap_2.
Qed.

Lemma rebuild_loop_ok tm records :
  tm_locked tm = true → tx_inv tm → NoDup records.*1 → recs_on (tm_store tm) records →
  (∀ t, prepare_key t ∈ records.*1 → tm_preparedTxs tm !! t = None) →
  ∃ tm', rebuild_loop groupID router tm records = Some tm' ∧ tm_locked tm' = true ∧ tx_ok tm tm'.
Proof.
  revert tm. induction records as [|[k raw] records IH]; intros tm Hl Hi Hnd Hon Hnone; cbn [rebuild_loop].
  { by eauto using tx_ok_refl. }
  apply NoDup_cons in Hnd as [Hk Hnd]. apply Forall_cons in Hon as [(t & Hkt & Hp) Hon]. cbn [fst snd] in *. subst k.
  destruct (inv_prep _ Hi _ _ Hp) as (rec & Hr & HT & Hu).
  destruct (rebuild_record_ok tm t raw rec Hl Hi Hp Hr) as (tm1 & -> & Hl1 & Ho1 & Hf & Hund & Hdec).
  cbn [mbind option_bind]. assert (Ht : tm_preparedTxs tm !! t = None) by (apply Hnone; set_solver).
  specialize (Ho1 Ht).
  destruct (IH tm1) as (tm2 & -> & Hl2 & Ho2); [done|apply Ho1|done|by eapply recs_on_frame| |].
  - intros t' Ht'. assert (Hne : t' ≠ t) by (by intros ->).
    assert (Hn : tm_preparedTxs tm !! t' = None) by (apply Hnone; set_solver).
    destruct (decide (undecided (tm_store tm) rec)) as [Hx|Hx].
    + destruct (Hund Hx) as [_ ->]. by rewrite lookup_insert_ne.
    + destruct (Hdec Hx) as [_ [-> | ->]]; [done|]. by rewrite lookup_delete_ne.
  - exists tm2. split_and!; [done..|]. exact (tx_ok_trans _ _ _ Ho1 Ho2).
Qed.

Lemma scan_recs_on s order :
  (∀ l, order l ≡ₚ l) → 
  (∀ t j, prepare_rec s t = Some j → is_Some (unmarshal_prepared j)) →
  NoDup (order (ScanTxRecordsByPrefix s txPreparePrefix)).*1 ∧
  recs_on s (order (ScanTxRecordsByPrefix s txPreparePrefix)) ∧
  ∀ t j, prepare_rec s t = Some j → (prepare_key t, j) ∈ order (ScanTxRecordsByPrefix s txPreparePrefix).
Proof.
  intros Hord Hdec. unfold ScanTxRecordsByPrefix. split_and!.
  - rewrite Hord. apply db_iter_NoDup.
  - apply Forall_forall. intros [k j]. rewrite Hord, db_iter_elem. intros [Hk Hp].
    apply has_prefix_spec in Hp as [t ->]. exists t. unfold prepare_key, GetTxRecord. cbn.
    rewrite <- !string_app_assoc. done.
  - intros t j Hj. rewrite Hord, db_iter_elem. unfold prepare_key. rewrite <- string_app_assoc.
    split; [|apply has_prefix_app]. unfold GetTxRecord in Hj. by rewrite string_app_assoc.
Qed.

Lemma RebuildLockTable_ok order tm :
  (∀ l, order l ≡ₚ l) → tm_locked tm = false → tx_inv tm →
  ∃ tm', RebuildLockTable groupID router order tm = Some tm' ∧ tm_locked tm' = false ∧ tx_ok tm tm'.
Proof.
  intros Hord Hl Hi. unfold RebuildLockTable. rewrite tm_Lock_free by done. cbn [mbind option_bind].
  set (tm1 := tm_with_tables (tm_with_locked tm true) ∅ ∅).
  assert (Ho1 : tx_ok tm tm1) by (apply tx_ok_tables; [done..|]; intros t r; inline_lets; by rewrite lookup_empty).
  destruct (scan_recs_on (tm_store tm1) order Hord) as (Hnd & Hon & _).
  { intros t j Hj. destruct (inv_prep _ (proj1 Ho1) _ _ Hj) as (? & -> & _). eauto. }
  destruct (rebuild_loop_ok tm1 _ eq_refl (proj1 Ho1) Hnd Hon) as (tm2 & -> & Hl2 & Ho2).
  { intros. apply lookup_empty. }
  cbn [mbind option_bind]. rewrite tm_Unlock_held by done. eexists. split_and!; [done..|].
  eapply tx_ok_trans; [exact Ho1|]. eapply tx_ok_trans; [exact Ho2|]. apply tx_ok_lock, Ho2.
Qed.

Abbreviation keys_of rec := (WriteKey_Key <$> pr_WriteKeys rec).

(** Distinct scanned records write distinct keys. *)
Definition recs_disjoint (records : list (string * json)) : Prop :=
  ∀ x y rx ry k, x ∈ records → y ∈ records → x.1 ≠ y.1 →
    unmarshal_prepared x.2 = Some rx → unmarshal_prepared y.2 = Some ry →
    k ∈ keys_of rx → k ∉ keys_of ry.

(** Distinct prepared transactions on disk write distinct keys. *)
Definition write_sets_disjoint (s : Store DB) : Prop :=
  ∀ t1 t2 r1 r2 k, t1 ≠ t2 →
    prepare_rec s t1 ≫= unmarshal_prepared = Some r1 →
    prepare_rec s t2 ≫= unmarshal_prepared = Some r2 →
    k ∈ keys_of r1 → k ∉ keys_of r2.

Lemma recs_on_disjoint s records : recs_on s records → write_sets_disjoint s → recs_disjoint records.
Proof.
  unfold recs_on. rewrite Forall_forall. intros Hon Hd x y rx ry k Hx Hy Hne Hrx Hry.
  destruct (Hon x Hx) as (t1 & Hk1 & Hp1), (Hon y Hy) as (t2 & Hk2 & Hp2).
  apply (Hd t1 t2); [congruence|by rewrite Hp1|by rewrite Hp2].
Qed.

(** The contribution of the scanned records to the two tables. *)
Definition scanned (s : Store DB) (records : list (string * json)) (t : string)
    (rec : preparedTxRecord) : Prop :=
  ∃ raw, (prepare_key t, raw) ∈ records ∧ unmarshal_prepared raw = Some rec ∧ undecided s rec.

Definition tables_hold (s : Store DB) (records : list (string * json)) (tm tm' : TxManager DB) : Prop :=
  (∀ t rec, tm_preparedTxs tm' !! t = Some rec ↔
     tm_preparedTxs tm !! t = Some rec ∨ scanned s records t rec) ∧
  (∀ k t, tm_lockTable tm' !! k = Some t ↔
     tm_lockTable tm !! k = Some t ∨ ∃ rec, scanned s records t rec ∧ k ∈ keys_of rec).

(** One record: the tables gain exactly its cache entry and its locks. *)
Lemma rebuild_record_tables tm t raw rec tm1 :
  tm_locked tm = true → tx_inv tm → prepare_rec (tm_store tm) t = Some raw →
  unmarshal_prepared raw = Some rec → tm_preparedTxs tm !! t = None →
  (∀ k, k ∈ keys_of rec → tm_lockTable tm !! k = None) →
  rebuild_record groupID router tm raw = Some tm1 →
  tables_hold (tm_store tm) [(prepare_key t, raw)] tm tm1.
Proof.
  intros Hl Hi Hp Hr Hn Hk E.
  destruct (rebuild_record_ok tm t raw rec Hl Hi Hp Hr) as (tm1' & E' & _ & _ & _ & Hund & Hdec).
  rewrite E in E'. injection E' as <-.
  assert (Hsc : ∀ t' r, scanned (tm_store tm) [(prepare_key t, raw)] t' r ↔
                         t' = t ∧ r = rec ∧ undecided (tm_store tm) rec).
  { intros t' r. unfold scanned. setoid_rewrite list_elem_of_singleton. split.
    - intros (? & [= Hkey ->] & ? & ?). by simplify_eq.
    - intros (-> & -> & ?). by exists raw. }
  unfold tables_hold. setoid_rewrite Hsc. clear Hsc.
  destruct (decide (undecided (tm_store tm) rec)) as [Hx|Hx].
  - destruct (Hund Hx) as [-> ->]. split.
    + intros t' r. rewrite lookup_insert_Some. split; [naive_solver|].
      intros [Ht'|(-> & -> & _)]; [|auto]. right. split; [|done]. intros <-. congruence.
    + intros k t'. rewrite lookup_take_locks. case_decide as Hin; [|naive_solver].
      rewrite (Hk _ Hin). split; [intros [= <-]; right; by exists rec|]. by intros [?|(? & (-> & -> & _) & _)].
  - destruct (Hdec Hx) as [Hlk Hpr]. split.
    + intros t' r. destruct Hpr as [-> | ->]; [naive_solver|]. rewrite lookup_delete_Some.
      split; [naive_solver|]. intros [Ht'|?]; [|naive_solver]. split; [|done]. intros <-. congruence.
    + intros k t'. destruct Hlk as [-> | ->]; [naive_solver|]. rewrite lookup_delete_locks.
      case_decide as Hin; [|naive_solver]. rewrite (Hk _ Hin). naive_solver.
Qed.

Lemma rebuild_loop_tables tm records tm' :
  tm_locked tm = true → tx_inv tm → NoDup records.*1 → recs_on (tm_store tm) records →
  recs_disjoint records →
  (∀ t raw rec, (prepare_key t, raw) ∈ records → unmarshal_prepared raw = Some rec →
     tm_preparedTxs tm !! t = None ∧ ∀ k, k ∈ keys_of rec → tm_lockTable tm !! k = None) →
  rebuild_loop groupID router tm records = Some tm' →
  tables_hold (tm_store tm) records tm tm'.
Proof.
  revert tm. induction records as [|[k0 raw] records IH]; intros tm Hl Hi Hnd Hon Hdis Hfree E; cbn [rebuild_loop] in E.
  { simplify_eq. unfold tables_hold, scanned. set_solver. }
  apply NoDup_cons in Hnd as [Hk Hnd]. apply Forall_cons in Hon as [(t & Hkt & Hp) Hon]. cbn [fst snd] in *. subst k0.
  destruct (inv_prep _ Hi _ _ Hp) as (rec & Hr & HT & Hu).
  destruct (Hfree t raw rec) as [Hn Hlk]; [set_solver|done|].
  destruct (rebuild_record_ok tm t raw rec Hl Hi Hp Hr) as (tm1 & E1 & Hl1 & Ho1 & Hf & _ & _).
  rewrite E1 in E. cbn [mbind option_bind] in E.
  pose proof (rebuild_record_tables tm t raw rec tm1 Hl Hi Hp Hr Hn Hlk E1) as [Hp1 Hlk1].
  specialize (Ho1 Hn).
  assert (Hon1 : recs_on (tm_store tm1) records) by by eapply recs_on_frame.
  assert (Hother : ∀ t' raw', (prepare_key t', raw') ∈ records → t' ≠ t).
  { intros t' raw' Hin ->. apply Hk. apply list_elem_of_fmap. by exists (prepare_key t, raw'). }
  assert (Hsc : ∀ t' r, scanned (tm_store tm) ((prepare_key t, raw) :: records) t' r ↔
     scanned (tm_store tm) [(prepare_key t, raw)] t' r ∨ scanned (tm_store tm1) records t' r).
  { assert (Hrest : ∀ t' raw' r, (prepare_key t', raw') ∈ records → unmarshal_prepared raw' = Some r →
      undecided (tm_store tm1) r ↔ undecided (tm_store tm) r).
    { intros t' raw' r Hin Hr'. eapply tx_frame_undecided; [exact Hf|].
      unfold recs_on in Hon1. rewrite Forall_forall in Hon1.
      destruct (Hon1 _ Hin) as (t2 & Hk2 & Hp2). apply tx_key_inj in Hk2 as <-.
      destruct (inv_prep _ (proj1 Ho1) _ _ Hp2) as (r2 & Hr2 & HT2 & _). cbn in *. simplify_eq.
      by eapply Hother. }
    intros t' r. unfold scanned. split.
    - intros (raw' & [Heq|Hin]%elem_of_cons & Hr' & Hud).
      + left. exists raw'. split; [by apply list_elem_of_singleton|done].
      + right. exists raw'. split_and!; [done..|]. by eapply Hrest.
    - intros [(raw' & Heq%list_elem_of_singleton & Hr' & Hud)|(raw' & Hin & Hr' & Hud)]; exists raw'.
      + split; [|done]. apply elem_of_cons. auto.
      + split_and!; [apply elem_of_cons; auto|done|]. by eapply Hrest. }
  destruct (IH tm1) as [Hp2 Hlk2]; [done|apply Ho1|done|done| | |done|].
  - intros x y rx ry k Hx Hy. apply Hdis; set_solver.
  - intros t' raw' rec' Hin Hr'.
    destruct (Hfree t' raw' rec') as [Hn' Hlk']; [set_solver|done|]. split.
    + apply eq_None_not_Some. intros [r Hr2]. apply Hp1 in Hr2 as [?|(raw2 & Hin2 & _)]; [congruence|].
      apply list_elem_of_singleton, pair_equal_spec in Hin2 as [Hkk%tx_key_inj _]. subst. by eapply Hother.
    + intros k Hkin. apply eq_None_not_Some. intros [t2 Hr2].
      apply Hlk1 in Hr2 as [?|(r2 & (raw2 & Hin2 & Hu2 & _) & Hin3)]; [rewrite Hlk' in *; done|].
      apply list_elem_of_singleton, pair_equal_spec in Hin2 as [Hkk%tx_key_inj ->]. subst t2.
      eapply (Hdis (prepare_key t, raw) (prepare_key t', raw')); [set_solver..| |done|done|done|done].
      cbn. intros Hkk%tx_key_inj. subst. by eapply Hother.
  - unfold tables_hold. setoid_rewrite Hsc. setoid_rewrite Hp2. setoid_rewrite Hlk2.
    setoid_rewrite Hp1. setoid_rewrite Hlk1. split; [|naive_solver]. intros; tauto.
Qed.

Lemma RebuildLockTable_exact order tm tm' :
  (∀ l, order l ≡ₚ l) → tm_locked tm = false → tx_inv tm →
  write_sets_disjoint (tm_store tm) →
  RebuildLockTable groupID router order tm = Some tm' →
  let pending t rec :=
    GetTxRecord (tm_store tm) (txPreparePrefix +:+ t) ≫= unmarshal_prepared = Some rec ∧
    undecided (tm_store tm) rec in
  (∀ t rec, tm_preparedTxs tm' !! t = Some rec ↔ pending t rec) ∧
  (∀ k t, tm_lockTable tm' !! k = Some t ↔ ∃ rec, pending t rec ∧ k ∈ WriteKey_Key <$> pr_WriteKeys rec).
Proof.
  intros Hord Hl Hi Hdis HR pending. unfold RebuildLockTable in HR.
  rewrite tm_Lock_free in HR by done. cbn [mbind option_bind] in HR.
  set (tm1 := tm_with_tables (tm_with_locked tm true) ∅ ∅) in *.
  assert (Ho1 : tx_ok tm tm1) by (apply tx_ok_tables; [done..|]; intros t r; inline_lets; by rewrite lookup_empty).
  destruct (scan_recs_on (tm_store tm) order Hord) as (Hnd & Hon & Hall).
  { intros t j Hj. destruct (inv_prep _ Hi _ _ Hj) as (? & -> & _). eauto. }
  change (tm_store tm1) with (tm_store tm) in HR.
  set (records := order (ScanTxRecordsByPrefix (tm_store tm) txPreparePrefix)) in *.
  apply (recs_on_disjoint _ records) in Hdis; [|done].
  destruct (rebuild_loop _ _ tm1 records) as [tm2|] eqn:E; [|done]. cbn in HR.
  assert (Hsc : ∀ t rec, scanned (tm_store tm) records t rec ↔ pending t rec).
  { intros t rec. unfold scanned, pending. split.
    - intros (raw & Hin & Hr & ?). unfold recs_on in Hon. rewrite Forall_forall in Hon.
      destruct (Hon _ Hin) as (t' & Hk & Hp). cbn in Hk. apply tx_key_inj in Hk as <-. cbn in Hp. by rewrite Hp.
    - intros [Hr Hu]. destruct (GetTxRecord _ _) as [raw|] eqn:Hp; [|done]. exists raw. split; [by apply Hall|done]. }
  apply rebuild_loop_tables in E as [Hp Hlk]; [|done|apply Ho1|done..|].
  - unfold tm_Unlock in HR. destruct (tm_locked tm2); simplify_eq. cbn.
    change (tm_store tm1) with (tm_store tm) in Hp, Hlk.
    setoid_rewrite Hp. setoid_rewrite Hlk. setoid_rewrite Hsc.
    change (tm_preparedTxs tm1) with (∅ : gmap string preparedTxRecord).
    change (tm_lockTable tm1) with (∅ : gmap string string).
    split; intros; rewrite lookup_empty; naive_solver.
  - intros. split; [apply lookup_empty|]. intros. apply lookup_empty.
Qed.

(** What a rebuild leaves alone *)

(** A prepared transaction without an outcome here whose coordinator tells COMMITTED. *)
Definition to_commit (s : Store DB) (rec : preparedTxRecord) : Prop :=
  commit_rec s (pr_TxID rec) = None ∧ abort_rec s (pr_TxID rec) = None ∧
  queryCoordinatorDecision groupID router s rec = TxStatusCommitted.
Lemma tx_frame_to_commit t s s' rec :
  tx_frame t s s' → pr_TxID rec ≠ t → to_commit s' rec ↔ to_commit s rec.
Proof.
  intros [Ha Hd] Ht. unfold to_commit, queryCoordinatorDecision.
  destruct (Ha _ Ht) as (-> & -> & _). rewrite Hd. done.
Qed.

Abbreviation user_view s k := (db_view (st_db s) !! k).
Lemma put_record_user s k j k' : has_prefix txKeyPrefix k' = false → user_view (PutTxRecord s k j).1 k' = user_view s k'.
Proof.
  intros Hk. destruct (PutTxRecord s k j) as [s' [e|]] eqn:E; apply PutTxRecord_spec in E; [by subst|].
  destruct E as [Hv _]. cbn. rewrite Hv, lookup_insert_ne; [done|]. intros <-. by rewrite has_prefix_app in Hk.
Qed.
Lemma delete_record_user s k k' : has_prefix txKeyPrefix k' = false → user_view (DeleteTxRecord s k).1 k' = user_view s k'.
Proof.
  intros Hk. destruct (DeleteTxRecord s k) as [s' [e|]] eqn:E; apply DeleteTxRecord_spec in E; [by subst|].
  destruct E as [Hv _]. cbn. rewrite Hv, lookup_delete_ne; [done|]. intros <-. by rewrite has_prefix_app in Hk.
Qed.
Lemma cleanup_user tm rec tm' k : has_prefix txKeyPrefix k = false → execute_cleanup tm rec = Some tm' →
  user_view (tm_store tm') k = user_view (tm_store tm) k.
Proof.
  intros Hk. unfold execute_cleanup, tm_Lock. destruct (tm_locked tm); [done|]. cbn. intros [= <-]. cbn. by apply delete_record_user.
Qed.

(** One record writes at most the keys of a transaction that is to be committed. *)
Lemma rebuild_record_user tm raw rec tm' k :
  unmarshal_prepared raw = Some rec → rebuild_record groupID router tm raw = Some tm' →
  has_prefix txKeyPrefix k = false → (to_commit (tm_store tm) rec → k ∉ keys_of rec) →
  user_view (tm_store tm') k = user_view (tm_store tm) k.
Proof.
  intros Hr E Hk Hin. unfold rebuild_record in E. rewrite Hr in E.
  destruct (commit_rec _ _) eqn:Hc; [injection E as <-; by apply delete_record_user|].
  destruct (abort_rec _ _) eqn:Ha; [injection E as <-; by apply delete_record_user|].
  case_decide as Hd1; [|case_decide as Hd2; [|by injection E as <-]].
  - specialize (Hin (conj Hc (conj Ha Hd1))).
    destruct (tm_Unlock tm) as [tm1|] eqn:E1; [|done]. cbn [mbind option_bind] in E.
    destruct (executeCommit tm1 rec) as [tm2|] eqn:E2; [|done]. cbn [mbind option_bind] in E.
    assert (tm_store tm1 = tm_store tm) as H1 by (unfold tm_Unlock in E1; destruct (tm_locked tm); by simplify_eq).
    assert (tm_store tm' = tm_store tm2) as -> by (unfold tm_Lock in E; destruct (tm_locked tm2); by simplify_eq).
    rewrite <-H1. unfold executeCommit in E2. destruct (WriteBatchWithCASAndRecord _ _ _ _) as [s [err|]] eqn:Hw.
    { apply WriteBatchWithCASAndRecord_err in Hw as ->. by injection E2 as <-. }
    rewrite (cleanup_user _ _ _ k Hk E2). cbn. eapply batch_record_frame in Hw as [_ ->]; [done| |].
    + unfold write_ops. rewrite <-list_fmap_compose. exact Hin.
    + intros ->. by rewrite has_prefix_app in Hk.
  - destruct (tm_Unlock tm) as [tm1|] eqn:E1; [|done]. cbn [mbind option_bind] in E.
    destruct (executeAbort tm1 rec) as [tm2|] eqn:E2; [|done]. cbn [mbind option_bind] in E.
    assert (tm_store tm1 = tm_store tm) as H1 by (unfold tm_Unlock in E1; destruct (tm_locked tm); by simplify_eq).
    assert (tm_store tm' = tm_store tm2) as -> by (unfold tm_Lock in E; destruct (tm_locked tm2); by simplify_eq).
    rewrite <-H1. unfold executeAbort in E2.
    pose proof (put_record_user (tm_store tm1) (txAbortPrefix +:+ pr_TxID rec) abortData k Hk) as Hp.
    destruct (PutTxRecord _ _ _) as [s [err|]]; [by injection E2 as <-|]. by rewrite (cleanup_user _ _ _ k Hk E2).
Qed.
Lemma rebuild_record_undecided tm raw rec tm' :
  unmarshal_prepared raw = Some rec → rebuild_record groupID router tm raw = Some tm' →
  undecided (tm_store tm) rec → tm_store tm' = tm_store tm.
Proof.
  intros Hr E (Hc & Ha & H1 & H2). unfold rebuild_record in E. rewrite Hr, Hc, Ha, !decide_False in E by done. by injection E as <-.
Qed.

Definition rebuild_keeps (s : Store DB) (records : list (string * json)) (s' : Store DB) : Prop :=
  (∀ k, has_prefix txKeyPrefix k = false →
     (∀ x rec, x ∈ records → unmarshal_prepared x.2 = Some rec → to_commit s rec → k ∉ keys_of rec) →
     user_view s' k = user_view s k) ∧
  (∀ t, (∀ raw rec, (prepare_key t, raw) ∈ records → unmarshal_prepared raw = Some rec → undecided s rec) →
     commit_rec s' t = commit_rec s t ∧ abort_rec s' t = abort_rec s t ∧ prepare_rec s' t = prepare_rec s t) ∧
  ∀ t, decision_rec s' t = decision_rec s t.

Lemma rebuild_loop_keeps records : ∀ tm tm',
  tm_locked tm = true → tx_inv tm → NoDup records.*1 → recs_on (tm_store tm) records →
  (∀ t, prepare_key t ∈ records.*1 → tm_preparedTxs tm !! t = None) →
  rebuild_loop groupID router tm records = Some tm' → rebuild_keeps (tm_store tm) records (tm_store tm').
Proof.
  induction records as [|[k0 raw] records IH]; intros tm tm' Hl Hi Hnd Hon Hnone E; cbn [rebuild_loop] in E.
  { injection E as <-. by split_and!. }
  apply NoDup_cons in Hnd as [Hk Hnd]. apply Forall_cons in Hon as [(t & Hkt & Hp) Hon]. cbn [fst snd] in *. subst k0.
  destruct (inv_prep _ Hi _ _ Hp) as (rec & Hr & HT & Hu).
  destruct (rebuild_record_ok tm t raw rec Hl Hi Hp Hr) as (tm1 & E1 & Hl1 & Ho1 & Hf & Hund & Hdec).
  rewrite E1 in E. cbn [mbind option_bind] in E. specialize (Ho1 ltac:(apply Hnone; set_solver)).
  assert (Hon1 : recs_on (tm_store tm1) records) by by eapply recs_on_frame.
  assert (Hother : ∀ x r, x ∈ records → unmarshal_prepared x.2 = Some r → pr_TxID r ≠ t).
  { intros x r Hin Hr'. unfold recs_on in Hon1. rewrite Forall_forall in Hon1. destruct (Hon1 _ Hin) as (t2 & Hk2 & Hp2).
    destruct (inv_prep _ (proj1 Ho1) _ _ Hp2) as (r2 & Hr2 & HT2 & _). assert (r2 = r) as -> by congruence. rewrite HT2. intros ->.
    apply Hk. rewrite <-Hk2. by apply list_elem_of_fmap_2. }
  assert (Hnone1 : ∀ t', prepare_key t' ∈ records.*1 → tm_preparedTxs tm1 !! t' = None).
  { intros t' Ht'. assert (Hne : t' ≠ t) by (by intros ->).
    assert (Hn : tm_preparedTxs tm !! t' = None) by (apply Hnone; set_solver).
    destruct (decide (undecided (tm_store tm) rec)) as [Hx|Hx].
    - destruct (Hund Hx) as [_ ->]. by rewrite lookup_insert_ne.
    - destruct (Hdec Hx) as [_ [-> | ->]]; [done|]. by rewrite lookup_delete_ne. }
  destruct (IH tm1 tm' Hl1 (proj1 Ho1) Hnd Hon1 Hnone1 E) as (IH1 & IH2 & IH3). split_and!.
  - intros k Hk' Hcom. rewrite IH1; [|done|].
    + eapply rebuild_record_user; [done|done|done|]. intros Hc. apply (Hcom (prepare_key t, raw) rec); [left|done|done].
    + intros x r Hin Hr' Hc. apply (Hcom x r); [by right|done|]. exact (proj1 (tx_frame_to_commit t _ _ r Hf (Hother x r Hin Hr')) Hc).
  - intros t' Ht'. destruct (IH2 t') as (-> & -> & ->).
    { intros raw' r Hin Hr'. eapply tx_frame_undecided; [done|by eapply (Hother _ r Hin)|]. apply (Ht' raw' r); [by right|done]. }
    destruct (decide (t' = t)) as [->|Hne]; [|by apply Hf].
    rewrite (rebuild_record_undecided tm raw rec tm1 Hr E1); [done|]. apply (Ht' raw rec); [left|done].
  - intros t'. rewrite IH3. apply Hf.
Qed.

Lemma RebuildLockTable_keeps order tm tm' :
  (∀ l, order l ≡ₚ l) → tm_locked tm = false → tx_inv tm →
  RebuildLockTable groupID router order tm = Some tm' →
  let s := tm_store tm in let s' := tm_store tm' in
  (∀ k, has_prefix txKeyPrefix k = false →
     (∀ t rec, prepare_rec s t ≫= unmarshal_prepared = Some rec → to_commit s rec → k ∉ keys_of rec) →
     user_view s' k = user_view s k) ∧
  (∀ t, (∀ rec, prepare_rec s t ≫= unmarshal_prepared = Some rec → undecided s rec) →
     commit_rec s' t = commit_rec s t ∧ abort_rec s' t = abort_rec s t ∧ prepare_rec s' t = prepare_rec s t) ∧
  (∀ t, decision_rec s' t = decision_rec s t).
Proof.
  intros Hord Hl Hi HR s s'. unfold RebuildLockTable in HR. rewrite tm_Lock_free in HR by done. cbn [mbind option_bind] in HR.
  set (tm1 := tm_with_tables (tm_with_locked tm true) ∅ ∅) in *.
  assert (Ho1 : tx_ok tm tm1) by (apply tx_ok_tables; [done..|]; intros t r; inline_lets; by rewrite lookup_empty).
  destruct (scan_recs_on (tm_store tm) order Hord) as (Hnd & Hon & _).
  { intros t j Hj. destruct (inv_prep _ Hi _ _ Hj) as (? & -> & _). eauto. }
  change (tm_store tm1) with s in HR. fold s in Hnd, Hon.
  destruct (rebuild_loop _ _ tm1 _) as [tm2|] eqn:E; [|done]. cbn in HR.
  assert (s' = tm_store tm2) as -> by (unfold s', tm_Unlock in *; destruct (tm_locked tm2); by simplify_eq).
  apply rebuild_loop_keeps in E as (K1 & K2 & K3); [|done|apply Ho1|done|done|intros; apply lookup_empty].
  change (tm_store tm1) with s in *. unfold recs_on in Hon. rewrite Forall_forall in Hon. split_and!; [| |done].
  - intros k Hk Hc. apply K1; [done|]. intros x rec Hx Hr. destruct (Hon x Hx) as (t & _ & Hp). apply (Hc t). by rewrite Hp.
  - intros t Hu. apply K2. intros raw rec Hin Hr. destruct (Hon _ Hin) as (t' & Hk & Hp). cbn in *. apply tx_key_inj in Hk as <-.
    apply Hu. by rewrite Hp.
Qed.

(** ** Phase 1, functionally *)

(** The transaction [h] is prepared on disk and nobody can tell its outcome. *)
Definition held_undecided (s : Store DB) (h : string) : Prop :=
  ∃ rec, prepare_rec s h ≫= unmarshal_prepared = Some rec ∧ undecided s rec.

Lemma resolve_undecided tm h :
  tm_locked tm = true → tx_inv tm → held_undecided (tm_store tm) h →
  ∃ tm', resolveLockLocked groupID router tm h = Some (tm', false) ∧ tm_locked tm' = true ∧
    tm_store tm' = tm_store tm ∧ tm_lockTable tm' = tm_lockTable tm.
Proof.
  intros Hl Hi (rec & Hr & Hc & Ha & Hd1 & Hd2). destruct (inv_disk_rec _ _ _ Hi Hr) as [HT _].
  rewrite HT in Hc, Ha. unfold resolveLockLocked. rewrite Hc, Ha.
  pose proof (lookup_prepared_ok tm h Hi) as Hlk. destruct (lookup_prepared tm h) as [tm1 r].
  destruct Hlk as (_ & Hl1 & Hs1 & Ht1 & ->). rewrite Hr.
  rewrite tm_Unlock_held by congruence. cbn [mbind option_bind]. rewrite tm_Lock_free by done.
  cbn [mbind option_bind]. change (tm_store (tm_with_locked tm1 false)) with (tm_store tm1). rewrite Hs1.
  rewrite !decide_False by done. eexists. by split_and!.
Qed.

(** An undecided lock is never stolen. *)
Lemma prepare_locks_conflict tm t wks :
  tm_locked tm = true → tx_inv tm →
  (∀ wk h, wk ∈ wks → tm_lockTable tm !! WriteKey_Key wk = Some h → h ≠ t → held_undecided (tm_store tm) h) →
  (∃ wk h, wk ∈ wks ∧ tm_lockTable tm !! WriteKey_Key wk = Some h ∧ h ≠ t) →
  ∃ tm', prepare_locks groupID router tm t wks = Some (tm', Some ErrTxConflict) ∧ tm_locked tm' = true ∧
    tm_store tm' = tm_store tm ∧ tm_lockTable tm' = tm_lockTable tm.
Proof.
  intros Hl Hi. induction wks as [|wk wks IH]; intros Hall (wk0 & h0 & Hin & Hh0 & Hne); [set_solver|].
  cbn [prepare_locks]. destruct (tm_lockTable tm !! WriteKey_Key wk) as [h|] eqn:Hh.
  - case_decide as Ht.
    + apply IH; [intros wk' h' ???; apply (Hall wk' h'); [set_solver|done..]|]. exists wk0, h0. split_and!; [|done..].
      apply elem_of_cons in Hin as [->|]; [congruence|done].
    + destruct (resolve_undecided tm h Hl Hi) as (tm1 & -> & ? & ? & ?); [apply (Hall wk h); [set_solver|done..]|].
      cbn. eauto.
  - apply IH; [intros wk' h' ???; apply (Hall wk' h'); [set_solver|done..]|]. exists wk0, h0. split_and!; [|done..].
    apply elem_of_cons in Hin as [->|]; [congruence|done].
Qed.

Lemma prepare_reads_None now s rks :
  prepare_reads now s rks = None ↔ Forall (λ rk, check_read now s rk = None) rks.
Proof.
  induction rks as [|rk rks IH]; cbn; [split; [by constructor|done]|].
  destruct (check_read now s rk) eqn:E; rewrite Forall_cons; [naive_solver|]. rewrite IH. naive_solver.
Qed.

(** The version a reader at [now] sees, [0] for an absent or expired key. *)
Definition read_version (now : Z) (s : Store DB) (k : string) : Z :=
  match live now s k with Some e => wrapS64 (ke_Version e) | None => 0 end.

Lemma check_read_live now s rk :
  check_read now s rk = None → read_version now s (ReadKey_Key rk) = ReadKey_ExpectedVersion rk.
Proof.
  unfold check_read, read_version, live, entry_at, Get, entry_expired, tx_isExpired.
  destruct (db_view (st_db s) !! _) as [raw|]; cbn; [destruct (unmarshal_kvEntry raw) as [e|]; cbn|];
    intros; repeat case_match; simplify_eq; done.
Qed.

Lemma prepare_locks_err tm t wks tm' e :
  prepare_locks groupID router tm t wks = Some (tm', Some e) → e = ErrTxConflict.
Proof.
  revert tm. induction wks as [|wk wks IH]; intros tm E; cbn in E; [done|].
  destruct (tm_lockTable tm !! _); [|by eapply IH]. case_decide; [by eapply IH|].
  destruct (resolveLockLocked _ _ _ _) as [[tm2 b]|]; [|done]. cbn in E.
  destruct b; [|by simplify_eq]. destruct (tm_lockTable tm2 !! _); [|by eapply IH].
  case_decide; [by eapply IH|by simplify_eq].
Qed.

Lemma prepare_reads_err now s rks : prepare_reads now s rks ≠ Some OK.
Proof.
  induction rks as [|rk rks IH]; cbn; [done|]. unfold check_read. repeat case_match; naive_solver.
Qed.

Lemma Prepare_success now tm args tm' :
  tm_locked tm = false → tx_inv tm → prepare_args_wf now args →
  Prepare groupID router now tm args = Some (tm', {| PrepareTxReply_Err := OK |}) →
  let t := PrepareTxArgs_TxID args in
  prepare_rec (tm_store tm') t = Some (marshal_prepared (prepare_record now args)) ∧
  tm_preparedTxs tm' !! t = Some (prepare_record now args) ∧
  Forall (λ wk, tm_lockTable tm' !! WriteKey_Key wk = Some t) (PrepareTxArgs_WriteKeys args) ∧
  Forall (λ rk, has_prefix txKeyPrefix (ReadKey_Key rk) = false →
            read_version now (tm_store tm') (ReadKey_Key rk) = ReadKey_ExpectedVersion rk)
    (PrepareTxArgs_ReadKeys args).
Proof.
  intros Hl Hi [Hwf Hu] HP t. unfold Prepare in HP. rewrite tm_Lock_free in HP by done.
  cbn [mbind option_bind] in HP.
  destruct (prepare_locks_ok (tm_with_locked tm true) (PrepareTxArgs_TxID args) (PrepareTxArgs_WriteKeys args) eq_refl)
    as (tm1 & e & Hpl & Hl1 & Ho1); [by apply (tx_ok_lock tm true)|].
  rewrite Hpl in HP. cbn [mbind option_bind] in HP. unfold tm_Unlock in HP.
  destruct e as [e|]; [rewrite Hl1 in HP; cbn in HP; simplify_eq|].
  { by apply prepare_locks_err in Hpl. }
  destruct (prepare_reads _ _ _) as [e|] eqn:Hrd.
  { rewrite Hl1 in HP. cbn in HP. simplify_eq. by apply prepare_reads_err in Hrd. }
  cbn [tm_with_tables tm_with_store tm_store tm_lockTable tm_preparedTxs tm_locked] in HP.
  destruct (PutTxRecord _ _ _) as [s2 [err|]] eqn:Hput; cbn [tm_with_tables tm_with_store tm_store tm_lockTable tm_preparedTxs tm_locked] in HP;
    rewrite Hl1 in HP; cbn in HP; simplify_eq. cbn. fold t.
  split_and!.
  - erewrite PutTxRecord_R by exact Hput. by rewrite decide_True.
  - apply lookup_insert_eq.
  - apply Forall_forall. intros wk Hwk. rewrite lookup_take_locks, decide_True; [done|]. by apply list_elem_of_fmap_2.
  - apply prepare_reads_None in Hrd. eapply Forall_impl; [exact Hrd|]. intros rk Hrk Hk. cbn.
    rewrite <- (check_read_live _ _ _ Hrk). unfold read_version, live, entry_at.
    apply PutTxRecord_spec in Hput as (Hv & _). rewrite Hv, lookup_insert_ne; [done|].
    intros E. rewrite <- E, has_prefix_app in Hk. done.
Qed.

Lemma Prepare_conflict now tm args :
  tm_locked tm = false → tx_inv tm →
  (∀ wk h, wk ∈ PrepareTxArgs_WriteKeys args → tm_lockTable tm !! WriteKey_Key wk = Some h →
     h ≠ PrepareTxArgs_TxID args → held_undecided (tm_store tm) h) →
  (∃ wk h, wk ∈ PrepareTxArgs_WriteKeys args ∧ tm_lockTable tm !! WriteKey_Key wk = Some h ∧
     h ≠ PrepareTxArgs_TxID args) →
  ∃ tm', Prepare groupID router now tm args = Some (tm', {| PrepareTxReply_Err := ErrTxConflict |}) ∧
    tm_store tm' = tm_store tm ∧ tm_lockTable tm' = tm_lockTable tm.
Proof.
  intros Hl Hi Hall Hex. unfold Prepare. rewrite tm_Lock_free by done. cbn [mbind option_bind].
  destruct (prepare_locks_conflict (tm_with_locked tm true) (PrepareTxArgs_TxID args)
              (PrepareTxArgs_WriteKeys args) eq_refl) as (tm1 & -> & Hl1 & Hs1 & Ht1);
    [by apply (tx_ok_lock tm true)|done..|].
  cbn [mbind option_bind]. rewrite tm_Unlock_held by done. cbn. eauto.
Qed.

(** ** Phase 2, functionally *)

Definition user_same (s s' : Store DB) (except : list string) : Prop :=
  ∀ k, has_prefix txKeyPrefix k = false → k ∉ except →
    db_view (st_db s') !! k = db_view (st_db s) !! k.

Lemma DeleteTxRecord_user s k : user_same s (DeleteTxRecord s k).1 [].
Proof.
  intros k' Hk _. destruct (DeleteTxRecord s k) as [s' e] eqn:Hd. apply DeleteTxRecord_spec in Hd.
  destruct e; [by subst|]. destruct Hd as (Hv & _). cbn. rewrite Hv.
  rewrite lookup_delete_ne; [done|]. intros <-. by rewrite has_prefix_app in Hk.
Qed.

(** What a first, successful commit of [rec] does. *)
Definition committed (t : string) (rec : preparedTxRecord) (s s' : Store DB) : Prop :=
  let ops := write_ops (pr_WriteKeys rec) in
  Forall (batch_pre (db_view (st_db s))) ops ∧
  Forall (λ op, db_view (st_db s') !! wb_Key op = batch_post (db_view (st_db s)) op) ops ∧
  commit_rec s' t = Some commitData ∧ user_same s s' (keys_of rec).

Lemma commit_apply_spec tm t rec tm' r :
  user_keys (pr_WriteKeys rec) → NoDup (keys_of rec) →
  commit_apply tm t rec = Some (tm', r) →
  (r = {| CommitTxReply_Err := OK |} ∧ committed t rec (tm_store tm) (tm_store tm') ∧
   tm_lockTable tm' = delete_locks (pr_WriteKeys rec) (tm_lockTable tm)) ∨
  (r = {| CommitTxReply_Err := ErrTxConflict |} ∧ tm' = tm).
Proof.
  intros Hu Hnd. unfold commit_apply. destruct (WriteBatchWithCASAndRecord _ _ _ _) as [s e] eqn:Hw.
  pose proof (WriteBatchWithCASAndRecord_spec _ _ _ _ _ _ ltac:(by rewrite write_ops_keys)
    (user_key_ne _ _ Hu) Hw) as Hs.
  destruct e as [err|].
  { destruct Hs as [-> _]. intros [= <- <-]. right. by destruct tm. }
  unfold tm_Lock. destruct (tm_locked (tm_with_store tm s)); [done|]. cbn. intros [= <- <-]. left.
  destruct Hs as (H1 & H2 & H3 & H4 & _). split_and!; [done| |done]. unfold committed; cbn [tm_store tm_with_store tm_with_locked tm_with_tables]; split_and!; [done|..].
  - unfold user_keys in Hu. rewrite Forall_forall in *. intros op Hop. rewrite DeleteTxRecord_user; [auto| |set_solver].
    assert (Hin : wb_Key op ∈ keys_of rec) by (rewrite <- write_ops_keys; by apply list_elem_of_fmap_2).
    apply list_elem_of_fmap in Hin as (wk & -> & Hwk). rewrite Forall_forall in Hu. by apply Hu.
  - rewrite DeleteTxRecord_R by key_ne. done.
  - intros k Hk Hin. rewrite DeleteTxRecord_user by (done || set_solver). apply H4; [by rewrite write_ops_keys|].
    intros ->. by rewrite has_prefix_app in Hk.
Qed.

Lemma Commit_spec tm args tm' r rec :
  tm_locked tm = false → tx_inv tm →
  let t := CommitTxArgs_TxID args in
  commit_rec (tm_store tm) t = None →
  prepare_rec (tm_store tm) t ≫= unmarshal_prepared = Some rec → NoDup (keys_of rec) →
  Commit groupID tm args = Some (tm', r) →
  (r = {| CommitTxReply_Err := OK |} ∧ committed t rec (tm_store tm) (tm_store tm') ∧
   (∀ k, k ∈ keys_of rec → tm_lockTable tm' !! k = None)) ∨
  (r = {| CommitTxReply_Err := ErrTxConflict |} ∧ tm_store tm' = tm_store tm).
Proof.
  intros Hl Hi t Hc Hr Hnd HC. unfold Commit in HC. rewrite tm_Lock_free in HC by done.
  cbn [mbind option_bind tm_store tm_with_locked] in HC. fold t in HC. rewrite Hc in HC.
  destruct (abort_rec (tm_store tm) t) eqn:Ha.
  { cbn in HC. simplify_eq. auto. }
  destruct (commit_refused _ _ _); [simplify_eq; auto|].
  rewrite tm_Unlock_held in HC by done. cbn [mbind option_bind] in HC.
  set (tm0 := tm_with_locked (tm_with_locked tm true) false) in *.
  destruct (commit_load_ok tm0 t eq_refl) as (tm1 & E & Hl1 & Ho1 & Hs1); [by apply (tx_ok_same tm)|].
  rewrite E in HC. cbn [mbind option_bind] in HC. change (tm_store tm0) with (tm_store tm) in *.
  rewrite Hr in HC. destruct (inv_disk_rec _ _ _ Hi Hr) as [_ Hu].
  apply commit_apply_spec in HC as [(-> & Hcm & Hlk)|(-> & ->)]; [| |done..].
  - left. rewrite Hs1 in Hcm. split_and!; [done..|]. intros k Hk. rewrite Hlk, lookup_delete_locks. by rewrite decide_True.
  - right. auto.
Qed.

Lemma Commit_again tm args :
  tm_locked tm = false → commit_rec (tm_store tm) (CommitTxArgs_TxID args) ≠ None →
  Commit groupID tm args = Some (tm, {| CommitTxReply_Err := OK |}).
Proof.
  intros Hl Hc. unfold Commit. rewrite tm_Lock_free by done. cbn [mbind option_bind tm_store tm_with_locked].
  destruct (commit_rec _ _); [|done]. cbn. do 2 f_equal. destruct tm; cbn in *; by subst.
Qed.

End group.
End props.

(** ** Sequences of operations *)
Section reach.
Context {DB : Type} `{Badger DB}.
Variable groupID : Z.
Implicit Types (s : Store DB) (tm : TxManager DB).

(** One operation of the participant, a restart of the process, or a change of
    user data by another request (any change that keeps the records). *)
Inductive tx_step (tm : TxManager DB) : TxManager DB → Prop :=
  | tx_step_prepare router now args tm' r :
      prepare_args_wf now args → Prepare groupID router now tm args = Some (tm', r) → tx_step tm tm'
  | tx_step_decide args : tx_step tm (RecordDecision tm args).1
  | tx_step_commit args tm' r : Commit groupID tm args = Some (tm', r) → tx_step tm tm'
  | tx_step_abort args tm' r : Abort tm args = Some (tm', r) → tx_step tm tm'
  | tx_step_resolve now args tm' r : ResolveTxStatus now tm args = Some (tm', r) → tx_step tm tm'
  | tx_step_rebuild router order tm' :
      (∀ l, order l ≡ₚ l) → RebuildLockTable groupID router order tm = Some tm' → tx_step tm tm'
  | tx_step_restart : tx_step tm (NewTxManager (tm_store tm))
  | tx_step_user s : (∀ k, GetTxRecord s k = GetTxRecord (tm_store tm) k) → tx_step tm (tm_with_store tm s).

Lemma locked_blocks tm : tm_locked tm = true → tm_Lock tm = None.
Proof. unfold tm_Lock. by intros ->. Qed.

Lemma Commit_blocked tm args : tm_locked tm = true → Commit groupID tm args = None.
Proof. intros. unfold Commit. by rewrite locked_blocks. Qed.
Lemma Abort_blocked tm args : tm_locked tm = true → Abort tm args = None.
Proof. intros. unfold Abort. by rewrite locked_blocks. Qed.
Lemma Prepare_blocked router now tm args : tm_locked tm = true → Prepare groupID router now tm args = None.
Proof. intros. unfold Prepare. by rewrite locked_blocks. Qed.
Lemma Rebuild_blocked router order tm : tm_locked tm = true → RebuildLockTable groupID router order tm = None.
Proof. intros. unfold RebuildLockTable. by rewrite locked_blocks. Qed.

Lemma ResolveTxStatus_locked now tm args tm' r :
  tm_locked tm = true → ResolveTxStatus now tm args = Some (tm', r) → tm' = tm.
Proof.
  intros Hl. unfold ResolveTxStatus.
  repeat (case_match; [by intros; simplify_eq|]). repeat case_match; try (by intros; simplify_eq).
  by rewrite locked_blocks.
Qed.

Lemma tx_step_ok tm tm' : tx_inv tm → tx_step tm tm' → tx_ok tm tm'.
Proof.
  intros Hi Hs.
  destruct Hs as [router now args tm' r Hw E|args|args tm' r E|args tm' r E|now args tm' r E|router order tm' Ho E| |s Hk];
    try (destruct (tm_locked tm) eqn:Hl).
  - by rewrite Prepare_blocked in E.
  - destruct (Prepare_ok groupID router now tm args Hl Hi Hw) as (? & ? & E' & _ & ?). by simplify_eq.
  - by apply RecordDecision_ok.
  - by apply RecordDecision_ok.
  - by rewrite Commit_blocked in E.
  - destruct (Commit_ok groupID tm args Hl Hi) as (? & ? & E' & _ & ?). by simplify_eq.
  - by rewrite Abort_blocked in E.
  - destruct (Abort_ok tm args Hl Hi) as (? & ? & E' & _ & ?). by simplify_eq.
  - by apply ResolveTxStatus_locked in E as ->.
  - destruct (ResolveTxStatus_ok now tm args Hl Hi) as (? & ? & E' & _ & ?). by simplify_eq.
  - by rewrite Rebuild_blocked in E.
  - destruct (RebuildLockTable_ok groupID router order tm Ho Hl Hi) as (? & E' & _ & ?). by simplify_eq.
  - apply tx_ok_tables; [done..|]. intros t rec. cbn. by rewrite lookup_empty.
  - apply tx_ok_tables; [done..|]. intros t rec. cbn. by rewrite lookup_empty.
  - destruct Hi as [He Hp Hm]. split; [split|]; cbn; intros; rewrite ?Hk in *; eauto. intros t. by rewrite !Hk.
  - destruct Hi as [He Hp Hm]. split; [split|]; cbn; intros; rewrite ?Hk in *; eauto. intros t. by rewrite !Hk.
Qed.

Lemma tx_steps_ok tm tm' : tx_inv tm → rtc tx_step tm tm' → tx_ok tm tm'.
Proof.
  intros Hi Hr. induction Hr as [|x y z Hxy _ IH]; [by apply tx_ok_refl|].
  pose proof (tx_step_ok _ _ Hi Hxy) as Ho. eapply tx_ok_trans; [exact Ho|]. apply IH, Ho.
Qed.

Lemma NewTxManager_inv : tx_inv (NewTxManager (@NewStore DB _)).
Proof.
  split; cbn; unfold GetTxRecord; intros; cbn in *; rewrite ?db_new_view, ?lookup_empty in *; auto; done.
Qed.

(** ** Claims *)

(** C18: no transaction is ever both committed and aborted on a participant: in
    every state reached from an empty group by any sequence of prepares,
    decisions, commits, aborts, status queries (with their automatic aborts),
    lock-table rebuilds, restarts and user writes that leave the reserved keys
    _tx:... alone, with any commit of the database failing along the way, one of
    the two records is absent. *)
Theorem outcome_exclusive tm t :
  rtc tx_step (NewTxManager NewStore) tm →
  GetTxRecord (tm_store tm) (txCommitPrefix +:+ t) = None ∨
  GetTxRecord (tm_store tm) (txAbortPrefix +:+ t) = None.
Proof. intros Hr. apply inv_excl. by apply (tx_steps_ok _ _ NewTxManager_inv). Qed.

(** outcomes and coordinator decisions are write-once: whatever happens
    after a commit, abort or decision record exists, it keeps its contents. *)
Theorem outcome_stable tm tm' t :
  rtc tx_step (NewTxManager NewStore) tm → rtc tx_step tm tm' →
  let same p := GetTxRecord (tm_store tm) (p +:+ t) ≠ None →
                GetTxRecord (tm_store tm') (p +:+ t) = GetTxRecord (tm_store tm) (p +:+ t) in
  same txCommitPrefix ∧ same txAbortPrefix ∧ same txDecisionPrefix.
Proof.
  intros Hr Hr'. pose proof (tx_steps_ok _ _ NewTxManager_inv Hr) as [Hi _].
  destruct (tx_steps_ok _ _ Hi Hr') as [_ Hm]. exact (Hm t).
Qed.

(** C20: a successful [Prepare] has locked every key it will write, has made its
    record durable and cached, and every key it read outside the reserved keys
    _tx:... is at the version it was read at (0 for a key that is absent or
    expired). *)
Theorem prepare_guarantees router now tm args tm' :
  tm_locked tm = false → tx_inv tm → prepare_args_wf now args →
  Prepare groupID router now tm args = Some (tm', {| PrepareTxReply_Err := OK |}) →
  let t := PrepareTxArgs_TxID args in
  GetTxRecord (tm_store tm') (txPreparePrefix +:+ t) = Some (marshal_prepared (prepare_record now args)) ∧
  tm_preparedTxs tm' !! t = Some (prepare_record now args) ∧
  Forall (λ wk, tm_lockTable tm' !! WriteKey_Key wk = Some t) (PrepareTxArgs_WriteKeys args) ∧
  Forall (λ rk, has_prefix txKeyPrefix (ReadKey_Key rk) = false →
            read_version now (tm_store tm') (ReadKey_Key rk) = ReadKey_ExpectedVersion rk)
    (PrepareTxArgs_ReadKeys args).
Proof. apply Prepare_success. Qed.

(** the lock of an undecided transaction is never taken over: a [Prepare]
    that wants a key held by another prepared transaction whose outcome nobody
    can tell is refused, and leaves the store and the lock table as they were. *)
Theorem prepare_respects_locks router now tm args :
  tm_locked tm = false → tx_inv tm →
  (∀ wk h, wk ∈ PrepareTxArgs_WriteKeys args → tm_lockTable tm !! WriteKey_Key wk = Some h →
     h ≠ PrepareTxArgs_TxID args → held_undecided groupID router (tm_store tm) h) →
  (∃ wk h, wk ∈ PrepareTxArgs_WriteKeys args ∧ tm_lockTable tm !! WriteKey_Key wk = Some h ∧
     h ≠ PrepareTxArgs_TxID args) →
  ∃ tm', Prepare groupID router now tm args = Some (tm', {| PrepareTxReply_Err := ErrTxConflict |}) ∧
    tm_store tm' = tm_store tm ∧ tm_lockTable tm' = tm_lockTable tm.
Proof. apply Prepare_conflict. Qed.

(** C19: [Commit] is atomic: on a transaction with a prepare record whose write
    keys are distinct (they come from a map of the client) and without a commit
    record, it either applies every write of the durable prepare record to the
    contents its version checks passed on, writes the commit record, touches no
    other user key and frees the locks, or it reports a conflict and changes no
    data at all. *)
Theorem commit_atomic tm args tm' r rec :
  tm_locked tm = false → tx_inv tm →
  let t := CommitTxArgs_TxID args in
  GetTxRecord (tm_store tm) (txCommitPrefix +:+ t) = None →
  GetTxRecord (tm_store tm) (txPreparePrefix +:+ t) ≫= unmarshal_prepared = Some rec →
  NoDup (WriteKey_Key <$> pr_WriteKeys rec) →
  Commit groupID tm args = Some (tm', r) →
  (r = {| CommitTxReply_Err := OK |} ∧ committed t rec (tm_store tm) (tm_store tm') ∧
   (∀ k, k ∈ WriteKey_Key <$> pr_WriteKeys rec → tm_lockTable tm' !! k = None)) ∨
  (r = {| CommitTxReply_Err := ErrTxConflict |} ∧ tm_store tm' = tm_store tm).
Proof. apply Commit_spec. Qed.

(** [Commit] is idempotent: once the commit record is there, a repeated
    commit (a retry of the coordinator, a replay of the log) answers OK and
    changes nothing. *)
Theorem commit_idempotent tm args :
  tm_locked tm = false → GetTxRecord (tm_store tm) (txCommitPrefix +:+ CommitTxArgs_TxID args) ≠ None →
  Commit groupID tm args = Some (tm, {| CommitTxReply_Err := OK |}).
Proof. apply Commit_again. Qed.

(** every participant operation called with the mutex free returns, keeps
    the record invariant and releases the mutex, except for one branch of
    [Commit]: refused for want of a COMMITTED decision it returns with the
    mutex held. *)
Theorem participant_returns tm :
  tm_locked tm = false → tx_inv tm →
  (∀ router now args, prepare_args_wf now args →
     ∃ tm' r, Prepare groupID router now tm args = Some (tm', r) ∧ tm_locked tm' = false ∧ tx_inv tm') ∧
  (∀ args, ∃ tm' r, Abort tm args = Some (tm', r) ∧ tm_locked tm' = false ∧ tx_inv tm') ∧
  (∀ now args, ∃ tm' r, ResolveTxStatus now tm args = Some (tm', r) ∧ tm_locked tm' = false ∧ tx_inv tm') ∧
  (∀ router order, (∀ l, order l ≡ₚ l) →
     ∃ tm', RebuildLockTable groupID router order tm = Some tm' ∧ tm_locked tm' = false ∧ tx_inv tm') ∧
  (∀ args, ∃ tm' r, Commit groupID tm args = Some (tm', r) ∧
     tm_locked tm' = commit_leaks groupID (tm_store tm) (CommitTxArgs_TxID args) ∧ tx_inv tm').
Proof.
  intros Hl Hi. split_and!.
  - intros router now args Hw. destruct (Prepare_ok groupID router now tm args Hl Hi Hw) as (? & ? & ? & ? & [? _]). eauto.
  - intros args. destruct (Abort_ok tm args Hl Hi) as (? & ? & ? & ? & [? _]). eauto.
  - intros now args. destruct (ResolveTxStatus_ok now tm args Hl Hi) as (? & ? & ? & ? & [? _]). eauto.
  - intros router order Ho. destruct (RebuildLockTable_ok groupID router order tm Ho Hl Hi) as (? & ? & ? & [? _]). eauto.
  - intros args. destruct (Commit_ok groupID tm args Hl Hi) as (? & ? & ? & ? & [? _]). eauto.
Qed.

(** after that branch the participant is dead: every later prepare, commit,
    abort and rebuild waits for the mutex for ever. *)
Theorem commit_refusal_deadlocks tm args tm' r :
  tm_locked tm = false → tx_inv tm →
  commit_leaks groupID (tm_store tm) (CommitTxArgs_TxID args) = true →
  Commit groupID tm args = Some (tm', r) →
  r = {| CommitTxReply_Err := ErrTxConflict |} ∧
  (∀ router now a, Prepare groupID router now tm' a = None) ∧ (∀ a, Commit groupID tm' a = None) ∧
  (∀ a, Abort tm' a = None) ∧ (∀ router order, RebuildLockTable groupID router order tm' = None).
Proof.
  intros Hl Hi Hk HC. destruct (Commit_ok groupID tm args Hl Hi) as (tm2 & r2 & E & Hl2 & _).
  rewrite HC in E. simplify_eq. rewrite Hk in Hl2. split.
  - unfold Commit in HC. rewrite tm_Lock_free in HC by done. cbn [mbind option_bind tm_store tm_with_locked] in HC.
    unfold commit_leaks in Hk. apply andb_true_iff in Hk as [[Hc Ha]%bool_decide_eq_true Href].
    rewrite Hc, Ha, Href in HC. by simplify_eq.
  - split_and!; intros; auto using Prepare_blocked, Commit_blocked, Abort_blocked, Rebuild_blocked.
Qed.

(** [RebuildLockTable] recovers exactly the undecided transactions: its
    cache holds the prepare records on disk without an outcome, and a key is
    locked by [t] exactly when such a record of [t] writes it, provided two
    records never write the same key. *)
Theorem rebuild_exact router order tm tm' :
  (∀ l, order l ≡ₚ l) → tm_locked tm = false → tx_inv tm →
  write_sets_disjoint (tm_store tm) →
  RebuildLockTable groupID router order tm = Some tm' →
  let pending t rec :=
    GetTxRecord (tm_store tm) (txPreparePrefix +:+ t) ≫= unmarshal_prepared = Some rec ∧
    undecided groupID router (tm_store tm) rec in
  (∀ t rec, tm_preparedTxs tm' !! t = Some rec ↔ pending t rec) ∧
  (∀ k t, tm_lockTable tm' !! k = Some t ↔ ∃ rec, pending t rec ∧ k ∈ WriteKey_Key <$> pr_WriteKeys rec).
Proof. apply RebuildLockTable_exact. Qed.

(** the decision a coordinator group records is write-once per call too:
    a second [RecordDecision] for the transaction answers OK exactly when it
    asks for the recorded outcome, and never changes the record. *)
Theorem decision_write_once tm args d raw :
  RecordTxDecisionArgs_Decision args = TxStatusCommitted ∨ RecordTxDecisionArgs_Decision args = TxStatusAborted →
  GetTxRecord (tm_store tm) (txDecisionPrefix +:+ RecordTxDecisionArgs_TxID args) = Some raw →
  unmarshal_decision raw = Some d →
  RecordDecision tm args =
    (tm, {| RecordTxDecisionReply_Err :=
              if decide (dr_Decision d = RecordTxDecisionArgs_Decision args) then OK else ErrTxConflict |}).
Proof.
  intros Hd Hraw Hun. unfold RecordDecision. rewrite decide_False by naive_solver.
  rewrite Hraw, Hun. by case_decide.
Qed.
End reach.

(** ** Witnesses: a group 1 whose store holds [a] at version 3 *)
Definition tw_store : Store (gmap string json) :=
  {| st_db := {[ "a" := marshal_kvEntry {| ke_Value := "v"; ke_Version := 3; ke_Expires := 0 |} ]};
     st_expiryHeap := []; st_tombstones := ∅ |}.
Definition tw0 : TxManager (gmap string json) := NewTxManager tw_store.
Definition tw_prepare (t : string) (version : Z) (groups : list Z) : PrepareTxArgs :=
  {| PrepareTxArgs_TxID := t;
     PrepareTxArgs_ReadKeys := [{| ReadKey_Key := "a"; ReadKey_Value := "v"; ReadKey_ExpectedVersion := 3 |}];
     PrepareTxArgs_WriteKeys :=
       [{| WriteKey_Key := "a"; WriteKey_Value := "x"; WriteKey_Version := version; WriteKey_IsDelete := false |};
        {| WriteKey_Key := "b"; WriteKey_Value := "y"; WriteKey_Version := 0; WriteKey_IsDelete := false |}];
     PrepareTxArgs_TimeoutMs := 0; PrepareTxArgs_CoordinatorGroupID := 1;
     PrepareTxArgs_ParticipantGroupIDs := groups |}.
(** The state an operation leaves. *)
Definition after {A} (tm : TxManager (gmap string json)) (o : option (TxManager (gmap string json) * A)) :=
  default tm (fst <$> o).
Definition tw1 : TxManager (gmap string json) := after tw0 (Prepare 1 None 7 tw0 (tw_prepare "t1" 3 [])).
Definition tw_commit (t : string) : CommitTxArgs := {| CommitTxArgs_TxID := t; CommitTxArgs_WriteKeys := [] |}.
Definition tw2 : TxManager (gmap string json) := after tw1 (Commit 1 tw1 (tw_commit "t1")).

Lemma tw_args_wf t v g : isS64 v → Forall isS64 g → prepare_args_wf 7 (tw_prepare t v g).
Proof.
  intros Hv Hg. split; [|by repeat constructor].
  repeat split; try done; repeat (constructor; [done|]); constructor.
Qed.

Lemma tw0_inv : tx_inv tw0.
Proof.
  assert (Hnone : ∀ k, GetTxRecord tw_store k = None).
  { intros k. unfold GetTxRecord. cbn. rewrite lookup_singleton_ne; [done|]. discriminate. }
  split; cbn; intros; rewrite ?Hnone in *; auto; done.
Qed.
Lemma tw1_inv : tx_inv tw1.
Proof.
  destruct (Prepare_ok 1 None 7 tw0 (tw_prepare "t1" 3 []) eq_refl tw0_inv) as (tm & r & E & _ & [? _]).
  { by apply tw_args_wf. }
  unfold tw1. by rewrite E.
Qed.

Definition tw_abort : TxManager (gmap string json) :=
  after (NewTxManager NewStore) (Abort (NewTxManager (@NewStore _ badger_map)) {| AbortTxArgs_TxID := "t" |}).
Lemma tw_abort_step : rtc (tx_step 1) (NewTxManager (@NewStore _ badger_map)) tw_abort.
Proof.
  apply rtc_once. eapply (tx_step_abort 1 _ {| AbortTxArgs_TxID := "t" |}). vm_compute. reflexivity.
Qed.

Lemma outcome_exclusive_witness :
  GetTxRecord (tm_store tw_abort) (txCommitPrefix +:+ "t") = None ∨
  GetTxRecord (tm_store tw_abort) (txAbortPrefix +:+ "t") = None.
Proof. exact (outcome_exclusive 1 tw_abort "t" tw_abort_step). Defined.

Lemma outcome_stable_witness :
  GetTxRecord (tm_store tw_abort) (txAbortPrefix +:+ "t") =
  GetTxRecord (tm_store (after tw_abort (Commit 1 tw_abort (tw_commit "t")))) (txAbortPrefix +:+ "t").
Proof.
  symmetry. refine (proj1 (proj2 (outcome_stable 1 tw_abort _ "t" tw_abort_step _)) _); [|discriminate].
  apply rtc_once. eapply (tx_step_commit 1 _ (tw_commit "t")). vm_compute. reflexivity.
Defined.

Lemma prepare_guarantees_witness :
  tm_lockTable tw1 !! "a" = Some "t1" ∧ tm_lockTable tw1 !! "b" = Some "t1".
Proof.
  pose proof (prepare_guarantees 1 None 7 tw0 (tw_prepare "t1" 3 []) tw1 eq_refl tw0_inv
    (tw_args_wf "t1" 3 [] ltac:(done) ltac:(done)) ltac:(vm_compute; reflexivity)) as (_ & _ & Hl & _).
  inversion_clear Hl as [|? ? H1 Hl']. inversion_clear Hl' as [|? ? H2 _]. split; [exact H1|exact H2].
Defined.

Lemma tw_held : held_undecided 1 None (tm_store tw1) "t1".
Proof.
  eexists. split; [vm_compute; reflexivity|]. repeat split; vm_compute; try reflexivity; discriminate.
Qed.

Lemma prepare_respects_locks_witness :
  ∃ tm', Prepare 1 None 8 tw1 (tw_prepare "t2" 3 []) = Some (tm', {| PrepareTxReply_Err := ErrTxConflict |}) ∧
    tm_store tm' = tm_store tw1 ∧ tm_lockTable tm' = tm_lockTable tw1.
Proof.
  refine (prepare_respects_locks 1 None 8 tw1 (tw_prepare "t2" 3 []) eq_refl tw1_inv _ _).
  - intros wk h _ Hh _. assert (h = "t1") as ->; [|exact tw_held].
    destruct (decide (WriteKey_Key wk = "a")) as [Ha|Ha]; [rewrite Ha in Hh; vm_compute in Hh; congruence|].
    destruct (decide (WriteKey_Key wk = "b")) as [Hb|Hb]; [rewrite Hb in Hh; vm_compute in Hh; congruence|].
    assert (Hn : tm_lockTable tw1 = <["b" := "t1"]> (<["a" := "t1"]> ∅)) by reflexivity.
    rewrite Hn, !lookup_insert_ne, lookup_empty in Hh by done. done.
  - eexists _, "t1". split; [apply elem_of_cons; left; reflexivity|]. split; [reflexivity|done].
Defined.

Lemma commit_atomic_witness :
  committed "t1" (prepare_record 7 (tw_prepare "t1" 3 [])) (tm_store tw1) (tm_store tw2).
Proof.
  pose proof (commit_atomic 1 tw1 (tw_commit "t1") tw2 {| CommitTxReply_Err := OK |}
    (prepare_record 7 (tw_prepare "t1" 3 [])) eq_refl tw1_inv ltac:(reflexivity) ltac:(vm_compute; reflexivity)
    ltac:(apply (bool_decide_unpack _); vm_compute; reflexivity) ltac:(vm_compute; reflexivity))
    as [(_ & Hc & _)|(E & _)]; [exact Hc|discriminate].
Defined.

Lemma commit_idempotent_witness :
  Commit 1 tw2 (tw_commit "t1") = Some (tw2, {| CommitTxReply_Err := OK |}).
Proof. apply commit_idempotent; [reflexivity|discriminate]. Defined.

Lemma participant_returns_witness :
  ∃ tm' r, Abort tw1 {| AbortTxArgs_TxID := "t1" |} = Some (tm', r) ∧ tm_locked tm' = false ∧ tx_inv tm'.
Proof. exact (proj1 (proj2 (participant_returns 1 tw1 eq_refl tw1_inv)) _). Defined.

Definition tw3 : TxManager (gmap string json) := after tw0 (Prepare 1 None 7 tw0 (tw_prepare "t1" 3 [1; 2])).
Lemma tw3_inv : tx_inv tw3.
Proof.
  destruct (Prepare_ok 1 None 7 tw0 (tw_prepare "t1" 3 [1; 2]) eq_refl tw0_inv) as (tm & r & E & _ & [? _]).
  { apply tw_args_wf; [done|]. by repeat constructor. }
  unfold tw3. by rewrite E.
Qed.

Lemma commit_refusal_deadlocks_witness :
  Commit 1 (after tw3 (Commit 1 tw3 (tw_commit "t1"))) (tw_commit "t2") = None.
Proof.
  assert (E : Commit 1 tw3 (tw_commit "t1") =
    Some (after tw3 (Commit 1 tw3 (tw_commit "t1")), {| CommitTxReply_Err := ErrTxConflict |})).
  { match goal with |- _ = ?r => vm_cast_no_check (eq_refl r) end. }
  exact (proj1 (proj2 (proj2 (commit_refusal_deadlocks 1 tw3 (tw_commit "t1") _ _ eq_refl tw3_inv
    ltac:(vm_cast_no_check (eq_refl true)) E))) (tw_commit "t2")).
Defined.

(** [t1] is the only prepared transaction. *)
Lemma tw1_only t r : GetTxRecord (tm_store tw1) (txPreparePrefix +:+ t) ≫= unmarshal_prepared = Some r → t = "t1".
Proof.
  assert (Hv : st_db (tm_store tw1) = <["_tx:prepare:t1" := marshal_prepared (prepare_record 7 (tw_prepare "t1" 3 []))]> (st_db tw_store)) by reflexivity.
  unfold GetTxRecord. cbn [db_view badger_map]. rewrite Hv. destruct (decide (t = "t1")) as [->|Ht]; [done|].
  rewrite lookup_insert_ne; [|intros E; apply Ht; symmetry; by apply (tx_key_inj "prepare:")].
  cbn [st_db tw_store]. rewrite lookup_singleton_ne by discriminate. done.
Qed.

Lemma rebuild_exact_witness :
  let r := RebuildLockTable 1 None id (NewTxManager (tm_store tw1)) in
  ∃ tm', r = Some tm' ∧ (tm_lockTable tm' !! "a" = Some "t1" ↔
    ∃ rec, (GetTxRecord (tm_store tw1) (txPreparePrefix +:+ "t1") ≫= unmarshal_prepared = Some rec ∧
            undecided 1 None (tm_store tw1) rec) ∧ "a" ∈ WriteKey_Key <$> pr_WriteKeys rec).
Proof.
  eexists. split; [vm_compute; reflexivity|].
  refine (proj2 (rebuild_exact 1 None id (NewTxManager (tm_store tw1)) _ _ eq_refl _ _ _) "a" "t1").
  - done.
  - apply (tx_step_ok 1 tw1 _ tw1_inv). apply tx_step_restart.
  - intros t1 t2 r1 r2 k Hne H1 H2. exfalso.
    apply tw1_only in H1, H2. congruence.
  - vm_compute. reflexivity.
Defined.

Definition tw4 : TxManager (gmap string json) :=
  (RecordDecision tw3 {| RecordTxDecisionArgs_TxID := "t1"; RecordTxDecisionArgs_Decision := TxStatusCommitted;
     RecordTxDecisionArgs_ParticipantGroupIDs := [1; 2]; RecordTxDecisionArgs_WriteKeys := [] |}).1.
Definition tw_decide_abort : RecordTxDecisionArgs :=
  {| RecordTxDecisionArgs_TxID := "t1"; RecordTxDecisionArgs_Decision := TxStatusAborted;
     RecordTxDecisionArgs_ParticipantGroupIDs := []; RecordTxDecisionArgs_WriteKeys := [] |}.
Lemma decision_write_once_witness :
  RecordDecision tw4 tw_decide_abort = (tw4, {| RecordTxDecisionReply_Err := ErrTxConflict |}).
Proof.
  eapply (decision_write_once tw4 tw_decide_abort {| dr_Decision := TxStatusCommitted; dr_ParticipantGroupIDs := [1; 2];
    dr_WriteKeys := [] |}).
  - right. reflexivity.
  - vm_compute. reflexivity.
  - vm_compute. reflexivity.
Defined.

(** the write set is not validated in phase 1: a transaction whose write
    to [a] expects version 2 while [a] is at version 3 prepares successfully,
    its coordinator decides COMMITTED, and its commit then fails for ever (the
    state no longer changes), with both keys still locked. *)
Theorem prepared_commit_can_fail :
  let prep := Prepare 1 None 7 tw0 (tw_prepare "t1" 2 [1; 2]) in
  let tm1 := after tw0 prep in
  let tm2 := (RecordDecision tm1 {| RecordTxDecisionArgs_TxID := "t1";
     RecordTxDecisionArgs_Decision := TxStatusCommitted;
     RecordTxDecisionArgs_ParticipantGroupIDs := [1; 2]; RecordTxDecisionArgs_WriteKeys := [] |}).1 in
  snd <$> prep = Some {| PrepareTxReply_Err := OK |} ∧
  Commit 1 tm2 (tw_commit "t1") = Some (tm2, {| CommitTxReply_Err := ErrTxConflict |}) ∧
  tm_lockTable tm2 !! "b" = Some "t1".
Proof.
  cbv zeta. split_and!.
  - vm_cast_no_check (eq_refl (Some {| PrepareTxReply_Err := OK |})).
  - match goal with |- _ = ?r => vm_cast_no_check (eq_refl r) end.
  - vm_cast_no_check (eq_refl (Some "t1")).
Qed.
