(* ===== verification/Topology.v ===== *)
(** * pkg/sharding/topology.go: which group owns which shard

    The owner table as a list, the groups as a map; the hash of a key is a
    parameter.  [sort.Ints] on the keys of a map is [sort_ints]; a result [None]
    is a panic or a loop that does not end. *)
From stdpp Require Import prelude gmap sorting strings.
From stdpp Require Import options.
From S2P Require Import Prelude.
Local Open Scope Z_scope.

Definition sort_ints (l : list Z) : list Z := merge_sort Z.le l.

Record ShardTopology := mkTopology {
  tp_numShards : Z; tp_epoch : Z; tp_shardToGroup : list Z; tp_groups : gmap Z (list string) }.

Definition allGroupIDsLocked (groups : gmap Z (list string)) : list Z := sort_ints (elements (dom groups)).

(** [groupIDs[i%len(groupIDs)]] panics for an empty list. *)
Definition NewShardTopology (numShards : Z) (groups : gmap Z (list string)) : option ShardTopology :=
  let numShards := if decide (numShards < 1) then 1024 else numShards in
  let groupIDs := allGroupIDsLocked groups in
  owners ← mapM (λ i, groupIDs !! (i mod length groupIDs)%nat) (seq 0 (Z.to_nat numShards));
  Some (mkTopology numShards 1 owners groups).

(** The first [None] is a panic, the second the result [nil]. *)
Definition NewShardTopologyWithOwnership (numShards : Z) (groups : gmap Z (list string)) (owners : list Z)
    (epoch : Z) : option (option ShardTopology) :=
  if bool_decide (numShards < 1 ∨ groups = ∅ ∨ Z.of_nat (length owners) ≠ numShards) then Some None
  else
    st ← NewShardTopology numShards groups;
    if forallb (λ gid, bool_decide (is_Some (groups !! gid))) owners
    then Some (Some (mkTopology (tp_numShards st) (if decide (0 < epoch) then epoch else tp_epoch st)
                       owners (tp_groups st)))
    else Some None.

Section hash.
Variable Sum64String : string → Z.

Definition shardForKey (st : ShardTopology) (key : string) : Z := Sum64String key mod tp_numShards st.
Definition ResolveWithEpoch (st : ShardTopology) (key : string) : option (Z * Z) :=
  gid ← tp_shardToGroup st !! Z.to_nat (shardForKey st key); Some (gid, tp_epoch st).
End hash.

Definition GroupForShard (st : ShardTopology) (shard : Z) : Z * bool :=
  if bool_decide (shard < 0 ∨ Z.of_nat (length (tp_shardToGroup st)) ≤ shard) then (0, false)
  else (default 0 (tp_shardToGroup st !! Z.to_nat shard), true).
Definition GroupIDs (st : ShardTopology) : list Z := allGroupIDsLocked (tp_groups st).

Definition RegisterGroup (st : ShardTopology) (gid : Z) (replicas : list string) : ShardTopology * bool :=
  if bool_decide (gid ≤ 0 ∨ replicas = []) then (st, false)
  else match tp_groups st !! gid with
       | Some _ => (st, true)
       | None => (mkTopology (tp_numShards st) (tp_epoch st) (tp_shardToGroup st)
                    (<[gid := replicas]> (tp_groups st)), true)
       end.

Definition MoveShard (st : ShardTopology) (shard toGroup : Z) : ShardTopology * bool :=
  if bool_decide (shard < 0 ∨ tp_numShards st ≤ shard) then (st, false)
  else match tp_groups st !! toGroup with
       | None => (st, false)
       | Some _ => (mkTopology (tp_numShards st) (wrapS64 (tp_epoch st + 1))
                      (<[Z.to_nat shard := toGroup]> (tp_shardToGroup st)) (tp_groups st), true)
       end.

(** ** Planning the shards of a new group *)

Definition count_of (counts : gmap Z Z) (g : Z) : Z := default 0 (counts !! g).
Definition count_owners (owners : list Z) : gmap Z Z :=
  foldl (λ counts owner, <[owner := count_of counts owner + 1]> counts) ∅ owners.

(** The search downwards for a shard of [from] among the first [n]. *)
Fixpoint last_owned (from : Z) (owners : list Z) (n : nat) : option nat :=
  match n with
  | O => None
  | S n => if decide (owners !! n = Some from) then Some n else last_owned from owners n
  end.

(** The loop over one group; each round moves a shard, so one round per shard
    and a last test are enough.  When no shard is found the loop of the source
    would not end. *)
Fixpoint take_shards (fuel : nat) (gid target from : Z) (st : list Z * gmap Z Z * list nat)
    : option (list Z * gmap Z Z * list nat) :=
  let '(owners, counts, moved) := st in
  match fuel with
  | O => None
  | S fuel =>
      if bool_decide (target < count_of counts from) && bool_decide (count_of counts gid < target) then
        shard ← last_owned from owners (length owners);
        let counts := <[from := count_of counts from - 1]> counts in
        take_shards fuel gid target from
          (<[shard := gid]> owners, <[gid := count_of counts gid + 1]> counts, moved ++ [shard])
      else Some st
  end.

Fixpoint take_all (fuel : nat) (gid target : Z) (ids : list Z) (st : list Z * gmap Z Z * list nat)
    : option (list Z * gmap Z Z * list nat) :=
  match ids with
  | [] => Some st
  | from :: ids =>
      if decide (from = gid) then take_all fuel gid target ids st
      else st ← take_shards fuel gid target from st; take_all fuel gid target ids st
  end.

(** The owner table after the expansion and the shards to move, or [nil]s. *)
Definition PlanAddGroup (st : ShardTopology) (gid : Z) (replicas : list string)
    : option (option (list Z * list nat)) :=
  if bool_decide (is_Some (tp_groups st !! gid) ∨ replicas = []) then Some None
  else
    let owners := tp_shardToGroup st in
    let counts := <[gid := 0]> (count_owners owners) in
    let target := tp_numShards st `quot` (Z.of_nat (size (tp_groups st)) + 1) in
    let ids := sort_ints (allGroupIDsLocked (tp_groups st) ++ [gid]) in
    '(owners, _, moved) ← take_all (S (length owners)) gid target ids (owners, counts, []);
    Some (Some (owners, moved)).
