(* ===== verification/TopologyProps.v ===== *)
(** * The owner table stays total and balanced

    Every key always has a registered owner; the initial assignment is balanced;
    planning the shards of a new group ends, moves as few shards as possible and
    can be carried out with [MoveShard]. *)
From stdpp Require Import prelude gmap sorting strings relations.
From stdpp Require Import options.
From S2P Require Import Prelude Topology.
Local Open Scope Z_scope.

(** ** The invariant *)

Record topo_wf (st : ShardTopology) : Prop := {
  tw_pos : 1 ≤ tp_numShards st;
  tw_len : Z.of_nat (length (tp_shardToGroup st)) = tp_numShards st;
  tw_owned : Forall (λ g, g ∈ dom (tp_groups st)) (tp_shardToGroup st);
  tw_epoch : 1 ≤ tp_epoch st < 2 ^ 63 }.

Inductive topo_step : ShardTopology → ShardTopology → Prop :=
  | topo_register st gid replicas : topo_step st (RegisterGroup st gid replicas).1
  | topo_move st shard gid : tp_epoch st < 2 ^ 63 - 1 → topo_step st (MoveShard st shard gid).1.

Lemma sort_ints_perm l : sort_ints l ≡ₚ l.
Proof. apply merge_sort_Permutation. Qed.
Lemma groupIDs_elem groups g : g ∈ allGroupIDsLocked groups ↔ g ∈ dom groups.
Proof. unfold allGroupIDsLocked. by rewrite sort_ints_perm, elem_of_elements. Qed.
Lemma groupIDs_NoDup groups : NoDup (allGroupIDsLocked groups).
Proof. unfold allGroupIDsLocked. rewrite sort_ints_perm. apply NoDup_elements. Qed.
Lemma groupIDs_length groups : length (allGroupIDsLocked groups) = size groups.
Proof. unfold allGroupIDsLocked. rewrite sort_ints_perm. by rewrite <-size_dom. Qed.

Lemma Register_wf st gid replicas : topo_wf st → topo_wf (RegisterGroup st gid replicas).1.
Proof.
  intros [Hp Hl Ho He]. unfold RegisterGroup. case_bool_decide; [done|]. destruct (_ !! _); [done|].
  split; [done|done| |done]. cbn. eapply Forall_impl; [exact Ho|]. cbn. intros g Hg. rewrite dom_insert_L. set_solver.
Qed.
Lemma Move_wf st shard gid : topo_wf st → tp_epoch st < 2 ^ 63 - 1 → topo_wf (MoveShard st shard gid).1.
Proof.
  intros [Hp Hl Ho He] Hlt. unfold MoveShard. case_bool_decide; [done|]. destruct (_ !! gid) eqn:Eg; [|done].
  split; cbn.
  - done.
  - by rewrite length_insert.
  - apply Forall_insert; [done|]. by eapply elem_of_dom_2.
  - rewrite wrapS64_id by (unfold isS64; lia). lia.
Qed.
Lemma topo_step_wf st st' : topo_step st st' → topo_wf st → topo_wf st'.
Proof. destruct 1; eauto using Register_wf, Move_wf. Qed.

(** ** Counting the shards of a group *)

Definition shards_of (g : Z) (owners : list Z) : nat := length (filter (λ o, o = g) owners).

Lemma shards_of_cons g o owners : shards_of g (o :: owners) = ((if decide (o = g) then 1 else 0) + shards_of g owners)%nat.
Proof. unfold shards_of. rewrite filter_cons. by case_decide. Qed.
Lemma shards_of_insert g owners i o x : owners !! i = Some o →
  (shards_of g (<[i := x]> owners) + (if decide (o = g) then 1 else 0) =
   shards_of g owners + (if decide (x = g) then 1 else 0))%nat.
Proof.
  revert i. induction owners as [|y owners IH]; intros [|i] Hi; try done.
  - injection Hi as ->. cbn [insert list_insert]. rewrite !shards_of_cons. lia.
  - change (<[S i := x]> (y :: owners)) with (y :: <[i := x]> owners). rewrite !shards_of_cons.
    specialize (IH i Hi). lia.
Qed.

(** Owners drawn from a list of groups: the counts add up. *)
Lemma shards_of_sum ids owners : NoDup ids → Forall (λ g, g ∈ ids) owners →
  sum_list_with (λ g, shards_of g owners) ids = length owners.
Proof.
  intros Hnd Ho. induction owners as [|o owners IH].
  { clear. induction ids; [done|]. cbn. done. }
  apply Forall_cons in Ho as [Hin Ho]. rewrite length_cons, <-(IH Ho). clear IH Ho.
  induction ids as [|g ids IH]; [by apply not_elem_of_nil in Hin|].
  apply NoDup_cons in Hnd as [Hg Hnd]. cbn [sum_list_with]. rewrite shards_of_cons.
  destruct (decide (o = g)) as [->|Hne].
  - assert (∀ l, g ∉ l → sum_list_with (λ g0, shards_of g0 (g :: owners)) l = sum_list_with (λ g0, shards_of g0 owners) l)
      as ->; [|lia|done].
    intros l Hl. induction l as [|x l IHl]; [done|]. cbn [sum_list_with].
    apply not_elem_of_cons in Hl as [Hx Hl]. rewrite shards_of_cons, decide_False by done. by rewrite IHl.
  - apply elem_of_cons in Hin as [->|Hin]; [done|]. rewrite (IH Hnd Hin). lia.
Qed.

Lemma count_of_insert counts g x h : count_of (<[g := x]> counts) h = if decide (g = h) then x else count_of counts h.
Proof. unfold count_of. case_decide; [subst; by rewrite lookup_insert_eq|by rewrite lookup_insert_ne]. Qed.

Lemma count_owners_spec owners g : count_of (count_owners owners) g = Z.of_nat (shards_of g owners).
Proof.
  unfold count_owners. assert (∀ counts, count_of (foldl (λ counts owner, <[owner := count_of counts owner + 1]> counts)
    counts owners) g = count_of counts g + Z.of_nat (shards_of g owners)) as ->.
  { induction owners as [|o owners IH]; intros counts; [cbn; lia|].
    cbn [foldl]. rewrite IH, count_of_insert, shards_of_cons. case_decide; subst; lia. }
  done.
Qed.

Lemma last_owned_spec from owners n :
  match last_owned from owners n with
  | Some i => (i < n)%nat ∧ owners !! i = Some from
  | None => ∀ i, (i < n)%nat → owners !! i ≠ Some from
  end.
Proof.
  induction n as [|n IH]; cbn; [lia|]. case_decide; [split; [lia|done]|].
  destruct (last_owned _ _ _) as [i|]; [destruct IH; split; [lia|done]|].
  intros i Hi. destruct (decide (i = n)) as [->|]; [done|]. apply IH. lia.
Qed.
Lemma shards_of_pos g owners : (0 < shards_of g owners)%nat → ∃ i, owners !! i = Some g.
Proof.
  unfold shards_of. destruct (filter _ owners) as [|x l] eqn:E; [cbn; lia|]. intros _.
  assert (x ∈ filter (λ o, o = g) owners) as Hx by (rewrite E; left).
  apply list_elem_of_filter in Hx as [-> Hx]. by apply list_elem_of_lookup_1.
Qed.

(** ** The plan *)

(** What holds of owners, counts and moved shards throughout the loops, from
    the owners [old] before. *)
Record plan_ok (gid target : Z) (old : list Z) (st : list Z * gmap Z Z * list nat) : Prop := {
  pl_counts : ∀ g, count_of st.1.2 g = Z.of_nat (shards_of g st.1.1);
  pl_len : length st.1.1 = length old;
  pl_nodup : NoDup st.2;
  pl_moved : ∀ i o, old !! i = Some o → st.1.1 !! i = Some (if decide (i ∈ st.2) then gid else o);
  pl_range : Forall (λ i, (i < length old)%nat) st.2;
  pl_new : Z.of_nat (length st.2) = Z.of_nat (shards_of gid st.1.1) ∧ Z.of_nat (shards_of gid st.1.1) ≤ target;
  pl_keep : ∀ g, g ≠ gid → (shards_of g st.1.1 ≤ shards_of g old)%nat ∧
    Z.min target (Z.of_nat (shards_of g old)) ≤ Z.of_nat (shards_of g st.1.1) }.

(** One shard of [from] moves. *)
Lemma plan_ok_move gid target old owners counts moved from shard :
  plan_ok gid target old (owners, counts, moved) → from ≠ gid →
  target < count_of counts from → count_of counts gid < target → owners !! shard = Some from →
  plan_ok gid target old
    (<[shard := gid]> owners, <[gid := count_of (<[from := count_of counts from - 1]> counts) gid + 1]>
       (<[from := count_of counts from - 1]> counts), moved ++ [shard]).
Proof.
  intros [Hc Hl Hn Hm Hr [Hn1 Hn2] Hk] Hne Hfrom Hgid Hsh. cbn [fst snd] in *.
  pose proof (λ g, shards_of_insert g _ _ _ gid Hsh) as Hins.
  assert (shard < length old)%nat as Hlt by (rewrite <-Hl; by eapply lookup_lt_Some).
  destruct (lookup_lt_is_Some_2 old shard Hlt) as [o Ho].
  assert (shard ∉ moved) as Hnew.
  { intros Hin. specialize (Hm _ _ Ho). rewrite decide_True in Hm by done. congruence. }
  rewrite Hc in Hfrom, Hgid.
  split; cbn [fst snd].
  - intros g. rewrite !count_of_insert. specialize (Hins g). pose proof (Hc g). pose proof (Hc gid). pose proof (Hc from).
    repeat case_decide; subst; try done; lia.
  - by rewrite length_insert.
  - apply NoDup_app. split_and!; [done| |apply NoDup_singleton]. intros x Hx ->%list_elem_of_singleton. done.
  - intros i o' Ho'. destruct (decide (i = shard)) as [->|Hi].
    + rewrite list_lookup_insert_eq by (rewrite Hl; done). rewrite decide_True; [done|]. set_solver.
    + rewrite list_lookup_insert_ne by done. rewrite (Hm _ _ Ho'). f_equal.
      assert (i ∈ moved ++ [shard] ↔ i ∈ moved) as Heq by (rewrite elem_of_app, list_elem_of_singleton; tauto).
      do 2 case_decide; try done; exfalso; tauto.
  - apply Forall_app. split; [done|]. by apply Forall_singleton.
  - specialize (Hins gid). rewrite length_app. cbn [length]. repeat case_decide; try done; lia.
  - intros g Hg. specialize (Hins g). specialize (Hk g Hg). repeat case_decide; subst; try done; lia.
Qed.

Lemma take_shards_ok gid target old from fuel : ∀ st,
  plan_ok gid target old st → from ≠ gid → 0 ≤ target → (shards_of from st.1.1 < fuel)%nat →
  ∃ st', take_shards fuel gid target from st = Some st' ∧ plan_ok gid target old st' ∧
    (count_of st'.1.2 from ≤ target ∨ target ≤ count_of st'.1.2 gid) ∧
    (∀ g, g ≠ gid → (shards_of g st'.1.1 ≤ shards_of g st.1.1)%nat) ∧
    (shards_of gid st.1.1 ≤ shards_of gid st'.1.1)%nat.
Proof.
  induction fuel as [|fuel IH]; intros [[owners counts] moved] Hok Hne Ht Hf; [lia|]. cbn [take_shards].
  destruct (bool_decide (target < count_of counts from)) eqn:E1; cbn [andb].
  2:{ apply bool_decide_eq_false in E1. eexists. split_and!; [done|done|left; cbn; lia|done|done]. }
  destruct (bool_decide (count_of counts gid < target)) eqn:E2.
  2:{ apply bool_decide_eq_false in E2. eexists. split_and!; [done|done|right; cbn; lia|done|done]. }
  apply bool_decide_eq_true in E1, E2. pose proof (pl_counts _ _ _ _ Hok from) as Hc. cbn [fst snd] in Hc.
  pose proof (last_owned_spec from owners (length owners)) as Hlo.
  destruct (last_owned from owners (length owners)) as [shard|].
  2:{ destruct (shards_of_pos from owners) as [i Hi]; [lia|]. exfalso.
      apply (Hlo i); [by eapply lookup_lt_Some|done]. }
  destruct Hlo as [_ Hsh]. cbn [mbind option_bind].
  pose proof (shards_of_insert from _ _ _ gid Hsh) as Hins. rewrite decide_True, decide_False in Hins by done.
  destruct (IH _ (plan_ok_move _ _ _ _ _ _ _ _ Hok Hne E1 E2 Hsh) Hne Ht) as (st' & Hst & Hok' & Hend & Hmono & Hup).
  { cbn [fst snd] in *. lia. }
  exists st'. split_and!; [done|done|done| |].
  - intros g Hg. pose proof (shards_of_insert g _ _ _ gid Hsh) as Hg'. specialize (Hmono g Hg). cbn [fst snd] in *.
    rewrite (decide_False (P := gid = g)) in Hg' by done. destruct (decide (from = g)); lia.
  - pose proof (shards_of_insert gid _ _ _ gid Hsh) as Hg'. cbn [fst snd] in *.
    destruct (decide (from = gid)); [done|]. rewrite decide_True in Hg' by done. lia.
Qed.

Lemma take_all_ok gid target old fuel ids : ∀ st,
  plan_ok gid target old st → 0 ≤ target → (length old < fuel)%nat →
  ∃ st', take_all fuel gid target ids st = Some st' ∧ plan_ok gid target old st' ∧
    (∀ g, g ≠ gid → (shards_of g st'.1.1 ≤ shards_of g st.1.1)%nat) ∧
    (shards_of gid st.1.1 ≤ shards_of gid st'.1.1)%nat ∧
    (∀ g, g ∈ ids → g ≠ gid → Z.of_nat (shards_of g st'.1.1) ≤ target ∨ target ≤ Z.of_nat (shards_of gid st'.1.1)).
Proof.
  induction ids as [|from ids IH]; intros st Hok Ht Hf; cbn [take_all].
  { exists st. split_and!; try done. intros g ?%not_elem_of_nil. done. }
  destruct (decide (from = gid)) as [->|Hne].
  { destruct (IH st Hok Ht Hf) as (st' & E & Hok' & H1 & H2 & H3). exists st'. split_and!; try done.
    intros g [->|Hg]%elem_of_cons Hgne; [done|by apply H3]. }
  destruct (take_shards_ok gid target old from fuel st Hok Hne Ht) as (st1 & E1 & Hok1 & Hend & Hm1 & Hu1).
  { assert (shards_of from st.1.1 ≤ length st.1.1)%nat by (apply length_filter). rewrite (pl_len _ _ _ _ Hok) in *. lia. }
  rewrite E1. cbn [mbind option_bind].
  destruct (IH st1 Hok1 Ht Hf) as (st' & E & Hok' & H1 & H2 & H3). exists st'. split_and!; [done|done| |lia|].
  - intros g Hg. specialize (H1 g Hg). specialize (Hm1 g Hg). lia.
  - intros g [->|Hg]%elem_of_cons Hgne; [|by apply H3].
    rewrite !(pl_counts _ _ _ _ Hok1) in Hend. specialize (H1 _ Hgne). lia.
Qed.

(** If the new group got fewer shards than its share, the old ones would hold
    fewer than there are. *)
Lemma sum_bound (f : Z → nat) (ids : list Z) c : (∀ g, g ∈ ids → Z.of_nat (f g) ≤ c) → Z.of_nat (sum_list_with f ids) ≤ c * Z.of_nat (length ids).
Proof.
  induction ids as [|g ids IH]; intros Hb; [cbn; lia|]. cbn [sum_list_with length].
  pose proof (Hb g ltac:(left)). specialize (IH ltac:(intros; apply Hb; by right)). lia.
Qed.

Lemma plan_total st gid replicas : topo_wf st → tp_groups st !! gid = None → replicas ≠ [] →
  let target := tp_numShards st / (Z.of_nat (size (tp_groups st)) + 1) in
  ∃ owners counts moved, PlanAddGroup st gid replicas = Some (Some (owners, moved)) ∧
    plan_ok gid target (tp_shardToGroup st) (owners, counts, moved) ∧ Z.of_nat (shards_of gid owners) = target.
Proof.
  intros [Hp Hl Ho He] Hg Hr target. unfold PlanAddGroup.
  rewrite (bool_decide_false (is_Some (tp_groups st !! gid) ∨ replicas = [])) by (rewrite Hg; intros [[? ?]|?]; done).
  set (k := Z.of_nat (size (tp_groups st))). set (old := tp_shardToGroup st) in *.
  assert (0 ≤ target ∧ target * (k + 1) ≤ tp_numShards st) as [Ht0 Ht].
  { unfold target. fold k. split; [apply Z.div_pos; lia|]. pose proof (Z.mul_div_le (tp_numShards st) (k + 1) ltac:(lia)). lia. }
  replace (tp_numShards st `quot` (k + 1)) with target
    by (unfold target; fold k; symmetry; apply Z.quot_div_nonneg; lia).
  clearbody target.
  assert (shards_of gid old = 0%nat) as Hz.
  { destruct (decide (shards_of gid old = 0%nat)) as [|Hnz]; [done|]. destruct (shards_of_pos gid old) as [i Hi]; [lia|].
    rewrite Forall_forall in Ho. apply list_elem_of_lookup_2, Ho in Hi. by apply not_elem_of_dom in Hg. }
  assert (plan_ok gid target old (old, <[gid := 0]> (count_owners old), [])) as Hok.
  { split; cbn [fst snd].
    - intros g. rewrite count_of_insert, count_owners_spec. case_decide; subst; lia.
    - done.
    - constructor.
    - intros i o Hi. by rewrite Hi, decide_False by apply not_elem_of_nil.
    - constructor.
    - rewrite Hz. cbn. lia.
    - intros g _. lia. }
  destruct (take_all_ok gid target old (S (length old))
    (sort_ints (allGroupIDsLocked (tp_groups st) ++ [gid])) _ Hok Ht0 ltac:(lia))
    as ([[owners counts] moved] & E & Hok' & _ & _ & Hend).
  exists owners, counts, moved. rewrite E. cbn [mbind option_bind]. split_and!; [done|done|].
  destruct (pl_new _ _ _ _ Hok') as [_ Hle]. cbn [fst snd] in *.
  destruct (decide (Z.of_nat (shards_of gid owners) = target)) as [|Hlt]; [done|]. exfalso.
  set (ids := allGroupIDsLocked (tp_groups st)) in *.
  assert (gid ∉ ids) as Hnin by (unfold ids; rewrite groupIDs_elem; by apply not_elem_of_dom).
  assert (sum_list_with (λ g, shards_of g owners) (gid :: ids) = length owners) as Hsum.
  { apply shards_of_sum; [apply NoDup_cons; split; [done|apply groupIDs_NoDup]|].
    apply Forall_forall. intros x [i Hi]%list_elem_of_lookup_1.
    assert (i < length old)%nat as Hlen by (rewrite <-(pl_len _ _ _ _ Hok'); by eapply lookup_lt_Some).
    destruct (lookup_lt_is_Some_2 old i Hlen) as [o Hoi]. pose proof (pl_moved _ _ _ _ Hok' i o Hoi) as Hx. cbn [fst snd] in Hx.
    rewrite Hi in Hx. injection Hx as ->. case_decide; [left|right]. unfold ids. rewrite groupIDs_elem.
    rewrite Forall_forall in Ho. apply Ho. by eapply list_elem_of_lookup_2. }
  cbn [sum_list_with] in Hsum. pose proof (pl_len _ _ _ _ Hok') as Hlen. cbn [fst snd] in Hlen.
  pose proof (sum_bound (λ g, shards_of g owners) ids target) as Hb.
  unfold ids in Hb at 3. rewrite groupIDs_length in Hb. fold k in Hb.
  assert (Z.of_nat (sum_list_with (λ g, shards_of g owners) ids) ≤ target * k) by
    (apply Hb; intros g Hgi; destruct (Hend g) as [?|?]; [rewrite sort_ints_perm; set_solver|by intros ->|lia|lia]).
  lia.
Qed.

Lemma MoveShard_all gid moved : ∀ st,
  is_Some (tp_groups st !! gid) → Forall (λ i, Z.of_nat i < tp_numShards st) moved →
  1 ≤ tp_epoch st → tp_epoch st + Z.of_nat (length moved) < 2 ^ 63 →
  foldl (λ st i, (MoveShard st (Z.of_nat i) gid).1) st moved =
  mkTopology (tp_numShards st) (tp_epoch st + Z.of_nat (length moved))
    (foldl (λ os i, <[i := gid]> os) (tp_shardToGroup st) moved) (tp_groups st).
Proof.
  induction moved as [|i moved IH]; intros st Hg Hm He Hb.
  { cbn. rewrite Z.add_0_r. by destruct st. }
  apply Forall_cons in Hm as [Hi Hm]. cbn [length] in Hb. cbn [foldl].
  assert ((MoveShard st (Z.of_nat i) gid).1 = mkTopology (tp_numShards st) (tp_epoch st + 1)
    (<[i := gid]> (tp_shardToGroup st)) (tp_groups st)) as ->.
  { unfold MoveShard. rewrite (bool_decide_false (Z.of_nat i < 0 ∨ tp_numShards st ≤ Z.of_nat i)) by lia.
    destruct Hg as [rs ->]. cbn. rewrite wrapS64_id by (unfold isS64; lia). by rewrite Nat2Z.id. }
  rewrite IH; cbn; [|done|done|lia|lia]. f_equal. lia.
Qed.

Lemma insert_all_lookup (gid : Z) moved : ∀ (os : list Z) i o,
  os !! i = Some o → foldl (λ os i, <[i := gid]> os) os moved !! i = Some (if decide (i ∈ moved) then gid else o).
Proof.
  induction moved as [|j moved IH]; intros os i o Hi; cbn [foldl].
  { by rewrite decide_False by apply not_elem_of_nil. }
  destruct (decide (i = j)) as [->|Hne].
  - rewrite (IH _ _ gid) by (apply list_lookup_insert_eq; by eapply lookup_lt_Some).
    rewrite (decide_True (P := j ∈ j :: moved)) by left. by case_decide.
  - rewrite (IH _ _ o) by (by rewrite list_lookup_insert_ne). f_equal.
    assert (i ∈ j :: moved ↔ i ∈ moved) as Heq by (rewrite elem_of_cons; tauto).
    do 2 case_decide; try done; exfalso; tauto.
Qed.
Lemma insert_all_length (gid : Z) moved : ∀ os : list Z, length (foldl (λ os i, <[i := gid]> os) os moved) = length os.
Proof. induction moved; intros os; [done|]. cbn. by rewrite IHmoved, length_insert. Qed.

(** C36: planning the shards of a new group is total, balanced and minimal. On a
    well-formed topology, for a positive id that is not in use and at least one
    replica, and while the epoch is far enough from 2^63, the nested loops end;
    the new group gets exactly its share n/(k+1) and no shard moves between old
    groups; no old group falls below the share (or below what it had); and
    registering the group and moving the planned shards one by one yields the
    planned table, with one epoch per shard. *)
Theorem plan_add_group st gid replicas :
  topo_wf st → tp_groups st !! gid = None → 0 < gid → replicas ≠ [] →
  let share := tp_numShards st / (Z.of_nat (size (tp_groups st)) + 1) in
  tp_epoch st + share < 2 ^ 63 →
  ∃ owners moved, PlanAddGroup st gid replicas = Some (Some (owners, moved)) ∧
    Z.of_nat (length moved) = share ∧ NoDup moved ∧
    (∀ i o, tp_shardToGroup st !! i = Some o → owners !! i = Some (if decide (i ∈ moved) then gid else o)) ∧
    (∀ g, g ≠ gid → Z.min share (Z.of_nat (shards_of g (tp_shardToGroup st))) ≤ Z.of_nat (shards_of g owners)) ∧
    foldl (λ st i, (MoveShard st (Z.of_nat i) gid).1) (RegisterGroup st gid replicas).1 moved =
      mkTopology (tp_numShards st) (tp_epoch st + share) owners (<[gid := replicas]> (tp_groups st)).
Proof.
  intros Hwf Hg Hpos Hr share Hep. destruct (plan_total st gid replicas Hwf Hg Hr) as (owners & counts & moved & E & Hok & Hs).
  destruct Hok as [Hc Hl Hn Hm Hrg [Hn1 _] Hk]. destruct Hwf as [Hp Hlen Ho He]. cbn [fst snd] in *. fold share in Hs, Hn1, Hk.
  exists owners, moved. split_and!; [done|lia|done|done|intros g Hgne; by apply Hk|].
  assert ((RegisterGroup st gid replicas).1 = mkTopology (tp_numShards st) (tp_epoch st) (tp_shardToGroup st)
    (<[gid := replicas]> (tp_groups st))) as ->.
  { unfold RegisterGroup. rewrite bool_decide_false by (intros [?|?]; [lia|done]). by rewrite Hg. }
  rewrite MoveShard_all; cbn [tp_groups tp_numShards tp_epoch tp_shardToGroup].
  - replace (Z.of_nat (length moved)) with share by lia. f_equal. apply list_eq. intros i.
    destruct (tp_shardToGroup st !! i) as [o|] eqn:Hi.
    + by rewrite (insert_all_lookup _ _ _ _ _ Hi), (Hm _ _ Hi).
    + assert (length (tp_shardToGroup st) ≤ i)%nat by (by apply lookup_ge_None).
      rewrite !lookup_ge_None_2; [done|lia|rewrite insert_all_length; lia].
  - by rewrite lookup_insert_eq.
  - eapply Forall_impl; [exact Hrg|]. cbn. intros. lia.
  - lia.
  - lia.
Qed.

(** ** The initial table *)

(** How many of the first [n] shards are congruent to [j]. *)
Lemma round_robin_count k j n : (j < k)%nat →
  length (filter (λ i, (i mod k)%nat = j) (seq 0 n)) = ((n + (k - 1 - j)) / k)%nat.
Proof.
  intros Hj. induction n as [|n IH].
  { cbn [seq]. rewrite filter_nil. symmetry. apply Nat.div_small. lia. }
  rewrite seq_S, filter_app, length_app, IH, filter_cons, filter_nil. cbn [Nat.add].
  pose proof (Nat.div_mod n k ltac:(lia)) as Hn. pose proof (Nat.mod_upper_bound n k ltac:(lia)) as Hr.
  set (q := (n / k)%nat) in *. set (r := (n mod k)%nat) in *. clearbody q r.
  destruct (decide (r = j)) as [->|Hne]; cbn [length].
  - rewrite <-(Nat.div_unique (n + (k - 1 - j)) k q (k - 1)) by lia.
    rewrite <-(Nat.div_unique (S (n + (k - 1 - j))) k (S q) 0) by lia. lia.
  - destruct (decide (r < j)%nat).
    + rewrite <-(Nat.div_unique (n + (k - 1 - j)) k q (r + (k - 1 - j))) by lia.
      rewrite <-(Nat.div_unique (S (n + (k - 1 - j))) k q (r + (k - j))) by lia. lia.
    + rewrite <-(Nat.div_unique (n + (k - 1 - j)) k (S q) (r - j - 1)) by lia.
      rewrite <-(Nat.div_unique (S (n + (k - 1 - j))) k (S q) (r - j)) by lia. lia.
Qed.

Lemma filter_fmap_length {A B} (f : A → B) (P : B → Prop) `{∀ x, Decision (P x)} l :
  length (filter P (f <$> l)) = length (filter (λ x, P (f x)) l).
Proof. induction l as [|x l IH]; [done|]. rewrite fmap_cons, !filter_cons. case_decide; cbn; congruence. Qed.

(** the initial assignment is total and balanced.  For at least one group
    the constructor does not panic, every shard belongs to a given group, and
    the numbers of shards of any two groups differ by at most one. *)
Theorem new_topology_balanced numShards groups : groups ≠ ∅ → numShards < 2 ^ 63 →
  ∃ st, NewShardTopology numShards groups = Some st ∧ topo_wf st ∧ tp_groups st = groups ∧
    tp_numShards st = (if decide (numShards < 1) then 1024 else numShards) ∧
    ∀ g, g ∈ dom groups →
      let share := tp_numShards st / Z.of_nat (size groups) in
      share ≤ Z.of_nat (shards_of g (tp_shardToGroup st)) ≤ share + 1.
Proof.
  intros Hne Hlt. unfold NewShardTopology. set (n := if decide (numShards < 1) then 1024 else numShards).
  assert (1 ≤ n) as Hn by (unfold n; case_decide; lia). clearbody n.
  set (ids := allGroupIDsLocked groups). assert (length ids = size groups) as Hk by apply groupIDs_length.
  assert (size groups ≠ 0)%nat as Hsz by (by rewrite map_size_non_empty_iff).
  set (f := λ i, default 0 (ids !! (i mod length ids)%nat)).
  assert (∀ i, ids !! (i mod length ids)%nat = Some (f i)) as Hf.
  { intros i. unfold f. destruct (lookup_lt_is_Some_2 ids (i mod length ids)) as [x ->]; [|done].
    apply Nat.mod_upper_bound. lia. }
  assert (mapM (λ i, ids !! (i mod length ids)%nat) (seq 0 (Z.to_nat n)) = Some (f <$> seq 0 (Z.to_nat n))) as ->.
  { apply mapM_Some, Forall2_fmap_r, Forall_Forall2_diag, Forall_forall. intros i _. apply Hf. }
  cbn [mbind option_bind]. eexists. split_and!; [done| |done|done|].
  - split; cbn.
    + done.
    + rewrite length_fmap, length_seq. lia.
    + apply Forall_fmap, Forall_forall. intros i _. cbn. apply groupIDs_elem. by eapply list_elem_of_lookup_2.
    + lia.
  - intros g Hg. cbn [tp_shardToGroup tp_numShards].
    apply groupIDs_elem, list_elem_of_lookup_1 in Hg as [j Hj]. fold ids in Hj.
    assert (j < size groups)%nat as Hjk by (rewrite <-Hk; by eapply lookup_lt_Some).
    assert (shards_of g (f <$> seq 0 (Z.to_nat n)) = length (filter (λ i, (i mod size groups)%nat = j) (seq 0 (Z.to_nat n))))
      as ->.
    { unfold shards_of. rewrite filter_fmap_length. f_equal. apply list_filter_iff. intros i.
      specialize (Hf i). rewrite Hk in Hf. split.
      - intros <-. eapply NoDup_lookup; [apply groupIDs_NoDup|exact Hf|exact Hj].
      - intros Hi. rewrite Hi, Hj in Hf. congruence. }
    rewrite round_robin_count by done. rewrite Nat2Z.inj_div.
    set (k := size groups) in *. clearbody k. clear Hf f ids Hk Hj Hne.
    assert (Z.of_nat (Z.to_nat n + (k - 1 - j)) = n + (Z.of_nat k - 1 - Z.of_nat j)) as -> by lia.
    split.
    + apply Z.div_le_mono; lia.
    + replace (n / Z.of_nat k + 1) with ((n + 1 * Z.of_nat k) / Z.of_nat k) by (rewrite Z.div_add; lia).
      apply Z.div_le_mono; lia.
Qed.

Lemma resolve_owned Sum64String st key : topo_wf st →
  ∃ gid, ResolveWithEpoch Sum64String st key = Some (gid, tp_epoch st) ∧ is_Some (tp_groups st !! gid).
Proof.
  intros [Hp Hl Ho _]. unfold ResolveWithEpoch, shardForKey.
  pose proof (Z.mod_pos_bound (Sum64String key) (tp_numShards st) ltac:(lia)).
  destruct (lookup_lt_is_Some_2 (tp_shardToGroup st) (Z.to_nat (Sum64String key mod tp_numShards st))) as [g Hg]; [lia|].
  rewrite Hg. exists g. split; [done|]. apply elem_of_dom. rewrite Forall_forall in Ho. apply Ho. by eapply list_elem_of_lookup_2.
Qed.

(** every key has an owner.  However groups are registered and shards are
    moved, the group a key resolves to is a registered one (no index is out of
    range), and the epoch never goes back. *)
Theorem key_has_owner Sum64String st0 st key :
  topo_wf st0 → rtc topo_step st0 st → 0 ≤ Sum64String key →
  tp_epoch st0 ≤ tp_epoch st ∧
  ∃ gid, ResolveWithEpoch Sum64String st key = Some (gid, tp_epoch st) ∧ is_Some (tp_groups st !! gid).
Proof.
  intros Hwf Hr Hh.
  assert (topo_wf st ∧ tp_epoch st0 ≤ tp_epoch st) as [Hwf' Hle].
  { induction Hr as [|s1 s2 s3 Hstep _ IH]; [done|]. pose proof (topo_step_wf _ _ Hstep Hwf) as Hwf'.
    destruct (IH Hwf') as [? ?]. split; [done|]. enough (tp_epoch s1 ≤ tp_epoch s2) by lia. destruct Hstep as [st1|st1 ?? Hlt].
    - unfold RegisterGroup. case_bool_decide; [done|]. by destruct (_ !! _).
    - unfold MoveShard. case_bool_decide; [done|]. destruct (_ !! _); [|done]. cbn.
      destruct Hwf as [_ _ _ ?]. rewrite wrapS64_id by (unfold isS64; lia). lia. }
  split; [done|]. by apply resolve_owned.
Qed.

(** ** Witnesses: two groups, seven shards *)
Definition tp_wit_groups : gmap Z (list string) := {[1 := ["a1"]; 2 := ["b1"]]}.
Definition tp_wit : ShardTopology := mkTopology 7 1 [1; 2; 1; 2; 1; 2; 1] tp_wit_groups.
Lemma tp_wit_wf : topo_wf tp_wit.
Proof. split; [done|done| |done]. apply (bool_decide_unpack (Forall _ _)). by vm_compute. Qed.

Lemma new_topology_balanced_witness :
  ∃ st, NewShardTopology 7 tp_wit_groups = Some st ∧ 3 ≤ Z.of_nat (shards_of 2 (tp_shardToGroup st)) ≤ 4.
Proof.
  destruct (new_topology_balanced 7 tp_wit_groups ltac:(done) ltac:(lia)) as (st & E & _ & _ & Hn & Hb).
  exists st. split; [done|]. specialize (Hb 2 ltac:(by apply (bool_decide_unpack (2 ∈ dom tp_wit_groups)))).
  cbv zeta in Hb. rewrite Hn in Hb. exact Hb.
Defined.

Lemma plan_add_group_witness :
  ∃ owners moved, PlanAddGroup tp_wit 3 ["c1"] = Some (Some (owners, moved)) ∧ Z.of_nat (length moved) = 2.
Proof.
  destruct (plan_add_group tp_wit 3 ["c1"] tp_wit_wf ltac:(done) ltac:(lia) ltac:(done) ltac:(done))
    as (owners & moved & E & Hl & _).
  exists owners, moved. split; [exact E|exact Hl].
Defined.

Lemma key_has_owner_witness :
  let st := (MoveShard tp_wit 3 1).1 in
  ∃ gid, ResolveWithEpoch (λ _, 10) st "k" = Some (gid, 2) ∧ is_Some (tp_groups st !! gid).
Proof.
  intros st. refine (proj2 (key_has_owner (λ _, 10) tp_wit st "k" tp_wit_wf _ _)).
  - apply rtc_once. by apply topo_move.
  - done.
Defined.
