(* ===== verification/Pb.v ===== *)
(** * api/pb/kvraft.proto: the messages of the key-value service

    One record per message, fields in order; int32 and int64 fields are [Z].
    [rpc_result] is what a stub returns: an error of the call, a nil message
    without error, or a message.  The text functions of package strings that
    the users of the messages need are here as well. *)
From stdpp Require Import prelude gmap strings.
From stdpp Require Import options.
From S2P Require Import Prelude KvApi.
Local Open Scope Z_scope.

Inductive rpc_result (A : Type) :=
  | RpcErr (e : string)
  | RpcNil
  | RpcResp (a : A).
Arguments RpcErr {A} e.
Arguments RpcNil {A}.
Arguments RpcResp {A} a.

(** Where a shard went: group, replicas, epoch. *)
Record pb_hint := { hint_group_id : Z; hint_replicas : list string; hint_epoch : Z }.
Definition no_hint : pb_hint := {| hint_group_id := 0; hint_replicas := []; hint_epoch := 0 |}.

Record GetResponse := {
  GetResponse_value : string; GetResponse_version : Z; GetResponse_error : string; GetResponse_expires : Z;
  GetResponse_hint : pb_hint }.
Record PutResponse := { PutResponse_error : string; PutResponse_hint : pb_hint }.
Record DeleteResponse := { DeleteResponse_error : string; DeleteResponse_hint : pb_hint }.
Record KeyValue := { kv_key : string; kv_value : string; kv_version : Z; kv_expires : Z }.
Record ScanResponse := { ScanResponse_items : list KeyValue; ScanResponse_error : string }.
#[global] Instance KeyValue_eq_dec : EqDecision KeyValue.
Proof. solve_decision. Defined.

Record PutRequest := {
  PutRequest_key : string; PutRequest_value : string; PutRequest_version : Z; PutRequest_ttl_seconds : Z }.

Inductive WatchRequest := WatchCreate (key : string) (prefix : bool) | WatchCancel (watch_id : Z) | WatchNone.
Record WatchEvent := {
  we_watch_id : Z; we_key : string; we_old_value : string; we_new_value : string;
  we_new_version : Z; we_event_type : string }.

Record SetShardStateRequest := {
  ssr_shard_id : Z; ssr_state : ShardState; ssr_target_group : Z; ssr_topology_epoch : Z;
  ssr_target_replicas : list string }.
Record ShardStateEntry := { sse_shard_id : Z; sse_state : ShardState; sse_target_group : Z }.
Record CleanupShardResponse := { CleanupShardResponse_error : string; CleanupShardResponse_deleted : Z }.

Record CommitTxRequest := {
  CommitTxRequest_tx_id : string; CommitTxRequest_write_keys : list WriteKey;
  CommitTxRequest_decision_only : bool; CommitTxRequest_participant_group_ids : list Z }.
Record AbortTxRequest := {
  AbortTxRequest_tx_id : string; AbortTxRequest_decision_only : bool; AbortTxRequest_participant_group_ids : list Z }.
Record PrepareTxRequest := {
  PrepareTxRequest_tx_id : string; PrepareTxRequest_read_keys : list ReadKey;
  PrepareTxRequest_write_keys : list WriteKey; PrepareTxRequest_timeout_ms : Z;
  PrepareTxRequest_coordinator_group_id : Z; PrepareTxRequest_participant_group_ids : list Z }.
Record ResolveTxStatusResponse := {
  ResolveTxStatusResponse_status : string; ResolveTxStatusResponse_prepared_at : Z;
  ResolveTxStatusResponse_write_keys : list WriteKey; ResolveTxStatusResponse_error : string;
  ResolveTxStatusResponse_coordinator_group_id : Z; ResolveTxStatusResponse_participant_group_ids : list Z }.
Record QueryTxDecisionResponse := { QueryTxDecisionResponse_decision : string; QueryTxDecisionResponse_error : string }.

Record pb_RaftGroupConfig := { prg_group_id : Z; prg_replicas : list string; prg_leader_idx : Z }.
Record SetRouterAndRecoverRequest := {
  srr_groups : list pb_RaftGroupConfig; srr_num_shards : Z; srr_virtual_node_count : Z;
  srr_connect_timeout_ms : Z; srr_request_timeout_ms : Z; srr_preferred_replicas : Z }.

(** ** Package strings, on ASCII texts *)

Definition lower_ascii (c : Ascii.ascii) : Ascii.ascii :=
  let n := Ascii.nat_of_ascii c in
  if bool_decide (65 ≤ n ∧ n ≤ 90)%nat then Ascii.ascii_of_nat (n + 32) else c.
Fixpoint ToLower (s : string) : string :=
  match s with EmptyString => EmptyString | String c s => String (lower_ascii c) (ToLower s) end.

Definition is_space (c : Ascii.ascii) : bool :=
  let n := Ascii.nat_of_ascii c in bool_decide (n = 32 ∨ 9 ≤ n ∧ n ≤ 13)%nat.
Fixpoint TrimLeft (s : string) : string :=
  match s with String c s' => if is_space c then TrimLeft s' else s | EmptyString => EmptyString end.
(** Drops the spaces at the end. *)
Fixpoint TrimRight (s : string) : string :=
  match s with
  | EmptyString => EmptyString
  | String c s => match TrimRight s with
                  | EmptyString => if is_space c then EmptyString else String c EmptyString
                  | s => String c s
                  end
  end.
Definition TrimSpace (s : string) : string := TrimRight (TrimLeft s).
