(* ===== verification/Router.v ===== *)
(** * pkg/sharding/router.go: routing requests to the replicas of a group

    The router keeps a client per reachable replica (here: the set of connected
    addresses), the last known leader of each group and the topology.  The answer
    of a replica is an argument, as are whether an address can be dialled, the
    clock and the hash of a key.  A call tries each candidate at most once, so the
    answers are a function of the address.  A result [None] is a panic. *)
From stdpp Require Import prelude gmap sorting strings.
From stdpp Require Import options.
From S2P Require Import Prelude KvApi Topology Pb.
Local Open Scope Z_scope.

Record RaftGroupConfig := { rg_GroupID : Z; rg_Replicas : list string; rg_LeaderIdx : Z }.
Record ShardingConfig := {
  sc_Groups : list RaftGroupConfig; sc_NumShards : Z; sc_VirtualNodeCount : Z; sc_PreferredReplicas : Z;
  sc_ConnectTimeout : Z; sc_RequestTimeout : Z; sc_ShardToGroup : list Z; sc_TopologyEpoch : Z }.

Record ShardRouter := mkRouter {
  rt_config : ShardingConfig; rt_topology : option ShardTopology;
  rt_groupClients : gmap Z (gset string); rt_groupConns : gmap Z (gset string);
  rt_groupsByID : gmap Z RaftGroupConfig;
  rt_leaderCache : gmap Z string; rt_leaderCacheUpdatedAt : gmap Z Z; rt_leaderCacheTTL : Z }.

Inductive router_err :=
  | ErrNoGroups | ErrInvalidGroupID (gid : Z) | ErrNoReplicas (gid : Z) | ErrDuplicateGroup (gid : Z)
  | ErrInvalidOwnership | ErrUnreachable (gid : Z) | ErrNoGroupForKey (key : string) | ErrNoGroupsConfigured
  | ErrRpc (e : string) | ErrEmptyResponse (what replica : string) | ErrGroupWrongLeader (gid : Z) (replica : string)
  | ErrNoAvailableReplica (gid : Z) | ErrTriggerRecovery (gid : Z).

Definition defaultLeaderCacheTTL : Z := 2000000000.
Definition defaultPerReplicaRPCTimeout : Z := 220000000.

Definition with_clients (clients conns : gmap Z (gset string)) (r : ShardRouter) : ShardRouter :=
  mkRouter (rt_config r) (rt_topology r) clients conns (rt_groupsByID r) (rt_leaderCache r)
    (rt_leaderCacheUpdatedAt r) (rt_leaderCacheTTL r).
Definition with_leaders (cache : gmap Z string) (at_ : gmap Z Z) (r : ShardRouter) : ShardRouter :=
  mkRouter (rt_config r) (rt_topology r) (rt_groupClients r) (rt_groupConns r) (rt_groupsByID r) cache at_
    (rt_leaderCacheTTL r).
Definition with_topology (t : option ShardTopology) (r : ShardRouter) : ShardRouter :=
  mkRouter (rt_config r) t (rt_groupClients r) (rt_groupConns r) (rt_groupsByID r) (rt_leaderCache r)
    (rt_leaderCacheUpdatedAt r) (rt_leaderCacheTTL r).
Definition with_groups (groups : gmap Z RaftGroupConfig) (r : ShardRouter) : ShardRouter :=
  mkRouter (rt_config r) (rt_topology r) (rt_groupClients r) (rt_groupConns r) groups (rt_leaderCache r)
    (rt_leaderCacheUpdatedAt r) (rt_leaderCacheTTL r).

(** [_, ok := r.groupClients[gid][addr]]; a missing inner map reads as empty. *)
Definition has_client (r : ShardRouter) (gid : Z) (addr : string) : bool :=
  bool_decide (addr ∈ default ∅ (rt_groupClients r !! gid)).
(** [m[gid][addr] = ...]; a missing inner map panics. *)
Definition put_addr (m : gmap Z (gset string)) (gid : Z) (addr : string) : option (gmap Z (gset string)) :=
  s ← m !! gid; Some (<[gid := {[addr]} ∪ s]> m).
Definition put_client (r : ShardRouter) (gid : Z) (addr : string) : option ShardRouter :=
  conns ← put_addr (rt_groupConns r) gid addr;
  clients ← put_addr (rt_groupClients r) gid addr;
  Some (with_clients clients conns r).

(** ** Construction *)

Definition set_defaults (cfg : ShardingConfig) : ShardingConfig :=
  let or_default x d := if decide (x ≤ 0) then d else x in
  {| sc_Groups := sc_Groups cfg; sc_NumShards := sc_NumShards cfg;
     sc_VirtualNodeCount := or_default (sc_VirtualNodeCount cfg) 150;
     sc_PreferredReplicas := or_default (sc_PreferredReplicas cfg) 3;
     sc_ConnectTimeout := or_default (sc_ConnectTimeout cfg) 2000000000;
     sc_RequestTimeout := or_default (sc_RequestTimeout cfg) 1200000000;
     sc_ShardToGroup := sc_ShardToGroup cfg; sc_TopologyEpoch := sc_TopologyEpoch cfg |}.

(** The loop that checks and registers the groups. *)
Fixpoint register_groups (gs : list RaftGroupConfig) (byID : gmap Z RaftGroupConfig)
    : router_err + gmap Z RaftGroupConfig :=
  match gs with
  | [] => inr byID
  | g :: gs =>
      if decide (rg_GroupID g ≤ 0) then inl (ErrInvalidGroupID (rg_GroupID g))
      else if decide (rg_Replicas g = []) then inl (ErrNoReplicas (rg_GroupID g))
      else match byID !! rg_GroupID g with
           | Some _ => inl (ErrDuplicateGroup (rg_GroupID g))
           | None => register_groups gs (<[rg_GroupID g := g]> byID)
           end
  end.

Section dial.
Variable dial : string → bool.

Fixpoint connect_replicas (gid : Z) (replicas : list string) (r : ShardRouter) : option ShardRouter :=
  match replicas with
  | [] => Some r
  | addr :: replicas => r ← (if dial addr then put_client r gid addr else Some r); connect_replicas gid replicas r
  end.

(** One round of [initConnections]; the second component is its error. *)
Definition init_group (now : Z) (g : RaftGroupConfig) (r : ShardRouter) : option (ShardRouter * option router_err) :=
  let gid := rg_GroupID g in
  let replicas := rg_Replicas g in
  r ← connect_replicas gid replicas
        (with_clients (<[gid := ∅]> (rt_groupClients r)) (<[gid := ∅]> (rt_groupConns r)) r);
  let i := Z.rem (rg_LeaderIdx g) (Z.of_nat (length replicas)) in
  leader ← (if decide (0 ≤ i) then replicas !! Z.to_nat i else None);
  let r := if has_client r gid leader
           then with_leaders (<[gid := leader]> (rt_leaderCache r)) (<[gid := now]> (rt_leaderCacheUpdatedAt r)) r
           else r in
  Some (r, if decide (default ∅ (rt_groupClients r !! gid) = ∅) then Some (ErrUnreachable gid) else None).
Fixpoint initConnections (now : Z) (gs : list RaftGroupConfig) (r : ShardRouter) : option (ShardRouter * option router_err) :=
  match gs with
  | [] => Some (r, None)
  | g :: gs =>
      '(r, e) ← init_group now g r;
      match e with
      | Some e => Some (r, Some e)
      | None => initConnections now gs r
      end
  end.

Definition NewShardRouter (now : Z) (cfg : ShardingConfig) : option (router_err + ShardRouter) :=
  let cfg := set_defaults cfg in
  if decide (sc_Groups cfg = []) then Some (inl ErrNoGroups)
  else
    match register_groups (sc_Groups cfg) ∅ with
    | inl e => Some (inl e)
    | inr byID =>
        topology ←
          (if decide (sc_ShardToGroup cfg = []) then Some <$> NewShardTopology (sc_NumShards cfg) (rg_Replicas <$> byID)
           else NewShardTopologyWithOwnership (sc_NumShards cfg) (rg_Replicas <$> byID) (sc_ShardToGroup cfg) (sc_TopologyEpoch cfg));
        match topology with
        | None => Some (inl ErrInvalidOwnership)
        | Some st =>
            '(r, e) ← initConnections now (sc_Groups cfg) (mkRouter cfg (Some st) ∅ ∅ byID ∅ ∅ defaultLeaderCacheTTL);
            match e with
            | Some e => Some (inl e)
            | None => Some (inr r)
            end
        end
    end.
End dial.

(** ** Resolution *)

Section hash.
Variable Sum64String : string → Z.

Definition router_ResolveWithEpoch (r : ShardRouter) (key : string) : option (Z * Z) :=
  match rt_topology r with
  | None => Some (-1, 0)
  | Some st => ResolveWithEpoch Sum64String st key
  end.
Definition router_Resolve (r : ShardRouter) (key : string) : option Z := fst <$> router_ResolveWithEpoch r key.
Definition groupForKey (r : ShardRouter) (key : string) : option (router_err + Z) :=
  gid ← router_Resolve r key;
  Some (if decide (gid < 0) then inl (ErrNoGroupForKey key) else inr gid).
End hash.
Definition router_GroupIDs (r : ShardRouter) : list Z := sort_ints (elements (dom (rt_groupsByID r))).
Definition router_Ownership (r : ShardRouter) : list Z := match rt_topology r with None => [] | Some st => tp_shardToGroup st end.
Definition router_GroupForShard (r : ShardRouter) (shard : Z) : Z * bool :=
  match rt_topology r with None => (0, false) | Some st => GroupForShard st shard end.
(** [None] inside: no plan. *)
Definition router_PlanAddGroup (r : ShardRouter) (gid : Z) (replicas : list string) : option (option (list Z * list nat)) :=
  match rt_topology r with None => Some None | Some st => PlanAddGroup st gid replicas end.
Definition TopologyEpoch (r : ShardRouter) : Z := match rt_topology r with None => 0 | Some st => tp_epoch st end.
Definition TopologyNumShards (r : ShardRouter) : Z := match rt_topology r with None => 1024 | Some st => tp_numShards st end.
Definition groupReplicaAddrs (r : ShardRouter) (gid : Z) : list string :=
  match rt_groupsByID r !! gid with None => [] | Some g => rg_Replicas g end.

(** ** Choosing replicas *)

Definition isWrongLeader (errText : string) : bool :=
  if decide (errText = "") then false
  else
    let s := ToLower (TrimSpace errText) in
    Contains s "errwrongleader" || Contains s "wrong leader" || Contains s "wrongleader" ||
    Contains s "not leader" || Contains s "leader changed".

(** [withRequestTimeout]: the timeout of one attempt, given the time that remains
    until the caller's deadline; [None] when that has passed. *)
Definition withRequestTimeout (RequestTimeout : Z) (remaining : option Z) : option Z :=
  match remaining with
  | Some rem =>
      if decide (rem ≤ 0) then None
      else
        let budget := if decide (0 < RequestTimeout ∧ RequestTimeout < rem) then RequestTimeout else rem in
        Some (if decide (defaultPerReplicaRPCTimeout < budget) then defaultPerReplicaRPCTimeout else budget)
  | None =>
      Some (if decide (RequestTimeout ≤ 0 ∨ defaultPerReplicaRPCTimeout < RequestTimeout)
            then defaultPerReplicaRPCTimeout else RequestTimeout)
  end.

Definition fresh_leader (now : Z) (r : ShardRouter) (gid : Z) : string :=
  match rt_leaderCacheUpdatedAt r !! gid with
  | Some updatedAt => if decide (rt_leaderCacheTTL r < now - updatedAt) then "" else default "" (rt_leaderCache r !! gid)
  | None => default "" (rt_leaderCache r !! gid)
  end.
Fixpoint add_candidates (r : ShardRouter) (gid : Z) (addrs candidates : list string) : list string :=
  match addrs with
  | [] => candidates
  | addr :: addrs =>
      add_candidates r gid addrs
        (if bool_decide (addr ∈ candidates) then candidates
         else if has_client r gid addr then candidates ++ [addr] else candidates)
  end.
Definition groupReplicaCandidates (now : Z) (r : ShardRouter) (gid : Z) : list string :=
  match rt_groupsByID r !! gid with
  | None => []
  | Some g =>
      let leader := fresh_leader now r gid in
      let first := if bool_decide (leader ≠ "") && has_client r gid leader then [leader] else [] in
      let candidates := add_candidates r gid (rg_Replicas g) first in
      let len := Z.of_nat (length candidates) in
      let maxCandidates := if decide (length (sc_Groups (rt_config r)) = 1%nat) then len else sc_PreferredReplicas (rt_config r) in
      let maxCandidates := if decide (maxCandidates ≤ 0 ∨ len < maxCandidates) then len else maxCandidates in
      if decide (maxCandidates < len) then take (Z.to_nat maxCandidates) candidates else candidates
  end.

Definition setLeader (now gid : Z) (addr : string) (r : ShardRouter) : ShardRouter :=
  if has_client r gid addr
  then with_leaders (<[gid := addr]> (rt_leaderCache r)) (<[gid := now]> (rt_leaderCacheUpdatedAt r)) r
  else r.
Definition invalidateLeader (gid : Z) (addr : string) (r : ShardRouter) : ShardRouter :=
  match rt_leaderCache r !! gid with
  | Some cur => if decide (addr = "" ∨ cur = addr)
                then with_leaders (delete gid (rt_leaderCache r)) (delete gid (rt_leaderCacheUpdatedAt r)) r else r
  | None => r
  end.

(** ** Calling a group: the loop that all methods share *)

Section call.
Context {A : Type} (now : Z) (what : string) (errText : A → string) (rpc : string → rpc_result A) (gid : Z).

Fixpoint call_loop (candidates : list string) (lastErr : option router_err) (r : ShardRouter) : ShardRouter * (router_err + A) :=
  match candidates with
  | [] => (r, inl (default (ErrNoAvailableReplica gid) lastErr))
  | replica :: candidates =>
      if negb (has_client r gid replica) then call_loop candidates lastErr r
      else
        match rpc replica with
        | RpcErr e => call_loop candidates (Some (ErrRpc e)) (invalidateLeader gid replica r)
        | RpcNil => call_loop candidates (Some (ErrEmptyResponse what replica)) (invalidateLeader gid replica r)
        | RpcResp resp =>
            if isWrongLeader (errText resp)
            then call_loop candidates (Some (ErrGroupWrongLeader gid replica)) (invalidateLeader gid replica r)
            else (setLeader now gid replica r, inr resp)
        end
  end.
Definition call_group (r : ShardRouter) : ShardRouter * (router_err + A) :=
  call_loop (groupReplicaCandidates now r gid) None r.
End call.

(** [key] and the other arguments of a request are part of the answer function. *)
Definition GetFromGroup now (rpc : string → rpc_result GetResponse) gid r := call_group now "get" GetResponse_error rpc gid r.
Definition PutToGroupWithTTL now (rpc : PutRequest → string → rpc_result PutResponse) gid (key value : string) (version ttlSeconds : Z) r :=
  call_group now "put" PutResponse_error
    (rpc {| PutRequest_key := key; PutRequest_value := value; PutRequest_version := version; PutRequest_ttl_seconds := ttlSeconds |}) gid r.
Definition PutToGroup now rpc gid key value version r := PutToGroupWithTTL now rpc gid key value version 0 r.
Definition DeleteFromGroup now (rpc : string → rpc_result DeleteResponse) gid r := call_group now "delete" DeleteResponse_error rpc gid r.
Definition ScanGroup now (rpc : string → rpc_result ScanResponse) gid r : ShardRouter * (router_err + list KeyValue) :=
  prod_map id (sum_map id ScanResponse_items) (call_group now "scan" ScanResponse_error rpc gid r).
(** A response of [PrepareTx], [CommitTx] and [AbortTx] is its error text. *)
Definition PrepareTxToGroup now (rpc : PrepareTxRequest → string → rpc_result string) req gid r := call_group now "PrepareTx" id (rpc req) gid r.
Definition CommitTxToGroup now (rpc : CommitTxRequest → string → rpc_result string) req gid r := call_group now "CommitTx" id (rpc req) gid r.
Definition AbortTxToGroup now (rpc : AbortTxRequest → string → rpc_result string) req gid r := call_group now "AbortTx" id (rpc req) gid r.
Definition ResolveTxStatusToGroup now (rpc : string → string → rpc_result ResolveTxStatusResponse) (txID : string) gid r :=
  call_group now "ResolveTxStatus" ResolveTxStatusResponse_error (rpc txID) gid r.
Definition QueryTxDecisionToGroup now (rpc : string → string → rpc_result QueryTxDecisionResponse) (txID : string) gid r :=
  call_group now "QueryTxDecision" QueryTxDecisionResponse_error (rpc txID) gid r.

(** ** Routing by key, and learning from hints *)

Section route.
Variables (Sum64String : string → Z) (dial : string → bool).

(** The loop of [learnHint] that connects to the replicas. *)
Fixpoint hint_connect (gid : Z) (replicas : list string) (r : ShardRouter) : option ShardRouter :=
  match replicas with
  | [] => Some r
  | addr :: replicas =>
      if has_client r gid addr then hint_connect gid replicas r
      else r ← (if dial addr then put_client r gid addr else Some r); hint_connect gid replicas r
  end.
(** The part of [learnHint] under the lock. *)
Definition learn_owner (st : ShardTopology) (key : string) (groupID : Z) (replicas : list string) (epoch : Z) (r : ShardRouter)
    : ShardRouter :=
  let shard := shardForKey Sum64String st key in
  let '(r, st) :=
    match rt_groupsByID r !! groupID with
    | Some _ => (r, st)
    | None =>
        let st := (RegisterGroup st groupID replicas).1 in
        (with_topology (Some st)
           (with_clients (<[groupID := ∅]> (rt_groupClients r)) (<[groupID := ∅]> (rt_groupConns r))
             (with_groups (<[groupID := {| rg_GroupID := groupID; rg_Replicas := replicas; rg_LeaderIdx := 0 |}]> (rt_groupsByID r)) r)), st)
    end in
  if decide (tp_epoch st ≤ epoch) then
    let '(owner, ok) := GroupForShard st shard in
    if bool_decide (ok = false ∨ owner ≠ groupID) then with_topology (Some (MoveShard st shard groupID).1) r else r
  else r.
Definition learnHint (key : string) (hint : pb_hint) (r : ShardRouter) : option ShardRouter :=
  match rt_topology r with
  | None => Some r
  | Some st =>
      if bool_decide (hint_group_id hint ≤ 0 ∨ hint_replicas hint = []) then Some r
      else if decide (hint_epoch hint < tp_epoch st) then Some r
      else hint_connect (hint_group_id hint) (hint_replicas hint)
             (learn_owner st key (hint_group_id hint) (hint_replicas hint) (hint_epoch hint) r)
  end.

(** What the three routes share; the answers depend on the group. *)
Definition route {A} (hint : A → pb_hint) (key : string) (r : ShardRouter) (call : Z → ShardRouter → ShardRouter * (router_err + A))
    : option (ShardRouter * (router_err + A)) :=
  g ← groupForKey Sum64String r key;
  match g with
  | inl e => Some (r, inl e)
  | inr gid =>
      match call gid r with
      | (r, inl e) => Some (r, inl e)
      | (r, inr resp) => r ← learnHint key (hint resp) r; Some (r, inr resp)
      end
  end.
Definition GetRoute now (rpc : Z → string → rpc_result GetResponse) key r :=
  route GetResponse_hint key r (λ gid, GetFromGroup now (rpc gid) gid).
Definition PutRouteWithTTL now (rpc : Z → PutRequest → string → rpc_result PutResponse) key value version ttlSeconds r :=
  route PutResponse_hint key r (λ gid, PutToGroupWithTTL now (rpc gid) gid key value version ttlSeconds).
Definition DeleteRoute now (rpc : Z → string → rpc_result DeleteResponse) key r :=
  route DeleteResponse_hint key r (λ gid, DeleteFromGroup now (rpc gid) gid).
End route.

(** ** Scanning all groups *)

(** The order of [sort.Slice] in [ScanRoute]. *)
Definition kv_le (x y : KeyValue) : Prop :=
  (kv_key x = kv_key y ∧ kv_version x ≤ kv_version y) ∨ (kv_key x ≠ kv_key y ∧ String.le (kv_key x) (kv_key y)).

Section scan.
(** [sort.Slice]: a permutation in the order of [kv_le]. *)
Variable sort_items : list KeyValue → list KeyValue.

(** The goroutines of the groups only touch the leader entry of their group. *)
Fixpoint scan_groups (now : Z) (scan : Z → string → rpc_result ScanResponse) (gids : list Z) (r : ShardRouter)
    : ShardRouter * list (router_err + list KeyValue) :=
  match gids with
  | [] => (r, [])
  | gid :: gids =>
      let '(r, res) := ScanGroup now (scan gid) gid r in
      let '(r, results) := scan_groups now scan gids r in (r, res :: results)
  end.
Fixpoint collect_scans (results : list (router_err + list KeyValue)) : router_err + list KeyValue :=
  match results with
  | [] => inr []
  | inl e :: _ => inl e
  | inr items :: results => match collect_scans results with inl e => inl e | inr all => inr (items ++ all) end
  end.
(** [scan] is the answer to a request with a prefix and a limit. *)
Definition ScanRoute (now : Z) (scan : string → Z → Z → string → rpc_result ScanResponse) (prefix : string) (limit : Z) (r : ShardRouter)
    : ShardRouter * (router_err + list KeyValue) :=
  match router_GroupIDs r with
  | [] => (r, inl ErrNoGroupsConfigured)
  | [gid] => ScanGroup now (scan prefix limit gid) gid r
  | gids =>
      let perGroupLimit := if decide (limit ≤ 0) then 0 else limit in
      let '(r, results) := scan_groups now (scan prefix perGroupLimit) gids r in
      match collect_scans results with
      | inl e => (r, inl e)
      | inr all =>
          let all := sort_items all in
          (r, inr (if decide (0 < limit ∧ limit < Z.of_nat (length all)) then take (Z.to_nat limit) all else all))
      end
  end.
End scan.

(** ** Recovery, watching, closing *)

Definition ms (ns : Z) : Z := Z.quot ns 1000000.
Definition recover_request (cfg : ShardingConfig) : SetRouterAndRecoverRequest :=
  {| srr_groups := (λ g, {| prg_group_id := wrapS32 (rg_GroupID g); prg_replicas := rg_Replicas g;
                            prg_leader_idx := wrapS32 (rg_LeaderIdx g) |}) <$> sc_Groups cfg;
     srr_num_shards := wrapS32 (sc_NumShards cfg); srr_virtual_node_count := wrapS32 (sc_VirtualNodeCount cfg);
     srr_connect_timeout_ms := wrapS32 (ms (sc_ConnectTimeout cfg));
     srr_request_timeout_ms := wrapS32 (ms (sc_RequestTimeout cfg));
     srr_preferred_replicas := wrapS32 (sc_PreferredReplicas cfg) |}.
(** The text of a nil response reads as the empty one. *)
Fixpoint recover_loop (r : ShardRouter) (gid : Z) (rpc : string → rpc_result string) (candidates : list string) : bool :=
  match candidates with
  | [] => false
  | addr :: candidates =>
      if negb (has_client r gid addr) then recover_loop r gid rpc candidates
      else match rpc addr with
           | RpcErr _ => recover_loop r gid rpc candidates
           | RpcNil => true
           | RpcResp e => if decide (e = "OK" ∨ e = "") then true else recover_loop r gid rpc candidates
           end
  end.
Definition TriggerRecoveryToGroup (now : Z) (rpc : SetRouterAndRecoverRequest → string → rpc_result string) (gid : Z)
    (cfg : ShardingConfig) (r : ShardRouter) : option router_err :=
  if recover_loop r gid (rpc (recover_request cfg)) (groupReplicaCandidates now r gid) then None else Some (ErrTriggerRecovery gid).

Definition watchGroupsFor (Sum64String : string → Z) (r : ShardRouter) (key : string) (prefix : bool) : option (router_err + list Z) :=
  if negb prefix then
    g ← groupForKey Sum64String r key; Some (sum_map id (λ gid, [gid]) g)
  else Some (match router_GroupIDs r with [] => inl ErrNoGroupsConfigured | gids => inr gids end).

(** What a replica does with a watch: the stream or the request fails, or events
    arrive until the stream ends (for good: EOF or a cancelled context). *)
Inductive watch_attempt :=
  | WatchOpenErr
  | WatchStream (events : list WatchEvent) (for_good : bool).
(** One pass over the candidates: the events handed to the handler, and whether
    the method returns. *)
Fixpoint watch_candidates (now gid : Z) (attempt : string → watch_attempt) (candidates : list string) (r : ShardRouter)
    : ShardRouter * list (Z * WatchEvent) * bool :=
  match candidates with
  | [] => (r, [], false)
  | replica :: candidates =>
      if negb (has_client r gid replica) then watch_candidates now gid attempt candidates r
      else match attempt replica with
           | WatchOpenErr => watch_candidates now gid attempt candidates r
           | WatchStream events for_good =>
               let r := setLeader now gid replica r in
               let handled := (λ ev, (gid, ev)) <$> events in
               if for_good then (r, handled, true)
               else let '(r, more, ret) := watch_candidates now gid attempt candidates r in (r, handled ++ more, ret)
           end
  end.
(** [cancelled i] is whether the context is done at the start of round [i] or in
    the pause after it; the loop has no bound of its own. *)
Fixpoint watchSingleGroup (fuel i : nat) (now : nat → Z) (cancelled : nat → bool * bool)
    (attempt : nat → string → watch_attempt) (gid : Z) (r : ShardRouter) : option (ShardRouter * list (Z * WatchEvent)) :=
  match fuel with
  | O => None
  | S fuel =>
      if (cancelled i).1 then Some (r, [])
      else
        let '(r, handled, ret) := watch_candidates (now i) gid (attempt i) (groupReplicaCandidates (now i) r gid) r in
        if ret || (cancelled i).2 then Some (r, handled)
        else '(r, more) ← watchSingleGroup fuel (S i) now cancelled attempt gid r; Some (r, handled ++ more)
  end.

(** The goroutines of [WatchRoute], which only touch the leader entry of their
    group: the events of each group. *)
Fixpoint watch_groups (fuel : nat) (now : nat → Z) (cancelled : nat → bool * bool) (attempt : Z → nat → string → watch_attempt)
    (gids : list Z) (r : ShardRouter) : option (ShardRouter * list (list (Z * WatchEvent))) :=
  match gids with
  | [] => Some (r, [])
  | gid :: gids =>
      '(r, handled) ← watchSingleGroup fuel 0 now cancelled (attempt gid) gid r;
      '(r, more) ← watch_groups fuel now cancelled attempt gids r; Some (r, handled :: more)
  end.
(** [watchSingleGroup] returns no error, so that only the choice of the groups
    can fail. *)
Definition WatchRoute (Sum64String : string → Z) (fuel : nat) (now : nat → Z) (cancelled : nat → bool * bool)
    (attempt : Z → nat → string → watch_attempt) (key : string) (prefix : bool) (r : ShardRouter)
    : option (ShardRouter * (router_err + list (list (Z * WatchEvent)))) :=
  g ← watchGroupsFor Sum64String r key prefix;
  match g with
  | inl e => Some (r, inl e)
  | inr gids => '(r, handled) ← watch_groups fuel now cancelled attempt gids r; Some (r, inr handled)
  end.

Definition router_Close (r : ShardRouter) : ShardRouter :=
  let keep {B} (m : gmap Z B) := filter (λ kv, kv.1 ∉ dom (rt_groupConns r)) m in
  mkRouter (rt_config r) (rt_topology r) (keep (rt_groupClients r)) (keep (rt_groupConns r)) (keep (rt_groupsByID r))
    (keep (rt_leaderCache r)) (keep (rt_leaderCacheUpdatedAt r)) (rt_leaderCacheTTL r).
