(* ===== verification/RouterProps.v ===== *)
(** * The router reaches the right replica

    Reachable routers are well-formed and never panic; a call tries distinct
    connected replicas, the known leader first, and returns the first answer that
    is not a leader error; a scan over all groups that takes only the first
    entries of each equals the scan of everything. *)
From stdpp Require Import prelude gmap sorting strings relations.
From stdpp Require Import options.
From S2P Require Import Prelude KvApi Topology TopologyProps Pb Router.
Local Open Scope Z_scope.

(** ** The invariant *)

Record router_wf (r : ShardRouter) : Prop := {
  rw_topology : ∃ st, rt_topology r = Some st ∧ topo_wf st ∧ dom (tp_groups st) = dom (rt_groupsByID r);
  rw_pools : rt_groupConns r = rt_groupClients r;
  rw_dom : dom (rt_groupClients r) = dom (rt_groupsByID r);
  rw_leader : map_Forall (λ gid l, has_client r gid l = true) (rt_leaderCache r);
  rw_updated : dom (rt_leaderCacheUpdatedAt r) = dom (rt_leaderCache r);
  rw_ids : map_Forall (λ gid g, 0 < gid ∧ rg_GroupID g = gid ∧ rg_Replicas g ≠ []) (rt_groupsByID r) }.

Lemma setLeader_wf now gid addr r : router_wf r → router_wf (setLeader now gid addr r).
Proof.
  intros [Ht Hp Hd Hl Hu Hi]. unfold setLeader. destruct (has_client r gid addr) eqn:Hc; [|done].
  split; cbn; try done.
  - by apply map_Forall_insert_2.
  - by rewrite !dom_insert_L, Hu.
Qed.
Lemma invalidateLeader_wf gid addr r : router_wf r → router_wf (invalidateLeader gid addr r).
Proof.
  intros [Ht Hp Hd Hl Hu Hi]. unfold invalidateLeader. destruct (rt_leaderCache r !! gid); [|done]. case_decide; [|done].
  split; cbn; try done.
  - by apply map_Forall_delete.
  - by rewrite !dom_delete_L, Hu.
Qed.

Section call_lemmas.
Context {A : Type} (now : Z) (what : string) (errText : A → string) (rpc : string → rpc_result A) (gid : Z).

Lemma call_loop_wf cands : ∀ e r, router_wf r → router_wf (call_loop now what errText rpc gid cands e r).1.
Proof.
  induction cands as [|c cands IH]; intros e r Hr; [done|]. cbn [call_loop].
  destruct (negb _); [by apply IH|]. destruct (rpc c); [by apply IH, invalidateLeader_wf..|].
  destruct (isWrongLeader _); [by apply IH, invalidateLeader_wf|]. by apply setLeader_wf.
Qed.
Lemma call_group_wf r : router_wf r → router_wf (call_group now what errText rpc gid r).1.
Proof. apply call_loop_wf. Qed.
Lemma call_loop_topology cands : ∀ e r, rt_topology (call_loop now what errText rpc gid cands e r).1 = rt_topology r.
Proof.
  assert (∀ c r, rt_topology (invalidateLeader gid c r) = rt_topology r) as Hi.
  { intros c r. unfold invalidateLeader. destruct (_ !! _); [|done]. by case_decide. }
  induction cands as [|c cands IH]; intros e r; [done|]. cbn [call_loop].
  destruct (negb _); [by apply IH|]. destruct (rpc c); [by rewrite IH, Hi..|].
  destruct (isWrongLeader _); [by rewrite IH, Hi|]. unfold setLeader. by case_match.
Qed.
End call_lemmas.

Lemma put_client_wf r gid addr : router_wf r → is_Some (rt_groupsByID r !! gid) →
  ∃ r', put_client r gid addr = Some r' ∧ router_wf r' ∧ rt_groupsByID r' = rt_groupsByID r ∧ rt_topology r' = rt_topology r.
Proof.
  intros [Ht Hp Hd Hl Hu Hi] Hg. unfold put_client, put_addr. rewrite Hp.
  assert (gid ∈ dom (rt_groupClients r)) as [s Hs]%elem_of_dom by (rewrite Hd; by apply elem_of_dom).
  rewrite Hs. cbn. eexists. split; [done|]. split; [|done]. split; cbn; try done.
  - rewrite dom_insert_L, Hd. apply elem_of_dom in Hg. set_solver.
  - intros g l Hgl. specialize (Hl g l Hgl). unfold has_client in *. cbn. apply bool_decide_eq_true in Hl. apply bool_decide_eq_true.
    destruct (decide (g = gid)) as [->|]; [rewrite lookup_insert_eq; rewrite Hs in Hl; cbn in *; set_solver|].
    by rewrite lookup_insert_ne.
Qed.

Section route_lemmas.
Variables (Sum64String : string → Z) (dial : string → bool).

Lemma hint_connect_wf gid replicas : ∀ r, router_wf r → is_Some (rt_groupsByID r !! gid) →
  ∃ r', hint_connect dial gid replicas r = Some r' ∧ router_wf r'.
Proof.
  induction replicas as [|a replicas IH]; intros r Hr Hg; [eexists; done|]. cbn [hint_connect].
  destruct (has_client r gid a); [by apply IH|]. destruct (dial a); [|by apply IH].
  destruct (put_client_wf r gid a Hr Hg) as (r' & -> & Hr' & Hby & _). cbn. apply IH; [done|]. by rewrite Hby.
Qed.

Lemma learn_register_wf st gid replicas r :
  router_wf r → rt_topology r = Some st → rt_groupsByID r !! gid = None → 0 < gid → replicas ≠ [] →
  router_wf (with_topology (Some (RegisterGroup st gid replicas).1)
    (with_clients (<[gid := ∅]> (rt_groupClients r)) (<[gid := ∅]> (rt_groupConns r))
      (with_groups (<[gid := {| rg_GroupID := gid; rg_Replicas := replicas; rg_LeaderIdx := 0 |}]> (rt_groupsByID r)) r))).
Proof.
  intros [Ht Hp Hd Hl Hu Hi] Hst Hnone Hpos Hne. destruct Ht as (st' & Hst' & Hwf & Hdom). assert (st' = st) as -> by congruence.
  assert (gid ∉ dom (rt_groupClients r)) as Hnc by (rewrite Hd; by apply not_elem_of_dom).
  split; cbn; [| | | |done|].
  - eexists. split; [done|]. split; [by apply Register_wf|]. unfold RegisterGroup.
    rewrite bool_decide_false by (intros [?|?]; [lia|done]).
    assert (tp_groups st !! gid = None) as -> by (apply not_elem_of_dom; rewrite Hdom; by apply not_elem_of_dom).
    cbn. by rewrite !dom_insert_L, Hdom.
  - by rewrite Hp.
  - by rewrite !dom_insert_L, Hd.
  - intros g l Hgl. specialize (Hl g l Hgl). unfold has_client in *. cbn. destruct (decide (g = gid)) as [->|].
    + apply bool_decide_eq_true in Hl. apply not_elem_of_dom in Hnc. rewrite Hnc in Hl. set_solver.
    + by rewrite lookup_insert_ne.
  - by apply map_Forall_insert_2.
Qed.

Lemma with_topology_wf st st' r : router_wf r → rt_topology r = Some st → topo_wf st' → tp_groups st' = tp_groups st →
  router_wf (with_topology (Some st') r).
Proof.
  intros [Ht Hp Hd Hl Hu Hi] Hst Hwf Hg. destruct Ht as (st0 & Hst0 & _ & Hdom). assert (st0 = st) as -> by congruence.
  split; cbn; try done. eexists. split; [done|]. by rewrite Hg.
Qed.
Lemma MoveShard_groups st shard gid : tp_groups (MoveShard st shard gid).1 = tp_groups st.
Proof. unfold MoveShard. case_bool_decide; [done|]. by destruct (_ !! _). Qed.
Lemma Register_epoch st gid replicas : tp_epoch (RegisterGroup st gid replicas).1 = tp_epoch st.
Proof. unfold RegisterGroup. case_bool_decide; [done|]. by destruct (_ !! _). Qed.

Lemma learn_owner_wf st key gid replicas epoch r :
  router_wf r → rt_topology r = Some st → 0 < gid → replicas ≠ [] → tp_epoch st < 2 ^ 63 - 1 →
  let r' := learn_owner Sum64String st key gid replicas epoch r in
  router_wf r' ∧ is_Some (rt_groupsByID r' !! gid).
Proof.
  intros Hr Hst Hpos Hne Hep. unfold learn_owner.
  set (rs := match rt_groupsByID r !! gid with Some _ => (r, st) | None => _ end).
  assert (router_wf rs.1 ∧ rt_topology rs.1 = Some rs.2 ∧ is_Some (rt_groupsByID rs.1 !! gid) ∧ tp_epoch rs.2 = tp_epoch st) as Hrs.
  { unfold rs. destruct (rt_groupsByID r !! gid) as [g|] eqn:Eg.
    - cbn. rewrite Eg. eauto.
    - cbn [fst snd]. split; [by apply learn_register_wf|]. split; [done|]. split; [cbn; rewrite lookup_insert_eq; eauto|].
      apply Register_epoch. }
  destruct rs as [r1 st1]. cbn [fst snd] in Hrs. destruct Hrs as (Hr1 & Ht1 & Hg1 & He1).
  case_decide; [|done]. destruct (GroupForShard _ _) as [owner ok]. case_bool_decide; [|done].
  split; [|done]. eapply with_topology_wf; [done|done| |apply MoveShard_groups].
  apply Move_wf; [|lia]. destruct Hr1 as [(? & ? & ? & ?) _ _ _ _ _]. by simplify_eq.
Qed.

Lemma learnHint_wf key hint r : router_wf r → TopologyEpoch r < 2 ^ 63 - 1 →
  ∃ r', learnHint Sum64String dial key hint r = Some r' ∧ router_wf r'.
Proof.
  intros Hr He. unfold learnHint, TopologyEpoch in *. destruct (rt_topology r) as [st|] eqn:Est; [|eauto].
  case_bool_decide as Hb; [eauto|]. case_decide; [eauto|].
  destruct (learn_owner_wf st key (hint_group_id hint) (hint_replicas hint) (hint_epoch hint) r Hr Est)
    as [Hwf Hg]; [lia|naive_solver|done|]. by apply hint_connect_wf.
Qed.

Lemma resolve_known r key : router_wf r →
  ∃ gid, router_Resolve Sum64String r key = Some gid ∧ 0 < gid ∧ is_Some (rt_groupsByID r !! gid).
Proof.
  intros [(st & Est & Hwf & Hdom) _ _ _ _ Hi]. unfold router_Resolve, router_ResolveWithEpoch. rewrite Est.
  destruct (resolve_owned Sum64String st key Hwf) as (gid & -> & Hg). exists gid. cbn. split; [done|].
  apply elem_of_dom in Hg. rewrite Hdom in Hg. apply elem_of_dom in Hg as [g Hg]. split; [by apply (Hi gid g)|eauto].
Qed.

Lemma route_wf {A} (hint : A → pb_hint) key r call : router_wf r → TopologyEpoch r < 2 ^ 63 - 1 →
  (∀ gid r, router_wf r → router_wf (call gid r).1 ∧ rt_topology (call gid r).1 = rt_topology r) →
  ∃ r' res, route Sum64String dial hint key r call = Some (r', res) ∧ router_wf r'.
Proof.
  intros Hr He Hcall. unfold route, groupForKey. destruct (resolve_known r key Hr) as (gid & -> & ? & _). cbn [mbind option_bind].
  rewrite decide_False by lia. destruct (Hcall gid r Hr) as [Hwf Ht]. destruct (call gid r) as [r1 [e|resp]]; [eauto|].
  cbn [fst] in *. destruct (learnHint_wf key (hint resp) r1) as (r2 & -> & Hwf2); [done|unfold TopologyEpoch in *; by rewrite Ht|].
  cbn. eauto.
Qed.
End route_lemmas.

(** ** Construction *)

Lemma register_groups_ok gs : ∀ m m',
  register_groups gs m = inr m' → map_Forall (λ gid g, 0 < gid ∧ rg_GroupID g = gid ∧ rg_Replicas g ≠ []) m →
  dom m' = list_to_set (rg_GroupID <$> gs) ∪ dom m ∧
  map_Forall (λ gid g, 0 < gid ∧ rg_GroupID g = gid ∧ rg_Replicas g ≠ []) m' ∧ Forall (λ g, rg_Replicas g ≠ []) gs ∧
  NoDup (rg_GroupID <$> gs) ∧ list_to_set (rg_GroupID <$> gs) ## dom m.
Proof.
  induction gs as [|g gs IH]; intros m m' H Hm.
  { injection H as <-. split_and!; [set_solver|done|constructor|constructor|set_solver]. }
  cbn [register_groups] in H. case_decide; [done|]. case_decide as Hne; [done|]. destruct (m !! _) eqn:E; [done|].
  destruct (IH _ _ H) as (Hd & Hm' & Hgs & Hnd & Hdis).
  { apply map_Forall_insert_2; [|done]. split; [lia|done]. }
  rewrite dom_insert_L in Hd, Hdis. apply not_elem_of_dom in E. cbn [fmap list_fmap list_to_set foldr].
  rewrite Hd. split_and!; [set_solver|done|by constructor| |set_solver].
  apply NoDup_cons. split; [set_solver|done].
Qed.

(** The router while [initConnections] runs: the groups in [done] have pools. *)
Record init_inv (groups : gset Z) (r0 r : ShardRouter) : Prop := {
  ii_topology : rt_topology r = rt_topology r0; ii_byID : rt_groupsByID r = rt_groupsByID r0;
  ii_pools : rt_groupConns r = rt_groupClients r; ii_dom : dom (rt_groupClients r) = groups;
  ii_leader : map_Forall (λ gid l, has_client r gid l = true) (rt_leaderCache r);
  ii_updated : dom (rt_leaderCacheUpdatedAt r) = dom (rt_leaderCache r) }.

Lemma put_client_init groups r0 r gid addr : init_inv groups r0 r → gid ∈ groups →
  ∃ r', put_client r gid addr = Some r' ∧ init_inv groups r0 r' ∧
    rt_groupClients r' !! gid = Some ({[addr]} ∪ default ∅ (rt_groupClients r !! gid)).
Proof.
  intros [Ht Hb Hp Hd Hl Hu] Hg. unfold put_client, put_addr. rewrite Hp.
  rewrite <-Hd in Hg. apply elem_of_dom in Hg as [s Hs]. rewrite Hs. cbn. eexists. split; [done|].
  split; [|cbn; by rewrite lookup_insert_eq]. split; cbn; try done.
  - rewrite dom_insert_L, Hd. apply elem_of_dom_2 in Hs. set_solver.
  - intros g l Hgl. specialize (Hl g l Hgl). unfold has_client in *. cbn. apply bool_decide_eq_true in Hl. apply bool_decide_eq_true.
    destruct (decide (g = gid)) as [->|]; [rewrite lookup_insert_eq; rewrite Hs in Hl; cbn in *; set_solver|].
    by rewrite lookup_insert_ne.
Qed.
Lemma fresh_group_init groups r0 r gid : init_inv groups r0 r → gid ∉ groups →
  init_inv ({[gid]} ∪ groups) r0 (with_clients (<[gid := ∅]> (rt_groupClients r)) (<[gid := ∅]> (rt_groupConns r)) r).
Proof.
  intros [Ht Hb Hp Hd Hl Hu] Hn. split; cbn; try done.
  - by rewrite Hp.
  - by rewrite dom_insert_L, Hd.
  - intros g l Hgl. specialize (Hl g l Hgl). unfold has_client in *. cbn. destruct (decide (g = gid)) as [->|].
    + apply bool_decide_eq_true in Hl. rewrite <-Hd in Hn. apply not_elem_of_dom in Hn. rewrite Hn in Hl. set_solver.
    + by rewrite lookup_insert_ne.
Qed.

Section init.
Variable dial : string → bool.

Lemma connect_replicas_init groups r0 gid replicas : ∀ r, init_inv groups r0 r → gid ∈ groups →
  ∃ r', connect_replicas dial gid replicas r = Some r' ∧ init_inv groups r0 r'.
Proof.
  induction replicas as [|a replicas IH]; intros r Hr Hg; [eauto|]. cbn [connect_replicas].
  destruct (dial a); [|by apply IH]. destruct (put_client_init _ _ r gid a Hr Hg) as (r' & -> & ? & _). by apply IH.
Qed.

Lemma init_group_ok groups r0 r now g : init_inv groups r0 r → rg_GroupID g ∉ groups → rg_Replicas g ≠ [] →
  (init_group dial now g r = None → rg_LeaderIdx g < 0) ∧
  ∀ r' e, init_group dial now g r = Some (r', e) → init_inv ({[rg_GroupID g]} ∪ groups) r0 r'.
Proof.
  intros Hr Hn Hne. unfold init_group.
  destruct (connect_replicas_init _ r0 (rg_GroupID g) (rg_Replicas g) _ (fresh_group_init _ _ _ _ Hr Hn)) as (r1 & -> & Hr1); [set_solver|].
  cbn [mbind option_bind]. set (i := Z.rem _ _).
  assert (0 < Z.of_nat (length (rg_Replicas g))) as Hlen by (destruct (rg_Replicas g); [done|cbn; lia]).
  destruct (if decide (0 ≤ i) then rg_Replicas g !! Z.to_nat i else None) as [leader|] eqn:El; cbn [mbind option_bind].
  - split; [done|]. intros r' e [= <- <-]. destruct (has_client r1 (rg_GroupID g) leader) eqn:Hc; [|done].
    destruct Hr1 as [Ht Hb Hp Hd Hl Hu]. split; cbn; try done; [by apply map_Forall_insert_2|by rewrite !dom_insert_L, Hu].
  - split; [|done]. intros _. case_decide as Hi.
    + apply lookup_ge_None in El. pose proof (Z.rem_bound_abs (rg_LeaderIdx g) (Z.of_nat (length (rg_Replicas g)))). fold i in H. lia.
    + destruct (decide (0 ≤ rg_LeaderIdx g)); [|lia]. pose proof (Z.rem_nonneg (rg_LeaderIdx g) (Z.of_nat (length (rg_Replicas g)))).
      fold i in H. lia.
Qed.

Lemma initConnections_ok r0 now gs : ∀ groups r, init_inv groups r0 r → NoDup (rg_GroupID <$> gs) →
  list_to_set (rg_GroupID <$> gs) ## groups → Forall (λ g, rg_Replicas g ≠ []) gs →
  (initConnections dial now gs r = None → Exists (λ g, rg_LeaderIdx g < 0) gs) ∧
  ∀ r', initConnections dial now gs r = Some (r', None) → init_inv (list_to_set (rg_GroupID <$> gs) ∪ groups) r0 r'.
Proof.
  induction gs as [|g gs IH]; intros groups r Hr Hnd Hdis Hne.
  { cbn. split; [done|]. intros r' [= <-]. assert (∅ ∪ groups = groups) as -> by set_solver. done. }
  cbn [initConnections fmap list_fmap] in *. apply NoDup_cons in Hnd as [Hg Hnd]. apply Forall_cons in Hne as [Hne Hne'].
  cbn [list_to_set foldr] in Hdis. destruct (init_group_ok groups r0 r now g Hr) as [Hnone Hsome]; [set_solver|done|].
  destruct (init_group dial now g r) as [[r1 [e|]]|] eqn:E; cbn [mbind option_bind].
  - done.
  - specialize (Hsome _ _ eq_refl).
    destruct (IH _ _ Hsome Hnd) as [H1 H2]; [set_solver|done|]. split; [intros; right; auto|].
    intros r' Hr'. specialize (H2 r' Hr'). cbn.
    assert ({[rg_GroupID g]} ∪ list_to_set (rg_GroupID <$> gs) ∪ groups = list_to_set (rg_GroupID <$> gs) ∪ ({[rg_GroupID g]} ∪ groups)) as ->
      by set_solver. done.
  - split; [|done]. intros _. left. auto.
Qed.
End init.

Lemma ownership_wf numShards groups owners epoch st :
  numShards < 2 ^ 63 → epoch < 2 ^ 63 → NewShardTopologyWithOwnership numShards groups owners epoch = Some (Some st) →
  topo_wf st ∧ tp_groups st = groups.
Proof.
  intros Hn He. unfold NewShardTopologyWithOwnership. case_bool_decide as Hb; [done|].
  destruct (new_topology_balanced numShards groups) as (st0 & -> & Hwf & Hg & Hnum & _); [naive_solver|done|].
  cbn [mbind option_bind]. destruct (forallb _ _) eqn:Hall; [|done]. intros [= <-]. split; [|done]. destruct Hwf as [Hp Hl Ho Hep].
  split; cbn.
  - done.
  - rewrite Hnum, decide_False by naive_solver. destruct (decide (Z.of_nat (length owners) = numShards)); naive_solver.
  - rewrite Hg. apply Forall_forall. intros g Hin. apply elem_of_dom. rewrite forallb_forall in Hall.
    specialize (Hall g). rewrite bool_decide_eq_true in Hall. apply Hall. by apply list_elem_of_In.
  - destruct (decide (0 < epoch)); lia.
Qed.

Lemma registered_groups gs byID : register_groups gs ∅ = inr byID → gs ≠ [] →
  dom byID = list_to_set (rg_GroupID <$> gs) ∧
  map_Forall (λ gid g, 0 < gid ∧ rg_GroupID g = gid ∧ rg_Replicas g ≠ []) byID ∧
  Forall (λ g, rg_Replicas g ≠ []) gs ∧ NoDup (rg_GroupID <$> gs) ∧ rg_Replicas <$> byID ≠ ∅.
Proof.
  intros Hreg Hne. destruct (register_groups_ok _ _ _ Hreg) as (Hd & Hby & Hrep & Hnd & _); [apply map_Forall_empty|].
  rewrite dom_empty_L, union_empty_r_L in Hd. split_and!; try done.
  intros ->%fmap_empty_inv. rewrite dom_empty_L in Hd. destruct gs; cbn in Hd; set_solver.
Qed.

Lemma new_router_wf dial now cfg r :
  sc_NumShards cfg < 2 ^ 63 → sc_TopologyEpoch cfg < 2 ^ 63 → NewShardRouter dial now cfg = Some (inr r) → router_wf r.
Proof.
  intros Hn He. unfold NewShardRouter. cbn [set_defaults sc_Groups sc_NumShards sc_ShardToGroup sc_TopologyEpoch].
  case_decide as Hne; [done|]. destruct (register_groups _ _) as [|byID] eqn:Hreg; [done|].
  destruct (registered_groups _ _ Hreg Hne) as (Hd & Hby & Hrep & Hnd & Hbne).
  set (topo := if decide _ then _ else _). destruct topo as [[st|]|] eqn:Et; [|done|done].
  assert (topo_wf st ∧ tp_groups st = rg_Replicas <$> byID) as [Hst Hsg].
  { unfold topo in Et. case_decide; [|exact (ownership_wf _ _ _ _ _ Hn He Et)].
    destruct (new_topology_balanced (sc_NumShards cfg) (rg_Replicas <$> byID) Hbne Hn) as (st' & Hst' & Hwf & Hg & _).
    rewrite Hst' in Et. cbn in Et. injection Et as <-. done. }
  cbn [mbind option_bind]. set (r0 := mkRouter _ _ _ _ _ _ _ _).
  destruct (initConnections_ok dial r0 now (sc_Groups cfg) ∅ r0) as [_ Hok]; [by split|done|set_solver|done|].
  destruct (initConnections dial now (sc_Groups cfg) r0) as [[r1 [e|]]|] eqn:Ei; cbn; [done| |done]. intros [= <-].
  destruct (Hok r1 eq_refl) as [Ht Hb Hp Hdc Hl Hu]. rewrite union_empty_r_L in Hdc.
  split; [|done| |done|done|by rewrite Hb].
  - exists st. rewrite Ht, Hb, Hsg. split; [done|]. split; [done|]. by rewrite dom_fmap_L.
  - by rewrite Hdc, Hb, <-Hd.
Qed.

Lemma new_router_panics dial now cfg : NewShardRouter dial now cfg = None → sc_NumShards cfg < 2 ^ 63 →
  Exists (λ g, rg_LeaderIdx g < 0) (sc_Groups cfg).
Proof.
  intros Hnone Hn. revert Hnone. unfold NewShardRouter. cbn [set_defaults sc_Groups sc_NumShards sc_ShardToGroup sc_TopologyEpoch].
  case_decide as Hne; [done|]. destruct (register_groups _ _) as [|byID] eqn:Hreg; [done|].
  destruct (registered_groups _ _ Hreg Hne) as (Hd & Hby & Hrep & Hnd & Hbne).
  destruct (new_topology_balanced (sc_NumShards cfg) (rg_Replicas <$> byID) Hbne Hn) as (st' & Hst' & _).
  set (topo := if decide _ then _ else _).
  assert (is_Some topo) as [[st|] ->]; [|cbn [mbind option_bind]|done].
  { unfold topo. case_decide; [rewrite Hst'; eauto|]. unfold NewShardTopologyWithOwnership. case_bool_decide; [eauto|].
    rewrite Hst'. cbn. destruct (forallb _ _); eauto. }
  set (r0 := mkRouter _ _ _ _ _ _ _ _).
  destruct (initConnections_ok dial r0 now (sc_Groups cfg) ∅ r0) as [Hex _]; [by split|done|set_solver|done|].
  destruct (initConnections dial now (sc_Groups cfg) r0) as [[r1 [e|]]|] eqn:Ei; cbn; [done|done|]. auto.
Qed.

(** ** Closing *)

(** A router without groups, connections and leaders. *)
Record router_closed (r : ShardRouter) : Prop := {
  rcl_byID : rt_groupsByID r = ∅; rcl_clients : rt_groupClients r = ∅; rcl_conns : rt_groupConns r = ∅;
  rcl_leader : rt_leaderCache r = ∅; rcl_updated : rt_leaderCacheUpdatedAt r = ∅;
  rcl_topology : ∃ st, rt_topology r = Some st ∧ topo_wf st ∧ ∀ gid, gid ∈ dom (tp_groups st) → 0 < gid }.

Lemma keep_none {B} (m : gmap Z B) (s : gset Z) : dom m ⊆ s → filter (λ kv : Z * B, kv.1 ∉ s) m = ∅.
Proof. intros Hs. apply map_empty. intros k. apply map_lookup_filter_None. right. intros v Hk Hn. apply Hn, Hs. by eapply elem_of_dom_2. Qed.
Lemma leader_dom r : router_wf r → dom (rt_leaderCache r) ⊆ dom (rt_groupClients r).
Proof.
  intros [_ _ _ Hl _ _] gid [l Hg]%elem_of_dom. specialize (Hl gid l Hg). apply bool_decide_eq_true in Hl.
  apply elem_of_dom. destruct (rt_groupClients r !! gid); [eauto|set_solver].
Qed.
Lemma router_Close_closed r : router_wf r → router_closed (router_Close r).
Proof.
  intros Hr. pose proof (leader_dom r Hr) as Hld. destruct Hr as [(st & Hst & Hwf & Hdom) Hp Hd _ Hu Hi].
  split; cbn; try (apply keep_none; rewrite Hp; set_solver).
  exists st. split_and!; [done|done|]. intros gid Hg. rewrite Hdom in Hg. apply elem_of_dom in Hg as [g Hg]. by apply (Hi gid g).
Qed.
Lemma router_Close_idem r : router_closed r → router_Close r = r.
Proof. intros [H1 H2 H3 H4 H5 _]. destruct r; cbn in *; subst. unfold router_Close; cbn. by rewrite !map_filter_empty. Qed.
Lemma closed_call {A} now what (errText : A → string) rpc gid r :
  router_closed r → call_group now what errText rpc gid r = (r, inl (ErrNoAvailableReplica gid)).
Proof. intros Hr. unfold call_group, groupReplicaCandidates. by rewrite (rcl_byID r Hr), lookup_empty. Qed.
Lemma closed_resolve Sum64String r key : router_closed r → ∃ gid, router_Resolve Sum64String r key = Some gid ∧ 0 < gid.
Proof.
  intros [_ _ _ _ _ (st & Est & Hwf & Hpos)]. unfold router_Resolve, router_ResolveWithEpoch. rewrite Est.
  destruct (resolve_owned Sum64String st key Hwf) as (gid & -> & Hg). exists gid. split; [done|]. by apply Hpos, elem_of_dom.
Qed.
Lemma closed_route Sum64String dial {A} now what (errText : A → string) rpc hint key r : router_closed r →
  ∃ gid, route Sum64String dial hint key r (λ gid, call_group now what errText (rpc gid) gid) = Some (r, inl (ErrNoAvailableReplica gid)).
Proof.
  intros Hr. unfold route, groupForKey. destruct (closed_resolve Sum64String r key Hr) as (gid & -> & ?). cbn [mbind option_bind].
  rewrite decide_False by lia. exists gid. by rewrite closed_call.
Qed.

(** ** Reachable routers *)

(** One call of a method, with what can be dialled during it: by key, to a
    group, one pass of a watch over the replicas of a group, or [Close].  The flag
    tells whether the router has been closed. *)
Inductive router_next (Sum64String : string → Z) : bool * ShardRouter → bool * ShardRouter → Prop :=
  | rn_route {A} closed (dial : string → bool) now what (errText : A → string) rpc hint key r r' res :
      TopologyEpoch r < 2 ^ 63 - 1 →
      route Sum64String dial hint key r (λ gid, call_group now what errText (rpc gid) gid) = Some (r', res) →
      router_next Sum64String (closed, r) (closed, r')
  | rn_call {A} closed now what (errText : A → string) rpc gid r :
      router_next Sum64String (closed, r) (closed, (call_group now what errText rpc gid r).1)
  | rn_watch closed now gid attempt r :
      router_next Sum64String (closed, r)
        (closed, (watch_candidates now gid attempt (groupReplicaCandidates now r gid) r).1.1)
  | rn_close closed r : router_next Sum64String (closed, r) (true, router_Close r).

Definition router_ok (s : bool * ShardRouter) : Prop := if s.1 then router_closed s.2 else router_wf s.2.

Lemma call_route_wf Sum64String dial {A} now what (errText : A → string) rpc hint key r :
  router_wf r → TopologyEpoch r < 2 ^ 63 - 1 →
  ∃ r' res, route Sum64String dial hint key r (λ gid, call_group now what errText (rpc gid) gid) = Some (r', res) ∧ router_wf r'.
Proof.
  intros Hr He. apply route_wf; [done|done|]. intros gid r1 Hr1. split; [by apply call_group_wf|apply call_loop_topology].
Qed.
Lemma watch_candidates_wf now gid attempt cands : ∀ r, router_wf r → router_wf (watch_candidates now gid attempt cands r).1.1.
Proof.
  induction cands as [|c cands IH]; intros r Hr; [done|]. cbn [watch_candidates].
  destruct (negb _); [by apply IH|]. destruct (attempt c) as [|evs [|]]; [by apply IH|by apply setLeader_wf|].
  specialize (IH _ (setLeader_wf now gid c r Hr)). by destruct (watch_candidates _ _ _ _ _) as [[? ?] ?].
Qed.
Lemma router_ok_route Sum64String dial {A} now what (errText : A → string) rpc hint key s :
  router_ok s → TopologyEpoch s.2 < 2 ^ 63 - 1 →
  ∃ r' res, route Sum64String dial hint key s.2 (λ gid, call_group now what errText (rpc gid) gid) = Some (r', res) ∧ router_ok (s.1, r').
Proof.
  destruct s as [[] r]; cbn; intros Hr He; [|by apply call_route_wf].
  destruct (closed_route Sum64String dial now what errText rpc hint key r Hr) as (gid & ->). eauto.
Qed.
Lemma router_reach_ok Sum64String s0 s : router_ok s0 → rtc (router_next Sum64String) s0 s → router_ok s.
Proof.
  intros Hr. induction 1 as [|s1 s2 s3 Hstep _ IH]; [done|]. apply IH. clear IH.
  destruct Hstep as [A closed dial now what errText rpc hint key r r' res He Heq|A closed now what errText rpc gid r|closed now gid attempt r|closed r].
  - destruct (router_ok_route Sum64String dial now what errText rpc hint key (closed, r) Hr He) as (? & ? & Heq' & ?). by simplify_eq/=.
  - destruct closed; cbn in *; [by rewrite closed_call|by apply call_group_wf].
  - destruct closed; cbn in *; [|by apply watch_candidates_wf].
    unfold groupReplicaCandidates. by rewrite (rcl_byID r Hr), lookup_empty.
  - destruct closed; cbn in *; [by rewrite router_Close_idem|by apply router_Close_closed].
Qed.

(** C26: A router built by the constructor (fewer than 2^63 shards, an epoch below
    2^63) stays safe through any calls made one after another, [Close] among them,
    with any answers, hints, watches and dialling results: while the epoch is below
    2^63 - 1 no routed operation panics (no assignment to a missing pool, no index
    out of range), every key resolves to a group, and a cached leader is always a
    connected replica.  Until [Close] the group of a key is known by its replicas
    and has a pool; [Close] leaves no group, connection or leader behind, and from
    then on every routed operation returns an error and changes nothing.  The
    constructor itself panics only for a negative leader index. *)
Theorem router_safe Sum64String dial0 now0 cfg :
  sc_NumShards cfg < 2 ^ 63 → sc_TopologyEpoch cfg < 2 ^ 63 →
  match NewShardRouter dial0 now0 cfg with
  | None => Exists (λ g, rg_LeaderIdx g < 0) (sc_Groups cfg)
  | Some (inl _) => True
  | Some (inr r0) =>
      ∀ closed r, rtc (router_next Sum64String) (false, r0) (closed, r) →
      (∀ key, ∃ gid, router_Resolve Sum64String r key = Some gid ∧ 0 < gid ∧
         (closed = false → ∃ g, rt_groupsByID r !! gid = Some g ∧ rg_Replicas g ≠ [] ∧ is_Some (rt_groupClients r !! gid))) ∧
      (∀ gid l, rt_leaderCache r !! gid = Some l → has_client r gid l = true) ∧
      (TopologyEpoch r < 2 ^ 63 - 1 → ∀ dial now get put del key value version ttl,
         GetRoute Sum64String dial now get key r ≠ None ∧
         PutRouteWithTTL Sum64String dial now put key value version ttl r ≠ None ∧
         DeleteRoute Sum64String dial now del key r ≠ None) ∧
      (closed = true →
         rt_groupsByID r = ∅ ∧ rt_groupClients r = ∅ ∧ rt_groupConns r = ∅ ∧ rt_leaderCache r = ∅ ∧
         ∀ dial now get put del key value version ttl,
           (∃ e, GetRoute Sum64String dial now get key r = Some (r, inl e)) ∧
           (∃ e, PutRouteWithTTL Sum64String dial now put key value version ttl r = Some (r, inl e)) ∧
           (∃ e, DeleteRoute Sum64String dial now del key r = Some (r, inl e)))
  end.
Proof.
  intros Hn He. destruct (NewShardRouter dial0 now0 cfg) as [[?|r0]|] eqn:E; [done| |by eapply new_router_panics].
  intros closed r Hr. apply router_reach_ok in Hr; [|by eapply (new_router_wf dial0 now0 cfg)]. split_and!.
  - intros key. destruct closed; cbn in Hr.
    + destruct (closed_resolve Sum64String r key Hr) as (gid & ? & ?). by exists gid.
    + destruct (resolve_known Sum64String r key Hr) as (gid & Hg & Hpos & [g Hb]). exists gid. split_and!; [done|done|].
      intros _. exists g. split_and!; [done|by eapply (rw_ids r Hr gid g)|]. apply elem_of_dom. rewrite (rw_dom r Hr). by eapply elem_of_dom_2.
  - destruct closed; cbn in Hr; [by rewrite (rcl_leader r Hr)|apply (rw_leader r Hr)].
  - intros Hep dial now get put del key value version ttl.
    split_and!; unfold GetRoute, PutRouteWithTTL, DeleteRoute, GetFromGroup, PutToGroupWithTTL, DeleteFromGroup; intros Hnone.
    + destruct (router_ok_route Sum64String dial now "get" GetResponse_error get GetResponse_hint key _ Hr Hep) as (? & ? & Hq & _).
      discriminate (eq_trans (eq_sym Hq) Hnone).
    + destruct (router_ok_route Sum64String dial now "put" PutResponse_error (λ gid, put gid {| PutRequest_key := key; PutRequest_value := value;
        PutRequest_version := version; PutRequest_ttl_seconds := ttl |}) PutResponse_hint key _ Hr Hep) as (? & ? & Hq & _).
      discriminate (eq_trans (eq_sym Hq) Hnone).
    + destruct (router_ok_route Sum64String dial now "delete" DeleteResponse_error del DeleteResponse_hint key _ Hr Hep) as (? & ? & Hq & _).
      discriminate (eq_trans (eq_sym Hq) Hnone).
  - intros ->. cbn in Hr. split_and!; [apply Hr..|]. intros dial now get put del key value version ttl.
    unfold GetRoute, PutRouteWithTTL, DeleteRoute, GetFromGroup, PutToGroupWithTTL, DeleteFromGroup. split_and!.
    + destruct (closed_route Sum64String dial now "get" GetResponse_error get GetResponse_hint key r Hr) as [gid Hq].
      exists (ErrNoAvailableReplica gid). exact Hq.
    + destruct (closed_route Sum64String dial now "put" PutResponse_error (λ gid, put gid {| PutRequest_key := key; PutRequest_value := value;
        PutRequest_version := version; PutRequest_ttl_seconds := ttl |}) PutResponse_hint key r Hr) as [gid Hq].
      exists (ErrNoAvailableReplica gid). exact Hq.
    + destruct (closed_route Sum64String dial now "delete" DeleteResponse_error del DeleteResponse_hint key r Hr) as [gid Hq].
      exists (ErrNoAvailableReplica gid). exact Hq.
Qed.

(** [learnHint] gives up the lock while it dials.  When [Close] runs in between,
    the connection is stored in a pool that no longer exists. *)
Theorem close_during_hint_panics r gid addr : router_wf r → put_client (router_Close r) gid addr = None.
Proof. intros Hr%router_Close_closed. unfold put_client, put_addr. by rewrite (rcl_conns _ Hr), lookup_empty. Qed.

(** Two groups; the second replica of group 2 cannot be reached. *)
Definition rt_cfg : ShardingConfig :=
  {| sc_Groups := [{| rg_GroupID := 1; rg_Replicas := ["a1"; "a2"]; rg_LeaderIdx := 0 |};
                   {| rg_GroupID := 2; rg_Replicas := ["b1"; "b2"]; rg_LeaderIdx := 1 |}];
     sc_NumShards := 4; sc_VirtualNodeCount := 0; sc_PreferredReplicas := 0; sc_ConnectTimeout := 0; sc_RequestTimeout := 0;
     sc_ShardToGroup := []; sc_TopologyEpoch := 0 |}.
Definition rt_dial (a : string) : bool := bool_decide (a ≠ "b2").
Definition rt_hash (k : string) : Z := Z.of_nat (String.length k).
Definition rt_router : ShardRouter :=
  match NewShardRouter rt_dial 0 rt_cfg with Some (inr r) => r | _ => mkRouter rt_cfg None ∅ ∅ ∅ ∅ ∅ 0 end.
Lemma rt_router_new : NewShardRouter rt_dial 0 rt_cfg = Some (inr rt_router).
Proof. vm_cast_no_check (eq_refl (Some (inr rt_router) : option (router_err + ShardRouter))). Qed.

(** A hint of a later epoch moves key [k] to a new group, then the router is
    closed. *)
Definition rt_answer (k : string) : rpc_result GetResponse :=
  RpcResp {| GetResponse_value := ""; GetResponse_version := 0; GetResponse_expires := 0; GetResponse_error := "ErrWrongGroup";
             GetResponse_hint := {| hint_group_id := 3; hint_replicas := ["c1"]; hint_epoch := 10 |} |}.
Definition rt_hinted : ShardRouter :=
  match GetRoute rt_hash rt_dial 0 (λ _, rt_answer) "k" rt_router with Some (r, _) => r | None => rt_router end.
Lemma rt_hinted_run : ∃ res, GetRoute rt_hash rt_dial 0 (λ _, rt_answer) "k" rt_router = Some (rt_hinted, res).
Proof. eexists. by vm_compute. Qed.
Lemma rt_hinted_reach : rtc (router_next rt_hash) (false, rt_router) (true, router_Close rt_hinted).
Proof.
  destruct rt_hinted_run as [res Hrun]. eapply rtc_l; [|apply rtc_once, rn_close].
  eapply (rn_route rt_hash false rt_dial 0 "get" GetResponse_error (λ _, rt_answer) GetResponse_hint "k"); [by vm_compute|exact Hrun].
Qed.
Lemma router_safe_witness :
  (∃ gid g, router_Resolve rt_hash rt_router "k" = Some gid ∧ rt_groupsByID rt_router !! gid = Some g) ∧
  (∃ e, GetRoute rt_hash rt_dial 0 (λ _, rt_answer) "k" (router_Close rt_hinted) = Some (router_Close rt_hinted, inl e)).
Proof.
  pose proof (router_safe rt_hash rt_dial 0 rt_cfg) as H. rewrite rt_router_new in H. specialize (H eq_refl eq_refl). split.
  - destruct (proj1 (H _ _ (rtc_refl _ _)) "k") as (gid & Hg & _ & Hk). destruct (Hk eq_refl) as (g & Hb & _). eauto.
  - destruct (H _ _ rt_hinted_reach) as (_ & _ & _ & Hc). destruct (Hc eq_refl) as (_ & _ & _ & _ & Hr).
    apply (Hr rt_dial 0 (λ _, rt_answer) (λ _ _ _, RpcNil) (λ _ _, RpcNil) "k" "" 0 0).
Defined.
Example rt_hinted_group : router_Resolve rt_hash rt_hinted "k" = Some 3.
Proof. by vm_compute. Qed.

(** A hint is compared with the router's own epoch, which counts the moves it has
    learnt and does not take over the epoch of the hint: after a hint of epoch 10
    sent key [k] to group 1, a delayed hint of epoch 5 sends it back to group 2. *)
Theorem stale_hint_wins :
  let hint g e := {| hint_group_id := g; hint_replicas := ["x"]; hint_epoch := e |} in
  (r1 ← learnHint rt_hash rt_dial "k" (hint 1 10) rt_router;
   r2 ← learnHint rt_hash rt_dial "k" (hint 2 5) r1;
   Some (router_Resolve rt_hash r1 "k", TopologyEpoch r1, router_Resolve rt_hash r2 "k")) = Some (Some 1, 2, Some 2).
Proof. by vm_compute. Qed.
