(* ===== verification/RouterCalls.v ===== *)
(** * What a call to a group does

    The candidates of a call are distinct connected replicas, the known leader
    first; the call returns the first answer that is not a leader error, remembers
    who gave it, and asks that replica first the next time. *)
From stdpp Require Import prelude gmap sorting strings relations.
From stdpp Require Import options.
From S2P Require Import Prelude KvApi Topology TopologyProps Pb Router RouterProps.
Local Open Scope Z_scope.

(** ** Candidates *)

Section candidates.
Context (r : ShardRouter) (gid : Z).

Lemma add_candidates_elem addrs x : ∀ cands,
  x ∈ add_candidates r gid addrs cands ↔ x ∈ cands ∨ (x ∈ addrs ∧ has_client r gid x = true).
Proof.
  induction addrs as [|a addrs IH]; intros cands; cbn [add_candidates]; [set_solver|]. rewrite IH, elem_of_cons.
  case_bool_decide as Ha; [naive_solver|].
  destruct (has_client r gid a) eqn:Hc; [rewrite elem_of_app, list_elem_of_singleton|]; split; intros H; destruct_or?; destruct_and?; destruct_or?; subst;
    eauto; congruence.
Qed.
Lemma add_candidates_NoDup addrs : ∀ cands, NoDup cands → NoDup (add_candidates r gid addrs cands).
Proof.
  induction addrs as [|a addrs IH]; intros cands Hn; cbn [add_candidates]; [done|]. apply IH.
  case_bool_decide; [done|]. destruct (has_client r gid a); [|done]. apply NoDup_app. split_and!; [done|set_solver|].
  apply NoDup_singleton.
Qed.
Lemma add_candidates_prefix addrs : ∀ cands, cands `prefix_of` add_candidates r gid addrs cands.
Proof.
  induction addrs as [|a addrs IH]; intros cands; cbn [add_candidates]; [done|].
  etransitivity; [|apply IH]. case_bool_decide; [done|]. destruct (has_client r gid a); [|done]. by eexists.
Qed.

(** The candidates before they are cut to the configured number. *)
Definition all_candidates (now : Z) : list string :=
  let leader := fresh_leader now r gid in
  add_candidates r gid (groupReplicaAddrs r gid)
    (if bool_decide (leader ≠ "") && has_client r gid leader then [leader] else []).

(** Whether all of them are tried. *)
Definition tries_all (now : Z) : Prop :=
  length (sc_Groups (rt_config r)) = 1%nat ∨ Z.of_nat (length (all_candidates now)) ≤ sc_PreferredReplicas (rt_config r).

Lemma all_candidates_elem now x : x ∈ all_candidates now →  has_client r gid x = true.
Proof.
  unfold all_candidates. rewrite add_candidates_elem. intros [Hx|[_ Hx]]; [|done].
  destruct (bool_decide _ && _) eqn:E; [|set_solver]. apply andb_prop in E as [_ E]. set_solver.
Qed.
Lemma all_candidates_NoDup now : NoDup (all_candidates now).
Proof. apply add_candidates_NoDup. destruct (_ && _); [apply NoDup_singleton|constructor]. Qed.

Lemma candidates_prefix now : is_Some (rt_groupsByID r !! gid) →
  groupReplicaCandidates now r gid `prefix_of` all_candidates now ∧
  (0 < sc_PreferredReplicas (rt_config r) → all_candidates now ≠ [] → groupReplicaCandidates now r gid ≠ []) ∧
  (tries_all now → groupReplicaCandidates now r gid = all_candidates now).
Proof.
  intros [g Hg]. unfold groupReplicaCandidates, tries_all. rewrite Hg.
  change (add_candidates r gid (rg_Replicas g) _) with
    (let leader := fresh_leader now r gid in add_candidates r gid (rg_Replicas g)
       (if bool_decide (leader ≠ "") && has_client r gid leader then [leader] else [])).
  assert (groupReplicaAddrs r gid = rg_Replicas g) as Haddr by (unfold groupReplicaAddrs; by rewrite Hg).
  unfold all_candidates. rewrite Haddr. cbv zeta. set (cands := add_candidates _ _ _ _). clearbody cands.
  set (pref := sc_PreferredReplicas _). set (single := length (sc_Groups _)).
  destruct (decide (single = 1%nat)); (destruct (decide (_ ∨ _)) as [Hm|Hm]; [rewrite decide_False by lia|]).
  - done.
  - rewrite decide_False by lia. done.
  - split_and!; [done|done|done].
  - destruct (decide (pref < Z.of_nat (length cands))) as [Hlt|]; [|done].
    split_and!; [apply prefix_take| |lia].
    intros Hp Hc. destruct cands; [done|]. destruct (Z.to_nat pref) eqn:E; [lia|done].
Qed.
End candidates.

(** ** The loop *)

Lemma invalidate_client gid addr r g x : has_client (invalidateLeader gid addr r) g x = has_client r g x.
Proof. unfold invalidateLeader. destruct (_ !! _); [|done]. by case_decide. Qed.

(** The part of the router that no call changes. *)
Definition same_routing (r r' : ShardRouter) : Prop :=
  rt_config r' = rt_config r ∧ rt_topology r' = rt_topology r ∧ rt_groupClients r' = rt_groupClients r ∧
  rt_groupConns r' = rt_groupConns r ∧ rt_groupsByID r' = rt_groupsByID r ∧ rt_leaderCacheTTL r' = rt_leaderCacheTTL r.
Lemma same_routing_trans r1 r2 r3 : same_routing r1 r2 → same_routing r2 r3 → same_routing r1 r3.
Proof. unfold same_routing. intuition congruence. Qed.
Lemma invalidate_same gid addr r : same_routing r (invalidateLeader gid addr r).
Proof. unfold invalidateLeader. destruct (_ !! _); [case_decide|]; by unfold same_routing. Qed.

(** The cached leader after all of [cands] were refused. *)
Definition forgets (gid : Z) (cands : list string) (r r' : ShardRouter) : Prop :=
  same_routing r r' ∧ ∀ l, rt_leaderCache r' !! gid = Some l → rt_leaderCache r !! gid = Some l ∧ (l ∉ cands).

Lemma invalidate_forgets gid c cands r r' : forgets gid cands (invalidateLeader gid c r) r' → forgets gid (c :: cands) r r'.
Proof.
  intros [Hs Hl]. split; [eapply same_routing_trans; [apply invalidate_same|exact Hs]|].
  intros l Hl'. destruct (Hl l Hl') as [Hc Hn]. revert Hc. unfold invalidateLeader.
  destruct (rt_leaderCache r !! gid) as [cur|] eqn:E; [|by rewrite E].
  case_decide as Hd; cbn; [by rewrite lookup_delete_eq|]. rewrite E. intros [= ->]. split; [done|].
  apply not_elem_of_cons. split; [|done]. intros ->. naive_solver.
Qed.

Section call.
Context {A : Type} (now : Z) (what : string) (errText : A → string) (rpc : string → rpc_result A) (gid : Z).

(** The answer sends the router to the next replica. *)
Definition refuses (a : string) : Prop :=
  match rpc a with RpcResp resp => isWrongLeader (errText resp) = true | _ => True end.

Lemma refuse_step c cands e r : has_client r gid c = true → refuses c → ∃ e',
  call_loop now what errText rpc gid (c :: cands) e r = call_loop now what errText rpc gid cands (Some e') (invalidateLeader gid c r).
Proof.
  intros Hc Href. cbn [call_loop]. rewrite Hc. unfold refuses in Href. destruct (rpc c); cbn; [eauto..|]. rewrite Href. eauto.
Qed.

Lemma call_loop_refused cands : ∀ e r, Forall (λ c, has_client r gid c = true ∧ refuses c) cands →
  ∃ e' r', call_loop now what errText rpc gid cands e r = (r', inl e') ∧ forgets gid cands r r'.
Proof.
  induction cands as [|c cands IH]; intros e r Hall.
  { eexists _, r. split; [done|]. split; [by unfold same_routing|]. intros l Hl. split; [done|set_solver]. }
  apply Forall_cons in Hall as [[Hc Href] Hall]. destruct (refuse_step c cands e r Hc Href) as [e1 ->].
  destruct (IH (Some e1) (invalidateLeader gid c r)) as (e' & r' & Heq & Hf).
  { eapply Forall_impl; [exact Hall|]. cbn. intros x. by rewrite invalidate_client. }
  exists e', r'. split; [done|]. by apply invalidate_forgets.
Qed.

Lemma call_loop_answer pre a post resp : ∀ e r, Forall (λ c, has_client r gid c = true ∧ refuses c) pre →
  has_client r gid a = true → rpc a = RpcResp resp → isWrongLeader (errText resp) = false →
  ∃ r', call_loop now what errText rpc gid (pre ++ a :: post) e r = (setLeader now gid a r', inr resp) ∧
    same_routing r r' ∧ has_client r' gid a = true.
Proof.
  induction pre as [|c pre IH]; intros e r Hpre Ha Hresp Hok.
  { exists r. cbn [app call_loop]. rewrite Ha, Hresp, Hok. split_and!; by unfold same_routing. }
  apply Forall_cons in Hpre as [[Hc Href] Hpre]. cbn [app]. destruct (refuse_step c (pre ++ a :: post) e r Hc Href) as [e1 ->].
  destruct (IH (Some e1) (invalidateLeader gid c r)) as (r' & Heq & Hs & Hc').
  - eapply Forall_impl; [exact Hpre|]. cbn. intros x. by rewrite invalidate_client.
  - by rewrite invalidate_client.
  - done.
  - done.
  - exists r'. split; [done|]. split; [eapply same_routing_trans; [apply invalidate_same|done]|done].
Qed.

Lemma refuses_dec a : {refuses a} + {¬ refuses a}.
Proof.
  unfold refuses. destruct (rpc a); [by left..|]. destruct (isWrongLeader _); [by left|by right].
Qed.
Lemma split_at_answer cands : Forall refuses cands ∨
  ∃ pre a post, cands = pre ++ a :: post ∧ Forall refuses pre ∧ ¬ refuses a.
Proof.
  induction cands as [|c cands [IH|(pre & a & post & -> & Hpre & Ha)]]; [by left| |].
  - destruct (refuses_dec c); [left; by constructor|]. right. exists [], c, cands. split_and!; [done|constructor|done].
  - right. destruct (refuses_dec c); [exists (c :: pre), a, post; split_and!; [done|by constructor|done]|].
    exists [], c, (pre ++ a :: post). split_and!; [done|constructor|done].
Qed.
Lemma answer_response a : ¬ refuses a → ∃ resp, rpc a = RpcResp resp ∧ isWrongLeader (errText resp) = false.
Proof. unfold refuses. destruct (rpc a); [naive_solver..|]. intros H%not_true_is_false. eauto. Qed.
End call.

(** A replica that was just remembered comes first. *)
Lemma leader_first r r' now now' gid a :
  same_routing r r' → is_Some (rt_groupsByID r !! gid) → 0 < sc_PreferredReplicas (rt_config r) →
  has_client r' gid a = true → now' - now ≤ rt_leaderCacheTTL r → a ≠ "" →
  head (groupReplicaCandidates now' (setLeader now gid a r') gid) = Some a.
Proof.
  intros (Hcf & Ht & Hcl & Hcn & Hby & Httl) Hg Hpref Hc Hnow Hne. set (r1 := setLeader now gid a r').
  assert (r1 = with_leaders (<[gid := a]> (rt_leaderCache r')) (<[gid := now]> (rt_leaderCacheUpdatedAt r')) r') as Hr1.
  { unfold r1, setLeader. by rewrite Hc. }
  assert (is_Some (rt_groupsByID r1 !! gid)) as Hg1 by (rewrite Hr1; cbn; by rewrite Hby).
  assert (fresh_leader now' r1 gid = a) as Hfr.
  { unfold fresh_leader. rewrite Hr1. cbn. rewrite !lookup_insert_eq. rewrite decide_False by (rewrite Httl; lia). done. }
  destruct (candidates_prefix r1 gid now' Hg1) as (Hpre & Hne1 & _).
  assert ([a] `prefix_of` all_candidates r1 gid now') as [k Hk].
  { unfold all_candidates. rewrite Hfr, bool_decide_true by done. assert (has_client r1 gid a = true) as -> by (rewrite Hr1; exact Hc).
    apply add_candidates_prefix. }
  rewrite Hk in Hpre, Hne1. specialize (Hne1 ltac:(rewrite Hr1; cbn; by rewrite Hcf) ltac:(done)).
  destruct (groupReplicaCandidates now' r1 gid) as [|x l]; [done|]. destruct Hpre as [k' Hk']. by injection Hk' as ->.
Qed.

(** C24: A call to a known group tries distinct connected replicas, at most once
    each and the fresh cached leader first, and returns the first answer that is
    not a leader error; the replica that gave it is asked first by every call
    within the lifetime of the cache entry.  If all candidates refuse, the call
    fails and none of them is remembered as leader.  When the group has no more
    connected replicas than the configured number (or is the only group), a
    connected replica that answers is always found. *)
Theorem call_finds_leader {A} now what (errText : A → string) rpc gid r :
  is_Some (rt_groupsByID r !! gid) → 0 < sc_PreferredReplicas (rt_config r) →
  let cands := groupReplicaCandidates now r gid in
  let r' := (call_group now what errText rpc gid r).1 in
  let res := (call_group now what errText rpc gid r).2 in
  NoDup cands ∧ Forall (λ c, has_client r gid c = true) cands ∧
  ((∃ pre a post resp, cands = pre ++ a :: post ∧ Forall (refuses errText rpc) pre ∧
      rpc a = RpcResp resp ∧ isWrongLeader (errText resp) = false ∧ res = inr resp ∧
      ∀ now', now' - now ≤ rt_leaderCacheTTL r → a ≠ "" → head (groupReplicaCandidates now' r' gid) = Some a) ∨
   (Forall (refuses errText rpc) cands ∧ ∃ e, res = inl e ∧ ∀ l, rt_leaderCache r' !! gid = Some l → l ∉ cands)) ∧
  (tries_all r gid now → ∀ a, a ∈ groupReplicaAddrs r gid → has_client r gid a = true → ¬ refuses errText rpc a →
     ∃ resp, res = inr resp).
Proof.
  intros Hg Hpref. cbv zeta. destruct (candidates_prefix r gid now Hg) as (Hpre & _ & Hall).
  assert (Forall (λ c, has_client r gid c = true) (groupReplicaCandidates now r gid)) as Hconn.
  { apply Forall_forall. intros c Hc. apply (all_candidates_elem r gid now). destruct Hpre as [k ->]. set_solver. }
  assert (NoDup (groupReplicaCandidates now r gid)) as Hnd.
  { destruct Hpre as [k Hk]. pose proof (all_candidates_NoDup r gid now) as Hn. rewrite Hk in Hn. by apply NoDup_app in Hn as [? _]. }
  split; [done|]. split; [done|]. unfold call_group.
  destruct (split_at_answer errText rpc (groupReplicaCandidates now r gid)) as [Href|(pre & a & post & Hc & Hrefs & Ha)].
  - destruct (call_loop_refused now what errText rpc gid (groupReplicaCandidates now r gid) None r) as (e & r' & Heq & _ & Hf).
    { by apply Forall_and. }
    rewrite Heq. cbn [fst snd]. split.
    + right. split; [done|]. exists e. split; [done|]. intros l Hl. by apply Hf.
    + intros Ht x Hx Hcx Hn. destruct Hn. rewrite Forall_forall in Href. apply Href. rewrite (Hall Ht).
      apply add_candidates_elem. by right.
  - destruct (answer_response errText rpc a Ha) as (resp & Hresp & Hok).
    rewrite Hc in Hconn. apply Forall_app in Hconn as [Hcp [Hca _]%Forall_cons].
    destruct (call_loop_answer now what errText rpc gid pre a post resp None r) as (r' & Heq & Hs & Hcl); [by apply Forall_and|done..|].
    rewrite Hc, Heq. cbn [fst snd]. split; [left; exists pre, a, post, resp; split_and!; try done|eauto].
    intros now' Hnow Hne. by apply (leader_first r).
Qed.

(** The first replica is no longer the leader, the second is. *)
Definition rc_rpc (a : string) : rpc_result string :=
  if decide (a = "a1") then RpcResp "ErrWrongLeader" else RpcResp "OK".
Lemma call_finds_leader_witness :
  groupReplicaCandidates 0 rt_router 1 = ["a1"; "a2"] ∧ ∃ resp, (call_group 0 "CommitTx" id rc_rpc 1 rt_router).2 = inr resp.
Proof.
  split; [by vm_compute|].
  refine (proj2 (proj2 (proj2 (call_finds_leader 0 "CommitTx" id rc_rpc 1 rt_router _ _))) _ "a2" _ _ _).
  - by eexists.
  - done.
  - right. by vm_compute.
  - vm_compute. right. left.
  - done.
  - by vm_compute.
Defined.

(** ** A leader that is never asked *)

Definition five_cfg : ShardingConfig :=
  {| sc_Groups := [{| rg_GroupID := 1; rg_Replicas := ["a1"; "a2"; "a3"; "a4"; "a5"]; rg_LeaderIdx := 0 |};
                   {| rg_GroupID := 2; rg_Replicas := ["b1"]; rg_LeaderIdx := 0 |}];
     sc_NumShards := 4; sc_VirtualNodeCount := 0; sc_PreferredReplicas := 0; sc_ConnectTimeout := 0; sc_RequestTimeout := 0;
     sc_ShardToGroup := []; sc_TopologyEpoch := 0 |}.
Definition five_router : ShardRouter :=
  match NewShardRouter (λ _, true) 0 five_cfg with Some (inr r) => r | _ => rt_router end.
(** Only the fifth replica is the leader. *)
Definition five_rpc (a : string) : rpc_result string :=
  if decide (a = "a5") then RpcResp "OK" else RpcResp "ErrWrongLeader".
Definition five_call (now : Z) (r : ShardRouter) := call_group now "CommitTx" id five_rpc 1 r.

(** With more than one group the candidates are cut to three by default, and
    only an answer changes the order in which replicas are tried: in a group of
    five whose leader is the fifth, every call fails although all five replicas
    are connected. *)
Theorem leader_never_asked : ∀ times : list Z,
  Forall (λ a, has_client five_router 1 a = true) ["a1"; "a2"; "a3"; "a4"; "a5"] ∧
  ∀ now, ∃ e, (five_call now (foldl (λ r now, (five_call now r).1) (five_call 0 five_router).1 times)).2 = inl e.
Proof.
  intros times. split; [by repeat constructor|]. intros now.
  set (r1 := (five_call 0 five_router).1).
  assert (∀ now, five_call now r1 = (r1, inl (ErrGroupWrongLeader 1 "a3"))) as Hfix by (intros n; by vm_compute).
  assert (foldl (λ r now, (five_call now r).1) r1 times = r1) as ->.
  { induction times as [|t times IH]; [done|]. cbn [foldl]. by rewrite Hfix. }
  exists (ErrGroupWrongLeader 1 "a3"). by rewrite Hfix.
Qed.
