(* ===== verification/RouterScan.v ===== *)
(** * Scanning all groups

    [ScanRoute] asks every group for at most [limit] entries, merges the answers
    and cuts the result: the same entries as merging everything first. *)
From stdpp Require Import prelude gmap sorting strings relations.
From stdpp Require Import options.
From S2P Require Import Prelude KvApi Topology TopologyProps Pb Router RouterProps RouterCalls.
Local Open Scope Z_scope.

(** ** The order *)

#[global] Instance kv_le_dec x y : Decision (kv_le x y).
Proof. unfold kv_le. apply _. Defined.
#[global] Instance kv_le_trans : Transitive kv_le.
Proof.
  unfold kv_le. intros x y z [[E1 L1]|[N1 L1]] [[E2 L2]|[N2 L2]].
  - left. split; [congruence|lia].
  - right. by rewrite E1.
  - right. by rewrite <-E2.
  - right. split; [|by etransitivity]. intros E. rewrite E in L1. by apply N2, (anti_symm String.le).
Qed.
#[global] Instance kv_le_total : Total kv_le.
Proof.
  unfold kv_le. intros x y. destruct (decide (kv_key x = kv_key y)) as [E|N].
  - destruct (decide (kv_version x ≤ kv_version y)); [by left; left|right; left]. split; [done|lia].
  - destruct (total String.le (kv_key x) (kv_key y)); [left|right]; right; done.
Qed.

(** ** The first entries of a union *)

Section topk.
Variable sort_items : list KeyValue → list KeyValue.
Implicit Types l : list KeyValue.

Definition sorts : Prop := ∀ l, sort_items l ≡ₚ l ∧ StronglySorted kv_le (sort_items l).
Lemma filter_none (P : KeyValue → Prop) `{!∀ x, Decision (P x)} l : (∀ x, x ∈ l → ¬ P x) → filter P l = [].
Proof.
  induction l as [|x l IH]; intros Hl; [done|]. rewrite filter_cons_False by (apply Hl; left).
  apply IH. intros y Hy. apply Hl. by right.
Qed.
Lemma filter_every (P : KeyValue → Prop) `{!∀ x, Decision (P x)} l : (∀ x, x ∈ l → P x) → filter P l = l.
Proof.
  induction l as [|x l IH]; intros Hl; [done|]. rewrite filter_cons_True by (apply Hl; left).
  f_equal. apply IH. intros y Hy. apply Hl. by right.
Qed.
Lemma sorted_below l x y n : StronglySorted kv_le l → x ∈ take n l → ¬ kv_le x y → (length (filter (λ z, kv_le z y) l) < n)%nat.
Proof.
  intros Hs [i Hi]%list_elem_of_lookup_1 Hn. apply lookup_take_Some in Hi as [Hi Hlt].
  apply list_elem_of_split_length in Hi as (l1 & l2 & -> & ->). apply StronglySorted_app in Hs as (_ & _ & Hs).
  apply StronglySorted_inv in Hs as [_ Hs]. rewrite Forall_forall in Hs.
  rewrite filter_app, (filter_none _ (x :: l2)), app_nil_r.
  - pose proof (length_filter (λ z, kv_le z y) l1). lia.
  - intros z [->|Hz]%elem_of_cons; [done|]. intros Hzy. apply Hn. by transitivity z; [apply Hs|].
Qed.
Lemma concat_below fulls l y n : l ∈ fulls → StronglySorted kv_le l → y ∈ drop n l →
  (n ≤ length (filter (λ z, kv_le z y) (concat (take n <$> fulls))))%nat.
Proof.
  intros [f1 [f2 ->]]%list_elem_of_split Hs Hy. rewrite fmap_app, fmap_cons, concat_app. cbn [concat].
  rewrite !filter_app, !length_app. enough (length (filter (λ z, kv_le z y) (take n l)) = n) by lia.
  assert (n < length l)%nat as Hlen.
  { apply list_elem_of_lookup_1 in Hy as [j Hj]. rewrite lookup_drop in Hj. apply lookup_lt_Some in Hj. lia. }
  rewrite <-(take_drop n l) in Hs. apply StronglySorted_app in Hs as (Hs & _ & _).
  rewrite (filter_every _ (take n l)); [rewrite length_take; lia|]. intros z Hz. by apply Hs.
Qed.
Lemma concat_take_drop n (fulls : list (list KeyValue)) : concat fulls ≡ₚ concat (take n <$> fulls) ++ concat (drop n <$> fulls).
Proof.
  induction fulls as [|l fulls IH]; [done|]. cbn [fmap list_fmap concat]. rewrite <-(take_drop n l) at 1.
  rewrite IH. rewrite <-!app_assoc. apply Permutation_app_head. rewrite !app_assoc. apply Permutation_app_tail, Permutation_app_comm.
Qed.

(** Sorting the first [n] of every list gives the first [n] of some order of
    everything. *)
Lemma topk (fulls : list (list KeyValue)) n : sorts → Forall (StronglySorted kv_le) fulls →
  ∃ l, l ≡ₚ concat fulls ∧ StronglySorted kv_le l ∧ take n l = take n (sort_items (concat (take n <$> fulls))).
Proof.
  intros Hsort Hs. set (part := concat (take n <$> fulls)). set (rest := concat (drop n <$> fulls)).
  destruct (Hsort part) as [Hpp Hps]. destruct (Hsort (drop n (sort_items part) ++ rest)) as [Hpr Hpsr].
  assert (∀ y, y ∈ rest → (n ≤ length (filter (λ z, kv_le z y) (sort_items part)))%nat) as Hbelow.
  { intros y Hy. apply list_elem_of_In, in_concat in Hy as (l & Hl%list_elem_of_In & Hy%list_elem_of_In). apply list_elem_of_fmap in Hl as (l' & -> & Hl').
    rewrite Hpp. eapply concat_below; [done| |done]. rewrite Forall_forall in Hs. by apply Hs. }
  exists (take n (sort_items part) ++ sort_items (drop n (sort_items part) ++ rest)). split_and!.
  - rewrite Hpr, app_assoc, take_drop, Hpp. symmetry. apply concat_take_drop.
  - rewrite <-(take_drop n (sort_items part)) in Hps. apply StronglySorted_app in Hps as (Hle & Hs1 & Hs2).
    apply StronglySorted_app_2; [|done|done]. intros x y Hx Hy. rewrite Hpr in Hy. apply elem_of_app in Hy as [Hy|Hy]; [auto|].
    destruct (decide (kv_le x y)) as [|Hn]; [done|]. exfalso.
    pose proof (sorted_below (sort_items part) x y n (proj2 (Hsort part)) Hx Hn). specialize (Hbelow y Hy). lia.
  - destruct (decide (n ≤ length (sort_items part))%nat) as [Hn|Hn].
    + rewrite take_app_le by (rewrite length_take; lia). rewrite take_take. f_equal. lia.
    + assert (rest = []) as Hr.
      { destruct rest as [|y rest']; [done|]. specialize (Hbelow y ltac:(left)).
        pose proof (length_filter (λ z, kv_le z y) (sort_items part)). lia. }
      rewrite Hr, app_nil_r, (drop_ge (sort_items part)) by lia. destruct (Hsort []) as [Hnil _].
      apply Permutation_nil_r in Hnil. rewrite Hnil, app_nil_r, take_take. f_equal. lia.
Qed.
End topk.

(** ** The route *)

(** Answering a scan: at most [limit] entries when it is positive. *)
Definition limited (limit : Z) (l : list KeyValue) : list KeyValue := if decide (0 < limit) then take (Z.to_nat limit) l else l.

Section route.
Context (sort_items : list KeyValue → list KeyValue) (now : Z) (full : Z → list KeyValue).
(** Every replica answers with the first entries of its group. *)
Definition group_scan (limit gid : Z) (_ : string) : rpc_result ScanResponse :=
  RpcResp {| ScanResponse_items := limited limit (full gid); ScanResponse_error := "OK" |}.
(** Every group has a connected replica. *)
Definition reachable (r : ShardRouter) : Prop :=
  0 < sc_PreferredReplicas (rt_config r) ∧
  ∀ gid, is_Some (rt_groupsByID r !! gid) → ∃ a, a ∈ groupReplicaAddrs r gid ∧ has_client r gid a = true.

Lemma ScanGroup_answer limit gid r : reachable r → is_Some (rt_groupsByID r !! gid) →
  ∃ r', ScanGroup now (group_scan limit gid) gid r = (r', inr (limited limit (full gid))) ∧ same_routing r r'.
Proof.
  intros [Hpref Hrch] Hg. destruct (Hrch gid Hg) as (a & Ha & Hc). unfold ScanGroup, call_group.
  destruct (candidates_prefix r gid now Hg) as ([k Hpre] & Hne & _).
  assert (groupReplicaCandidates now r gid ≠ []) as Hcne.
  { apply Hne; [done|]. intros Hnil. assert (a ∈ all_candidates r gid now) as Hin by (apply add_candidates_elem; by right).
    rewrite Hnil in Hin. set_solver. }
  destruct (groupReplicaCandidates now r gid) as [|c cands]; [done|].
  assert (has_client r gid c = true) as Hcc by (apply (all_candidates_elem r gid now); rewrite Hpre; left).
  destruct (call_loop_answer now "scan" ScanResponse_error (group_scan limit gid) gid [] c cands
    {| ScanResponse_items := limited limit (full gid); ScanResponse_error := "OK" |} None r) as (r' & Heq & Hs & _);
    [constructor|done|done|done|].
  cbn [app] in Heq. rewrite Heq. eexists. split; [done|]. eapply same_routing_trans; [exact Hs|].
  unfold setLeader. by case_match.
Qed.
Lemma reachable_same r r' : same_routing r r' → reachable r → reachable r'.
Proof.
  intros (Hcf & _ & Hcl & _ & Hby & _) [Hp Hr]. split; [by rewrite Hcf|]. intros gid. unfold groupReplicaAddrs, has_client.
  rewrite Hby, Hcl. apply Hr.
Qed.

Lemma scan_groups_answer limit gids : ∀ r, reachable r → Forall (λ gid, is_Some (rt_groupsByID r !! gid)) gids →
  ∃ r', scan_groups now (group_scan limit) gids r = (r', inr ∘ limited limit ∘ full <$> gids) ∧ same_routing r r'.
Proof.
  induction gids as [|gid gids IH]; intros r Hr Hall; [exists r; by unfold same_routing|].
  apply Forall_cons in Hall as [Hg Hall]. cbn [scan_groups].
  destruct (ScanGroup_answer limit gid r Hr Hg) as (r1 & -> & Hs1).
  destruct (IH r1) as (r2 & -> & Hs2); [by eapply reachable_same|destruct Hs1 as (_ & _ & _ & _ & -> & _); done|].
  exists r2. split; [done|]. by eapply same_routing_trans.
Qed.
Lemma collect_answers (ls : list (list KeyValue)) : collect_scans (inr <$> ls) = inr (concat ls).
Proof. induction ls as [|l ls IH]; [done|]. cbn [fmap list_fmap collect_scans concat]. by rewrite IH. Qed.
End route.

Lemma limited_if limit l : (if decide (0 < limit ∧ limit < Z.of_nat (length l)) then take (Z.to_nat limit) l else l) = limited limit l.
Proof.
  unfold limited. destruct (decide (0 < limit)); [|by rewrite decide_False by lia].
  case_decide; [done|]. by rewrite take_ge by lia.
Qed.
Lemma limited_topk sort_items limit fulls : sorts sort_items → Forall (StronglySorted kv_le) fulls →
  ∃ l, l ≡ₚ concat fulls ∧ StronglySorted kv_le l ∧
    limited limit (sort_items (concat (limited limit <$> fulls))) = limited limit l.
Proof.
  intros Hsort Hs. unfold limited. destruct (decide (0 < limit)) as [Hpos|Hpos].
  - destruct (topk sort_items fulls (Z.to_nat limit)) as (k & ? & ? & ?); [done|done|]. by exists k.
  - destruct (Hsort (concat fulls)). exists (sort_items (concat fulls)). by rewrite list_fmap_id.
Qed.

(** C25: A scan over all groups is exact.  When every group the router knows
    (at least one) has a connected replica and every replica that is asked
    answers with its group's first [limit] entries in order of key and version,
    the result of [ScanRoute] is the first [limit] entries (all of them for a
    limit that is not positive) of a list that holds every entry of every group
    as often as the groups do and is in order of key and version.  This holds
    for any sort.Slice that permutes and sorts, also when a key is in two groups
    with the same version, as during a migration: then both entries are in the
    list, next to each other, in the order the sort chose. *)
Theorem scan_route_exact sort_items now full prefix limit r :
  sorts sort_items → reachable r → rt_groupsByID r ≠ ∅ → (∀ gid, StronglySorted kv_le (full gid)) →
  ∃ l, l ≡ₚ concat (full <$> router_GroupIDs r) ∧ StronglySorted kv_le l ∧
    (ScanRoute sort_items now (λ _, group_scan full) prefix limit r).2 = inr (limited limit l).
Proof.
  intros Hsort Hr Hne Hs. unfold ScanRoute.
  assert (Forall (λ gid, is_Some (rt_groupsByID r !! gid)) (router_GroupIDs r)) as Hall.
  { apply Forall_forall. intros gid. unfold router_GroupIDs. rewrite sort_ints_perm, elem_of_elements. apply elem_of_dom. }
  assert (router_GroupIDs r ≠ []) as Hids.
  { unfold router_GroupIDs. intros Hnil. apply Hne, dom_empty_iff_L, elem_of_equiv_empty_L. intros g Hg.
    apply elem_of_elements in Hg. rewrite <-sort_ints_perm, Hnil in Hg. set_solver. }
  destruct (router_GroupIDs r) as [|g1 [|g2 gids]]; [done| |].
  - apply Forall_cons in Hall as [Hg _]. destruct (ScanGroup_answer now full limit g1 r Hr Hg) as (r' & -> & _).
    exists (full g1). cbn [snd fmap list_fmap concat]. by rewrite app_nil_r.
  - set (lim := if decide (limit ≤ 0) then 0 else limit). revert Hall. generalize (g1 :: g2 :: gids). intros ids Hall.
    destruct (scan_groups_answer now full lim ids r Hr Hall) as (r' & -> & _).
    rewrite !list_fmap_compose, collect_answers. cbn [snd]. rewrite limited_if.
    assert (∀ l, limited lim l = limited limit l) as Hlim by (intros l; unfold lim, limited; repeat case_decide; try done; lia).
    rewrite (list_fmap_ext (limited lim) (limited limit)) by (intros; apply Hlim).
    destruct (limited_topk sort_items limit (full <$> ids)) as (l & Hp & Hl & Heq); [done| |].
    { apply Forall_fmap, Forall_forall. intros gid _. apply Hs. }
    exists l. split_and!; [done|done|]. by rewrite Heq.
Qed.

Definition rs_kv (k : string) (v : Z) : KeyValue := {| kv_key := k; kv_value := ""; kv_version := v; kv_expires := 0 |}.
Definition rs_full (gid : Z) : list KeyValue :=
  if decide (gid = 1) then [rs_kv "a" 1; rs_kv "d" 1] else if decide (gid = 2) then [rs_kv "a" 1; rs_kv "c" 2] else [].
Lemma merge_sorts : sorts (merge_sort kv_le).
Proof. intros l. split; [apply merge_sort_Permutation|]. by apply (StronglySorted_merge_sort kv_le). Qed.
Lemma rs_reachable : reachable rt_router.
Proof.
  split; [done|]. intros gid Hg. apply elem_of_dom in Hg.
  assert (dom (rt_groupsByID rt_router) = {[1; 2]}) as Hd by (by vm_compute).
  rewrite Hd in Hg. apply elem_of_union in Hg as [->%elem_of_singleton | ->%elem_of_singleton];
    [exists "a1"|exists "b1"]; (split; [vm_compute; left|by vm_compute]).
Qed.
(** Key [a] is in both groups with the same version. *)
Lemma scan_route_exact_witness :
  ∃ l, l ≡ₚ [rs_kv "a" 1; rs_kv "d" 1; rs_kv "a" 1; rs_kv "c" 2] ∧ StronglySorted kv_le l ∧
    (ScanRoute (merge_sort kv_le) 0 (λ _, group_scan rs_full) "" 3 rt_router).2 = inr (limited 3 l).
Proof.
  refine (scan_route_exact (merge_sort kv_le) 0 rs_full "" 3 rt_router merge_sorts rs_reachable _ _).
  - by vm_compute.
  - intros gid. unfold rs_full. case_decide; [|case_decide]; apply Sorted_StronglySorted; try apply _; apply (bool_decide_unpack _); by vm_compute.
Defined.
Example scan_route_run :
  (ScanRoute (merge_sort kv_le) 0 (λ _, group_scan rs_full) "" 3 rt_router).2 = inr [rs_kv "a" 1; rs_kv "a" 1; rs_kv "c" 2].
Proof. by vm_compute. Qed.
