(* ===== verification/TxCoord.v ===== *)
(** * pkg/kv/tx_coordinator.go: the client's side of two-phase commit

    A [TxHandle] collects reads and writes; [Commit] is split where it waits for
    the network: planning, collecting the answers of phase 1, recording the
    decision, and the answer to the caller.  [router.Resolve] is the parameter
    [resolve]; the answers of the network are arguments: an error text [Some e]
    of a response, or [None] when the call failed.  The requests are given as the
    participant receives them ([PrepareTx], [CommitTx], [AbortTx],
    [ResolveTxStatus] and [QueryTxDecision] of grpc.go unpack them). *)
From stdpp Require Import prelude gmap sorting strings.
From stdpp Require Import options.
From S2P Require Import Prelude Json KvApi ExpiryHeap Store Tx Topology.
Local Open Scope Z_scope.

Definition txCommitMaxRetries : nat := 5.

Record TxHandle := mkHandle {
  th_txID : string; th_readSet : gmap string ReadKey; th_writeSet : gmap string WriteKey;
  th_groups : gset Z; th_timeoutMs : Z }.

Definition Begin (txID : string) : TxHandle := mkHandle txID ∅ ∅ ∅ txDefaultTimeoutMs.

(** [clerkGet] on the response of [GetRoute]: value, version, expiry, error. *)
Definition clerkGet (resp : option (string * Z * Z * string)) : string * Z * Err :=
  match resp with
  | None => ("", 0, ErrWrongLeader)
  | Some (value, version, _, e) =>
      if decide (mapPBErr e = OK) then (value, version, OK) else ("", 0, mapPBErr e)
  end.

Section coordinator.
Variable resolve : string → Z.
(** The order in which Go ranges over a map, for its values. *)
Variables (worder : list WriteKey → list WriteKey) (rorder : list ReadKey → list ReadKey).

Definition th_Get (resp : option (string * Z * Z * string)) (key : string) (h : TxHandle)
    : TxHandle * (string * Z * Err) :=
  match th_writeSet h !! key with
  | Some wk => (h, (WriteKey_Value wk, WriteKey_Version wk, OK))
  | None =>
  match th_readSet h !! key with
  | Some rk => (h, (ReadKey_Value rk, ReadKey_ExpectedVersion rk, OK))
  | None =>
      let '(val, ver, e) := clerkGet resp in
      if decide (e = OK) then
        (mkHandle (th_txID h) (<[key := {| ReadKey_Key := key; ReadKey_Value := val; ReadKey_ExpectedVersion := ver |}]>
           (th_readSet h)) (th_writeSet h) (th_groups h) (th_timeoutMs h), (val, ver, OK))
      else (h, ("", 0, e))
  end end.

Definition add_group (key : string) (groups : gset Z) : gset Z :=
  let gid := resolve key in if decide (0 ≤ gid) then {[gid]} ∪ groups else groups.

Definition th_Put (key value : string) (expectedVersion : Z) (h : TxHandle) : TxHandle :=
  mkHandle (th_txID h) (th_readSet h)
    (<[key := {| WriteKey_Key := key; WriteKey_Value := value; WriteKey_Version := expectedVersion;
                 WriteKey_IsDelete := false |}]> (th_writeSet h))
    (add_group key (th_groups h)) (th_timeoutMs h).

Definition th_Delete (resp : option (string * Z * Z * string)) (key : string) (h : TxHandle) : TxHandle :=
  let '(version, reads) :=
    match th_readSet h !! key with
    | Some rk => (ReadKey_ExpectedVersion rk, th_readSet h)
    | None =>
        let '(_, ver, e) := clerkGet resp in
        if decide (e = OK) then
          (ver, <[key := {| ReadKey_Key := key; ReadKey_Value := ""; ReadKey_ExpectedVersion := ver |}]> (th_readSet h))
        else (0, th_readSet h)
    end in
  mkHandle (th_txID h) reads
    (<[key := {| WriteKey_Key := key; WriteKey_Value := ""; WriteKey_Version := version;
                 WriteKey_IsDelete := true |}]> (th_writeSet h))
    (add_group key (th_groups h)) (th_timeoutMs h).

(** Grouping the values of a map, in the order of the range. *)
Definition by_group {A} (key : A → string) (l : list A) : gmap Z (list A) :=
  foldl (λ m x, let gid := resolve (key x) in
                if decide (0 ≤ gid) then <[gid := default [] (m !! gid) ++ [x]]> m else m) ∅ l.
Definition values {A} (m : gmap string A) : list A := (map_to_list m).*2.
Definition groupWriteKeys (h : TxHandle) : gmap Z (list WriteKey) := by_group WriteKey_Key (worder (values (th_writeSet h))).
Definition groupReadKeys (h : TxHandle) : gmap Z (list ReadKey) := by_group ReadKey_Key (rorder (values (th_readSet h))).

Definition group_total {A} (m : gmap Z (list A)) : nat := map_fold (λ _ l n, (length l + n)%nat) 0%nat m.

(** ** Commit: planning *)

Inductive tx_plan :=
  | PlanReturn (e : Err)
  | Plan (allGroups : list Z) (writes : gmap Z (list WriteKey)) (reads : gmap Z (list ReadKey)).

Definition Commit_plan (h : TxHandle) : tx_plan :=
  let writeKeysByGroup := groupWriteKeys h in
  let readKeysByGroup := groupReadKeys h in
  if bool_decide (group_total writeKeysByGroup < size (th_writeSet h))%nat then PlanReturn ErrWrongGroup
  else
    let allGroups := sort_ints (elements (th_groups h ∪ dom readKeysByGroup)) in
    if decide (allGroups = []) then PlanReturn OK
    else Plan allGroups writeKeysByGroup readKeysByGroup.

(** Group ids travel as int32. *)
Definition int32Slice (l : list Z) : list Z := wrapS32 <$> l.
(** The value of a read does not travel. *)
Definition readKeysToProto (l : list ReadKey) : list ReadKey :=
  (λ k, {| ReadKey_Key := ReadKey_Key k; ReadKey_Value := ""; ReadKey_ExpectedVersion := ReadKey_ExpectedVersion k |}) <$> l.

Definition prepare_request (h : TxHandle) (allGroups : list Z) (writes : gmap Z (list WriteKey))
    (reads : gmap Z (list ReadKey)) (gid : Z) : PrepareTxArgs :=
  {| PrepareTxArgs_TxID := th_txID h; PrepareTxArgs_ReadKeys := readKeysToProto (default [] (reads !! gid));
     PrepareTxArgs_WriteKeys := default [] (writes !! gid); PrepareTxArgs_TimeoutMs := th_timeoutMs h;
     PrepareTxArgs_CoordinatorGroupID := wrapS32 (default 0 (head allGroups));
     PrepareTxArgs_ParticipantGroupIDs := int32Slice allGroups |}.

(** ** Commit: the answers of phase 1, in the order in which they arrive *)

Definition Commit_collect (results : list (Z * option string)) : gset Z * option Err :=
  foldl (λ '(prepared, firstErr) '(gid, res),
    match res with
    | None => (prepared, Some ErrTxConflict)
    | Some e => if decide (e ≠ errReply OK) then (prepared, Some (mapPBErr e)) else ({[gid]} ∪ prepared, firstErr)
    end) (∅, None) results.
(** Whether the transaction is to be committed. *)
Definition Commit_decide (allGroups : list Z) (prepared : gset Z) : bool :=
  negb (bool_decide (size prepared < length allGroups)%nat).

(** [persistDecision]: the request to the coordinator group, and the result. *)
Definition decision_request (txID : string) (allGroups : list Z) (commit : bool) (writes : gmap Z (list WriteKey))
    : RecordTxDecisionArgs :=
  {| RecordTxDecisionArgs_TxID := txID;
     RecordTxDecisionArgs_Decision := if commit then TxStatusCommitted else TxStatusAborted;
     RecordTxDecisionArgs_ParticipantGroupIDs := int32Slice allGroups;
     RecordTxDecisionArgs_WriteKeys := if commit then worder (concat (map_to_list writes).*2) else [] |}.
Definition persistDecision (resp : option string) : Err :=
  if decide (resp = Some (errReply OK)) then OK else ErrTxTimeout.

(** What [Commit] returns; with [OK] of [persistDecision] phase 2 starts. *)
Definition Commit_return (commit : bool) (persisted : Err) (firstErr : option Err) : Err :=
  if decide (persisted ≠ OK) then ErrTxTimeout
  else if commit then OK else default ErrTxConflict firstErr.

(** ** Phase 2 *)

(** The attempts for one group: [resp i] is the answer to attempt [i]. *)
Fixpoint commit_attempts (n i : nat) (resp : nat → option string) : Err :=
  match n with
  | O => ErrTxTimeout
  | S n =>
      if decide (resp i = Some (errReply OK)) then OK
      else if decide (resp i = Some (errReply ErrTxConflict)) then ErrTxConflict
      else commit_attempts n (S i) resp
  end.
(** The first error in the order in which the groups finish. *)
Definition parallelCommit (results : list Err) : Err :=
  match filter (λ e, e ≠ OK) results with e :: _ => e | [] => OK end.
(** The rounds until all groups have committed: the number of the last round. *)
Fixpoint retryCommitInBackground (fuel attempt : nat) (round : nat → list Err) : option nat :=
  match fuel with
  | O => None
  | S fuel => if decide (parallelCommit (round attempt) = OK) then Some attempt
              else retryCommitInBackground fuel (S attempt) round
  end.

(** The same rounds for a transaction found committed by a restarted
    coordinator ([SetRouterAndRecover] of tx.go). *)
Definition retryCommitForRecoveredTx (fuel : nat) (round : nat → list Err) : option nat :=
  retryCommitInBackground fuel 0 round.

(** ** Recovery by a client *)

Record status_response := { sr_Status : string; sr_Coordinator : Z; sr_Participants : list Z }.
(** [ResolveTxStatus] of grpc.go. *)
Definition resolve_response (r : ResolveTxStatusReply) : status_response :=
  {| sr_Status := if decide (ResolveTxStatusReply_Status r = TxStatusPrepared) then "PREPARED"
                  else if decide (ResolveTxStatusReply_Status r = TxStatusCommitted) then "COMMITTED"
                  else if decide (ResolveTxStatusReply_Status r = TxStatusAborted) then "ABORTED"
                  else "NOT_FOUND";
     sr_Coordinator := wrapS32 (ResolveTxStatusReply_CoordinatorGroupID r);
     sr_Participants := int32Slice (ResolveTxStatusReply_ParticipantGroupIDs r) |}.

(** [RecoverTransaction] up to the broadcast: an error, a question to the
    coordinator group, or the groups and the outcome to broadcast. *)
Inductive recover_next :=
  | RecoverErr (e : Err)
  | RecoverAsk (coordinator : Z)
  | RecoverBroadcast (groups : list Z) (commit : bool).
Definition recover_participant (participantGroupID : Z) (resp : option status_response) : recover_next :=
  match resp with
  | None => RecoverErr ErrTxTimeout
  | Some p =>
      if decide (sr_Status p = "COMMITTED" ∨ sr_Status p = "ABORTED") then
        RecoverBroadcast (if decide (sr_Participants p = []) then [participantGroupID] else sr_Participants p)
          (bool_decide (sr_Status p = "COMMITTED"))
      else if decide (sr_Status p = "PREPARED") then RecoverAsk (sr_Coordinator p)
      else RecoverErr ErrTxTimeout
  end.
Definition recover_coordinator (participant : status_response) (resp : option status_response) : recover_next :=
  match resp with
  | None => RecoverErr ErrTxTimeout
  | Some d =>
      let groups := if decide (sr_Participants d = []) then sr_Participants participant else sr_Participants d in
      if decide (sr_Status d = "COMMITTED") then RecoverBroadcast groups true
      else if decide (sr_Status d = "ABORTED") then RecoverBroadcast groups false
      else RecoverErr ErrTxTimeout
  end.

(** [recoverBroadcast]: an answer is an error of the call or the error text of
    a response. *)
Fixpoint broadcast_attempts (n i : nat) (resp : nat → string + string) : bool :=
  match n with
  | O => false
  | S n =>
      match resp i with
      | inr e => if decide (e = errReply OK) then true
                 else if Contains e (errReply ErrTxConflict) then false
                 else broadcast_attempts n (S i) resp
      | inl e => if Contains e (errReply ErrTxConflict) then false else broadcast_attempts n (S i) resp
      end
  end.
Definition recoverBroadcast (groups : list Z) (resp : Z → nat → string + string) : Err :=
  if forallb (λ gid, broadcast_attempts txCommitMaxRetries 0 (resp gid)) groups then OK
  else ErrTxTimeout.

(** ** Rollback *)
Definition Rollback_groups (h : TxHandle) : list Z :=
  sort_ints (elements (th_groups h ∪ dom (groupReadKeys h))).
End coordinator.

(** ** [QueryTxDecision] of grpc.go, on the records of a replica *)

Definition txStatusToString (status : TxStatus) : string :=
  if decide (status = TxStatusCommitted) then "COMMITTED"
  else if decide (status = TxStatusAborted) then "ABORTED" else "UNKNOWN".
Definition QueryTxDecision {DB} `{Badger DB} (s : Store DB) (txID : string) : string :=
  match GetTxRecord s (txDecisionPrefix +:+ txID) with
  | None => txStatusToString TxStatusUnknown
  | Some decision =>
      match unmarshal_decision decision with
      | None => txStatusToString TxStatusUnknown
      | Some rec => txStatusToString (dr_Decision rec)
      end
  end.
