(* ===== verification/TxCoordProps.v ===== *)
(** * The plan of a transaction

    As long as the owners of its keys do not change, the plan of [Commit] sends
    every read and every write of the handle to the group that owns the key,
    exactly once, and to no other; the loops of phase 2 end as soon as the groups
    answer. *)
From stdpp Require Import prelude gmap sorting strings relations.
From stdpp Require Import options.
From S2P Require Import Prelude Json KvApi ExpiryHeap Store Tx Topology TopologyProps TxCoord.
Local Open Scope Z_scope.

Section plan.
Variable resolve : string → Z.

(** What a client does with a handle before it commits. *)
Inductive handle_step : TxHandle → TxHandle → Prop :=
  | hs_get h resp key : handle_step h (th_Get resp key h).1
  | hs_put h key value ver : handle_step h (th_Put resolve key value ver h)
  | hs_delete h resp key : handle_step h (th_Delete resolve resp key h).

Record handle_wf (h : TxHandle) : Prop := {
  hw_writes : map_Forall (λ k wk, WriteKey_Key wk = k ∧ (0 ≤ resolve k → resolve k ∈ th_groups h)) (th_writeSet h);
  hw_reads : map_Forall (λ k rk, ReadKey_Key rk = k) (th_readSet h);
  hw_groups : ∀ g, g ∈ th_groups h → 0 ≤ g ∧ ∃ k wk, th_writeSet h !! k = Some wk ∧ resolve k = g }.

Lemma add_group_elem key groups g : g ∈ add_group resolve key groups ↔ g ∈ groups ∨ (g = resolve key ∧ 0 ≤ g).
Proof. unfold add_group. case_decide; set_solver by lia. Qed.

Lemma handle_write h key wk reads :
  handle_wf h → WriteKey_Key wk = key → map_Forall (λ k rk, ReadKey_Key rk = k) reads →
  handle_wf (mkHandle (th_txID h) reads (<[key := wk]> (th_writeSet h)) (add_group resolve key (th_groups h)) (th_timeoutMs h)).
Proof.
  intros [Hw Hr Hg] Hk Hreads. split; cbn.
  - apply map_Forall_insert_2; [split; [done|]; intros; apply add_group_elem; auto|].
    eapply map_Forall_impl; [exact Hw|]. cbn. intros k' wk' [? ?]. split; [done|]. intros. apply add_group_elem. auto.
  - done.
  - intros g [Hg'|[-> ?]]%add_group_elem.
    + destruct (Hg g Hg') as (? & k & wk' & Hl & ?). split; [done|]. destruct (decide (k = key)) as [->|].
      * exists key, wk. by rewrite lookup_insert_eq.
      * exists k, wk'. by rewrite lookup_insert_ne.
    + split; [done|]. exists key, wk. by rewrite lookup_insert_eq.
Qed.

Lemma handle_step_wf h h' : handle_step h h' → handle_wf h → handle_wf h'.
Proof.
  intros [h0 resp key|h0 key value ver|h0 resp key] Hwf.
  - unfold th_Get. destruct (th_writeSet h0 !! key); [done|]. destruct (th_readSet h0 !! key); [done|].
    destruct (clerkGet resp) as [[val ver] e]. case_decide; [|done]. destruct Hwf as [Hw Hr Hg].
    split; cbn; [done| |done]. by apply map_Forall_insert_2.
  - apply handle_write; [done|done|apply Hwf].
  - unfold th_Delete. destruct (th_readSet h0 !! key) as [rk|].
    + apply handle_write; [done|done|apply Hwf].
    + destruct (clerkGet resp) as [[val ver] e]. case_decide; apply handle_write; try done; [|apply Hwf].
      apply map_Forall_insert_2; [done|apply Hwf].
Qed.

Lemma Begin_wf t : handle_wf (Begin t).
Proof. split; cbn; [apply map_Forall_empty..|set_solver]. Qed.
Lemma handle_reach_wf t h : rtc handle_step (Begin t) h → handle_wf h.
Proof.
  intros Hr. generalize (Begin_wf t). revert Hr. generalize (Begin t). intros h0. induction 1; eauto using handle_step_wf.
Qed.

(** ** Grouping *)

Lemma by_group_filter {A} (key : A → string) l g :
  default [] (by_group resolve key l !! g) = filter (λ x, resolve (key x) = g ∧ 0 ≤ g) l.
Proof.
  unfold by_group.
  assert (∀ m : gmap Z (list A), default [] (foldl (λ m x, let gid := resolve (key x) in
      if decide (0 ≤ gid) then <[gid := default [] (m !! gid) ++ [x]]> m else m) m l !! g) =
    default [] (m !! g) ++ filter (λ x, resolve (key x) = g ∧ 0 ≤ g) l) as ->; [|by rewrite lookup_empty].
  induction l as [|y l IH]; intros m; [by rewrite app_nil_r|]. cbn [foldl]. rewrite IH. cbv zeta.
  destruct (decide (resolve (key y) = g)) as [<-|Hne].
  - destruct (decide (0 ≤ resolve (key y))).
    + rewrite lookup_insert_eq, filter_cons_True by done. cbn. by rewrite <-app_assoc.
    + by rewrite filter_cons_False by naive_solver.
  - rewrite filter_cons_False by naive_solver. destruct (decide (0 ≤ resolve (key y))); [|done]. by rewrite lookup_insert_ne.
Qed.
Lemma by_group_dom {A} (key : A → string) l g : g ∈ dom (by_group resolve key l) ↔ ∃ x, x ∈ l ∧ resolve (key x) = g ∧ 0 ≤ g.
Proof.
  unfold by_group.
  assert (∀ m : gmap Z (list A), g ∈ dom (foldl (λ m x, let gid := resolve (key x) in
      if decide (0 ≤ gid) then <[gid := default [] (m !! gid) ++ [x]]> m else m) m l) ↔
    g ∈ dom m ∨ ∃ x, x ∈ l ∧ resolve (key x) = g ∧ 0 ≤ g) as ->.
  { induction l as [|y l IH]; intros m; [set_solver|]. cbn [foldl]. rewrite IH. cbv zeta. setoid_rewrite elem_of_cons.
    case_decide as Hp; [rewrite dom_insert_L, elem_of_union, elem_of_singleton|]; naive_solver. }
  rewrite dom_empty_L. set_solver.
Qed.
Lemma values_elem {A} (m : gmap string A) x : x ∈ values m ↔ ∃ k, m !! k = Some x.
Proof.
  unfold values. rewrite list_elem_of_fmap. split.
  - intros ([k y] & -> & Hin%elem_of_map_to_list). eauto.
  - intros [k Hk]. exists (k, x). split; [done|]. by apply elem_of_map_to_list.
Qed.

Lemma group_total_insert {A} (m : gmap Z (list A)) g y :
  group_total (<[g := default [] (m !! g) ++ [y]]> m) = S (group_total m).
Proof.
  unfold group_total. rewrite <-(insert_delete_eq m). rewrite map_fold_insert_L; [|intros; lia|by rewrite lookup_delete_eq].
  rewrite length_app. cbn. destruct (m !! g) as [l0|] eqn:E; cbn.
  - rewrite <-(insert_delete_id m g l0 E) at 2. rewrite map_fold_insert_L; [lia|intros; lia|by rewrite lookup_delete_eq].
  - rewrite delete_id by done. done.
Qed.
Lemma group_total_by_group {A} (key : A → string) l :
  group_total (by_group resolve key l) = length (filter (λ x, 0 ≤ resolve (key x)) l).
Proof.
  unfold by_group.
  assert (∀ m : gmap Z (list A), group_total (foldl (λ m x, let gid := resolve (key x) in
      if decide (0 ≤ gid) then <[gid := default [] (m !! gid) ++ [x]]> m else m) m l) =
    (group_total m + length (filter (λ x, (0 ≤ resolve (key x))%Z) l))%nat) as ->.
  { induction l as [|y l IH]; intros m; [cbn; lia|]. cbn [foldl]. rewrite IH. cbv zeta. rewrite filter_cons.
    destruct (decide (0 ≤ resolve (key y))); [rewrite group_total_insert; cbn|]; lia. }
  unfold group_total. by rewrite map_fold_empty.
Qed.
Lemma filter_all_or {A} (P : A → Prop) `{!∀ x, Decision (P x)} (l : list A) :
  ((length (filter P l) < length l)%nat ∧ ∃ x, x ∈ l ∧ ¬ P x) ∨
  (length (filter P l) = length l ∧ Forall P l).
Proof.
  induction l as [|x l IH]; [by right|]. rewrite filter_cons, Forall_cons. cbn [length]. destruct (decide (P x)).
  - destruct IH as [[? (y & ? & ?)]|[? ?]]; [left; split; [cbn; lia|set_solver]|right; split; [cbn; lia|done]].
  - left. split; [|set_solver]. pose proof (length_filter P l). lia.
Qed.

Lemma keyed_NoDup {A} (key : A → string) (m : gmap string A) :
  map_Forall (λ k x, key x = k) m → NoDup (key <$> values m).
Proof.
  intros Hm. unfold values. rewrite <-list_fmap_compose.
  rewrite (list_fmap_ext _ fst); [apply NoDup_fst_map_to_list|].
  intros i [k x] Hi. cbn. apply Hm. apply elem_of_map_to_list. by eapply list_elem_of_lookup_2.
Qed.
Lemma values_length {A} (m : gmap string A) : length (values m) = size m.
Proof. unfold values. by rewrite length_fmap, length_map_to_list. Qed.
Lemma NoDup_key_filter {A} (key : A → string) (P : A → Prop) `{!∀ x, Decision (P x)} l :
  NoDup (key <$> l) → NoDup (key <$> filter P l).
Proof. intros Hl. eapply sublist_NoDup; [exact Hl|]. apply fmap_sublist, sublist_filter. Qed.

Lemma sort_ints_lt l : NoDup l → StronglySorted Z.lt (sort_ints l).
Proof.
  intros Hl. assert (NoDup (sort_ints l)) as Hn by (by rewrite sort_ints_perm).
  assert (StronglySorted Z.le (sort_ints l)) as Hs by (apply (StronglySorted_merge_sort Z.le)).
  revert Hn Hs. generalize (sort_ints l). clear. induction 2 as [|x l Hs IH Hall]; [constructor|].
  apply NoDup_cons in Hn as [Hx Hn]. constructor; [auto|]. rewrite Forall_forall in Hall |- *.
  intros y Hy. pose proof (Hall y Hy). assert (x ≠ y) by congruence. lia.
Qed.

(** A keyed map grouped in any order of the range: what a group gets. *)
Lemma grouped_map {A} (key : A → string) (m : gmap string A) l g :
  map_Forall (λ k x, key x = k) m → l ≡ₚ values m →
  NoDup (key <$> default [] (by_group resolve key l !! g)) ∧
  ∀ x, x ∈ default [] (by_group resolve key l !! g) ↔ m !! key x = Some x ∧ resolve (key x) = g ∧ 0 ≤ g.
Proof.
  intros Hm Hl. rewrite by_group_filter. split.
  - apply NoDup_key_filter. rewrite Hl. by apply keyed_NoDup.
  - intros x. rewrite list_elem_of_filter, Hl, values_elem. split.
    + intros [[? ?] [k Hk]]. assert (key x = k) as <- by (by apply (Hm _ _ Hk)). done.
    + intros (? & ? & ?). eauto.
Qed.
End plan.

(** The read sent to a group: the value does not travel. *)
Definition sent_read (rk : ReadKey) : ReadKey :=
  {| ReadKey_Key := ReadKey_Key rk; ReadKey_Value := ""; ReadKey_ExpectedVersion := ReadKey_ExpectedVersion rk |}.

Section requests.
Context (resolve : string → Z) (worder : list WriteKey → list WriteKey) (rorder : list ReadKey → list ReadKey).

Lemma plan_groups h : (∀ l, rorder l ≡ₚ l) → handle_wf resolve h → ∀ g,
  g ∈ sort_ints (elements (th_groups h ∪ dom (groupReadKeys resolve rorder h))) ↔
  0 ≤ g ∧ ∃ k, resolve k = g ∧ k ∈ dom (th_writeSet h) ∪ dom (th_readSet h).
Proof.
  intros Hr [Hwf Hrf Hg] g. rewrite sort_ints_perm, elem_of_elements, elem_of_union. unfold groupReadKeys.
  rewrite by_group_dom. setoid_rewrite Hr. setoid_rewrite values_elem. split.
  - intros [Hin|(rk & [k Hk] & <- & ?)].
    + destruct (Hg g Hin) as (? & k & wk & Hk & ?). split; [done|]. exists k. split; [done|].
      apply elem_of_union_l. by eapply elem_of_dom_2.
    + split; [done|]. exists k. rewrite (Hrf _ _ Hk). split; [done|]. apply elem_of_union_r. by eapply elem_of_dom_2.
  - intros (? & k & <- & [[wk Hk]%elem_of_dom|[rk Hk]%elem_of_dom]%elem_of_union).
    + left. by apply (Hwf _ _ Hk).
    + right. exists rk. rewrite (Hrf _ _ Hk). eauto.
Qed.

Definition request_exact (h : TxHandle) (g : Z) (req : PrepareTxArgs) : Prop :=
  NoDup (WriteKey_Key <$> PrepareTxArgs_WriteKeys req) ∧ NoDup (ReadKey_Key <$> PrepareTxArgs_ReadKeys req) ∧
  (∀ wk, wk ∈ PrepareTxArgs_WriteKeys req ↔
     th_writeSet h !! WriteKey_Key wk = Some wk ∧ resolve (WriteKey_Key wk) = g) ∧
  (∀ rk, rk ∈ PrepareTxArgs_ReadKeys req ↔
     ∃ rk', th_readSet h !! ReadKey_Key rk' = Some rk' ∧ resolve (ReadKey_Key rk') = g ∧ rk = sent_read rk').

Lemma plan_requests h gs g : (∀ l, worder l ≡ₚ l) → (∀ l, rorder l ≡ₚ l) → handle_wf resolve h → 0 ≤ g →
  request_exact h g (prepare_request h gs (groupWriteKeys resolve worder h) (groupReadKeys resolve rorder h) g).
Proof.
  intros Hw Hr [Hwf Hrf _] Hg0.
  assert (map_Forall (λ k wk, WriteKey_Key wk = k) (th_writeSet h)) as Hwk by (intros ?? Hk; by apply (Hwf _ _ Hk)).
  destruct (grouped_map resolve WriteKey_Key (th_writeSet h) (worder (values (th_writeSet h))) g Hwk (Hw _)) as [Hnw Hew].
  destruct (grouped_map resolve ReadKey_Key (th_readSet h) (rorder (values (th_readSet h))) g Hrf (Hr _)) as [Hnr Her].
  unfold request_exact. cbn [prepare_request PrepareTxArgs_WriteKeys PrepareTxArgs_ReadKeys]. split_and!; [exact Hnw| | |].
  - unfold readKeysToProto. rewrite <-list_fmap_compose. exact Hnr.
  - intros wk. rewrite (Hew wk). naive_solver.
  - intros rk. unfold readKeysToProto. rewrite list_elem_of_fmap. split.
    + intros (rk' & -> & (? & ? & ?)%Her). eauto.
    + intros (rk' & ? & ? & ->). exists rk'. split; [done|]. by apply Her.
Qed.

(** What a plan owes to a handle. *)
Definition plan_correct (h : TxHandle) (plan : tx_plan) : Prop :=
  match plan with
  | PlanReturn OK => th_writeSet h = ∅ ∧ ∀ k, k ∈ dom (th_readSet h) → resolve k < 0
  | PlanReturn e => e = ErrWrongGroup ∧ ∃ k, k ∈ dom (th_writeSet h) ∧ resolve k < 0
  | Plan gs ws rs =>
      StronglySorted Z.lt gs ∧
      (∀ g, g ∈ gs ↔ 0 ≤ g ∧ ∃ k, resolve k = g ∧ k ∈ dom (th_writeSet h) ∪ dom (th_readSet h)) ∧
      (∀ k, k ∈ dom (th_writeSet h) → resolve k ∈ gs) ∧
      ∀ g, g ∈ gs → request_exact h g (prepare_request h gs ws rs g)
  end.
End requests.

(** As long as the owners of its keys do not change, the plan of [Commit] for
    a handle built from [Begin] by [Get], [Put] and [Delete] is exact, whatever
    the order of Go's map ranges: the groups are distinct and sorted (the first is
    the coordinator) and are precisely the owners of the keys read or written;
    each group's prepare request holds exactly the writes and reads it owns, each
    key once; a written key without an owner gives [ErrWrongGroup], and [OK]
    without any message is only returned when there is nothing to do. *)
Theorem plan_covers_handle (resolve : string → Z) worder rorder t h :
  (∀ l, worder l ≡ₚ l) → (∀ l, rorder l ≡ₚ l) → rtc (handle_step resolve) (Begin t) h →
  plan_correct resolve h (Commit_plan resolve worder rorder h).
Proof.
  intros Hw Hr [Hwf Hrf Hg]%handle_reach_wf. unfold Commit_plan.
  assert (map_Forall (λ k wk, WriteKey_Key wk = k) (th_writeSet h)) as Hwk by (intros ?? Hk; by apply (Hwf _ _ Hk)).
  pose proof (group_total_by_group resolve WriteKey_Key (worder (values (th_writeSet h)))) as Ht.
  pose proof (filter_all_or (λ x, 0 ≤ resolve (WriteKey_Key x)) (worder (values (th_writeSet h)))) as Hall.
  assert (length (worder (values (th_writeSet h))) = size (th_writeSet h)) as Hlen by (by rewrite Hw, values_length).
  rewrite <-Ht, Hlen in Hall. fold (groupWriteKeys resolve worder h) in Hall.
  case_bool_decide as Hlt.
  { destruct Hall as [[_ (wk & Hin & Hneg)]|[? _]]; [|lia]. rewrite Hw in Hin. apply values_elem in Hin as [k Hk].
    split; [done|]. rewrite (Hwk _ _ Hk) in Hneg. exists k. split; [by eapply elem_of_dom_2|lia]. }
  destruct Hall as [[? _]|[_ Hall]]; [lia|].
  assert (∀ k, k ∈ dom (th_writeSet h) → 0 ≤ resolve k) as Hpos.
  { intros k [wk Hk]%elem_of_dom. rewrite Forall_forall in Hall. rewrite <-(Hwk _ _ Hk). apply Hall.
    rewrite Hw. apply values_elem. eauto. }
  set (ws := groupWriteKeys resolve worder h). set (rs := groupReadKeys resolve rorder h).
  set (gs := sort_ints (elements (th_groups h ∪ dom rs))).
  pose proof (plan_groups resolve rorder h Hr (Build_handle_wf _ _ Hwf Hrf Hg)) as Hgs. fold rs gs in Hgs.
  assert (∀ k, k ∈ dom (th_writeSet h) → resolve k ∈ gs) as Hin.
  { intros k Hk. apply Hgs. split; [auto|]. exists k. set_solver. }
  destruct (decide (gs = [])) as [Hnil|Hne].
  { rewrite Hnil in Hin, Hgs. split.
    - apply dom_empty_iff_L. apply elem_of_equiv_empty_L. intros k Hk. by apply Hin, not_elem_of_nil in Hk.
    - intros k Hk. destruct (decide (resolve k < 0)) as [|Hn]; [done|]. exfalso.
      apply (not_elem_of_nil (resolve k)). apply Hgs. split; [lia|]. exists k. set_solver. }
  split; [apply sort_ints_lt, NoDup_elements|]. split; [done|]. split; [done|]. intros g [Hg0 _]%Hgs.
  by apply plan_requests.
Qed.

(** One read of group 2 and two writes of group 1. *)
Definition demo_resolve (key : string) : Z := if decide (key = "r") then 2 else 1.
Definition demo_handle : TxHandle :=
  th_Put demo_resolve "b" "y" 0 (th_Put demo_resolve "a" "x" 0 (th_Get (Some ("v", 3, 0, "OK")) "r" (Begin "t1")).1).
Lemma plan_covers_handle_witness :
  plan_correct demo_resolve demo_handle (Commit_plan demo_resolve id id demo_handle) ∧
  match Commit_plan demo_resolve id id demo_handle with
  | Plan gs ws rs => gs = [1; 2] ∧ length (default [] (ws !! 1)) = 2%nat ∧ length (default [] (rs !! 2)) = 1%nat
  | PlanReturn _ => False
  end.
Proof.
  split; [|by vm_compute].
  apply (plan_covers_handle demo_resolve id id "t1"); [done|done|].
  eapply rtc_l; [apply hs_get|]. eapply rtc_l; [apply hs_put|]. eapply rtc_l; [apply hs_put|]. apply rtc_refl.
Defined.

(** ** Phase 2 *)

Lemma commit_attempts_ok n i resp j :
  (i ≤ j < i + n)%nat → resp j = Some (errReply OK) →
  (∀ k, (i ≤ k < j)%nat → resp k ≠ Some (errReply ErrTxConflict)) → commit_attempts n i resp = OK.
Proof.
  revert i. induction n as [|n IH]; intros i Hj Hok Hno; [lia|]. cbn [commit_attempts].
  case_decide as H1; [done|]. assert (i ≠ j) by congruence.
  rewrite decide_False by (apply Hno; lia). apply IH; [lia|done|]. intros; apply Hno; lia.
Qed.
Lemma parallelCommit_OK results : parallelCommit results = OK ↔ Forall (λ e, e = OK) results.
Proof.
  unfold parallelCommit. induction results as [|e l IH]; [done|]. rewrite Forall_cons, filter_cons.
  destruct (decide (e ≠ OK)) as [He|He]; [naive_solver|]. apply dec_stable in He. naive_solver.
Qed.
Lemma retry_ends round n : ∀ attempt fuel,
  (n < fuel)%nat → parallelCommit (round (attempt + n)%nat) = OK →
  (∀ k, (k < n)%nat → parallelCommit (round (attempt + k)%nat) ≠ OK) →
  retryCommitInBackground fuel attempt round = Some (attempt + n)%nat.
Proof.
  induction n as [|n IH]; intros attempt [|fuel] Hf Hok Hno; try lia; cbn [retryCommitInBackground].
  - rewrite Nat.add_0_r in *. by rewrite decide_True.
  - rewrite decide_False by (specialize (Hno 0%nat); rewrite Nat.add_0_r in Hno; apply Hno; lia).
    rewrite (IH (S attempt) fuel); [f_equal; lia|lia|by rewrite Nat.add_succ_comm|].
    intros k Hk. rewrite Nat.add_succ_comm. apply Hno. lia.
Qed.

Lemma least_true (f : nat → bool) n : f n = true → ∃ m, (m ≤ n)%nat ∧ f m = true ∧ ∀ k, (k < m)%nat → f k = false.
Proof.
  revert f. induction n as [|n IH]; intros f Hf; [exists 0%nat; split_and!; [done|done|lia]|].
  destruct (f 0%nat) eqn:E0; [exists 0%nat; split_and!; [lia|done|lia]|].
  destruct (IH (λ m, f (S m)) Hf) as (m & Hm & Ht & Hl). exists (S m). split_and!; [lia|done|].
  intros [|k] Hk; [done|]. apply Hl. lia.
Qed.

(** The answers to the attempts of a round, for every participant. *)
Definition round_results (groups : list Z) (resp : nat → Z → nat → option string) (attempt : nat) : list Err :=
  (λ g, commit_attempts txCommitMaxRetries 0 (resp attempt g)) <$> groups.

(** The background retries of phase 2 end: if in some round every
    participant answers [OK] within the five attempts of that round without
    reporting a conflict first, the loop returns, at the latest in that round, and
    in the round it returns every participant has acknowledged the commit. *)
Theorem retry_terminates groups resp n :
  (∀ g, g ∈ groups → ∃ j, (j < txCommitMaxRetries)%nat ∧ resp n g j = Some (errReply OK) ∧
     ∀ k, (k < j)%nat → resp n g k ≠ Some (errReply ErrTxConflict)) →
  ∃ m, (m ≤ n)%nat ∧ retryCommitInBackground (S n) 0 (round_results groups resp) = Some m ∧
    ∀ g, g ∈ groups → commit_attempts txCommitMaxRetries 0 (resp m g) = OK.
Proof.
  intros Hg.
  assert (∀ m, parallelCommit (round_results groups resp m) = OK ↔
    ∀ g, g ∈ groups → commit_attempts txCommitMaxRetries 0 (resp m g) = OK) as Hround.
  { intros m. rewrite parallelCommit_OK, Forall_forall. unfold round_results. set_solver. }
  assert (parallelCommit (round_results groups resp n) = OK) as Hn.
  { apply Hround. intros g (j & Hj & Hok & Hno)%Hg. eapply commit_attempts_ok; [|exact Hok|]; [lia|]. intros; apply Hno; lia. }
  destruct (least_true (λ m, bool_decide (parallelCommit (round_results groups resp m) = OK)) n) as (m & Hm & Hok & Hno).
  { by apply bool_decide_true. }
  apply bool_decide_eq_true in Hok.
  exists m. split; [done|]. split; [|by apply Hround]. apply (retry_ends _ m 0%nat); [lia|done|].
  intros k Hk. specialize (Hno k Hk). by apply bool_decide_eq_false in Hno.
Qed.

(** Group 2 is unreachable in the first round and answers late in the second. *)
Definition demo_resp (attempt : nat) (g : Z) (i : nat) : option string :=
  if bool_decide (g = 1 ∨ (attempt = 1 ∧ 2 ≤ i)%nat) then Some "OK" else None.
Lemma retry_terminates_witness :
  ∃ m, (m ≤ 1)%nat ∧ retryCommitInBackground 2 0 (round_results [1; 2] demo_resp) = Some m ∧
    ∀ g, g ∈ [1; 2] → commit_attempts txCommitMaxRetries 0 (demo_resp m g) = OK.
Proof.
  apply (retry_terminates [1; 2] demo_resp 1). intros g Hg. exists 2%nat. split; [unfold txCommitMaxRetries; lia|].
  apply elem_of_cons in Hg as [->|Hg]; [|apply list_elem_of_singleton in Hg as ->]; (split; [by vm_compute|]); intros [|[|k]] Hk; try lia; by vm_compute.
Defined.
