(* ===== verification/TxOutcomes.v ===== *)
(** * Which records an operation of a participant may write

    Every commit or abort record a participant writes is either the outcome it
    was told (the request of phase 2) or the decision its coordinator gave it;
    prepare and decision records are only written on request.  This is what the
    atomicity of a transaction across groups rests on. *)
From stdpp Require Import prelude gmap strings.
From stdpp Require Import options.
From S2P Require Import Prelude Json KvApi ExpiryHeap Store StoreProps Tx TxProps.
Local Open Scope Z_scope.

Section outcomes.
Context {DB : Type} `{Badger DB}.
Implicit Types (s : Store DB) (tm : TxManager DB).

Local Notation R s k := (GetTxRecord s k).

(** Every record of [s'] is one of [s] or allowed by [P]. *)
Definition adds (P : string → json → Prop) (s s' : Store DB) : Prop :=
  ∀ k j, R s' k = Some j → R s k = Some j ∨ P k j.

Lemma adds_refl P s : adds P s s.
Proof. by left. Qed.
Lemma adds_trans P s1 s2 s3 : adds P s1 s2 → adds P s2 s3 → adds P s1 s3.
Proof. intros H12 H23 k j Hk. destruct (H23 k j Hk); auto. Qed.
Lemma adds_impl (P Q : string → json → Prop) s s' : adds P s s' → (∀ k j, P k j → Q k j) → adds Q s s'.
Proof. intros Ha HP k j Hk. destruct (Ha k j Hk); auto. Qed.

Lemma adds_put P s k j : P k j → adds P s (PutTxRecord s k j).1.
Proof.
  intros HP. destruct (PutTxRecord s k j) as [s' [e|]] eqn:E.
  - apply PutTxRecord_spec in E as ->. apply adds_refl.
  - intros k' j'. cbn. rewrite (PutTxRecord_R _ _ _ _ k' E). case_decide; [|auto]. intros [= <-]. subst. auto.
Qed.
Lemma adds_delete P s k : adds P s (DeleteTxRecord s k).1.
Proof.
  intros k' j'. destruct (decide (k' = k)) as [->|Hne]; [|rewrite DeleteTxRecord_R by done; auto].
  destruct (DeleteTxRecord_R_same s k) as [->| ->]; [done|auto].
Qed.
Lemma adds_batch P s wks k j : user_keys wks → P k j → adds P s (WriteBatchWithCASAndRecord s (write_ops wks) k j).1.
Proof.
  intros Hu HP. destruct (WriteBatchWithCASAndRecord _ _ _ _) as [s' [e|]] eqn:E.
  - apply WriteBatchWithCASAndRecord_err in E as ->. apply adds_refl.
  - intros k' j'. cbn. rewrite (batch_record_R _ _ _ _ _ k' Hu E). case_decide; [|auto]. intros [= <-]. subst. auto.
Qed.

(** ** Outcomes that were told *)

Section told.
Variables told_commit told_abort : string → Prop.

Definition outcome_told (k : string) (j : json) : Prop :=
  (∃ t, k = txCommitPrefix +:+ t ∧ told_commit t) ∨ (∃ t, k = txAbortPrefix +:+ t ∧ told_abort t).
Definition commit_told t : told_commit t → outcome_told (txCommitPrefix +:+ t) commitData.
Proof. left. eauto. Defined.
Definition abort_told t : told_abort t → outcome_told (txAbortPrefix +:+ t) abortData.
Proof. right. eauto. Defined.

Variable groupID : Z.
Variable router : option (Z → string → option string).

(** The answer of the coordinator is one that was told. *)
Definition answer_told (s : Store DB) (rec : preparedTxRecord) : Prop :=
  (queryCoordinatorDecision groupID router s rec = TxStatusCommitted → told_commit (pr_TxID rec)) ∧
  (queryCoordinatorDecision groupID router s rec = TxStatusAborted → told_abort (pr_TxID rec)).
Definition answers_told (s : Store DB) : Prop :=
  ∀ t rec, R s (txPreparePrefix +:+ t) ≫= unmarshal_prepared = Some rec → answer_told s rec.

(** Outcome records change neither the prepare records nor the decisions. *)
Lemma adds_decision s s' t j : adds outcome_told s s' → R s' (txDecisionPrefix +:+ t) = Some j → R s (txDecisionPrefix +:+ t) = Some j.
Proof. intros Ha Hj. destruct (Ha _ _ Hj) as [|[(? & ? & _)|(? & ? & _)]]; [done|discriminate..]. Qed.
Lemma adds_prepare s s' t j : adds outcome_told s s' → R s' (txPreparePrefix +:+ t) = Some j → R s (txPreparePrefix +:+ t) = Some j.
Proof. intros Ha Hj. destruct (Ha _ _ Hj) as [|[(? & ? & _)|(? & ? & _)]]; [done|discriminate..]. Qed.

Lemma answer_told_adds s s' rec : adds outcome_told s s' → answer_told s rec → answer_told s' rec.
Proof.
  intros Ha. unfold answer_told, queryCoordinatorDecision. case_decide; [|done].
  destruct (R s' (txDecisionPrefix +:+ pr_TxID rec)) as [j|] eqn:E; [|done].
  by rewrite (adds_decision _ _ _ _ Ha E).
Qed.
Lemma answers_told_adds s s' : adds outcome_told s s' → answers_told s → answers_told s'.
Proof.
  intros Ha Hs t rec Hr. destruct (R s' (txPreparePrefix +:+ t)) as [j|] eqn:E; [|done].
  eapply answer_told_adds; [done|]. apply (Hs t). by rewrite (adds_prepare _ _ _ _ Ha E).
Qed.

Lemma execute_cleanup_adds P tm rec tm' : execute_cleanup tm rec = Some tm' → adds P (tm_store tm) (tm_store tm').
Proof.
  unfold execute_cleanup, tm_Lock, tm_Unlock. destruct (tm_locked tm); [done|]. cbn. intros [= <-]. apply adds_delete.
Qed.
Lemma executeCommit_adds tm rec tm' : user_keys (pr_WriteKeys rec) → told_commit (pr_TxID rec) →
  executeCommit tm rec = Some tm' → adds outcome_told (tm_store tm) (tm_store tm').
Proof.
  intros Hu Ht. unfold executeCommit.
  pose proof (adds_batch outcome_told (tm_store tm) _ _ _ Hu (commit_told _ Ht)) as Hb.
  destruct (WriteBatchWithCASAndRecord _ _ _ _) as [s [e|]]; [by intros [= <-]|].
  intros E%(execute_cleanup_adds outcome_told). by eapply adds_trans.
Qed.
Lemma executeAbort_adds tm rec tm' : told_abort (pr_TxID rec) →
  executeAbort tm rec = Some tm' → adds outcome_told (tm_store tm) (tm_store tm').
Proof.
  intros Ht. unfold executeAbort.
  pose proof (adds_put outcome_told (tm_store tm) _ _ (abort_told _ Ht)) as Hb.
  destruct (PutTxRecord _ _ _) as [s [e|]]; [by intros [= <-]|].
  intros E%(execute_cleanup_adds outcome_told). by eapply adds_trans.
Qed.

Lemma Unlock_store tm tm' : tm_Unlock tm = Some tm' → tm_store tm' = tm_store tm.
Proof. unfold tm_Unlock. destruct (tm_locked tm); [|done]. by intros [= <-]. Qed.
Lemma Lock_store tm tm' : tm_Lock tm = Some tm' → tm_store tm' = tm_store tm.
Proof. unfold tm_Lock. destruct (tm_locked tm); [done|]. by intros [= <-]. Qed.

(** The end of [resolveLockLocked] and of a round of [RebuildLockTable]. *)
Lemma execute_told tm rec tm1 tm2 tm3 (exec : TxManager DB → preparedTxRecord → option (TxManager DB)) :
  tm_Unlock tm = Some tm1 → exec tm1 rec = Some tm2 → tm_Lock tm2 = Some tm3 →
  (∀ tm tm', exec tm rec = Some tm' → adds outcome_told (tm_store tm) (tm_store tm')) →
  adds outcome_told (tm_store tm) (tm_store tm3).
Proof.
  intros E1 E2 E3 Hx. rewrite <-(Unlock_store _ _ E1), (Lock_store _ _ E3). by apply Hx.
Qed.

Lemma resolveLock_adds tm t tm' b :
  tx_inv tm → answers_told (tm_store tm) → resolveLockLocked groupID router tm t = Some (tm', b) →
  adds outcome_told (tm_store tm) (tm_store tm').
Proof.
  intros Hi Ht. unfold resolveLockLocked.
  destruct (R _ (txCommitPrefix +:+ t)); [intros [= <- <-]; apply adds_refl|].
  destruct (R _ (txAbortPrefix +:+ t)); [intros [= <- <-]; apply adds_refl|].
  pose proof (lookup_prepared_ok tm t Hi) as Hlk. destruct (lookup_prepared tm t) as [tm1 r].
  destruct Hlk as (Ho1 & _ & Hs1 & _ & Hr). rewrite <-Hs1 in *.
  destruct r as [rec|]; [|intros [= <- <-]; apply adds_refl].
  symmetry in Hr. destruct (inv_disk_rec _ _ _ (proj1 Ho1) Hr) as [_ Hu]. destruct (Ht _ _ Hr) as [HC HA].
  destruct (tm_Unlock tm1) as [tm2|] eqn:E2; [|done]. cbn [mbind option_bind]. rewrite (Unlock_store _ _ E2).
  destruct (tm_Lock tm2) as [tm3|] eqn:E3; [|done]. cbn [mbind option_bind].
  assert (tm_store tm3 = tm_store tm1) as E13 by (rewrite (Lock_store _ _ E3); by apply Unlock_store).
  case_decide as Hd; [|case_decide as Hd'].
  - destruct (tm_Unlock tm3) as [tm4|] eqn:E4; [|done]. cbn [mbind option_bind].
    destruct (executeCommit tm4 rec) as [tm5|] eqn:E5; [|done]. cbn [mbind option_bind].
    destruct (tm_Lock tm5) as [tm6|] eqn:E6; [|done]. cbn. intros [= <- <-]. rewrite <-E13.
    eapply (execute_told tm3 rec); [done|exact E5|done|]. intros ? ?. apply executeCommit_adds; auto.
  - destruct (tm_Unlock tm3) as [tm4|] eqn:E4; [|done]. cbn [mbind option_bind].
    destruct (executeAbort tm4 rec) as [tm5|] eqn:E5; [|done]. cbn [mbind option_bind].
    destruct (tm_Lock tm5) as [tm6|] eqn:E6; [|done]. cbn. intros [= <- <-]. rewrite <-E13.
    eapply (execute_told tm3 rec); [done|exact E5|done|]. intros ? ?. apply executeAbort_adds; auto.
  - intros [= <- <-]. rewrite E13. apply adds_refl.
Qed.

Lemma prepare_locks_adds t wks : ∀ tm tm' e,
  tm_locked tm = true → tx_inv tm → answers_told (tm_store tm) →
  prepare_locks groupID router tm t wks = Some (tm', e) → adds outcome_told (tm_store tm) (tm_store tm').
Proof.
  induction wks as [|wk wks IH]; intros tm tm' e Hl Hi Ht; cbn [prepare_locks]; [intros [= <- <-]; apply adds_refl|].
  destruct (tm_lockTable tm !! WriteKey_Key wk) as [h|]; [|by apply IH]. case_decide; [by apply IH|].
  destruct (resolveLockLocked_ok groupID router tm h Hl Hi) as (tm1 & b & E1 & Hl1 & Ho1).
  pose proof (resolveLock_adds _ _ _ _ Hi Ht E1) as Ha. rewrite E1. cbn [mbind option_bind].
  pose proof (answers_told_adds _ _ Ha Ht) as Ht1.
  destruct b; [|by intros [= <- <-]].
  destruct (tm_lockTable tm1 !! WriteKey_Key wk); [case_decide; [|by intros [= <- <-]]|];
    intros E; eapply adds_trans; [exact Ha|exact (IH _ _ _ Hl1 (proj1 Ho1) Ht1 E)|exact Ha|exact (IH _ _ _ Hl1 (proj1 Ho1) Ht1 E)].
Qed.

(** ** The operations *)

Lemma Prepare_adds now tm args tm' r :
  tx_inv tm → answers_told (tm_store tm) → Prepare groupID router now tm args = Some (tm', r) →
  adds (λ k j, outcome_told k j ∨
          (k = txPreparePrefix +:+ PrepareTxArgs_TxID args ∧ j = marshal_prepared (prepare_record now args)))
    (tm_store tm) (tm_store tm').
Proof.
  intros Hi Ht. unfold Prepare. destruct (tm_locked tm) eqn:Hl; [by rewrite locked_blocks|].
  rewrite tm_Lock_free by done. cbn [mbind option_bind]. set (tm0 := tm_with_locked tm true).
  assert (Ho0 : tx_ok tm tm0) by by apply tx_ok_same.
  destruct (prepare_locks groupID router tm0 _ _) as [[tm1 e]|] eqn:E1; [|done]. cbn [mbind option_bind].
  pose proof (prepare_locks_adds _ _ tm0 tm1 e eq_refl (proj1 Ho0) Ht E1) as Ha. change (tm_store tm0) with (tm_store tm) in Ha.
  set (P := λ k j, outcome_told k j ∨ _).
  assert (adds P (tm_store tm) (tm_store tm1)) as Ha' by (eapply adds_impl; [exact Ha|]; intros; by left).
  assert (∀ tm2 x, (tm ← tm_Unlock tm2; Some (tm, {| PrepareTxReply_Err := x |})) = Some (tm', r) →
    adds P (tm_store tm) (tm_store tm2) → adds P (tm_store tm) (tm_store tm')) as Hret.
  { intros tm2 x E Hx. destruct (tm_Unlock tm2) as [tm3|] eqn:E3; [|done]. cbn in E. injection E as <- <-.
    by rewrite (Unlock_store _ _ E3). }
  destruct e as [e|]; [intros E; by eapply Hret|].
  destruct (prepare_reads _ _ _); [intros E; by eapply Hret|]. cbv zeta. cbn [tm_store tm_with_tables].
  pose proof (adds_put P (tm_store tm1) (txPreparePrefix +:+ PrepareTxArgs_TxID args)
    (marshal_prepared (prepare_record now args)) (or_intror (conj eq_refl eq_refl))) as Hp.
  destruct (PutTxRecord _ _ _) as [s [err|]]; intros E; (eapply Hret; [exact E|]); cbn; by eapply adds_trans.
Qed.

Lemma rebuild_record_adds tm raw tm' :
  (∀ rec, unmarshal_prepared raw = Some rec → user_keys (pr_WriteKeys rec) ∧ answer_told (tm_store tm) rec) →
  rebuild_record groupID router tm raw = Some tm' → adds outcome_told (tm_store tm) (tm_store tm').
Proof.
  intros Hraw. unfold rebuild_record. destruct (unmarshal_prepared raw) as [rec|]; [|intros [= <-]; apply adds_refl].
  destruct (Hraw rec eq_refl) as [Hu [HC HA]].
  destruct (R _ (txCommitPrefix +:+ _)); [intros [= <-]; apply adds_delete|].
  destruct (R _ (txAbortPrefix +:+ _)); [intros [= <-]; apply adds_delete|].
  case_decide; [|case_decide].
  - destruct (tm_Unlock tm) as [tm4|] eqn:E4; [|done]. cbn [mbind option_bind].
    destruct (executeCommit tm4 rec) as [tm5|] eqn:E5; [|done]. cbn [mbind option_bind]. intros E6.
    eapply (execute_told tm rec); [done|exact E5|done|]. intros ? ?. apply executeCommit_adds; auto.
  - destruct (tm_Unlock tm) as [tm4|] eqn:E4; [|done]. cbn [mbind option_bind].
    destruct (executeAbort tm4 rec) as [tm5|] eqn:E5; [|done]. cbn [mbind option_bind]. intros E6.
    eapply (execute_told tm rec); [done|exact E5|done|]. intros ? ?. apply executeAbort_adds; auto.
  - intros [= <-]. apply adds_refl.
Qed.

Lemma rebuild_loop_adds records : ∀ tm tm',
  Forall (λ x, ∀ rec, unmarshal_prepared x.2 = Some rec → user_keys (pr_WriteKeys rec) ∧ answer_told (tm_store tm) rec) records →
  rebuild_loop groupID router tm records = Some tm' → adds outcome_told (tm_store tm) (tm_store tm').
Proof.
  induction records as [|[k raw] records IH]; intros tm tm' Hr; cbn [rebuild_loop]; [intros [= <-]; apply adds_refl|].
  apply Forall_cons in Hr as [Hx Hr]. destruct (rebuild_record groupID router tm raw) as [tm1|] eqn:E; [|done].
  cbn [mbind option_bind]. pose proof (rebuild_record_adds _ _ _ Hx E) as Ha. intros E'.
  eapply adds_trans; [exact Ha|]. eapply IH; [|exact E']. eapply Forall_impl; [exact Hr|]. cbn.
  intros x Hx' rec Hrec. destruct (Hx' rec Hrec). split; [done|]. by eapply answer_told_adds.
Qed.

Lemma Rebuild_adds order tm tm' :
  (∀ l, order l ≡ₚ l) → tx_inv tm → answers_told (tm_store tm) →
  RebuildLockTable groupID router order tm = Some tm' → adds outcome_told (tm_store tm) (tm_store tm').
Proof.
  intros Hord Hi Ht. unfold RebuildLockTable. destruct (tm_locked tm) eqn:Hl; [by rewrite locked_blocks|].
  rewrite tm_Lock_free by done. cbn [mbind option_bind tm_store tm_with_tables tm_with_locked].
  destruct (rebuild_loop _ _ _ _) as [tm1|] eqn:E; [|done]. cbn [mbind option_bind]. intros E2.
  rewrite (Unlock_store _ _ E2). eapply rebuild_loop_adds in E; [exact E|]. cbn [tm_store tm_with_tables tm_with_locked].
  destruct (scan_recs_on (tm_store tm) order Hord) as (_ & Hon & _).
  { intros t j Hj. destruct (inv_prep _ Hi _ _ Hj) as (? & -> & _). eauto. }
  eapply Forall_impl; [exact Hon|]. cbn. intros x (t & _ & Hp) rec Hrec.
  destruct (inv_prep _ Hi _ _ Hp) as (rec' & Hrec' & _ & Hu). simplify_eq. split; [done|].
  apply (Ht t). by rewrite Hp.
Qed.
End told.

(** ** The operations that do not ask the coordinator *)

Lemma Commit_adds groupID tm args tm' r :
  tx_inv tm → Commit groupID tm args = Some (tm', r) →
  adds (λ k _, k = txCommitPrefix +:+ CommitTxArgs_TxID args) (tm_store tm) (tm_store tm').
Proof.
  intros Hi. unfold Commit. destruct (tm_locked tm) eqn:Hl; [by rewrite locked_blocks|].
  set (t := CommitTxArgs_TxID args). set (P := λ k _, _).
  rewrite tm_Lock_free by done. cbn [mbind option_bind tm_store tm_with_locked].
  destruct (R _ (txCommitPrefix +:+ t)); [cbn; intros [= <- <-]; apply adds_refl|].
  destruct (R _ (txAbortPrefix +:+ t)); [cbn; intros [= <- <-]; apply adds_refl|].
  destruct (commit_refused _ _ _); [intros [= <- <-]; apply adds_refl|].
  rewrite tm_Unlock_held by done. cbn [mbind option_bind].
  set (tm0 := tm_with_locked (tm_with_locked tm true) false).
  assert (Ho0 : tx_ok tm tm0) by by apply tx_ok_same.
  destruct (commit_load_ok tm0 t eq_refl (proj1 Ho0)) as (tm1 & -> & Hl1 & Ho1 & Hs1). cbn [mbind option_bind].
  change (tm_store tm0) with (tm_store tm) in *.
  destruct (R (tm_store tm) (txPreparePrefix +:+ t) ≫= unmarshal_prepared) as [rec|] eqn:Hr.
  2:{ intros [= <- <-]. rewrite Hs1. apply adds_refl. }
  destruct (inv_disk_rec _ _ _ Hi Hr) as [_ Hu]. unfold commit_apply. rewrite Hs1.
  pose proof (adds_batch P (tm_store tm) _ (txCommitPrefix +:+ t) commitData Hu eq_refl) as Hb.
  destruct (WriteBatchWithCASAndRecord _ _ _ _) as [s [e|]]; [by intros [= <- <-]|].
  rewrite tm_Lock_free by done. cbn. intros [= <- <-]. eapply adds_trans; [exact Hb|]. apply adds_delete.
Qed.

Lemma Abort_adds tm args tm' r : Abort tm args = Some (tm', r) →
  adds (λ k _, k = txAbortPrefix +:+ AbortTxArgs_TxID args) (tm_store tm) (tm_store tm').
Proof.
  unfold Abort. destruct (tm_locked tm) eqn:Hl; [by rewrite locked_blocks|].
  set (t := AbortTxArgs_TxID args). set (P := λ k _, _).
  rewrite tm_Lock_free by done. cbn [mbind option_bind tm_store tm_with_locked].
  destruct (R _ (txCommitPrefix +:+ t)); [cbn; intros [= <- <-]; apply adds_refl|].
  destruct (R _ (txAbortPrefix +:+ t)); [cbn; intros [= <- <-]; apply adds_refl|].
  rewrite tm_Unlock_held by done. cbn [mbind option_bind tm_with_locked tm_store].
  pose proof (adds_put P (tm_store tm) (txAbortPrefix +:+ t) abortData eq_refl) as Hb.
  destruct (PutTxRecord _ _ _) as [s [err|]]; [by intros [= <- <-]|].
  rewrite tm_Lock_free by done. cbn [mbind option_bind]. cbn [tm_with_locked tm_with_store tm_preparedTxs].
  destruct (tm_preparedTxs tm !! t); cbn; intros [= <- <-]; (eapply adds_trans; [exact Hb|]; apply adds_delete).
Qed.

(** A status query aborts a transaction only if its record names no participants. *)
Lemma Resolve_adds now tm args tm' r : ResolveTxStatus now tm args = Some (tm', r) →
  adds (λ k _, ∃ rec, k = txAbortPrefix +:+ ResolveTxStatusArgs_TxID args ∧
          R (tm_store tm) (txPreparePrefix +:+ ResolveTxStatusArgs_TxID args) ≫= unmarshal_prepared = Some rec ∧
          pr_ParticipantGroupIDs rec = []) (tm_store tm) (tm_store tm').
Proof.
  unfold ResolveTxStatus. set (t := ResolveTxStatusArgs_TxID args). set (P := λ k _, _).
  destruct (R _ (txDecisionPrefix +:+ t) ≫= _); [intros [= <- <-]; apply adds_refl|].
  destruct (R _ (txCommitPrefix +:+ t)); [intros [= <- <-]; apply adds_refl|].
  destruct (R _ (txAbortPrefix +:+ t)); [intros [= <- <-]; apply adds_refl|].
  destruct (R _ (txPreparePrefix +:+ t)) as [raw|] eqn:Hp; [|intros [= <- <-]; apply adds_refl].
  destruct (unmarshal_prepared raw) as [rec|] eqn:Hr; [|intros [= <- <-]; apply adds_refl].
  destruct (prepare_timed_out now rec) eqn:Hto; [|intros [= <- <-]; apply adds_refl].
  apply bool_decide_eq_true in Hto as [Hnone _].
  destruct (tm_locked tm) eqn:Hl; [by rewrite locked_blocks|]. rewrite tm_Lock_free by done. cbn. intros [= <- <-]. cbn.
  eapply adds_trans; [apply (adds_put P _ (txAbortPrefix +:+ t) abortData)|apply adds_delete].
  exists rec. split_and!; done.
Qed.

Lemma RecordDecision_adds tm args :
  let d := RecordTxDecisionArgs_Decision args in
  adds (λ k j, (d = TxStatusCommitted ∨ d = TxStatusAborted) ∧ k = txDecisionPrefix +:+ RecordTxDecisionArgs_TxID args ∧
     j = marshal_decision {| dr_Decision := d; dr_ParticipantGroupIDs := RecordTxDecisionArgs_ParticipantGroupIDs args;
                             dr_WriteKeys := RecordTxDecisionArgs_WriteKeys args |})
    (tm_store tm) (tm_store (RecordDecision tm args).1).
Proof.
  intros d. set (P := λ k j, _). unfold RecordDecision. fold d. case_decide as Hd; [apply adds_refl|].
  destruct (R _ _) as [raw|]; [repeat case_match; apply adds_refl|].
  match goal with |- context [PutTxRecord ?s ?k ?j] => pose proof (adds_put P s k j) as Hb end.
  destruct (PutTxRecord _ _ _) as [s [err|]]; cbn; apply Hb; (split_and!; [|done|done]); destruct (decide (d = TxStatusCommitted)); auto;
    right; apply dec_stable; intros ?; by apply Hd.
Qed.

(** The answer OK means that the decision is on disk. *)
Lemma RecordDecision_OK tm args : decision_wf {| dr_Decision := RecordTxDecisionArgs_Decision args;
      dr_ParticipantGroupIDs := RecordTxDecisionArgs_ParticipantGroupIDs args;
      dr_WriteKeys := RecordTxDecisionArgs_WriteKeys args |} →
  (RecordDecision tm args).2 = {| RecordTxDecisionReply_Err := OK |} →
  ∃ j rec, R (tm_store (RecordDecision tm args).1) (txDecisionPrefix +:+ RecordTxDecisionArgs_TxID args) = Some j ∧
    unmarshal_decision j = Some rec ∧ dr_Decision rec = RecordTxDecisionArgs_Decision args.
Proof.
  intros Hwf. unfold RecordDecision. case_decide; [done|].
  destruct (R _ _) as [raw|] eqn:Hr.
  - destruct (unmarshal_decision raw) as [ex|] eqn:Hu; [|done]. case_decide; [|done]. cbn. intros _. eauto.
  - destruct (PutTxRecord _ _ _) as [s [err|]] eqn:E; [done|]. cbn. intros _.
    rewrite (PutTxRecord_R _ _ _ _ _ E), decide_True by done. do 2 eexists.
    split_and!; [done|by apply unmarshal_marshal_decision|done].
Qed.
End outcomes.
