(* ===== verification/TxGlobal.v ===== *)
(** * Transactions across groups

    Clients that run [Commit], [Rollback] and [RecoverTransaction] and the
    participants of all groups, joined by a network that delays, repeats and
    loses requests: a request once sent may be executed at any later time and
    any number of times, and a client sees any answer that was given or none.
    Each group is its replicated participant ([TxManager]); restarts, rebuilt
    lock tables and user writes happen in between.

    [Rollback] computes its groups from the owners of the keys at the time it
    is called, and the least of them records the abort.  The steps are given
    with a flag [stable]: with [gstep true] that group is the coordinator that
    [Commit] chose, with [gstep false] it is whatever the current owners make
    it.  For [gstep true] a transaction that one group has committed is aborted
    by none, and what [Commit] returns is what happens; TxMoved.v has a run of
    [gstep false] that commits in one group and aborts in another. *)
From stdpp Require Import prelude gmap sorting strings relations.
From stdpp Require Import options.
From S2P Require Import Prelude Json KvApi ExpiryHeap Store StoreProps Tx TxProps Topology TxCoord TxOutcomes.
Local Open Scope Z_scope.

Inductive rpc :=
  | RpcPrepare (g : Z) (a : PrepareTxArgs)
  | RpcDecide (g : Z) (a : RecordTxDecisionArgs)
  | RpcCommit (g : Z) (a : CommitTxArgs)
  | RpcAbort (g : Z) (a : AbortTxArgs).

(** Where a client is in [Commit], or that it called [Rollback] without it. *)
Inductive tx_phase :=
  | PhPreparing
  | PhDeciding (commit : bool) (firstErr : option Err) (prepared : gset Z) (req : RecordTxDecisionArgs)
  | PhReturned (e : Err)
  | PhRolledBack.
Record txn := mkTxn {
  ct_handle : TxHandle; ct_groups : list Z; ct_writes : gmap Z (list WriteKey); ct_reads : gmap Z (list ReadKey);
  ct_phase : tx_phase }.
Definition ct_to (ph : tx_phase) (c : txn) : txn := mkTxn (ct_handle c) (ct_groups c) (ct_writes c) (ct_reads c) ph.
Definition ct_coord (c : txn) : Z := default 0 (head (ct_groups c)).
Definition ct_prepare (c : txn) (g : Z) : PrepareTxArgs :=
  prepare_request (ct_handle c) (ct_groups c) (ct_writes c) (ct_reads c) g.

Definition commit_rpc (t : string) (wks : list WriteKey) (g : Z) : rpc :=
  RpcCommit g {| CommitTxArgs_TxID := t; CommitTxArgs_WriteKeys := wks |}.
Definition abort_rpc (t : string) (g : Z) : rpc := RpcAbort g {| AbortTxArgs_TxID := t |}.
Definition broadcast (t : string) (gs : list Z) (commit : bool) : list rpc :=
  if commit then commit_rpc t [] <$> gs else abort_rpc t <$> gs.

Section global.
Context {DB : Type} `{Badger DB}.
Local Notation R s k := (GetTxRecord s k).

Record gsys := mkG {
  gs_groups : gmap Z (TxManager DB); gs_sent : list rpc; gs_answers : list (rpc * string);
  gs_status : list (Z * string * ResolveTxStatusReply); gs_txs : gmap string txn }.

(** What the participants' routers may answer: a replica of the asked group
    that does not lag, or one that does not know a decision. *)
Definition honest (s : gsys) (router : option (Z → string → option string)) : Prop :=
  ∀ q g t d, router = Some q → q g t = Some d → d = "COMMITTED" ∨ d = "ABORTED" →
    ∃ tm, gs_groups s !! g = Some tm ∧ d = QueryTxDecision (tm_store tm) t.

(** A handle in the ranges of its Go types. *)
Definition handle_ok (h : TxHandle) : Prop := map_Forall (λ _ wk, writekey_wf wk) (th_writeSet h).

Definition gs_exec (g : Z) (tm : TxManager DB) (m : rpc) (e : Err) (s : gsys) : gsys :=
  mkG (<[g := tm]> (gs_groups s)) (gs_sent s) ((m, errReply e) :: gs_answers s) (gs_status s) (gs_txs s).
Definition gs_quiet (g : Z) (tm : TxManager DB) (s : gsys) : gsys :=
  mkG (<[g := tm]> (gs_groups s)) (gs_sent s) (gs_answers s) (gs_status s) (gs_txs s).
Definition gs_client (ms : list rpc) (t : string) (c : txn) (s : gsys) : gsys :=
  mkG (gs_groups s) (ms ++ gs_sent s) (gs_answers s) (gs_status s) (<[t := c]> (gs_txs s)).
Definition gs_send (ms : list rpc) (s : gsys) : gsys :=
  mkG (gs_groups s) (ms ++ gs_sent s) (gs_answers s) (gs_status s) (gs_txs s).

Inductive gstep (stable : bool) (s : gsys) : gsys → Prop :=
  (* clients *)
  | g_begin resolve worder rorder h gs ws rs :
      gs_txs s !! th_txID h = None → handle_ok h → (∀ l, worder l ≡ₚ l) →
      Commit_plan resolve worder rorder h = Plan gs ws rs → Forall isS32 gs →
      gstep stable s (gs_client ((λ g, RpcPrepare g (prepare_request h gs ws rs g)) <$> gs) (th_txID h)
                 (mkTxn h gs ws rs PhPreparing) s)
  | g_collect t c results worder prepared firstErr :
      gs_txs s !! t = Some c → ct_phase c = PhPreparing → (∀ l, worder l ≡ₚ l) →
      results.*1 ≡ₚ ct_groups c →
      (∀ g e, (g, Some e) ∈ results → (RpcPrepare g (ct_prepare c g), e) ∈ gs_answers s) →
      Commit_collect results = (prepared, firstErr) →
      let commit := Commit_decide (ct_groups c) prepared in
      let req := decision_request worder t (ct_groups c) commit (ct_writes c) in
      gstep stable s (gs_client [RpcDecide (ct_coord c) req] t (ct_to (PhDeciding commit firstErr prepared req) c) s)
  | g_decided t c commit firstErr prepared req resp :
      gs_txs s !! t = Some c → ct_phase c = PhDeciding commit firstErr prepared req →
      (∀ e, resp = Some e → (RpcDecide (ct_coord c) req, e) ∈ gs_answers s) →
      let p := persistDecision resp in
      gstep stable s (gs_client
        (if decide (p = OK) then
           if commit then (λ g, commit_rpc t (default [] (ct_writes c !! g)) g) <$> ct_groups c
           else abort_rpc t <$> elements prepared
         else []) t (ct_to (PhReturned (Commit_return commit p firstErr)) c) s)
  | g_rollback_only h resolve rorder worder gs :
      gs_txs s !! th_txID h = None → Rollback_groups resolve rorder h = gs → gs ≠ [] → Forall isS32 gs →
      gstep stable s (gs_client [RpcDecide (default 0 (head gs)) (decision_request worder (th_txID h) gs false ∅)]
                 (th_txID h) (mkTxn h gs ∅ ∅ PhRolledBack) s)
  | g_rollback h c resolve rorder worder gs :
      gs_txs s !! th_txID h = Some c → Rollback_groups resolve rorder h = gs → gs ≠ [] → Forall isS32 gs →
      (stable = true → default 0 (head gs) = ct_coord c) →
      gstep stable s (gs_send [RpcDecide (default 0 (head gs)) (decision_request worder (th_txID h) gs false ∅)] s)
  | g_rollback_done t worder gs :
      (RpcDecide (default 0 (head gs)) (decision_request worder t gs false ∅), errReply OK) ∈ gs_answers s →
      gstep stable s (gs_send (abort_rpc t <$> gs) s)
  | g_recover t p r gs commit :
      (p, t, r) ∈ gs_status s → recover_participant p (Some (resolve_response r)) = RecoverBroadcast gs commit →
      gstep stable s (gs_send (broadcast t gs commit) s)
  | g_recover_ask t p r k r' gs commit :
      (p, t, r) ∈ gs_status s → recover_participant p (Some (resolve_response r)) = RecoverAsk k →
      (k, t, r') ∈ gs_status s →
      recover_coordinator (resolve_response r) (Some (resolve_response r')) = RecoverBroadcast gs commit →
      gstep stable s (gs_send (broadcast t gs commit) s)
  (* groups *)
  | g_prepare g a now router tm tm' r :
      RpcPrepare g a ∈ gs_sent s → gs_groups s !! g = Some tm → honest s router → prepare_args_wf now a →
      Prepare g router now tm a = Some (tm', r) →
      gstep stable s (gs_exec g tm' (RpcPrepare g a) (PrepareTxReply_Err r) s)
  | g_decide g a tm :
      RpcDecide g a ∈ gs_sent s → gs_groups s !! g = Some tm →
      gstep stable s (gs_exec g (RecordDecision tm a).1 (RpcDecide g a)
                 (RecordTxDecisionReply_Err (RecordDecision tm a).2) s)
  | g_commit g a tm tm' r :
      RpcCommit g a ∈ gs_sent s → gs_groups s !! g = Some tm → Commit g tm a = Some (tm', r) →
      gstep stable s (gs_exec g tm' (RpcCommit g a) (CommitTxReply_Err r) s)
  | g_abort g a tm tm' r :
      RpcAbort g a ∈ gs_sent s → gs_groups s !! g = Some tm → Abort tm a = Some (tm', r) →
      gstep stable s (gs_exec g tm' (RpcAbort g a) (AbortTxReply_Err r) s)
  | g_resolve g t now tm tm' r :
      gs_groups s !! g = Some tm → ResolveTxStatus now tm {| ResolveTxStatusArgs_TxID := t |} = Some (tm', r) →
      gstep stable s (mkG (<[g := tm']> (gs_groups s)) (gs_sent s) (gs_answers s) ((g, t, r) :: gs_status s) (gs_txs s))
  | g_rebuild g router order tm tm' :
      gs_groups s !! g = Some tm → honest s router → (∀ l, order l ≡ₚ l) →
      RebuildLockTable g router order tm = Some tm' → gstep stable s (gs_quiet g tm' s)
  | g_restart g tm : gs_groups s !! g = Some tm → gstep stable s (gs_quiet g (NewTxManager (tm_store tm)) s)
  | g_user g tm st :
      gs_groups s !! g = Some tm → (∀ k, R st k = R (tm_store tm) k) →
      gstep stable s (gs_quiet g (tm_with_store tm st) s).

(** Groups with empty stores and nothing sent. *)
Definition ginit (s : gsys) : Prop :=
  map_Forall (λ _ tm, tm = NewTxManager NewStore) (gs_groups s) ∧
  gs_sent s = [] ∧ gs_answers s = [] ∧ gs_status s = [] ∧ gs_txs s = ∅.

(** ** The invariant *)

(** The decision recorded by the coordinator group of a transaction. *)
Definition decided (s : gsys) (t : string) (d : TxStatus) : Prop :=
  ∃ c tm j rec, gs_txs s !! t = Some c ∧ gs_groups s !! ct_coord c = Some tm ∧
    R (tm_store tm) (txDecisionPrefix +:+ t) = Some j ∧ unmarshal_decision j = Some rec ∧ dr_Decision rec = d.

Lemma decided_unique s t d d' : decided s t d → decided s t d' → d = d'.
Proof. intros (c & tm & j & rec & ? & ? & ? & ? & <-) (c' & tm' & j' & rec' & ? & ? & ? & ? & <-). by simplify_eq. Qed.

(** What a record of group [g] says. *)
Definition record_ok (s : gsys) (g : Z) (k : string) (j : json) : Prop :=
  ∀ t,
  (k = txDecisionPrefix +:+ t → ∃ c rec, gs_txs s !! t = Some c ∧ g = ct_coord c ∧ unmarshal_decision j = Some rec ∧
     (dr_Decision rec = TxStatusCommitted ∨ dr_Decision rec = TxStatusAborted)) ∧
  (k = txPreparePrefix +:+ t → ∃ c rec, gs_txs s !! t = Some c ∧ unmarshal_prepared j = Some rec ∧ pr_TxID rec = t ∧
     pr_CoordinatorGroupID rec = ct_coord c ∧ pr_ParticipantGroupIDs rec ≠ []) ∧
  (k = txCommitPrefix +:+ t → decided s t TxStatusCommitted) ∧
  (k = txAbortPrefix +:+ t → decided s t TxStatusAborted).

Definition dreq_wf (a : RecordTxDecisionArgs) : Prop :=
  decision_wf {| dr_Decision := RecordTxDecisionArgs_Decision a;
    dr_ParticipantGroupIDs := RecordTxDecisionArgs_ParticipantGroupIDs a; dr_WriteKeys := RecordTxDecisionArgs_WriteKeys a |}.

Definition sent_ok (s : gsys) (m : rpc) : Prop :=
  match m with
  | RpcPrepare g a => ∃ c, gs_txs s !! PrepareTxArgs_TxID a = Some c ∧
      PrepareTxArgs_CoordinatorGroupID a = ct_coord c ∧ PrepareTxArgs_ParticipantGroupIDs a ≠ []
  | RpcDecide g a => ∃ c, gs_txs s !! RecordTxDecisionArgs_TxID a = Some c ∧ g = ct_coord c ∧ dreq_wf a
  | RpcCommit g a => decided s (CommitTxArgs_TxID a) TxStatusCommitted
  | RpcAbort g a => decided s (AbortTxArgs_TxID a) TxStatusAborted
  end.
Definition answer_ok (s : gsys) (x : rpc * string) : Prop :=
  match x.1 with
  | RpcDecide g a => x.2 = errReply OK → decided s (RecordTxDecisionArgs_TxID a) (RecordTxDecisionArgs_Decision a)
  | _ => ∃ e, x.2 = errReply e
  end.
Definition status_ok (s : gsys) (x : Z * string * ResolveTxStatusReply) : Prop :=
  (ResolveTxStatusReply_Status x.2 = TxStatusCommitted → decided s x.1.2 TxStatusCommitted) ∧
  (ResolveTxStatusReply_Status x.2 = TxStatusAborted → decided s x.1.2 TxStatusAborted).

Definition all_prepared (s : gsys) (c : txn) : Prop :=
  Forall (λ g, (RpcPrepare g (ct_prepare c g), errReply OK) ∈ gs_answers s) (ct_groups c).
Definition phase_ok (s : gsys) (t : string) (c : txn) : Prop :=
  match ct_phase c with
  | PhPreparing => True
  | PhDeciding commit firstErr _ req =>
      RecordTxDecisionArgs_TxID req = t ∧
      RecordTxDecisionArgs_Decision req = (if commit then TxStatusCommitted else TxStatusAborted) ∧
      firstErr ≠ Some OK ∧ (commit = true → all_prepared s c)
  | PhRolledBack => True
  | PhReturned e =>
      (e = OK → decided s t TxStatusCommitted ∧ all_prepared s c) ∧
      (e ≠ OK → e ≠ ErrTxTimeout → decided s t TxStatusAborted)
  end.
Definition txn_ok (s : gsys) (t : string) (c : txn) : Prop :=
  th_txID (ct_handle c) = t ∧ ct_groups c ≠ [] ∧ Forall isS32 (ct_groups c) ∧
  map_Forall (λ _ l, Forall writekey_wf l) (ct_writes c) ∧ phase_ok s t c.

Record ginv (s : gsys) : Prop := {
  gi_tx : map_Forall (λ _ tm, tx_inv tm) (gs_groups s);
  gi_records : ∀ g tm k j, gs_groups s !! g = Some tm → R (tm_store tm) k = Some j → record_ok s g k j;
  gi_sent : Forall (sent_ok s) (gs_sent s);
  gi_answers : Forall (answer_ok s) (gs_answers s);
  gi_status : Forall (status_ok s) (gs_status s);
  gi_txs : map_Forall (txn_ok s) (gs_txs s) }.

(** Nothing that was decided or known is lost. *)
Definition evolves (s s' : gsys) : Prop :=
  (∀ t c, gs_txs s !! t = Some c → ∃ c', gs_txs s' !! t = Some c' ∧ ct_groups c' = ct_groups c) ∧
  (∀ g tm, gs_groups s !! g = Some tm → ∃ tm', gs_groups s' !! g = Some tm' ∧ tx_mono (tm_store tm) (tm_store tm')) ∧
  gs_answers s ⊆ gs_answers s'.

Lemma ct_coord_same c c' : ct_groups c' = ct_groups c → ct_coord c' = ct_coord c.
Proof. unfold ct_coord. by intros ->. Qed.

Lemma decided_mono s s' t d : evolves s s' → decided s t d → decided s' t d.
Proof.
  intros (Ht & Hg & _) (c & tm & j & rec & Hc & Htm & Hj & Hu & Hd).
  destruct (Ht _ _ Hc) as (c' & Hc' & Hgs). destruct (Hg _ _ Htm) as (tm' & Htm' & Hmono).
  exists c', tm', j, rec. rewrite (ct_coord_same _ _ Hgs). split_and!; [done|done| |done|done].
  destruct (Hmono t) as (_ & _ & Hm). rewrite Hm; [done|]. by rewrite Hj.
Qed.
Lemma sent_ok_mono s s' m : evolves s s' → sent_ok s m → sent_ok s' m.
Proof.
  intros Hev. pose proof Hev as (Ht & _). destruct m; cbn; eauto using decided_mono.
  - intros (c & Hc & Hk & Hp). destruct (Ht _ _ Hc) as (c' & ? & E). exists c'. by rewrite (ct_coord_same _ _ E).
  - intros (c & Hc & Hk & Hp). destruct (Ht _ _ Hc) as (c' & ? & E). exists c'. by rewrite (ct_coord_same _ _ E).
Qed.
Lemma answer_ok_mono s s' x : evolves s s' → answer_ok s x → answer_ok s' x.
Proof. intros Hev. unfold answer_ok. destruct x.1; eauto using decided_mono. Qed.
Lemma status_ok_mono s s' x : evolves s s' → status_ok s x → status_ok s' x.
Proof. intros Hev [? ?]. split; eauto using decided_mono. Qed.
Lemma record_ok_mono s s' g k j : evolves s s' → record_ok s g k j → record_ok s' g k j.
Proof.
  intros Hev Hr t. pose proof Hev as (Ht & _). destruct (Hr t) as (H1 & H2 & H3 & H4). split_and!.
  - intros E. destruct (H1 E) as (c & rec & Hc & ? & ? & ?). destruct (Ht _ _ Hc) as (c' & ? & Ec).
    exists c', rec. by rewrite (ct_coord_same _ _ Ec).
  - intros E. destruct (H2 E) as (c & rec & Hc & ? & ? & ? & ?). destruct (Ht _ _ Hc) as (c' & ? & Ec).
    exists c', rec. by rewrite (ct_coord_same _ _ Ec).
  - eauto using decided_mono.
  - eauto using decided_mono.
Qed.
Lemma all_prepared_mono s s' c : gs_answers s ⊆ gs_answers s' → all_prepared s c → all_prepared s' c.
Proof. intros Ha Hp. eapply Forall_impl; [exact Hp|]. cbn. intros g Hg. by apply Ha. Qed.
Lemma phase_ok_mono s s' t c : evolves s s' → phase_ok s t c → phase_ok s' t c.
Proof.
  intros Hev. pose proof Hev as (_ & _ & Ha). unfold phase_ok. destruct (ct_phase c) as [|b fe pr req|e|]; [done| | |done].
  - intros (? & ? & ? & ?). split_and!; eauto using all_prepared_mono.
  - intros [H1 H2]. split; [intros E; destruct (H1 E); eauto using decided_mono, all_prepared_mono|eauto using decided_mono].
Qed.
Lemma txn_ok_mono s s' t c : evolves s s' → txn_ok s t c → txn_ok s' t c.
Proof. intros Hev (? & ? & ? & ? & ?). split_and!; eauto using phase_ok_mono. Qed.

(** ** The steps keep it *)

Lemma evolves_group s g tm tm' ans st :
  gs_groups s !! g = Some tm → tx_mono (tm_store tm) (tm_store tm') → gs_answers s ⊆ ans →
  evolves s (mkG (<[g := tm']> (gs_groups s)) (gs_sent s) ans st (gs_txs s)).
Proof.
  intros Hg Hm Ha. split_and!; cbn; [by eauto| |done].
  intros g' tm1 Hg'. destruct (decide (g' = g)) as [->|Hne].
  - rewrite lookup_insert_eq. eexists. split; [done|]. by simplify_eq.
  - rewrite lookup_insert_ne by done. eexists. split; [done|]. done.
Qed.

Lemma ginv_group s g tm tm' ans st P :
  ginv s → gs_groups s !! g = Some tm → tx_ok tm tm' → adds P (tm_store tm) (tm_store tm') → gs_answers s ⊆ ans →
  let s' := mkG (<[g := tm']> (gs_groups s)) (gs_sent s) ans st (gs_txs s) in
  (∀ k j, P k j → R (tm_store tm') k = Some j → record_ok s' g k j) →
  Forall (answer_ok s') ans → Forall (status_ok s') st → ginv s'.
Proof.
  intros [Htx Hrec Hsent Hans Hst Htxs] Hg [Hi Hm] Hadd Ha s' HP Hans' Hst'.
  assert (evolves s s') as Hev by by eapply evolves_group.
  split; [| |eapply Forall_impl; [exact Hsent|]; intros m; by apply sent_ok_mono|done|done|].
  - cbn. by apply map_Forall_insert_2.
  - cbn [gs_groups s']. intros g' tm1 k j. rewrite lookup_insert_Some. intros [[<- <-]|[Hne Hg']] Hk.
    + destruct (Hadd _ _ Hk) as [Hold|Hnew]; [|by apply HP]. eapply record_ok_mono; [done|]. by eapply Hrec.
    + eapply record_ok_mono; [done|]. by eapply Hrec.
  - cbn [gs_txs s']. intros t c Hc. eapply txn_ok_mono; [done|]. by apply Htxs.
Qed.

(** The operation of a request. *)
Lemma ginv_exec s g tm tm' m e P :
  ginv s → gs_groups s !! g = Some tm → tx_ok tm tm' → adds P (tm_store tm) (tm_store tm') →
  (∀ k j, P k j → R (tm_store tm') k = Some j → record_ok (gs_exec g tm' m e s) g k j) →
  (match m with RpcDecide _ a => e = OK →
     decided (gs_exec g tm' m e s) (RecordTxDecisionArgs_TxID a) (RecordTxDecisionArgs_Decision a) | _ => True end) →
  ginv (gs_exec g tm' m e s).
Proof.
  intros Hs Hg Hok Hadd HP Hm.
  assert (evolves s (gs_exec g tm' m e s)) as Hev by (eapply evolves_group; [done|apply Hok|set_solver]).
  eapply ginv_group; [done|done|done|done|set_solver|done| |].
  - apply Forall_cons. split.
    + unfold answer_ok. cbn [fst snd]. destruct m; try (by eexists). intros E. apply Hm.
      apply (f_equal mapPBErr) in E. by rewrite !mapPBErr_errReply in E.
    + eapply Forall_impl; [apply (gi_answers s Hs)|]. intros x. by apply answer_ok_mono.
  - eapply Forall_impl; [apply (gi_status s Hs)|]. intros x. by apply status_ok_mono.
Qed.
Lemma ginv_quiet s g tm tm' P :
  ginv s → gs_groups s !! g = Some tm → tx_ok tm tm' → adds P (tm_store tm) (tm_store tm') →
  (∀ k j, P k j → record_ok (gs_quiet g tm' s) g k j) → ginv (gs_quiet g tm' s).
Proof.
  intros Hs Hg Hok Hadd HP.
  assert (evolves s (gs_quiet g tm' s)) as Hev by (eapply evolves_group; [done|apply Hok|done]).
  eapply ginv_group; [done|done|done|done|done|by intros; apply HP| |].
  - eapply Forall_impl; [apply (gi_answers s Hs)|]. intros x. by apply answer_ok_mono.
  - eapply Forall_impl; [apply (gi_status s Hs)|]. intros x. by apply status_ok_mono.
Qed.

(** Record keys of the four kinds. *)
Lemma record_ok_commit s g t j : decided s t TxStatusCommitted → record_ok s g (txCommitPrefix +:+ t) j.
Proof. intros Hd t'. split_and!; try (intros; discriminate). by intros <-%string_app_inj. Qed.
Lemma record_ok_abort s g t j : decided s t TxStatusAborted → record_ok s g (txAbortPrefix +:+ t) j.
Proof. intros Hd t'. split_and!; try (intros; discriminate). by intros <-%string_app_inj. Qed.
Lemma record_ok_told s g k j :
  outcome_told (λ t, decided s t TxStatusCommitted) (λ t, decided s t TxStatusAborted) k j → record_ok s g k j.
Proof. intros [(t & -> & Hd)|(t & -> & Hd)]; [by apply record_ok_commit|by apply record_ok_abort]. Qed.
Lemma outcome_told_mono s s' k j : evolves s s' →
  outcome_told (λ t, decided s t TxStatusCommitted) (λ t, decided s t TxStatusAborted) k j →
  outcome_told (λ t, decided s' t TxStatusCommitted) (λ t, decided s' t TxStatusAborted) k j.
Proof.
  intros Hev [(t & -> & Hd)|(t & -> & Hd)]; [left|right]; exists t; eauto using decided_mono.
Qed.

(** What participants hear about their transactions was decided. *)
Lemma query_text (st : Store DB) t d :
  QueryTxDecision st t = d → d = "COMMITTED" ∨ d = "ABORTED" →
  ∃ j rec, R st (txDecisionPrefix +:+ t) = Some j ∧ unmarshal_decision j = Some rec ∧
    txStatusToString (dr_Decision rec) = d.
Proof.
  unfold QueryTxDecision. destruct (R st _) as [j|]; [|intros <-; intros [?|?]; discriminate].
  destruct (unmarshal_decision j) as [rec|] eqn:E; [|intros <-; intros [?|?]; discriminate]. eauto.
Qed.
Lemma status_text st d :
  txStatusToString st = d →
  (d = "COMMITTED" → st = TxStatusCommitted) ∧ (d = "ABORTED" → st = TxStatusAborted).
Proof. unfold txStatusToString. intros <-. repeat case_decide; split; intros; done. Qed.

Lemma answers_decided s g tm router :
  ginv s → gs_groups s !! g = Some tm → honest s router →
  answers_told (λ t, decided s t TxStatusCommitted) (λ t, decided s t TxStatusAborted) g router (tm_store tm).
Proof.
  intros Hs Hg Hh t rec Hr. destruct (R (tm_store tm) (txPreparePrefix +:+ t)) as [j|] eqn:Hj; [|done].
  destruct (gi_records s Hs _ _ _ _ Hg Hj t) as (_ & Hp & _). destruct (Hp eq_refl) as (c & rec' & Hc & Hu & HT & Hk & _).
  cbn in Hr. simplify_eq. unfold answer_told, queryCoordinatorDecision. rewrite Hk.
  case_decide as Hloc.
  - destruct (R (tm_store tm) (txDecisionPrefix +:+ pr_TxID rec)) as [jd|] eqn:Hjd; [|by split].
    destruct (unmarshal_decision jd) as [d|] eqn:Hd; [|by split].
    split; intros E; exists c, tm, jd, d; by rewrite Hloc.
  - destruct router as [q|]; [|by split]. destruct (q (ct_coord c) (pr_TxID rec)) as [d|] eqn:Hq; [|by split].
    assert (d = "COMMITTED" ∨ d = "ABORTED" → ∃ tm' jd dr, gs_groups s !! ct_coord c = Some tm' ∧
      R (tm_store tm') (txDecisionPrefix +:+ pr_TxID rec) = Some jd ∧ unmarshal_decision jd = Some dr ∧
      txStatusToString (dr_Decision dr) = d) as Hd.
    { intros Hd. destruct (Hh q _ _ _ eq_refl Hq Hd) as (tm' & Htm' & Eq). symmetry in Eq.
      destruct (query_text _ _ _ Eq Hd) as (jd & dr & ? & ? & ?). eauto 8. }
    case_decide as E1; [|case_decide as E2]; (split; intros E; try discriminate).
    + destruct (Hd (or_introl E1)) as (tm' & jd & dr & ? & ? & ? & Et). exists c, tm', jd, dr.
      split_and!; try done. by apply (status_text _ _ Et).
    + destruct (Hd (or_intror E2)) as (tm' & jd & dr & ? & ? & ? & Et). exists c, tm', jd, dr.
      split_and!; try done. by apply (status_text _ _ Et).
Qed.

Lemma inv_prepare s g a now router tm tm' r :
  ginv s → RpcPrepare g a ∈ gs_sent s → gs_groups s !! g = Some tm → honest s router → prepare_args_wf now a →
  Prepare g router now tm a = Some (tm', r) →
  ginv (gs_exec g tm' (RpcPrepare g a) (PrepareTxReply_Err r) s).
Proof.
  intros Hs Hin Hg Hh Hwf E. pose proof (gi_tx s Hs g tm Hg) as Hi.
  assert (tx_ok tm tm') as Hok by (eapply (tx_step_ok g); [done|by eapply tx_step_prepare]).
  assert (evolves s (gs_exec g tm' (RpcPrepare g a) (PrepareTxReply_Err r) s)) as Hev
    by (eapply evolves_group; [done|apply Hok|set_solver]).
  eapply ginv_exec; [done|done|done| | |done].
  - eapply Prepare_adds; [done|by eapply answers_decided|done].
  - cbn beta. intros k j [Ht|[-> ->]] _; [apply record_ok_told; by eapply outcome_told_mono|].
    pose proof (gi_sent s Hs) as Hsent. rewrite Forall_forall in Hsent. destruct (Hsent _ Hin) as (c & Hc & Hk & Hp).
    intros t. split_and!; try (intros; discriminate). intros <-%string_app_inj.
    exists c, (prepare_record now a). split_and!; try done. apply unmarshal_marshal_prepared, Hwf.
Qed.

Lemma inv_decide s g a tm :
  ginv s → RpcDecide g a ∈ gs_sent s → gs_groups s !! g = Some tm →
  ginv (gs_exec g (RecordDecision tm a).1 (RpcDecide g a) (RecordTxDecisionReply_Err (RecordDecision tm a).2) s).
Proof.
  intros Hs Hin Hg. pose proof (gi_tx s Hs g tm Hg) as Hi.
  pose proof (gi_sent s Hs) as Hsent. rewrite Forall_forall in Hsent. destruct (Hsent _ Hin) as (c & Hc & Hk & Hwf).
  eapply ginv_exec; [done|done|by apply RecordDecision_ok|apply RecordDecision_adds| |].
  - cbn beta. intros k j (Hd & -> & ->) _ t. split_and!; try (intros; discriminate). intros <-%string_app_inj.
    do 2 eexists. split_and!; [done|done|by apply unmarshal_marshal_decision|done].
  - intros EOK. destruct (RecordDecision tm a) as [tm' [e]] eqn:E. cbn in EOK. subst e.
    destruct (RecordDecision_OK tm a Hwf) as (j & rec & Hj & Hu & Hd); [by rewrite E|].
    rewrite E in Hj. exists c, tm', j, rec. cbn. rewrite <-Hk, lookup_insert_eq. done.
Qed.

Lemma inv_commit s g a tm tm' r :
  ginv s → RpcCommit g a ∈ gs_sent s → gs_groups s !! g = Some tm → Commit g tm a = Some (tm', r) →
  ginv (gs_exec g tm' (RpcCommit g a) (CommitTxReply_Err r) s).
Proof.
  intros Hs Hin Hg E. pose proof (gi_tx s Hs g tm Hg) as Hi.
  pose proof (gi_sent s Hs) as Hsent. rewrite Forall_forall in Hsent. pose proof (Hsent _ Hin) as Hd.
  assert (tx_ok tm tm') as Hok by (eapply (tx_step_ok g); [done|by eapply tx_step_commit]).
  eapply ginv_exec; [done|done|done|by eapply Commit_adds| |done].
  cbn beta. intros k j -> _. apply record_ok_commit. eapply decided_mono; [|exact Hd].
  eapply evolves_group; [done|apply Hok|set_solver].
Qed.
Lemma inv_abort s g a tm tm' r :
  ginv s → RpcAbort g a ∈ gs_sent s → gs_groups s !! g = Some tm → Abort tm a = Some (tm', r) →
  ginv (gs_exec g tm' (RpcAbort g a) (AbortTxReply_Err r) s).
Proof.
  intros Hs Hin Hg E. pose proof (gi_tx s Hs g tm Hg) as Hi.
  pose proof (gi_sent s Hs) as Hsent. rewrite Forall_forall in Hsent. pose proof (Hsent _ Hin) as Hd.
  assert (tx_ok tm tm') as Hok by (eapply (tx_step_ok g); [done|by eapply tx_step_abort]).
  eapply ginv_exec; [done|done|done|by eapply Abort_adds| |done].
  cbn beta. intros k j -> _. apply record_ok_abort. eapply decided_mono; [|exact Hd].
  eapply evolves_group; [done|apply Hok|set_solver].
Qed.

(** A transaction with participants is not aborted by a status query. *)
Lemma prepared_has_participants s g tm t rec :
  ginv s → gs_groups s !! g = Some tm → R (tm_store tm) (txPreparePrefix +:+ t) ≫= unmarshal_prepared = Some rec →
  pr_ParticipantGroupIDs rec ≠ [].
Proof.
  intros Hs Hg Hr. destruct (R (tm_store tm) (txPreparePrefix +:+ t)) as [j|] eqn:Hj; [|done].
  destruct (gi_records s Hs _ _ _ _ Hg Hj t) as (_ & Hp & _). destruct (Hp eq_refl) as (c & rec' & _ & Hu & _ & _ & Hne).
  cbn in Hr. by simplify_eq.
Qed.

Lemma resolve_status s g tm t now tm' r :
  ginv s → gs_groups s !! g = Some tm → ResolveTxStatus now tm {| ResolveTxStatusArgs_TxID := t |} = Some (tm', r) →
  status_ok s (g, t, r).
Proof.
  intros Hs Hg. unfold ResolveTxStatus. cbn [ResolveTxStatusArgs_TxID].
  destruct (R (tm_store tm) (txDecisionPrefix +:+ t)) as [j|] eqn:Hj; cbn [mbind option_bind].
  1: destruct (unmarshal_decision j) as [d|] eqn:Hd; [|destruct (gi_records s Hs _ _ _ _ Hg Hj t) as (Hx & _);
       destruct (Hx eq_refl) as (c & rec & _ & _ & Hu & _); congruence].
  1: { intros [= <- <-]. destruct (gi_records s Hs _ _ _ _ Hg Hj t) as (Hx & _).
       destruct (Hx eq_refl) as (c & rec & Hc & -> & Hu & _). simplify_eq.
       split; cbn; intros E; exists c, tm, j, d; done. }
  destruct (R (tm_store tm) (txCommitPrefix +:+ t)) as [jc|] eqn:Hc.
  { intros [= <- <-]. destruct (gi_records s Hs _ _ _ _ Hg Hc t) as (_ & _ & Hx & _). split; cbn; [auto|discriminate]. }
  destruct (R (tm_store tm) (txAbortPrefix +:+ t)) as [ja|] eqn:Ha.
  { intros [= <- <-]. destruct (gi_records s Hs _ _ _ _ Hg Ha t) as (_ & _ & _ & Hx). split; cbn; [discriminate|auto]. }
  destruct (R (tm_store tm) (txPreparePrefix +:+ t)) as [raw|] eqn:Hp; [|intros [= <- <-]; split; discriminate].
  destruct (unmarshal_prepared raw) as [rec|] eqn:Hu; [|intros [= <- <-]; split; discriminate].
  destruct (prepare_timed_out now rec) eqn:Hto; [|intros [= <- <-]; split; discriminate].
  apply bool_decide_eq_true in Hto as [Hnone _]. exfalso.
  eapply (prepared_has_participants s g tm t rec); [done|done| |done]. by rewrite Hp.
Qed.

Lemma inv_resolve s g t now tm tm' r :
  ginv s → gs_groups s !! g = Some tm → ResolveTxStatus now tm {| ResolveTxStatusArgs_TxID := t |} = Some (tm', r) →
  ginv (mkG (<[g := tm']> (gs_groups s)) (gs_sent s) (gs_answers s) ((g, t, r) :: gs_status s) (gs_txs s)).
Proof.
  intros Hs Hg E. pose proof (gi_tx s Hs g tm Hg) as Hi.
  assert (tx_ok tm tm') as Hok by (eapply (tx_step_ok g); [done|by eapply tx_step_resolve]).
  set (s' := mkG _ _ _ _ _).
  assert (evolves s s') as Hev by (eapply evolves_group; [done|apply Hok|done]).
  eapply ginv_group; [done|done|done|by eapply Resolve_adds|done| | |].
  - cbn beta. cbn [ResolveTxStatusArgs_TxID]. intros k j (rec & -> & Hrec & Hnone) _. exfalso.
    by eapply prepared_has_participants.
  - eapply Forall_impl; [apply (gi_answers s Hs)|]. intros x. by apply answer_ok_mono.
  - apply Forall_cons. split; [eapply status_ok_mono; [done|]; by eapply resolve_status|].
    eapply Forall_impl; [apply (gi_status s Hs)|]. intros x. by apply status_ok_mono.
Qed.

(** ** The steps of the clients *)

Lemma evolves_client s ms t c :
  (∀ c0, gs_txs s !! t = Some c0 → ct_groups c = ct_groups c0) → evolves s (gs_client ms t c s).
Proof.
  intros Hc. split_and!; cbn; [|intros g tm Hg; exists tm; by split|done].
  intros t' c' Hc'. destruct (decide (t' = t)) as [->|Hne].
  - rewrite lookup_insert_eq. eexists. split; [done|]. by apply Hc.
  - rewrite lookup_insert_ne by done. eauto.
Qed.
Lemma evolves_send s ms : evolves s (gs_send ms s).
Proof. split_and!; cbn; [eauto|intros g tm Hg; exists tm; by split|done]. Qed.

Lemma ginv_client s ms t c :
  ginv s → (∀ c0, gs_txs s !! t = Some c0 → ct_groups c = ct_groups c0) →
  let s' := gs_client ms t c s in
  (evolves s s' → txn_ok s' t c) → (evolves s s' → Forall (sent_ok s') ms) → ginv s'.
Proof.
  intros [Htx Hrec Hsent Hans Hst Htxs] Hc s' Hok Hms.
  assert (evolves s s') as Hev by by apply evolves_client.
  split; cbn [gs_groups gs_sent gs_answers gs_status gs_txs s' gs_client].
  - done.
  - intros g tm k j Hg Hk. eapply record_ok_mono; [done|]. by eapply Hrec.
  - apply Forall_app. split; [auto|]. eapply Forall_impl; [exact Hsent|]. intros m. by apply sent_ok_mono.
  - eapply Forall_impl; [exact Hans|]. intros x. by apply answer_ok_mono.
  - eapply Forall_impl; [exact Hst|]. intros x. by apply status_ok_mono.
  - apply map_Forall_insert_2; [auto|]. intros t' c' Hc'. eapply txn_ok_mono; [done|]. by apply Htxs.
Qed.
Lemma ginv_send s ms : ginv s → Forall (sent_ok s) ms → ginv (gs_send ms s).
Proof.
  intros [Htx Hrec Hsent Hans Hst Htxs] Hms. pose proof (evolves_send s ms) as Hev.
  split; cbn [gs_groups gs_sent gs_answers gs_status gs_txs gs_send].
  - done.
  - intros g tm k j Hg Hk. eapply record_ok_mono; [done|]. by eapply Hrec.
  - apply Forall_app. split; (eapply Forall_impl; [eassumption|]); intros m; by apply sent_ok_mono.
  - eapply Forall_impl; [exact Hans|]. intros x. by apply answer_ok_mono.
  - eapply Forall_impl; [exact Hst|]. intros x. by apply status_ok_mono.
  - intros t' c' Hc'. eapply txn_ok_mono; [done|]. by apply Htxs.
Qed.

Lemma broadcast_ok s t gs (commit : bool) :
  decided s t (if commit then TxStatusCommitted else TxStatusAborted) → Forall (sent_ok s) (broadcast t gs commit).
Proof. intros Hd. destruct commit; apply Forall_fmap, Forall_forall; by intros. Qed.

Lemma by_group_Forall {A} resolve (key : A → string) (P : A → Prop) l :
  Forall P l → map_Forall (λ _ l, Forall P l) (by_group resolve key l).
Proof.
  unfold by_group. intros Hl.
  assert (∀ m : gmap Z (list A), map_Forall (λ (_ : Z) l, Forall P l) m → map_Forall (λ _ l, Forall P l)
    (foldl (λ m x, let gid := resolve (key x) in
       if decide (0 ≤ gid) then <[gid := default [] (m !! gid) ++ [x]]> m else m) m l)) as Hgo; [|apply Hgo, map_Forall_empty].
  induction Hl as [|x l Hx _ IH]; intros m Hm; [done|]. cbn [foldl]. apply IH. cbv zeta. case_decide; [|done].
  apply map_Forall_insert_2; [|done]. apply Forall_app. split; [|by apply Forall_singleton].
  destruct (m !! resolve (key x)) as [l0|] eqn:E; [by apply (Hm _ _ E)|constructor].
Qed.

Lemma wrap_groups gs : Forall isS32 gs → int32Slice gs = gs.
Proof.
  intros Hg. unfold int32Slice. induction Hg as [|g gs Hg _ IH]; [done|]. by rewrite fmap_cons, IH, wrapS32_id.
Qed.

Lemma inv_begin s resolve worder rorder h gs ws rs :
  ginv s → gs_txs s !! th_txID h = None → handle_ok h → (∀ l, worder l ≡ₚ l) →
  Commit_plan resolve worder rorder h = Plan gs ws rs → Forall isS32 gs →
  ginv (gs_client ((λ g, RpcPrepare g (prepare_request h gs ws rs g)) <$> gs) (th_txID h) (mkTxn h gs ws rs PhPreparing) s).
Proof.
  intros Hs Hnew Hh Hord Hplan H32. unfold Commit_plan in Hplan. case_bool_decide; [done|].
  destruct (decide (sort_ints _ = [])) as [|Hne]; [done|]. injection Hplan as <- <- <-.
  set (gs := sort_ints _) in *. clearbody gs.
  apply ginv_client; [done|congruence| |].
  - intros _. split_and!; try done. apply by_group_Forall. rewrite Hord. apply Forall_forall. intros wk Hwk.
    unfold values in Hwk. apply list_elem_of_fmap in Hwk as ([k wk'] & -> & Hin). apply elem_of_map_to_list in Hin.
    exact (Hh _ _ Hin).
  - intros _. apply Forall_fmap, Forall_forall. intros g _. cbn.
    eexists. split; [apply lookup_insert_eq|]. cbn. unfold ct_coord. cbn. rewrite wrap_groups by done.
    split; [|done]. destruct gs as [|g0 gs]; [done|]. apply Forall_cons in H32 as [? _]. by apply wrapS32_id.
Qed.

(** The answers of phase 1. *)
Lemma collect_spec results :
  Forall (λ x : Z * option string, ∀ e, x.2 = Some e → ∃ e', e = errReply e') results →
  let '(prepared, firstErr) := Commit_collect results in
  (∀ g, g ∈ prepared → (g, Some (errReply OK)) ∈ results) ∧ firstErr ≠ Some OK.
Proof.
  unfold Commit_collect. induction results as [|[g res] results IH] using rev_ind; intros Hf; [by split; [set_solver|]|].
  apply Forall_app in Hf as [Hf [Hx _]%Forall_cons]. specialize (IH Hf). rewrite foldl_app. cbn [foldl].
  destruct (foldl _ _ results) as [prepared firstErr]. destruct IH as [IH1 IH2].
  destruct res as [e|]; [case_decide as He|].
  - split; [set_solver|]. destruct (Hx e eq_refl) as [e' ->]. rewrite mapPBErr_errReply. intros [= ->]. done.
  - subst e. split; [|done]. intros g' [->%elem_of_singleton|Hg]%elem_of_union; set_solver.
  - split; [set_solver|done].
Qed.

Lemma decide_all gs (prepared : gset Z) :
  Commit_decide gs prepared = true → prepared ⊆ list_to_set gs → ∀ g, g ∈ gs → g ∈ prepared.
Proof.
  unfold Commit_decide. intros Hd%negb_true_iff%bool_decide_eq_false Hsub g Hg.
  assert (size (list_to_set gs : gset Z) ≤ length gs)%nat as Hsz.
  { clear. induction gs as [|g gs IH]; [done|]. cbn [list_to_set length].
    pose proof (size_union_alt ({[g]} : gset Z) (list_to_set gs)) as Hu.
    pose proof (size_singleton (C := gset Z) g).
    assert (size (list_to_set gs ∖ {[g]} : gset Z) ≤ size (list_to_set gs : gset Z))%nat by (apply subseteq_size; set_solver). lia. }
  assert (prepared = list_to_set gs) as ->.
  { apply set_eq. apply set_subseteq_size_equiv; [done|]. lia. }
  by apply elem_of_list_to_set.
Qed.

Lemma dreq_wf_request worder t gs commit ws :
  Forall isS32 gs → map_Forall (λ _ l, Forall writekey_wf l) ws → (∀ l, worder l ≡ₚ l) →
  dreq_wf (decision_request worder t gs commit ws).
Proof.
  intros Hg Hw Hord. unfold dreq_wf, decision_wf. cbn. rewrite wrap_groups by done. split_and!.
  - by destruct commit.
  - eapply Forall_impl; [exact Hg|]. unfold isS32, isS64. lia.
  - destruct commit; [|constructor]. rewrite Hord. apply Forall_concat, Forall_fmap, Forall_forall.
    intros [g l] Hin%elem_of_map_to_list. by apply (Hw g).
Qed.

Lemma inv_collect s t c results worder prepared firstErr :
  ginv s → gs_txs s !! t = Some c → (∀ l, worder l ≡ₚ l) → results.*1 ≡ₚ ct_groups c →
  (∀ g e, (g, Some e) ∈ results → (RpcPrepare g (ct_prepare c g), e) ∈ gs_answers s) →
  Commit_collect results = (prepared, firstErr) →
  let commit := Commit_decide (ct_groups c) prepared in
  let req := decision_request worder t (ct_groups c) commit (ct_writes c) in
  ginv (gs_client [RpcDecide (ct_coord c) req] t (ct_to (PhDeciding commit firstErr prepared req) c) s).
Proof.
  intros Hs Hc Hord Hgs Hres E commit req. destruct (gi_txs s Hs t c Hc) as (Hid & Hne & H32 & Hw & _).
  assert (Forall (λ x : Z * option string, ∀ e, x.2 = Some e → ∃ e', e = errReply e') results) as Htext.
  { apply Forall_forall. intros [g res] Hin e [= ->]. pose proof (gi_answers s Hs) as Ha. rewrite Forall_forall in Ha.
    exact (Ha _ (Hres _ _ Hin)). }
  pose proof (collect_spec results Htext) as Hcol. rewrite E in Hcol. destruct Hcol as [Hp He].
  apply ginv_client; [done| | |].
  - intros c0 Hc0. by simplify_eq.
  - intros _. split_and!; [done|done|done|done|]. cbn. split_and!; [done|done|done|].
    intros Hcm. apply Forall_forall. intros g Hg. cbn. apply Hres, Hp. eapply decide_all; [exact Hcm| |done].
    intros g' Hg'. apply elem_of_list_to_set. rewrite <-Hgs. apply list_elem_of_fmap. exists (g', Some (errReply OK)). auto.
  - intros _. apply Forall_singleton. cbn. eexists. split; [apply lookup_insert_eq|]. split; [done|].
    by apply dreq_wf_request.
Qed.

Lemma inv_decided s t c commit firstErr prepared req resp :
  ginv s → gs_txs s !! t = Some c → ct_phase c = PhDeciding commit firstErr prepared req →
  (∀ e, resp = Some e → (RpcDecide (ct_coord c) req, e) ∈ gs_answers s) →
  let p := persistDecision resp in
  ginv (gs_client
    (if decide (p = OK) then
       if commit then (λ g, commit_rpc t (default [] (ct_writes c !! g)) g) <$> ct_groups c
       else abort_rpc t <$> elements prepared
     else []) t (ct_to (PhReturned (Commit_return commit p firstErr)) c) s).
Proof.
  intros Hs Hc Hph Hres p. destruct (gi_txs s Hs t c Hc) as (Hid & Hne & H32 & Hw & Hphase).
  unfold phase_ok in Hphase. rewrite Hph in Hphase. destruct Hphase as (Ht & Hd & Hfe & Hall).
  assert (p = OK → decided s t (if commit then TxStatusCommitted else TxStatusAborted)) as Hdec.
  { unfold p, persistDecision. case_decide as Er; [|done]. intros _. rewrite <-Ht, <-Hd.
    pose proof (gi_answers s Hs) as Ha. rewrite Forall_forall in Ha. by apply (Ha _ (Hres _ Er)). }
  assert (p = OK ∨ p = ErrTxTimeout) as Hp by (unfold p, persistDecision; case_decide; auto). clearbody p.
  apply ginv_client; [done| | |].
  - intros c0 Hc0. by simplify_eq.
  - intros Hev. split_and!; [done|done|done|done|]. cbn. unfold Commit_return.
    destruct Hp as [-> | ->]; cbn; [|by split]. specialize (Hdec eq_refl). destruct commit.
    + split; [|done]. intros _. split; [by eapply decided_mono|]. by apply Hall.
    + split; [intros E; destruct firstErr; simplify_eq/=; done|]. intros _ _. by eapply decided_mono.
  - intros Hev. destruct (decide (p = OK)) as [Ep|]; [|constructor]. specialize (Hdec Ep).
    destruct commit; apply Forall_fmap, Forall_forall; intros g _; cbn; by eapply decided_mono.
Qed.

Lemma response_status s p t r :
  status_ok s (p, t, r) →
  (sr_Status (resolve_response r) = "COMMITTED" → decided s t TxStatusCommitted) ∧
  (sr_Status (resolve_response r) = "ABORTED" → decided s t TxStatusAborted).
Proof.
  intros [H1 H2]. cbn in *. unfold resolve_response. cbn. repeat case_decide; split; intros E; try discriminate; auto.
Qed.

Lemma inv_recover s t p r gs commit :
  ginv s → (p, t, r) ∈ gs_status s → recover_participant p (Some (resolve_response r)) = RecoverBroadcast gs commit →
  ginv (gs_send (broadcast t gs commit) s).
Proof.
  intros Hs Hin E. apply ginv_send; [done|]. apply broadcast_ok.
  pose proof (gi_status s Hs) as Hst. rewrite Forall_forall in Hst. destruct (response_status _ _ _ _ (Hst _ Hin)) as [HC HA].
  unfold recover_participant in E. case_decide as Hor; [|by case_decide]. injection E as _ <-.
  case_bool_decide as Hx; [auto|]. destruct Hor; [done|auto].
Qed.
Lemma inv_recover_ask s t r k r' gs commit :
  ginv s → (k, t, r') ∈ gs_status s →
  recover_coordinator (resolve_response r) (Some (resolve_response r')) = RecoverBroadcast gs commit →
  ginv (gs_send (broadcast t gs commit) s).
Proof.
  intros Hs Hin E. apply ginv_send; [done|]. apply broadcast_ok.
  pose proof (gi_status s Hs) as Hst. rewrite Forall_forall in Hst. destruct (response_status _ _ _ _ (Hst _ Hin)) as [HC HA].
  unfold recover_coordinator in E. cbv zeta in E. repeat case_decide; simplify_eq; auto.
Qed.

Lemma rollback_wf worder t gs : Forall isS32 gs → dreq_wf (decision_request worder t gs false ∅).
Proof.
  intros H32. unfold dreq_wf, decision_wf. cbn. rewrite wrap_groups by done. split_and!; [done| |constructor].
  eapply Forall_impl; [exact H32|]. unfold isS32, isS64. lia.
Qed.
Lemma inv_rollback_only s h worder gs :
  ginv s → gs_txs s !! th_txID h = None → gs ≠ [] → Forall isS32 gs →
  ginv (gs_client [RpcDecide (default 0 (head gs)) (decision_request worder (th_txID h) gs false ∅)]
          (th_txID h) (mkTxn h gs ∅ ∅ PhRolledBack) s).
Proof.
  intros Hs Hnew Hne H32. apply ginv_client; [done|congruence| |]; intros _.
  - split_and!; try done; apply map_Forall_empty.
  - apply Forall_singleton. cbn. eexists. split; [apply lookup_insert_eq|]. split; [done|by apply rollback_wf].
Qed.

Lemma gstep_inv s s' : ginv s → gstep true s s' → ginv s'.
Proof.
  intros Hs Hstep. destruct Hstep as [resolve worder rorder h gs ws rs Hnew Hh Hord Hplan H32
    |t c results worder prepared firstErr Hc Hph Hord Hgs Hres E|t c commit firstErr prepared req resp Hc Hph Hres
    |h resolve rorder worder gs Hnew Hgr Hne H32|h c resolve rorder worder gs Hc Hgr Hne H32 Hco|t worder gs Hin|t p r gs commit Hin E|t p r k r' gs commit Hin E Hin' E'
    |g a now router tm tm' r Hin Hg Hh Hwf E|g a tm Hin Hg|g a tm tm' r Hin Hg E|g a tm tm' r Hin Hg E|g t now tm tm' r Hg E
    |g router order tm tm' Hg Hh Hord E|g tm Hg|g tm st Hg Hk].
  - by eapply inv_begin.
  - by eapply inv_collect.
  - by eapply inv_decided.
  - by apply inv_rollback_only.
  - apply ginv_send; [done|]. apply Forall_singleton. cbn. exists c. split_and!; [done|by apply Hco|by apply rollback_wf].
  - apply ginv_send; [done|]. apply (broadcast_ok s t gs false).
    pose proof (gi_answers s Hs) as Ha. rewrite Forall_forall in Ha. exact (Ha _ Hin eq_refl).
  - by eapply inv_recover.
  - by eapply inv_recover_ask.
  - by eapply inv_prepare.
  - by eapply inv_decide.
  - by eapply inv_commit.
  - by eapply inv_abort.
  - by eapply inv_resolve.
  - pose proof (gi_tx s Hs g tm Hg) as Hi.
    assert (tx_ok tm tm') as Hok by (eapply (tx_step_ok g); [done|by eapply tx_step_rebuild]).
    eapply ginv_quiet; [done|done|done|eapply Rebuild_adds; [done|done|by eapply answers_decided|done]|].
    intros k j Ht. apply record_ok_told. eapply outcome_told_mono; [|exact Ht].
    eapply evolves_group; [done|apply Hok|done].
  - pose proof (gi_tx s Hs g tm Hg) as Hi.
    eapply (ginv_quiet _ _ _ _ (λ _ _, False)); [done|done|eapply (tx_step_ok g); [done|constructor]|apply adds_refl|done].
  - pose proof (gi_tx s Hs g tm Hg) as Hi.
    eapply (ginv_quiet _ _ _ _ (λ _ _, False)); [done|done|eapply (tx_step_ok g); [done|by apply tx_step_user]| |done].
    intros k j Hj. left. cbn in Hj. by rewrite <-Hk.
Qed.

Lemma gstep_evolves s s' : ginv s → gstep true s s' → evolves s s'.
Proof.
  intros Hs Hstep.
  assert (∀ g tm tm' ans st, gs_groups s !! g = Some tm → tx_step g tm tm' → gs_answers s ⊆ ans →
    evolves s (mkG (<[g := tm']> (gs_groups s)) (gs_sent s) ans st (gs_txs s))) as Hgrp.
  { intros g tm tm' ans st Hg Ht Ha. eapply evolves_group; [done| |done].
    apply (tx_step_ok g tm tm'); [exact (gi_tx s Hs g tm Hg)|done]. }
  destruct Hstep; try apply evolves_send; try (apply evolves_client; intros c0 Hc0; by simplify_eq);
    (eapply Hgrp; [eassumption| |set_solver]).
  - by eapply tx_step_prepare.
  - apply tx_step_decide.
  - by eapply tx_step_commit.
  - by eapply tx_step_abort.
  - by eapply tx_step_resolve.
  - by eapply tx_step_rebuild.
  - apply tx_step_restart.
  - by apply tx_step_user.
Qed.

Lemma ginit_inv s : ginit s → ginv s.
Proof.
  intros (Hg & Hs & Ha & Hst & Htx). split; rewrite ?Hs, ?Ha, ?Hst, ?Htx.
  - intros g tm Hgt. rewrite (Hg g tm Hgt). apply NewTxManager_inv.
  - intros g tm k j Hgt Hk. exfalso. rewrite (Hg g tm Hgt) in Hk. cbn in Hk. unfold GetTxRecord in Hk. cbn in Hk.
    by rewrite db_new_view, lookup_empty in Hk.
  - constructor.
  - constructor.
  - constructor.
  - apply map_Forall_empty.
Qed.
Lemma greach_inv s0 s : ginit s0 → rtc (gstep true) s0 s → ginv s.
Proof. intros H0%ginit_inv. induction 1; eauto using gstep_inv. Qed.

(** A transaction keeps its coordinator and its decision. *)
Lemma greach_keeps s s' t c :
  ginv s → rtc (gstep true) s s' → gs_txs s !! t = Some c →
  (∀ d, decided s t d → decided s' t d) ∧ ∃ c', gs_txs s' !! t = Some c' ∧ ct_coord c' = ct_coord c.
Proof.
  intros Hs Hr. revert c Hs. induction Hr as [|x y z Hxy _ IH]; intros c Hs Hc; [by eauto|].
  pose proof (gstep_evolves _ _ Hs Hxy) as Hev. destruct (proj1 Hev _ _ Hc) as (c1 & Hc1 & Hg1).
  destruct (IH c1 (gstep_inv _ _ Hs Hxy) Hc1) as (Hd & c2 & Hc2 & Hco).
  split; [eauto using decided_mono|]. exists c2. split; [done|]. by rewrite Hco, (ct_coord_same _ _ Hg1).
Qed.

(** C3: transactions are atomic across groups, as long as [Rollback] finds the
    same coordinator as [Commit]. However requests are delayed, repeated and
    lost, however clients commit, roll back and recover, and however groups
    restart, resolve locks and rebuild their tables: when one group has
    committed a transaction, no group has aborted it. The conditions ([gstep
    true]): the groups start with empty stores; user writes leave the
    transaction records alone; a participant that asks the coordinator group is
    told what that group has recorded, or nothing definite; group ids fit int32;
    a handle is given to [Commit] at most once and not after its [Rollback]; and
    the least group that [Rollback] computes from the current owners of the keys
    is the coordinator group of the transaction ([moved_rollback_splits] shows
    what happens otherwise). *)
Theorem global_atomicity s0 s t g1 tm1 g2 tm2 :
  ginit s0 → rtc (gstep true) s0 s → gs_groups s !! g1 = Some tm1 → gs_groups s !! g2 = Some tm2 →
  GetTxRecord (tm_store tm1) (txCommitPrefix +:+ t) ≠ None →
  GetTxRecord (tm_store tm2) (txAbortPrefix +:+ t) = None.
Proof.
  intros H0 Hr H1 H2 Hc. pose proof (greach_inv _ _ H0 Hr) as Hs.
  destruct (R (tm_store tm1) (txCommitPrefix +:+ t)) as [jc|] eqn:Ejc; [|done].
  destruct (R (tm_store tm2) (txAbortPrefix +:+ t)) as [ja|] eqn:Eja; [|done]. exfalso.
  destruct (gi_records s Hs _ _ _ _ H1 Ejc t) as (_ & _ & HC & _).
  destruct (gi_records s Hs _ _ _ _ H2 Eja t) as (_ & _ & _ & HA).
  pose proof (decided_unique _ _ _ _ (HC eq_refl) (HA eq_refl)) as E. discriminate E.
Qed.

(** C4: the answer of a [Commit] that got as far as sending its prepare requests
    is the outcome (it returns [ErrWrongGroup] for a key without a group, and
    [OK] for a transaction that involves no group, before that). When it
    returned OK, every group it involves had answered OK to the prepare request,
    and in every later state the record COMMITTED is in the store of the
    coordinator group and no group has aborted the transaction; when it returned
    an error other than the timeout, in every later state the record ABORTED is
    in that store and no group has committed it. Nothing is said about the
    timeout. The conditions are those of [gstep true]: empty stores at the
    start, user writes leave the records alone, a participant that asks the
    coordinator group is told what it has recorded or nothing definite, group
    ids fit int32, one [Commit] for a handle and none after its [Rollback], and
    every [Rollback] of it finds the same coordinator. *)
Theorem commit_answer s0 s s' t c e :
  ginit s0 → rtc (gstep true) s0 s → gs_txs s !! t = Some c → ct_phase c = PhReturned e → rtc (gstep true) s s' →
  let recorded d := ∃ tm j rec, gs_groups s' !! ct_coord c = Some tm ∧
    GetTxRecord (tm_store tm) (txDecisionPrefix +:+ t) = Some j ∧ unmarshal_decision j = Some rec ∧ dr_Decision rec = d in
  let nowhere prefix := ∀ g tm, gs_groups s' !! g = Some tm → GetTxRecord (tm_store tm) (prefix +:+ t) = None in
  (e = OK →
     Forall (λ g, (RpcPrepare g (ct_prepare c g), errReply OK) ∈ gs_answers s) (ct_groups c) ∧
     recorded TxStatusCommitted ∧ nowhere txAbortPrefix) ∧
  (e ≠ OK → e ≠ ErrTxTimeout → recorded TxStatusAborted ∧ nowhere txCommitPrefix).
Proof.
  intros H0 Hr Hc Hph Hr' recorded nowhere. pose proof (greach_inv _ _ H0 Hr) as Hs.
  assert (rtc (gstep true) s0 s') as Hr2 by (by etrans). pose proof (greach_inv _ _ H0 Hr2) as Hs'.
  destruct (gi_txs s Hs t c Hc) as (_ & _ & _ & _ & Hp). unfold phase_ok in Hp. rewrite Hph in Hp. destruct Hp as [HOK HErr].
  destruct (greach_keeps s s' t c Hs Hr' Hc) as (Hkeep & c' & Hc' & Hco).
  assert (∀ d, decided s t d → recorded d) as Hrec.
  { intros d (c1 & tm & j & rec & Hc1 & Htm & Hx)%Hkeep. simplify_eq. rewrite Hco in Htm. by exists tm, j, rec. }
  split.
  - intros ->. destruct (HOK eq_refl) as [Hd Hall]. split_and!; [done|by apply Hrec|]. intros g tm Hg.
    destruct (R (tm_store tm) (txAbortPrefix +:+ t)) as [ja|] eqn:E; [|done]. exfalso.
    destruct (gi_records s' Hs' _ _ _ _ Hg E t) as (_ & _ & _ & HA).
    discriminate (decided_unique _ _ _ _ (Hkeep _ Hd) (HA eq_refl)).
  - intros H1 H2. split; [by apply Hrec, HErr|]. intros g tm Hg.
    destruct (R (tm_store tm) (txCommitPrefix +:+ t)) as [jc|] eqn:E; [|done]. exfalso.
    destruct (gi_records s' Hs' _ _ _ _ Hg E t) as (_ & _ & HC & _).
    discriminate (decided_unique _ _ _ _ (Hkeep _ (HErr H1 H2)) (HC eq_refl)).
Qed.
End global.

(** ** A run: a transaction that writes [a] in group 1 and [b] in group 2 *)
Definition tg_resolve (k : string) : Z := if decide (k = "a") then 1 else 2.
Definition tg_handle : TxHandle := th_Put tg_resolve "b" "y" 0 (th_Put tg_resolve "a" "x" 0 (Begin "t")).
Definition tg_new : TxManager (gmap string json) := NewTxManager (@NewStore _ badger_map).
Definition tg_ws : gmap Z (list WriteKey) := groupWriteKeys tg_resolve id tg_handle.
Definition tg_txn (ph : tx_phase) : txn := mkTxn tg_handle [1; 2] tg_ws ∅ ph.
Definition tg_prep (g : Z) : PrepareTxArgs := prepare_request tg_handle [1; 2] tg_ws ∅ g.
Definition tg_mgr (r : option (TxManager (gmap string json) * PrepareTxReply)) : TxManager (gmap string json) :=
  match r with Some (tm, _) => tm | None => tg_new end.
Definition tg_m1 : TxManager (gmap string json) := tg_mgr (Prepare 1 None 10 tg_new (tg_prep 1)).
Definition tg_m2 : TxManager (gmap string json) := tg_mgr (Prepare 2 None 10 tg_new (tg_prep 2)).
Definition tg_req : RecordTxDecisionArgs := decision_request id "t" [1; 2] true tg_ws.
Definition tg_m1d : TxManager (gmap string json) := (RecordDecision tg_m1 tg_req).1.
Definition tg_args (g : Z) : CommitTxArgs :=
  {| CommitTxArgs_TxID := "t"; CommitTxArgs_WriteKeys := default [] (tg_ws !! g) |}.
Definition tg_m1c : TxManager (gmap string json) := match Commit 1 tg_m1d (tg_args 1) with Some (tm, _) => tm | None => tg_m1d end.

Definition tg_sent1 : list rpc := [RpcPrepare 1 (tg_prep 1); RpcPrepare 2 (tg_prep 2)].
Definition tg_ans2 : list (rpc * string) :=
  [(RpcPrepare 2 (tg_prep 2), errReply OK); (RpcPrepare 1 (tg_prep 1), errReply OK)].
Definition tg_sent2 : list rpc := RpcDecide 1 tg_req :: tg_sent1.
Definition tg_ans3 : list (rpc * string) := (RpcDecide 1 tg_req, errReply OK) :: tg_ans2.
Definition tg_sent3 : list rpc := RpcCommit 1 (tg_args 1) :: RpcCommit 2 (tg_args 2) :: tg_sent2.
Definition tg_deciding : tx_phase := PhDeciding true None (({[1; 2]} : gset Z) ∪ ∅) tg_req.

Definition tg0 : gsys := mkG {[1 := tg_new; 2 := tg_new]} [] [] [] ∅.
Definition tg1 : gsys := mkG {[1 := tg_new; 2 := tg_new]} tg_sent1 [] [] {["t" := tg_txn PhPreparing]}.
Definition tg3 : gsys := mkG {[1 := tg_m1; 2 := tg_m2]} tg_sent1 tg_ans2 [] {["t" := tg_txn PhPreparing]}.
Definition tg6 : gsys :=
  mkG {[1 := tg_m1d; 2 := tg_m2]} tg_sent3 tg_ans3 [] {["t" := tg_txn (PhReturned OK)]}.
Definition tg7 : gsys := gs_exec 1 tg_m1c (RpcCommit 1 (tg_args 1)) OK tg6.

Ltac vm_eq := match goal with |- ?l = ?r => vm_cast_no_check (eq_refl r) end.

Lemma tg_init : ginit tg0.
Proof. split_and!; try done. apply map_Forall_insert_2; [done|]. by apply map_Forall_singleton. Qed.

Lemma tg_prep_wf g : g = 1 ∨ g = 2 → prepare_args_wf 10 (tg_prep g).
Proof. intros [->| ->]; split; repeat split; repeat constructor; done. Qed.

Lemma tg_run6 : rtc (gstep true) tg0 tg6.
Proof.
  apply rtc_l with tg1.
  { assert (Commit_plan tg_resolve id id tg_handle = Plan [1; 2] tg_ws ∅) as E by vm_eq.
    refine (eq_rect _ (gstep true tg0) (g_begin true tg0 tg_resolve id id tg_handle [1; 2] tg_ws ∅ _ _ _ E _) tg1 _); try done.
    - apply (bool_decide_unpack (map_Forall (λ _ wk, isS64 (WriteKey_Version wk)) (th_writeSet tg_handle))). by vm_compute.
    - by repeat constructor. }
  apply rtc_l with (gs_exec 1 tg_m1 (RpcPrepare 1 (tg_prep 1)) OK tg1).
  { assert (Prepare 1 None 10 tg_new (tg_prep 1) = Some (tg_m1, {| PrepareTxReply_Err := OK |})) as E by vm_eq.
    apply (g_prepare true tg1 1 (tg_prep 1) 10 None tg_new tg_m1 {| PrepareTxReply_Err := OK |}); [by left|done|done| |done]. apply tg_prep_wf. auto. }
  apply rtc_l with tg3.
  { assert (Prepare 2 None 10 tg_new (tg_prep 2) = Some (tg_m2, {| PrepareTxReply_Err := OK |})) as E by vm_eq.
    refine (eq_rect _ (gstep true _) (g_prepare true (gs_exec 1 tg_m1 (RpcPrepare 1 (tg_prep 1)) OK tg1) 2 (tg_prep 2) 10 None tg_new tg_m2
      {| PrepareTxReply_Err := OK |} _ _ _ _ E) tg3 _);
      [by right; left|reflexivity|done|apply tg_prep_wf; auto|vm_eq]. }
  set (tg4 := mkG (gs_groups tg3) tg_sent2 tg_ans2 [] {["t" := tg_txn tg_deciding]}).
  apply rtc_l with tg4.
  { assert (Commit_collect [(1, Some "OK"); (2, Some "OK")] = ({[2]} ∪ ({[1]} ∪ ∅), None)) as E by reflexivity.
    refine (eq_rect _ (gstep true _) (g_collect true tg3 "t" (tg_txn PhPreparing) [(1, Some "OK"); (2, Some "OK")] id _ _
      eq_refl eq_refl (λ l, Permutation_refl l) (Permutation_refl _) _ E) tg4 _); [|vm_eq].
    intros g e [E1|[E1|[]%not_elem_of_nil]%elem_of_cons]%elem_of_cons; injection E1 as -> ->; [by right; left|by left]. }
  set (tg5 := mkG {[1 := tg_m1d; 2 := tg_m2]} tg_sent2 tg_ans3 [] {["t" := tg_txn tg_deciding]}).
  apply rtc_l with tg5.
  { refine (eq_rect _ (gstep true _) (g_decide true tg4 1 tg_req tg_m1 _ _) tg5 _); [by left|reflexivity|vm_eq]. }
  apply rtc_once.
  refine (eq_rect _ (gstep true _) (g_decided true tg5 "t" (tg_txn tg_deciding) _ _ _ _ (Some (errReply OK)) eq_refl eq_refl _) tg6 _);
    [|vm_eq].
  intros e [= <-]. by left.
Qed.

Lemma tg_run7 : rtc (gstep true) tg0 tg7.
Proof.
  eapply rtc_r; [exact tg_run6|].
  assert (Commit 1 tg_m1d (tg_args 1) = Some (tg_m1c, {| CommitTxReply_Err := OK |})) as E by vm_eq.
  apply (g_commit true tg6 1 (tg_args 1) tg_m1d tg_m1c {| CommitTxReply_Err := OK |}); [by left|done|done].
Qed.

Lemma global_atomicity_witness :
  GetTxRecord (tm_store tg_m1c) (txCommitPrefix +:+ "t") ≠ None ∧ GetTxRecord (tm_store tg_m2) (txAbortPrefix +:+ "t") = None.
Proof.
  assert (GetTxRecord (tm_store tg_m1c) (txCommitPrefix +:+ "t") ≠ None) as Hc by (vm_compute; discriminate).
  split; [exact Hc|].
  exact (global_atomicity tg0 tg7 "t" 1 tg_m1c 2 tg_m2 tg_init tg_run7 eq_refl eq_refl Hc).
Defined.

Lemma commit_answer_witness :
  (∃ j rec, GetTxRecord (tm_store tg_m1c) (txDecisionPrefix +:+ "t") = Some j ∧ unmarshal_decision j = Some rec ∧
     dr_Decision rec = TxStatusCommitted) ∧
  GetTxRecord (tm_store tg_m2) (txAbortPrefix +:+ "t") = None.
Proof.
  assert (rtc (gstep true) tg6 tg7) as Hr.
  { apply rtc_once. assert (Commit 1 tg_m1d (tg_args 1) = Some (tg_m1c, {| CommitTxReply_Err := OK |})) as E by vm_eq.
    apply (g_commit true tg6 1 (tg_args 1) tg_m1d tg_m1c {| CommitTxReply_Err := OK |}); [by left|done|done]. }
  assert (gs_groups tg7 !! 1 = Some tg_m1c) as H1 by reflexivity.
  assert (gs_groups tg7 !! 2 = Some tg_m2) as H2 by reflexivity.
  destruct (proj1 (commit_answer tg0 tg6 tg7 "t" (tg_txn (PhReturned OK)) OK tg_init tg_run6 eq_refl eq_refl Hr) eq_refl)
    as (_ & (tm & j & rec & Htm & Hj & Hu & Hd) & Hno).
  split; [|exact (Hno 2 tg_m2 H2)]. exists j, rec. split; [|exact (conj Hu Hd)].
  change (gs_groups tg7 !! 1 = Some tm) in Htm. rewrite H1 in Htm. injection Htm as <-. exact Hj.
Defined.

(** a transaction loses writes when a shard moves.  The groups of a handle
    are those its keys belonged to when they were written, but [Commit] groups
    the keys by their owners at commit time: after the shard of [k] moved from
    group 1 to group 2, the plan has group 1 as its only participant, with
    nothing to write, and the write of [k] goes nowhere although [Commit]
    returns OK. *)
Theorem moved_shard_loses_write :
  let h := th_Put (λ _, 1) "k" "v" 0 (Begin "t") in
  let after := λ _ : string, 2 in
  ∃ ws rs, Commit_plan after id id h = Plan [1] ws rs ∧
    PrepareTxArgs_WriteKeys (prepare_request h [1] ws rs 1) = [] ∧
    WriteKey_Key <$> default [] (ws !! 2) = ["k"] ∧
    Commit_return (Commit_decide [1] (Commit_collect [(1, Some "OK")]).1) OK None = OK.
Proof. eexists _, _. split; [by vm_compute|]. by vm_compute. Qed.
