(* ===== verification/TxMoved.v ===== *)
(** * A rollback after a shard moved

    A run of the steps of TxGlobal.v in which the coordinator of a [Rollback]
    is computed from the current owners of the keys ([gstep false]).  The
    transaction writes [a] in group 2 and [b] in group 3 and reads [r], which
    belongs to group 2 when it commits.  All prepare, COMMITTED is recorded in
    group 2, the answer is lost and [Commit] returns the timeout.  The shard of
    [r] then moves to group 1, and the client calls [Rollback]: its least group
    is 1, which knows nothing of the transaction and records ABORTED.  Group 3
    aborts; a client that recovers the transaction from group 2 makes group 2
    commit. *)
From stdpp Require Import prelude gmap sorting strings relations.
From stdpp Require Import options.
From S2P Require Import Prelude Json KvApi ExpiryHeap Store StoreProps Tx TxProps Topology TxCoord TxOutcomes TxGlobal.
Local Open Scope Z_scope.

Definition mv_resolve (r : Z) (k : string) : Z := if decide (k = "r") then r else if decide (k = "a") then 2 else 3.
Definition mv_handle : TxHandle :=
  th_Put (mv_resolve 2) "b" "y" 0 (th_Put (mv_resolve 2) "a" "x" 0 (th_Get (Some ("v", 1, 0, "OK")) "r" (Begin "t")).1).
Definition mv_ws : gmap Z (list WriteKey) := groupWriteKeys (mv_resolve 2) id mv_handle.
Definition mv_rs : gmap Z (list ReadKey) := groupReadKeys (mv_resolve 2) id mv_handle.
Definition mv_txn (ph : tx_phase) : txn := mkTxn mv_handle [2; 3] mv_ws mv_rs ph.
Definition mv_prep (g : Z) : PrepareTxArgs := prepare_request mv_handle [2; 3] mv_ws mv_rs g.
Definition mv_commit : RecordTxDecisionArgs := decision_request id "t" [2; 3] true mv_ws.
Definition mv_abort : RecordTxDecisionArgs := decision_request id "t" [1; 2; 3] false ∅.

(** The states of the groups; [r] is in the store of group 2 from the start. *)
Definition mv_user : Store (gmap string json) := (Put (tm_store tg_new) "r" "v" 1 0).1.
Definition mv_u2 : TxManager (gmap string json) := tm_with_store tg_new mv_user.
Definition mv_p2 : TxManager (gmap string json) := tg_mgr (Prepare 2 None 10 mv_u2 (mv_prep 2)).
Definition mv_p3 : TxManager (gmap string json) := tg_mgr (Prepare 3 None 10 tg_new (mv_prep 3)).
Definition mv_d2 : TxManager (gmap string json) := (RecordDecision mv_p2 mv_commit).1.
Definition mv_d1 : TxManager (gmap string json) := (RecordDecision tg_new mv_abort).1.
Definition mv_a3 : TxManager (gmap string json) :=
  match Abort mv_p3 {| AbortTxArgs_TxID := "t" |} with Some (tm, _) => tm | None => mv_p3 end.
Definition mv_status : ResolveTxStatusReply :=
  match ResolveTxStatus 20 mv_d2 {| ResolveTxStatusArgs_TxID := "t" |} with
  | Some (_, r) => r
  | None => {| ResolveTxStatusReply_Status := TxStatusUnknown; ResolveTxStatusReply_PreparedAt := 0;
    ResolveTxStatusReply_WriteKeys := []; ResolveTxStatusReply_Err := OK; ResolveTxStatusReply_CoordinatorGroupID := 0;
    ResolveTxStatusReply_ParticipantGroupIDs := [] |}
  end.
Definition mv_c2 : TxManager (gmap string json) :=
  match Commit 2 mv_d2 {| CommitTxArgs_TxID := "t"; CommitTxArgs_WriteKeys := [] |} with Some (tm, _) => tm | None => mv_d2 end.

(** The states of the run: the groups, what was sent and answered, what was
    learnt about [t], and where its [Commit] is. *)
Definition mv_at (g1 g2 g3 : TxManager (gmap string json)) (sent : list rpc) (ans : list (rpc * string))
    (st : list (Z * string * ResolveTxStatusReply)) (ph : tx_phase) : gsys :=
  mkG {[1 := g1; 2 := g2; 3 := g3]} sent ans st {["t" := mv_txn ph]}.
Definition mv_s1 : list rpc := [RpcPrepare 2 (mv_prep 2); RpcPrepare 3 (mv_prep 3)].
Definition mv_s2 : list rpc := RpcDecide 2 mv_commit :: mv_s1.
Definition mv_s3 : list rpc := RpcDecide 1 mv_abort :: mv_s2.
Definition mv_s4 : list rpc := (abort_rpc "t" <$> [1; 2; 3]) ++ mv_s3.
Definition mv_s5 : list rpc := (commit_rpc "t" [] <$> [2; 3]) ++ mv_s4.
Definition mv_r1 : list (rpc * string) := [(RpcPrepare 2 (mv_prep 2), errReply OK)].
Definition mv_r2 : list (rpc * string) := (RpcPrepare 3 (mv_prep 3), errReply OK) :: mv_r1.
Definition mv_r3 : list (rpc * string) := (RpcDecide 2 mv_commit, errReply OK) :: mv_r2.
Definition mv_r4 : list (rpc * string) := (RpcDecide 1 mv_abort, errReply OK) :: mv_r3.
Definition mv_r5 : list (rpc * string) := (abort_rpc "t" 3, errReply OK) :: mv_r4.
Definition mv_r6 : list (rpc * string) := (commit_rpc "t" [] 2, errReply OK) :: mv_r5.
Definition mv_deciding : tx_phase := PhDeciding true None (({[2; 3]} : gset Z) ∪ ∅) mv_commit.
Definition mv_timeout : tx_phase := PhReturned ErrTxTimeout.

Definition mv0 : gsys := mkG {[1 := tg_new; 2 := tg_new; 3 := tg_new]} [] [] [] ∅.
Definition mv1 : gsys := mkG {[1 := tg_new; 2 := mv_u2; 3 := tg_new]} [] [] [] ∅.
Definition mv2 : gsys := mv_at tg_new mv_u2 tg_new mv_s1 [] [] PhPreparing.
Definition mv3 : gsys := mv_at tg_new mv_p2 tg_new mv_s1 mv_r1 [] PhPreparing.
Definition mv4 : gsys := mv_at tg_new mv_p2 mv_p3 mv_s1 mv_r2 [] PhPreparing.
Definition mv5 : gsys := mv_at tg_new mv_p2 mv_p3 mv_s2 mv_r2 [] mv_deciding.
Definition mv6 : gsys := mv_at tg_new mv_d2 mv_p3 mv_s2 mv_r3 [] mv_deciding.
Definition mv7 : gsys := mv_at tg_new mv_d2 mv_p3 mv_s2 mv_r3 [] mv_timeout.
Definition mv8 : gsys := mv_at tg_new mv_d2 mv_p3 mv_s3 mv_r3 [] mv_timeout.
Definition mv9 : gsys := mv_at mv_d1 mv_d2 mv_p3 mv_s3 mv_r4 [] mv_timeout.
Definition mv10 : gsys := mv_at mv_d1 mv_d2 mv_p3 mv_s4 mv_r4 [] mv_timeout.
Definition mv11 : gsys := mv_at mv_d1 mv_d2 mv_a3 mv_s4 mv_r5 [] mv_timeout.
Definition mv12 : gsys := mv_at mv_d1 mv_d2 mv_a3 mv_s4 mv_r5 [(2, "t", mv_status)] mv_timeout.
Definition mv13 : gsys := mv_at mv_d1 mv_d2 mv_a3 mv_s5 mv_r5 [(2, "t", mv_status)] mv_timeout.
Definition mv14 : gsys := mv_at mv_d1 mv_c2 mv_a3 mv_s5 mv_r6 [(2, "t", mv_status)] mv_timeout.

(** [Commit] up to its return. *)
Lemma mv_run7 : rtc (gstep false) mv0 mv7.
Proof.
  apply rtc_l with mv1.
  { refine (eq_rect _ (gstep false _) (g_user false mv0 2 tg_new mv_user eq_refl _) mv1 _); [|vm_eq].
    intros k. unfold GetTxRecord. change (db_view (st_db mv_user)) with
      (<["r" := marshal_kvEntry {| ke_Value := "v"; ke_Version := 1; ke_Expires := 0 |}]> ∅ : gmap string json).
    by rewrite lookup_insert_ne. }
  apply rtc_l with mv2.
  { assert (Commit_plan (mv_resolve 2) id id mv_handle = Plan [2; 3] mv_ws mv_rs) as E by vm_eq.
    refine (eq_rect _ (gstep false _) (g_begin false mv1 (mv_resolve 2) id id mv_handle [2; 3] mv_ws mv_rs _ _ _ E _) mv2 _);
      [done| |done|by repeat constructor|vm_eq].
    apply (bool_decide_unpack (map_Forall (λ _ wk, isS64 (WriteKey_Version wk)) (th_writeSet mv_handle))). by vm_compute. }
  apply rtc_l with mv3.
  { assert (Prepare 2 None 10 mv_u2 (mv_prep 2) = Some (mv_p2, {| PrepareTxReply_Err := OK |})) as E by vm_eq.
    refine (eq_rect _ (gstep false _) (g_prepare false mv2 2 (mv_prep 2) 10 None mv_u2 mv_p2 _ _ eq_refl _ _ E) mv3 _);
      [by left|done|by split; repeat split; repeat constructor|vm_eq]. }
  apply rtc_l with mv4.
  { assert (Prepare 3 None 10 tg_new (mv_prep 3) = Some (mv_p3, {| PrepareTxReply_Err := OK |})) as E by vm_eq.
    refine (eq_rect _ (gstep false _) (g_prepare false mv3 3 (mv_prep 3) 10 None tg_new mv_p3 _ _ eq_refl _ _ E) mv4 _);
      [by right; left|done|by split; repeat split; repeat constructor|vm_eq]. }
  apply rtc_l with mv5.
  { assert (Commit_collect [(2, Some "OK"); (3, Some "OK")] = ({[3]} ∪ ({[2]} ∪ ∅), None)) as E by reflexivity.
    refine (eq_rect _ (gstep false _) (g_collect false mv4 "t" (mv_txn PhPreparing) [(2, Some "OK"); (3, Some "OK")] id _ _
      eq_refl eq_refl (λ l, Permutation_refl l) (Permutation_refl _) _ E) mv5 _); [|vm_eq].
    intros g e [E1|[E1|[]%not_elem_of_nil]%elem_of_cons]%elem_of_cons; injection E1 as -> ->; [by right; left|by left]. }
  apply rtc_l with mv6.
  { refine (eq_rect _ (gstep false _) (g_decide false mv5 2 mv_commit mv_p2 _ eq_refl) mv6 _); [by left|vm_eq]. }
  apply rtc_once.
  by refine (eq_rect _ (gstep false _) (g_decided false mv6 "t" (mv_txn mv_deciding) _ _ _ _ None eq_refl eq_refl _) mv7 _); [|vm_eq].
Qed.

(** [Rollback] when group 1 owns [r], and the recovery by another client. *)
Lemma mv_run14 : rtc (gstep false) mv7 mv14.
Proof.
  apply rtc_l with mv8.
  { assert (Rollback_groups (mv_resolve 1) id mv_handle = [1; 2; 3]) as E by vm_eq.
    refine (eq_rect _ (gstep false _) (g_rollback false mv7 mv_handle (mv_txn mv_timeout) (mv_resolve 1) id id [1; 2; 3]
      eq_refl E _ _ _) mv8 _); [done|by repeat constructor|done|vm_eq]. }
  apply rtc_l with mv9.
  { refine (eq_rect _ (gstep false _) (g_decide false mv8 1 mv_abort tg_new _ eq_refl) mv9 _); [by left|vm_eq]. }
  apply rtc_l with mv10.
  { refine (eq_rect _ (gstep false _) (g_rollback_done false mv9 "t" id [1; 2; 3] _) mv10 _); [by left|vm_eq]. }
  apply rtc_l with mv11.
  { assert (Abort mv_p3 {| AbortTxArgs_TxID := "t" |} = Some (mv_a3, {| AbortTxReply_Err := OK |})) as E by vm_eq.
    refine (eq_rect _ (gstep false _) (g_abort false mv10 3 _ mv_p3 mv_a3 _ _ eq_refl E) mv11 _); [by do 2 right; left|vm_eq]. }
  apply rtc_l with mv12.
  { assert (ResolveTxStatus 20 mv_d2 {| ResolveTxStatusArgs_TxID := "t" |} = Some (mv_d2, mv_status)) as E by vm_eq.
    refine (eq_rect _ (gstep false _) (g_resolve false mv11 2 "t" 20 mv_d2 mv_d2 mv_status eq_refl E) mv12 _); vm_eq. }
  apply rtc_l with mv13.
  { assert (recover_participant 2 (Some (resolve_response mv_status)) = RecoverBroadcast [2; 3] true) as E by vm_eq.
    refine (eq_rect _ (gstep false _) (g_recover false mv12 "t" 2 mv_status [2; 3] true _ E) mv13 _); [by left|vm_eq]. }
  apply rtc_once.
  assert (Commit 2 mv_d2 {| CommitTxArgs_TxID := "t"; CommitTxArgs_WriteKeys := [] |} = Some (mv_c2, {| CommitTxReply_Err := OK |}))
    as E by vm_eq.
  refine (eq_rect _ (gstep false _) (g_commit false mv13 2 _ mv_d2 mv_c2 _ _ eq_refl E) mv14 _); [by left|vm_eq].
Qed.

(** The run splits the transaction: group 2 has committed it and has the value
    of [a], group 3 has aborted it and has no [b]. *)
Theorem moved_rollback_splits :
  ginit mv0 ∧ rtc (gstep false) mv0 mv14 ∧ gs_groups mv14 !! 2 = Some mv_c2 ∧ gs_groups mv14 !! 3 = Some mv_a3 ∧
  GetTxRecord (tm_store mv_c2) (txCommitPrefix +:+ "t") ≠ None ∧ ke_Value <$> entry_at (tm_store mv_c2) "a" = Some "x" ∧
  GetTxRecord (tm_store mv_a3) (txAbortPrefix +:+ "t") ≠ None ∧ entry_at (tm_store mv_a3) "b" = None.
Proof.
  split; [|split; [by transitivity mv7; [apply mv_run7|apply mv_run14]|]].
  - split_and!; try done. repeat (apply map_Forall_insert_2; [done|]). apply map_Forall_empty.
  - split_and!; try reflexivity; vm_compute; discriminate.
Qed.
