(* ===== verification/Server.v ===== *)
(** * pkg/kv/server.go: the key-value state machine

    [KVServer] as the record of what its handlers change.  The store is inside
    the transaction manager [kv_tm] (in Go both hold the same pointer).  A
    handler reads the clock itself ([now]) and [PutCASWithTTL] reads it again
    ([now_store]); the network, the hash and Go's map order come with the
    environment of the call.  A result [None] means that the handler waits for
    the transaction mutex for ever. *)
From stdpp Require Import prelude gmap strings.
From stdpp Require Import options.
From S2P Require Import Prelude Json KvApi ExpiryHeap Store StoreProps ShardState Tx.
Local Open Scope Z_scope.

Definition isExpired (expires now : Z) : bool := bool_decide (0 < expires ∧ expires ≤ now).

Definition absoluteExpiryFromTTL (ttlSeconds now : Z) : Z :=
  if decide (ttlSeconds ≤ 0) then 0 else wrapS64 (now + wrapS64 (ttlSeconds * 1000000000)).

Record ServerStats := {
  TotalRequests : Z; TotalWrites : Z; TotalReads : Z; FailedRequests : Z;
  WatchNotifies : Z; LeaseHits : Z; LeaseFallbacks : Z; TTLExpiredOps : Z }.
Definition zeroStats : ServerStats :=
  {| TotalRequests := 0; TotalWrites := 0; TotalReads := 0; FailedRequests := 0;
     WatchNotifies := 0; LeaseHits := 0; LeaseFallbacks := 0; TTLExpiredOps := 0 |}.

Definition RecordRead (s : ServerStats) : ServerStats :=
  {| TotalRequests := wrapS64 (TotalRequests s + 1); TotalWrites := TotalWrites s;
     TotalReads := wrapS64 (TotalReads s + 1); FailedRequests := FailedRequests s;
     WatchNotifies := WatchNotifies s; LeaseHits := LeaseHits s;
     LeaseFallbacks := LeaseFallbacks s; TTLExpiredOps := TTLExpiredOps s |}.
Definition RecordWrite (s : ServerStats) : ServerStats :=
  {| TotalRequests := wrapS64 (TotalRequests s + 1); TotalWrites := wrapS64 (TotalWrites s + 1);
     TotalReads := TotalReads s; FailedRequests := FailedRequests s;
     WatchNotifies := WatchNotifies s; LeaseHits := LeaseHits s;
     LeaseFallbacks := LeaseFallbacks s; TTLExpiredOps := TTLExpiredOps s |}.
Definition RecordFailure (s : ServerStats) : ServerStats :=
  {| TotalRequests := TotalRequests s; TotalWrites := TotalWrites s; TotalReads := TotalReads s;
     FailedRequests := wrapS64 (FailedRequests s + 1); WatchNotifies := WatchNotifies s;
     LeaseHits := LeaseHits s; LeaseFallbacks := LeaseFallbacks s; TTLExpiredOps := TTLExpiredOps s |}.
Definition RecordWatchNotify (s : ServerStats) : ServerStats :=
  {| TotalRequests := TotalRequests s; TotalWrites := TotalWrites s; TotalReads := TotalReads s;
     FailedRequests := FailedRequests s; WatchNotifies := wrapS64 (WatchNotifies s + 1);
     LeaseHits := LeaseHits s; LeaseFallbacks := LeaseFallbacks s; TTLExpiredOps := TTLExpiredOps s |}.
Definition RecordLeaseHit (s : ServerStats) : ServerStats :=
  {| TotalRequests := TotalRequests s; TotalWrites := TotalWrites s; TotalReads := TotalReads s;
     FailedRequests := FailedRequests s; WatchNotifies := WatchNotifies s;
     LeaseHits := wrapS64 (LeaseHits s + 1); LeaseFallbacks := LeaseFallbacks s;
     TTLExpiredOps := TTLExpiredOps s |}.
Definition RecordLeaseFallback (s : ServerStats) : ServerStats :=
  {| TotalRequests := TotalRequests s; TotalWrites := TotalWrites s; TotalReads := TotalReads s;
     FailedRequests := FailedRequests s; WatchNotifies := WatchNotifies s; LeaseHits := LeaseHits s;
     LeaseFallbacks := wrapS64 (LeaseFallbacks s + 1); TTLExpiredOps := TTLExpiredOps s |}.
Definition RecordTTLExpired (s : ServerStats) (n : Z) : ServerStats :=
  {| TotalRequests := TotalRequests s; TotalWrites := TotalWrites s; TotalReads := TotalReads s;
     FailedRequests := FailedRequests s; WatchNotifies := WatchNotifies s; LeaseHits := LeaseHits s;
     LeaseFallbacks := LeaseFallbacks s; TTLExpiredOps := wrapS64 (TTLExpiredOps s + n) |}.

(** ** Replies *)
Definition getErr (e : Err) : GetReply :=
  {| GetReply_Value := ""; GetReply_Version := 0; GetReply_Expires := 0; GetReply_Err := e;
     GetReply_HintGroupID := 0; GetReply_HintReplicas := []; GetReply_HintEpoch := 0 |}.
Definition putReply (e : Err) (old : string) : PutReply :=
  {| PutReply_Err := e; PutReply_OldValue := old;
     PutReply_HintGroupID := 0; PutReply_HintReplicas := []; PutReply_HintEpoch := 0 |}.
Definition deleteReply (e : Err) (old : string) : DeleteReply :=
  {| DeleteReply_Err := e; DeleteReply_OldValue := old;
     DeleteReply_HintGroupID := 0; DeleteReply_HintReplicas := []; DeleteReply_HintEpoch := 0 |}.

(** What a call of a handler draws from outside the server. *)
Record call_env := {
  ce_now : Z; ce_now_store : Z;
  ce_dial : string → bool;
  ce_rpc_Put : string → string → string → Z → option string;
  ce_rpc_Delete : string → string → option string;
  ce_range_states : gmap Z shardMeta → list (Z * shardMeta);
  ce_router : option (Z → string → option string) }.

Section server.
Context {DB : Type} `{Badger DB}.
(** [xxhash.Sum64String] *)
Variable Sum64String : string → Z.

Record KVServer := {
  kv_me : Z;
  kv_groupID : Z;
  kv_dead : bool;
  kv_stats : ServerStats;
  kv_shardMgr : shardStateManager;
  kv_tm : TxManager DB }.

Definition kv_store (kv : KVServer) : Store DB := tm_store (kv_tm kv).

Definition NewKVServer (me groupID : Z) (store : Store DB) : KVServer :=
  {| kv_me := me; kv_groupID := groupID; kv_dead := false; kv_stats := zeroStats;
     kv_shardMgr := newShardStateManager groupID 1024; kv_tm := NewTxManager store |}.

Definition kv_with_tm (kv : KVServer) (tm : TxManager DB) : KVServer :=
  {| kv_me := kv_me kv; kv_groupID := kv_groupID kv; kv_dead := kv_dead kv;
     kv_stats := kv_stats kv; kv_shardMgr := kv_shardMgr kv; kv_tm := tm |}.
Definition kv_with_store (kv : KVServer) (s : Store DB) : KVServer :=
  kv_with_tm kv (tm_with_store (kv_tm kv) s).
Definition kv_with_stats (kv : KVServer) (st : ServerStats) : KVServer :=
  {| kv_me := kv_me kv; kv_groupID := kv_groupID kv; kv_dead := kv_dead kv;
     kv_stats := st; kv_shardMgr := kv_shardMgr kv; kv_tm := kv_tm kv |}.
Definition kv_with_shards (kv : KVServer) (m : shardStateManager) : KVServer :=
  {| kv_me := kv_me kv; kv_groupID := kv_groupID kv; kv_dead := kv_dead kv;
     kv_stats := kv_stats kv; kv_shardMgr := m; kv_tm := kv_tm kv |}.
Definition kv_fail (kv : KVServer) : KVServer := kv_with_stats kv (RecordFailure (kv_stats kv)).
Definition kv_wrote (kv : KVServer) : KVServer := kv_with_stats kv (RecordWrite (kv_stats kv)).

Definition killed (kv : KVServer) : bool := kv_dead kv.
Definition shardForKey (key : string) : Z := Sum64String key `mod` 1024.

Definition wrongGroupGetReply (kv : KVServer) (meta : shardMeta) : GetReply :=
  {| GetReply_Value := ""; GetReply_Version := 0; GetReply_Expires := 0; GetReply_Err := ErrWrongGroup;
     GetReply_HintGroupID := sm_targetGroup meta; GetReply_HintReplicas := sm_targetReplicas meta;
     GetReply_HintEpoch := GetEpoch (kv_shardMgr kv) |}.
Definition wrongGroupPutReply (kv : KVServer) (meta : shardMeta) : PutReply :=
  {| PutReply_Err := ErrWrongGroup; PutReply_OldValue := "";
     PutReply_HintGroupID := sm_targetGroup meta; PutReply_HintReplicas := sm_targetReplicas meta;
     PutReply_HintEpoch := GetEpoch (kv_shardMgr kv) |}.
Definition wrongGroupDeleteReply (kv : KVServer) (meta : shardMeta) : DeleteReply :=
  {| DeleteReply_Err := ErrWrongGroup; DeleteReply_OldValue := "";
     DeleteReply_HintGroupID := sm_targetGroup meta; DeleteReply_HintReplicas := sm_targetReplicas meta;
     DeleteReply_HintEpoch := GetEpoch (kv_shardMgr kv) |}.

(** ** Handlers *)
Definition doSetShardState (kv : KVServer) (args : SetShardStateArgs) : KVServer * SetShardStateReply :=
  let '(m, e) := ssm_SetShardState (kv_shardMgr kv) (SetShardStateArgs_ShardID args)
                   (SetShardStateArgs_State args) (SetShardStateArgs_TargetGroup args)
                   (SetShardStateArgs_TopologyEpoch args) (SetShardStateArgs_TargetReplicas args) in
  (kv_with_shards kv m, {| SetShardStateReply_Error := default "" e |}).

Fixpoint cleanup_ops (shardID : Z) (keys : list CleanupShardKey) : option (list WriteBatchOp) :=
  match keys with
  | [] => Some []
  | k :: keys =>
      if decide (shardForKey (CleanupShardKey_Key k) ≠ shardID) then None
      else ops ← cleanup_ops shardID keys;
           Some ({| wb_Key := CleanupShardKey_Key k; wb_Value := "";
                    wb_ExpectedVersion := wrapU64 (CleanupShardKey_ExpectedVersion k);
                    wb_Expires := 0; wb_IsDelete := true |} :: ops)
  end.

Definition doCleanupShard (kv : KVServer) (args : CleanupShardArgs) : KVServer * CleanupShardReply :=
  let err e := {| CleanupShardReply_Deleted := 0; CleanupShardReply_Err := e |} in
  if killed kv then (kv, err ErrWrongLeader)
  else
    match cleanup_ops (CleanupShardArgs_ShardID args) (CleanupShardArgs_Keys args) with
    | None => (kv, err ErrWrongGroup)
    | Some ops =>
        match WriteBatchWithCAS (kv_store kv) ops with
        | (s, Some _) => (kv_with_store kv s, err ErrVersion)
        | (s, None) => (kv_with_store kv s,
            {| CleanupShardReply_Deleted := Z.of_nat (length ops); CleanupShardReply_Err := OK |})
        end
    end.

Definition doGet (env : call_env) (kv : KVServer) (args : GetArgs) : KVServer * GetReply :=
  let read :=
    match Get (kv_store kv) (GetArgs_Key args) with
    | inl _ => (kv_fail kv, getErr ErrWrongLeader)
    | inr (Some e) =>
        if isExpired (ke_Expires e) (ce_now env) then (kv, getErr ErrNoKey)
        else (kv, {| GetReply_Value := ke_Value e; GetReply_Version := wrapS64 (ke_Version e);
                     GetReply_Expires := ke_Expires e; GetReply_Err := OK;
                     GetReply_HintGroupID := 0; GetReply_HintReplicas := []; GetReply_HintEpoch := 0 |})
    | inr None => (kv, getErr ErrNoKey)
    end in
  if killed kv then (kv, getErr ErrWrongLeader)
  else
    match GetShardState (kv_shardMgr kv) (shardForKey (GetArgs_Key args)) with
    | Some meta => if decide (sm_state meta = ABSENT) then (kv, wrongGroupGetReply kv meta) else read
    | None => read
    end.

Definition doPutWithForward (env : call_env) (kv : KVServer) (args : PutArgs) (meta : shardMeta)
    : KVServer * PutReply :=
  let key := PutArgs_Key args in
  match Get (kv_store kv) key with
  | inl _ => (kv, putReply ErrWrongLeader "")
  | inr previous =>
      (* an expired previous entry counts as absent *)
      let previous := match previous with
                      | Some e => if isExpired (ke_Expires e) (ce_now env) then None else Some e
                      | None => None
                      end in
      let newExpires := absoluteExpiryFromTTL (PutArgs_TTL args) (ce_now env) in
      let '(s, (oldValue, status), err) :=
        PutCASWithTTL (ce_now_store env) (kv_store kv) key (PutArgs_Value args)
          (wrapU64 (PutArgs_Version args)) newExpires in
      let kv := kv_with_store kv s in
      match err with
      | Some _ => (kv_fail kv, putReply ErrWrongLeader "")
      | None =>
          if decide (status ≠ PutCASOK) then (kv_fail kv, putReply ErrVersion "")
          else
            let kv := kv_wrote kv in
            let '(m, fwd) := ForwardWrite (ce_dial env) (ce_rpc_Put env) (ce_range_states env)
                               (kv_shardMgr kv) (sm_targetGroup meta) key (PutArgs_Value args)
                               (PutArgs_Version args) in
            let kv := kv_with_shards kv m in
            if fwd then (kv, putReply OK oldValue)
            else
              let '(ppv, pver, pexp, pex, produced) :=
                match previous with
                | Some e => (ke_Value e, ke_Version e, ke_Expires e, true, wrapU64 (ke_Version e + 1))
                | None => ("", 0, 0, false, 1)
                end in
              match RollbackCASMutation (kv_store kv) key produced ppv pver pexp pex with
              | (s, Some _) => (kv_with_store kv s, putReply ErrMaybe "")
              | (s, None) => (kv_with_store kv s, putReply ErrWrongGroup "")
              end
      end
  end.

Definition doPut (env : call_env) (kv : KVServer) (args : PutArgs) : KVServer * PutReply :=
  let write :=
    let newExpires := absoluteExpiryFromTTL (PutArgs_TTL args) (ce_now env) in
    let '(s, (oldValue, status), err) :=
      PutCASWithTTL (ce_now_store env) (kv_store kv) (PutArgs_Key args) (PutArgs_Value args)
        (wrapU64 (PutArgs_Version args)) newExpires in
    let kv := kv_with_store kv s in
    match err with
    | Some _ => (kv_fail kv, putReply ErrWrongLeader "")
    | None =>
        match status with
        | PutCASOK => (kv_wrote kv, putReply OK oldValue)
        | PutCASVersionMismatch => (kv_fail kv, putReply ErrVersion "")
        | PutCASNoKey => (kv_fail kv, putReply ErrNoKey "")
        end
    end in
  if killed kv then (kv, putReply ErrWrongLeader "")
  else
    match GetShardState (kv_shardMgr kv) (shardForKey (PutArgs_Key args)) with
    | Some meta =>
        if decide (sm_state meta = ABSENT) then (kv, wrongGroupPutReply kv meta)
        else if decide (sm_state meta = MIGRATING) then doPutWithForward env kv args meta
        else write
    | None => write
    end.

Definition doDeleteWithForward (env : call_env) (kv : KVServer) (args : DeleteArgs) (meta : shardMeta)
    : KVServer * DeleteReply :=
  let key := DeleteArgs_Key args in
  match Get (kv_store kv) key with
  | inl _ => (kv_fail kv, deleteReply ErrWrongLeader "")
  | inr None => (kv, deleteReply ErrNoKey "")
  | inr (Some e) =>
      if isExpired (ke_Expires e) (ce_now env) then (kv, deleteReply ErrNoKey "")
      else
        match Delete (kv_store kv) key with
        | (s, Some _) => (kv_fail (kv_with_store kv s), deleteReply ErrWrongLeader "")
        | (s, None) =>
            let kv := kv_wrote (kv_with_store kv s) in
            let '(m, fwd) := ForwardDelete (ce_dial env) (ce_rpc_Delete env) (ce_range_states env)
                               (kv_shardMgr kv) (sm_targetGroup meta) key in
            let kv := kv_with_shards kv m in
            if fwd then (kv, deleteReply OK (ke_Value e))
            else
              match RollbackCASMutation (kv_store kv) key 0 (ke_Value e) (ke_Version e) (ke_Expires e) true with
              | (s, Some _) => (kv_with_store kv s, deleteReply ErrMaybe "")
              | (s, None) => let kv := kv_with_store kv s in (kv, wrongGroupDeleteReply kv meta)
              end
        end
  end.

Definition doDelete (env : call_env) (kv : KVServer) (args : DeleteArgs) : KVServer * DeleteReply :=
  let key := DeleteArgs_Key args in
  let remove :=
    match Get (kv_store kv) key with
    | inl _ => (kv_fail kv, deleteReply ErrWrongLeader "")
    | inr None => (kv, deleteReply ErrNoKey "")
    | inr (Some e) =>
        if isExpired (ke_Expires e) (ce_now env) then (kv, deleteReply ErrNoKey "")
        else
          match Delete (kv_store kv) key with
          | (s, Some _) => (kv_fail (kv_with_store kv s), deleteReply ErrWrongLeader "")
          | (s, None) => (kv_wrote (kv_with_store kv s), deleteReply OK (ke_Value e))
          end
    end in
  if killed kv then (kv, deleteReply ErrWrongLeader "")
  else
    match GetShardState (kv_shardMgr kv) (shardForKey key) with
    | Some meta =>
        if decide (sm_state meta = ABSENT) then (kv, wrongGroupDeleteReply kv meta)
        else if decide (sm_state meta = MIGRATING) then doDeleteWithForward env kv args meta
        else remove
    | None => remove
    end.

Definition doScan (env : call_env) (kv : KVServer) (args : ScanArgs) : KVServer * ScanReply :=
  if killed kv then (kv, {| ScanReply_Items := []; ScanReply_Err := ErrWrongLeader |})
  else
    (kv, {| ScanReply_Items :=
              omap (λ '(k, v), if isExpired (ke_Expires v) (ce_now env) then None
                               else Some {| ScanItem_Key := k; ScanItem_Value := ke_Value v;
                                            ScanItem_Version := wrapS64 (ke_Version v);
                                            ScanItem_Expires := ke_Expires v |})
                (ScanPrefix (kv_store kv) (ScanArgs_Prefix args) (ScanArgs_Limit args));
            ScanReply_Err := OK |}).

(** The body of the loop of [doExpire]: the lock table is read under the
    transaction mutex. *)
Definition expire_key (cutoff : Z) (kv : KVServer) (key : string) : KVServer * option string :=
  match tm_lockTable (kv_tm kv) !! key with
  | Some _ => (kv, None)
  | None =>
      match Get (kv_store kv) key with
      | inr (Some e) =>
          if isExpired (ke_Expires e) cutoff then
            match Delete (kv_store kv) key with
            | (s, Some _) => (kv_with_store kv s, None)
            | (s, None) => (kv_with_store kv s, Some (ke_Value e))
            end
          else (kv, None)
      | _ => (kv, None)
      end
  end.

Fixpoint expire_loop (cutoff : Z) (kv : KVServer) (keys : list string) (expired : list string)
    (olds : gmap string string) : KVServer * list string * gmap string string :=
  match keys with
  | [] => (kv, expired, olds)
  | key :: keys =>
      match expire_key cutoff kv key with
      | (kv, None) => expire_loop cutoff kv keys expired olds
      | (kv, Some old) => expire_loop cutoff kv keys (expired ++ [key]) (<[key := old]> olds)
      end
  end.

Definition doExpire (kv : KVServer) (args : ExpireArgs) : option (KVServer * ExpireReply) :=
  let reply ks olds e := {| ExpireReply_ExpiredKeys := ks; ExpireReply_ExpiredOldValues := olds;
                            ExpireReply_Err := e |} in
  if killed kv then Some (kv, reply [] ∅ ErrWrongLeader)
  else if decide (ExpireArgs_Keys args = []) then Some (kv, reply [] ∅ OK)
  else if tm_locked (kv_tm kv) then None
  else
    let '(kv, expired, olds) := expire_loop (ExpireArgs_Cutoff args) kv (ExpireArgs_Keys args) [] ∅ in
    let kv := if decide (expired = []) then kv
              else kv_with_stats kv (RecordTTLExpired (kv_stats kv) (Z.of_nat (length expired))) in
    Some (kv, reply expired olds OK).

(** ** Dispatch *)
Definition lift_tm {A} (kv : KVServer) (f : A → reply) (r : option (TxManager DB * A))
    : option (KVServer * reply) :=
  '(tm, a) ← r; Some (kv_with_tm kv tm, f a).

Definition DoOp (env : call_env) (kv : KVServer) (req : request) : option (KVServer * reply) :=
  match req with
  | ReqSetShardState a => let '(kv, r) := doSetShardState kv a in Some (kv, RepSetShardState r)
  | ReqGet a => let '(kv, r) := doGet env kv a in Some (kv, RepGet r)
  | ReqPut a => let '(kv, r) := doPut env kv a in Some (kv, RepPut r)
  | ReqDelete a => let '(kv, r) := doDelete env kv a in Some (kv, RepDelete r)
  | ReqCleanupShard a => let '(kv, r) := doCleanupShard kv a in Some (kv, RepCleanupShard r)
  | ReqScan a => let '(kv, r) := doScan env kv a in Some (kv, RepScan r)
  | ReqExpire a => '(kv, r) ← doExpire kv a; Some (kv, RepExpire r)
  | ReqPrepareTx a =>
      lift_tm kv RepPrepareTx (Prepare (kv_groupID kv) (ce_router env) (ce_now env) (kv_tm kv) a)
  | ReqCommitTx a => lift_tm kv RepCommitTx (Commit (kv_groupID kv) (kv_tm kv) a)
  | ReqAbortTx a => lift_tm kv RepAbortTx (Abort (kv_tm kv) a)
  | ReqResolveTxStatus a => lift_tm kv RepResolveTxStatus (ResolveTxStatus (ce_now env) (kv_tm kv) a)
  | ReqRecordTxDecision a =>
      let '(tm, r) := RecordDecision (kv_tm kv) a in Some (kv_with_tm kv tm, RepRecordTxDecision r)
  end.

(** ** Snapshots *)

(** [None] is the nil slice. *)
Definition kv_Snapshot (kv : KVServer) : option json :=
  if killed kv then None
  else
    data ← SaveSnapshot (kv_store kv);
    Some (JObj [("store", data); ("shards", marshal_shardStateSnapshot (ssm_Snapshot (kv_shardMgr kv)))]).

(** [LoadSnapshot] as [Restore] uses it: a store whose database handle is gone
    cannot serve any request, which is [None]. *)
Definition load_store (renv : restore_env) (s : Store DB) (j : json) : option (Store DB * bool) :=
  match LoadSnapshot renv s j with
  | LoadOK s => Some (s, true)
  | LoadErr _ s | LoadErrReopened _ s => Some (s, false)
  | LoadErrClosed _ _ => None
  end.

Definition kv_Restore (router : option (Z → string → option string))
    (order : list (string * json) → list (string * json)) (renv : restore_env)
    (kv : KVServer) (data : option json) : option KVServer :=
  match data with
  | None => Some kv
  | Some j =>
      let rebuild kv := tm ← RebuildLockTable (kv_groupID kv) router order (kv_tm kv);
                        Some (kv_with_tm kv tm) in
      let whole := '(s, _) ← load_store renv (kv_store kv) j; rebuild (kv_with_store kv s) in
      match m ← as_struct j;
            sh ← match jfield "shards" m with
                 | None | Some JNull => Some {| sss_Epoch := 0; sss_States := ∅ |}
                 | Some sh => unmarshal_shardStateSnapshot sh
                 end;
            Some (jfield "store" m, sh) with
      | Some (Some st, shards) =>
          if decide (sss_States shards = ∅) then whole
          else
            '(s, ok) ← load_store renv (kv_store kv) st;
            let kv := kv_with_store kv s in
            if ok : bool then rebuild (kv_with_shards kv (ssm_Restore (kv_shardMgr kv) shards).1)
            else Some kv
      | _ => whole
      end
  end.

(** ** Watch notifications

    The events a completed operation hands to [watch.Manager.Notify]: key, old
    value, new value, version and event type.  [watch] is the watch manager
    ([None] is nil): whether it accepts the event without an error. *)
Definition event : Type := string * string * string * Z * string.

Definition op_events (req : request) (result : reply) : list event :=
  match req, result with
  | ReqPut a, RepPut r =>
      if decide (PutReply_Err r = OK) then
        [(PutArgs_Key a, PutReply_OldValue r, PutArgs_Value a, PutArgs_Version a,
          if decide (PutReply_OldValue r = "") then "SET" else "PUT")]
      else []
  | ReqDelete a, RepDelete r =>
      if decide (DeleteReply_Err r = OK) then
        [(DeleteArgs_Key a, DeleteReply_OldValue r, "", 0, "DELETE")]
      else []
  | ReqExpire _, RepExpire r =>
      if decide (ExpireReply_Err r = OK) then
        (λ k, (k, default "" (ExpireReply_ExpiredOldValues r !! k), "", 0, "EXPIRE"))
          <$> ExpireReply_ExpiredKeys r
      else []
  | _, _ => []
  end.

Definition OnOpComplete (watch : option (event → bool)) (kv : KVServer) (req : request) (result : reply)
    : KVServer * list event :=
  if killed kv then (kv, [])
  else
    match watch with
    | None => (kv, [])
    | Some notify =>
        let events := op_events req result in
        (foldl (λ kv e, if notify e then kv_with_stats kv (RecordWatchNotify (kv_stats kv)) else kv)
           kv events, events)
    end.

(** ** Administration *)

(** [KVServer.SetShardState]: the connection to the target is set up before the
    change goes through the log.  [submit] is [kv.rsm.Submit] ([None] is a nil
    RSM); a reply of another type is [None]. *)
Definition kv_SetShardState (dial : string → bool)
    (submit : option (request → Err * option SetShardStateReply)) (kv : KVServer)
    (shardID : Z) (state : ShardState) (targetGroup epoch : Z) (targetReplicas : list string)
    : KVServer * option string :=
  match validateShardID (kv_shardMgr kv) shardID with
  | Some err => (kv, Some err)
  | None =>
      let '(kv, dialled) :=
        if decide (state = MIGRATING ∧ targetReplicas ≠ []) then
          let '(m, c) := ensureForwardClient dial (kv_shardMgr kv) targetGroup targetReplicas in
          (kv_with_shards kv m, bool_decide (is_Some c))
        else (kv, true) in
      if dialled : bool then
        match submit with
        | None => (kv, Some "rsm is not configured")
        | Some submit =>
            match submit (ReqSetShardState
                    {| SetShardStateArgs_ShardID := shardID; SetShardStateArgs_State := state;
                       SetShardStateArgs_TargetGroup := targetGroup;
                       SetShardStateArgs_TopologyEpoch := epoch;
                       SetShardStateArgs_TargetReplicas := targetReplicas |}) with
            | (err, ret) =>
                if decide (err ≠ OK) then (kv, Some ("set shard state: " +:+ errReply err))
                else
                  match ret with
                  | None => (kv, Some "set shard state: invalid reply")
                  | Some r =>
                      if decide (SetShardStateReply_Error r = "") then (kv, None)
                      else (kv, Some ("set shard state: " +:+ SetShardStateReply_Error r))
                  end
            end
        end
      else (kv, Some "forward client setup failed")
  end.

(** [GetShardStates]: the entries, in the order of the map iteration. *)
Definition GetShardStates (range_states : gmap Z shardMeta → list (Z * shardMeta)) (kv : KVServer)
    : list (Z * ShardState * Z) * Z :=
  ((λ '(i, meta), (wrapS32 i, sm_state meta, wrapS32 (sm_targetGroup meta)))
     <$> range_states (AllStates (kv_shardMgr kv)),
   GetEpoch (kv_shardMgr kv)).

Definition TopologyEpoch (kv : KVServer) : Z := GetEpoch (kv_shardMgr kv).

Definition Kill (kv : KVServer) : KVServer :=
  {| kv_me := kv_me kv; kv_groupID := kv_groupID kv; kv_dead := true; kv_stats := kv_stats kv;
     kv_shardMgr := ssm_Close (kv_shardMgr kv); kv_tm := kv_tm kv |}.

(** The TTL loop of the leader: one tick yields the request it submits. *)
Definition TTLCleanup_tick (kv : KVServer) (isLeader : bool) (now ttlBatch : Z)
    : KVServer * option ExpireArgs :=
  if killed kv then (kv, None)
  else if negb isLeader then (kv, None)
  else
    let '(s, keys) := GetExpiredKeys (kv_store kv) now ttlBatch in
    let kv := kv_with_store kv s in
    if decide (keys = []) then (kv, None)
    else (kv, Some {| ExpireArgs_Keys := keys; ExpireArgs_Cutoff := now |}).

End server.
Arguments KVServer : clear implicits.
