(* ===== verification/ServerProps.v ===== *)
(** * Properties of the key-value state machine

    The refinement of an abstract versioned map, the double-write of a shard in
    migration, expiry, scans, and the snapshot round trip of the whole server. *)
From stdpp Require Import prelude gmap strings.
From stdpp Require Import options.
From S2P Require Import Prelude Json KvApi ExpiryHeap Store StoreProps ShardState Tx TxProps Server.
Local Open Scope Z_scope.

(** ** The abstract machine: a map from keys to versioned entries *)
Definition amap : Type := string → option kvEntry.
Definition aset (m : amap) (k : string) (v : option kvEntry) : amap :=
  λ k', if decide (k' = k) then v else m k'.
Definition visible (now : Z) (m : amap) (k : string) : option kvEntry :=
  e ← m k; if isExpired (ke_Expires e) now then None else Some e.

(** What a client may expect of a read, a conditional write and a delete. *)
Definition spec_step (now now_store : Z) (m : amap) (req : request) : amap * option reply :=
  match req with
  | ReqGet a =>
      (m, Some (RepGet match visible now m (GetArgs_Key a) with
           | Some e => {| GetReply_Value := ke_Value e; GetReply_Version := wrapS64 (ke_Version e);
                          GetReply_Expires := ke_Expires e; GetReply_Err := OK;
                          GetReply_HintGroupID := 0; GetReply_HintReplicas := []; GetReply_HintEpoch := 0 |}
           | None => getErr ErrNoKey
           end))
  | ReqPut a =>
      match cas_spec (visible now_store m (PutArgs_Key a)) (PutArgs_Value a) (wrapU64 (PutArgs_Version a))
              (absoluteExpiryFromTTL (PutArgs_TTL a) now) with
      | (post, old, PutCASOK) => (aset m (PutArgs_Key a) post, Some (RepPut (putReply OK old)))
      | (_, _, PutCASVersionMismatch) => (m, Some (RepPut (putReply ErrVersion "")))
      | (_, _, PutCASNoKey) => (m, Some (RepPut (putReply ErrNoKey "")))
      end
  | ReqDelete a =>
      match visible now m (DeleteArgs_Key a) with
      | Some e => (aset m (DeleteArgs_Key a) None, Some (RepDelete (deleteReply OK (ke_Value e))))
      | None => (m, Some (RepDelete (deleteReply ErrNoKey "")))
      end
  | _ => (m, None)
  end.

(** The key of a read, conditional write or delete. *)
Definition point_key (req : request) : option string :=
  match req with
  | ReqGet a => Some (GetArgs_Key a)
  | ReqPut a => Some (PutArgs_Key a)
  | ReqDelete a => Some (DeleteArgs_Key a)
  | _ => None
  end.

(** A refusal that promises nothing happened. *)
Definition refused (rep : reply) : Prop :=
  rep = RepGet (getErr ErrWrongLeader) ∨ rep = RepPut (putReply ErrWrongLeader "") ∨
  rep = RepDelete (deleteReply ErrWrongLeader "").

Lemma absoluteExpiry_range ttl now : isS64 (absoluteExpiryFromTTL ttl now).
Proof. unfold absoluteExpiryFromTTL. case_decide; [done|]. apply wrapS64_range. Qed.

Section props.
Context {DB : Type} `{Badger DB}.
Implicit Types (kv : KVServer DB) (s : Store DB).

Definition contents (kv : KVServer DB) : amap := entry_at (kv_store kv).

Lemma visible_live now kv k : visible now (contents kv) k = live now (kv_store kv) k.
Proof. done. Qed.

Lemma Get_entry s k :
  decodable s k → Get s k = inr (entry_at s k).
Proof.
  intros Hd. unfold Get, entry_at. destruct (db_view (st_db s) !! k) as [j|] eqn:Hj; [|done]. cbn.
  destruct (Hd j Hj) as [e ->]. done.
Qed.

Lemma Delete_entries s k s' e :
  Delete s k = (s', e) →
  match e with
  | Some _ => s' = s
  | None => ∀ k', entry_at s' k' = if decide (k' = k) then None else entry_at s k'
  end.
Proof.
  intros Hd%Delete_spec. destruct e; [done|]. destruct Hd as [Hv _]. intros k'. unfold entry_at. rewrite Hv.
  case_decide; [subst; by rewrite lookup_delete_eq|]. by rewrite lookup_delete_ne.
Qed.

Section dispatch.
Variable Sum64String : string → Z.

(** A shard that serves requests on its own. *)
Definition serves (kv : KVServer DB) (key : string) : Prop :=
  killed kv = false ∧
  match GetShardState (kv_shardMgr kv) (shardForKey Sum64String key) with
  | Some meta => sm_state meta ≠ ABSENT ∧ sm_state meta ≠ MIGRATING
  | None => True
  end.

Lemma doGet_refines env kv a kv' r :
  serves kv (GetArgs_Key a) → decodable (kv_store kv) (GetArgs_Key a) →
  doGet Sum64String env kv a = (kv', r) →
  contents kv' = contents kv ∧
  Some (RepGet r) = (spec_step (ce_now env) (ce_now_store env) (contents kv) (ReqGet a)).2.
Proof.
  intros [Hk Hsh] Hd. unfold doGet. rewrite Hk, (Get_entry _ _ Hd). cbn [spec_step snd].
  unfold visible, contents.
  destruct (GetShardState _ _) as [meta|]; [rewrite decide_False by naive_solver|];
    (destruct (entry_at _ _) as [e|]; cbn; [destruct (isExpired _ _)|]; intros; simplify_eq; done).
Qed.

Lemma doPut_refines env kv a kv' r :
  serves kv (PutArgs_Key a) → decodable (kv_store kv) (PutArgs_Key a) →
  doPut Sum64String env kv a = (kv', r) →
  (r = putReply ErrWrongLeader "" ∧ contents kv' = contents kv) ∨
  (Some (RepPut r) = (spec_step (ce_now env) (ce_now_store env) (contents kv) (ReqPut a)).2 ∧
   ∀ k, contents kv' k = (spec_step (ce_now env) (ce_now_store env) (contents kv) (ReqPut a)).1 k).
Proof.
  intros [Hk Hsh] Hd. unfold doPut. rewrite Hk.
  destruct (PutCASWithTTL _ _ _ _ _ _) as [[s [old st]] e] eqn:Hput.
  pose proof (PutCASWithTTL_spec _ _ _ _ _ _ _ _ _ _ (absoluteExpiry_range _ _) Hd Hput) as Hs. intros Hr.
  assert (Hw : (match e with
    | Some _ => (kv_fail (kv_with_store kv s), putReply ErrWrongLeader "")
    | None => match st with
              | PutCASOK => (kv_wrote (kv_with_store kv s), putReply OK old)
              | PutCASNoKey => (kv_fail (kv_with_store kv s), putReply ErrNoKey "")
              | PutCASVersionMismatch => (kv_fail (kv_with_store kv s), putReply ErrVersion "")
              end
    end) = (kv', r)).
  { destruct (GetShardState _ _); [|done]. rewrite !decide_False in Hr by naive_solver. done. }
  clear Hr Hput. destruct e as [err|].
  { destruct Hs as [_ ->]. simplify_eq. left. done. }
  right. cbn [spec_step]. rewrite visible_live. destruct (cas_spec _ _ _ _) as [[post old'] st'].
  destruct Hs as (-> & -> & Hs). destruct st'; simplify_eq/=; (split; [done|]); intros k.
  - destruct Hs as [H1 H2]. unfold aset. case_decide; [subst; done|]. by apply H2.
  - apply Hs.
  - apply Hs.
Qed.

Lemma doDelete_refines env kv a kv' r :
  serves kv (DeleteArgs_Key a) → decodable (kv_store kv) (DeleteArgs_Key a) →
  doDelete Sum64String env kv a = (kv', r) →
  (r = deleteReply ErrWrongLeader "" ∧ contents kv' = contents kv) ∨
  (Some (RepDelete r) = (spec_step (ce_now env) (ce_now_store env) (contents kv) (ReqDelete a)).2 ∧
   ∀ k, contents kv' k = (spec_step (ce_now env) (ce_now_store env) (contents kv) (ReqDelete a)).1 k).
Proof.
  intros [Hk Hsh] Hd. unfold doDelete. rewrite Hk, (Get_entry _ _ Hd).
  destruct (Delete _ _) as [s e] eqn:Hdel. apply Delete_entries in Hdel. cbn [spec_step].
  unfold visible. change (contents kv (DeleteArgs_Key a)) with (entry_at (kv_store kv) (DeleteArgs_Key a)).
  destruct (GetShardState _ _) as [meta|]; [rewrite !decide_False by naive_solver|];
    (destruct (entry_at (kv_store kv) (DeleteArgs_Key a)) as [x|]; cbn;
      [destruct (isExpired _ _); [|destruct e]|]); intros; simplify_eq/=; try (by right); try (by left);
    right; (split; [done|]); intros k; apply Hdel.
Qed.

End dispatch.

(** ** The double-write of a shard in migration *)

(** A reader sees at time [now] what it saw before. *)
Definition readers_same (now : Z) (kv kv' : KVServer DB) : Prop :=
  ∀ k, live now (kv_store kv') k = live now (kv_store kv) k.

(** What comes back from the target group for the forwarded write; [None] is no
    client for the group, an error of the call, or an answer that was lost. *)
Definition target_answer env (kv : KVServer DB) (meta : shardMeta) (a : PutArgs) : option string :=
  c ← (forward_client (ce_dial env) (ce_range_states env) (kv_shardMgr kv) (sm_targetGroup meta)).2;
  ce_rpc_Put env c (PutArgs_Key a) (PutArgs_Value a) (PutArgs_Version a).
(** The answers that count as success, as the code lists them. *)
Definition counts_as_success (e : string) : Prop := e = "" ∨ e = "OK" ∨ e = "ErrNoKey".

Lemma ForwardWrite_answer env (kv : KVServer DB) meta a :
  (ForwardWrite (ce_dial env) (ce_rpc_Put env) (ce_range_states env) (kv_shardMgr kv) (sm_targetGroup meta)
     (PutArgs_Key a) (PutArgs_Value a) (PutArgs_Version a)).2 = forward_ok (target_answer env kv meta a).
Proof. unfold ForwardWrite, target_answer. by destruct (forward_client _ _ _ _) as [m [c|]]. Qed.

(** The source's side of a double-written Put, outcome by outcome. *)
Definition put_outcome env (kv : KVServer DB) (a : PutArgs) (answer : option string) (kv' : KVServer DB) (r : PutReply) : Prop :=
  let cas := cas_spec (live (ce_now_store env) (kv_store kv) (PutArgs_Key a)) (PutArgs_Value a)
               (wrapU64 (PutArgs_Version a)) (absoluteExpiryFromTTL (PutArgs_TTL a) (ce_now env)) in
  let written := ∀ k, contents kv' k = aset (contents kv) (PutArgs_Key a) cas.1.1 k in
  match PutReply_Err r with
  | OK => cas.2 = PutCASOK ∧ PutReply_OldValue r = cas.1.2 ∧ written ∧ ∃ e, answer = Some e ∧ counts_as_success e
  | ErrWrongGroup => cas.2 = PutCASOK ∧ (∀ e, answer = Some e → ¬ counts_as_success e) ∧ readers_same (ce_now env) kv kv'
  | ErrMaybe => cas.2 = PutCASOK ∧ (∀ e, answer = Some e → ¬ counts_as_success e) ∧ written
  | ErrVersion => cas.2 ≠ PutCASOK ∧ ∀ k, contents kv' k = contents kv k
  | ErrWrongLeader => ∀ k, contents kv' k = contents kv k
  | _ => False
  end.

Lemma entry_at_wf s k e : entry_at s k = Some e → kvEntry_wf e.
Proof. unfold entry_at. destruct (_ !! k); [|done]. apply unmarshal_kvEntry_wf. Qed.

(** Undoing the write after a failed forward. *)
Lemma undo_put_readers now s0 s1 key s2 prev produced :
  (∀ k, k ≠ key → entry_at s1 k = entry_at s0 k) →
  prev = (match entry_at s0 key with
          | Some e => if isExpired (ke_Expires e) now then None else Some e
          | None => None end : option kvEntry) →
  (let '(pv, pver, pexp, pex) := match prev with
     | Some e => (ke_Value e, ke_Version e, ke_Expires e, true) | None => ("", 0, 0, false) end in
   RollbackCASMutation s1 key produced pv pver pexp pex) = (s2, None) →
  ∀ k, live now s2 k = live now (s0 : Store DB) k.
Proof.
  intros Hoth Hprev Hrb k.
  assert (Hpwf : ∀ x, prev = Some x → kvEntry_wf x).
  { intros x Hx. subst prev. destruct (entry_at s0 key) as [y|] eqn:Hy; simplify_eq/=.
    destruct (isExpired _ _); simplify_eq. by eapply entry_at_wf. }
  assert (entry_at s2 key = prev ∧ ∀ k, k ≠ key → entry_at s2 k = entry_at s1 k) as [Hk2 Hrest].
  { destruct prev as [x|].
    - destruct (Hpwf x eq_refl) as [Hx1 Hx2]. apply RollbackCASMutation_spec in Hrb as (_ & Hk2 & Hrest); [|done..].
      rewrite Hk2. by destruct x.
    - apply RollbackCASMutation_spec in Hrb as (_ & Hk2 & Hrest); done. }
  unfold live. destruct (decide (k = key)) as [->|Hk]; [|by rewrite Hrest, Hoth].
  rewrite Hk2, Hprev. unfold isExpired, entry_expired. destruct (entry_at s0 key) as [x|]; cbn; [|done].
  repeat case_bool_decide; cbn; by rewrite ?bool_decide_false by done.
Qed.

Lemma doPutWithForward_spec env kv a meta kv' r :
  decodable (kv_store kv) (PutArgs_Key a) →
  doPutWithForward env kv a meta = (kv', r) →
  put_outcome env kv a (target_answer env kv meta a) kv' r.
Proof.
  intros Hd. unfold doPutWithForward, put_outcome. rewrite (Get_entry _ _ Hd). set (key := PutArgs_Key a) in *.
  destruct (PutCASWithTTL _ _ _ _ _ _) as [[s [old st]] e] eqn:Hput.
  pose proof (PutCASWithTTL_spec _ _ _ _ _ _ _ _ _ _ (absoluteExpiry_range _ _) Hd Hput) as Hs. clear Hput.
  destruct e as [err|]. { destruct Hs as [_ ->]. intros [= <- <-]. by intros k. }
  destruct (cas_spec _ _ _ _) as [[post old'] st']. destruct Hs as (-> & -> & Hs). cbn [fst snd].
  case_decide as Hst.
  { intros [= <- <-]. cbn. split; [done|]. intros k. destruct st'; [done| |]; apply Hs. }
  destruct st'; [|done..]. destruct Hs as [Hkey Hoth]. clear Hst.
  assert (∀ k, entry_at s k = aset (contents kv) key post k) as Hset.
  { intros k. unfold aset. case_decide; [by subst|]. by apply Hoth. }
  cbn [kv_wrote kv_with_stats kv_with_store kv_with_tm kv_shardMgr].
  pose proof (ForwardWrite_answer env kv meta a) as Hf. fold key in Hf.
  destruct (ForwardWrite _ _ _ _ _ _ _ _) as [m fwd]. cbn [snd] in Hf. subst fwd.
  destruct (forward_ok _) eqn:Hok.
  { intros [= <- <-]. cbn. split_and!; [done|done|exact Hset|].
    destruct (target_answer env kv meta a) as [e|]; [|done]. exists e. split; [done|]. by apply bool_decide_eq_true in Hok. }
  assert (∀ e, target_answer env kv meta a = Some e → ¬ counts_as_success e) as Href.
  { intros e He. rewrite He in Hok. by apply bool_decide_eq_false in Hok. }
  set (prev := match entry_at (kv_store kv) key with
               | Some e => if isExpired (ke_Expires e) (ce_now env) then None else Some e
               | None => None end).
  pose proof (undo_put_readers (ce_now env) (kv_store kv) s key) as Hundo.
  destruct prev as [x|] eqn:Hprev.
  - assert (kvEntry_wf x) as [Hx1 Hx2].
    { subst prev. destruct (entry_at (kv_store kv) key) as [y|] eqn:Hy; [|done]. destruct (isExpired _ _); simplify_eq. by eapply entry_at_wf. }
    destruct (RollbackCASMutation _ _ _ _ _ _ _) as [s2 [err|]] eqn:Hrb; intros [= <- <-]; cbn; (split; [done|]; split; [done|]).
    + apply RollbackCASMutation_spec in Hrb as [-> _]; [exact Hset|done|done].
    + exact (Hundo s2 (Some x) _ Hoth (eq_sym Hprev) Hrb).
  - destruct (RollbackCASMutation _ _ _ _ _ _ _) as [s2 [err|]] eqn:Hrb; intros [= <- <-]; cbn; (split; [done|]; split; [done|]).
    + apply RollbackCASMutation_spec in Hrb as [-> _]; [exact Hset|done|done].
    + exact (Hundo s2 None _ Hoth (eq_sym Hprev) Hrb).
Qed.

Lemma doDeleteWithForward_spec env kv a meta kv' r :
  decodable (kv_store kv) (DeleteArgs_Key a) →
  doDeleteWithForward env kv a meta = (kv', r) →
  match DeleteReply_Err r with
  | OK =>
      (∃ e, live (ce_now env) (kv_store kv) (DeleteArgs_Key a) = Some e ∧ DeleteReply_OldValue r = ke_Value e) ∧
      (∀ k, contents kv' k = aset (contents kv) (DeleteArgs_Key a) None k) ∧
      (ForwardDelete (ce_dial env) (ce_rpc_Delete env) (ce_range_states env) (kv_shardMgr kv)
         (sm_targetGroup meta) (DeleteArgs_Key a)).2 = true
  | ErrMaybe => True
  | _ => readers_same (ce_now env) kv kv'
  end.
Proof.
  intros Hd. unfold doDeleteWithForward. rewrite (Get_entry _ _ Hd). set (key := DeleteArgs_Key a) in *.
  destruct (entry_at (kv_store kv) key) as [x|] eqn:Hx; [|intros [= <- <-]; by intros k].
  destruct (isExpired _ _) eqn:Hexp; [intros [= <- <-]; by intros k|].
  destruct (Delete _ _) as [s e] eqn:Hdel. apply Delete_entries in Hdel.
  destruct e as [err|]; [subst; intros [= <- <-]; by intros k|].
  cbn [kv_wrote kv_with_stats kv_with_store kv_with_tm kv_shardMgr].
  destruct (ForwardDelete _ _ _ _ _ _) as [m fwd]. destruct fwd.
  { intros [= <- <-]. cbn. split_and!; [|exact Hdel|done].
    exists x. split; [|done]. unfold live. rewrite Hx. cbn. unfold entry_expired. unfold isExpired in Hexp. by rewrite Hexp. }
  destruct (entry_at_wf _ _ _ Hx) as [Hw1 Hw2].
  destruct (RollbackCASMutation _ _ _ _ _ _ _) as [s2 [err|]] eqn:Hrb; intros [= <- <-]; [done|]. cbn.
  apply RollbackCASMutation_spec in Hrb as (_ & Hk2 & Hrest); [|done..]. intros k. cbn. unfold live.
  destruct (decide (k = key)) as [->|Hk].
  - rewrite Hk2, Hx. by destruct x.
  - rewrite Hrest by done. cbn. by rewrite Hdel, decide_False.
Qed.

(** ** Expiry *)
Lemma expire_key_spec cutoff kv key kv' r :
  expire_key cutoff kv key = (kv', r) →
  kv_tm kv' = tm_with_store (kv_tm kv) (kv_store kv') ∧
  match r with
  | Some old =>
      tm_lockTable (kv_tm kv) !! key = None ∧
      (∃ e, entry_at (kv_store kv) key = Some e ∧ ke_Value e = old ∧ 0 < ke_Expires e ∧ ke_Expires e ≤ cutoff) ∧
      db_view (st_db (kv_store kv')) = delete key (db_view (st_db (kv_store kv)))
  | None => kv_store kv' = kv_store kv
  end.
Proof.
  assert (Htm : kv_tm kv = tm_with_store (kv_tm kv) (kv_store kv)) by by destruct kv as [? ? ? ? ? []].
  unfold expire_key. destruct (tm_lockTable _ !! key) eqn:Hl; [intros [= <- <-]; by split|].
  unfold Get, entry_at. destruct (db_view _ !! key) as [j|]; [|intros [= <- <-]; by split].
  cbn. destruct (unmarshal_kvEntry j) as [e|]; [|intros [= <- <-]; by split].
  unfold isExpired. case_bool_decide as Hx; [|intros [= <- <-]; by split].
  destruct (Delete _ _) as [s [err|]] eqn:Hd; apply Delete_spec in Hd; intros [= <- <-]; cbn.
  - by rewrite Hd.
  - destruct Hd as [-> _]. split_and!; eauto.
Qed.

(** What the loop of [doExpire] removes, started with no key removed yet. *)
Lemma expire_loop_spec cutoff keys kv ks olds kv' ks' olds' :
  expire_loop cutoff kv keys ks olds = (kv', ks', olds') →
  ∃ new, ks' = ks ++ new ∧ new ⊆ keys ∧
    tm_lockTable (kv_tm kv') = tm_lockTable (kv_tm kv) ∧
    (∀ k, k ∈ new → tm_lockTable (kv_tm kv) !! k = None ∧
       (∃ e, entry_at (kv_store kv) k = Some e ∧ 0 < ke_Expires e ∧ ke_Expires e ≤ cutoff) ∧
       db_view (st_db (kv_store kv')) !! k = None) ∧
    (∀ k, k ∉ new → db_view (st_db (kv_store kv')) !! k = db_view (st_db (kv_store kv)) !! k).
Proof.
  revert kv ks olds. induction keys as [|key keys IH]; intros kv ks olds E; cbn [expire_loop] in E.
  { simplify_eq. exists []. rewrite app_nil_r. split_and!; [done..| |done]. set_solver. }
  destruct (expire_key cutoff kv key) as [kv1 r] eqn:E1. apply expire_key_spec in E1 as [Htm E1].
  destruct r as [old|].
  - destruct E1 as (Hl & (e & He & _ & Hx) & Hv).
    destruct (IH _ _ _ E) as (new & -> & Hsub & Hlk & Hin & Hout). rewrite Htm in Hlk, Hin. cbn in Hlk, Hin.
    exists (key :: new). rewrite <- app_assoc. split_and!; [done|set_solver|done| |].
    + intros k [->|Hk]%elem_of_cons.
      * split_and!; [done|eauto|]. destruct (decide (key ∈ new)); [by apply Hin|].
        rewrite Hout, Hv by done. apply lookup_delete_eq.
      * destruct (Hin k Hk) as (? & (e1 & He1 & ?) & ?). split_and!; [done| |done]. exists e1. split; [|done].
        unfold entry_at in He1 |- *. rewrite Hv in He1. destruct (decide (k = key)) as [->|].
        -- by rewrite lookup_delete_eq in He1.
        -- by rewrite lookup_delete_ne in He1.
    + intros k [Hk1 Hk2]%not_elem_of_cons. rewrite Hout, Hv by done. by rewrite lookup_delete_ne.
  - destruct (IH _ _ _ E) as (new & -> & Hsub & Hlk & Hin & Hout). rewrite Htm in Hlk, Hin. cbn in Hlk, Hin.
    exists new. rewrite E1 in Hin, Hout. split_and!; [done|set_solver|done..].
Qed.

(** ** Scans *)
Lemma scan_prefix_loop_unlimited limit items acc :
  limit ≤ 0 → scan_prefix_loop limit items acc =
    acc ++ omap (λ '(k, j), pair k <$> unmarshal_kvEntry j) items.
Proof.
  intros Hl. revert acc. induction items as [|[k j] items IH]; intros acc; cbn; [by rewrite app_nil_r|].
  rewrite decide_False by lia. destruct (unmarshal_kvEntry j); cbn; rewrite IH; [by rewrite <- app_assoc|done].
Qed.

Lemma ScanPrefix_elem s p k e limit :
  limit ≤ 0 → (k, e) ∈ ScanPrefix s p limit ↔ has_prefix p k = true ∧ entry_at s k = Some e.
Proof.
  intros Hl. unfold ScanPrefix. rewrite scan_prefix_loop_unlimited by done. cbn.
  rewrite list_elem_of_omap. unfold entry_at. split.
  - intros ([k' j] & Hin & Heq). apply db_iter_elem in Hin as [Hv Hp].
    destruct (unmarshal_kvEntry j) eqn:Ej; simplify_eq/=. by rewrite Hv.
  - intros [Hp He]. destruct (db_view (st_db s) !! k) as [j|] eqn:Hv; [|done]. cbn in He.
    exists (k, j). rewrite db_iter_elem. split; [done|]. by rewrite He.
Qed.

(** ** Snapshot and restore of the whole server *)

Lemma Rebuild_tables_irrelevant g router order (tm : TxManager DB) :
  tm_locked tm = false →
  RebuildLockTable g router order tm = RebuildLockTable g router order (NewTxManager (tm_store tm)).
Proof. intros Hl. unfold RebuildLockTable. by rewrite !tm_Lock_free. Qed.

Lemma restored_records s s' :
  restored_view s (db_view (st_db s')) → ∀ k, GetTxRecord s' k = GetTxRecord s k.
Proof. intros Hr k. unfold GetTxRecord. by rewrite (Hr _), has_prefix_app. Qed.

Lemma tx_inv_records (tm : TxManager DB) s' :
  tx_inv tm → (∀ k, GetTxRecord s' k = GetTxRecord (tm_store tm) k) → tx_inv (NewTxManager s').
Proof.
  intros [He Hp Hm] Hk. split; cbn; intros; rewrite ?Hk in *; eauto; by rewrite lookup_empty in *.
Qed.

Lemma undecided_records g router s s' rec :
  (∀ k, GetTxRecord s' k = GetTxRecord s k) → undecided g router s' rec ↔ undecided g router s rec.
Proof. intros Hk. unfold undecided, queryCoordinatorDecision. by rewrite !Hk. Qed.

(** The states of two snapshots that are not empty. *)
Lemma snapshot_states_nonempty m : ssm_wf m → 0 < ssm_numShards m → sss_States (ssm_Snapshot m) ≠ ∅.
Proof.
  intros Hw Hn Hemp. assert (Hi : is_Some (ssm_states m !! 0)) by (apply (wf_dom _ Hw); lia).
  destruct Hi as [x Hx].
  assert (Hl : sss_States (ssm_Snapshot m) !! 0 = None) by by rewrite Hemp.
  cbn in Hl. by rewrite lookup_fmap, Hx in Hl.
Qed.

Lemma kv_Restore_envelope router order renv kv0 data m :
  ssm_wf m → 0 < ssm_numShards m →
  kv_Restore router order renv kv0
    (Some (JObj [("store", data); ("shards", marshal_shardStateSnapshot (ssm_Snapshot m))])) =
  ('(s, ok) ← load_store renv (kv_store kv0) data;
   let kv := kv_with_store kv0 s in
   if ok : bool then
     let kv := kv_with_shards kv (ssm_Restore (kv_shardMgr kv) (ssm_Snapshot m)).1 in
     tm ← RebuildLockTable (kv_groupID kv) router order (kv_tm kv); Some (kv_with_tm kv tm)
   else Some kv).
Proof.
  intros Hw Hn. unfold kv_Restore. cbn [as_struct mbind option_bind].
  change (jfield "shards" _) with (Some (marshal_shardStateSnapshot (ssm_Snapshot m))).
  change (jfield "store" _) with (Some data).
  assert (Hun : unmarshal_shardStateSnapshot (marshal_shardStateSnapshot (ssm_Snapshot m)) = Some (ssm_Snapshot m)).
  { destruct Hw as [? Hd Hs ? ?]. apply unmarshal_marshal_shards; [done|]. intros i x. cbn. rewrite lookup_fmap.
    intros (y & Hy & ->)%fmap_Some. cbn. destruct (Hs _ _ Hy) as [Hst Htg].
    rewrite wrapS32_id by done. split_and!; try done.
    assert (0 ≤ i ∧ i < ssm_numShards m) by (apply Hd; eauto). unfold isS64. lia. }
  unfold marshal_shardStateSnapshot at 1. cbv match. fold (marshal_shardStateSnapshot (ssm_Snapshot m)).
  rewrite Hun. cbn [mbind option_bind]. rewrite decide_False; [done|]. by apply snapshot_states_nonempty.
Qed.

Lemma to_commit_records g router s s' rec :
  (∀ k, GetTxRecord s' k = GetTxRecord s k) → to_commit g router s' rec ↔ to_commit g router s rec.
Proof. intros Hk. unfold to_commit, queryCoordinatorDecision. by rewrite !Hk. Qed.

(** What a server restored from a snapshot of [kv] answers from.  While it
    restores, it also finishes the prepared transactions whose outcome it finds
    or its coordinator tells. *)
Definition restored_like (router : option (Z → string → option string)) (kv kv' : KVServer DB) : Prop :=
  let g := kv_groupID kv in let s := kv_store kv in let s' := kv_store kv' in
  let prepared t := GetTxRecord s (txPreparePrefix +:+ t) ≫= unmarshal_prepared in
  (∀ k, has_prefix txKeyPrefix k = false →
     (∀ t rec, prepared t = Some rec → to_commit g router s rec → k ∉ WriteKey_Key <$> pr_WriteKeys rec) →
     entry_at s' k = entry_at s k) ∧
  (∀ t, (∀ rec, prepared t = Some rec → undecided g router s rec) →
     ∀ p, p ∈ [txPreparePrefix; txCommitPrefix; txAbortPrefix] → GetTxRecord s' (p +:+ t) = GetTxRecord s (p +:+ t)) ∧
  (∀ t, GetTxRecord s' (txDecisionPrefix +:+ t) = GetTxRecord s (txDecisionPrefix +:+ t)) ∧
  (∀ t p, p ∈ [txCommitPrefix; txAbortPrefix] → GetTxRecord s (p +:+ t) ≠ None →
     GetTxRecord s' (p +:+ t) = GetTxRecord s (p +:+ t)) ∧
  ssm_states (kv_shardMgr kv') = ssm_states (kv_shardMgr kv) ∧
  ssm_epoch (kv_shardMgr kv') = ssm_epoch (kv_shardMgr kv) ∧
  (∀ k t, tm_lockTable (kv_tm kv') !! k = Some t ↔
     ∃ rec, prepared t = Some rec ∧ undecided g router s rec ∧ k ∈ WriteKey_Key <$> pr_WriteKeys rec).

Lemma server_restore router order renv kv kv0 :
  (∀ d v, is_Some (db_commit (DB := DB) d v)) → env_ok renv → (∀ l, order l ≡ₚ l) →
  killed kv = false → store_wf (kv_store kv) → ssm_wf (kv_shardMgr kv) → tx_inv (kv_tm kv) →
  0 < ssm_numShards (kv_shardMgr kv) →
  ssm_numShards (kv_shardMgr kv0) = ssm_numShards (kv_shardMgr kv) → kv_groupID kv0 = kv_groupID kv →
  tm_locked (kv_tm kv0) = false → write_sets_disjoint (kv_store kv) →
  ∃ j kv', kv_Snapshot kv = Some j ∧ kv_Restore router order renv kv0 (Some j) = Some kv' ∧
    restored_like router kv kv'.
Proof.
  intros Hcom Henv Hord Hk Hst Hsh Hi Hn Hns Hg Hl Hdis.
  destruct (SaveSnapshot_total _ Hst) as [data Hdata].
  destruct (LoadSnapshot_total renv _ (kv_store kv0) data Hcom Henv Hdata) as [s Hs].
  destruct (LoadSnapshot_restored _ _ _ _ _ Hdata Hs) as [Hr _].
  destruct (ssm_Restore_Snapshot _ (kv_shardMgr kv0) Hsh Hns) as (m' & Hm' & Hm1 & Hm2).
  unfold kv_Snapshot. rewrite Hk, Hdata. cbn [mbind option_bind]. eexists. rewrite kv_Restore_envelope by done.
  unfold load_store. rewrite Hs. cbn [mbind option_bind].
  change (kv_shardMgr (kv_with_store kv0 s)) with (kv_shardMgr kv0). rewrite Hm'. cbn [fst].
  set (kv1 := kv_with_shards (kv_with_store kv0 s) m').
  pose proof (restored_records _ _ Hr) as Hrec.
  pose proof (tx_inv_records _ _ Hi Hrec) as Hi1.
  rewrite Rebuild_tables_irrelevant by done. change (tm_store (kv_tm kv1)) with s.
  change (kv_groupID kv1) with (kv_groupID kv0). rewrite Hg.
  destruct (RebuildLockTable_ok (kv_groupID kv) router order (NewTxManager s) Hord eq_refl Hi1) as (tm' & E & _ & _ & Hmono).
  rewrite E. cbn [mbind option_bind]. eexists. split_and!; [done..|].
  assert (Hrd : write_sets_disjoint s).
  { intros t1 t2 r1 r2 k Hne. rewrite !Hrec. by apply Hdis. }
  destruct (RebuildLockTable_exact _ _ _ (NewTxManager s) _ Hord eq_refl Hi1 Hrd E) as [_ Hlk].
  destruct (RebuildLockTable_keeps _ _ _ (NewTxManager s) _ Hord eq_refl Hi1 E) as (K1 & K2 & K3).
  cbn [NewTxManager tm_store] in *. unfold restored_like, kv_store at 1 3 5 7. cbn. split_and!; [| | | |done|done|].
  - intros k Hu Hc. rewrite <-(restored_entry _ _ Hr k Hu). unfold entry_at. rewrite K1; [done|done|].
    intros t rec. rewrite Hrec. intros Hp Ht. apply (Hc t); [done|]. by apply (to_commit_records _ _ (kv_store kv) s).
  - intros t Hu p Hp. destruct (K2 t) as (C & A & P).
    { intros rec. rewrite Hrec. intros Hx. apply (undecided_records _ _ (kv_store kv)); auto. }
    rewrite <-Hrec. rewrite !elem_of_cons in Hp. destruct Hp as [->|[->|[->|?%elem_of_nil]]]; done.
  - intros t. by rewrite K3.
  - intros t p Hp Hne. destruct (Hmono t) as (C & A & _). rewrite <-Hrec in *. cbn in C, A.
    rewrite !elem_of_cons in Hp. destruct Hp as [->|[->|?%elem_of_nil]]; auto. done.
  - intros k t. rewrite Hlk. setoid_rewrite (undecided_records _ _ _ _ _ Hrec). rewrite Hrec. naive_solver.
Qed.

End props.

(** ** Claims *)
Section claims.
Context {DB : Type} `{Badger DB}.
Variable Sum64String : string → Z.
Implicit Types (kv : KVServer DB).

(** C21: on a shard it serves and a well-formed store, the server refines the
    abstract versioned map: every read, conditional write and delete of a key
    outside _tx:... that goes through [DoOp] gives the reply of the abstract
    machine and leaves exactly its contents, or it is refused with
    ErrWrongLeader and nothing has changed. *)
Theorem server_refines_spec env kv req kv' rep k :
  point_key req = Some k → serves Sum64String kv k → store_wf (kv_store kv) →
  has_prefix txKeyPrefix k = false →
  DoOp Sum64String env kv req = Some (kv', rep) →
  (refused rep ∧ ∀ k', contents kv' k' = contents kv k') ∨
  (Some rep = (spec_step (ce_now env) (ce_now_store env) (contents kv) req).2 ∧
   ∀ k', contents kv' k' = (spec_step (ce_now env) (ce_now_store env) (contents kv) req).1 k').
Proof.
  intros Hk Hs Hw Hp. pose proof (store_wf_decodable _ _ Hw Hp) as Hd. unfold refused.
  destruct req; simplify_eq/=.
  - destruct (doGet _ _ _ _) as [kv1 r] eqn:E. intros [= <- <-].
    apply doGet_refines in E as [Hc Hr]; [|done..]. right. rewrite Hr, Hc. done.
  - destruct (doPut _ _ _ _) as [kv1 r] eqn:E. intros [= <- <-].
    apply doPut_refines in E as [[-> Hc]|[Hr Hc]]; [|by right|done..]. left. rewrite Hc. auto.
  - destruct (doDelete _ _ _ _) as [kv1 r] eqn:E. intros [= <- <-].
    apply doDelete_refines in E as [[-> Hc]|[Hr Hc]]; [|by right|done..]. left. rewrite Hc. auto.
Qed.

(** a write is read back: after a Put that was answered OK, a Get of the
    same key before the entry's expiry returns the value written, at version 1
    for a new key and one more than the version the Put named otherwise. *)
Theorem read_your_write env env' kv a kv1 old kv2 r :
  let key := PutArgs_Key a in
  let x := absoluteExpiryFromTTL (PutArgs_TTL a) (ce_now env) in
  serves Sum64String kv key → store_wf (kv_store kv) → has_prefix txKeyPrefix key = false →
  0 ≤ PutArgs_Version a < 2^63 - 1 → isExpired x (ce_now env') = false →
  doPut Sum64String env kv a = (kv1, putReply OK old) →
  doGet Sum64String env' kv1 {| GetArgs_Key := key |} = (kv2, r) →
  GetReply_Err r = OK ∧ GetReply_Value r = PutArgs_Value a ∧ GetReply_Expires r = x ∧
  GetReply_Version r = PutArgs_Version a + 1.
Proof.
  intros key x Hs Hw Hp Hver Hx Hput Hget.
  pose proof (store_wf_decodable _ _ Hw Hp) as Hd.
  assert (Hw1 : store_wf (kv_store kv1) ∧ killed kv1 = killed kv ∧ kv_shardMgr kv1 = kv_shardMgr kv).
  { unfold doPut in Hput. destruct Hs as [Hk Hsh]. rewrite Hk in Hput.
    pose proof (PutCAS_wf (kv_store kv) (ce_now_store env) (PutArgs_Key a) (PutArgs_Value a)
      (wrapU64 (PutArgs_Version a)) x Hw (absoluteExpiry_range _ _)) as Hwf. subst x.
    destruct (PutCASWithTTL _ _ _ _ _ _) as [[s [o st]] e].
    destruct (GetShardState _ _); [rewrite !decide_False in Hput by naive_solver|];
      destruct e; [by simplify_eq| |by simplify_eq|]; destruct st; simplify_eq; done. }
  destruct Hw1 as (Hw1 & Hk1 & Hm1).
  assert (Hs1 : serves Sum64String kv1 key) by (unfold serves in *; by rewrite Hk1, Hm1).
  apply doPut_refines in Hput as [[? _]|[Hr Hc]]; [done| |done..].
  apply doGet_refines in Hget as [_ Hg]; [|done|by apply store_wf_decodable]. cbn in Hg.
  cbn [spec_step] in Hr, Hc. unfold cas_spec in Hr, Hc. cbn in Hg.
  assert (Hvis : ∀ p, contents kv1 key = Some p → isExpired (ke_Expires p) (ce_now env') = false →
    visible (ce_now env') (contents kv1) key = Some p).
  { intros p Hcp Hxp. unfold visible. rewrite Hcp. cbn. by rewrite Hxp. }
  fold key x in Hr, Hc. specialize (Hc key).
  assert (Hwr : wrapU64 (PutArgs_Version a) = PutArgs_Version a) by (apply wrapU64_id; unfold isU64; lia).
  rewrite Hwr in *.
  destruct (visible _ _ key) as [cur|] eqn:Hcur; case_decide as Hv; cbn in Hr, Hc; try discriminate;
    unfold aset in Hc; rewrite decide_True in Hc by done;
    rewrite (Hvis _ Hc Hx) in Hg; injection Hg as ->; cbn; split_and!; try done.
  - rewrite Hv, wrapU64_id by (unfold isU64; lia). apply wrapS64_id. unfold isS64. lia.
  - by rewrite Hv.
Qed.

(** C22: what a Put in a migrating shard does at the source.  Answered OK, the
    local compare-and-swap happened, and the forward client returned an answer
    that the code counts as success: none, OK, or ErrNoKey.  Answered
    ErrWrongGroup, the compare-and-swap happened, the forward brought no such
    answer, and the rollback has made a reader of the source see at that time
    exactly what it saw before; answered ErrMaybe, the rollback failed and the
    local write stays.  Answered ErrVersion (the compare-and-swap refused) or
    ErrWrongLeader (the store failed) nothing has changed.  There is no other
    answer, and no other key ever changes for a reader.  The key is not one of
    the reserved [_tx:] keys and the store well formed.  Nothing is said about
    the target: it may have applied a write whose answer was lost, or refused it
    with ErrNoKey. *)
Theorem migrating_put_source env kv a meta kv' r :
  killed kv = false → GetShardState (kv_shardMgr kv) (shardForKey Sum64String (PutArgs_Key a)) = Some meta →
  sm_state meta = MIGRATING → store_wf (kv_store kv) → has_prefix txKeyPrefix (PutArgs_Key a) = false →
  doPut Sum64String env kv a = (kv', r) →
  put_outcome env kv a (target_answer env kv meta a) kv' r.
Proof.
  intros Hk Hm Hst Hw Hp Hput. unfold doPut in Hput.
  rewrite Hk, Hm, decide_False, decide_True in Hput by (done || by rewrite Hst).
  eapply doPutWithForward_spec; [by apply store_wf_decodable|exact Hput].
Qed.

(** a Delete in a migrating shard, at the source. *)
Theorem migrating_delete_atomic env kv a meta kv' r :
  killed kv = false → GetShardState (kv_shardMgr kv) (shardForKey Sum64String (DeleteArgs_Key a)) = Some meta →
  sm_state meta = MIGRATING → store_wf (kv_store kv) → has_prefix txKeyPrefix (DeleteArgs_Key a) = false →
  doDelete Sum64String env kv a = (kv', r) →
  match DeleteReply_Err r with
  | OK =>
      (∃ e, live (ce_now env) (kv_store kv) (DeleteArgs_Key a) = Some e ∧ DeleteReply_OldValue r = ke_Value e) ∧
      (∀ k, contents kv' k = aset (contents kv) (DeleteArgs_Key a) None k) ∧
      (ForwardDelete (ce_dial env) (ce_rpc_Delete env) (ce_range_states env) (kv_shardMgr kv)
         (sm_targetGroup meta) (DeleteArgs_Key a)).2 = true
  | ErrMaybe => True
  | _ => readers_same (ce_now env) kv kv'
  end.
Proof.
  intros Hk Hm Hst Hw Hp Hdel. unfold doDelete in Hdel.
  rewrite Hk, Hm, decide_False, decide_True in Hdel by (done || by rewrite Hst).
  eapply doDeleteWithForward_spec; [by apply store_wf_decodable|exact Hdel].
Qed.

(** a group refuses every access to a shard it has handed over, says where
    the shard went, and changes nothing. *)
Theorem absent_shard_refuses env kv req k meta :
  killed kv = false → point_key req = Some k →
  GetShardState (kv_shardMgr kv) (shardForKey Sum64String k) = Some meta → sm_state meta = ABSENT →
  DoOp Sum64String env kv req = Some (kv,
    match req with
    | ReqGet _ => RepGet (wrongGroupGetReply kv meta)
    | ReqPut _ => RepPut (wrongGroupPutReply kv meta)
    | _ => RepDelete (wrongGroupDeleteReply kv meta)
    end).
Proof.
  intros Hk Hpk Hm Hst. destruct req; simplify_eq/=; unfold doGet, doPut, doDelete;
    rewrite Hk, Hm; rewrite decide_True by done; done.
Qed.

(** expiry removes only what has expired and is not locked: every key the
    reply lists was asked for, was not locked by a transaction, held an entry
    expired at the cutoff and is gone; every other key is untouched. *)
Theorem expire_only_expired kv args kv' r :
  doExpire kv args = Some (kv', r) →
  (∀ k, k ∈ ExpireReply_ExpiredKeys r →
     k ∈ ExpireArgs_Keys args ∧ tm_lockTable (kv_tm kv) !! k = None ∧
     (∃ e, contents kv k = Some e ∧ 0 < ke_Expires e ∧ ke_Expires e ≤ ExpireArgs_Cutoff args) ∧
     contents kv' k = None) ∧
  (∀ k, k ∉ ExpireReply_ExpiredKeys r →
     db_view (st_db (kv_store kv')) !! k = db_view (st_db (kv_store kv)) !! k).
Proof.
  unfold doExpire. destruct (killed kv); [intros [= <- <-]; cbn; set_solver|].
  case_decide; [intros [= <- <-]; cbn; set_solver|]. destruct (tm_locked _); [done|].
  destruct (expire_loop _ _ _ _ _) as [[kv1 ks] olds] eqn:E. intros [= <- <-].
  apply expire_loop_spec in E as (new & -> & Hsub & Hlk & Hin & Hout). cbn.
  assert (Hsame : kv_store (if decide (new = []) then kv1 else
    kv_with_stats kv1 (RecordTTLExpired (kv_stats kv1) (Z.of_nat (length new)))) = kv_store kv1) by by case_decide.
  unfold contents. rewrite Hsame. split; [|done].
  intros k Hk. destruct (Hin k Hk) as (H1 & (e & He & Hx) & H3). split_and!; eauto.
  unfold entry_at. by rewrite H3.
Qed.

(** an unlimited scan is exact: it lists, with value, version and expiry,
    precisely the stored entries under the prefix that have not expired. *)
Theorem scan_exact env kv p limit item :
  limit ≤ 0 → killed kv = false →
  item ∈ ScanReply_Items (doScan env kv {| ScanArgs_Prefix := p; ScanArgs_Limit := limit |}).2 ↔
  ∃ e, has_prefix p (ScanItem_Key item) = true ∧ live (ce_now env) (kv_store kv) (ScanItem_Key item) = Some e ∧
    item = {| ScanItem_Key := ScanItem_Key item; ScanItem_Value := ke_Value e;
              ScanItem_Version := wrapS64 (ke_Version e); ScanItem_Expires := ke_Expires e |}.
Proof.
  intros Hl Hk. unfold doScan. rewrite Hk. cbn. rewrite list_elem_of_omap. unfold live. split.
  - intros ([k e] & Hin & Heq). apply ScanPrefix_elem in Hin as [Hp He]; [|done].
    destruct (isExpired _ _) eqn:Hx; simplify_eq/=. exists e. rewrite He. cbn. unfold isExpired in Hx.
    unfold entry_expired. by rewrite Hx.
  - intros (e & Hp & He & Hit). destruct (entry_at _ _) as [e'|] eqn:He'; [|done]. cbn in He.
    unfold entry_expired in He. destruct (bool_decide _) eqn:Hx; simplify_eq.
    exists (ScanItem_Key item, e). split; [by apply ScanPrefix_elem|]. unfold isExpired. rewrite Hx. by rewrite <- Hit.
Qed.

(** C23: a server restored from another's snapshot.  When the file system and
    the commits of Badger succeed (and the two servers have the same group and
    number of shards, the snapshot's server is alive and well formed, and no two
    prepared transactions write the same key), the snapshot is taken and restored,
    and then: every entry is the same, except for the keys of prepared
    transactions that the restore commits because the coordinator tells COMMITTED;
    the records of every transaction that is not prepared or still undecided, and
    all decision records, are the same, and no commit or abort record is lost; the
    shard states and the epoch are the same; and the lock table holds exactly the
    keys of the prepared transactions that are still undecided. *)
Theorem server_snapshot_roundtrip router order renv kv kv0 :
  (∀ d v, is_Some (db_commit (DB := DB) d v)) → env_ok renv → (∀ l, order l ≡ₚ l) →
  killed kv = false → store_wf (kv_store kv) → ssm_wf (kv_shardMgr kv) → tx_inv (kv_tm kv) →
  0 < ssm_numShards (kv_shardMgr kv) →
  ssm_numShards (kv_shardMgr kv0) = ssm_numShards (kv_shardMgr kv) → kv_groupID kv0 = kv_groupID kv →
  tm_locked (kv_tm kv0) = false → write_sets_disjoint (kv_store kv) →
  ∃ j kv', kv_Snapshot kv = Some j ∧ kv_Restore router order renv kv0 (Some j) = Some kv' ∧
    restored_like router kv kv'.
Proof. apply server_restore. Qed.
End claims.

(** ** Witnesses: group 1 with [a] at version 3, expiring at 50, and [b] at 1 *)
Definition sw_hash (k : string) : Z := Z.of_nat (String.length k) + 4.
Definition sw_store : Store (gmap string json) :=
  {| st_db := <["a" := marshal_kvEntry {| ke_Value := "v"; ke_Version := 3; ke_Expires := 50 |}]>
               (<["b" := marshal_kvEntry {| ke_Value := "w"; ke_Version := 1; ke_Expires := 0 |}]> ∅);
     st_expiryHeap := []; st_tombstones := ∅ |}.
Definition sw0 : KVServer (gmap string json) :=
  {| kv_me := 0; kv_groupID := 1; kv_dead := false; kv_stats := zeroStats;
     kv_shardMgr := newShardStateManager 1 8; kv_tm := NewTxManager sw_store |}.
(** A clock at 10, a target that refuses every forwarded request. *)
Definition sw_env : call_env :=
  {| ce_now := 10; ce_now_store := 10; ce_dial := λ _, true; ce_rpc_Put := λ _ _ _ _, Some "ErrVersion";
     ce_rpc_Delete := λ _ _, None; ce_range_states := map_to_list; ce_router := None |}.
Definition sw_put (ttl : Z) : PutArgs :=
  {| PutArgs_Key := "a"; PutArgs_Value := "x"; PutArgs_Version := 3; PutArgs_TTL := ttl |}.
(** The shard of [a] in a given state, with group 7 as its target. *)
Definition sw_shard (st : ShardState) : KVServer (gmap string json) :=
  (doSetShardState sw0 {| SetShardStateArgs_ShardID := 5; SetShardStateArgs_State := st;
     SetShardStateArgs_TargetGroup := 7; SetShardStateArgs_TopologyEpoch := 2;
     SetShardStateArgs_TargetReplicas := ["n1"] |}).1.

Lemma sw_store_wf : store_wf sw_store.
Proof.
  split; [|apply heap_ok_nil]. repeat (apply user_typed_insert; [|by split]). intros k j. done.
Qed.
Lemma sw_serves : serves sw_hash sw0 "a".
Proof. split; [reflexivity|]. vm_compute. split; discriminate. Qed.

(** Both sides of a closed equation evaluate to the same value. *)
Ltac vm_refl := match goal with |- _ = ?r => vm_cast_no_check (eq_refl r) end.

Definition sw1 : KVServer (gmap string json) := (doPut sw_hash sw_env sw0 (sw_put 0)).1.
Lemma sw1_eq : doPut sw_hash sw_env sw0 (sw_put 0) = (sw1, putReply OK "v").
Proof. vm_refl. Qed.

Lemma server_refines_spec_witness :
  contents sw1 "a" = Some {| ke_Value := "x"; ke_Version := 4; ke_Expires := 0 |}.
Proof.
  assert (E : DoOp sw_hash sw_env sw0 (ReqPut (sw_put 0)) = Some (sw1, RepPut (putReply OK "v"))).
  { cbn [DoOp]. by rewrite sw1_eq. }
  destruct (server_refines_spec sw_hash sw_env sw0 (ReqPut (sw_put 0)) sw1 _ "a" eq_refl sw_serves
    sw_store_wf ltac:(reflexivity) E) as [[Hr _]|[_ Hc]].
  - exfalso. destruct Hr as [?|[?|?]]; discriminate.
  - rewrite (Hc "a"). vm_refl.
Defined.

Lemma read_your_write_witness :
  GetReply_Version (doGet sw_hash sw_env sw1 {| GetArgs_Key := "a" |}).2 = 4.
Proof.
  destruct (doGet sw_hash sw_env sw1 {| GetArgs_Key := "a" |}) as [kv2 r] eqn:E.
  exact (proj2 (proj2 (proj2 (read_your_write sw_hash sw_env sw_env sw0 (sw_put 0) sw1 "v" kv2 r sw_serves sw_store_wf
    ltac:(reflexivity) ltac:(done) ltac:(reflexivity) sw1_eq E)))).
Defined.

Lemma sw_shard_state st :
  GetShardState (kv_shardMgr (sw_shard st)) 5 =
  Some {| sm_state := st; sm_targetGroup := 7; sm_targetReplicas := ["n1"] |}.
Proof. reflexivity. Qed.

Lemma migrating_put_source_witness :
  PutReply_Err (doPut sw_hash sw_env (sw_shard MIGRATING) (sw_put 0)).2 = ErrWrongGroup ∧
  readers_same 10 (sw_shard MIGRATING) (doPut sw_hash sw_env (sw_shard MIGRATING) (sw_put 0)).1.
Proof.
  destruct (doPut sw_hash sw_env (sw_shard MIGRATING) (sw_put 0)) as [kv' r] eqn:E.
  assert (Hr : PutReply_Err r = ErrWrongGroup).
  { assert (PutReply_Err (doPut sw_hash sw_env (sw_shard MIGRATING) (sw_put 0)).2 = ErrWrongGroup) as Hx
      by (vm_compute; reflexivity). by rewrite E in Hx. }
  split; [exact Hr|].
  pose proof (migrating_put_source sw_hash sw_env (sw_shard MIGRATING) (sw_put 0) _ kv' r eq_refl
    (sw_shard_state MIGRATING) eq_refl sw_store_wf ltac:(reflexivity) E) as Ha.
  unfold put_outcome in Ha. rewrite Hr in Ha. exact (proj2 (proj2 Ha)).
Defined.

Lemma migrating_delete_atomic_witness :
  readers_same 10 (sw_shard MIGRATING) (doDelete sw_hash sw_env (sw_shard MIGRATING) {| DeleteArgs_Key := "a" |}).1.
Proof.
  destruct (doDelete sw_hash sw_env (sw_shard MIGRATING) {| DeleteArgs_Key := "a" |}) as [kv' r] eqn:E.
  assert (Hr : DeleteReply_Err r = ErrWrongGroup).
  { assert (DeleteReply_Err (doDelete sw_hash sw_env (sw_shard MIGRATING) {| DeleteArgs_Key := "a" |}).2 = ErrWrongGroup) as Hx
      by (vm_compute; reflexivity). by rewrite E in Hx. }
  pose proof (migrating_delete_atomic sw_hash sw_env (sw_shard MIGRATING) {| DeleteArgs_Key := "a" |} _ kv' r eq_refl
    (sw_shard_state MIGRATING) eq_refl sw_store_wf ltac:(reflexivity) E) as Ha.
  rewrite Hr in Ha. exact Ha.
Defined.

Lemma absent_shard_refuses_witness :
  ∃ r, DoOp sw_hash sw_env (sw_shard ABSENT) (ReqPut (sw_put 0)) = Some (sw_shard ABSENT, RepPut r) ∧
    PutReply_HintGroupID r = 7.
Proof.
  eexists. split; [exact (absent_shard_refuses sw_hash sw_env (sw_shard ABSENT) (ReqPut (sw_put 0)) "a" _
    eq_refl eq_refl (sw_shard_state ABSENT) eq_refl)|reflexivity].
Defined.

Lemma expire_only_expired_witness :
  ∃ kv' r, doExpire sw0 {| ExpireArgs_Keys := ["a"; "b"]; ExpireArgs_Cutoff := 60 |} = Some (kv', r) ∧
    ExpireReply_ExpiredKeys r = ["a"] ∧ contents kv' "a" = None.
Proof.
  do 2 eexists. split; [reflexivity|]. split; [vm_compute; reflexivity|].
  refine (proj2 (proj2 (proj2 (proj1 (expire_only_expired sw0
    {| ExpireArgs_Keys := ["a"; "b"]; ExpireArgs_Cutoff := 60 |} _ _ eq_refl) "a" _)))).
  vm_compute. left.
Defined.

Lemma scan_exact_witness :
  {| ScanItem_Key := "b"; ScanItem_Value := "w"; ScanItem_Version := 1; ScanItem_Expires := 0 |}
    ∈ ScanReply_Items (doScan sw_env sw0 {| ScanArgs_Prefix := "b"; ScanArgs_Limit := 0 |}).2.
Proof.
  apply (scan_exact sw_env sw0 "b" 0); [lia|reflexivity|].
  exists {| ke_Value := "w"; ke_Version := 1; ke_Expires := 0 |}. split; [reflexivity|]. split; reflexivity.
Defined.

(** A server with a prepared transaction [t1] on the keys [a] and [b]. *)
Definition sw_tx : KVServer (gmap string json) :=
  {| kv_me := 0; kv_groupID := 1; kv_dead := false; kv_stats := zeroStats;
     kv_shardMgr := newShardStateManager 1 8; kv_tm := tw1 |}.
Lemma sw_tx_store_wf : store_wf (kv_store sw_tx).
Proof.
  assert (st_db (kv_store sw_tx) = <[txKeyPrefix +:+ "prepare:t1" := marshal_prepared (prepare_record 7 (tw_prepare "t1" 3 []))]>
    (<["a" := marshal_kvEntry {| ke_Value := "v"; ke_Version := 3; ke_Expires := 0 |}]> ∅)) as Hv by reflexivity.
  split; [|apply heap_ok_nil]. change (user_typed (st_db (kv_store sw_tx))). rewrite Hv.
  apply user_typed_tx, user_typed_insert; [|by split]. intros k j. done.
Qed.
Lemma server_snapshot_roundtrip_witness :
  ∃ j kv', kv_Snapshot sw_tx = Some j ∧
    kv_Restore None id wit_env (sw_shard ABSENT) (Some j) = Some kv' ∧
    restored_like None sw_tx kv'.
Proof.
  refine (server_snapshot_roundtrip None id wit_env sw_tx (sw_shard ABSENT)
    _ _ _ _ sw_tx_store_wf _ tw1_inv _ _ _ _ _); try reflexivity.
  - intros d v. by exists v.
  - apply newShardStateManager_wf. lia.
  - intros t1 t2 r1 r2 k Hne E1 E2. apply tw1_only in E1 as ->. by apply tw1_only in E2 as ->.
Defined.
(** The restored server holds the locks of [t1] again. *)
Example sw_tx_locks :
  (j ← kv_Snapshot sw_tx; kv' ← kv_Restore None id wit_env (sw_shard ABSENT) (Some j);
   Some (tm_lockTable (kv_tm kv') !! "a", tm_lockTable (kv_tm kv') !! "b")) = Some (Some "t1", Some "t1").
Proof. by vm_compute. Qed.

(** a very long time-to-live is lost: 300 years in seconds overflow
    [now + ttl * time.Second], the expiry becomes negative, and the entry is
    stored as one that never expires. *)
Theorem huge_ttl_never_expires :
  let ttl := 300 * 365 * 24 * 3600 in
  absoluteExpiryFromTTL ttl 1700000000000000000 < 0 ∧
  ∀ now, isExpired (absoluteExpiryFromTTL ttl 1700000000000000000) now = false.
Proof.
  cbv zeta. assert (Hx : absoluteExpiryFromTTL (300 * 365 * 24 * 3600) 1700000000000000000 < 0) by done.
  split; [done|]. intros now. unfold isExpired. apply bool_decide_false. lia.
Qed.

(** a scan with the empty prefix shows transaction bookkeeping to the
    client: after a Prepare the reply lists the record key [_tx:prepare:t1] as
    an entry with an empty value at version 0. *)
Theorem scan_leaks_tx_records :
  let kv := kv_with_tm sw0 (after (kv_tm sw0) (Prepare 1 None 7 (kv_tm sw0) (tw_prepare "t1" 3 []))) in
  {| ScanItem_Key := "_tx:prepare:t1"; ScanItem_Value := ""; ScanItem_Version := 0; ScanItem_Expires := 0 |}
    ∈ ScanReply_Items (doScan sw_env kv {| ScanArgs_Prefix := ""; ScanArgs_Limit := 0 |}).2.
Proof. vm_compute. left. Qed.
