(* ===== verification/Wal.v ===== *)
(** * pkg/wal/logger.go: the write-ahead log of applied operations

    The log is a file of JSON lines.  [Logger] is the record of the file's
    content and of what the methods test and set; the request channel and the
    batch of the worker are queues of lines.  A write may fail or be cut off by
    a crash anywhere; the outcome comes with the environment of the call. *)
From stdpp Require Import prelude strings.
From Stdlib Require Import Ascii.
From stdpp Require Import options.
From S2P Require Import Prelude Json JsonText.
Local Open Scope Z_scope.

Record Entry := {
  Entry_RaftIndex : Z; Entry_Term : Z; Entry_NodeID : Z; Entry_ReqID : Z; Entry_OpType : string;
  Entry_Key : string; Entry_Value : string; Entry_Version : Z; Entry_TTL : Z;
  Entry_Keys : list string; Entry_Versions : list Z;
  Entry_ShardID : Z; Entry_ShardState : Z; Entry_TargetGroup : Z; Entry_Epoch : Z;
  Entry_Replicas : list string; Entry_Cutoff : Z;
  Entry_TxReadKeys : list string; Entry_TxReadVersions : list Z;
  Entry_TxWriteKeys : list string; Entry_TxWriteValues : list string;
  Entry_TxWriteVersions : list Z; Entry_TxWriteDeletes : list bool;
  Entry_TxTimeoutMs : Z; Entry_TxCoordinatorGroup : Z; Entry_TxParticipantGroups : list Z;
  Entry_TxDecision : Z; Entry_Timestamp : Z }.

(** ** Encoding *)

Definition f_int (name : string) (z : Z) : string * bool * json := (name, bool_decide (z = 0), JNum z).
Definition f_str (name s : string) : string * bool * json := (name, bool_decide (s = ""), JStr s).
Definition f_strs (name : string) (l : list string) : string * bool * json :=
  (name, bool_decide (l = []), JArr (JStr <$> l)).
Definition f_ints (name : string) (l : list Z) : string * bool * json :=
  (name, bool_decide (l = []), JArr (JNum <$> l)).
Definition f_bools (name : string) (l : list bool) : string * bool * json :=
  (name, bool_decide (l = []), JArr (JBool <$> l)).

Definition Entry_fields (e : Entry) : list (string * bool * json) :=
  [("raft_index", false, JNum (Entry_RaftIndex e)); ("term", false, JNum (Entry_Term e));
   ("node_id", false, JNum (Entry_NodeID e)); ("req_id", false, JNum (Entry_ReqID e));
   ("op_type", false, JStr (Entry_OpType e)); f_str "key" (Entry_Key e); f_str "value" (Entry_Value e);
   f_int "version" (Entry_Version e); f_int "ttl" (Entry_TTL e); f_strs "keys" (Entry_Keys e);
   f_ints "versions" (Entry_Versions e); f_int "shard_id" (Entry_ShardID e);
   f_int "shard_state" (Entry_ShardState e); f_int "target_group" (Entry_TargetGroup e);
   f_int "epoch" (Entry_Epoch e); f_strs "replicas" (Entry_Replicas e); f_int "cutoff" (Entry_Cutoff e);
   f_strs "tx_read_keys" (Entry_TxReadKeys e); f_ints "tx_read_versions" (Entry_TxReadVersions e);
   f_strs "tx_write_keys" (Entry_TxWriteKeys e); f_strs "tx_write_values" (Entry_TxWriteValues e);
   f_ints "tx_write_versions" (Entry_TxWriteVersions e); f_bools "tx_write_deletes" (Entry_TxWriteDeletes e);
   f_int "tx_timeout_ms" (Entry_TxTimeoutMs e); f_int "tx_coordinator_group" (Entry_TxCoordinatorGroup e);
   f_ints "tx_participant_groups" (Entry_TxParticipantGroups e); f_int "tx_decision" (Entry_TxDecision e);
   ("timestamp", false, JNum (Entry_Timestamp e))].

Definition marshal_Entry (e : Entry) : json := JObj (members (Entry_fields e)).

Definition unmarshal_Entry (j : json) : option Entry :=
  m ← as_struct j;
  let int n := as_int64 (jfield n m) in
  let str n := as_string (jfield n m) in
  let strs n := as_slice as_string_elem (jfield n m) in
  let ints n := as_slice as_int64_elem (jfield n m) in
  ri ← int "raft_index"; tm ← int "term"; ni ← int "node_id"; rq ← int "req_id"; op ← str "op_type";
  k ← str "key"; v ← str "value"; ver ← int "version"; ttl ← int "ttl"; ks ← strs "keys";
  vs ← ints "versions"; si ← int "shard_id"; ss ← as_int32 (jfield "shard_state" m);
  tg ← int "target_group"; ep ← int "epoch"; rep ← strs "replicas"; cut ← int "cutoff";
  rk ← strs "tx_read_keys"; rv ← ints "tx_read_versions"; wk ← strs "tx_write_keys";
  wv ← strs "tx_write_values"; wver ← ints "tx_write_versions";
  wd ← as_slice as_bool_elem (jfield "tx_write_deletes" m);
  tmo ← int "tx_timeout_ms"; cg ← int "tx_coordinator_group"; pg ← ints "tx_participant_groups";
  dec ← int "tx_decision"; ts ← int "timestamp";
  Some {| Entry_RaftIndex := ri; Entry_Term := tm; Entry_NodeID := ni; Entry_ReqID := rq;
          Entry_OpType := op; Entry_Key := k; Entry_Value := v; Entry_Version := ver; Entry_TTL := ttl;
          Entry_Keys := ks; Entry_Versions := vs; Entry_ShardID := si; Entry_ShardState := ss;
          Entry_TargetGroup := tg; Entry_Epoch := ep; Entry_Replicas := rep; Entry_Cutoff := cut;
          Entry_TxReadKeys := rk; Entry_TxReadVersions := rv; Entry_TxWriteKeys := wk;
          Entry_TxWriteValues := wv; Entry_TxWriteVersions := wver; Entry_TxWriteDeletes := wd;
          Entry_TxTimeoutMs := tmo; Entry_TxCoordinatorGroup := cg; Entry_TxParticipantGroups := pg;
          Entry_TxDecision := dec; Entry_Timestamp := ts |}.

(** The numbers of an entry fit their Go types. *)
Definition Entry_wf (e : Entry) : Prop :=
  Forall isS64 [Entry_RaftIndex e; Entry_Term e; Entry_NodeID e; Entry_ReqID e; Entry_Version e;
    Entry_TTL e; Entry_ShardID e; Entry_TargetGroup e; Entry_Epoch e; Entry_Cutoff e;
    Entry_TxTimeoutMs e; Entry_TxCoordinatorGroup e; Entry_TxDecision e; Entry_Timestamp e] ∧
  isS32 (Entry_ShardState e) ∧
  Forall isS64 (Entry_Versions e) ∧ Forall isS64 (Entry_TxReadVersions e) ∧
  Forall isS64 (Entry_TxWriteVersions e) ∧ Forall isS64 (Entry_TxParticipantGroups e).
#[global] Instance Entry_wf_dec e : Decision (Entry_wf e).
Proof. unfold Entry_wf. apply _. Defined.

Ltac in_fields := unfold Entry_fields; repeat first [by left|right].

Lemma Entry_names e : NoDup (Entry_fields e).*1.*1.
Proof. apply (bool_decide_unpack (NoDup _)). by vm_compute. Qed.

(** Reading one field of an encoded struct back, by the type of the field. *)
Section fields.
Context (fs : list (string * bool * json)) (Hnd : NoDup fs.*1.*1).

Lemma field_num n z : (n, false, JNum z) ∈ fs → isS64 z → as_int64 (jfield n (members fs)) = Some z.
Proof using Hnd. intros Hin Hz. rewrite (jfield_members _ _ _ _ Hnd Hin). by apply as_int64_num. Qed.

Lemma field_int n z : f_int n z ∈ fs → isS64 z → as_int64 (jfield n (members fs)) = Some z.
Proof using Hnd. intros Hin Hz. rewrite (jfield_members _ _ _ _ Hnd Hin). by apply as_int64_omit. Qed.

Lemma field_int32 n z : f_int n z ∈ fs → isS32 z → as_int32 (jfield n (members fs)) = Some z.
Proof using Hnd. intros Hin Hz. rewrite (jfield_members _ _ _ _ Hnd Hin). by apply as_int32_omit. Qed.

Lemma field_string n s : (n, false, JStr s) ∈ fs → as_string (jfield n (members fs)) = Some s.
Proof using Hnd. intros Hin. by rewrite (jfield_members _ _ _ _ Hnd Hin). Qed.

Lemma field_str n s : f_str n s ∈ fs → as_string (jfield n (members fs)) = Some s.
Proof using Hnd. intros Hin. rewrite (jfield_members _ _ _ _ Hnd Hin). apply as_string_omit. Qed.

Lemma field_strs n l : f_strs n l ∈ fs → as_slice as_string_elem (jfield n (members fs)) = Some l.
Proof using Hnd.
  intros Hin. rewrite (jfield_members _ _ _ _ Hnd Hin). apply as_slice_omit. by apply Forall_forall.
Qed.

Lemma field_bools n l : f_bools n l ∈ fs → as_slice as_bool_elem (jfield n (members fs)) = Some l.
Proof using Hnd.
  intros Hin. rewrite (jfield_members _ _ _ _ Hnd Hin). apply as_slice_omit. by apply Forall_forall.
Qed.

Lemma field_ints n l :
  f_ints n l ∈ fs → Forall isS64 l → as_slice as_int64_elem (jfield n (members fs)) = Some l.
Proof using Hnd.
  intros Hin Hl. rewrite (jfield_members _ _ _ _ Hnd Hin). apply as_slice_omit.
  eapply Forall_impl; [exact Hl|]. intros z Hz. by apply as_int64_num.
Qed.

End fields.

Lemma unmarshal_marshal_Entry e : Entry_wf e → unmarshal_Entry (marshal_Entry e) = Some e.
Proof.
  intros (Hi & Hs & Hv & Hr & Hw & Hp). repeat (apply Forall_cons in Hi as [? Hi]). clear Hi.
  pose proof (Entry_names e) as Hnd.
  unfold unmarshal_Entry, marshal_Entry. cbn [as_struct mbind option_bind]. cbv zeta.
  rewrite (field_num _ Hnd "raft_index" (Entry_RaftIndex e)), (field_num _ Hnd "term" (Entry_Term e)),
    (field_num _ Hnd "node_id" (Entry_NodeID e)), (field_num _ Hnd "req_id" (Entry_ReqID e)),
    (field_string _ Hnd "op_type" (Entry_OpType e)), (field_str _ Hnd "key" (Entry_Key e)),
    (field_str _ Hnd "value" (Entry_Value e)), (field_int _ Hnd "version" (Entry_Version e)),
    (field_int _ Hnd "ttl" (Entry_TTL e)), (field_strs _ Hnd "keys" (Entry_Keys e)),
    (field_ints _ Hnd "versions" (Entry_Versions e)), (field_int _ Hnd "shard_id" (Entry_ShardID e)),
    (field_int32 _ Hnd "shard_state" (Entry_ShardState e)),
    (field_int _ Hnd "target_group" (Entry_TargetGroup e)), (field_int _ Hnd "epoch" (Entry_Epoch e)),
    (field_strs _ Hnd "replicas" (Entry_Replicas e)), (field_int _ Hnd "cutoff" (Entry_Cutoff e)),
    (field_strs _ Hnd "tx_read_keys" (Entry_TxReadKeys e)),
    (field_ints _ Hnd "tx_read_versions" (Entry_TxReadVersions e)),
    (field_strs _ Hnd "tx_write_keys" (Entry_TxWriteKeys e)),
    (field_strs _ Hnd "tx_write_values" (Entry_TxWriteValues e)),
    (field_ints _ Hnd "tx_write_versions" (Entry_TxWriteVersions e)),
    (field_bools _ Hnd "tx_write_deletes" (Entry_TxWriteDeletes e)),
    (field_int _ Hnd "tx_timeout_ms" (Entry_TxTimeoutMs e)),
    (field_int _ Hnd "tx_coordinator_group" (Entry_TxCoordinatorGroup e)),
    (field_ints _ Hnd "tx_participant_groups" (Entry_TxParticipantGroups e)),
    (field_int _ Hnd "tx_decision" (Entry_TxDecision e)),
    (field_num _ Hnd "timestamp" (Entry_Timestamp e)) by (done || in_fields).
  cbn [mbind option_bind]. by destruct e.
Qed.

(** ** The file *)

Definition nl : ascii := ascii_of_N 10.
Definition line (e : Entry) : text := print_json (marshal_Entry e) ++ [nl].

(** [reader.ReadBytes('\n')]: up to and including the delimiter, or what is
    left of the file (with [io.EOF]). *)
Fixpoint ReadBytes (s : text) : text * text :=
  match s with
  | [] => ([], [])
  | c :: s => if decide (c = nl) then ([c], s) else let '(l, r) := ReadBytes s in (c :: l, r)
  end.
Definition hasNewline (l : text) : bool := bool_decide (last l = Some nl).

(** [bytes.TrimSpace] on ASCII. *)
Definition is_space (c : ascii) : bool := bool_decide ((9 ≤ code c ∧ code c ≤ 13) ∨ code c = 32)%N.
Fixpoint trim_left (s : text) : text :=
  match s with
  | c :: s' => if is_space c then trim_left s' else s
  | [] => []
  end.
Definition TrimSpace (s : text) : text := reverse (trim_left (reverse (trim_left s))).

Inductive wal_err :=
  | ErrNotReplayed | ErrWalClosed | ErrUnavailable (e : option nat) | ErrQueueFull | ErrWrite (n : nat)
  | ErrDecodeReplay | ErrDecodeTruncate | ErrHandler (raftIndex : Z).
#[global] Instance wal_err_eq_dec : EqDecision wal_err.
Proof. solve_decision. Defined.

(** The loop of [replayFile] over the content, with the handler as a function
    on its own state.  A round that does not end the loop consumes a newline,
    so the length of the content is enough fuel. *)
Fixpoint wal_replay_loop {A} (fuel : nat) (handler : A → Entry → A * bool) (a : A) (s : text)
    : A * option wal_err :=
  match fuel with
  | O => (a, None)
  | S fuel =>
      let '(ln, rest) := ReadBytes s in
      let eof := negb (hasNewline ln) in
      let raw := TrimSpace ln in
      if decide (raw = []) then if eof then (a, None) else wal_replay_loop fuel handler a rest
      else
        match parse_json raw ≫= unmarshal_Entry with
        | None => if eof then (a, None) else (a, Some ErrDecodeReplay)
        | Some entry =>
            let '(a, ok) := handler a entry in
            if negb ok then (a, Some (ErrHandler (Entry_RaftIndex entry)))
            else if eof then (a, None) else wal_replay_loop fuel handler a rest
        end
  end.
Definition replayFile {A} (handler : A → Entry → A * bool) (a : A) (content : text) : A * option wal_err :=
  wal_replay_loop (S (length content)) handler a content.

(** The loop of [rewriteWALAfterTruncate]: the new content, or [None] when a
    line in the middle cannot be decoded (the file is then left alone). *)
Fixpoint rewrite_loop (fuel : nat) (upToIndex : Z) (s tmp : text) : option text :=
  match fuel with
  | O => Some tmp
  | S fuel =>
      let '(ln, rest) := ReadBytes s in
      let eof := negb (hasNewline ln) in
      let raw := TrimSpace ln in
      if decide (raw = []) then if eof then Some tmp else rewrite_loop fuel upToIndex rest tmp
      else
        match parse_json raw ≫= unmarshal_Entry with
        | None => if eof then Some tmp else None
        | Some entry =>
            let tmp := if decide (upToIndex < Entry_RaftIndex entry) then tmp ++ raw ++ [nl] else tmp in
            if eof then Some tmp else rewrite_loop fuel upToIndex rest tmp
        end
  end.
Definition rewriteWALAfterTruncate (content : text) (upToIndex : Z) : option text :=
  rewrite_loop (S (length content)) upToIndex content [].

(** ** The logger *)

Record WALRequest := { wr_Data : text; wr_Done : bool (* someone waits for the result *) }.

Record Logger := mkLogger {
  lg_enabled : bool; lg_syncOnWrite : bool;
  lg_file : bool;                    (* the file is open *)
  lg_content : text;
  lg_reqCh : list WALRequest; lg_batch : list WALRequest;
  lg_workerAlive : bool; lg_workerErr : bool;
  lg_closing : bool; lg_fatalErr : option wal_err; lg_replayDone : bool }.

(** What a write does: all of it, or a part and an error. *)
Inductive write_result := WriteOK | WriteFail (written : nat).

Definition lg_with_queue (q : list WALRequest) (l : Logger) : Logger :=
  mkLogger (lg_enabled l) (lg_syncOnWrite l) (lg_file l) (lg_content l) q (lg_batch l)
    (lg_workerAlive l) (lg_workerErr l) (lg_closing l) (lg_fatalErr l) (lg_replayDone l).
Definition lg_with_batch (b : list WALRequest) (l : Logger) : Logger :=
  mkLogger (lg_enabled l) (lg_syncOnWrite l) (lg_file l) (lg_content l) (lg_reqCh l) b
    (lg_workerAlive l) (lg_workerErr l) (lg_closing l) (lg_fatalErr l) (lg_replayDone l).

Definition startWorkerLocked (l : Logger) : Logger * option wal_err :=
  if negb (lg_enabled l) then (l, None)
  else if negb (lg_file l) then (l, Some ErrWalClosed)
  else if lg_workerAlive l then (l, None)
  else (mkLogger true (lg_syncOnWrite l) (lg_file l) (lg_content l) [] [] true false
          (lg_closing l) (lg_fatalErr l) (lg_replayDone l), None).

(** [NewLogger] on an existing or empty file that can be opened. *)
Definition NewLogger (content : text) (enabled syncOnWrite : bool) : Logger :=
  let l := mkLogger enabled syncOnWrite enabled content [] [] false false false None false in
  if enabled then (startWorkerLocked l).1 else l.

Definition writeAndSync (content payload : text) (w : write_result) : text * option wal_err :=
  if decide (payload = []) then (content, None)
  else match w with
       | WriteOK => (content ++ payload, None)
       | WriteFail n => (content ++ take n payload, Some (ErrWrite n))
       end.

(** [setFatalErr]: the first error stays and the file is closed. *)
Definition setFatalErr (e : wal_err) (l : Logger) : Logger :=
  mkLogger (lg_enabled l) (lg_syncOnWrite l) false (lg_content l) (lg_reqCh l) (lg_batch l)
    (lg_workerAlive l) (lg_workerErr l) (lg_closing l)
    (match lg_fatalErr l with None => Some e | old => old end) (lg_replayDone l).

(** ** The worker

    [w] says how the write of a payload to the file with a given content ends. *)
Section worker.
Variable w : text → text → write_result.

Definition flush (l : Logger) : Logger :=
  if decide (lg_batch l = []) then l
  else if lg_workerErr l then lg_with_batch [] l
  else
    let payload := concat (wr_Data <$> lg_batch l) in
    let '(content, err) := writeAndSync (lg_content l) payload (w (lg_content l) payload) in
    let l := mkLogger (lg_enabled l) (lg_syncOnWrite l) (lg_file l) content (lg_reqCh l) []
               (lg_workerAlive l) (bool_decide (err ≠ None)) (lg_closing l) (lg_fatalErr l) (lg_replayDone l) in
    match err with Some e => setFatalErr e l | None => l end.

(** One request received from the channel. *)
Definition worker_recv (l : Logger) : Logger :=
  match lg_reqCh l with
  | [] => l
  | req :: rest =>
      if lg_workerErr l then lg_with_queue rest l
      else
        let l := lg_with_batch (lg_batch l ++ [req]) (lg_with_queue rest l) in
        if decide (256 ≤ length (lg_batch l))%nat then flush l else l
  end.

(** [stopWorkerLocked]: when both the channel and the stop signal are ready,
    [select] may take either; [k] is the number of requests the worker takes
    before it sees the signal.  What is left in the channel is dropped. *)
Definition stopWorkerLocked (k : nat) (l : Logger) : Logger * option wal_err :=
  if negb (lg_workerAlive l) then (l, None)
  else
    let l := flush (Nat.iter k worker_recv l) in
    let l := mkLogger (lg_enabled l) (lg_syncOnWrite l) (lg_file l) (lg_content l) [] [] false
               (lg_workerErr l) (lg_closing l) (lg_fatalErr l) (lg_replayDone l) in
    (l, match lg_fatalErr l with Some _ => Some (ErrUnavailable None) | None => None end).

(** [restartWorkerAfterMaintenance] with a file that can be opened. *)
Definition restartWorkerAfterMaintenance (l : Logger) : Logger * option wal_err :=
  startWorkerLocked (mkLogger (lg_enabled l) (lg_syncOnWrite l) true (lg_content l) (lg_reqCh l)
    (lg_batch l) (lg_workerAlive l) (lg_workerErr l) (lg_closing l) None (lg_replayDone l)).

(** ** The methods *)

Definition unavailable (l : Logger) : wal_err := ErrUnavailable (if lg_fatalErr l then Some 0%nat else None).

Definition Replay {A} (k : nat) (handler : A → Entry → A * bool) (a : A) (l : Logger)
    : Logger * A * option wal_err :=
  if negb (lg_enabled l) then (l, a, None)
  else if lg_closing l then (l, a, Some ErrWalClosed)
  else if lg_fatalErr l then (l, a, Some (unavailable l))
  else
    let '(l, err) := stopWorkerLocked k l in
    match err with
    | Some e => (l, a, Some e)
    | None =>
        if negb (lg_file l) then (l, a, Some (unavailable l))
        else
          let '(a, err) := replayFile handler a (lg_content l) in
          match err with
          | Some e => ((restartWorkerAfterMaintenance l).1, a, Some e)
          | None =>
              let '(l, err) := startWorkerLocked (mkLogger (lg_enabled l) (lg_syncOnWrite l) (lg_file l)
                (lg_content l) (lg_reqCh l) (lg_batch l) (lg_workerAlive l) (lg_workerErr l)
                (lg_closing l) (lg_fatalErr l) true) in
              (l, a, err)
          end
    end.

(** The tests [Append] and [AppendAsync] share. *)
Definition append_refused (l : Logger) : option wal_err :=
  if negb (lg_replayDone l) then Some ErrNotReplayed
  else if negb (lg_file l) then Some (unavailable l)
  else if lg_closing l || negb (lg_workerAlive l) then Some ErrWalClosed
  else if lg_fatalErr l then Some (unavailable l)
  else None.

Definition stamped (now : Z) (e : Entry) : Entry :=
  if decide (Entry_Timestamp e = 0) then
    {| Entry_RaftIndex := Entry_RaftIndex e; Entry_Term := Entry_Term e; Entry_NodeID := Entry_NodeID e;
       Entry_ReqID := Entry_ReqID e; Entry_OpType := Entry_OpType e; Entry_Key := Entry_Key e;
       Entry_Value := Entry_Value e; Entry_Version := Entry_Version e; Entry_TTL := Entry_TTL e;
       Entry_Keys := Entry_Keys e; Entry_Versions := Entry_Versions e; Entry_ShardID := Entry_ShardID e;
       Entry_ShardState := Entry_ShardState e; Entry_TargetGroup := Entry_TargetGroup e;
       Entry_Epoch := Entry_Epoch e; Entry_Replicas := Entry_Replicas e; Entry_Cutoff := Entry_Cutoff e;
       Entry_TxReadKeys := Entry_TxReadKeys e; Entry_TxReadVersions := Entry_TxReadVersions e;
       Entry_TxWriteKeys := Entry_TxWriteKeys e; Entry_TxWriteValues := Entry_TxWriteValues e;
       Entry_TxWriteVersions := Entry_TxWriteVersions e; Entry_TxWriteDeletes := Entry_TxWriteDeletes e;
       Entry_TxTimeoutMs := Entry_TxTimeoutMs e; Entry_TxCoordinatorGroup := Entry_TxCoordinatorGroup e;
       Entry_TxParticipantGroups := Entry_TxParticipantGroups e; Entry_TxDecision := Entry_TxDecision e;
       Entry_Timestamp := now |}
  else e.

Definition AppendAsync (now : Z) (entry : Entry) (l : Logger) : Logger * option wal_err :=
  if negb (lg_enabled l) then (l, None)
  else
    match append_refused l with
    | Some e => (l, Some e)
    | None =>
        if decide (length (lg_reqCh l) < 4096)%nat
        then (lg_with_queue (lg_reqCh l ++ [{| wr_Data := line (stamped now entry); wr_Done := false |}]) l, None)
        else (l, Some ErrQueueFull)
    end.

(** [Append] up to the wait for its result: [None] while the channel is full.
    The caller then waits until the worker has flushed its request. *)
Definition Append_enqueue (now : Z) (entry : Entry) (l : Logger) : option (Logger * option wal_err) :=
  if negb (lg_enabled l) then Some (l, None)
  else
    match append_refused l with
    | Some e => Some (l, Some e)
    | None =>
        if decide (length (lg_reqCh l) < 4096)%nat
        then Some (lg_with_queue (lg_reqCh l ++ [{| wr_Data := line (stamped now entry); wr_Done := true |}]) l, None)
        else None
    end.

Definition TruncateUpTo (k : nat) (upToIndex : Z) (l : Logger) : Logger * option wal_err :=
  if negb (lg_enabled l) then (l, None)
  else
    let '(l, err) := stopWorkerLocked k l in
    match err with
    | Some e => (l, Some e)
    | None =>
        if negb (lg_file l) then (l, Some (unavailable l))
        else
          let content := rewriteWALAfterTruncate (lg_content l) upToIndex in
          let l := mkLogger (lg_enabled l) (lg_syncOnWrite l) false (default (lg_content l) content)
                     (lg_reqCh l) (lg_batch l) (lg_workerAlive l) (lg_workerErr l) (lg_closing l)
                     (lg_fatalErr l) (lg_replayDone l) in
          let '(l, restartErr) := restartWorkerAfterMaintenance l in
          (l, match content with None => Some ErrDecodeTruncate | Some _ => restartErr end)
    end.

Definition Close (k : nat) (l : Logger) : Logger * option wal_err :=
  if negb (lg_enabled l) then (l, None)
  else
    let l := mkLogger (lg_enabled l) (lg_syncOnWrite l) (lg_file l) (lg_content l) (lg_reqCh l)
               (lg_batch l) (lg_workerAlive l) (lg_workerErr l) true (lg_fatalErr l) (lg_replayDone l) in
    let '(l, err) := stopWorkerLocked k l in
    match err with
    | Some e => (l, Some e)
    | None => (mkLogger (lg_enabled l) (lg_syncOnWrite l) false (lg_content l) (lg_reqCh l) (lg_batch l)
                 (lg_workerAlive l) (lg_workerErr l) (lg_closing l) (lg_fatalErr l) (lg_replayDone l), None)
    end.
End worker.
