(* ===== verification/WalProps.v ===== *)
(** * What recovery reads from the write-ahead log

    Replay and truncation of a file that consists of whole lines and possibly a
    line that a crash cut off, the order in which accepted entries reach the
    file, and the ways in which entries get lost. *)
From stdpp Require Import prelude strings.
From Stdlib Require Import Ascii.
From stdpp Require Import options.
From S2P Require Import Prelude Json JsonText Wal.
Local Open Scope Z_scope.

Definition entry_text (e : Entry) : text := print_json (marshal_Entry e).
Definition lines (es : list Entry) : text := concat (line <$> es).

(** The handler applied to the entries in order, up to its first error. *)
Fixpoint replay_fold {A} (handler : A → Entry → A * bool) (a : A) (es : list Entry) : A * option wal_err :=
  match es with
  | [] => (a, None)
  | e :: es => let '(a, ok) := handler a e in
               if negb ok then (a, Some (ErrHandler (Entry_RaftIndex e))) else replay_fold handler a es
  end.

(** ** Lines *)

Lemma forallb_fmap_true {A} (f : A → json) l : (∀ x, plain (f x) = true) → forallb plain (f <$> l) = true.
Proof. intros Hf. induction l; [done|]. cbn. by rewrite Hf. Qed.

Lemma fields_plain e : Forall (λ f, plain f.2 = true) (Entry_fields e).
Proof.
  unfold Entry_fields. repeat (apply Forall_cons; split); try apply Forall_nil; try done;
    by apply forallb_fmap_true.
Qed.

Lemma marshal_plain e : plain (marshal_Entry e) = true.
Proof.
  cbn [marshal_Entry plain]. apply Is_true_true, forallb_True. unfold members.
  apply Forall_bind. eapply Forall_impl; [apply fields_plain|]. intros [[n b] j] Hj. unfold omit_if. cbn [fst snd] in *.
  destruct b; [constructor|]. apply Forall_singleton. cbn [snd]. by rewrite Hj.
Qed.

Lemma entry_text_parse e : Entry_wf e → parse_json (entry_text e) ≫= unmarshal_Entry = Some e.
Proof.
  intros Hw. unfold entry_text. rewrite parse_json_print by apply marshal_plain.
  by apply unmarshal_marshal_Entry.
Qed.

Lemma ReadBytes_line t s : no_newline t → ReadBytes (t ++ nl :: s) = (t ++ [nl], s).
Proof.
  induction 1 as [|c t Hc _ IH]; [done|]. cbn [ReadBytes app]. rewrite decide_False by (by intros ->). by rewrite IH.
Qed.
Lemma ReadBytes_last t : no_newline t → ReadBytes t = (t, []).
Proof.
  induction 1 as [|c t Hc _ IH]; [done|]. cbn [ReadBytes app]. rewrite decide_False by (by intros ->). by rewrite IH.
Qed.
Lemma hasNewline_last t : no_newline t → hasNewline t = false.
Proof.
  intros Ht. apply bool_decide_eq_false. intros E. apply last_Some in E as [l ->].
  by apply Forall_app in Ht as [_ [? _]%Forall_cons].
Qed.

Lemma trim_left_suffix s : ∃ p, s = p ++ trim_left s.
Proof.
  induction s as [|c s [p IH]]; [by exists []|]. cbn. destruct (is_space c); [|by exists []].
  exists (c :: p). cbn. by f_equal.
Qed.

(** Trimming a text that begins with a brace leaves a prefix of it. *)
Lemma TrimSpace_prefix s : ∃ p, "{"%char :: s = TrimSpace ("{"%char :: s) ++ p.
Proof.
  unfold TrimSpace. change (trim_left ("{"%char :: s)) with ("{"%char :: s).
  destruct (trim_left_suffix (reverse ("{"%char :: s))) as [p Hp]. exists (reverse p).
  rewrite <-reverse_app, <-Hp. by rewrite reverse_involutive.
Qed.
Lemma trim_right s c p : is_space c = false → Forall (λ c, is_space c = true) p →
  reverse (trim_left (reverse (s ++ c :: p))) = s ++ [c].
Proof.
  intros Hc Hp. rewrite reverse_app, reverse_cons, <-app_assoc.
  assert (∀ l r, Forall (λ c, is_space c = true) l → trim_left (l ++ r) = trim_left r) as Hl.
  { intros l r. induction 1 as [|x l Hx _ IH]; [done|]. cbn. by rewrite Hx. }
  rewrite Hl by (by apply Forall_reverse). cbn [app trim_left]. rewrite Hc.
  by rewrite reverse_cons, reverse_involutive.
Qed.
Lemma TrimSpace_braces s : TrimSpace ("{"%char :: s ++ ["}"%char]) = "{"%char :: s ++ ["}"%char].
Proof. apply (trim_right ("{"%char :: s) "}"%char []); [done|constructor]. Qed.
Lemma TrimSpace_line s : TrimSpace (("{"%char :: s ++ ["}"%char]) ++ [nl]) = "{"%char :: s ++ ["}"%char].
Proof.
  rewrite app_comm_cons, <-app_assoc.
  apply (trim_right ("{"%char :: s) "}"%char [nl]); [done|by repeat constructor].
Qed.

Lemma entry_text_shape e : ∃ s, entry_text e = "{"%char :: s ++ ["}"%char].
Proof. by eexists. Qed.

(** Reading one whole line of the file. *)
Lemma whole_line e s : Entry_wf e →
  ReadBytes (line e ++ s) = (line e, s) ∧ hasNewline (line e) = true ∧
  TrimSpace (line e) = entry_text e ∧ entry_text e ≠ [] ∧
  parse_json (entry_text e) ≫= unmarshal_Entry = Some e.
Proof.
  intros Hw. destruct (entry_text_shape e) as [t Et]. unfold line. fold (entry_text e). split_and!.
  - rewrite <-app_assoc. apply ReadBytes_line, print_no_newline.
  - apply bool_decide_eq_true. by rewrite last_snoc.
  - by rewrite Et, TrimSpace_line.
  - by rewrite Et.
  - by apply entry_text_parse.
Qed.

(** Reading what is left of a line that was cut off: nothing can be decoded
    unless only the newline is missing. *)
Lemma cut_line e q t : Entry_wf e → entry_text e = q ++ t →
  ReadBytes q = (q, []) ∧ hasNewline q = false ∧
  if bool_decide (t = []) then TrimSpace q = entry_text e ∧ entry_text e ≠ [] ∧
    parse_json (entry_text e) ≫= unmarshal_Entry = Some e
  else TrimSpace q = [] ∨ parse_json (TrimSpace q) = None.
Proof.
  intros Hw E. assert (no_newline q) as Hq.
  { pose proof (print_no_newline (marshal_Entry e)) as Hn. fold (entry_text e) in Hn. rewrite E in Hn.
    by apply Forall_app in Hn as [? _]. }
  split; [by apply ReadBytes_last|]. split; [by apply hasNewline_last|].
  destruct (entry_text_shape e) as [s Es]. case_bool_decide as Ht.
  - subst t. rewrite app_nil_r in E. subst q. split_and!; [by rewrite Es, TrimSpace_braces|by rewrite Es|].
    by apply entry_text_parse.
  - destruct q as [|c q]; [by left|]. right. rewrite Es in E. injection E as <- E.
    destruct (TrimSpace_prefix q) as [p Hp].
    apply (parse_json_cut (members (Entry_fields e)) _ (p ++ t)).
    + apply marshal_plain.
    + change (print_json (JObj (members (Entry_fields e)))) with (entry_text e). rewrite Es.
      change ("{"%char :: s ++ ["}"%char] = TrimSpace ("{"%char :: q) ++ p ++ t).
      rewrite app_assoc, <-Hp. cbn. by f_equal.
    + intros [_ ?]%app_eq_nil. done.
Qed.

Lemma replay_line {A} (h : A → Entry → A * bool) f a e s : Entry_wf e →
  wal_replay_loop (S f) h a (line e ++ s) =
  let '(a, ok) := h a e in
  if negb ok then (a, Some (ErrHandler (Entry_RaftIndex e))) else wal_replay_loop f h a s.
Proof.
  intros Hw. destruct (whole_line e s Hw) as (E1 & E2 & E3 & E4 & E5). cbn [wal_replay_loop].
  rewrite E1, E2, E3. cbn [negb]. by rewrite decide_False, E5 by done.
Qed.

Lemma replay_cut {A} (h : A → Entry → A * bool) f a e q t : Entry_wf e → entry_text e = q ++ t →
  wal_replay_loop (S f) h a q = replay_fold h a (if bool_decide (t = []) then [e] else []).
Proof.
  intros Hw E. destruct (cut_line e q t Hw E) as (E1 & E2 & E3). cbn [wal_replay_loop].
  rewrite E1, E2. cbn [negb]. case_bool_decide.
  - destruct E3 as (E3 & E4 & E5). rewrite E3, decide_False, E5 by done. cbn [replay_fold].
    by destruct (h a e) as [a' []].
  - destruct E3 as [->| ->]; [done|]. by case_decide.
Qed.

Definition kept (upTo : Z) (es : list Entry) : list Entry := filter (λ e, upTo < Entry_RaftIndex e) es.

Lemma rewrite_line f u e s tmp : Entry_wf e →
  rewrite_loop (S f) u (line e ++ s) tmp = rewrite_loop f u s (tmp ++ lines (kept u [e])).
Proof.
  intros Hw. destruct (whole_line e s Hw) as (E1 & E2 & E3 & E4 & E5). cbn [rewrite_loop].
  rewrite E1, E2, E3. cbn [negb]. rewrite decide_False, E5 by done.
  unfold kept. rewrite filter_cons, filter_nil. case_decide; cbn; by rewrite ?app_nil_r.
Qed.

Lemma rewrite_cut f u e q t tmp : Entry_wf e → entry_text e = q ++ t →
  rewrite_loop (S f) u q tmp = Some (tmp ++ lines (kept u (if bool_decide (t = []) then [e] else []))).
Proof.
  intros Hw E. destruct (cut_line e q t Hw E) as (E1 & E2 & E3). cbn [rewrite_loop].
  rewrite E1, E2. cbn [negb]. case_bool_decide.
  - destruct E3 as (E3 & E4 & E5). rewrite E3, decide_False, E5 by done.
    unfold kept. rewrite filter_cons, filter_nil. case_decide; cbn; by rewrite ?app_nil_r.
  - change (lines (kept u [])) with (@nil ascii). rewrite app_nil_r.
    destruct E3 as [->| ->]; [done|]. by case_decide.
Qed.

Lemma length_line e : (0 < length (line e))%nat.
Proof. unfold line. rewrite length_app. cbn. lia. Qed.

Lemma replay_lines {A} (h : A → Entry → A * bool) es : Forall Entry_wf es → ∀ f a q,
  (length (lines es ++ q) < f)%nat →
  ∃ f', (length q < f')%nat ∧
  wal_replay_loop f h a (lines es ++ q) =
  match replay_fold h a es with
  | (a, None) => wal_replay_loop f' h a q
  | r => r
  end.
Proof.
  induction 1 as [|e es He _ IH]; intros f a q Hf.
  { by exists f. }
  unfold lines in *. cbn [fmap list_fmap concat] in *. rewrite <-app_assoc in *. rewrite length_app in Hf.
  pose proof (length_line e). destruct f as [|f]; [lia|]. rewrite replay_line by done. cbn [replay_fold].
  destruct (h a e) as [a' ok]. destruct ok; cbn [negb].
  - destruct (IH f a' q) as (f' & Hf' & E); [lia|]. exists f'. by rewrite E.
  - exists (S (length q)). split; [lia|done].
Qed.

Lemma kept_app u l1 l2 : kept u (l1 ++ l2) = kept u l1 ++ kept u l2.
Proof. apply filter_app. Qed.
Lemma lines_app l1 l2 : lines (l1 ++ l2) = lines l1 ++ lines l2.
Proof. unfold lines. by rewrite fmap_app, concat_app. Qed.

Lemma rewrite_lines u es : Forall Entry_wf es → ∀ f q tmp,
  (length (lines es ++ q) < f)%nat →
  ∃ f', (length q < f')%nat ∧
  rewrite_loop f u (lines es ++ q) tmp = rewrite_loop f' u q (tmp ++ lines (kept u es)).
Proof.
  induction 1 as [|e es He _ IH]; intros f q tmp Hf.
  { exists f. by rewrite app_nil_r. }
  change (e :: es) with ([e] ++ es) in *. rewrite lines_app, <-app_assoc in *. rewrite length_app in Hf.
  change (lines [e]) with (line e ++ []) in *. rewrite app_nil_r in *.
  pose proof (length_line e). destruct f as [|f]; [lia|]. rewrite rewrite_line by done.
  destruct (IH f q (tmp ++ lines (kept u [e]))) as (f' & Hf' & E); [lia|]. exists f'.
  split; [done|]. by rewrite E, kept_app, lines_app, app_assoc.
Qed.

Lemma replay_fold_app {A} (h : A → Entry → A * bool) l1 l2 : ∀ a,
  replay_fold h a (l1 ++ l2) = match replay_fold h a l1 with
                               | (a, None) => replay_fold h a l2 | r => r end.
Proof.
  induction l1 as [|e l1 IH]; intros a; [done|]. cbn [app replay_fold]. destruct (h a e) as [a' []]; [apply IH|done].
Qed.

(** A prefix of some lines is whole lines and at most one line cut off. *)
Lemma prefix_lines new : ∀ q, q `prefix_of` lines new →
  ∃ new1 rest q', new = new1 ++ rest ∧ q = lines new1 ++ q' ∧
    (q' = [] ∨ ∃ e rest' t, rest = e :: rest' ∧ entry_text e = q' ++ t).
Proof.
  induction new as [|e new IH]; intros q Hq.
  { apply prefix_nil_inv in Hq as ->. exists [], [], []. split_and!; [done|done|by left]. }
  unfold lines in Hq. cbn [fmap list_fmap concat] in Hq. destruct Hq as [t Hq].
  destruct (decide (length (line e) ≤ length q)%nat) as [Hl|Hl].
  - assert (q = line e ++ drop (length (line e)) q) as Eq.
    { rewrite <-(take_drop (length (line e)) q) at 1. f_equal.
      apply (f_equal (take (length (line e)))) in Hq. rewrite take_app_length in Hq.
      etrans; [|symmetry; exact Hq]. by rewrite take_app_le. }
    destruct (IH (drop (length (line e)) q)) as (new1 & rest & q' & -> & Hq' & Hc).
    { exists t. apply (app_inv_head (line e)). rewrite app_assoc, <-Eq. done. }
    exists (e :: new1), rest, q'. split_and!; [done| |done]. rewrite Eq, Hq'.
    unfold lines. cbn [fmap list_fmap concat]. by rewrite app_assoc.
  - exists [], (e :: new), q. split_and!; [done|done|]. right. exists e, new, (drop (length q) (entry_text e)).
    split; [done|]. unfold line in *. rewrite length_app in Hl. cbn [length] in Hl.
    fold (entry_text e) in *. apply (f_equal (take (length q))) in Hq. rewrite take_app_length in Hq.
    rewrite take_app_le in Hq by (rewrite length_app; lia). rewrite take_app_le in Hq by lia.
    by rewrite <-Hq at 1; rewrite take_drop.
Qed.

(** ** Recovery *)

(** Whole lines and the rest of a cut line, as what recovery sees of them. *)
Lemma crashed_file es new q : Forall Entry_wf es → Forall Entry_wf new → q `prefix_of` lines new →
  ∃ new', new' `prefix_of` new ∧
    (∀ A (h : A → Entry → A * bool) a, replayFile h a (lines es ++ q) = replay_fold h a (es ++ new')) ∧
    (∀ u, rewriteWALAfterTruncate (lines es ++ q) u = Some (lines (kept u (es ++ new')))).
Proof.
  intros Hes Hnew Hq. destruct (prefix_lines new q Hq) as (new1 & rest & q' & -> & -> & Hc).
  apply Forall_app in Hnew as [Hn1 Hrest]. rewrite app_assoc, <-lines_app.
  assert (Forall Entry_wf (es ++ new1)) as Hall by (by apply Forall_app).
  destruct Hc as [->|(e & rest' & t & -> & Et)].
  - exists new1. split; [by exists rest|]. split.
    + intros A h a. unfold replayFile. destruct (replay_lines h _ Hall (S (length (lines (es ++ new1) ++ []))) a [])
        as (f' & Hf & ->); [lia|]. destruct f' as [|f']; [cbn in Hf; lia|].
      by destruct (replay_fold h a (es ++ new1)) as [a' []].
    + intros u. unfold rewriteWALAfterTruncate.
      destruct (rewrite_lines u _ Hall (S (length (lines (es ++ new1) ++ []))) [] []) as (f' & Hf & ->); [lia|].
      by destruct f' as [|f']; [cbn in Hf; lia|].
  - apply Forall_cons in Hrest as [He _].
    set (last := if bool_decide (t = []) then [e] else []).
    exists (new1 ++ last). split.
    { apply prefix_app. unfold last. case_bool_decide; [by apply prefix_cons, prefix_nil|by apply prefix_nil]. }
    rewrite app_assoc. split.
    + intros A h a. unfold replayFile.
      destruct (replay_lines h _ Hall (S (length (lines (es ++ new1) ++ q'))) a q') as (f' & Hf & ->); [lia|].
      destruct f' as [|f']; [lia|]. rewrite (replay_fold_app h (es ++ new1) last).
      destruct (replay_fold h a (es ++ new1)) as [a' [err|]]; [done|]. exact (replay_cut h f' a' e q' t He Et).
    + intros u. unfold rewriteWALAfterTruncate.
      destruct (rewrite_lines u _ Hall (S (length (lines (es ++ new1) ++ q'))) q' []) as (f' & Hf & ->); [lia|].
      destruct f' as [|f']; [lia|]. rewrite (rewrite_cut f' u e q' t _ He Et), (kept_app u (es ++ new1) last), (lines_app _ (kept u last)). done.
Qed.

(** C17: recovery after a crash.  When a crash cuts off a write to a log of
    whole entries anywhere, even inside a line, replay hands the handler
    exactly the old entries and some first ones of the write, in order, and
    reports no damage. *)
Theorem wal_replay_after_crash {A} (handler : A → Entry → A * bool) a es new q :
  Forall Entry_wf es → Forall Entry_wf new → q `prefix_of` lines new →
  ∃ new', new' `prefix_of` new ∧
    replayFile handler a (lines es ++ q) = replay_fold handler a (es ++ new').
Proof.
  intros H1 H2 H3. destruct (crashed_file es new q H1 H2 H3) as (new' & Hp & Hr & _). by exists new'.
Qed.

(** truncation.  On the same files, and again with a cut line at the end,
    [TruncateUpTo] keeps exactly the entries above the index, in order and
    with their text unchanged, and repairs the end of the file. *)
Theorem wal_truncate_exact es new q upTo :
  Forall Entry_wf es → Forall Entry_wf new → q `prefix_of` lines new →
  ∃ new', new' `prefix_of` new ∧
    rewriteWALAfterTruncate (lines es ++ q) upTo =
    Some (lines (filter (λ e, upTo < Entry_RaftIndex e) (es ++ new'))).
Proof.
  intros H1 H2 H3. destruct (crashed_file es new q H1 H2 H3) as (new' & Hp & _ & Hr). exists new'.
  split; [done|]. apply Hr.
Qed.

(** ** The order of accepted entries *)

(** Everything the logger has accepted, in order. *)
Definition accepted (l : Logger) : text :=
  lg_content l ++ concat (wr_Data <$> lg_batch l) ++ concat (wr_Data <$> lg_reqCh l).

Definition all_ok : text → text → write_result := λ _ _, WriteOK.

Lemma flush_accepted l : lg_workerErr l = false →
  accepted (flush all_ok l) = accepted l ∧ lg_batch (flush all_ok l) = [] ∧
  lg_reqCh (flush all_ok l) = lg_reqCh l ∧ lg_workerErr (flush all_ok l) = false.
Proof.
  intros He. unfold flush. case_decide as Hb; [done|]. rewrite He. unfold writeAndSync, all_ok.
  case_decide as Hp; cbn [lg_content lg_batch lg_reqCh lg_workerErr].
  - split_and!; try done. unfold accepted. cbn [lg_content lg_batch lg_reqCh]. by rewrite Hp.
  - split_and!; try done. unfold accepted. cbn [lg_content lg_batch lg_reqCh fmap list_fmap concat].
    by rewrite <-app_assoc.
Qed.

Lemma recv_accepted l : lg_workerErr l = false →
  accepted (worker_recv all_ok l) = accepted l ∧ lg_reqCh (worker_recv all_ok l) = drop 1 (lg_reqCh l) ∧
  lg_workerErr (worker_recv all_ok l) = false.
Proof.
  intros He. unfold worker_recv. destruct (lg_reqCh l) as [|req rest] eqn:Eq; [by rewrite Eq|]. rewrite He. cbv zeta.
  set (l1 := lg_with_batch _ _).
  assert (accepted l1 = accepted l ∧ lg_reqCh l1 = rest ∧ lg_workerErr l1 = false) as (E1 & E2 & E3).
  { split_and!; try done. unfold accepted, l1. cbn. rewrite Eq, fmap_app, concat_app. cbn.
    by rewrite app_nil_r, <-app_assoc. }
  clearbody l1. case_decide; [|done]. destruct (flush_accepted l1 E3) as (F1 & F2 & F3 & F4).
  split_and!; [congruence|by rewrite F3, E2|done].
Qed.

(** accepted entries reach the file in order.  Once the worker has taken
    every request and flushed, and no write fails, the file holds what it held,
    the entries accepted before and then the new entry. *)
Theorem append_async_reaches_file now e l l' :
  lg_enabled l = true → lg_workerErr l = false → AppendAsync now e l = (l', None) →
  lg_content (flush all_ok (Nat.iter (length (lg_reqCh l')) (worker_recv all_ok) l')) =
  lg_content l ++ concat (wr_Data <$> lg_batch l) ++ concat (wr_Data <$> lg_reqCh l) ++ line (stamped now e).
Proof.
  intros Hen He E. unfold AppendAsync in E. rewrite Hen in E. cbn [negb] in E.
  destruct (append_refused l); [done|]. case_decide; [|done]. injection E as <-.
  set (l1 := lg_with_queue _ l).
  assert (lg_workerErr l1 = false) as He1 by done.
  assert (accepted l1 = lg_content l ++ concat (wr_Data <$> lg_batch l) ++ concat (wr_Data <$> lg_reqCh l) ++
    line (stamped now e)) as Ha.
  { unfold accepted, l1. cbn. rewrite fmap_app, concat_app. cbn. by rewrite app_nil_r. }
  rewrite <-Ha. clearbody l1. clear Ha.
  assert (∀ k l2, lg_workerErr l2 = false →
    accepted (Nat.iter k (worker_recv all_ok) l2) = accepted l2 ∧
    lg_reqCh (Nat.iter k (worker_recv all_ok) l2) = drop k (lg_reqCh l2) ∧
    lg_workerErr (Nat.iter k (worker_recv all_ok) l2) = false) as Hit.
  { clear. intros k l2 He. induction k as [|k (I1 & I2 & I3)]; [by rewrite drop_0|]. cbn [Nat.iter nat_rect].
    destruct (recv_accepted _ I3) as (R1 & R2 & R3). split_and!; [etrans; [exact R1|done]| |done].
    etrans; [exact R2|]. rewrite I2, drop_drop. f_equal. lia. }
  destruct (Hit (length (lg_reqCh l1)) l1 He1) as (I1 & I2 & I3).
  destruct (flush_accepted _ I3) as (F1 & F2 & F3 & F4).
  rewrite I1 in F1. unfold accepted in F1 at 1. rewrite F2, F3, I2, drop_all in F1. cbn in F1.
  by rewrite app_nil_r in F1.
Qed.

(** ** Examples *)

Definition wal_put (index : Z) (key value : string) : Entry :=
  {| Entry_RaftIndex := index; Entry_Term := 1; Entry_NodeID := 0; Entry_ReqID := index;
     Entry_OpType := "PUT"; Entry_Key := key; Entry_Value := value; Entry_Version := 0; Entry_TTL := 0;
     Entry_Keys := []; Entry_Versions := []; Entry_ShardID := 0; Entry_ShardState := 0;
     Entry_TargetGroup := 0; Entry_Epoch := 0; Entry_Replicas := []; Entry_Cutoff := 0;
     Entry_TxReadKeys := []; Entry_TxReadVersions := []; Entry_TxWriteKeys := [];
     Entry_TxWriteValues := []; Entry_TxWriteVersions := []; Entry_TxWriteDeletes := [];
     Entry_TxTimeoutMs := 0; Entry_TxCoordinatorGroup := 0; Entry_TxParticipantGroups := [];
     Entry_TxDecision := 0; Entry_Timestamp := 77 |}.

Definition collect (acc : list Entry) (e : Entry) : list Entry * bool := (acc ++ [e], true).

Lemma wal_replay_after_crash_witness :
  ∃ new', new' `prefix_of` [wal_put 2 "b" "y"; wal_put 3 "c" "z"] ∧
    replayFile collect [] (lines [wal_put 1 "a" "x"] ++ take 130 (lines [wal_put 2 "b" "y"; wal_put 3 "c" "z"])) =
    replay_fold collect [] ([wal_put 1 "a" "x"] ++ new').
Proof.
  apply (wal_replay_after_crash collect [] [wal_put 1 "a" "x"] [wal_put 2 "b" "y"; wal_put 3 "c" "z"]).
  - by repeat constructor.
  - by repeat constructor.
  - exists (drop 130 (lines [wal_put 2 "b" "y"; wal_put 3 "c" "z"])). symmetry. apply take_drop.
Defined.

Lemma wal_truncate_exact_witness :
  ∃ new', new' `prefix_of` [wal_put 3 "c" "z"] ∧
    rewriteWALAfterTruncate (lines [wal_put 1 "a" "x"; wal_put 2 "b" "y"] ++ take 30 (lines [wal_put 3 "c" "z"])) 1 =
    Some (lines (filter (λ e, 1 < Entry_RaftIndex e) ([wal_put 1 "a" "x"; wal_put 2 "b" "y"] ++ new'))).
Proof.
  apply (wal_truncate_exact [wal_put 1 "a" "x"; wal_put 2 "b" "y"] [wal_put 3 "c" "z"]).
  - by repeat constructor.
  - by repeat constructor.
  - exists (drop 30 (lines [wal_put 3 "c" "z"])). symmetry. apply take_drop.
Defined.

Definition wal_ready (content : text) : Logger * list Entry * option wal_err :=
  Replay all_ok 0 collect [] (NewLogger content true true).

Lemma append_async_reaches_file_witness :
  let l := (wal_ready (lines [wal_put 1 "a" "x"])).1.1 in
  let l' := (AppendAsync 5 (wal_put 2 "b" "y") l).1 in
  lg_content (flush all_ok (Nat.iter (length (lg_reqCh l')) (worker_recv all_ok) l')) =
  lg_content l ++ concat (wr_Data <$> lg_batch l) ++ concat (wr_Data <$> lg_reqCh l) ++
  line (stamped 5 (wal_put 2 "b" "y")).
Proof.
  intros l l'. apply (append_async_reaches_file 5 (wal_put 2 "b" "y") l l').
  - vm_compute. reflexivity.
  - vm_compute. reflexivity.
  - vm_compute. reflexivity.
Defined.

(** a line that a crash cut off makes a later recovery fail.  Replay skips
    the cut line but leaves it in the file; the next accepted entry is written
    behind it on the same line, which then ends in a newline and cannot be
    decoded: the following replay returns an error, although the comment of
    [Replay] promises to stop at the last complete entry.  The replicated state
    machine panics on that error when it starts. *)
Theorem wal_cut_line_blocks_recovery :
  let crashed := lines [wal_put 1 "a" "x"] ++ take 30 (line (wal_put 2 "b" "y")) in
  let '(l, seen, err) := wal_ready crashed in
  let '(l, err') := AppendAsync 5 (wal_put 3 "c" "z") l in
  let l := flush all_ok (worker_recv all_ok l) in
  let '(_, seen', err'') := wal_ready (lg_content l) in
  seen = [wal_put 1 "a" "x"] ∧ err = None ∧ err' = None ∧
  lg_content l = crashed ++ line (wal_put 3 "c" "z") ∧
  seen' = [wal_put 1 "a" "x"] ∧ err'' = Some ErrDecodeReplay.
Proof. vm_compute. split_and!; reflexivity. Qed.

(** accepted entries are lost when the worker is stopped.  [AppendAsync] has
    returned without an error and the entry is in the channel; when
    [TruncateUpTo] stops the worker, the worker may see the stop signal first,
    flushes only its batch and returns, and the channel is thrown away: the
    entry is never written and no error is reported. *)
Theorem wal_stop_drops_accepted :
  let '(l, _, err) := wal_ready (lines [wal_put 1 "a" "x"]) in
  let '(l, err1) := AppendAsync 5 (wal_put 2 "b" "y") l in
  let '(l, err2) := TruncateUpTo all_ok 0 0 l in
  err = None ∧ err1 = None ∧ err2 = None ∧
  lg_content l = lines [wal_put 1 "a" "x"] ∧ lg_batch l = [] ∧ lg_reqCh l = [].
Proof. vm_compute. split_and!; reflexivity. Qed.
