(* ===== verification/Rsm.v ===== *)
(** * pkg/kv/consensus.go: the replicated state machine

    [RSM] ties the log to a state machine: [Submit] proposes an operation and
    waits, [applyCommand] executes a committed one and wakes the client that
    waits for its index, snapshots and the write-ahead log bound what has to be
    executed again after a restart.

    The state machine is an interface ([StateMachine]); [kv_state_machine]
    is the instance for the key-value server.  What the code asks of its Raft
    node (the answer of [Start], the term, [PersistBytes], the last included
    index, the lease) are arguments.  [waitingOp]s are shared objects, so they
    live in a heap ([rsm_ops]) and the table holds their addresses.  A snapshot
    is the document its two gob values decode to: the id counter and the bytes
    of the state machine.  A result [None] is an operation that never returns. *)
From stdpp Require Import prelude gmap strings.
From Stdlib Require Import Ascii.
From stdpp Require Import options.
From S2P Require Import Prelude Json JsonText KvApi ExpiryHeap Store ShardState Tx Server Wal.
Local Open Scope Z_scope.

Record Op := { Op_Me : Z; Op_Id : Z; Op_Req : request }.

Definition opEquals (a b : Op) : bool := bool_decide (Op_Me a = Op_Me b ∧ Op_Id a = Op_Id b).

(** The interface [StateMachine]; [Env] is what a call draws from outside. *)
Class StateMachine (SM Env : Type) := {
  sm_DoOp : Env → SM → request → option (SM * reply);
  sm_Snapshot : SM → option json;
  sm_Restore : Env → SM → option json → option SM }.

Record waitingOp := { wo_oper : Op; wo_result : option reply; wo_done : option bool }.

(** [select { case wop.done <- b: default: }] on a channel with one slot. *)
Definition send_done (b : bool) (w : waitingOp) : waitingOp :=
  {| wo_oper := wo_oper w; wo_result := wo_result w;
     wo_done := match wo_done w with None => Some b | d => d end |}.

(** ** Operations as entries of the write-ahead log *)

Definition empty_entry (me commandIndex term reqID now : Z) : Entry :=
  {| Entry_RaftIndex := commandIndex; Entry_Term := term; Entry_NodeID := me; Entry_ReqID := reqID;
     Entry_OpType := ""; Entry_Key := ""; Entry_Value := ""; Entry_Version := 0; Entry_TTL := 0;
     Entry_Keys := []; Entry_Versions := []; Entry_ShardID := 0; Entry_ShardState := 0;
     Entry_TargetGroup := 0; Entry_Epoch := 0; Entry_Replicas := []; Entry_Cutoff := 0;
     Entry_TxReadKeys := []; Entry_TxReadVersions := []; Entry_TxWriteKeys := [];
     Entry_TxWriteValues := []; Entry_TxWriteVersions := []; Entry_TxWriteDeletes := [];
     Entry_TxTimeoutMs := 0; Entry_TxCoordinatorGroup := 0; Entry_TxParticipantGroups := [];
     Entry_TxDecision := 0; Entry_Timestamp := now |}.

(** The fields of each kind of operation, in the order of the record from
    [OpType] on. *)
Definition fill (e : Entry) (op key value : string) (version ttl : Z) (keys : list string) (versions : list Z)
    (cutoff : Z) : Entry :=
  {| Entry_RaftIndex := Entry_RaftIndex e; Entry_Term := Entry_Term e; Entry_NodeID := Entry_NodeID e;
     Entry_ReqID := Entry_ReqID e; Entry_OpType := op; Entry_Key := key; Entry_Value := value;
     Entry_Version := version; Entry_TTL := ttl; Entry_Keys := keys; Entry_Versions := versions;
     Entry_ShardID := 0; Entry_ShardState := 0; Entry_TargetGroup := 0; Entry_Epoch := 0;
     Entry_Replicas := []; Entry_Cutoff := cutoff;
     Entry_TxReadKeys := []; Entry_TxReadVersions := []; Entry_TxWriteKeys := [];
     Entry_TxWriteValues := []; Entry_TxWriteVersions := []; Entry_TxWriteDeletes := [];
     Entry_TxTimeoutMs := 0; Entry_TxCoordinatorGroup := 0; Entry_TxParticipantGroups := [];
     Entry_TxDecision := 0; Entry_Timestamp := Entry_Timestamp e |}.
Definition fill_shard (e : Entry) (op : string) (shardID state targetGroup epoch : Z) (replicas : list string)
    : Entry :=
  {| Entry_RaftIndex := Entry_RaftIndex e; Entry_Term := Entry_Term e; Entry_NodeID := Entry_NodeID e;
     Entry_ReqID := Entry_ReqID e; Entry_OpType := op; Entry_Key := ""; Entry_Value := "";
     Entry_Version := 0; Entry_TTL := 0; Entry_Keys := []; Entry_Versions := [];
     Entry_ShardID := shardID; Entry_ShardState := state; Entry_TargetGroup := targetGroup;
     Entry_Epoch := epoch; Entry_Replicas := replicas; Entry_Cutoff := 0;
     Entry_TxReadKeys := []; Entry_TxReadVersions := []; Entry_TxWriteKeys := [];
     Entry_TxWriteValues := []; Entry_TxWriteVersions := []; Entry_TxWriteDeletes := [];
     Entry_TxTimeoutMs := 0; Entry_TxCoordinatorGroup := 0; Entry_TxParticipantGroups := [];
     Entry_TxDecision := 0; Entry_Timestamp := Entry_Timestamp e |}.
Definition fill_tx (e : Entry) (op txID : string) (reads : list ReadKey) (writes : list WriteKey)
    (timeout group : Z) (groups : list Z) (decision : Z) : Entry :=
  {| Entry_RaftIndex := Entry_RaftIndex e; Entry_Term := Entry_Term e; Entry_NodeID := Entry_NodeID e;
     Entry_ReqID := Entry_ReqID e; Entry_OpType := op; Entry_Key := txID; Entry_Value := "";
     Entry_Version := 0; Entry_TTL := 0; Entry_Keys := []; Entry_Versions := [];
     Entry_ShardID := 0; Entry_ShardState := 0; Entry_TargetGroup := 0; Entry_Epoch := 0;
     Entry_Replicas := []; Entry_Cutoff := 0;
     Entry_TxReadKeys := ReadKey_Key <$> reads; Entry_TxReadVersions := ReadKey_ExpectedVersion <$> reads;
     Entry_TxWriteKeys := WriteKey_Key <$> writes; Entry_TxWriteValues := WriteKey_Value <$> writes;
     Entry_TxWriteVersions := WriteKey_Version <$> writes; Entry_TxWriteDeletes := WriteKey_IsDelete <$> writes;
     Entry_TxTimeoutMs := timeout; Entry_TxCoordinatorGroup := group; Entry_TxParticipantGroups := groups;
     Entry_TxDecision := decision; Entry_Timestamp := Entry_Timestamp e |}.

Definition walEntryFromOp (me commandIndex term now : Z) (oper : Op) : Entry :=
  let e := empty_entry me commandIndex term (Op_Id oper) now in
  match Op_Req oper with
  | ReqGet t => fill e "GET" (GetArgs_Key t) "" 0 0 [] [] 0
  | ReqScan _ => fill e "SCAN" "" "" 0 0 [] [] 0
  | ReqPut t => fill e "PUT" (PutArgs_Key t) (PutArgs_Value t) (PutArgs_Version t) (PutArgs_TTL t) [] [] 0
  | ReqDelete t => fill e "DELETE" (DeleteArgs_Key t) "" 0 0 [] [] 0
  | ReqExpire t => fill e "EXPIRE" "" "" 0 0 (ExpireArgs_Keys t) [] (ExpireArgs_Cutoff t)
  | ReqCleanupShard t =>
      fill e "CLEANUP_SHARD" "" "" (CleanupShardArgs_ShardID t) 0
        (CleanupShardKey_Key <$> CleanupShardArgs_Keys t)
        (CleanupShardKey_ExpectedVersion <$> CleanupShardArgs_Keys t) 0
  | ReqSetShardState t =>
      fill_shard e "SET_SHARD_STATE" (SetShardStateArgs_ShardID t) (wrapS32 (SetShardStateArgs_State t))
        (SetShardStateArgs_TargetGroup t) (SetShardStateArgs_TopologyEpoch t)
        (SetShardStateArgs_TargetReplicas t)
  | ReqPrepareTx t =>
      fill_tx e "PREPARE_TX" (PrepareTxArgs_TxID t) (PrepareTxArgs_ReadKeys t) (PrepareTxArgs_WriteKeys t)
        (PrepareTxArgs_TimeoutMs t) (PrepareTxArgs_CoordinatorGroupID t)
        (PrepareTxArgs_ParticipantGroupIDs t) 0
  | ReqCommitTx t => fill_tx e "COMMIT_TX" (CommitTxArgs_TxID t) [] (CommitTxArgs_WriteKeys t) 0 0 [] 0
  | ReqAbortTx t => fill_tx e "ABORT_TX" (AbortTxArgs_TxID t) [] [] 0 0 [] 0
  | ReqResolveTxStatus t => fill_tx e "RESOLVE_TX_STATUS" (ResolveTxStatusArgs_TxID t) [] [] 0 0 [] 0
  | ReqRecordTxDecision t =>
      fill_tx e "RECORD_TX_DECISION" (RecordTxDecisionArgs_TxID t) [] [] 0 0
        (RecordTxDecisionArgs_ParticipantGroupIDs t) (RecordTxDecisionArgs_Decision t)
  end.

(** [strings.ToUpper] and [strings.TrimSpace] on ASCII. *)
Definition upper (c : ascii) : ascii :=
  if decide (97 ≤ code c ∧ code c ≤ 122)%N then ascii_of_N (code c - 32) else c.
Definition ToUpper (s : string) : string :=
  String.string_of_list_ascii (upper <$> String.list_ascii_of_string s).
Definition TrimSpaceString (s : string) : string :=
  String.string_of_list_ascii (TrimSpace (String.list_ascii_of_string s)).

Definition write_keys (entry : Entry) : list WriteKey :=
  zip_with (λ kv nd, {| WriteKey_Key := kv.1; WriteKey_Value := kv.2; WriteKey_Version := nd.1;
                        WriteKey_IsDelete := nd.2 |})
    (zip (Entry_TxWriteKeys entry) (Entry_TxWriteValues entry))
    (zip (Entry_TxWriteVersions entry) (Entry_TxWriteDeletes entry)).

Definition write_lengths_ok (entry : Entry) : bool :=
  bool_decide (length (Entry_TxWriteKeys entry) = length (Entry_TxWriteValues entry) ∧
               length (Entry_TxWriteKeys entry) = length (Entry_TxWriteVersions entry) ∧
               length (Entry_TxWriteKeys entry) = length (Entry_TxWriteDeletes entry)).

(** [walEntryToRequest]: the request and whether it mutates, or an error. *)
Definition walEntryToRequest (entry : Entry) : option (option request * bool) :=
  let opType := ToUpper (TrimSpaceString (Entry_OpType entry)) in
  if decide (opType = "GET") then Some (None, false)
  else if decide (opType = "SCAN") then Some (None, false)
  else if decide (opType = "PUT") then
    Some (Some (ReqPut {| PutArgs_Key := Entry_Key entry; PutArgs_Value := Entry_Value entry;
                          PutArgs_Version := Entry_Version entry; PutArgs_TTL := Entry_TTL entry |}), true)
  else if decide (opType = "DELETE") then
    Some (Some (ReqDelete {| DeleteArgs_Key := Entry_Key entry |}), true)
  else if decide (opType = "EXPIRE") then
    Some (Some (ReqExpire {| ExpireArgs_Keys := Entry_Keys entry; ExpireArgs_Cutoff := Entry_Cutoff entry |}), true)
  else if decide (opType = "CLEANUP_SHARD") then
    if decide (length (Entry_Keys entry) = length (Entry_Versions entry)) then
      Some (Some (ReqCleanupShard
        {| CleanupShardArgs_ShardID := Entry_Version entry;
           CleanupShardArgs_Keys := zip_with (λ k v, {| CleanupShardKey_Key := k;
             CleanupShardKey_ExpectedVersion := v |}) (Entry_Keys entry) (Entry_Versions entry) |}), true)
    else None
  else if decide (opType = "SET_SHARD_STATE") then
    Some (Some (ReqSetShardState
      {| SetShardStateArgs_ShardID := Entry_ShardID entry; SetShardStateArgs_State := Entry_ShardState entry;
         SetShardStateArgs_TargetGroup := Entry_TargetGroup entry;
         SetShardStateArgs_TopologyEpoch := Entry_Epoch entry;
         SetShardStateArgs_TargetReplicas := Entry_Replicas entry |}), true)
  else if decide (opType = "PREPARE_TX") then
    if bool_decide (length (Entry_TxReadKeys entry) = length (Entry_TxReadVersions entry)) &&
       write_lengths_ok entry then
      Some (Some (ReqPrepareTx
        {| PrepareTxArgs_TxID := Entry_Key entry;
           PrepareTxArgs_ReadKeys := zip_with (λ k v, {| ReadKey_Key := k; ReadKey_Value := "";
             ReadKey_ExpectedVersion := v |}) (Entry_TxReadKeys entry) (Entry_TxReadVersions entry);
           PrepareTxArgs_WriteKeys := write_keys entry; PrepareTxArgs_TimeoutMs := Entry_TxTimeoutMs entry;
           PrepareTxArgs_CoordinatorGroupID := Entry_TxCoordinatorGroup entry;
           PrepareTxArgs_ParticipantGroupIDs := Entry_TxParticipantGroups entry |}), true)
    else None
  else if decide (opType = "COMMIT_TX") then
    if write_lengths_ok entry then
      Some (Some (ReqCommitTx {| CommitTxArgs_TxID := Entry_Key entry;
                                 CommitTxArgs_WriteKeys := write_keys entry |}), true)
    else None
  else if decide (opType = "ABORT_TX") then
    Some (Some (ReqAbortTx {| AbortTxArgs_TxID := Entry_Key entry |}), true)
  else if decide (opType = "RECORD_TX_DECISION") then
    Some (Some (ReqRecordTxDecision
      {| RecordTxDecisionArgs_TxID := Entry_Key entry; RecordTxDecisionArgs_Decision := Entry_TxDecision entry;
         RecordTxDecisionArgs_ParticipantGroupIDs := Entry_TxParticipantGroups entry;
         RecordTxDecisionArgs_WriteKeys := [] |}), true)
  else if decide (opType = "RESOLVE_TX_STATUS") then
    Some (Some (ReqResolveTxStatus {| ResolveTxStatusArgs_TxID := Entry_Key entry |}), false)
  else if Contains (Entry_OpType entry) "GetArgs" || Contains (Entry_OpType entry) "ScanArgs"
  then Some (None, false)
  else None.

(** ** The record *)

Section rsm.
Context {SM Env : Type} `{StateMachine SM Env}.

Record RSM := mkRSM {
  rsm_me : Z; rsm_maxraftstate : Z; rsm_sm : SM; rsm_idCounter : Z;
  rsm_ops : gmap nat waitingOp;          (* the waitingOp objects *)
  rsm_waitingOps : gmap Z nat;
  rsm_shutdown : bool; rsm_walLogger : option Logger; rsm_leaseRead : bool; rsm_walGCInFly : bool;
  rsm_lastSnapIndex : Z; rsm_lastApplied : Z; rsm_lastSnapAt : Z;
  rsm_snapMinDelta : Z; rsm_snapMinGap : Z }.

Definition with_sm (sm : SM) (r : RSM) : RSM :=
  mkRSM (rsm_me r) (rsm_maxraftstate r) sm (rsm_idCounter r) (rsm_ops r) (rsm_waitingOps r)
    (rsm_shutdown r) (rsm_walLogger r) (rsm_leaseRead r) (rsm_walGCInFly r) (rsm_lastSnapIndex r)
    (rsm_lastApplied r) (rsm_lastSnapAt r) (rsm_snapMinDelta r) (rsm_snapMinGap r).
Definition with_id (id : Z) (r : RSM) : RSM :=
  mkRSM (rsm_me r) (rsm_maxraftstate r) (rsm_sm r) id (rsm_ops r) (rsm_waitingOps r)
    (rsm_shutdown r) (rsm_walLogger r) (rsm_leaseRead r) (rsm_walGCInFly r) (rsm_lastSnapIndex r)
    (rsm_lastApplied r) (rsm_lastSnapAt r) (rsm_snapMinDelta r) (rsm_snapMinGap r).
Definition with_waiting (ops : gmap nat waitingOp) (table : gmap Z nat) (r : RSM) : RSM :=
  mkRSM (rsm_me r) (rsm_maxraftstate r) (rsm_sm r) (rsm_idCounter r) ops table
    (rsm_shutdown r) (rsm_walLogger r) (rsm_leaseRead r) (rsm_walGCInFly r) (rsm_lastSnapIndex r)
    (rsm_lastApplied r) (rsm_lastSnapAt r) (rsm_snapMinDelta r) (rsm_snapMinGap r).
Definition with_shutdown (r : RSM) : RSM :=
  mkRSM (rsm_me r) (rsm_maxraftstate r) (rsm_sm r) (rsm_idCounter r) (rsm_ops r) (rsm_waitingOps r)
    true (rsm_walLogger r) (rsm_leaseRead r) (rsm_walGCInFly r) (rsm_lastSnapIndex r)
    (rsm_lastApplied r) (rsm_lastSnapAt r) (rsm_snapMinDelta r) (rsm_snapMinGap r).
Definition with_wal (wl : option Logger) (gc : bool) (r : RSM) : RSM :=
  mkRSM (rsm_me r) (rsm_maxraftstate r) (rsm_sm r) (rsm_idCounter r) (rsm_ops r) (rsm_waitingOps r)
    (rsm_shutdown r) wl (rsm_leaseRead r) gc (rsm_lastSnapIndex r)
    (rsm_lastApplied r) (rsm_lastSnapAt r) (rsm_snapMinDelta r) (rsm_snapMinGap r).
Definition with_indexes (snap applied at_ : Z) (r : RSM) : RSM :=
  mkRSM (rsm_me r) (rsm_maxraftstate r) (rsm_sm r) (rsm_idCounter r) (rsm_ops r) (rsm_waitingOps r)
    (rsm_shutdown r) (rsm_walLogger r) (rsm_leaseRead r) (rsm_walGCInFly r) snap
    applied at_ (rsm_snapMinDelta r) (rsm_snapMinGap r).
Definition EnableLeaseRead (enable : bool) (r : RSM) : RSM :=
  mkRSM (rsm_me r) (rsm_maxraftstate r) (rsm_sm r) (rsm_idCounter r) (rsm_ops r) (rsm_waitingOps r)
    (rsm_shutdown r) (rsm_walLogger r) enable (rsm_walGCInFly r) (rsm_lastSnapIndex r)
    (rsm_lastApplied r) (rsm_lastSnapAt r) (rsm_snapMinDelta r) (rsm_snapMinGap r).

(** ** Clients *)

Definition genID (r : RSM) : RSM * Z :=
  let id := wrapS64 (rsm_idCounter r + 1) in (with_id id r, id).

(** [Submit] up to the answer of [rf.Start] ([index], [isLeader]): the state,
    the operation that was proposed, and the address of its [waitingOp] with
    its index, or [None] when [Submit] returns [ErrWrongLeader]. *)
Definition Submit_start (start : Op → Z * bool) (req : request) (r : RSM)
    : RSM * option Op * option (nat * Z) :=
  if rsm_shutdown r then (r, None, None)
  else
    let '(r, opID) := genID r in
    let oper := {| Op_Me := rsm_me r; Op_Id := opID; Op_Req := req |} in
    let '(index, isLeader) := start oper in
    if negb isLeader then (r, Some oper, None)
    else
      let p := fresh (dom (rsm_ops r)) in
      (with_waiting (<[p := {| wo_oper := oper; wo_result := None; wo_done := None |}]> (rsm_ops r))
         (rsm_waitingOps r) r, Some oper, Some (p, index)).

(** The registration under [rsm.mu]: whoever waited for the index is told to
    give up. *)
Definition Submit_register (p : nat) (index : Z) (r : RSM) : RSM :=
  let ops := match rsm_waitingOps r !! index with
             | Some q => alter (send_done false) q (rsm_ops r)
             | None => rsm_ops r
             end in
  with_waiting ops (<[index := p]> (rsm_waitingOps r)) r.

(** The ways out of the wait: the test of the flag before [select] sees the
    shutdown, the timer is ready and [select] takes it, or it takes [done].  A
    client that is already in [select] can take [done] after a shutdown. *)
Inductive wait_case := SeesShutdown | TimerFires | TakesDone.

(** One way out; [None] means that it is not open and the client keeps waiting. *)
Definition Submit_wait (p : nat) (way : wait_case) (r : RSM) : RSM * option (Err * option reply) :=
  match way with
  | SeesShutdown => (r, if rsm_shutdown r then Some (ErrWrongLeader, None) else None)
  | TimerFires => (r, Some (ErrWrongLeader, None))
  | TakesDone =>
      match rsm_ops r !! p with
      | None => (r, None)
      | Some w =>
          match wo_done w with
          | None => (r, None)
          | Some b =>
              (with_waiting (<[p := {| wo_oper := wo_oper w; wo_result := wo_result w; wo_done := None |}]>
                 (rsm_ops r)) (rsm_waitingOps r) r,
               Some (if b then (OK, wo_result w) else (ErrWrongLeader, None)))
          end
      end
  end.

Definition Submit_finish (index : Z) (r : RSM) : RSM :=
  with_waiting (rsm_ops r) (delete index (rsm_waitingOps r)) r.

(** [SubmitLeaseReadWithMode]: with the flag set and a valid lease the request
    is executed at once; otherwise it takes the way of [Submit], here [None]. *)
Definition SubmitLeaseReadWithMode (env : Env) (isLeaderWithLease : bool) (req : request) (r : RSM)
    : option (RSM * option (Err * reply * bool)) :=
  if negb (rsm_leaseRead r) then Some (r, None)
  else if isLeaderWithLease then
    '(sm, result) ← sm_DoOp env (rsm_sm r) req; Some (with_sm sm r, Some (OK, result, true))
  else Some (r, None).

(** ** Applying *)

Definition shouldCreateSnapshot (persistBytes now commandIndex : Z) (r : RSM) : bool :=
  if bool_decide (rsm_maxraftstate r = -1) then false
  else if bool_decide (persistBytes ≤ (rsm_maxraftstate r * 3) `quot` 4) then false
  else if bool_decide (commandIndex - rsm_lastSnapIndex r < rsm_snapMinDelta r) then false
  else if bool_decide (now - rsm_lastSnapAt r < rsm_snapMinGap r) then false
  else true.

(** The client that waits for the index gets the result if the operation is
    its own, and is told to give up otherwise. *)
Definition wake (index : Z) (oper : Op) (result : reply) (r : RSM) : RSM :=
  match rsm_waitingOps r !! index with
  | None => r
  | Some p =>
      with_waiting
        (alter (λ w, if opEquals (wo_oper w) oper
                     then send_done true {| wo_oper := wo_oper w; wo_result := Some result; wo_done := wo_done w |}
                     else send_done false w) p (rsm_ops r))
        (rsm_waitingOps r) r
  end.

(** [applyCommand]: [command] is [None] when the command is not an [Op].  The
    result has the reply handed to the listener and whether a snapshot of the
    index is started. *)
Definition applyCommand (env : Env) (now term persistBytes index : Z) (command : option Op) (r : RSM)
    : option (RSM * option reply * bool) :=
  match command with
  | None => Some (r, None, false)
  | Some oper =>
      let r := with_wal ((λ l, (AppendAsync now (walEntryFromOp (rsm_me r) index term now oper) l).1)
                           <$> rsm_walLogger r) (rsm_walGCInFly r) r in
      '(sm, result) ← sm_DoOp env (rsm_sm r) (Op_Req oper);
      let r := with_sm sm r in
      let r := if bool_decide (rsm_lastApplied r < index)
               then with_indexes (rsm_lastSnapIndex r) index (rsm_lastSnapAt r) r else r in
      let r := wake index oper result r in
      if shouldCreateSnapshot persistBytes now index r
      then Some (with_indexes (rsm_lastSnapIndex r) (rsm_lastApplied r) now r, Some result, true)
      else Some (r, Some result, false)
  end.

(** [truncateWALAsync]: whether the goroutine is started, and what it does. *)
Definition truncateWALAsync (upToIndex : Z) (r : RSM) : RSM * bool :=
  match rsm_walLogger r with
  | Some l =>
      if bool_decide (upToIndex ≤ 0) || negb (lg_enabled l) || rsm_walGCInFly r then (r, false)
      else (with_wal (Some l) true r, true)
  | None => (r, false)
  end.
Definition truncateWAL_run (w : text → text → write_result) (k : nat) (upToIndex : Z) (r : RSM) : RSM :=
  with_wal ((λ l, (TruncateUpTo w k upToIndex l).1) <$> rsm_walLogger r) false r.

(** ** Snapshots: the id counter and the document of the state machine *)

Definition rsm_snapshot : Type := Z * option json.

(** [createSnapshot] runs in its own goroutine: the state it saves is the one
    at the time it runs. *)
Definition createSnapshot (now snapshotToIndex : Z) (r : RSM) : RSM * option rsm_snapshot :=
  if rsm_shutdown r then (r, None)
  else
    let snap := (rsm_idCounter r, sm_Snapshot (rsm_sm r)) in
    let r := (truncateWALAsync snapshotToIndex r).1 in
    (with_indexes snapshotToIndex (Z.max (rsm_lastApplied r) snapshotToIndex) now r, Some snap).

(** [applySnapshot] of a message that decodes (it panics on others). *)
Definition applySnapshot (env : Env) (now index : Z) (snap : rsm_snapshot) (r : RSM) : option RSM :=
  if rsm_shutdown r then Some r
  else
    let r := if bool_decide (rsm_idCounter r < snap.1) then with_id snap.1 r else r in
    sm ← sm_Restore env (rsm_sm r) snap.2;
    let r := with_indexes (Z.max (rsm_lastSnapIndex r) index) (Z.max (rsm_lastApplied r) index) now (with_sm sm r) in
    Some (truncateWALAsync index r).1.

(** ** Shutting down *)

Definition wake_all (r : RSM) : RSM :=
  with_waiting (map_fold (λ _ p ops, alter (send_done false) p ops) (rsm_ops r) (rsm_waitingOps r)) ∅ r.
Definition kill (r : RSM) : RSM := wake_all (with_shutdown r).
Definition rsm_Close (w : text → text → write_result) (k : nat) (r : RSM) : RSM :=
  if rsm_shutdown r then r
  else wake_all (with_wal ((λ l, (Close w k l).1) <$> rsm_walLogger r) (rsm_walGCInFly r) (with_shutdown r)).

(** ** Starting *)

(** The handler of [recoverFromWAL]: its state is the state machine ([None]
    once an operation does not return) and the recovered index.  Every operation
    draws its own clock and answers from outside: [envs] gives them by index. *)
Definition recover_entry (envs : Z → Env) (snapshotIndex : Z) (st : option (SM * Z)) (entry : Entry)
    : option (SM * Z) * bool :=
  match st with
  | None => (None, true)
  | Some (sm, recovered) =>
      let entryIndex := Entry_RaftIndex entry in
      if bool_decide (entryIndex ≤ snapshotIndex) then (st, true)
      else if bool_decide (entryIndex ≤ recovered) then (st, true)
      else
        match walEntryToRequest entry with
        | None => (st, false)
        | Some (Some req, true) =>
            (match sm_DoOp (envs entryIndex) sm req with Some (sm, _) => Some (sm, entryIndex) | None => None end, true)
        | Some (_, _) => (Some (sm, entryIndex), true)
        end
  end.

(** [recoverFromWAL]: the logger, the state machine with the recovered index,
    and the error, on which [MakeRSM] panics. *)
Definition recoverFromWAL (w : text → text → write_result) (k : nat) (envs : Z → Env) (snapshotIndex : Z)
    (sm : SM) (l : Logger) : Logger * option (SM * Z) * option wal_err :=
  Replay w k (recover_entry envs snapshotIndex) (Some (sm, snapshotIndex)) l.

(** [MakeRSM] ([env] for the restore of the snapshot) over a state machine, the snapshot of the persister, the last
    included index of the Raft node and the logger; [None] when it panics or
    does not return. *)
Definition MakeRSM (w : text → text → write_result) (k : nat) (env : Env) (envs : Z → Env) (now me maxraftstate : Z)
    (leaseRead : bool) (sm : SM) (snapshot : option rsm_snapshot) (lastIncludedIndex : Z)
    (walLogger : option Logger) : option RSM :=
  let id := match snapshot with Some s => s.1 | None => 0 end in
  sm ← match snapshot with Some s => sm_Restore env sm s.2 | None => Some sm end;
  let r sm wl applied := mkRSM me maxraftstate sm id ∅ ∅ false wl leaseRead false
                           lastIncludedIndex applied now 64 200000000 in
  match walLogger with
  | None => Some (r sm None lastIncludedIndex)
  | Some l =>
      if lg_enabled l then
        match recoverFromWAL w k envs lastIncludedIndex sm l with
        | (l, Some (sm, recoveredIndex), None) => Some (r sm (Some l) recoveredIndex)
        | _ => None
        end
      else Some (r sm (Some l) lastIncludedIndex)
  end.
End rsm.
Arguments RSM _ : clear implicits.

(** ** The key-value server as a state machine *)

Record kv_env := {
  ke_call : call_env;
  ke_order : list (string * json) → list (string * json);
  ke_restore : restore_env }.

#[export] Instance kv_state_machine {DB} `{Badger DB} (Sum64String : string → Z) :
    StateMachine (KVServer DB) kv_env := {|
  sm_DoOp env kv req := DoOp Sum64String (ke_call env) kv req;
  sm_Snapshot := kv_Snapshot;
  sm_Restore env kv data := kv_Restore (ce_router (ke_call env)) (ke_order env) (ke_restore env) kv data |}.
