(* ===== verification/RsmProps.v ===== *)
(** * What the replicated state machine promises its clients

    An answer OK carries the result of the client's own operation at its
    index; the write-ahead log carries every operation, and which of them are
    executed again; recovery executes exactly those. *)
From stdpp Require Import prelude gmap strings sorting.
From Stdlib Require Import Ascii.
From stdpp Require Import options.
From S2P Require Import Prelude Json JsonText KvApi ExpiryHeap Store StoreProps ShardState Tx Server Wal WalProps Rsm.
Local Open Scope Z_scope.

(** ** Operations through the log *)

(** What the write-ahead log keeps of a request, and whether it is executed
    again: reads are not; the values of a read set and the write sets of a
    coordinator's decision are dropped. *)
Definition wal_request (req : request) : option request * bool :=
  match req with
  | ReqGet _ | ReqScan _ => (None, false)
  | ReqResolveTxStatus _ => (Some req, false)
  | ReqPrepareTx t =>
      (Some (ReqPrepareTx
        {| PrepareTxArgs_TxID := PrepareTxArgs_TxID t;
           PrepareTxArgs_ReadKeys := (λ k, {| ReadKey_Key := ReadKey_Key k; ReadKey_Value := "";
             ReadKey_ExpectedVersion := ReadKey_ExpectedVersion k |}) <$> PrepareTxArgs_ReadKeys t;
           PrepareTxArgs_WriteKeys := PrepareTxArgs_WriteKeys t;
           PrepareTxArgs_TimeoutMs := PrepareTxArgs_TimeoutMs t;
           PrepareTxArgs_CoordinatorGroupID := PrepareTxArgs_CoordinatorGroupID t;
           PrepareTxArgs_ParticipantGroupIDs := PrepareTxArgs_ParticipantGroupIDs t |}), true)
  | ReqRecordTxDecision t =>
      (Some (ReqRecordTxDecision
        {| RecordTxDecisionArgs_TxID := RecordTxDecisionArgs_TxID t;
           RecordTxDecisionArgs_Decision := RecordTxDecisionArgs_Decision t;
           RecordTxDecisionArgs_ParticipantGroupIDs := RecordTxDecisionArgs_ParticipantGroupIDs t;
           RecordTxDecisionArgs_WriteKeys := [] |}), true)
  | _ => (Some req, true)
  end.

(** A shard state is an int32 on the wire. *)
Definition shard_state_fits (req : request) : Prop :=
  match req with ReqSetShardState t => isS32 (SetShardStateArgs_State t) | _ => True end.

Lemma zip_with_fmap2 {A B C D} (f : B → C → D) (g : A → B) (h : A → C) l :
  zip_with f (g <$> l) (h <$> l) = (λ x, f (g x) (h x)) <$> l.
Proof. induction l; [done|]. cbn. by f_equal. Qed.

Lemma write_keys_tx e op t rs ws a b c d : write_keys (fill_tx e op t rs ws a b c d) = ws.
Proof.
  unfold write_keys, fill_tx. cbn. rewrite !zip_with_fmap2. etrans; [|apply list_fmap_id].
  apply list_fmap_ext. intros _ [] _. done.
Qed.
Lemma write_lengths_tx e op t rs ws a b c d : write_lengths_ok (fill_tx e op t rs ws a b c d) = true.
Proof. apply bool_decide_eq_true. cbn. by rewrite !length_fmap. Qed.

Lemma walEntry_request me index term now op : shard_state_fits (Op_Req op) →
  walEntryToRequest (walEntryFromOp me index term now op) = Some (wal_request (Op_Req op)).
Proof.
  intros Hs. unfold walEntryFromOp. cbv zeta. set (e := empty_entry _ _ _ _ _). clearbody e.
  destruct op as [me' id req]; cbn [Op_Req] in *.
  destruct req as [t|[]|[]|[]|t|[]|[]|t|t|[]|[]|[]]; try reflexivity.
  - cbn in Hs. destruct t. unfold walEntryToRequest. cbn in *. by rewrite wrapS32_id.
  - unfold walEntryToRequest. set (x := fill _ _ _ _ _ _ _ _ _).
    change (ToUpper (TrimSpaceString (Entry_OpType x))) with "CLEANUP_SHARD".
    repeat (rewrite decide_False by done). rewrite (decide_True (P := "CLEANUP_SHARD" = "CLEANUP_SHARD")) by done.
    unfold x. cbn [fill Entry_Keys Entry_Versions CleanupShardArgs_Keys]. rewrite !length_fmap, decide_True by done.
    destruct t as [sh ks]. unfold wal_request. cbn [CleanupShardArgs_Keys]. do 4 f_equal. cbn [fill Entry_Version CleanupShardArgs_ShardID]. f_equal. rewrite zip_with_fmap2. etrans; [|apply list_fmap_id].
    apply list_fmap_ext. intros _ [] _. done.
  - unfold walEntryToRequest. set (x := fill_tx _ _ _ _ _ _ _ _ _).
    change (ToUpper (TrimSpaceString (Entry_OpType x))) with "PREPARE_TX".
    repeat (rewrite decide_False by done). rewrite decide_True by done.
    unfold x. rewrite write_lengths_tx, write_keys_tx. cbn [Entry_TxReadKeys Entry_TxReadVersions fill_tx].
    rewrite !length_fmap, bool_decide_true by done. cbn [andb]. by rewrite zip_with_fmap2.
  - unfold walEntryToRequest. set (x := fill_tx _ _ _ _ _ _ _ _ _).
    change (ToUpper (TrimSpaceString (Entry_OpType x))) with "COMMIT_TX".
    repeat (rewrite decide_False by done). rewrite decide_True by done.
    unfold x. rewrite write_lengths_tx, write_keys_tx. by destruct t.
Qed.

(** the write-ahead log carries operations.  The entry written for an
    applied operation of any kind is read back on recovery as that operation,
    up to the values of a read set and the write sets of a coordinator's
    decision, which are dropped; it is marked for execution unless the operation
    is a read or the resolution of a transaction. *)
Theorem wal_roundtrip me index term now op : shard_state_fits (Op_Req op) →
  walEntryToRequest (walEntryFromOp me index term now op) = Some (wal_request (Op_Req op)).
Proof. apply walEntry_request. Qed.

(** ** Recovery *)

(** What was logged: index, term, time and operation. *)
Definition logged : Type := Z * Z * Z * Op.
Definition lg_index (x : logged) : Z := x.1.1.1.
Definition log_entry (me : Z) (x : logged) : Entry :=
  walEntryFromOp me (lg_index x) x.1.1.2 x.1.2 x.2.
Definition logged_wf (me : Z) (x : logged) : Prop :=
  Entry_wf (log_entry me x) ∧ shard_state_fits (Op_Req x.2).
Definition index_lt (x y : logged) : Prop := lg_index x < lg_index y.

Section recovery.
Context {SM Env : Type} `{StateMachine SM Env}.

(** Replaying one logged operation: the request that the log keeps of it is
    executed if it is marked for execution. *)
Definition replay_logged (envs : Z → Env) (st : option (SM * Z)) (x : logged) : option (SM * Z) :=
  '(sm, _) ← st;
  match wal_request (Op_Req x.2) with
  | (Some req, true) => '(sm, _) ← sm_DoOp (envs (lg_index x)) sm req; Some (sm, lg_index x)
  | _ => Some (sm, lg_index x)
  end.

Lemma recover_None envs snap es : replay_fold (recover_entry (SM := SM) envs snap) None es = (None, None).
Proof. induction es; [done|]. cbn. done. Qed.
Lemma apply_None envs xs : foldl (replay_logged envs) None xs = None.
Proof. by induction xs. Qed.

Lemma recover_fold envs snap me xs : ∀ sm r,
  Forall (logged_wf me) xs → StronglySorted index_lt xs →
  Forall (λ x, snap < lg_index x → r < lg_index x) xs →
  replay_fold (recover_entry envs snap) (Some (sm, r)) (log_entry me <$> xs) =
  (foldl (replay_logged envs) (Some (sm, r)) (filter (λ x, snap < lg_index x) xs), None).
Proof.
  induction xs as [|x xs IH]; intros sm r Hw Hs Hr; [done|].
  apply Forall_cons in Hw as [[Hx Hfit] Hw]. apply Forall_cons in Hr as [Hrx Hr].
  inversion_clear Hs as [|? ? Hs' Hlt]. cbn [fmap list_fmap replay_fold].
  assert (Entry_RaftIndex (log_entry me x) = lg_index x) as Ei.
  { destruct x as [[[i t] n] [m id []]]; reflexivity. }
  unfold recover_entry at 1. rewrite Ei. rewrite filter_cons.
  destruct (decide (snap < lg_index x)) as [Hsn|Hsn].
  2:{ rewrite bool_decide_true by lia. cbn [negb]. by apply IH. }
  rewrite (bool_decide_false (lg_index x ≤ snap)) by lia.
  rewrite (bool_decide_false (lg_index x ≤ r)) by (specialize (Hrx Hsn); lia).
  unfold log_entry at 1. rewrite walEntry_request by done. cbn [foldl]. cbn [replay_logged mbind option_bind].
  assert (∀ sm', replay_fold (recover_entry envs snap) (Some (sm', lg_index x)) (log_entry me <$> xs) =
    (foldl (replay_logged envs) (Some (sm', lg_index x)) (filter (λ x, snap < lg_index x) xs), None)) as IH'.
  { intros sm'. apply IH; [done|done|]. eapply Forall_impl; [exact Hlt|]. intros y Hy _. exact Hy. }
  destruct (wal_request (Op_Req x.2)) as [[req|] []]; cbn [negb]; try apply IH'.
  destruct (sm_DoOp _ sm req) as [[sm' rep]|]; cbn [mbind option_bind]; [apply IH'|].
  by rewrite recover_None, apply_None.
Qed.

(** The logger after a replay that succeeded. *)
Definition replayed (sync : bool) (content : text) : Logger :=
  mkLogger true sync true content [] [] true false false None true.

Lemma NewLogger_replay {A} w k (h : A → Entry → A * bool) a content sync a' :
  replayFile h a content = (a', None) →
  Replay w k h a (NewLogger content true sync) = (replayed sync content, a', None).
Proof.
  intros E. set (l0 := mkLogger true sync true content [] [] true false false None false).
  change (NewLogger content true sync) with l0. unfold Replay, stopWorkerLocked.
  change (lg_enabled l0) with true. change (lg_closing l0) with false. change (lg_fatalErr l0) with (@None wal_err).
  change (lg_workerAlive l0) with true. cbn [negb].
  assert (Nat.iter k (worker_recv w) l0 = l0) as ->
    by (induction k as [|k IH]; [done|]; rewrite Nat.iter_succ, IH; done).
  change (flush w l0) with l0. unfold l0. cbn [lg_fatalErr lg_file lg_content negb]. by rewrite E.
Qed.

(** C16: recovery replays the log.  A node starts, from the snapshot of its
    persister if it has one, with a write-ahead log of well-formed operations at
    increasing indices whose last write was cut off by a crash.  Then, of the
    operations above the snapshot (of the cut write, some first ones), exactly
    those marked for execution are executed, once and in order, in the form the
    log keeps of them ([wal_request]) and each with its own clock: Get, Scan and
    ResolveTxStatus are not executed again, whatever they did when they were
    applied, the read values of a prepare and the write sets of a decision are
    empty, and every other operation is as it was.  The node goes on from the
    index of the last operation.  That a restore or an operation does not return
    is the only way to fail. *)
Theorem recovery_exact w k env envs now me maxraftstate lease sm snapshot snapIndex sync xs new q :
  Forall (logged_wf me) xs → Forall (logged_wf me) new → StronglySorted index_lt (xs ++ new) →
  q `prefix_of` lines (log_entry me <$> new) →
  ∃ new', new' `prefix_of` new ∧
    MakeRSM w k env envs now me maxraftstate lease sm snapshot snapIndex
      (Some (NewLogger (lines (log_entry me <$> xs) ++ q) true sync)) =
    (sm ← match snapshot with Some s => sm_Restore env sm s.2 | None => Some sm end;
     '(sm, i) ← foldl (replay_logged envs) (Some (sm, snapIndex))
                  (filter (λ x, snapIndex < lg_index x) (xs ++ new'));
     Some (mkRSM me maxraftstate sm (match snapshot with Some s => s.1 | None => 0 end) ∅ ∅ false
             (Some (replayed sync (lines (log_entry me <$> xs) ++ q))) lease false snapIndex i now 64 200000000)).
Proof.
  intros Hxs Hnew Hs Hq.
  assert (∀ ys, Forall (logged_wf me) ys → Forall Entry_wf (log_entry me <$> ys)) as Hwf.
  { intros ys Hys. apply Forall_fmap. eapply Forall_impl; [exact Hys|]. by intros y [? _]. }
  destruct (crashed_file (log_entry me <$> xs) (log_entry me <$> new) q (Hwf xs Hxs) (Hwf new Hnew) Hq)
    as (es & [rest Hes] & Hrep & _).
  apply fmap_app_inv in Hes as (new' & rest' & -> & -> & ->).
  apply Forall_app in Hnew as [Hnew' _]. rewrite app_assoc in Hs. apply StronglySorted_app in Hs as (_ & Hs & _).
  assert (∀ sm, replayFile (recover_entry envs snapIndex) (Some (sm, snapIndex)) (lines (log_entry me <$> xs) ++ q) =
    (foldl (replay_logged envs) (Some (sm, snapIndex)) (filter (λ x, snapIndex < lg_index x) (xs ++ new')), None)) as Hfold.
  { intros sm1. rewrite Hrep, <-fmap_app. apply recover_fold; [by apply Forall_app; split|done|apply Forall_forall; auto]. }
  exists new'. split; [by eexists|]. unfold MakeRSM.
  destruct (match snapshot with Some s => sm_Restore env sm s.2 | None => Some sm end) as [sm1|]; [|done].
  cbn [mbind option_bind]. change (lg_enabled (NewLogger _ true sync)) with true. unfold recoverFromWAL.
  rewrite (NewLogger_replay _ _ _ _ _ _ _ (Hfold sm1)).
  by destruct (foldl _ _ _) as [[sm2 i]|].
Qed.
End recovery.
