(* ===== verification/RsmClients.v ===== *)
(** * The clients of a replicated state machine

    Any number of goroutines are in [Submit] while the apply loop, snapshots,
    the truncation of the write-ahead log and shutdown run; every step below is
    one critical section of the code, so the runs are the interleavings of the
    goroutines.  An answer OK carries the result of executing an operation with
    the client's identity at the client's index. *)
From stdpp Require Import prelude gmap strings relations.
From Stdlib Require Import Ascii.
From stdpp Require Import options.
From S2P Require Import Prelude Json JsonText KvApi ExpiryHeap Store ShardState Tx Server Wal Rsm.
Local Open Scope Z_scope.

(** Where a goroutine is in [Submit]. *)
Definition answer : Type := Err * option reply.
Inductive phase := Started | Waiting | Answered (a : answer) | Returned (a : answer).
Record client := { cl_op : Op; cl_index : Z; cl_phase : phase }.
Definition cl_to (ph : phase) (c : client) : client :=
  {| cl_op := cl_op c; cl_index := cl_index c; cl_phase := ph |}.

Section clients.
Context {SM Env : Type} `{StateMachine SM Env}.

(** The node, the goroutines in [Submit] by the address of their [waitingOp],
    the operations proposed since the start, and the ghost history of what the
    apply loop executed: index, operation and reply. *)
Record sys := mkSys {
  sy_rsm : RSM SM; sy_clients : gmap nat client; sy_sub : list Op; sy_hist : list (Z * Op * reply) }.

Definition sy_with (r : RSM SM) (s : sys) : sys := mkSys r (sy_clients s) (sy_sub s) (sy_hist s).
Definition sy_goto (p : nat) (c : client) (ph : phase) (r : RSM SM) (s : sys) : sys :=
  mkSys r (<[p := cl_to ph c]> (sy_clients s)) (sy_sub s) (sy_hist s).

Inductive sys_step : sys → sys → Prop :=
  | step_refused s start req r o :
      rsm_idCounter (sy_rsm s) < 2 ^ 63 - 1 →
      Submit_start start req (sy_rsm s) = (r, o, None) →
      sys_step s (mkSys r (sy_clients s) (option_list o ++ sy_sub s) (sy_hist s))
  | step_start s start req r op p i :
      rsm_idCounter (sy_rsm s) < 2 ^ 63 - 1 →
      Submit_start start req (sy_rsm s) = (r, Some op, Some (p, i)) →
      sys_step s (mkSys r (<[p := {| cl_op := op; cl_index := i; cl_phase := Started |}]> (sy_clients s))
                    (op :: sy_sub s) (sy_hist s))
  | step_register s p c :
      sy_clients s !! p = Some c → cl_phase c = Started →
      sys_step s (sy_goto p c Waiting (Submit_register p (cl_index c) (sy_rsm s)) s)
  | step_wait s p c way r a :
      sy_clients s !! p = Some c → cl_phase c = Waiting →
      Submit_wait p way (sy_rsm s) = (r, Some a) →
      sys_step s (sy_goto p c (Answered a) r s)
  | step_finish s p c a :
      sy_clients s !! p = Some c → cl_phase c = Answered a →
      sys_step s (sy_goto p c (Returned a) (Submit_finish (cl_index c) (sy_rsm s)) s)
  | step_lease s env lease req r out :
      SubmitLeaseReadWithMode env lease req (sy_rsm s) = Some (r, out) →
      sys_step s (sy_with r s)
  | step_apply s env now term bytes index op r rep snap :
      rsm_shutdown (sy_rsm s) = false →
      applyCommand env now term bytes index (Some op) (sy_rsm s) = Some (r, Some rep, snap) →
      sys_step s (mkSys r (sy_clients s) (sy_sub s) ((index, op, rep) :: sy_hist s))
  | step_snapshot s now index :
      sys_step s (sy_with (createSnapshot now index (sy_rsm s)).1 s)
  | step_restore s env now index snap r :
      applySnapshot env now index snap (sy_rsm s) = Some r →
      sys_step s (sy_with r s)
  | step_truncate s w k index :
      sys_step s (sy_with (truncateWAL_run w k index (sy_rsm s)) s)
  | step_lease_mode s b : sys_step s (sy_with (EnableLeaseRead b (sy_rsm s)) s)
  | step_kill s : sys_step s (sy_with (kill (sy_rsm s)) s)
  | step_close s w k : sys_step s (sy_with (rsm_Close w k (sy_rsm s)) s).

(** A node as [MakeRSM] returns it: nobody waits. *)
Definition sys_init (s : sys) : Prop :=
  rsm_ops (sy_rsm s) = ∅ ∧ rsm_waitingOps (sy_rsm s) = ∅ ∧ isS64 (rsm_idCounter (sy_rsm s)) ∧
  sy_clients s = ∅ ∧ sy_sub s = [] ∧ sy_hist s = [].

(** ** The invariant *)

(** The reply is the result of an operation with the client's identity,
    executed at the client's index. *)
Definition own_result (hist : list (Z * Op * reply)) (c : client) (rep : reply) : Prop :=
  ∃ op, (cl_index c, op, rep) ∈ hist ∧ opEquals (cl_op c) op = true.

Definition answer_ok (hist : list (Z * Op * reply)) (c : client) (a : answer) : Prop :=
  a.1 = OK → ∃ rep, a.2 = Some rep ∧ own_result hist c rep.

Definition wop_ok (hist : list (Z * Op * reply)) (c : client) (w : waitingOp) : Prop :=
  wo_oper w = cl_op c ∧ (∀ rep, wo_result w = Some rep → own_result hist c rep) ∧
  (wo_done w = Some true → is_Some (wo_result w)).

Record waiting_ok (ops : gmap nat waitingOp) (table : gmap Z nat) (clients : gmap nat client)
    (hist : list (Z * Op * reply)) : Prop := {
  wk_ops : map_Forall (λ p w, ∃ c, clients !! p = Some c ∧ wop_ok hist c w) ops;
  wk_alloc : dom clients ⊆ dom ops;
  wk_table : map_Forall (λ i p, ∃ c, clients !! p = Some c ∧ cl_index c = i) table;
  wk_phase : map_Forall (λ _ c, ∀ a, cl_phase c = Answered a ∨ cl_phase c = Returned a → answer_ok hist c a) clients }.

(** The identities of the operations proposed since the start. *)
Record ids_ok (me id : Z) (clients : gmap nat client) (sub : list Op) : Prop := {
  id_low : -2 ^ 63 ≤ id;
  id_me : Forall (λ op, Op_Me op = me ∧ Op_Id op ≤ id) sub;
  id_unique : ∀ op op', op ∈ sub → op' ∈ sub → Op_Id op = Op_Id op' → op = op';
  id_client : map_Forall (λ _ c, cl_op c ∈ sub) clients }.

(** Replies come from the state machine. *)
Definition executed (x : Z * Op * reply) : Prop :=
  ∃ env sm sm', sm_DoOp (SM := SM) (Env := Env) env sm (Op_Req x.1.2) = Some (sm', x.2).

Definition sys_inv (s : sys) : Prop :=
  waiting_ok (rsm_ops (sy_rsm s)) (rsm_waitingOps (sy_rsm s)) (sy_clients s) (sy_hist s) ∧
  ids_ok (rsm_me (sy_rsm s)) (rsm_idCounter (sy_rsm s)) (sy_clients s) (sy_sub s) ∧
  Forall executed (sy_hist s).

Lemma own_result_cons x hist c rep : own_result hist c rep → own_result (x :: hist) c rep.
Proof. intros (op & Hin & Heq). exists op. split; [by right|done]. Qed.
Lemma wop_ok_cons x hist c w : wop_ok hist c w → wop_ok (x :: hist) c w.
Proof. intros (? & ? & ?). split_and!; eauto using own_result_cons. Qed.
Lemma answer_ok_cons x hist c a : answer_ok hist c a → answer_ok (x :: hist) c a.
Proof. intros Ha Ho. destruct (Ha Ho) as (rep & ? & ?). eauto using own_result_cons. Qed.

Lemma waiting_ok_cons x ops table clients hist :
  waiting_ok ops table clients hist → waiting_ok ops table clients (x :: hist).
Proof.
  intros [Ho Hd Ht Hp]. split; [|done|done|].
  - intros p w Hw. destruct (Ho p w Hw) as (c & ? & ?). eauto using wop_ok_cons.
  - intros p c Hc a Ha. by eapply answer_ok_cons, Hp.
Qed.

(** Changing one waiting operation to another good one. *)
Lemma waiting_ok_alter f p ops table clients hist :
  waiting_ok ops table clients hist →
  (∀ c w, ops !! p = Some w → clients !! p = Some c → wop_ok hist c w → wop_ok hist c (f w)) →
  waiting_ok (alter f p ops) table clients hist.
Proof.
  intros [Ho Hd Ht Hp] Hf. split; [| |done|done].
  - intros q w. rewrite lookup_alter_Some. intros [(-> & w0 & Hw & ->)|[_ Hw]]; [|by apply Ho].
    destruct (Ho _ _ Hw) as (c & Hc & Hok). eauto.
  - by rewrite dom_alter_L.
Qed.
Lemma send_done_false_ok hist c w : wop_ok hist c w → wop_ok hist c (send_done false w).
Proof. intros (? & ? & Hd). split_and!; [done|done|]. cbn. by destruct (wo_done w) as [[]|]. Qed.
Lemma waiting_ok_give_up p ops table clients hist :
  waiting_ok ops table clients hist → waiting_ok (alter (send_done false) p ops) table clients hist.
Proof. intros Hw. apply waiting_ok_alter; eauto using send_done_false_ok. Qed.

Lemma waiting_ok_goto p c ph ops table clients hist :
  waiting_ok ops table clients hist → clients !! p = Some c →
  (∀ a, ph = Answered a ∨ ph = Returned a → answer_ok hist c a) →
  waiting_ok ops table (<[p := cl_to ph c]> clients) hist.
Proof.
  intros [Ho Hd Ht Hp] Hc Ha. split.
  - intros q w Hw. destruct (Ho _ _ Hw) as (c' & Hc' & Hok). destruct (decide (q = p)) as [->|].
    + rewrite lookup_insert_eq. eexists. split; [done|]. by simplify_eq.
    + rewrite lookup_insert_ne by done. eauto.
  - rewrite dom_insert_L. intros q Hq%elem_of_union. destruct Hq as [->%elem_of_singleton|Hq]; [|by apply Hd].
    apply Hd. by eapply elem_of_dom_2.
  - intros i q Hi. destruct (Ht _ _ Hi) as (c' & Hc' & <-). destruct (decide (q = p)) as [->|].
    + rewrite lookup_insert_eq. eexists. split; [done|]. by simplify_eq.
    + rewrite lookup_insert_ne by done. eauto.
  - apply map_Forall_insert_2; [|done]. intros a Hph. by apply Ha.
Qed.
Lemma waiting_ok_table ops table table' clients hist :
  waiting_ok ops table clients hist →
  map_Forall (λ i p, ∃ c, clients !! p = Some c ∧ cl_index c = i) table' →
  waiting_ok ops table' clients hist.
Proof. by intros [] ?. Qed.

Lemma ids_ok_goto me id p c ph clients sub :
  ids_ok me id clients sub → clients !! p = Some c → ids_ok me id (<[p := cl_to ph c]> clients) sub.
Proof. intros [Hl Hm Hu Hcl] Hc. split; [done|done|done|]. apply map_Forall_insert_2; [|done]. exact (Hcl p c Hc). Qed.
Lemma ids_ok_le me id id' clients sub : ids_ok me id clients sub → id ≤ id' → ids_ok me id' clients sub.
Proof.
  intros [Hl Hm Hu Hc] ?. split; [lia| |done|done]. eapply Forall_impl; [exact Hm|]. intros op [? ?]. split; [done|lia].
Qed.
Lemma ids_ok_new me id clients sub req :
  ids_ok me id clients sub →
  ids_ok me (id + 1) clients ({| Op_Me := me; Op_Id := id + 1; Op_Req := req |} :: sub).
Proof.
  intros [Hl Hm Hu Hc]. split; [lia|..].
  - apply Forall_cons. cbn. split; [by split|]. eapply Forall_impl; [exact Hm|]. intros op [? ?]. split; [done|lia].
  - rewrite Forall_forall in Hm. intros op op' [->|Hin]%elem_of_cons [->|Hin']%elem_of_cons E; [done| | |by apply Hu].
    + pose proof (Hm _ Hin'). cbn in E. lia.
    + pose proof (Hm _ Hin). cbn in E. lia.
  - intros p c Hp. right. exact (Hc p c Hp).
Qed.

(** ** The steps keep it *)

(** A step that leaves the waiting operations alone. *)
Lemma inv_quiet s r :
  sys_inv s → rsm_ops r = rsm_ops (sy_rsm s) → rsm_waitingOps r = rsm_waitingOps (sy_rsm s) →
  rsm_me r = rsm_me (sy_rsm s) → rsm_idCounter (sy_rsm s) ≤ rsm_idCounter r → sys_inv (sy_with r s).
Proof.
  intros (Hw & Hi & He) E1 E2 E3 E4. unfold sys_inv. cbn [sy_with sy_rsm sy_clients sy_sub sy_hist].
  rewrite E1, E2, E3. eauto using ids_ok_le.
Qed.
Lemma inv_waiting s ops table r :
  sys_inv s → rsm_me r = rsm_me (sy_rsm s) → rsm_idCounter r = rsm_idCounter (sy_rsm s) →
  waiting_ok ops table (sy_clients s) (sy_hist s) → sys_inv (sy_with (with_waiting ops table r) s).
Proof.
  intros (_ & Hi & He) E1 E2 Hw. unfold sys_inv. cbn. rewrite E1, E2. done.
Qed.

Lemma truncateWALAsync_same index (r : RSM SM) :
  let r' := (truncateWALAsync index r).1 in
  rsm_ops r' = rsm_ops r ∧ rsm_waitingOps r' = rsm_waitingOps r ∧ rsm_me r' = rsm_me r ∧
  rsm_idCounter r' = rsm_idCounter r.
Proof.
  unfold truncateWALAsync. destruct (rsm_walLogger r) as [l|]; [|done]. by destruct (_ || _).
Qed.

Lemma Submit_start_cases start req (r r' : RSM SM) o pi :
  Submit_start start req r = (r', o, pi) → isS64 (rsm_idCounter r + 1) →
  let op := {| Op_Me := rsm_me r; Op_Id := rsm_idCounter r + 1; Op_Req := req |} in
  (r' = r ∧ o = None ∧ pi = None) ∨
  (r' = with_id (rsm_idCounter r + 1) r ∧ o = Some op ∧ pi = None) ∨
  ∃ p i, rsm_ops r !! p = None ∧ o = Some op ∧ pi = Some (p, i) ∧
    r' = with_waiting (<[p := {| wo_oper := op; wo_result := None; wo_done := None |}]> (rsm_ops r))
           (rsm_waitingOps r) (with_id (rsm_idCounter r + 1) r).
Proof.
  intros E Hid op. unfold Submit_start, genID in E. destruct (rsm_shutdown r).
  { injection E as <- <- <-. by left. }
  right. rewrite wrapS64_id in E by done. cbn [rsm_me with_id rsm_ops rsm_waitingOps] in E.
  destruct (start _) as [i []]; cbn [negb] in E; injection E as <- <- <-; [right|by left].
  exists (fresh (dom (rsm_ops r))), i. split; [|done]. apply not_elem_of_dom, is_fresh.
Qed.

Lemma waiting_ok_new p op i ops table clients hist :
  waiting_ok ops table clients hist → ops !! p = None →
  waiting_ok (<[p := {| wo_oper := op; wo_result := None; wo_done := None |}]> ops) table
    (<[p := {| cl_op := op; cl_index := i; cl_phase := Started |}]> clients) hist.
Proof.
  intros [Ho Hd Ht Hp] Hfr.
  assert (∀ q c, clients !! q = Some c → q ≠ p) as Hne.
  { intros q c Hq ->. apply not_elem_of_dom in Hfr. apply Hfr, Hd. by eapply elem_of_dom_2. }
  split.
  - intros q w. rewrite lookup_insert_Some. intros [[<- <-]|[? Hw]].
    + rewrite lookup_insert_eq. eexists. split; [done|]. by split_and!.
    + destruct (Ho _ _ Hw) as (c & ? & ?). exists c. by rewrite lookup_insert_ne.
  - rewrite !dom_insert_L. set_solver.
  - intros j q Hj. destruct (Ht _ _ Hj) as (c & Hc & ?). exists c. rewrite lookup_insert_ne; [done|].
    intros <-. by eapply Hne.
  - apply map_Forall_insert_2; [|done]. intros a [?|?]; done.
Qed.

Lemma waiting_ok_wake index op rep ops table clients hist p :
  waiting_ok ops table clients hist → table !! index = Some p → (index, op, rep) ∈ hist →
  waiting_ok (alter (λ w, if opEquals (wo_oper w) op
      then send_done true {| wo_oper := wo_oper w; wo_result := Some rep; wo_done := wo_done w |}
      else send_done false w) p ops) table clients hist.
Proof.
  intros Hok Hp Hin. destruct (wk_table _ _ _ _ Hok index p Hp) as (c & Hc & Hidx).
  apply waiting_ok_alter; [done|]. intros c' w Hw Hc' Hwok. rewrite Hc in Hc'. injection Hc' as <-.
  destruct (opEquals (wo_oper w) op) eqn:E; [|by apply send_done_false_ok].
  destruct Hwok as (Hop & _ & _). split_and!; [done| |by eexists].
  intros rep' [= <-]. exists op. by rewrite Hidx, <-Hop.
Qed.

Lemma wake_same index op rep (r : RSM SM) :
  let r' := wake index op rep r in
  rsm_waitingOps r' = rsm_waitingOps r ∧ rsm_me r' = rsm_me r ∧ rsm_idCounter r' = rsm_idCounter r.
Proof. unfold wake. by destruct (_ !! _). Qed.

Lemma wake_all_ok ops table clients hist :
  waiting_ok ops table clients hist →
  waiting_ok (map_fold (λ _ p ops, alter (send_done false) p ops) ops table) ∅ clients hist.
Proof.
  intros Hok. apply waiting_ok_table with table; [|apply map_Forall_empty].
  apply (map_fold_weak_ind (λ ops' _, waiting_ok ops' table clients hist)); [done|].
  intros i p m ops' _. apply waiting_ok_give_up.
Qed.

Lemma applyCommand_inv env now term bytes index op (r r' : RSM SM) rep snap :
  applyCommand env now term bytes index (Some op) r = Some (r', Some rep, snap) →
  (∃ sm', sm_DoOp env (rsm_sm r) (Op_Req op) = Some (sm', rep)) ∧
  rsm_ops r' = rsm_ops (wake index op rep r) ∧ rsm_waitingOps r' = rsm_waitingOps r ∧
  rsm_me r' = rsm_me r ∧ rsm_idCounter r' = rsm_idCounter r.
Proof.
  unfold applyCommand. cbv zeta. cbn [with_wal rsm_sm].
  destruct (sm_DoOp env (rsm_sm r) (Op_Req op)) as [[sm' rep']|]; cbn [mbind option_bind]; [|done].
  match goal with |- context [wake index op rep' ?x] => set (r1 := x) end.
  assert (rsm_ops r1 = rsm_ops r ∧ rsm_waitingOps r1 = rsm_waitingOps r ∧ rsm_me r1 = rsm_me r ∧
    rsm_idCounter r1 = rsm_idCounter r) as (H1 & H2 & H3 & H4) by (unfold r1; by case_bool_decide).
  clearbody r1.
  assert (rsm_ops (wake index op rep' r1) = rsm_ops (wake index op rep' r)) as Hwk.
  { unfold wake. rewrite H2. destruct (rsm_waitingOps r !! index); cbn; by rewrite H1. }
  destruct (wake_same index op rep' r1) as (W1 & W2 & W3).
  destruct (shouldCreateSnapshot _ _ _ _); intros [= <- <- <-]; cbn; rewrite ?W1, ?W2, ?W3, H2, H3, H4; eauto 10.
Qed.

Lemma inv_apply s env now term bytes index op r rep snap :
  sys_inv s → applyCommand env now term bytes index (Some op) (sy_rsm s) = Some (r, Some rep, snap) →
  sys_inv (mkSys r (sy_clients s) (sy_sub s) ((index, op, rep) :: sy_hist s)).
Proof.
  intros (Hw & Hi & He) (Hex & Eo & Et & Em & Ei)%applyCommand_inv. unfold sys_inv.
  cbn [sy_rsm sy_clients sy_sub sy_hist]. rewrite Eo, Et, Em, Ei. split_and!; [|done|].
  - apply (waiting_ok_cons (index, op, rep)) in Hw. unfold wake.
    destruct (rsm_waitingOps (sy_rsm s) !! index) as [p|] eqn:Hp; [|done]. cbn [rsm_ops with_waiting].
    apply (waiting_ok_wake index op rep); [done|done|by left].
  - apply Forall_cons. split; [|done]. destruct Hex. by eexists _, _, _.
Qed.

Lemma inv_register s p c :
  sys_inv s → sy_clients s !! p = Some c → cl_phase c = Started →
  sys_inv (sy_goto p c Waiting (Submit_register p (cl_index c) (sy_rsm s)) s).
Proof.
  intros (Hw & Hi & He) Hc Hph. unfold sys_inv, Submit_register.
  cbn [sy_goto sy_rsm sy_clients sy_sub sy_hist with_waiting rsm_ops rsm_waitingOps rsm_me rsm_idCounter].
  split_and!; [|by apply ids_ok_goto|done].
  apply waiting_ok_goto; [|done|by intros a [?|?]].
  apply waiting_ok_table with (rsm_waitingOps (sy_rsm s)).
  - destruct (_ !! cl_index c); [by apply waiting_ok_give_up|done].
  - apply map_Forall_insert_2; [by eexists|]. by eapply wk_table.
Qed.

Lemma inv_wait s p c way r a :
  sys_inv s → sy_clients s !! p = Some c → Submit_wait p way (sy_rsm s) = (r, Some a) →
  sys_inv (sy_goto p c (Answered a) r s).
Proof.
  intros (Hw & Hi & He) Hc. unfold Submit_wait, sys_inv.
  assert (sys_inv (sy_goto p c (Answered (ErrWrongLeader, None)) (sy_rsm s) s)) as Hgive.
  { unfold sys_inv. cbn. split_and!; [|by apply ids_ok_goto|done].
    apply waiting_ok_goto; [done|done|]. by intros a0 [[= <-]|?]. }
  destruct way; [destruct (rsm_shutdown _); intros [= <- <-]; exact Hgive|intros [= <- <-]; exact Hgive|].
  clear Hgive.
  destruct (rsm_ops (sy_rsm s) !! p) as [wo|] eqn:Ewo; [|done].
  destruct (wo_done wo) as [b|] eqn:Ed; [|done]. intros [= <- <-]. cbn.
  destruct (wk_ops _ _ _ _ Hw p wo Ewo) as (c' & Hc' & Hop & Hres & Hdone). simplify_eq.
  split_and!; [|by apply ids_ok_goto|done].
  apply waiting_ok_goto; [|done|].
  - set (f := λ w, {| wo_oper := wo_oper w; wo_result := wo_result w; wo_done := None |}).
    change (waiting_ok (<[p := f wo]> (rsm_ops (sy_rsm s))) (rsm_waitingOps (sy_rsm s)) (sy_clients s) (sy_hist s)).
    rewrite <-(alter_alt_Some f _ _ _ Ewo). apply waiting_ok_alter; [done|].
    intros c1 w1 _ _ (? & ? & ?). by split_and!.
  - intros a [[= <-]|?]; [|done]. intros Ho. destruct b; [|done].
    destruct (Hdone Ed) as [rep Hrep]. exists rep. split; [done|]. by apply Hres.
Qed.

Lemma inv_start s start req r o pi :
  sys_inv s → rsm_idCounter (sy_rsm s) < 2 ^ 63 - 1 → Submit_start start req (sy_rsm s) = (r, o, pi) →
  sys_inv (mkSys r (match o, pi with
                    | Some op, Some (p, i) => <[p := {| cl_op := op; cl_index := i; cl_phase := Started |}]> (sy_clients s)
                    | _, _ => sy_clients s
                    end) (option_list o ++ sy_sub s) (sy_hist s)).
Proof.
  intros (Hw & Hi & He) Hid Hst. pose proof (id_low _ _ _ _ Hi) as Hlow.
  apply Submit_start_cases in Hst; [|unfold isS64; lia].
  destruct Hst as [(-> & -> & ->)|[(-> & -> & ->)|(p & i & Hp & -> & -> & ->)]]; unfold sys_inv; cbn.
  - done.
  - split_and!; [done|by apply ids_ok_new|done].
  - split_and!; [by apply waiting_ok_new| |done].
    destruct (ids_ok_new _ _ _ _ req Hi) as [Hl Hm Hu Hc]. split; [done|done|done|].
    apply map_Forall_insert_2; [by left|done].
Qed.

Lemma inv_wake_all s r :
  sys_inv s → rsm_ops r = rsm_ops (sy_rsm s) → rsm_waitingOps r = rsm_waitingOps (sy_rsm s) →
  rsm_me r = rsm_me (sy_rsm s) → rsm_idCounter r = rsm_idCounter (sy_rsm s) → sys_inv (sy_with (wake_all r) s).
Proof.
  intros Hs E1 E2 E3 E4. apply inv_waiting; [done|done|done|]. rewrite E1, E2. apply wake_all_ok, Hs.
Qed.

Lemma sys_step_inv s s' : sys_step s s' → sys_inv s → sys_inv s'.
Proof.
  intros [s0 start req r o Hid Hst|s0 start req r op p i Hid Hst|s0 p c Hc Hph|s0 p c timer r a Hc Hph Hwt
    |s0 p c a Hc Hph|s0 env lease req r out Hl|s0 env now term bytes index op r rep snap Hsd Hap
    |s0 now index|s0 env now index snap r Hr|s0 w k index|s0 b|s0|s0 w k] Hs.
  - pose proof (inv_start _ _ _ _ _ _ Hs Hid Hst) as Hs'. by destruct o.
  - exact (inv_start _ _ _ _ _ _ Hs Hid Hst).
  - by apply inv_register.
  - by eapply inv_wait.
  - destruct Hs as (Hw & Hi & He). unfold sys_inv. cbn. split_and!; [|by apply ids_ok_goto|done].
    apply waiting_ok_goto; [|done|].
    + eapply waiting_ok_table; [done|]. intros j q [_ Hj]%lookup_delete_Some. by eapply wk_table.
    + intros a' [?|[= <-]]; [done|]. eapply (wk_phase _ _ _ _ Hw); eauto.
  - unfold SubmitLeaseReadWithMode in Hl. destruct (rsm_leaseRead (sy_rsm s0)); cbn [negb] in Hl; [destruct lease|].
    + destruct (sm_DoOp _ _ _) as [[]|]; simplify_eq/=. by apply inv_quiet.
    + simplify_eq. by apply inv_quiet.
    + simplify_eq. by apply inv_quiet.
  - by eapply inv_apply.
  - unfold createSnapshot. destruct (rsm_shutdown _); [by apply inv_quiet|].
    destruct (truncateWALAsync_same index (sy_rsm s0)) as (? & ? & ? & ?). apply inv_quiet; cbn; [done..|lia].
  - unfold applySnapshot in Hr. destruct (rsm_shutdown _); [simplify_eq; by apply inv_quiet|].
    destruct (sm_Restore _ _ _) as [sm'|]; cbn [mbind option_bind] in Hr; [|done]. injection Hr as <-.
    set (r0 := if bool_decide _ then _ else _).
    assert (rsm_ops r0 = rsm_ops (sy_rsm s0) ∧ rsm_waitingOps r0 = rsm_waitingOps (sy_rsm s0) ∧
      rsm_me r0 = rsm_me (sy_rsm s0) ∧ rsm_idCounter (sy_rsm s0) ≤ rsm_idCounter r0) as (? & ? & ? & ?).
    { unfold r0. case_bool_decide; cbn; split_and!; auto; lia. }
    clearbody r0. match goal with |- context [truncateWALAsync index ?x] => set (r1 := x) end.
    destruct (truncateWALAsync_same index r1) as (E1 & E2 & E3 & E4).
    apply inv_quiet; [done|rewrite ?E1, ?E2, ?E3, ?E4; unfold r1; cbn; done..].
  - by apply inv_quiet.
  - by apply inv_quiet.
  - by apply inv_wake_all.
  - unfold rsm_Close. destruct (rsm_shutdown _); [by apply inv_quiet|by apply inv_wake_all].
Qed.

Lemma sys_inv_init s : sys_init s → sys_inv s.
Proof.
  intros (Ho & Ht & [Hid _] & Hc & Hs & Hh). unfold sys_inv. rewrite Ho, Ht, Hc, Hs, Hh. split_and!; [| |done].
  - split; [apply map_Forall_empty|done|apply map_Forall_empty..].
  - split; [done|done| |apply map_Forall_empty]. intros op op' ?%not_elem_of_nil. done.
Qed.

Lemma sys_reach_inv s0 s : sys_init s0 → rtc sys_step s0 s → sys_inv s.
Proof. intros H0%sys_inv_init. induction 1; eauto using sys_step_inv. Qed.

(** C15: an answer is an execution.  In every interleaving of clients with the
    apply loop, snapshots and shutdown, a client that [Submit] answers OK gets
    the reply the state machine gave when the apply loop executed, at the index
    the client was promised, an operation with the client's node and id; if
    that operation was proposed since this node started it is the client's own
    request.  (Ids are not unique across restarts, see below.) *)
Theorem submit_answer s0 s p c rep :
  sys_init s0 → rtc sys_step s0 s →
  sy_clients s !! p = Some c → cl_phase c = Returned (OK, rep) →
  ∃ op result, rep = Some result ∧ (cl_index c, op, result) ∈ sy_hist s ∧
    Op_Me op = Op_Me (cl_op c) ∧ Op_Id op = Op_Id (cl_op c) ∧
    (op ∈ sy_sub s → op = cl_op c) ∧
    ∃ env sm sm', sm_DoOp (Env := Env) env sm (Op_Req op) = Some (sm', result).
Proof.
  intros H0 Hr Hc Hph. destruct (sys_reach_inv _ _ H0 Hr) as (Hw & Hi & He).
  destruct (wk_phase _ _ _ _ Hw p c Hc _ (or_intror Hph) eq_refl) as (result & Hrep & op & Hin & Heq).
  cbn in Hrep. apply bool_decide_eq_true in Heq as [E1 E2]. exists op, result. split_and!; [done|done|done|done| |].
  - intros Hsub. apply (id_unique _ _ _ _ Hi); [done|by apply (id_client _ _ _ _ Hi p)|done].
  - rewrite Forall_forall in He. exact (He _ Hin).
Qed.
End clients.
