(* ===== verification/RsmRuns.v ===== *)
(** * Runs of the replicated key-value server

    The witnesses of the theorems about the replicated state machine, and
    concrete runs in which restarts, late snapshots and clients that share an
    index go wrong. *)
From stdpp Require Import prelude gmap strings sorting relations.
From Stdlib Require Import Ascii.
From stdpp Require Import options.
From S2P Require Import Prelude Json JsonText KvApi ExpiryHeap Store StoreProps ShardState Tx Server ServerProps Wal WalProps Rsm RsmProps RsmClients.
Local Open Scope Z_scope.

Definition rr_env : kv_env := {| ke_call := sw_env; ke_order := id; ke_restore := wit_env |}.
Notation rr_server := (KVServer (gmap string json)).
#[local] Instance rr_machine : StateMachine rr_server kv_env := kv_state_machine sw_hash.

(** A server with 8 shards over what a Badger directory holds. *)
Definition rr_open (db : gmap string json) : rr_server :=
  kv_with_store sw0 {| st_db := db; st_expiryHeap := []; st_tombstones := ∅ |}.
Definition rr_put (value : string) (version : Z) : request :=
  ReqPut {| PutArgs_Key := "k"; PutArgs_Value := value; PutArgs_Version := version; PutArgs_TTL := 0 |}.
Definition rr_op (id : Z) (req : request) : Op := {| Op_Me := 0; Op_Id := id; Op_Req := req |}.
(** Value and version of [k]. *)
Definition rr_get (kv : rr_server) : option (string * Z) :=
  (λ e, (ke_Value e, ke_Version e)) <$> entry_at (kv_store kv) "k".

Definition rr_start (maxraftstate : Z) (db : gmap string json) (wal : option Logger) : option (RSM rr_server) :=
  MakeRSM all_ok 0 rr_env (λ _, rr_env) 10 0 maxraftstate false (rr_open db) None 0 wal.
Definition rr_apply (persistBytes now index : Z) (op : Op) (r : RSM rr_server) : option (RSM rr_server * bool) :=
  '(r, _, snap) ← applyCommand rr_env now 1 persistBytes index (Some op) r; Some (r, snap).

(** ** Recovery *)

Definition rr_log : list logged :=
  [(1, 1, 10, rr_op 1 (rr_put "a" 0)); (2, 1, 10, rr_op 2 (rr_put "b" 1))].
Definition rr_torn : list logged := [(3, 1, 11, rr_op 3 (rr_put "c" 2))].

Lemma wal_roundtrip_witness :
  walEntryToRequest (walEntryFromOp 0 7 1 10 (rr_op 1 (ReqSetShardState
    {| SetShardStateArgs_ShardID := 5; SetShardStateArgs_State := 2; SetShardStateArgs_TargetGroup := 7;
       SetShardStateArgs_TopologyEpoch := 3; SetShardStateArgs_TargetReplicas := ["n1"] |}))) =
  Some (Some (ReqSetShardState
    {| SetShardStateArgs_ShardID := 5; SetShardStateArgs_State := 2; SetShardStateArgs_TargetGroup := 7;
       SetShardStateArgs_TopologyEpoch := 3; SetShardStateArgs_TargetReplicas := ["n1"] |}), true).
Proof. apply (wal_roundtrip 0 7 1 10). cbn. unfold isS32. lia. Defined.

Lemma recovery_exact_witness :
  ∃ r, rr_start (-1) ∅ (Some (NewLogger (lines (log_entry 0 <$> rr_log) ++ take 40 (lines (log_entry 0 <$> rr_torn)))
         true true)) = Some r ∧
    2 ≤ rsm_lastApplied r ∧ rr_get (rsm_sm r) ≠ None.
Proof.
  destruct (recovery_exact all_ok 0 rr_env (λ _, rr_env) 10 0 (-1) false (rr_open ∅) None 0 true rr_log rr_torn
    (take 40 (lines (log_entry 0 <$> rr_torn)))) as (new' & [rest Hnew] & E).
  - repeat constructor; by vm_compute.
  - repeat constructor; by vm_compute.
  - repeat constructor; by vm_compute.
  - exists (drop 40 (lines (log_entry 0 <$> rr_torn))). symmetry. apply take_drop.
  - unfold rr_start. rewrite E. clear E. unfold rr_torn in Hnew.
    destruct new' as [|x [|y new']]; [|injection Hnew as <- _|discriminate].
    + eexists. split; [vm_compute; reflexivity|]. split; [cbn; lia|by vm_compute].
    + eexists. split; [vm_compute; reflexivity|]. split; [cbn; lia|by vm_compute].
Defined.

(** ** A client and its answer *)

Definition rr0 : RSM rr_server := mkRSM 0 (-1) (rr_open ∅) 0 ∅ ∅ false None false false 0 0 10 64 200000000.
Lemma rr0_started : rr_start (-1) ∅ None = Some rr0.
Proof. reflexivity. Qed.

Definition rr_client : client := {| cl_op := rr_op 1 (rr_put "a" 0); cl_index := 1; cl_phase := Started |}.
Definition rr1 : RSM rr_server := (Submit_start (λ _, (1, true)) (rr_put "a" 0) rr0).1.1.
Definition rr2 : RSM rr_server := Submit_register 0 1 rr1.
Definition rr3 : RSM rr_server := match rr_apply 0 10 1 (rr_op 1 (rr_put "a" 0)) rr2 with Some (r, _) => r | None => rr2 end.
Definition rr4 : RSM rr_server := (Submit_wait 0 TakesDone rr3).1.
Definition rr_reply : reply := RepPut (putReply OK "").
Definition rr_sys (r : RSM rr_server) (ph : phase) (hist : list (Z * Op * reply)) : sys :=
  mkSys r {[0%nat := cl_to ph rr_client]} [cl_op rr_client] hist.

Lemma submit_answer_witness :
  ∃ s op result, rtc (sys_step (Env := kv_env)) (mkSys rr0 ∅ [] []) s ∧ (1, op, result) ∈ sy_hist s ∧
    Op_Id op = 1 ∧ (op ∈ sy_sub s → op = rr_op 1 (rr_put "a" 0)).
Proof.
  set (h := [(1, rr_op 1 (rr_put "a" 0), rr_reply)]).
  set (s := rr_sys (Submit_finish 1 rr4) (Returned (OK, Some rr_reply)) h).
  assert (rtc (sys_step (Env := kv_env)) (mkSys rr0 ∅ [] []) s) as Hrun.
  { assert (Submit_start (λ _, (1, true)) (rr_put "a" 0) rr0 = (rr1, Some (cl_op rr_client), Some (0%nat, 1))) as E1
      by vm_refl.
    assert (applyCommand rr_env 10 1 0 1 (Some (cl_op rr_client)) rr2 = Some (rr3, Some rr_reply, false)) as E3
      by vm_refl.
    assert (Submit_wait 0 TakesDone rr3 = (rr4, Some (OK, Some rr_reply))) as E4 by vm_refl.
    assert (rsm_shutdown rr2 = false) as E2 by vm_refl.
    apply rtc_l with (rr_sys rr1 Started []).
    { exact (step_start (mkSys rr0 ∅ [] []) _ _ _ _ _ _ ltac:(done) E1). }
    apply rtc_l with (rr_sys rr2 Waiting []).
    { exact (step_register (rr_sys rr1 Started []) 0%nat (cl_to Started rr_client) eq_refl eq_refl). }
    apply rtc_l with (rr_sys rr3 Waiting h).
    { exact (step_apply (rr_sys rr2 Waiting []) _ _ _ _ _ _ _ _ _ E2 E3). }
    apply rtc_l with (rr_sys rr4 (Answered (OK, Some rr_reply)) h).
    { exact (step_wait (rr_sys rr3 Waiting h) 0%nat (cl_to Waiting rr_client) _ _ _ eq_refl eq_refl E4). }
    apply rtc_once.
    exact (step_finish (rr_sys rr4 (Answered (OK, Some rr_reply)) h) 0%nat
      (cl_to (Answered (OK, Some rr_reply)) rr_client) _ eq_refl eq_refl). }
  destruct (submit_answer (mkSys rr0 ∅ [] []) s 0%nat (cl_to (Returned (OK, Some rr_reply)) rr_client) (Some rr_reply))
    as (op & result & _ & Hin & _ & Hid & Hown & _).
  - by repeat split.
  - exact Hrun.
  - reflexivity.
  - reflexivity.
  - exists s, op, result. by split_and!.
Defined.

(** ** Runs that go wrong *)

(** Two commands of the log: the first names a version that does not exist yet
    and is refused, the second creates the key. *)
Definition rr_cmds : list (Z * Op) := [(1, rr_op 1 (rr_put "z" 1)); (2, rr_op 2 (rr_put "a" 0))].
Definition rr_apply_all (cmds : list (Z * Op)) (r : RSM rr_server) : option (RSM rr_server) :=
  foldl (λ r c, r ← r; fst <$> rr_apply 0 10 c.1 c.2 r) (Some r) cmds.
(** What the worker of the log has written once it has seen every request. *)
Definition rr_wal (r : RSM rr_server) : text :=
  match rsm_walLogger r with
  | Some l => lg_content (Wal.flush all_ok (Nat.iter (length (lg_reqCh l)) (worker_recv all_ok) l))
  | None => []
  end.

(** a restart executes commands twice.  The Badger directory survives a
    restart, but recovery starts again from the snapshot (here there is none)
    and executes the write-ahead log on the state that already contains its
    effects.  Commands that were refused then succeed: before the restart [k]
    holds a at version 1, the only state the log allows; after it, and without
    any new request, z at version 2. *)
Theorem restart_reexecutes :
  ∃ r r', rr_start (-1) ∅ (Some (NewLogger [] true true)) ≫= rr_apply_all rr_cmds = Some r ∧
    rr_get (rsm_sm r) = Some ("a", 1) ∧
    rr_start (-1) (st_db (kv_store (rsm_sm r))) (Some (NewLogger (rr_wal r) true true)) = Some r' ∧
    rr_get (rsm_sm r') = Some ("z", 2).
Proof.
  eexists _, _. split; [vm_compute; reflexivity|]. split; [vm_compute; reflexivity|].
  split; [vm_compute; reflexivity|]. vm_compute. reflexivity.
Qed.

(** a snapshot can be later than its index.  [applyCommand] starts
    [createSnapshot] in a goroutine; here it runs only after two more commands.
    The snapshot is stored under index 64 but contains command 66.  A replica
    that restores it and applies commands 65 and 66 of the log ends in a state
    different from that of the replica that took it. *)
Theorem late_snapshot_diverges :
  let c64 := rr_op 1 (rr_put "a" 0) in
  let c65 := rr_op 2 (rr_put "x" 2) in
  let c66 := rr_op 3 (rr_put "y" 1) in
  ∃ r0 r1 r2 r snap rep rep',
    rr_start 1000 ∅ None = Some r0 ∧ rr_apply 900 300000000 64 c64 r0 = Some (r1, true) ∧
    rr_apply_all [(65, c65); (66, c66)] r1 = Some r2 ∧
    createSnapshot 300000001 64 r2 = (r, Some snap) ∧
    rr_get (rsm_sm r) = Some ("y", 2) ∧
    applySnapshot rr_env 300000002 64 snap r0 = Some rep ∧
    rr_apply_all [(65, c65); (66, c66)] rep = Some rep' ∧
    rr_get (rsm_sm rep') = Some ("x", 3).
Proof.
  intros c64 c65 c66. unfold c64, c65, c66. eexists _, _, _, _, _, _, _.
  do 7 (split; [vm_compute; reflexivity|]). vm_compute. reflexivity.
Qed.

(** ids repeat after a restart.  Without a snapshot the counter of a new
    node starts at 0 again.  A client that proposes a write of [b] at index 9 is
    answered OK when an operation proposed before the restart, a write of [a]
    with the same id, is applied at that index: its own write never happens. *)
Theorem restart_reuses_ids :
  let '(r1, oper, waiting) := Submit_start (λ _, (9, true)) (rr_put "b" 0) rr0 in
  let r2 := Submit_register 0 9 r1 in
  oper = Some (rr_op 1 (rr_put "b" 0)) ∧ waiting = Some (0%nat, 9) ∧
  (λ '(r3, _), ((Submit_wait 0 TakesDone r3).2, rr_get (rsm_sm r3))) <$>
    rr_apply 0 10 9 (rr_op 1 (rr_put "a" 0)) r2 =
  Some (Some (OK, Some rr_reply), Some ("a", 1)).
Proof. vm_compute. by split_and!. Qed.

(** a client removes the registration of another.  When a second client is
    promised the index of a first one, the first is told to give up, and
    [Submit] then deletes whatever is registered at its index: the second
    client.  Its operation is executed, but nobody wakes it, and it ends with
    the error of the timeout. *)
Theorem finish_unregisters_other :
  let r1 := (Submit_start (λ _, (5, true)) (rr_put "a" 0) rr0).1.1 in
  let r2 := Submit_register 0 5 r1 in
  let r3 := (Submit_start (λ _, (5, true)) (rr_put "b" 0) r2).1.1 in
  let r4 := Submit_register 1 5 r3 in
  let '(r5, answer1) := Submit_wait 0 TakesDone r4 in
  let r6 := Submit_finish 5 r5 in
  answer1 = Some (ErrWrongLeader, None) ∧
  (λ '(r7, _), (rr_get (rsm_sm r7), (Submit_wait 1 TakesDone r7).2, (Submit_wait 1 TimerFires r7).2)) <$>
    rr_apply 0 10 5 (rr_op 2 (rr_put "b" 0)) r6 =
  Some (Some ("b", 1), None, Some (ErrWrongLeader, None)).
Proof. vm_compute. by split_and!. Qed.
