(* ===== verification/RsmLoop.v ===== *)
(** * RsmLoop: the apply loop of the replicated state machine
      (src/pkg/kv/consensus.go, applyLoop)

    The loop takes the messages of the Raft node one by one.  What it leaves in
    the state machine depends on the commands alone, not on the clients that
    wait, the log or the snapshots the replica takes: replicas that are fed the
    same commands agree. *)
From stdpp Require Import prelude gmap strings.
From S2P Require Import Prelude Json JsonText KvApi ExpiryHeap Store ShardState Tx Server Wal Rsm.
From stdpp Require Import options.
Local Open Scope Z_scope.

Section loop.
Context {SM Env : Type} `{StateMachine SM Env}.

(** A message with what its handling draws from outside: the clock, the term and
    the size of the persisted state. *)
Inductive loop_msg :=
  | MsgCommand (env : Env) (now term persistBytes index : Z) (command : option Op)
  | MsgSnapshot (env : Env) (now index : Z) (snap : rsm_snapshot)
  | MsgClosed.                                (* the channel was closed *)

(** One round: the node and whether the loop goes on; [None] when the handler
    does not return. *)
Definition applyLoop_round (msg : loop_msg) (r : RSM SM) : option (RSM SM * bool) :=
  match msg with
  | MsgClosed => Some (kill r, false)
  | _ =>
      if rsm_shutdown r then Some (r, false)
      else match msg with
           | MsgCommand env now term bytes index command =>
               '(r, _, _) ← applyCommand env now term bytes index command r; Some (r, true)
           | MsgSnapshot env now index snap => r ← applySnapshot env now index snap r; Some (r, true)
           | MsgClosed => None
           end
  end.
Fixpoint applyLoop (msgs : list loop_msg) (r : RSM SM) : option (RSM SM * bool) :=
  match msgs with
  | [] => Some (r, true)
  | msg :: msgs =>
      match applyLoop_round msg r with
      | Some (r, true) => applyLoop msgs r
      | Some (r, false) => Some (r, false)
      | None => None
      end
  end.

(** ** The commands decide *)

(** The state machine after one message. *)
Definition sm_msg (msg : loop_msg) (sm : SM) : option SM :=
  match msg with
  | MsgCommand env _ _ _ _ (Some oper) => fst <$> sm_DoOp env sm (Op_Req oper)
  | MsgCommand _ _ _ _ _ None | MsgClosed => Some sm
  | MsgSnapshot env _ _ snap => sm_Restore env sm snap.2
  end.
Definition sm_msgs (msgs : list loop_msg) (sm : SM) : option SM := foldl (λ o m, sm ← o; sm_msg m sm) (Some sm) msgs.
Definition is_open (m : loop_msg) : Prop := match m with MsgClosed => False | _ => True end.

Lemma foldl_none msgs : foldl (λ o m, sm ← o; sm_msg m sm) None msgs = None.
Proof. by induction msgs. Qed.
Lemma wake_sm index oper result (r : RSM SM) : rsm_sm (wake index oper result r) = rsm_sm r ∧ rsm_shutdown (wake index oper result r) = rsm_shutdown r.
Proof. unfold wake. by destruct (rsm_waitingOps r !! index). Qed.
Lemma truncate_sm i (r : RSM SM) : rsm_sm (truncateWALAsync i r).1 = rsm_sm r ∧ rsm_shutdown (truncateWALAsync i r).1 = rsm_shutdown r.
Proof. unfold truncateWALAsync. repeat case_match; done. Qed.

Lemma round_state msg r : is_open msg → rsm_shutdown r = false →
  match applyLoop_round msg r with
  | Some (r', go) => go = true ∧ rsm_shutdown r' = false ∧ sm_msg msg (rsm_sm r) = Some (rsm_sm r')
  | None => sm_msg msg (rsm_sm r) = None
  end.
Proof.
  intros Ho Hs. unfold applyLoop_round. rewrite Hs. destruct msg as [env now term bytes index [oper|]|env now index snap|]; [| |..|done].
  - cbn [sm_msg applyCommand]. cbv zeta. cbn [with_wal rsm_sm]. destruct (sm_DoOp env (rsm_sm r) (Op_Req oper)) as [[sm rep]|]; [|done].
    cbn [mbind option_bind fmap option_fmap option_map fst].
    set (r1 := if bool_decide _ then _ else _).
    assert (rsm_sm r1 = sm ∧ rsm_shutdown r1 = false) as [E1 E2] by (unfold r1; by case_bool_decide).
    destruct (wake_sm index oper rep r1) as [W1 W2]. rewrite E1 in W1. rewrite E2 in W2. destruct (shouldCreateSnapshot _ _ _ _); cbn [mbind option_bind with_indexes rsm_sm rsm_shutdown]; rewrite W1, W2; done.
  - cbn. done.
  - cbn [sm_msg]. unfold applySnapshot. rewrite Hs.
    assert (rsm_sm (if bool_decide (rsm_idCounter r < snap.1) then with_id snap.1 r else r) = rsm_sm r) as -> by (by case_bool_decide).
    destruct (sm_Restore env (rsm_sm r) snap.2) as [sm|]; [|done]. cbn [mbind option_bind].
    set (r2 := with_indexes _ _ _ _). destruct (truncate_sm index r2) as [W1 W2]. rewrite W1, W2. unfold r2. cbn. split_and!; [done| |done].
    by case_bool_decide.
Qed.

(** What the apply loop makes of a sequence of messages is decided by the
    state machine and the messages alone: a live replica returns from them
    exactly when executing the commands and restoring the snapshots in order
    returns, and its state machine is then the one that gives, whatever clients
    wait on it, whatever is in its log and whatever snapshots it takes. *)
Theorem apply_loop_replicates msgs r : Forall is_open msgs → rsm_shutdown r = false →
  match applyLoop msgs r with
  | Some (r', go) => go = true ∧ rsm_shutdown r' = false ∧ sm_msgs msgs (rsm_sm r) = Some (rsm_sm r')
  | None => sm_msgs msgs (rsm_sm r) = None
  end.
Proof.
  intros Ho. revert r. induction Ho as [|msg msgs Hm _ IH]; intros r Hs; [done|]. cbn [applyLoop].
  pose proof (round_state msg r Hm Hs) as Hr. unfold sm_msgs. cbn [foldl mbind option_bind].
  destruct (applyLoop_round msg r) as [[r1 go]|]; [|rewrite Hr; apply foldl_none].
  destruct Hr as (-> & Hs1 & E). rewrite E. cbn [mbind option_bind]. apply (IH r1 Hs1).
Qed.
End loop.
