(* ===== verification/Watch.v ===== *)
(** * pkg/watch/manager.go: publishing changes to subscribers

    A [Watcher] is shared between the manager and its subscriber, so the
    watchers live in a heap by id ([mg_objs]) and the table is the set of their
    ids; a channel is the list of its buffered events and whether it is closed.
    The capacity of a channel, the ready case a [select] takes, the order of a
    range over the table and the clock are arguments.  A result [None] is a
    panic: a send on a closed channel or a channel closed twice. *)
From stdpp Require Import prelude gmap strings.
From stdpp Require Import options.
From S2P Require Import Prelude.
Local Open Scope Z_scope.

Record Event := {
  Event_Key : string; Event_OldValue : string; Event_NewValue : string;
  Event_NewVersion : Z; Event_EventType : string; Event_Timestamp : Z }.

Record Watcher := {
  Watcher_ID : Z; Watcher_Key : string; Watcher_IsPrefix : bool;
  Watcher_Channel : list Event; Watcher_closed : bool;
  Watcher_CreatedAt : Z; Watcher_LastHeartbeat : Z }.

Record ManagerConfig := {
  EventBufferSize : Z; WatcherBufferSize : Z; DLQSize : Z;
  WatcherTimeout : Z; HealthCheckTick : Z; EnqueueTimeout : Z }.

Record Stats := {
  TotalEvents : Z; SuccessfulSends : Z; FailedSends : Z; DroppedEvents : Z; ActiveWatchers : Z }.

Record Manager := mkManager {
  mg_objs : gmap Z Watcher; mg_watchers : gset Z; mg_nextID : Z;
  mg_eventCh : list Event; mg_deadLetterCh : list Event; mg_done : bool;
  mg_config : ManagerConfig; mg_stats : Stats }.

Definition DefaultConfig : ManagerConfig :=
  {| EventBufferSize := 1000; WatcherBufferSize := 100; DLQSize := 500; WatcherTimeout := 0;
     HealthCheckTick := 10000000000; EnqueueTimeout := 500000000 |}.

Definition NewManager (cfg : ManagerConfig) : Manager :=
  let or_default x d := if decide (x ≤ 0) then d else x in
  let cfg := {| EventBufferSize := or_default (EventBufferSize cfg) 1000;
                WatcherBufferSize := or_default (WatcherBufferSize cfg) 100;
                DLQSize := or_default (DLQSize cfg) 500; WatcherTimeout := WatcherTimeout cfg;
                HealthCheckTick := or_default (HealthCheckTick cfg) 10000000000;
                EnqueueTimeout := or_default (EnqueueTimeout cfg) 500000000 |} in
  mkManager ∅ ∅ 1 [] [] false cfg
    {| TotalEvents := 0; SuccessfulSends := 0; FailedSends := 0; DroppedEvents := 0; ActiveWatchers := 0 |}.

Definition with_table (objs : gmap Z Watcher) (ids : gset Z) (st : Stats) (m : Manager) : Manager :=
  mkManager objs ids (mg_nextID m) (mg_eventCh m) (mg_deadLetterCh m) (mg_done m) (mg_config m) st.
Definition with_queues (ev dlq : list Event) (st : Stats) (m : Manager) : Manager :=
  mkManager (mg_objs m) (mg_watchers m) (mg_nextID m) ev dlq (mg_done m) (mg_config m) st.
Definition add_stats (total ok failed dropped active : Z) (s : Stats) : Stats :=
  {| TotalEvents := wrapS64 (TotalEvents s + total); SuccessfulSends := wrapS64 (SuccessfulSends s + ok);
     FailedSends := wrapS64 (FailedSends s + failed); DroppedEvents := wrapS64 (DroppedEvents s + dropped);
     ActiveWatchers := wrapS64 (ActiveWatchers s + active) |}.
Definition has_room (l : list Event) (cap : Z) : bool := bool_decide (Z.of_nat (length l) < cap).

(** ** Subscribing *)

Definition Subscribe (now : Z) (key : string) (prefix : bool) (m : Manager) : Manager * option Z :=
  if bool_decide (10000 ≤ Z.of_nat (size (mg_watchers m))) then (m, None)
  else
    let id := wrapS64 (mg_nextID m + 1) in
    let w := {| Watcher_ID := id; Watcher_Key := key; Watcher_IsPrefix := prefix; Watcher_Channel := [];
                Watcher_closed := false; Watcher_CreatedAt := now; Watcher_LastHeartbeat := now |} in
    (mkManager (<[id := w]> (mg_objs m)) ({[id]} ∪ mg_watchers m) id (mg_eventCh m) (mg_deadLetterCh m)
       (mg_done m) (mg_config m) (add_stats 0 0 0 0 1 (mg_stats m)), Some id).

(** [close(w.Channel)]; closing a closed channel panics. *)
Definition close_channel (id : Z) (m : Manager) : option Manager :=
  w ← mg_objs m !! id;
  if Watcher_closed w then None
  else Some (with_table (<[id := {| Watcher_ID := Watcher_ID w; Watcher_Key := Watcher_Key w;
         Watcher_IsPrefix := Watcher_IsPrefix w; Watcher_Channel := Watcher_Channel w; Watcher_closed := true;
         Watcher_CreatedAt := Watcher_CreatedAt w; Watcher_LastHeartbeat := Watcher_LastHeartbeat w |}]> (mg_objs m))
         (mg_watchers m) (mg_stats m) m).
Definition forget (id : Z) (m : Manager) : Manager :=
  with_table (mg_objs m) (mg_watchers m ∖ {[id]}) (mg_stats m) m.
Definition one_less (m : Manager) : Manager :=
  with_table (mg_objs m) (mg_watchers m) (add_stats 0 0 0 0 (-1) (mg_stats m)) m.

(** [Unsubscribe]: the part under the lock, with whether the watcher was found,
    and the part after it. *)
Definition Unsubscribe_remove (id : Z) (m : Manager) : Manager * bool :=
  (forget id m, bool_decide (id ∈ mg_watchers m)).
Definition Unsubscribe_close (id : Z) (m : Manager) : option Manager :=
  m ← close_channel id m; Some (one_less m).

(** ** Publishing *)

Inductive notify_result := NotifyOK | NotifyClosed | NotifyDLQ | NotifyTimeout.

(** The first [select]: [None] when it takes the default branch.  When both
    cases are ready [preferDone] chooses. *)
Definition Notify_try (preferDone : bool) (e : Event) (m : Manager) : option (Manager * notify_result) :=
  let room := has_room (mg_eventCh m) (EventBufferSize (mg_config m)) in
  if room && negb (mg_done m && preferDone)
  then Some (with_queues (mg_eventCh m ++ [e]) (mg_deadLetterCh m) (mg_stats m) m, NotifyOK)
  else if mg_done m then Some (m, NotifyClosed)
  else None.

(** The second [select], at the time a case is ready and taken; [None] when
    the case is not ready. *)
Inductive notify_case := CaseDLQ | CaseEvent | CaseTimer | CaseDone.
Definition Notify_wait (c : notify_case) (e : Event) (m : Manager) : option (Manager * notify_result) :=
  match c with
  | CaseDLQ => if has_room (mg_deadLetterCh m) (DLQSize (mg_config m))
               then Some (with_queues (mg_eventCh m) (mg_deadLetterCh m ++ [e]) (mg_stats m) m, NotifyDLQ) else None
  | CaseEvent => if has_room (mg_eventCh m) (EventBufferSize (mg_config m))
                 then Some (with_queues (mg_eventCh m ++ [e]) (mg_deadLetterCh m) (mg_stats m) m, NotifyOK) else None
  | CaseTimer => Some (with_queues (mg_eventCh m) (mg_deadLetterCh m) (add_stats 0 0 0 1 0 (mg_stats m)) m, NotifyTimeout)
  | CaseDone => if mg_done m then Some (m, NotifyClosed) else None
  end.

Definition matches (w : Watcher) (key : string) : bool :=
  if Watcher_IsPrefix w then has_prefix (Watcher_Key w) key else bool_decide (Watcher_Key w = key).

Definition push_event (now : Z) (e : Event) (w : Watcher) : Watcher :=
  {| Watcher_ID := Watcher_ID w; Watcher_Key := Watcher_Key w; Watcher_IsPrefix := Watcher_IsPrefix w;
     Watcher_Channel := Watcher_Channel w ++ [e]; Watcher_closed := Watcher_closed w;
     Watcher_CreatedAt := Watcher_CreatedAt w; Watcher_LastHeartbeat := now |}.

(** One round of the loop of [distributeEvent]. *)
Definition send_event (now : Z) (e : Event) (id : Z) (m : Manager) : option Manager :=
  w ← mg_objs m !! id;
  if negb (matches w (Event_Key e)) then Some m
  else if Watcher_closed w then None
  else if has_room (Watcher_Channel w) (WatcherBufferSize (mg_config m))
  then Some (with_table (<[id := push_event now e w]> (mg_objs m)) (mg_watchers m)
               (add_stats 0 1 0 0 0 (mg_stats m)) m)
  else Some (with_table (mg_objs m) (mg_watchers m) (add_stats 0 0 1 0 0 (mg_stats m)) m).

Fixpoint distribute_loop (now : Z → Z) (e : Event) (ids : list Z) (m : Manager) : option Manager :=
  match ids with
  | [] => Some m
  | id :: ids => m ← send_event (now id) e id m; distribute_loop now e ids m
  end.
(** [ids] is the order in which Go ranges over the table. *)
Definition distributeEvent (now : Z → Z) (ids : list Z) (e : Event) (m : Manager) : option Manager :=
  distribute_loop now e ids m.

(** One round of [processLoop] that takes an event, from the dead-letter queue
    if [dlq]; [None] when that channel is empty or the delivery panics. *)
Definition processLoop_take (dlq : bool) (m : Manager) : option (Event * Manager) :=
  match (if dlq then mg_deadLetterCh m else mg_eventCh m) with
  | [] => None
  | e :: rest =>
      Some (e, with_queues (if dlq then mg_eventCh m else rest) (if dlq then rest else mg_deadLetterCh m)
                 (add_stats 1 0 0 0 0 (mg_stats m)) m)
  end.

(** ** Cleaning up *)

Definition timed_out (now : Z) (m : Manager) (id : Z) : bool :=
  match mg_objs m !! id with
  | Some w => bool_decide (WatcherTimeout (mg_config m) < now - Watcher_LastHeartbeat w)
  | None => false
  end.
Definition expired_watchers (now : Z) (m : Manager) : list Z :=
  filter (λ id, timed_out now m id = true) (elements (mg_watchers m)).
Definition drop_watcher (id : Z) (m : Manager) : option Manager :=
  if bool_decide (id ∈ mg_watchers m) then m ← close_channel id m; Some (one_less (forget id m)) else Some m.
Fixpoint drop_all (ids : list Z) (m : Manager) : option Manager :=
  match ids with
  | [] => Some m
  | id :: ids => m ← drop_watcher id m; drop_all ids m
  end.
Definition cleanupExpired (now : Z) (m : Manager) : option Manager :=
  if decide (WatcherTimeout (mg_config m) ≤ 0) then Some m else drop_all (expired_watchers now m) m.

Definition GetWatcherCount (m : Manager) : nat := size (mg_watchers m).

(** [Close]: the announcement, and what it does once both loops have ended. *)
Definition Close_done (m : Manager) : option Manager :=
  if mg_done m then None
  else Some (mkManager (mg_objs m) (mg_watchers m) (mg_nextID m) (mg_eventCh m) (mg_deadLetterCh m) true
               (mg_config m) (mg_stats m)).
Fixpoint close_all (ids : list Z) (m : Manager) : option Manager :=
  match ids with
  | [] => Some (with_table (mg_objs m) ∅ (mg_stats m) m)
  | id :: ids => m ← close_channel id m; close_all ids m
  end.
Definition Close_watchers (m : Manager) : option Manager := close_all (elements (mg_watchers m)) m.
