(* ===== verification/WatchProps.v ===== *)
(** * What subscribers receive

    Clients, the process loop, the health check and [Close] interleave at the
    granularity of the manager's critical sections and channel operations.  No
    interleaving panics, and a subscriber receives, in order, the matching
    events that were processed since it subscribed, except those that found its
    buffer full. *)
From stdpp Require Import prelude gmap strings relations.
From stdpp Require Import options.
From S2P Require Import Prelude Watch.
Local Open Scope Z_scope.

(** What happened to one subscription: the matching events processed while it
    was in the table, the events its client took from the channel, and how many
    events found the buffer full. *)
Record subscription := { sb_since : list Event; sb_got : list Event; sb_missed : nat }.

(** The manager, the unsubscriptions between their two parts, whether the loops
    have ended, the ghost histories of accepted and processed events, and the
    subscriptions. *)
Record watch_sys := mkWatch {
  ws_mgr : Manager; ws_closing : gset Z; ws_stopped : bool;
  ws_accepted : list Event; ws_processed : list Event; ws_subs : gmap Z subscription }.

(** The ghost effect of delivering an event. *)
Definition note_event (m : Manager) (e : Event) (id : Z) (s : subscription) : subscription :=
  match mg_objs m !! id with
  | Some w =>
      if bool_decide (id ∈ mg_watchers m) && matches w (Event_Key e) then
        {| sb_since := sb_since s ++ [e]; sb_got := sb_got s;
           sb_missed := if has_room (Watcher_Channel w) (WatcherBufferSize (mg_config m))
                        then sb_missed s else S (sb_missed s) |}
      else s
  | None => s
  end.

Definition pop_event (w : Watcher) (rest : list Event) : Watcher :=
  {| Watcher_ID := Watcher_ID w; Watcher_Key := Watcher_Key w; Watcher_IsPrefix := Watcher_IsPrefix w;
     Watcher_Channel := rest; Watcher_closed := Watcher_closed w;
     Watcher_CreatedAt := Watcher_CreatedAt w; Watcher_LastHeartbeat := Watcher_LastHeartbeat w |}.

Definition ws_with (m : Manager) (s : watch_sys) : watch_sys :=
  mkWatch m (ws_closing s) (ws_stopped s) (ws_accepted s) (ws_processed s) (ws_subs s).

(** What a goroutine attempts: [None] for the panics of the source. *)
Inductive watch_step : watch_sys → option watch_sys → Prop :=
  | ws_subscribe s now key prefix m id :
      mg_nextID (ws_mgr s) < 2 ^ 63 - 1 →
      Subscribe now key prefix (ws_mgr s) = (m, Some id) →
      watch_step s (Some (mkWatch m (ws_closing s) (ws_stopped s) (ws_accepted s) (ws_processed s)
        (<[id := {| sb_since := []; sb_got := []; sb_missed := 0 |}]> (ws_subs s))))
  | ws_unsubscribe s id m :
      Unsubscribe_remove id (ws_mgr s) = (m, true) →
      watch_step s (Some (mkWatch m ({[id]} ∪ ws_closing s) (ws_stopped s) (ws_accepted s) (ws_processed s) (ws_subs s)))
  | ws_unsubscribe_close s id :
      id ∈ ws_closing s →
      watch_step s ((λ m, mkWatch m (ws_closing s ∖ {[id]}) (ws_stopped s) (ws_accepted s) (ws_processed s) (ws_subs s))
                      <$> Unsubscribe_close id (ws_mgr s))
  | ws_notify s preferDone e m r :
      Notify_try preferDone e (ws_mgr s) = Some (m, r) →
      watch_step s (Some (mkWatch m (ws_closing s) (ws_stopped s)
        (match r with NotifyOK | NotifyDLQ => ws_accepted s ++ [e] | _ => ws_accepted s end) (ws_processed s) (ws_subs s)))
  | ws_notify_wait s c e m r :
      Notify_wait c e (ws_mgr s) = Some (m, r) →
      watch_step s (Some (mkWatch m (ws_closing s) (ws_stopped s)
        (match r with NotifyOK | NotifyDLQ => ws_accepted s ++ [e] | _ => ws_accepted s end) (ws_processed s) (ws_subs s)))
  | ws_process s dlq e m now ids :
      ws_stopped s = false → processLoop_take dlq (ws_mgr s) = Some (e, m) → ids ≡ₚ elements (mg_watchers m) →
      watch_step s ((λ m', mkWatch m' (ws_closing s) false (ws_accepted s) (ws_processed s ++ [e])
                             (map_imap (λ id sb, Some (note_event m e id sb)) (ws_subs s)))
                      <$> distributeEvent now ids e m)
  | ws_receive s id w e rest sb :
      mg_objs (ws_mgr s) !! id = Some w → Watcher_Channel w = e :: rest → ws_subs s !! id = Some sb →
      watch_step s (Some (mkWatch (with_table (<[id := pop_event w rest]> (mg_objs (ws_mgr s))) (mg_watchers (ws_mgr s))
                                     (mg_stats (ws_mgr s)) (ws_mgr s))
        (ws_closing s) (ws_stopped s) (ws_accepted s) (ws_processed s)
        (<[id := {| sb_since := sb_since sb; sb_got := sb_got sb ++ [e]; sb_missed := sb_missed sb |}]> (ws_subs s))))
  | ws_cleanup s now :
      ws_stopped s = false →
      watch_step s ((λ m, ws_with m s) <$> cleanupExpired now (ws_mgr s))
  | ws_close s :
      mg_done (ws_mgr s) = false →
      watch_step s ((λ m, ws_with m s) <$> Close_done (ws_mgr s))
  | ws_stop s :
      mg_done (ws_mgr s) = true → ws_stopped s = false →
      watch_step s ((λ m, mkWatch m (ws_closing s) true (ws_accepted s) (ws_processed s) (ws_subs s))
                      <$> Close_watchers (ws_mgr s)).

Definition watch_next (s s' : watch_sys) : Prop := watch_step s (Some s').
Definition watch_start (cfg : ManagerConfig) : watch_sys := mkWatch (NewManager cfg) ∅ false [] [] ∅.

(** ** The invariant *)

(** A subscription against its watcher. *)
Definition sub_ok (w : Watcher) (sb : subscription) : Prop :=
  sb_got sb ++ Watcher_Channel w `sublist_of` sb_since sb ∧
  length (sb_since sb) = (length (sb_got sb ++ Watcher_Channel w) + sb_missed sb)%nat ∧
  Forall (λ e, matches w (Event_Key e) = true) (sb_since sb).

Record watch_inv (s : watch_sys) : Prop := {
  wi_next : 0 ≤ mg_nextID (ws_mgr s) < 2 ^ 63;
  wi_ids : map_Forall (λ id _, id ≤ mg_nextID (ws_mgr s)) (mg_objs (ws_mgr s));
  wi_open : ∀ id, id ∈ mg_watchers (ws_mgr s) ∨ id ∈ ws_closing s →
    ∃ w, mg_objs (ws_mgr s) !! id = Some w ∧ Watcher_closed w = false;
  wi_disjoint : mg_watchers (ws_mgr s) ## ws_closing s;
  wi_subs : ∀ id w, mg_objs (ws_mgr s) !! id = Some w → ∃ sb, ws_subs s !! id = Some sb ∧ sub_ok w sb;
  wi_dom : dom (ws_subs s) ⊆ dom (mg_objs (ws_mgr s));
  wi_since : map_Forall (λ _ sb, sb_since sb `sublist_of` ws_processed s) (ws_subs s);
  wi_events : ws_accepted s ≡ₚ ws_processed s ++ mg_eventCh (ws_mgr s) ++ mg_deadLetterCh (ws_mgr s) }.

Definition set_closed (w : Watcher) : Watcher :=
  {| Watcher_ID := Watcher_ID w; Watcher_Key := Watcher_Key w; Watcher_IsPrefix := Watcher_IsPrefix w;
     Watcher_Channel := Watcher_Channel w; Watcher_closed := true;
     Watcher_CreatedAt := Watcher_CreatedAt w; Watcher_LastHeartbeat := Watcher_LastHeartbeat w |}.
Definition deliver (now cap : Z) (e : Event) (w : Watcher) : Watcher :=
  if matches w (Event_Key e) && has_room (Watcher_Channel w) cap then push_event now e w else w.

(** Two managers with the same queues, clock of ids and configuration. *)
Definition same_frame (m m' : Manager) : Prop :=
  mg_nextID m' = mg_nextID m ∧ mg_eventCh m' = mg_eventCh m ∧ mg_deadLetterCh m' = mg_deadLetterCh m ∧
  mg_done m' = mg_done m ∧ mg_config m' = mg_config m.
Lemma same_frame_trans m1 m2 m3 : same_frame m1 m2 → same_frame m2 m3 → same_frame m1 m3.
Proof. unfold same_frame. intuition congruence. Qed.

Definition open_in (m : Manager) (id : Z) : Prop := ∃ w, mg_objs m !! id = Some w ∧ Watcher_closed w = false.

Lemma distribute_spec now e ids : ∀ m, NoDup ids → Forall (open_in m) ids →
  ∃ m', distribute_loop now e ids m = Some m' ∧ same_frame m m' ∧ mg_watchers m' = mg_watchers m ∧
    ∀ id, mg_objs m' !! id =
      if decide (id ∈ ids) then deliver (now id) (WatcherBufferSize (mg_config m)) e <$> mg_objs m !! id else mg_objs m !! id.
Proof.
  induction ids as [|i ids IH]; intros m Hnd Hop; cbn [distribute_loop].
  { by exists m. }
  apply NoDup_cons in Hnd as [Hi Hnd]. apply Forall_cons in Hop as [(w & Hw & Hc) Hop].
  assert (∃ m1, send_event (now i) e i m = Some m1 ∧ same_frame m m1 ∧ mg_watchers m1 = mg_watchers m ∧
    mg_objs m1 = <[i := deliver (now i) (WatcherBufferSize (mg_config m)) e w]> (mg_objs m)) as (m1 & E1 & Hf & Ht & Ho).
  { unfold send_event, deliver. rewrite Hw. cbn [mbind option_bind]. rewrite Hc.
    destruct (matches w (Event_Key e)); cbn [negb andb]; [destruct (has_room _ _)|];
      eexists; split_and!; try done; cbn; by rewrite ?insert_id. }
  rewrite E1. cbn [mbind option_bind].
  destruct (IH m1) as (m' & E & Hf' & Ht' & Ho').
  { done. }
  { apply Forall_forall. intros j Hj. rewrite Forall_forall in Hop. destruct (Hop j Hj) as (wj & Hwj & Hcj).
    exists wj. split; [|done]. rewrite Ho, lookup_insert_ne; [done|]. by intros ->. }
  exists m'. split_and!; [done|by eapply same_frame_trans|congruence|].
  intros id. rewrite Ho', Ho. destruct Hf as (_ & _ & _ & _ & ->).
  destruct (decide (id = i)) as [->|Hne].
  - rewrite (decide_False (P := i ∈ ids)) by done. rewrite (decide_True (P := i ∈ i :: ids)) by left.
    by rewrite lookup_insert_eq, Hw.
  - rewrite lookup_insert_ne by done.
    assert (id ∈ i :: ids ↔ id ∈ ids) as Heq by (rewrite elem_of_cons; tauto).
    do 2 case_decide; try done; exfalso; tauto.
Qed.

Lemma close_channel_spec id m w : mg_objs m !! id = Some w → Watcher_closed w = false →
  ∃ m', close_channel id m = Some m' ∧ same_frame m m' ∧ mg_watchers m' = mg_watchers m ∧
    mg_objs m' = <[id := set_closed w]> (mg_objs m).
Proof. intros Hw Hc. unfold close_channel. rewrite Hw. cbn [mbind option_bind]. rewrite Hc. by eexists. Qed.

(** Closing the channels of a list of watchers, one by one. *)
Lemma closing_open i w m ids : mg_objs m !! i = Some w → i ∉ ids → Forall (open_in m) ids →
  ∀ m1, mg_objs m1 = <[i := set_closed w]> (mg_objs m) → Forall (open_in m1) ids.
Proof.
  intros Hw Hi Hop m1 Ho. apply Forall_forall. intros j Hj. rewrite Forall_forall in Hop.
  destruct (Hop j Hj) as (wj & Hwj & Hcj). exists wj. split; [|done]. rewrite Ho, lookup_insert_ne; [done|]. by intros ->.
Qed.
Lemma closed_lookup i w ids (objs : gmap Z Watcher) id : objs !! i = Some w → i ∉ ids →
  (if decide (id ∈ ids) then set_closed <$> <[i := set_closed w]> objs !! id else <[i := set_closed w]> objs !! id) =
  if decide (id ∈ i :: ids) then set_closed <$> objs !! id else objs !! id.
Proof.
  intros Hw Hi. destruct (decide (id = i)) as [->|Hne].
  - rewrite (decide_False (P := i ∈ ids)) by done. rewrite (decide_True (P := i ∈ i :: ids)) by left.
    by rewrite lookup_insert_eq, Hw.
  - rewrite lookup_insert_ne by done.
    assert (id ∈ i :: ids ↔ id ∈ ids) as Heq by (rewrite elem_of_cons; tauto).
    do 2 case_decide; try done; exfalso; tauto.
Qed.

Lemma close_all_spec ids : ∀ m, NoDup ids → Forall (open_in m) ids →
  ∃ m', close_all ids m = Some m' ∧ same_frame m m' ∧ mg_watchers m' = ∅ ∧
    ∀ id, mg_objs m' !! id = if decide (id ∈ ids) then set_closed <$> mg_objs m !! id else mg_objs m !! id.
Proof.
  induction ids as [|i ids IH]; intros m Hnd Hop; cbn [close_all].
  { by eexists. }
  apply NoDup_cons in Hnd as [Hi Hnd]. apply Forall_cons in Hop as [(w & Hw & Hc) Hop].
  destruct (close_channel_spec i m w Hw Hc) as (m1 & E1 & Hf & Ht & Ho). rewrite E1. cbn [mbind option_bind].
  destruct (IH m1 Hnd (closing_open _ _ _ _ Hw Hi Hop _ Ho)) as (m' & E & Hf' & Ht' & Ho').
  exists m'. split_and!; [done|by eapply same_frame_trans|done|].
  intros id. rewrite Ho', Ho. by apply closed_lookup.
Qed.

Lemma drop_all_spec ids : ∀ m, NoDup ids → Forall (open_in m) ids → list_to_set ids ⊆ mg_watchers m →
  ∃ m', drop_all ids m = Some m' ∧ same_frame m m' ∧ mg_watchers m' = mg_watchers m ∖ list_to_set ids ∧
    ∀ id, mg_objs m' !! id = if decide (id ∈ ids) then set_closed <$> mg_objs m !! id else mg_objs m !! id.
Proof.
  induction ids as [|i ids IH]; intros m Hnd Hop Hsub; cbn [drop_all].
  { exists m. split_and!; try done. set_solver. }
  apply NoDup_cons in Hnd as [Hi Hnd]. apply Forall_cons in Hop as [(w & Hw & Hc) Hop].
  unfold drop_watcher. rewrite bool_decide_true by (apply Hsub; set_solver).
  destruct (close_channel_spec i m w Hw Hc) as (m1 & E1 & Hf & Ht & Ho). rewrite E1. cbn [mbind option_bind].
  destruct (IH (one_less (forget i m1)) Hnd (closing_open _ _ _ _ Hw Hi Hop _ Ho)) as (m' & E & Hf' & Ht' & Ho').
  { cbn. rewrite Ht. intros x Hx. apply elem_of_difference. split; [apply Hsub; set_solver|].
    intros ->%elem_of_singleton. apply Hi. by apply elem_of_list_to_set in Hx. }
  exists m'. split_and!; [done| | |].
  - eapply same_frame_trans; [exact Hf|]. exact Hf'.
  - rewrite Ht'. cbn. rewrite Ht. set_solver.
  - intros id. rewrite Ho'. cbn [mg_objs one_less forget with_table]. rewrite Ho. by apply closed_lookup.
Qed.

(** ** The steps keep it *)

Lemma inv_closed s m' C' stopped (ids : list Z) :
  watch_inv s → same_frame (ws_mgr s) m' →
  (∀ id, mg_objs m' !! id = if decide (id ∈ ids) then set_closed <$> mg_objs (ws_mgr s) !! id else mg_objs (ws_mgr s) !! id) →
  (∀ id, id ∈ mg_watchers m' ∨ id ∈ C' → (id ∈ mg_watchers (ws_mgr s) ∨ id ∈ ws_closing s) ∧ id ∉ ids) →
  mg_watchers m' ## C' →
  watch_inv (mkWatch m' C' stopped (ws_accepted s) (ws_processed s) (ws_subs s)).
Proof.
  intros [Hn Hi Hop Hd Hs Hdom Hsin Hev] (F1 & F2 & F3 & F4 & F5) Ho Hin Hdis.
  split; cbn [ws_mgr ws_closing ws_stopped ws_accepted ws_processed ws_subs].
  - by rewrite F1.
  - intros id w Hw. rewrite F1. rewrite Ho in Hw. case_decide; [apply fmap_Some in Hw as (w0 & Hw & _)|]; by eapply (Hi id).
  - intros id Hid. destruct (Hin id Hid) as [Hold Hni]. rewrite Ho, decide_False by done. by apply Hop.
  - done.
  - intros id w Hw. rewrite Ho in Hw. case_decide; [|by apply Hs]. apply fmap_Some in Hw as (w0 & Hw & ->).
    destruct (Hs id w0 Hw) as (sb & Hsb & Hok). by exists sb.
  - intros id Hid%Hdom. apply elem_of_dom in Hid as [w Hw]. apply elem_of_dom. rewrite Ho, Hw. case_decide; by eexists.
  - done.
  - by rewrite F2, F3.
Qed.

Lemma inv_subscribe s now key prefix m id :
  watch_inv s → mg_nextID (ws_mgr s) < 2 ^ 63 - 1 → Subscribe now key prefix (ws_mgr s) = (m, Some id) →
  watch_inv (mkWatch m (ws_closing s) (ws_stopped s) (ws_accepted s) (ws_processed s)
    (<[id := {| sb_since := []; sb_got := []; sb_missed := 0 |}]> (ws_subs s))).
Proof.
  intros [Hn Hi Hop Hd Hs Hdom Hsin Hev] Hlt E. unfold Subscribe in E. case_bool_decide; [done|].
  rewrite wrapS64_id in E by (unfold isS64; lia). injection E as <- <-.
  set (id := mg_nextID (ws_mgr s) + 1).
  assert (mg_objs (ws_mgr s) !! id = None) as Hfresh.
  { destruct (mg_objs (ws_mgr s) !! id) as [w|] eqn:Hw; [|done]. pose proof (Hi id w Hw) as Hle. cbn beta in Hle. lia. }
  assert (∀ j, j ∈ mg_watchers (ws_mgr s) ∨ j ∈ ws_closing s → j ≠ id) as Hne.
  { intros j Hj ->. destruct (Hop _ Hj) as (w & Hw & _). congruence. }
  split; cbn.
  - lia.
  - apply map_Forall_insert_2; [lia|]. eapply map_Forall_impl; [exact Hi|]. cbn. lia.
  - intros j Hj. destruct (decide (j = id)) as [->|Hj'].
    + rewrite lookup_insert_eq. by eexists.
    + rewrite lookup_insert_ne by done. apply Hop. set_solver.
  - apply disjoint_union_l. split; [|done]. apply disjoint_singleton_l. intros Hc. by eapply Hne; [right|].
  - intros j w. rewrite lookup_insert_Some. intros [[<- <-]|[Hj Hw]].
    + rewrite lookup_insert_eq. eexists. split; [done|]. by split_and!.
    + rewrite lookup_insert_ne by done. by apply Hs.
  - rewrite !dom_insert_L. set_solver.
  - apply map_Forall_insert_2; [apply sublist_nil_l|done].
  - done.
Qed.

Lemma sublist_snoc {A} (l k : list A) x : l `sublist_of` k → l ++ [x] `sublist_of` k ++ [x].
Proof. intros. by apply sublist_app. Qed.
Lemma sublist_skip {A} (l k : list A) x : l `sublist_of` k → l `sublist_of` k ++ [x].
Proof. intros. by apply sublist_inserts_r. Qed.

Lemma sublist_same_length {A} (l k : list A) : l `sublist_of` k → (length k ≤ length l)%nat → l = k.
Proof.
  induction 1 as [|x l k _ IH|x l k Hs _]; cbn; intros Hlen; [done| |].
  - f_equal. apply IH. lia.
  - apply sublist_length in Hs. lia.
Qed.

Lemma inv_process s dlq e m now ids :
  watch_inv s → processLoop_take dlq (ws_mgr s) = Some (e, m) → ids ≡ₚ elements (mg_watchers m) →
  ∃ m', distributeEvent now ids e m = Some m' ∧
    watch_inv (mkWatch m' (ws_closing s) false (ws_accepted s) (ws_processed s ++ [e])
                 (map_imap (λ id sb, Some (note_event m e id sb)) (ws_subs s))).
Proof.
  intros [Hn Hi Hop Hd Hs Hdom Hsin Hev] Ht Hids.
  assert (mg_objs m = mg_objs (ws_mgr s) ∧ mg_watchers m = mg_watchers (ws_mgr s) ∧
    mg_nextID m = mg_nextID (ws_mgr s) ∧ ws_accepted s ≡ₚ (ws_processed s ++ [e]) ++ mg_eventCh m ++ mg_deadLetterCh m)
    as (Eo & Ew & En & Hev').
  { unfold processLoop_take in Ht.
    destruct dlq; [destruct (mg_deadLetterCh (ws_mgr s)) as [|e' rest] eqn:Eq|
      destruct (mg_eventCh (ws_mgr s)) as [|e' rest] eqn:Eq]; try done;
      injection Ht as <- <-; cbn; split_and!; try done; rewrite Hev; [|by rewrite <-!app_assoc].
    rewrite <-app_assoc. f_equiv. cbn. by rewrite <-Permutation_middle. }
  clear Ht Hev.
  destruct (distribute_spec now e ids m) as (m' & E & (F1 & F2 & F3 & F4 & F5) & Fw & Fo).
  { rewrite Hids. apply NoDup_elements. }
  { apply Forall_forall. intros id Hid. rewrite Hids, elem_of_elements, Ew in Hid. unfold open_in. rewrite Eo. apply Hop. by left. }
  exists m'. split; [done|].
  assert (∀ id, id ∈ ids ↔ id ∈ mg_watchers m) as Hin by (intros; by rewrite Hids, elem_of_elements).
  assert (∀ id, mg_objs m' !! id =
      if decide (id ∈ mg_watchers m) then deliver (now id) (WatcherBufferSize (mg_config m)) e <$> mg_objs m !! id
      else mg_objs m !! id) as Fo'.
  { intros id. rewrite Fo. specialize (Hin id). do 2 case_decide; try done; exfalso; tauto. }
  clear Fo Hids. split; cbn [ws_mgr ws_closing ws_stopped ws_accepted ws_processed ws_subs].
  - congruence.
  - intros id w Hw. rewrite F1, En. rewrite Fo', Eo in Hw. case_decide; [apply fmap_Some in Hw as (w0 & Hw & _)|]; by eapply (Hi id).
  - intros id Hid. rewrite Fw, Ew in Hid. destruct (Hop id Hid) as (w & Hw & Hc). rewrite Fo', Eo, Hw.
    case_decide; cbn; eexists; split; [done| |done|done]. unfold deliver. by destruct (_ && _).
  - by rewrite Fw, Ew.
  - intros id w Hw. rewrite map_lookup_imap. rewrite Fo', Eo in Hw.
    destruct (mg_objs (ws_mgr s) !! id) as [w0|] eqn:Hw0; [|by destruct (decide _)].
    destruct (Hs id w0 Hw0) as (sb & -> & Hsub & Hlen & Hmat). cbn [mbind option_bind].
    eexists. split; [done|]. unfold note_event. rewrite Eo, Hw0.
    case_decide as Hid; [rewrite bool_decide_true by done|rewrite bool_decide_false by done; cbn [andb]; by simplify_eq].
    cbn in Hw. injection Hw as <-. unfold deliver.
    destruct (matches w0 (Event_Key e)) eqn:Em; cbn [andb]; [|by split_and!].
    destruct (has_room _ _); (split_and!; cbn; [|rewrite ?length_app in *; cbn; lia|apply Forall_app; by rewrite Forall_singleton]).
    + rewrite app_assoc. by apply sublist_snoc.
    + by apply sublist_skip.
  - intros id. rewrite elem_of_dom, map_lookup_imap. intros [sb Hsb].
    destruct (ws_subs s !! id) as [sb0|] eqn:Hsb0; [|done].
    assert (id ∈ dom (mg_objs (ws_mgr s))) as Hd0 by (apply Hdom; by eapply elem_of_dom_2).
    apply elem_of_dom in Hd0 as [w Hw]. apply elem_of_dom. rewrite Fo', Eo, Hw. case_decide; by eexists.
  - intros id sb. rewrite map_lookup_imap. intros Hsb. destruct (ws_subs s !! id) as [sb0|] eqn:Hsb0; [|done].
    cbn in Hsb. injection Hsb as <-. pose proof (Hsin id sb0 Hsb0) as Hsl. cbn in Hsl. unfold note_event.
    destruct (mg_objs m !! id) as [w|]; [|by apply sublist_skip]. destruct (_ && _); [by apply sublist_snoc|by apply sublist_skip].
  - by rewrite F2, F3.
Qed.

(** Queues and counters do not matter to the watchers. *)
Lemma inv_queues s ev dlq st acc : watch_inv s → acc ≡ₚ ws_processed s ++ ev ++ dlq →
  watch_inv (mkWatch (with_queues ev dlq st (ws_mgr s)) (ws_closing s) (ws_stopped s) acc (ws_processed s) (ws_subs s)).
Proof. intros [Hn Hi Hop Hd Hs Hdom Hsin Hev] Hacc. by split. Qed.
Lemma accept_event acc p ev dlq (e : Event) : acc ≡ₚ p ++ ev ++ dlq → acc ++ [e] ≡ₚ p ++ (ev ++ [e]) ++ dlq.
Proof. intros ->. rewrite <-!app_assoc. do 2 f_equiv. apply Permutation_app_comm. Qed.
Lemma accept_dlq acc p ev dlq (e : Event) : acc ≡ₚ p ++ ev ++ dlq → acc ++ [e] ≡ₚ p ++ ev ++ dlq ++ [e].
Proof. intros ->. by rewrite <-!app_assoc. Qed.

Lemma inv_receive s id w e rest sb : watch_inv s →
  mg_objs (ws_mgr s) !! id = Some w → Watcher_Channel w = e :: rest → ws_subs s !! id = Some sb →
  watch_inv (mkWatch (with_table (<[id := pop_event w rest]> (mg_objs (ws_mgr s))) (mg_watchers (ws_mgr s))
                        (mg_stats (ws_mgr s)) (ws_mgr s))
    (ws_closing s) (ws_stopped s) (ws_accepted s) (ws_processed s)
    (<[id := {| sb_since := sb_since sb; sb_got := sb_got sb ++ [e]; sb_missed := sb_missed sb |}]> (ws_subs s))).
Proof.
  intros [Hn Hi Hop Hd Hs Hdom Hsin Hev] Hw Hch Hsb. split; cbn; try done.
  - apply map_Forall_insert_2; [by apply (Hi id w)|done].
  - intros j Hj. destruct (Hop j Hj) as (wj & Hwj & Hc). destruct (decide (j = id)) as [->|].
    + rewrite lookup_insert_eq. eexists. split; [done|]. cbn. congruence.
    + rewrite lookup_insert_ne by done. by eexists.
  - intros j wj. rewrite lookup_insert_Some. intros [[<- <-]|[Hj Hwj]].
    + rewrite lookup_insert_eq. eexists. split; [done|]. destruct (Hs _ _ Hw) as (sb' & Hsb' & H1 & H2 & H3).
      simplify_eq. unfold sub_ok. cbn. rewrite Hch in *. rewrite <-app_assoc. by split_and!.
    + rewrite lookup_insert_ne by done. by apply Hs.
  - rewrite !dom_insert_L. set_solver.
  - apply map_Forall_insert_2; [|done]. cbn. by apply (Hsin id sb).
Qed.

Lemma table_open s : watch_inv s → Forall (open_in (ws_mgr s)) (elements (mg_watchers (ws_mgr s))).
Proof. intros Hs. apply Forall_forall. intros id Hid%elem_of_elements. apply (wi_open s Hs). by left. Qed.

(** Every step of a good state succeeds and leads to a good state. *)
(** The watchers that timed out are closed and leave the table. *)
Lemma inv_cleanup s now :
  watch_inv s →
  ∃ m', cleanupExpired now (ws_mgr s) = Some m' ∧
    watch_inv (mkWatch m' (ws_closing s) (ws_stopped s) (ws_accepted s) (ws_processed s) (ws_subs s)).
Proof.
  intros Hs. unfold cleanupExpired. case_decide; [by eexists; split; [|destruct s]|].
  pose proof (wi_disjoint s Hs) as Hd. pose proof (table_open s Hs) as Hop. unfold expired_watchers.
  destruct (drop_all_spec (filter (λ id, timed_out now (ws_mgr s) id = true) (elements (mg_watchers (ws_mgr s)))) (ws_mgr s))
    as (m' & -> & Hf & Ht & Ho).
  { apply NoDup_filter, NoDup_elements. }
  { apply Forall_forall. intros id [_ Hid]%list_elem_of_filter. rewrite Forall_forall in Hop. by apply Hop. }
  { intros id Hid. apply elem_of_list_to_set, list_elem_of_filter in Hid as [_ Hid]. by apply elem_of_elements. }
  eexists. split; [done|]. eapply inv_closed; [done|done|exact Ho| |].
  - rewrite Ht. intros id Hid. split; [set_solver|]. intros Hin. destruct Hid as [Hid|Hid].
    + apply elem_of_difference in Hid as [_ Hid]. by apply Hid, elem_of_list_to_set.
    + apply list_elem_of_filter in Hin as [_ Hin%elem_of_elements]. set_solver.
  - rewrite Ht. set_solver.
Qed.

Lemma watch_step_inv s r : watch_inv s → watch_step s r → ∃ s', r = Some s' ∧ watch_inv s'.
Proof.
  intros Hs Hstep. pose proof (wi_events s Hs) as Hev. pose proof (wi_disjoint s Hs) as Hd.
  destruct Hstep as [s now key prefix m id Hlt E|s id m E|s id Hid|s b e m r E|s c e m r E|s dlq e m now ids Hst E Hids
    |s id w e rest sb Hw Hch Hsb|s now Hst|s Hdn|s Hdn Hst].
  - eexists. split; [done|]. by eapply inv_subscribe.
  - eexists. split; [done|]. unfold Unsubscribe_remove in E. injection E as <- Hid%bool_decide_eq_true.
    eapply (inv_closed s _ _ _ []); [done|by split_and!|done| |].
    + cbn. intros j Hj. split; [set_solver|apply not_elem_of_nil].
    + cbn. set_solver.
  - destruct (wi_open s Hs id (or_intror Hid)) as (w & Hw & Hc).
    destruct (close_channel_spec id _ _ Hw Hc) as (m1 & E1 & Hf & Ht & Ho).
    unfold Unsubscribe_close. rewrite E1. cbn. eexists. split; [done|].
    eapply (inv_closed s _ _ _ [id]); [done|exact Hf| | |].
    + intros j. cbn [one_less with_table mg_objs]. rewrite Ho. destruct (decide (j = id)) as [->|Hne].
      * rewrite lookup_insert_eq, decide_True by set_solver. by rewrite Hw.
      * rewrite lookup_insert_ne by done. rewrite decide_False by set_solver. done.
    + cbn. rewrite Ht. set_solver.
    + cbn. rewrite Ht. set_solver.
  - eexists. split; [done|]. unfold Notify_try in E. destruct (_ && _).
    + injection E as <- <-. apply inv_queues; [done|]. by apply accept_event.
    + destruct (mg_done (ws_mgr s)); [|done]. injection E as <- <-. by destruct s.
  - eexists. split; [done|]. destruct c; cbn in E.
    + destruct (has_room _ _); [|done]. injection E as <- <-. apply inv_queues; [done|]. by apply accept_dlq.
    + destruct (has_room _ _); [|done]. injection E as <- <-. apply inv_queues; [done|]. by apply accept_event.
    + injection E as <- <-. by apply inv_queues.
    + destruct (mg_done (ws_mgr s)); [|done]. injection E as <- <-. by destruct s.
  - destruct (inv_process s dlq e m now ids Hs E Hids) as (m' & -> & Hinv). by eexists.
  - eexists. split; [done|]. by eapply inv_receive.
  - destruct (inv_cleanup s now Hs) as (m' & -> & Hinv). by eexists.
  - unfold Close_done. rewrite Hdn. eexists. split; [done|].
    destruct Hs as [Hn Hi Hop Hd' Hsb Hdom Hsin Hev']. by split.
  - unfold Close_watchers. destruct (close_all_spec (elements (mg_watchers (ws_mgr s))) (ws_mgr s) (NoDup_elements _) (table_open s Hs))
      as (m' & -> & Hf & Ht & Ho).
    eexists. split; [done|]. eapply inv_closed; [done|done|exact Ho| |].
    + rewrite Ht. intros id [?|Hid]; [set_solver|]. split; [by right|]. rewrite elem_of_elements. set_solver.
    + rewrite Ht. set_solver.
Qed.

Lemma watch_start_inv cfg : watch_inv (watch_start cfg).
Proof. split; cbn; try done; try (apply map_Forall_empty). intros id [?|?]; set_solver. Qed.
Lemma watch_reach_inv cfg s : rtc watch_next (watch_start cfg) s → watch_inv s.
Proof.
  intros Hr. pose proof (watch_start_inv cfg) as H0. revert H0. induction Hr as [|s1 s2 s3 Hstep _ IH]; [done|].
  intros H1. apply IH. destruct (watch_step_inv _ _ H1 Hstep) as (s' & [= <-] & Hs'). done.
Qed.

(** C37: no interleaving panics.  Whatever subscribers, publishers, the process
    loop, the health check and one [Close] do, no goroutine sends on a closed
    channel or closes one twice. *)
Theorem watch_never_panics cfg s r : rtc watch_next (watch_start cfg) s → watch_step s r → r ≠ None.
Proof.
  intros Hr%watch_reach_inv Hstep ->. by destruct (watch_step_inv _ _ Hr Hstep) as (? & ? & _).
Qed.

(** what a subscriber receives.  Every accepted event is processed once or
    still queued; what a subscriber has taken and still has buffered is, in the
    order of processing, a selection of the matching events processed since it
    subscribed; exactly those are missing that found its buffer full, so a
    subscriber that kept up has received them all. *)
Theorem watch_delivery cfg s id w sb :
  rtc watch_next (watch_start cfg) s → mg_objs (ws_mgr s) !! id = Some w → ws_subs s !! id = Some sb →
  ws_accepted s ≡ₚ ws_processed s ++ mg_eventCh (ws_mgr s) ++ mg_deadLetterCh (ws_mgr s) ∧
  sb_since sb `sublist_of` ws_processed s ∧
  Forall (λ e, matches w (Event_Key e) = true) (sb_since sb) ∧
  sb_got sb ++ Watcher_Channel w `sublist_of` sb_since sb ∧
  length (sb_since sb) = (length (sb_got sb ++ Watcher_Channel w) + sb_missed sb)%nat ∧
  (sb_missed sb = 0%nat → sb_got sb ++ Watcher_Channel w = sb_since sb).
Proof.
  intros [Hn Hi Hop Hd Hs Hdom Hsin Hev]%watch_reach_inv Hw Hsb.
  destruct (Hs id w Hw) as (sb' & Hsb' & Hsub & Hlen & Hmat). simplify_eq.
  split_and!; [done|by apply (Hsin id)|done|done|done|].
  intros H0. rewrite H0 in Hlen. apply sublist_same_length; [done|lia].
Qed.

(** ** A run: one subscriber, a queue with one place, two events for its key *)
Definition wt_cfg : ManagerConfig :=
  {| EventBufferSize := 1; WatcherBufferSize := 10; DLQSize := 1; WatcherTimeout := 0; HealthCheckTick := 0; EnqueueTimeout := 0 |}.
Definition wt_event (version : Z) : Event :=
  {| Event_Key := "k"; Event_OldValue := ""; Event_NewValue := "v"; Event_NewVersion := version;
     Event_EventType := "PUT"; Event_Timestamp := 0 |}.
Definition wt1 : Manager := (Subscribe 0 "k" false (NewManager wt_cfg)).1.
Definition wt_or (m : Manager) (r : option (Manager * notify_result)) : Manager := match r with Some (m', _) => m' | None => m end.
Definition wt2 : Manager := wt_or wt1 (Notify_try false (wt_event 1) wt1).
Definition wt_take (dlq : bool) (m : Manager) : Manager :=
  match processLoop_take dlq m with
  | Some (e, m1) => match distributeEvent (λ _, 0) (elements (mg_watchers m1)) e m1 with Some m2 => m2 | None => m1 end
  | None => m
  end.
Definition wt_sub (since : list Event) : gmap Z subscription :=
  {[2 := {| sb_since := since; sb_got := []; sb_missed := 0 |}]}.
Definition wt_s1 : watch_sys := mkWatch wt1 ∅ false [] [] (wt_sub []).
Definition wt_s2 : watch_sys := mkWatch wt2 ∅ false [wt_event 1] [] (wt_sub []).
Definition wt_s3 : watch_sys := mkWatch (wt_take false wt2) ∅ false [wt_event 1] [wt_event 1] (wt_sub [wt_event 1]).

Lemma wt_run : rtc watch_next (watch_start wt_cfg) wt_s3.
Proof.
  apply rtc_l with wt_s1.
  { exact (ws_subscribe (watch_start wt_cfg) 0 "k" false wt1 2 ltac:(done) eq_refl). }
  apply rtc_l with wt_s2.
  { exact (ws_notify wt_s1 false (wt_event 1) wt2 NotifyOK eq_refl). }
  apply rtc_once. unfold watch_next.
  destruct (processLoop_take false wt2) as [[e m1]|] eqn:E; [|by vm_compute in E].
  assert (e = wt_event 1 ∧ m1 = with_queues [] [] (add_stats 1 0 0 0 0 (mg_stats wt2)) wt2) as [-> ->].
  { vm_compute in E. injection E as <- <-. by vm_compute. }
  pose proof (ws_process wt_s2 false _ _ (λ _, 0) _ eq_refl E (Permutation_refl _)) as Hp.
  vm_compute in Hp. vm_compute. exact Hp.
Qed.

Lemma watch_never_panics_witness : watch_step wt_s3 (Some (ws_with (wt_take false wt2) wt_s3)).
Proof.
  assert (watch_step wt_s3 ((λ m, ws_with m wt_s3) <$> cleanupExpired 5 (ws_mgr wt_s3))) as Hstep by by apply ws_cleanup.
  pose proof (watch_never_panics wt_cfg wt_s3 _ wt_run Hstep) as Hne.
  destruct (cleanupExpired 5 (ws_mgr wt_s3)) as [m|] eqn:E; [|by destruct Hne].
  injection E as <-. exact Hstep.
Defined.

Lemma watch_delivery_witness :
  ∃ w, mg_objs (ws_mgr wt_s3) !! 2 = Some w ∧ Watcher_Channel w = [wt_event 1].
Proof.
  destruct (mg_objs (ws_mgr wt_s3) !! 2) as [w|] eqn:Hw; [|by vm_compute in Hw]. exists w. split; [done|].
  destruct (watch_delivery wt_cfg wt_s3 2 w {| sb_since := [wt_event 1]; sb_got := []; sb_missed := 0 |} wt_run Hw eq_refl)
    as (_ & _ & _ & _ & _ & Hall).
  exact (Hall eq_refl).
Defined.

(** Events can overtake.  When the queue is full an event goes to the
    dead-letter queue, and the process loop may take it before the queued ones:
    the subscriber sees version 2 of its key before version 1. *)
Theorem dead_letters_overtake :
  let m := wt_or wt2 (Notify_wait CaseDLQ (wt_event 2) wt2) in
  Notify_try false (wt_event 2) wt2 = None ∧
  (λ w, Event_NewVersion <$> Watcher_Channel w) <$> mg_objs (wt_take false (wt_take true m)) !! 2 = Some [2; 1].
Proof. by vm_compute. Qed.
