(* ===== verification/Grpc.v ===== *)
(** * pkg/kv/grpc.go: the service in front of the replicated state machine

    Every unary method unpacks a message, submits a request and packs the reply.
    [submit] is [rsm.Submit]: an error code and the value, [None] for nil.  A
    reply of an unexpected type gives the text ErrInternal.  The watch stream is a
    session that owns at most one watcher of the manager. *)
From stdpp Require Import prelude gmap sorting strings.
From stdpp Require Import options.
From S2P Require Import Prelude KvApi ExpiryHeap Store ShardState Tx Server Topology Pb Router TxCoord Watch.
Local Open Scope Z_scope.

Definition internal : string := "ErrInternal".

(** ** Packing *)

Definition pack_hint (gid : Z) (replicas : list string) (epoch : Z) : pb_hint :=
  {| hint_group_id := wrapS32 gid; hint_replicas := replicas; hint_epoch := epoch |}.
Definition get_error (e : string) : GetResponse :=
  {| GetResponse_value := ""; GetResponse_version := 0; GetResponse_error := e; GetResponse_expires := 0; GetResponse_hint := no_hint |}.
Definition get_response (r : GetReply) : GetResponse :=
  {| GetResponse_value := GetReply_Value r; GetResponse_version := GetReply_Version r; GetResponse_error := errReply (GetReply_Err r);
     GetResponse_expires := GetReply_Expires r;
     GetResponse_hint := pack_hint (GetReply_HintGroupID r) (GetReply_HintReplicas r) (GetReply_HintEpoch r) |}.
Definition put_response (r : PutReply) : PutResponse :=
  {| PutResponse_error := errReply (PutReply_Err r);
     PutResponse_hint := pack_hint (PutReply_HintGroupID r) (PutReply_HintReplicas r) (PutReply_HintEpoch r) |}.
Definition delete_response (r : DeleteReply) : DeleteResponse :=
  {| DeleteResponse_error := errReply (DeleteReply_Err r);
     DeleteResponse_hint := pack_hint (DeleteReply_HintGroupID r) (DeleteReply_HintReplicas r) (DeleteReply_HintEpoch r) |}.
Definition scan_item (it : ScanItem) : KeyValue :=
  {| kv_key := ScanItem_Key it; kv_value := ScanItem_Value it; kv_version := ScanItem_Version it; kv_expires := ScanItem_Expires it |}.

(** The conversions of lists of keys; a nil element is left out, which a list of
    records does not have. *)
Definition convertReadKeysFromProto (l : list ReadKey) : list ReadKey :=
  (λ k, {| ReadKey_Key := ReadKey_Key k; ReadKey_Value := ""; ReadKey_ExpectedVersion := ReadKey_ExpectedVersion k |}) <$> l.
Definition convertWriteKeysFromProto (l : list WriteKey) : list WriteKey :=
  (λ k, {| WriteKey_Key := WriteKey_Key k; WriteKey_Value := WriteKey_Value k; WriteKey_Version := WriteKey_Version k;
           WriteKey_IsDelete := WriteKey_IsDelete k |}) <$> l.
Definition convertWriteKeysToProto (l : list WriteKey) : list WriteKey :=
  (λ k, {| WriteKey_Key := WriteKey_Key k; WriteKey_Value := WriteKey_Value k; WriteKey_Version := WriteKey_Version k;
           WriteKey_IsDelete := WriteKey_IsDelete k |}) <$> l.
Definition intsFromInt32 (l : list Z) : list Z := id <$> l.

(** ** Unary methods *)

Section service.
Variables (dead : bool) (submit : request → Err * option reply).

(** [Get] reads with a lease when it can; the last component of [lease_submit]
    says whether it did. *)
Definition grpc_Get (leaseStatEnabled : bool) (lease_submit : request → Err * option reply * bool) (stats : ServerStats) (key : string)
    : ServerStats * GetResponse :=
  if dead then (RecordFailure stats, get_error (errReply ErrWrongLeader))
  else
    let '(err, ret, leaseHit) := lease_submit (ReqGet {| GetArgs_Key := key |}) in
    if decide (err ≠ OK) then (RecordLeaseFallback (RecordFailure stats), get_error (errReply err))
    else
      match ret with
      | Some (RepGet reply) =>
          let stats := RecordRead stats in
          (if leaseStatEnabled then (if leaseHit : bool then RecordLeaseHit stats else RecordLeaseFallback stats) else stats,
           get_response reply)
      | _ => (RecordFailure stats, get_error internal)
      end.

Definition grpc_Put (req : PutRequest) : PutResponse :=
  let fail e := {| PutResponse_error := e; PutResponse_hint := no_hint |} in
  if dead then fail (errReply ErrWrongLeader)
  else
    let '(err, ret) := submit (ReqPut {| PutArgs_Key := PutRequest_key req; PutArgs_Value := PutRequest_value req;
                                         PutArgs_Version := PutRequest_version req; PutArgs_TTL := PutRequest_ttl_seconds req |}) in
    if decide (err ≠ OK) then fail (errReply err)
    else match ret with Some (RepPut reply) => put_response reply | _ => fail internal end.

Definition grpc_Delete (key : string) : DeleteResponse :=
  let fail e := {| DeleteResponse_error := e; DeleteResponse_hint := no_hint |} in
  if dead then fail (errReply ErrWrongLeader)
  else
    let '(err, ret) := submit (ReqDelete {| DeleteArgs_Key := key |}) in
    if decide (err ≠ OK) then fail (errReply err)
    else match ret with Some (RepDelete reply) => delete_response reply | _ => fail internal end.

Definition grpc_Scan (prefix : string) (limit : Z) : ScanResponse :=
  let fail e := {| ScanResponse_items := []; ScanResponse_error := e |} in
  if dead then fail (errReply ErrWrongLeader)
  else
    let '(err, ret) := submit (ReqScan {| ScanArgs_Prefix := prefix; ScanArgs_Limit := limit |}) in
    if decide (err ≠ OK) then fail (errReply err)
    else
      match ret with
      | Some (RepScan reply) =>
          {| ScanResponse_items := scan_item <$> ScanReply_Items reply; ScanResponse_error := errReply (ScanReply_Err reply) |}
      | _ => fail internal
      end.

Definition grpc_PrepareTx (req : PrepareTxRequest) : string :=
  if dead then errReply ErrWrongLeader
  else
    let '(err, ret) := submit (ReqPrepareTx
      {| PrepareTxArgs_TxID := PrepareTxRequest_tx_id req;
         PrepareTxArgs_ReadKeys := convertReadKeysFromProto (PrepareTxRequest_read_keys req);
         PrepareTxArgs_WriteKeys := convertWriteKeysFromProto (PrepareTxRequest_write_keys req);
         PrepareTxArgs_TimeoutMs := PrepareTxRequest_timeout_ms req;
         PrepareTxArgs_CoordinatorGroupID := PrepareTxRequest_coordinator_group_id req;
         PrepareTxArgs_ParticipantGroupIDs := intsFromInt32 (PrepareTxRequest_participant_group_ids req) |}) in
    if decide (err ≠ OK) then errReply err
    else match ret with Some (RepPrepareTx reply) => errReply (PrepareTxReply_Err reply) | _ => internal end.

(** A decision, as [CommitTx] and [AbortTx] submit it. *)
Definition submit_decision (args : RecordTxDecisionArgs) : string :=
  let '(err, ret) := submit (ReqRecordTxDecision args) in
  if decide (err ≠ OK) then errReply err
  else match ret with Some (RepRecordTxDecision reply) => errReply (RecordTxDecisionReply_Err reply) | _ => internal end.

Definition grpc_CommitTx (req : CommitTxRequest) : string :=
  if dead then errReply ErrWrongLeader
  else if CommitTxRequest_decision_only req then
    submit_decision {| RecordTxDecisionArgs_TxID := CommitTxRequest_tx_id req; RecordTxDecisionArgs_Decision := TxStatusCommitted;
                       RecordTxDecisionArgs_ParticipantGroupIDs := intsFromInt32 (CommitTxRequest_participant_group_ids req);
                       RecordTxDecisionArgs_WriteKeys := convertWriteKeysFromProto (CommitTxRequest_write_keys req) |}
  else
    let '(err, ret) := submit (ReqCommitTx {| CommitTxArgs_TxID := CommitTxRequest_tx_id req;
                                              CommitTxArgs_WriteKeys := convertWriteKeysFromProto (CommitTxRequest_write_keys req) |}) in
    if decide (err ≠ OK) then errReply err
    else match ret with Some (RepCommitTx reply) => errReply (CommitTxReply_Err reply) | _ => internal end.

Definition grpc_AbortTx (req : AbortTxRequest) : string :=
  if dead then errReply ErrWrongLeader
  else if AbortTxRequest_decision_only req then
    submit_decision {| RecordTxDecisionArgs_TxID := AbortTxRequest_tx_id req; RecordTxDecisionArgs_Decision := TxStatusAborted;
                       RecordTxDecisionArgs_ParticipantGroupIDs := intsFromInt32 (AbortTxRequest_participant_group_ids req);
                       RecordTxDecisionArgs_WriteKeys := [] |}
  else
    let '(err, ret) := submit (ReqAbortTx {| AbortTxArgs_TxID := AbortTxRequest_tx_id req |}) in
    if decide (err ≠ OK) then errReply err
    else match ret with Some (RepAbortTx reply) => errReply (AbortTxReply_Err reply) | _ => internal end.

Definition grpc_ResolveTxStatus (txID : string) : ResolveTxStatusResponse :=
  let fail e := {| ResolveTxStatusResponse_status := ""; ResolveTxStatusResponse_prepared_at := 0;
                   ResolveTxStatusResponse_write_keys := []; ResolveTxStatusResponse_error := e;
                   ResolveTxStatusResponse_coordinator_group_id := 0; ResolveTxStatusResponse_participant_group_ids := [] |} in
  if dead then fail (errReply ErrWrongLeader)
  else
    let '(err, ret) := submit (ReqResolveTxStatus {| ResolveTxStatusArgs_TxID := txID |}) in
    if decide (err ≠ OK) then fail (errReply err)
    else
      match ret with
      | Some (RepResolveTxStatus reply) =>
          let s := resolve_response reply in
          {| ResolveTxStatusResponse_status := sr_Status s; ResolveTxStatusResponse_prepared_at := ResolveTxStatusReply_PreparedAt reply;
             ResolveTxStatusResponse_write_keys := convertWriteKeysToProto (ResolveTxStatusReply_WriteKeys reply);
             ResolveTxStatusResponse_error := errReply (ResolveTxStatusReply_Err reply);
             ResolveTxStatusResponse_coordinator_group_id := sr_Coordinator s;
             ResolveTxStatusResponse_participant_group_ids := sr_Participants s |}
      | _ => fail internal
      end.

(** The state of the shard is read outside the log. *)
Definition grpc_CleanupShard (m : shardStateManager) (shardID : Z) (keys : list CleanupShardKey) : CleanupShardResponse :=
  let fail e := {| CleanupShardResponse_error := e; CleanupShardResponse_deleted := 0 |} in
  match GetShardState m shardID with
  | Some meta =>
      if decide (sm_state meta ≠ ABSENT) then fail (errReply ErrWrongGroup)
      else
        let '(err, ret) := submit (ReqCleanupShard {| CleanupShardArgs_ShardID := shardID; CleanupShardArgs_Keys := keys |}) in
        if decide (err ≠ OK) then fail (errReply err)
        else
          match ret with
          | Some (RepCleanupShard reply) =>
              {| CleanupShardResponse_error := errReply (CleanupShardReply_Err reply);
                 CleanupShardResponse_deleted := wrapS32 (CleanupShardReply_Deleted reply) |}
          | _ => fail internal
          end
  | None => fail (errReply ErrWrongGroup)
  end.
End service.

(** [SetShardState] and [GetShardStates] over the methods of the server; the
    response is its error text. *)
Definition grpc_SetShardState {DB} `{Badger DB} (dial : string → bool) (submit : option (request → Err * option SetShardStateReply))
    (kv : KVServer DB) (req : SetShardStateRequest) : KVServer DB * string :=
  let '(kv, err) := kv_SetShardState dial submit kv (ssr_shard_id req) (ssr_state req) (ssr_target_group req)
                      (ssr_topology_epoch req) (ssr_target_replicas req) in
  (kv, default "" err).
Definition grpc_GetShardStates {DB} `{Badger DB} range_states (kv : KVServer DB) : list ShardStateEntry * Z :=
  let '(entries, epoch) := GetShardStates range_states kv in
  ((λ '(i, st, tg), {| sse_shard_id := i; sse_state := st; sse_target_group := tg |}) <$> entries, epoch).

(** [QueryTxDecision]: the decision and the error text. *)
Definition grpc_QueryTxDecision {DB} `{Badger DB} (kv : KVServer DB) (txID : string) : QueryTxDecisionResponse :=
  let answer d e := {| QueryTxDecisionResponse_decision := txStatusToString d; QueryTxDecisionResponse_error := errReply e |} in
  if killed kv then answer TxStatusUnknown ErrWrongLeader
  else
    match GetTxRecord (kv_store kv) (txDecisionPrefix +:+ txID) with
    | None => answer TxStatusUnknown OK
    | Some decision =>
        match unmarshal_decision decision with
        | None => answer TxStatusUnknown ErrWrongLeader
        | Some rec => answer (dr_Decision rec) OK
        end
    end.

(** ** [SetRouterAndRecover]: the configuration a client sent *)

Definition router_config (req : SetRouterAndRecoverRequest) : ShardingConfig :=
  {| sc_Groups := (λ g, {| rg_GroupID := prg_group_id g; rg_Replicas := prg_replicas g; rg_LeaderIdx := prg_leader_idx g |}) <$> srr_groups req;
     sc_NumShards := srr_num_shards req; sc_VirtualNodeCount := srr_virtual_node_count req;
     sc_PreferredReplicas := srr_preferred_replicas req;
     sc_ConnectTimeout := if decide (0 < srr_connect_timeout_ms req) then srr_connect_timeout_ms req * 1000000 else 0;
     sc_RequestTimeout := if decide (0 < srr_request_timeout_ms req) then srr_request_timeout_ms req * 1000000 else 0;
     sc_ShardToGroup := []; sc_TopologyEpoch := 0 |}.
(** The answer, and the router that is handed to the participant. *)
Definition grpc_SetRouterAndRecover (dead : bool) (dial : string → bool) (now : Z) (show : router_err → string) (req : SetRouterAndRecoverRequest)
    : option (option ShardRouter * string) :=
  if dead then Some (None, errReply ErrWrongLeader)
  else
    res ← NewShardRouter dial now (router_config req);
    Some match res with
         | inl e => (None, "create router: " +:+ show e)
         | inr router => (Some router, errReply OK)
         end.

(** ** The watch stream *)

Definition watch_event (watchID : Z) (e : Event) : WatchEvent :=
  {| we_watch_id := watchID; we_key := Event_Key e; we_old_value := Event_OldValue e; we_new_value := Event_NewValue e;
     we_new_version := Event_NewVersion e; we_event_type := ToLower (Event_EventType e) |}.

(** [Unsubscribe] as one call; the flag tells whether the watcher was found. *)
Definition Unsubscribe (id : Z) (m : Manager) : option (Manager * bool) :=
  let '(m, found) := Unsubscribe_remove id m in
  if found : bool then m ← Unsubscribe_close id m; Some (m, true) else Some (m, false).
(** [stopCurrent]: [currentID] is 0 when there is none. *)
Definition stopCurrent (currentID : Z) (m : Manager) : option Manager :=
  if decide (currentID = 0) then Some m else fst <$> Unsubscribe currentID m.

Inductive session := SessionOpen (currentID : Z) (m : Manager) | SessionReturned (m : Manager).
(** One round of the loop: [None] as request is an error of [Recv]. *)
Definition watch_round (now : Z) (req : option WatchRequest) (currentID : Z) (m : Manager) : option session :=
  match req with
  | None => SessionReturned <$> stopCurrent currentID m
  | Some (WatchCreate key prefix) =>
      m ← stopCurrent currentID m;
      Some match Subscribe now key prefix m with
           | (m, None) => SessionOpen 0 m
           | (m, Some id) => SessionOpen id m
           end
  | Some (WatchCancel watch_id) =>
      let id := if decide (watch_id = 0) then currentID else watch_id in
      m ← (if decide (id = 0) then Some m else fst <$> Unsubscribe id m);
      Some (SessionReturned m)
  | Some WatchNone => Some (SessionOpen currentID m)
  end.
(** The session on the requests that arrive until the stream fails. *)
Fixpoint grpc_Watch (now : nat → Z) (reqs : list WatchRequest) (currentID : Z) (m : Manager) : option Manager :=
  match reqs with
  | [] => s ← watch_round (now 0%nat) None currentID m; match s with SessionReturned m => Some m | SessionOpen _ _ => None end
  | req :: reqs =>
      s ← watch_round (now 0%nat) (Some req) currentID m;
      match s with
      | SessionReturned m => Some m
      | SessionOpen currentID m => grpc_Watch (λ n, now (S n)) reqs currentID m
      end
  end.
