(* ===== verification/GrpcProps.v ===== *)
(** * The service passes on what it is given

    The transaction messages of a coordinator arrive as the requests of its plan;
    the configuration a client sends survives except for the explicit ownership
    table; a watch session cleans up after itself. *)
From stdpp Require Import prelude gmap sorting strings relations.
From stdpp Require Import options.
From S2P Require Import Prelude KvApi ExpiryHeap Store ShardState Tx Server Topology Pb Router RouterProps TxCoord Watch WatchProps Grpc.
Local Open Scope Z_scope.

(** ** Lists of keys *)

Lemma write_keys_wire l : convertWriteKeysFromProto l = l.
Proof. unfold convertWriteKeysFromProto. rewrite <-(list_fmap_id l) at 2. apply list_fmap_ext. by intros ? []. Qed.

(** ** Transaction messages *)

(** The messages of [Commit], [persistDecision], [parallelCommit] and
    [parallelAbort]. *)
Definition prepare_message (h : TxHandle) (allGroups : list Z) (writes : gmap Z (list WriteKey)) (reads : gmap Z (list ReadKey)) (gid : Z)
    : PrepareTxRequest :=
  {| PrepareTxRequest_tx_id := th_txID h; PrepareTxRequest_read_keys := readKeysToProto (default [] (reads !! gid));
     PrepareTxRequest_write_keys := default [] (writes !! gid); PrepareTxRequest_timeout_ms := th_timeoutMs h;
     PrepareTxRequest_coordinator_group_id := wrapS32 (default 0 (head allGroups));
     PrepareTxRequest_participant_group_ids := int32Slice allGroups |}.
Definition decision_message (txID : string) (allGroups : list Z) (commit : bool) (allWriteKeys : list WriteKey)
    : CommitTxRequest + AbortTxRequest :=
  if commit then
    inl {| CommitTxRequest_tx_id := txID; CommitTxRequest_write_keys := allWriteKeys; CommitTxRequest_decision_only := true;
           CommitTxRequest_participant_group_ids := int32Slice allGroups |}
  else inr {| AbortTxRequest_tx_id := txID; AbortTxRequest_decision_only := true;
              AbortTxRequest_participant_group_ids := int32Slice allGroups |}.
Definition commit_message (txID : string) (wks : list WriteKey) : CommitTxRequest :=
  {| CommitTxRequest_tx_id := txID; CommitTxRequest_write_keys := wks; CommitTxRequest_decision_only := false;
     CommitTxRequest_participant_group_ids := [] |}.

(** The error text of an answer. *)
Definition tx_answer (r : Err * option reply) : string :=
  if decide (r.1 ≠ OK) then errReply r.1
  else match r.2 with
       | Some (RepPrepareTx p) => errReply (PrepareTxReply_Err p)
       | Some (RepCommitTx p) => errReply (CommitTxReply_Err p)
       | Some (RepAbortTx p) => errReply (AbortTxReply_Err p)
       | Some (RepRecordTxDecision p) => errReply (RecordTxDecisionReply_Err p)
       | _ => internal
       end.
(** The state machine answers a request with the reply of its type. *)
Definition typed_submit (submit : request → Err * option reply) : Prop :=
  ∀ req, match (submit req).2 with
         | Some (RepPrepareTx _) => ∃ a, req = ReqPrepareTx a
         | Some (RepCommitTx _) => ∃ a, req = ReqCommitTx a
         | Some (RepAbortTx _) => ∃ a, req = ReqAbortTx a
         | Some (RepRecordTxDecision _) => ∃ a, req = ReqRecordTxDecision a
         | _ => True
         end.

(** Both sides look at the same answer of [submit]. *)
Ltac answer_of Ht :=
  unfold tx_answer;
  match goal with |- context [match ?f ?r with (_, _) => _ end] => 
    specialize (Ht r); let e := fresh in destruct (f r) as [e [[]|]];
    cbn [fst snd] in *; destruct (decide (e ≠ OK)); try done; destruct Ht; discriminate
  end.

(** C27: A transaction's messages mean what its plan says.  On a live node the
    prepare message of the coordinator makes the service submit exactly the
    prepare request of the plan, the decision message (a CommitTx or AbortTx with
    DecisionOnly) the decision request, and the message of phase 2 the commit of
    that group's writes; the text that travels back is the error code of the
    reply. *)
Theorem messages_are_requests submit worder h gs ws rs gid commit txID wks :
  typed_submit submit →
  let all := worder (concat (map_to_list ws).*2) in
  grpc_PrepareTx false submit (prepare_message h gs ws rs gid) = tx_answer (submit (ReqPrepareTx (prepare_request h gs ws rs gid))) ∧
  match decision_message txID gs commit all with
  | inl m => grpc_CommitTx false submit m
  | inr m => grpc_AbortTx false submit m
  end = tx_answer (submit (ReqRecordTxDecision (decision_request worder txID gs commit ws))) ∧
  grpc_CommitTx false submit (commit_message txID wks) =
    tx_answer (submit (ReqCommitTx {| CommitTxArgs_TxID := txID; CommitTxArgs_WriteKeys := wks |})).
Proof.
  intros Ht. cbv zeta. split_and!.
  - assert (convertReadKeysFromProto (readKeysToProto (default [] (rs !! gid))) = readKeysToProto (default [] (rs !! gid))) as Hrk.
    { unfold convertReadKeysFromProto, readKeysToProto. by rewrite <-list_fmap_compose. }
    unfold grpc_PrepareTx, prepare_message, prepare_request. cbn -[decide convertReadKeysFromProto readKeysToProto].
    rewrite Hrk, write_keys_wire. unfold intsFromInt32. rewrite list_fmap_id. by answer_of Ht.
  - destruct commit; cbn -[decide]; unfold submit_decision, decision_request; rewrite ?write_keys_wire; unfold intsFromInt32;
      rewrite list_fmap_id; by answer_of Ht.
  - unfold grpc_CommitTx. cbn -[decide]. rewrite write_keys_wire. by answer_of Ht.
Qed.

Definition gp_submit (req : request) : Err * option reply :=
  match req with
  | ReqPrepareTx _ => (OK, Some (RepPrepareTx {| PrepareTxReply_Err := OK |}))
  | ReqCommitTx _ => (OK, Some (RepCommitTx {| CommitTxReply_Err := ErrTxConflict |}))
  | ReqRecordTxDecision _ => (OK, Some (RepRecordTxDecision {| RecordTxDecisionReply_Err := OK |}))
  | _ => (ErrWrongLeader, None)
  end.
Lemma gp_typed : typed_submit gp_submit.
Proof. intros []; cbn; eauto. Qed.
Lemma messages_are_requests_witness :
  grpc_CommitTx false gp_submit (commit_message "t" []) =
    tx_answer (gp_submit (ReqCommitTx {| CommitTxArgs_TxID := "t"; CommitTxArgs_WriteKeys := [] |})) ∧
  grpc_CommitTx false gp_submit (commit_message "t" []) = "ErrTxConflict".
Proof.
  split; [|reflexivity].
  exact (proj2 (proj2 (messages_are_requests gp_submit id (Begin "t") [1] ∅ ∅ 1 true "t" [] gp_typed))).
Defined.

(** ** The configuration of a router *)

(** Numbers fit int32, timeouts are positive whole milliseconds. *)
Record config_fits (cfg : ShardingConfig) : Prop := {
  cf_groups : Forall (λ g, isS32 (rg_GroupID g) ∧ isS32 (rg_LeaderIdx g)) (sc_Groups cfg);
  cf_shards : isS32 (sc_NumShards cfg); cf_virtual : isS32 (sc_VirtualNodeCount cfg); cf_preferred : isS32 (sc_PreferredReplicas cfg);
  cf_connect : ∃ n, sc_ConnectTimeout cfg = n * 1000000 ∧ 0 < n < 2 ^ 31;
  cf_request : ∃ n, sc_RequestTimeout cfg = n * 1000000 ∧ 0 < n < 2 ^ 31 }.

Lemma ms_whole n : ms (n * 1000000) = n.
Proof. unfold ms. apply Z.quot_mul. lia. Qed.

(** The configuration a client sends to trigger recovery arrives unchanged,
    except that the explicit owner table and its epoch are not part of the
    message. *)
Theorem recover_config_roundtrip cfg : config_fits cfg →
  router_config (recover_request cfg) =
    {| sc_Groups := sc_Groups cfg; sc_NumShards := sc_NumShards cfg; sc_VirtualNodeCount := sc_VirtualNodeCount cfg;
       sc_PreferredReplicas := sc_PreferredReplicas cfg; sc_ConnectTimeout := sc_ConnectTimeout cfg;
       sc_RequestTimeout := sc_RequestTimeout cfg; sc_ShardToGroup := []; sc_TopologyEpoch := 0 |}.
Proof.
  intros [Hg Hn Hv Hp (c & Ec & Hc) (q & Eq & Hq)]. unfold router_config, recover_request. cbn -[decide wrapS32 ms Z.mul].
  rewrite Ec, Eq, !ms_whole, !wrapS32_id by (done || (unfold isS32; lia)). rewrite !decide_True by lia. f_equal.
  rewrite <-list_fmap_compose. rewrite <-(list_fmap_id (sc_Groups cfg)) at 2. apply list_fmap_ext.
  intros i [gid reps ldr] Hi. rewrite Forall_forall in Hg. destruct (Hg _ ltac:(by eapply list_elem_of_lookup_2)) as [H1 H2].
  cbn in *. by rewrite !wrapS32_id.
Qed.

Definition gp_cfg (owners : list Z) : ShardingConfig :=
  {| sc_Groups := sc_Groups rt_cfg; sc_NumShards := 4; sc_VirtualNodeCount := 150; sc_PreferredReplicas := 3;
     sc_ConnectTimeout := 2000000000; sc_RequestTimeout := 1200000000; sc_ShardToGroup := owners; sc_TopologyEpoch := 7 |}.
Lemma gp_cfg_fits owners : config_fits (gp_cfg owners).
Proof.
  split; [|done|done|done| |].
  - repeat constructor; done.
  - by exists 2000.
  - by exists 1200.
Qed.
Lemma recover_config_roundtrip_witness :
  sc_Groups (router_config (recover_request (gp_cfg []))) = sc_Groups rt_cfg.
Proof. by rewrite (recover_config_roundtrip (gp_cfg []) (gp_cfg_fits [])). Defined.

(** The router that a server builds from the message does not know that shards
    were moved: with the owner table of a client that moved all shards to group 2,
    the client sends key [kk] to group 2 and the recovering server to group 1. *)
Theorem recovered_router_misroutes :
  let resolve cfg := r ← NewShardRouter rt_dial 0 cfg; match r with inr r => router_Resolve rt_hash r "kk" | inl _ => None end in
  resolve (gp_cfg [2; 2; 2; 2]) = Some 2 ∧ resolve (router_config (recover_request (gp_cfg [2; 2; 2; 2]))) = Some 1.
Proof. by vm_compute. Qed.

(** ** Watch sessions *)











(** A session that creates two watches and cancels the first by its own id. *)
Definition gp_session : list WatchRequest := [WatchCreate "a" false; WatchCreate "b" true; WatchCancel 3].

(** Sessions that only cancel the current watch leave nothing behind. *)
Example own_cancels_clean :
  (m' ← grpc_Watch (λ _, 0) [WatchCreate "a" false; WatchCreate "b" true; WatchCancel 4] 0 (ws_mgr wt_s3);
   Some (elements (mg_watchers m'))) = Some [2] ∧
  (m' ← grpc_Watch (λ _, 0) [WatchCreate "a" false; WatchCancel 0] 0 (ws_mgr wt_s3); Some (elements (mg_watchers m'))) = Some [2].
Proof. by vm_compute. Qed.

(** A cancel request may name any watcher: it removes that one, whoever owns it,
    and forgets the session's own, which stays in the table for ever; so does a
    cancel of an earlier watch of the same session. *)
Theorem foreign_cancel_leaks :
  (m' ← grpc_Watch (λ _, 0) [WatchCreate "a" false; WatchCancel 2] 0 (ws_mgr wt_s3); Some (elements (mg_watchers m'))) = Some [3] ∧
  elements (mg_watchers (ws_mgr wt_s3)) = [2] ∧
  (m' ← grpc_Watch (λ _, 0) gp_session 0 (ws_mgr wt_s3); Some (bool_decide (4 ∈ mg_watchers m'))) = Some true.
Proof. by vm_compute. Qed.
