(* ===== verification/Net.v ===== *)
(** * The world outside a client: groups that refine the abstract machine

    A group is the abstract versioned map that a server refines
    ([ServerProps.server_refines_spec]).  A script says what happens around each
    call: the requests other clients get executed before it, how often the call's
    request is executed without its answer arriving (a router sends it to the next
    replica when an answer is late), and how it is answered in the end.  The log
    records every executed request with its reply. *)
From stdpp Require Import prelude gmap strings.
From stdpp Require Import options.
From S2P Require Import Prelude KvApi ExpiryHeap Store Server ServerProps Pb Router Grpc.
Local Open Scope Z_scope.

Inductive answer_kind := Answered | Refused (e : Err) | NoAnswer.
Record turn := { tn_others : list (Z * request); tn_lost : nat; tn_kind : answer_kind; tn_now : Z }.
(** Without a script every request is executed once and answered. *)
Definition calm : turn := {| tn_others := []; tn_lost := 0; tn_kind := Answered; tn_now := 0 |}.

Record log_entry := { lg_ours : bool; lg_group : Z; lg_req : request; lg_reply : option reply }.
Record net := mkNet { nt_groups : Z → amap; nt_script : list turn; nt_log : list log_entry }.

Definition set_group (g : Z) (m : amap) (gs : Z → amap) : Z → amap := λ g', if decide (g' = g) then m else gs g'.
(** Executing a request on a group. *)
Definition execute (ours : bool) (now g : Z) (req : request) (w : net) : net * option reply :=
  let '(m, rep) := spec_step now now (nt_groups w g) req in
  (mkNet (set_group g m (nt_groups w)) (nt_script w) (nt_log w ++ [{| lg_ours := ours; lg_group := g; lg_req := req; lg_reply := rep |}]), rep).
Definition execute_others (now : Z) (l : list (Z * request)) (w : net) : net :=
  foldl (λ w '(g, req), (execute false now g req w).1) w l.
Definition execute_lost (now g : Z) (req : request) (n : nat) (w : net) : net :=
  Nat.iter n (λ w, (execute true now g req w).1) w.

(** A call: an error code for a refusal, a reply, or nothing. *)
Definition call (g : Z) (req : request) (w : net) : net * option (Err + option reply) :=
  let t := default calm (head (nt_script w)) in
  let w := mkNet (nt_groups w) (tail (nt_script w)) (nt_log w) in
  let w := execute_others (tn_now t) (tn_others t) w in
  let w := execute_lost (tn_now t) g req (tn_lost t) w in
  match tn_kind t with
  | Answered => let '(w, rep) := execute true (tn_now t) g req w in (w, Some (inr rep))
  | Refused e => (w, Some (inl e))
  | NoAnswer => (w, None)
  end.

(** ** Calls as the router gives them *)

(** What the service answers when [submit] has that outcome. *)
Definition submitted (r : Err + option reply) (_ : request) : Err * option reply :=
  match r with inl e => (e, None) | inr rep => (OK, rep) end.
Definition net_get (g : Z) (key : string) (w : net) : net * option GetResponse :=
  let '(w, r) := call g (ReqGet {| GetArgs_Key := key |}) w in
  (w, (λ r, (grpc_Get false false (λ req, (submitted r req, false)) zeroStats key).2) <$> r).
Definition net_put (g : Z) (req : PutRequest) (w : net) : net * option PutResponse :=
  let '(w, r) := call g (ReqPut {| PutArgs_Key := PutRequest_key req; PutArgs_Value := PutRequest_value req;
                                   PutArgs_Version := PutRequest_version req; PutArgs_TTL := PutRequest_ttl_seconds req |}) w in
  (w, (λ r, grpc_Put false (submitted r) req) <$> r).
Definition net_delete (g : Z) (key : string) (w : net) : net * option DeleteResponse :=
  let '(w, r) := call g (ReqDelete {| DeleteArgs_Key := key |}) w in
  (w, (λ r, grpc_Delete false (submitted r) key) <$> r).

(** The entries a piece of the client's work added to the log. *)
Definition ours_since (w w' : net) : list log_entry := filter (λ e, lg_ours e = true) (drop (length (nt_log w)) (nt_log w')).
