(* ===== verification/Client.v ===== *)
(** * pkg/kv/client.go: the retry loops of a clerk

    The routed calls of the router and the clock are arguments that pass a state
    [W]: the world outside the clerk.  A routed call gives a response or, for an
    error or a nil response, [None].  The loops are bounded by [maxAttempts]; the
    fuel is one more, and [None] means that it ran out. *)
From Stdlib Require Import SpecFloat.
From stdpp Require Import prelude gmap strings.
From stdpp Require Import options.
From S2P Require Import Prelude KvApi Pb Router.
Local Open Scope Z_scope.

Definition retryBackoffBase : Z := 8000000.
Definition retryBackoffMax : Z := 500000000.
Definition maxAttempts : Z := 80.

(** [1 << attempt] of type int64. *)
Definition shl1 (attempt : Z) : Z := if decide (64 ≤ attempt) then 0 else wrapS64 (Z.shiftl 1 attempt).
(** The delay before jitter. *)
Definition backoff_delay (attempt base maxDelay : Z) : Z :=
  let delay := wrapS64 (base * shl1 attempt) in
  if decide (delay ≤ 0 ∨ maxDelay < delay) then maxDelay else delay.
(** ** IEEE 754 double precision, as far as the jitter uses it *)

Definition f64 := spec_float.
Definition f64_of_Z (z : Z) : f64 := binary_normalize 53 1024 z 0 false.
Definition f64_mul : f64 → f64 → f64 := SFmul 53 1024.
Definition f64_div : f64 → f64 → f64 := SFdiv 53 1024.
Definition f64_sub : f64 → f64 → f64 := SFsub 53 1024.
(** The conversion to an integer cuts the fraction off; the values that do not
    fit are not converted ([None]). *)
Definition f64_to_int64 (f : f64) : option Z :=
  match f with
  | S754_zero _ => Some 0
  | S754_finite s m e =>
      let n := if decide (0 ≤ e) then Z.pos m * 2 ^ e else Z.pos m / 2 ^ (- e) in
      let z := if s then - n else n in
      if decide (isS64 z) then Some z else None
  | S754_infinity _ | S754_nan => None
  end.

(** [time.Duration(float64(delay) * 0.25 * (float64(nano % 1000) / 1000.0 * 2 - 1))]
    with [nano] the clock in nanoseconds. *)
Definition backoff_jitter (delay nano : Z) : option Z :=
  f64_to_int64 (f64_mul (f64_mul (f64_of_Z delay) (f64_div (f64_of_Z 1) (f64_of_Z 4)))
    (f64_sub (f64_mul (f64_div (f64_of_Z (Z.rem nano 1000)) (f64_of_Z 1000)) (f64_of_Z 2)) (f64_of_Z 1))).

Definition backoffWithJitter (attempt base maxDelay nano : Z) : option Z :=
  let delay := backoff_delay attempt base maxDelay in
  jitter ← backoff_jitter delay nano;
  let result := wrapS64 (delay + jitter) in
  Some (if decide (result < 0) then base else if decide (maxDelay < result) then maxDelay else result).

(** [MakeClerk]: the configuration for a single group. *)
Definition single_group_config (servers : list string) : ShardingConfig :=
  {| sc_Groups := [{| rg_GroupID := 1; rg_Replicas := servers; rg_LeaderIdx := 0 |}]; sc_NumShards := 0;
     sc_VirtualNodeCount := 150; sc_PreferredReplicas := Z.of_nat (length servers);
     sc_ConnectTimeout := 2000000000; sc_RequestTimeout := 1200000000; sc_ShardToGroup := []; sc_TopologyEpoch := 0 |}.

(** [triggerRecoveryOnAllGroups]: what became of the call to each group; the
    clerk ignores it. *)
Definition triggerRecoveryOnAllGroups (now : Z) (rpc : Z → SetRouterAndRecoverRequest → string → rpc_result string)
    (router : ShardRouter) (cfg : ShardingConfig) : list (option router_err) :=
  (λ group, TriggerRecoveryToGroup now (rpc (rg_GroupID group)) (rg_GroupID group) cfg router) <$> sc_Groups cfg.
Definition MakeShardedClerk (dial : string → bool) (now : Z) (rpc : Z → SetRouterAndRecoverRequest → string → rpc_result string)
    (cfg : ShardingConfig) : option (router_err + ShardRouter * list (option router_err)) :=
  res ← NewShardRouter dial now cfg;
  Some (sum_map id (λ router, (router, triggerRecoveryOnAllGroups now rpc router cfg)) res).
(** An error of the router is a panic. *)
Definition MakeClerk (dial : string → bool) (now : Z) (rpc : Z → SetRouterAndRecoverRequest → string → rpc_result string)
    (servers : list string) : option (ShardRouter * list (option router_err)) :=
  res ← MakeShardedClerk dial now rpc (single_group_config servers);
  match res with inl _ => None | inr clerk => Some clerk end.
Definition clerk_Close (router : option ShardRouter) : option ShardRouter := router_Close <$> router.

Section clerk.
Context {W : Type}.
(** [time.Now().After(deadline)], where the deadline is part of the world. *)
Variable expired : W → bool.
Variable get_route : string → W → W * option GetResponse.
Variable put_route : PutRequest → W → W * option PutResponse.
Variable delete_route : string → W → W * option DeleteResponse.
Variable scan_route : string → Z → W → W * option (list KeyValue).

Definition window_over (attempts : Z) (w : W) : bool := bool_decide (maxAttempts ≤ attempts) || expired w.

Fixpoint clerk_Get (fuel : nat) (attempts : Z) (key : string) (w : W) : option (W * (string * Z * Z * Err)) :=
  match fuel with
  | O => None
  | S fuel =>
      if window_over attempts w then Some (w, ("", 0, 0, ErrWrongLeader))
      else
        let '(w, resp) := get_route key w in
        match resp with
        | None => clerk_Get fuel (attempts + 1) key w
        | Some resp =>
            match mapPBErr (GetResponse_error resp) with
            | OK => Some (w, (GetResponse_value resp, GetResponse_version resp, GetResponse_expires resp, OK))
            | ErrNoKey => Some (w, ("", 0, 0, ErrNoKey))
            | _ => clerk_Get fuel (attempts + 1) key w
            end
        end
  end.

Definition readVersionFast (key : string) (w : W) : W * Z :=
  let '(w, resp) := get_route key w in
  (w, match resp with
      | Some resp => if decide (mapPBErr (GetResponse_error resp) ≠ OK) then 0 else GetResponse_version resp
      | None => 0
      end).

Fixpoint doPut (fuel : nat) (attempts : Z) (rpcAttempted : bool) (autoRefreshLeft : Z) (key value : string) (version ttlSeconds : Z) (w : W)
    : option (W * Err) :=
  match fuel with
  | O => None
  | S fuel =>
      if window_over attempts w then Some (w, ErrWrongLeader)
      else
        let '(w, resp) := put_route {| PutRequest_key := key; PutRequest_value := value; PutRequest_version := version;
                                       PutRequest_ttl_seconds := ttlSeconds |} w in
        match resp with
        | None => doPut fuel (attempts + 1) true autoRefreshLeft key value version ttlSeconds w
        | Some resp =>
            match mapPBErr (PutResponse_error resp) with
            | OK => Some (w, OK)
            | ErrNoKey => Some (w, ErrNoKey)
            | ErrVersion =>
                if negb rpcAttempted then Some (w, ErrVersion)
                else if decide (0 < autoRefreshLeft) then
                  let '(w, latestV) := readVersionFast key w in
                  doPut fuel (attempts + 1) rpcAttempted (autoRefreshLeft - 1) key value
                    (if decide (version < latestV) then latestV else version) ttlSeconds w
                else Some (w, ErrMaybe)
            | _ => doPut fuel (attempts + 1) true autoRefreshLeft key value version ttlSeconds w
            end
        end
  end.
Definition loop_fuel : nat := S (Z.to_nat maxAttempts).
Definition clerk_PutWithTTL (key value : string) (version ttlSeconds : Z) (w : W) : option (W * Err) :=
  doPut loop_fuel 0 false 3 key value version ttlSeconds w.
Definition clerk_Put (key value : string) (version : Z) (w : W) : option (W * Err) := clerk_PutWithTTL key value version 0 w.

Fixpoint clerk_Delete (fuel : nat) (attempts : Z) (key : string) (w : W) : option (W * Err) :=
  match fuel with
  | O => None
  | S fuel =>
      if window_over attempts w then Some (w, ErrWrongLeader)
      else
        let '(w, resp) := delete_route key w in
        match resp with
        | None => clerk_Delete fuel (attempts + 1) key w
        | Some resp =>
            let errCode := mapPBErr (DeleteResponse_error resp) in
            if decide (errCode = OK ∨ errCode = ErrNoKey) then Some (w, errCode)
            else clerk_Delete fuel (attempts + 1) key w
        end
  end.

Fixpoint clerk_Scan (fuel : nat) (attempts : Z) (prefix : string) (limit : Z) (w : W) : option (W * (list KeyValue * Err)) :=
  match fuel with
  | O => None
  | S fuel =>
      if window_over attempts w then Some (w, ([], ErrWrongLeader))
      else
        let '(w, items) := scan_route prefix limit w in
        match items with
        | Some items => Some (w, (items, OK))
        | None => clerk_Scan fuel (attempts + 1) prefix limit w
        end
  end.
End clerk.

(** [Watch]: the event handed to the subscriber of a group's event; [show] is
    fmt's [%d]. *)
Definition clerk_event (show : Z → string) (groupID : Z) (event : WatchEvent) : WatchEvent :=
  {| we_watch_id := we_watch_id event; we_key := we_key event; we_old_value := we_old_value event;
     we_new_value := we_new_value event; we_new_version := we_new_version event;
     we_event_type := "group-" +:+ show groupID +:+ ":" +:+ we_event_type event |}.
