(* ===== verification/ClientProps.v ===== *)
(** * What the answers of a clerk mean

    The retry loops end; the pauses are bounded; a definite answer is the reply of
    a group to the last request the clerk had executed there.  Two runs show
    where [Put] promises more than it keeps. *)
From stdpp Require Import prelude gmap strings.
From stdpp Require Import options.
From S2P Require Import Prelude KvApi ExpiryHeap Store StoreProps Server ServerProps Pb Router Grpc GrpcProps Net Client.
Local Open Scope Z_scope.

(** ** The loops end *)

(** One more attempt is possible, or the window is over. *)
Definition enough (fuel : nat) (attempts : Z) : Prop := (0 < fuel)%nat ∧ maxAttempts - attempts < Z.of_nat fuel.
Lemma enough_next {W} (expired : W → bool) fuel attempts w : enough (S fuel) attempts → window_over expired attempts w = false → enough fuel (attempts + 1).
Proof.
  unfold enough, window_over. intros [_ Hf] [Hw _]%orb_false_iff. apply bool_decide_eq_false in Hw. lia.
Qed.

Lemma enough_start : enough loop_fuel 0.
Proof. unfold enough, loop_fuel, maxAttempts. lia. Qed.

Section ends.
Context {W : Type} (expired : W → bool).
Variable get_route : string → W → W * option GetResponse.
Variable put_route : PutRequest → W → W * option PutResponse.
Variable delete_route : string → W → W * option DeleteResponse.
Variable scan_route : string → Z → W → W * option (list KeyValue).

Lemma Get_ends key fuel : ∀ attempts w, enough fuel attempts → is_Some (clerk_Get expired get_route fuel attempts key w).
Proof.
  induction fuel as [|fuel IH]; intros attempts w Hf; [by destruct (Nat.lt_irrefl 0 (proj1 Hf))|]. cbn [clerk_Get].
  destruct (window_over expired attempts w) eqn:Hw; [eauto|]. pose proof (enough_next _ _ _ _ Hf Hw).
  destruct (get_route key w) as [w' [resp|]]; [|auto]. destruct (mapPBErr _); eauto.
Qed.
Lemma doPut_ends key value ttl fuel : ∀ attempts tried left version w, enough fuel attempts →
  is_Some (doPut expired get_route put_route fuel attempts tried left key value version ttl w).
Proof.
  induction fuel as [|fuel IH]; intros attempts tried left version w Hf; [by destruct (Nat.lt_irrefl 0 (proj1 Hf))|]. cbn [doPut].
  destruct (window_over expired attempts w) eqn:Hw; [eauto|]. pose proof (enough_next _ _ _ _ Hf Hw).
  destruct (put_route _ w) as [w' [resp|]]; [|auto]. destruct (mapPBErr _); eauto.
  destruct tried; cbn [negb]; [|eauto]. destruct (decide (0 < left)); [|eauto]. destruct (readVersionFast _ _ _). auto.
Qed.
Lemma Delete_ends key fuel : ∀ attempts w, enough fuel attempts → is_Some (clerk_Delete expired delete_route fuel attempts key w).
Proof.
  induction fuel as [|fuel IH]; intros attempts w Hf; [by destruct (Nat.lt_irrefl 0 (proj1 Hf))|]. cbn [clerk_Delete].
  destruct (window_over expired attempts w) eqn:Hw; [eauto|]. pose proof (enough_next _ _ _ _ Hf Hw).
  destruct (delete_route key w) as [w' [resp|]]; [|auto]. case_decide; eauto.
Qed.
Lemma Scan_ends prefix limit fuel : ∀ attempts w, enough fuel attempts → is_Some (clerk_Scan expired scan_route fuel attempts prefix limit w).
Proof.
  induction fuel as [|fuel IH]; intros attempts w Hf; [by destruct (Nat.lt_irrefl 0 (proj1 Hf))|]. cbn [clerk_Scan].
  destruct (window_over expired attempts w) eqn:Hw; [eauto|]. pose proof (enough_next _ _ _ _ Hf Hw).
  destruct (scan_route prefix limit w) as [w' [items|]]; eauto.
Qed.

(** C29: Every call of a clerk returns after at most 80 attempts, whatever the
    groups answer, however the topology hints change and even if the clock never
    reaches the deadline. *)
Theorem clerk_terminates key value version ttl prefix limit w :
  is_Some (clerk_Get expired get_route loop_fuel 0 key w) ∧
  is_Some (clerk_PutWithTTL expired get_route put_route key value version ttl w) ∧
  is_Some (clerk_Delete expired delete_route loop_fuel 0 key w) ∧
  is_Some (clerk_Scan expired scan_route loop_fuel 0 prefix limit w).
Proof.
  pose proof enough_start.
  split_and!; [by apply Get_ends|by apply doPut_ends|by apply Delete_ends|by apply Scan_ends].
Qed.
End ends.

(** ** The pauses *)

Lemma backoff_delay_table : Forall (λ a, backoff_delay a retryBackoffBase retryBackoffMax =
  if decide (a < 6) then retryBackoffBase * 2 ^ a else retryBackoffMax) (seqZ 0 64).
Proof. apply (bool_decide_unpack _). by vm_compute. Qed.
Lemma backoff_delay_eq a : 0 ≤ a →
  backoff_delay a retryBackoffBase retryBackoffMax = if decide (a < 6) then retryBackoffBase * 2 ^ a else retryBackoffMax.
Proof.
  intros Ha. destruct (decide (a < 64)) as [Hlt|Hge].
  - pose proof backoff_delay_table as H. rewrite Forall_forall in H. apply H. apply elem_of_seqZ. lia.
  - rewrite (decide_False (P := a < 6)) by lia. unfold backoff_delay, shl1. rewrite (decide_True (P := 64 ≤ a)) by lia. by vm_compute.
Qed.

(** The jitter of the seven delays at the thousand residues of the clock. *)
Definition jitter_within (d r : Z) : bool :=
  match backoff_jitter d r with Some j => bool_decide (Z.abs j ≤ d / 4) | None => false end.
Lemma jitter_table : forallb (λ d, forallb (jitter_within d) (seqZ 0 1000))
  (retryBackoffMax :: ((λ a, retryBackoffBase * 2 ^ a) <$> seqZ 0 6)) = true.
Proof. by vm_compute. Qed.
Lemma jitter_quarter attempt nano : 0 ≤ attempt → 0 ≤ nano →
  let d := if decide (attempt < 6) then retryBackoffBase * 2 ^ attempt else retryBackoffMax in
  ∃ j, backoff_jitter d nano = Some j ∧ Z.abs j ≤ d / 4.
Proof.
  intros Ha Hn d.
  assert (jitter_within d (Z.rem nano 1000) = true) as Hw.
  { pose proof jitter_table as Ht. rewrite forallb_forall in Ht.
    assert (forallb (jitter_within d) (seqZ 0 1000) = true) as Hd.
    { apply Ht, list_elem_of_In. unfold d. destruct (decide (attempt < 6)); [right|left].
      apply list_elem_of_fmap. exists attempt. split; [done|]. apply elem_of_seqZ. lia. }
    rewrite forallb_forall in Hd. apply Hd, list_elem_of_In, elem_of_seqZ.
    pose proof (Z.rem_bound_pos nano 1000). lia. }
  assert (backoff_jitter d nano = backoff_jitter d (Z.rem nano 1000)) as ->.
  { unfold backoff_jitter. by rewrite Z.rem_rem. }
  unfold jitter_within in Hw. destruct (backoff_jitter d (Z.rem nano 1000)) as [j|]; [|done].
  exists j. split; [done|]. by apply bool_decide_eq_true in Hw.
Qed.

(** C39: The pause between two attempts, computed with the double-precision
    arithmetic of the code from the clock (not before 1970), is within a quarter
    of 8 ms doubled with every attempt and capped at half a second, and at most
    half a second, also for the attempts at which 1 << attempt and the product
    overflow int64. *)
Theorem backoff_bounds attempt nano : 0 ≤ attempt → 0 ≤ nano →
  let d := if decide (attempt < 6) then retryBackoffBase * 2 ^ attempt else retryBackoffMax in
  ∃ pause, backoffWithJitter attempt retryBackoffBase retryBackoffMax nano = Some pause ∧
    0 < d ≤ retryBackoffMax ∧ d - d / 4 ≤ pause ≤ retryBackoffMax ∧ pause ≤ d + d / 4.
Proof.
  intros Ha Hn d. destruct (jitter_quarter attempt nano Ha Hn) as (j & Ej & Hj). fold d in Ej, Hj.
  assert (0 < d ≤ retryBackoffMax) as Hd.
  { unfold d. destruct (decide (attempt < 6)); [|done].
    assert (2 ^ 0 ≤ 2 ^ attempt ≤ 2 ^ 5) by (split; apply Z.pow_le_mono_r; lia). unfold retryBackoffBase, retryBackoffMax. lia. }
  unfold backoffWithJitter. rewrite backoff_delay_eq by done. fold d. rewrite Ej. cbn.
  eexists. split; [reflexivity|]. split; [done|].
  assert (d / 4 ≤ d) by (apply Z.div_le_upper_bound; lia).
  unfold retryBackoffMax in *. rewrite wrapS64_id by (unfold isS64; lia).
  destruct (decide (d + j < 0)); [lia|]. case_decide; lia.
Qed.
Lemma backoff_bounds_witness :
  ∃ pause, backoffWithJitter 3 retryBackoffBase retryBackoffMax 1700000000000000250 = Some pause ∧
    0 < 64000000 ≤ retryBackoffMax ∧ 64000000 - 64000000 / 4 ≤ pause ≤ retryBackoffMax ∧ pause ≤ 64000000 + 64000000 / 4.
Proof. apply (backoff_bounds 3 1700000000000000250); lia. Defined.
Example backoff_run : backoffWithJitter 3 retryBackoffBase retryBackoffMax 1700000000000000250 = Some 56000000.
Proof. by vm_compute. Qed.

(** ** The log of a call *)

(** Only refusals without an outcome. *)
Definition refusal (e : Err) : Prop := e = ErrWrongLeader ∨ e = ErrWrongGroup ∨ e = ErrMaybe.
Definition script_ok (w : net) : Prop := Forall (λ t, match tn_kind t with Refused e => refusal e | _ => True end) (nt_script w).

Definition mine (g : Z) (req : request) (rep : option reply) : log_entry :=
  {| lg_ours := true; lg_group := g; lg_req := req; lg_reply := rep |}.
(** [w'] is later than [w], with the entries [new] of the client. *)
Definition later (w w' : net) (new : list log_entry) : Prop :=
  ∃ log, nt_log w' = nt_log w ++ log ∧ filter (λ e, lg_ours e = true) log = new.

Lemma later_refl w : later w w [].
Proof. exists []. by rewrite app_nil_r. Qed.
Lemma later_trans w1 w2 w3 l1 l2 : later w1 w2 l1 → later w2 w3 l2 → later w1 w3 (l1 ++ l2).
Proof. intros (k1 & H1 & <-) (k2 & H2 & <-). exists (k1 ++ k2). rewrite H2, H1, app_assoc, filter_app. done. Qed.
Lemma later_ours w w' new : later w w' new → ours_since w w' = new.
Proof. intros (k & Hk & <-). unfold ours_since. by rewrite Hk, drop_app_length. Qed.

Lemma execute_later ours now g req w : later w (execute ours now g req w).1
  (if ours then [mine g req (execute ours now g req w).2] else []).
Proof. unfold execute. destruct (spec_step _ _ _ _) as [m rep]. eexists. split; [done|]. by destruct ours. Qed.
Lemma execute_script ours now g req w : nt_script (execute ours now g req w).1 = nt_script w.
Proof. unfold execute. by destruct (spec_step _ _ _ _). Qed.
Lemma execute_others_later now l : ∀ w, later w (execute_others now l w) [] ∧ nt_script (execute_others now l w) = nt_script w.
Proof.
  induction l as [|[g req] l IH]; intros w; [split; [apply later_refl|done]|]. cbn [execute_others foldl].
  destruct (IH (execute false now g req w).1) as [Hl Hs]. split; [|by rewrite execute_script in Hs].
  eapply (later_trans _ _ _ [] []); [apply (execute_later false)|exact Hl].
Qed.
Lemma execute_lost_later now g req n : ∀ w, ∃ new, later w (execute_lost now g req n w) new ∧ length new = n ∧
  Forall (λ e, lg_group e = g ∧ lg_req e = req) new ∧ nt_script (execute_lost now g req n w) = nt_script w.
Proof.
  unfold execute_lost. induction n as [|n IH]; intros w; [exists []; split_and!; [apply later_refl|done|constructor|done]|].
  destruct (IH w) as (new & Hl & Hn & Hall & Hs). rewrite Nat.iter_succ. set (w1 := Nat.iter n _ w) in *.
  exists (new ++ [mine g req (execute true now g req w1).2]). split_and!.
  - eapply later_trans; [exact Hl|apply (execute_later true)].
  - rewrite length_app. cbn. lia.
  - apply Forall_app. split; [done|]. by repeat constructor.
  - by rewrite execute_script.
Qed.

(** What one call leaves in the log and how it ends. *)
Lemma call_spec g req w w' r : call g req w = (w', r) → script_ok w →
  ∃ lost, length lost = tn_lost (default calm (head (nt_script w))) ∧ Forall (λ e, lg_group e = g ∧ lg_req e = req) lost ∧ script_ok w' ∧
  match r with
  | Some (inr rep) => later w w' (lost ++ [mine g req rep]) ∧ ∃ m now, rep = (spec_step now now m req).2
  | Some (inl e) => later w w' lost ∧ refusal e
  | None => later w w' lost
  end.
Proof.
  unfold call. set (t := default calm (head (nt_script w))). set (w0 := mkNet (nt_groups w) _ _).
  intros Hc Hok. destruct (execute_others_later (tn_now t) (tn_others t) w0) as [Hl1 Hs1].
  destruct (execute_lost_later (tn_now t) g req (tn_lost t) (execute_others (tn_now t) (tn_others t) w0)) as (lost & Hl2 & Hn & Hall & Hs2).
  set (w2 := execute_lost _ _ _ _ _) in *. assert (later w w2 lost) as Hl.
  { apply (later_trans _ w0 _ [] lost); [exists []; by rewrite app_nil_r|]. by apply (later_trans _ _ _ [] lost Hl1). }
  assert (script_ok w2) as Hok2.
  { unfold script_ok. rewrite Hs2, Hs1. cbn. unfold script_ok in Hok. destruct (nt_script w); [done|]. by apply Forall_cons in Hok as [_ ?]. }
  assert (match tn_kind t with Refused e => refusal e | _ => True end) as Hk.
  { unfold t. destruct (nt_script w) eqn:E; [done|]. unfold script_ok in Hok. rewrite E in Hok. by apply Forall_cons in Hok as [? _]. }
  exists lost. destruct (tn_kind t) as [|e|].
  - destruct (execute true (tn_now t) g req w2) as [w3 rep] eqn:E. injection Hc as <- <-.
    pose proof (execute_later true (tn_now t) g req w2) as Hl3. rewrite E in Hl3. cbn in Hl3. split_and!; [done|done| | |].
    + unfold script_ok. pose proof (execute_script true (tn_now t) g req w2) as Hs3. rewrite E in Hs3. cbn in Hs3. by rewrite Hs3.
    + by eapply later_trans.
    + unfold execute in E. exists (nt_groups w2 g), (tn_now t). destruct (spec_step _ _ _ _). by injection E as _ <-.
  - injection Hc as <- <-. done.
  - injection Hc as <- <-. done.
Qed.

(** ** Definite answers *)

Definition put_args (key value : string) (version ttl : Z) : PutArgs :=
  {| PutArgs_Key := key; PutArgs_Value := value; PutArgs_Version := version; PutArgs_TTL := ttl |}.

(** The response of a call is the packed reply, or a refusal. *)
Definition answered_by {A R} (g : Z) (w w' : net) (req : request) (n : nat) (con : R → reply) (err : R → Err) (text : A → string) (pack : R → A)
    (resp : option A) : Prop :=
  ∃ lost, length lost = n ∧ Forall (λ e, lg_group e = g ∧ lg_req e = req) lost ∧
  match resp with
  | None => later w w' lost
  | Some resp =>
      (∃ rep, later w w' (lost ++ [mine g req (Some (con rep))]) ∧ resp = pack rep ∧ mapPBErr (text resp) = err rep) ∨
      (later w w' lost ∧ refusal (mapPBErr (text resp)))
  end.
Definition lost_now (w : net) : nat := tn_lost (default calm (head (nt_script w))).

Lemma refusal_text e : refusal e → e ≠ OK ∧ mapPBErr (errReply e) = e.
Proof. intros [->|[->| ->]]; done. Qed.

(** Up to the reply of the abstract machine. *)
Ltac net_answer method :=
  let w1 := fresh "w1" in let r := fresh "r" in let E := fresh "E" in
  destruct (call _ _ _) as [w1 r] eqn:E; intros [= <- <-] Hok;
  destruct (call_spec _ _ _ _ _ E Hok) as (lost & Hn & Hall & Hok' & Hr); split; [done|]; exists lost; split; [done|]; split; [done|];
  destruct r as [[e|rep]|]; cbn [fmap option_fmap option_map]; [|destruct Hr as (Hl & m & now & ->)|done];
  [right; destruct Hr as [Hl Hf]; split; [done|]; destruct (refusal_text e Hf) as [Hne Ht];
   unfold method, submitted; rewrite decide_True by done; cbn; by rewrite Ht
  |left; cbn [spec_step] in *].

Lemma net_get_spec g key w w' resp : net_get g key w = (w', resp) → script_ok w →
  script_ok w' ∧ answered_by g w w' (ReqGet {| GetArgs_Key := key |}) (lost_now w) RepGet GetReply_Err GetResponse_error get_response resp.
Proof.
  unfold net_get. net_answer grpc_Get.
  eexists. split; [exact Hl|]. cbn. split; [done|]. apply mapPBErr_errReply.
Qed.
Lemma net_put_spec g req w w' resp : net_put g req w = (w', resp) → script_ok w →
  script_ok w' ∧ answered_by g w w' (ReqPut (put_args (PutRequest_key req) (PutRequest_value req) (PutRequest_version req) (PutRequest_ttl_seconds req)))
    (lost_now w) RepPut PutReply_Err PutResponse_error put_response resp.
Proof.
  unfold net_put. fold (put_args (PutRequest_key req) (PutRequest_value req) (PutRequest_version req) (PutRequest_ttl_seconds req)).
  net_answer grpc_Put.
  destruct (cas_spec _ _ _ _) as [[post old] []]; cbn [snd] in *;
      (eexists; split; [exact Hl|]; cbn; split; [done|]; apply mapPBErr_errReply).
Qed.
Lemma net_delete_spec g key w w' resp : net_delete g key w = (w', resp) → script_ok w →
  script_ok w' ∧ answered_by g w w' (ReqDelete {| DeleteArgs_Key := key |}) (lost_now w) RepDelete DeleteReply_Err DeleteResponse_error delete_response resp.
Proof.
  unfold net_delete. net_answer grpc_Delete.
  destruct (visible _ _ _); cbn [snd] in *;
      (eexists; split; [exact Hl|]; cbn; split; [done|]; apply mapPBErr_errReply).
Qed.

(** The work from [w] to [w'] ends, if the answer is definite, with an executed
    request of the client that has property [P]. *)
Definition concludes (w w' : net) (definite : Prop) (P : log_entry → Prop) : Prop :=
  ∃ new, later w w' new ∧ (definite → ∃ pre last, new = pre ++ [last] ∧ P last).
Lemma concludes_after w w1 w' l D P : later w w1 l → concludes w1 w' D P → concludes w w' D P.
Proof.
  intros Hl (new & Hnew & Hlast). exists (l ++ new). split; [by eapply later_trans|]. intros HD.
  destruct (Hlast HD) as (pre & last & -> & ?). exists (l ++ pre), last. by rewrite app_assoc.
Qed.
Lemma concludes_now w w' lost last (D : Prop) (P : log_entry → Prop) : later w w' (lost ++ [last]) → P last → concludes w w' D P.
Proof. intros Hl HP. eexists. split; [exact Hl|]. eauto. Qed.
Lemma concludes_nothing w (D : Prop) P : ¬ D → concludes w w D P.
Proof. intros HD. exists []. split; [apply later_refl|]. done. Qed.

Definition definite (e : Err) : Prop := e = OK ∨ e = ErrNoKey.

Section answers.
Variables (expired : net → bool) (g : Z).

(** The reply behind an answer. *)
Definition get_reply (key : string) (ans : string * Z * Z * Err) (last : log_entry) : Prop :=
  ∃ rep, last = mine g (ReqGet {| GetArgs_Key := key |}) (Some (RepGet rep)) ∧ GetReply_Err rep = ans.2 ∧
    (ans.2 = OK → ans.1 = (GetReply_Value rep, GetReply_Version rep, GetReply_Expires rep)).
Definition put_reply (key value : string) (ttl : Z) (e : Err) (last : log_entry) : Prop :=
  ∃ version rep, last = mine g (ReqPut (put_args key value version ttl)) (Some (RepPut rep)) ∧ PutReply_Err rep = e.
Definition delete_reply (key : string) (e : Err) (last : log_entry) : Prop :=
  ∃ rep, last = mine g (ReqDelete {| DeleteArgs_Key := key |}) (Some (RepDelete rep)) ∧ DeleteReply_Err rep = e.

Lemma clerk_Get_spec key fuel : ∀ attempts w w' ans, script_ok w →
  clerk_Get expired (net_get g) fuel attempts key w = Some (w', ans) → concludes w w' (definite ans.2) (get_reply key ans).
Proof.
  induction fuel as [|fuel IH]; intros attempts w w' ans Hok H; [done|]. cbn [clerk_Get] in H.
  destruct (window_over expired attempts w); [injection H as <- <-; apply concludes_nothing; by intros [?|?]|].
  destruct (net_get g key w) as [w1 resp] eqn:E. destruct (net_get_spec _ _ _ _ _ E Hok) as [Hok1 (lost & _ & _ & Hr)].
  destruct resp as [resp|]; [|eapply concludes_after; [exact Hr|eauto]]. destruct Hr as [(rep & Hl & Hp & Herr)|[Hl Hf]].
  - rewrite Herr in H. destruct (GetReply_Err rep) eqn:Erep; try (eapply concludes_after; [exact Hl|by eauto]);
      injection H as <- <-; (eapply concludes_now; [exact Hl|]); exists rep; subst resp; done.
  - destruct Hf as [He|[He|He]]; rewrite He in H; (eapply concludes_after; [exact Hl|by eauto]).
Qed.
Lemma clerk_Delete_spec key fuel : ∀ attempts w w' e, script_ok w →
  clerk_Delete expired (net_delete g) fuel attempts key w = Some (w', e) → concludes w w' (definite e) (delete_reply key e).
Proof.
  induction fuel as [|fuel IH]; intros attempts w w' e Hok H; [done|]. cbn [clerk_Delete] in H.
  destruct (window_over expired attempts w); [injection H as <- <-; apply concludes_nothing; by intros [?|?]|].
  destruct (net_delete g key w) as [w1 resp] eqn:E. destruct (net_delete_spec _ _ _ _ _ E Hok) as [Hok1 (lost & _ & _ & Hr)].
  destruct resp as [resp|]; [|eapply concludes_after; [exact Hr|eauto]]. cbv zeta in H. destruct Hr as [(rep & Hl & Hp & Herr)|[Hl Hf]].
  - case_decide as Hd; [injection H as <- <-; eapply concludes_now; [exact Hl|]; by exists rep|].
    eapply concludes_after; [exact Hl|eauto].
  - rewrite decide_False in H; [eapply concludes_after; [exact Hl|eauto]|].
    by destruct Hf as [-> |[-> | ->]]; intros [?|?].
Qed.

Lemma doPut_spec key value ttl fuel : ∀ attempts tried left version w w' e, script_ok w →
  doPut expired (net_get g) (net_put g) fuel attempts tried left key value version ttl w = Some (w', e) →
  concludes w w' (definite e) (put_reply key value ttl e) ∧
  (e = ErrVersion → tried = false ∧ ∃ lost rep, length lost = lost_now w ∧ later w w' (lost ++ [mine g (ReqPut (put_args key value version ttl)) (Some (RepPut rep))]) ∧
     PutReply_Err rep = ErrVersion).
Proof.
  induction fuel as [|fuel IH]; intros attempts tried left version w w' e Hok H; [done|]. cbn [doPut] in H.
  destruct (window_over expired attempts w).
  { injection H as <- <-. split; [apply concludes_nothing; by intros [?|?]|done]. }
  destruct (net_put g _ w) as [w1 resp] eqn:E. destruct (net_put_spec _ _ _ _ _ E Hok) as [Hok1 (lost & Hn & _ & Hr)].
  cbn [PutRequest_key PutRequest_value PutRequest_version PutRequest_ttl_seconds] in Hr.
  assert (∀ l left' version' w2, later w w2 l → script_ok w2 →
    doPut expired (net_get g) (net_put g) fuel (attempts + 1) true left' key value version' ttl w2 = Some (w', e) →
    concludes w w' (definite e) (put_reply key value ttl e) ∧ e ≠ ErrVersion) as Hrec.
  { intros l left' version' w2 Hl Hok2 Hd. destruct (IH _ _ _ _ _ _ _ Hok2 Hd) as [Hc Hv].
    split; [by eapply concludes_after|]. intros He. by destruct (Hv He). }
  assert (∀ P, concludes w w' (definite e) (put_reply key value ttl e) ∧ e ≠ ErrVersion →
    concludes w w' (definite e) (put_reply key value ttl e) ∧ (e = ErrVersion → P)) as Hno by (intros P [? ?]; by split).
  destruct resp as [resp|]; [|by eapply Hno, Hrec]. destruct Hr as [(rep & Hl & Hp & Herr)|[Hl Hf]].
  - rewrite Herr in H. destruct (PutReply_Err rep) eqn:Erep; try (by eapply Hno, Hrec).
    + injection H as <- <-. split; [eapply concludes_now; [exact Hl|]; by eexists _, rep|done].
    + injection H as <- <-. split; [eapply concludes_now; [exact Hl|]; by eexists _, rep|done].
    + destruct tried; cbn [negb] in H.
      * destruct (decide (0 < left)).
        -- unfold readVersionFast in H. destruct (net_get g key w1) as [w2 r2] eqn:E2.
           destruct (net_get_spec _ _ _ _ _ E2 Hok1) as [Hok2 (lost2 & _ & _ & Hr2)].
           assert (∃ l, later w1 w2 l) as [l2 Hl2] by (destruct r2; [destruct Hr2 as [(? & ? & _)|[? _]]|]; eauto).
           eapply Hno, Hrec; [by eapply later_trans|done|exact H].
        -- injection H as <- <-. split; [|done]. eapply concludes_after; [exact Hl|]. apply concludes_nothing. by intros [?|?].
      * injection H as <- <-. split; [eapply concludes_after; [exact Hl|]; apply concludes_nothing; by intros [?|?]|].
        intros _. split; [done|]. by exists lost, rep.
  - destruct Hf as [He|[He|He]]; rewrite He in H; (by eapply Hno, Hrec).
Qed.

(** C5: The definite answers of a clerk are answers of the group.  However
    requests and answers are lost or repeated, whatever other clients do and
    however often the clerk retries: when a call returns OK or ErrNoKey, the last
    request the clerk had executed is its own operation on its key (for a Put with
    its value and TTL) and that is how the group replied, a Get returning the
    value, version and expiry of that reply.  A Put returns ErrVersion only if its
    one and only call was answered with a version conflict, so that, unless the
    router had already executed it at another replica, nothing was written. *)
Theorem clerk_answers key value version ttl w :
  script_ok w →
  (∀ w' ans, clerk_Get expired (net_get g) loop_fuel 0 key w = Some (w', ans) → concludes w w' (definite ans.2) (get_reply key ans)) ∧
  (∀ w' e, clerk_Delete expired (net_delete g) loop_fuel 0 key w = Some (w', e) → concludes w w' (definite e) (delete_reply key e)) ∧
  (∀ w' e, clerk_PutWithTTL expired (net_get g) (net_put g) key value version ttl w = Some (w', e) →
     concludes w w' (definite e) (put_reply key value ttl e) ∧
     (e = ErrVersion → ∃ lost rep, length lost = lost_now w ∧
        ours_since w w' = lost ++ [mine g (ReqPut (put_args key value version ttl)) (Some (RepPut rep))] ∧ PutReply_Err rep = ErrVersion)).
Proof.
  intros Hok. split_and!.
  - intros w' ans. by apply clerk_Get_spec.
  - intros w' e. by apply clerk_Delete_spec.
  - intros w' e H. destruct (doPut_spec _ _ _ _ _ _ _ _ _ _ _ Hok H) as [Hc Hv]. split; [done|].
    intros He. destruct (Hv He) as (_ & lost & rep & Hn & Hl & Hr). exists lost, rep. split; [done|]. split; [by apply later_ours|done].
Qed.
End answers.

(** ** Runs *)

Definition cl_turn (others : list (Z * request)) (lost : nat) (kind : answer_kind) : turn :=
  {| tn_others := others; tn_lost := lost; tn_kind := kind; tn_now := 10 |}.
(** Group 1 holds key [k] at version 5. *)
Definition cl_groups : Z → amap := λ g k,
  if decide (g = 1 ∧ k = "k") then Some {| ke_Value := "old"; ke_Version := 5; ke_Expires := 0 |} else None.
Definition cl_net (script : list turn) : net := mkNet cl_groups script [].
Definition cl_put (script : list turn) : option (net * Err) :=
  clerk_Put (λ _, false) (net_get 1) (net_put 1) "k" "mine" 5 (cl_net script).
Definition cl_show (r : option (net * Err)) : option (Err * option (string * Z)) :=
  '(w, e) ← r; Some (e, (λ x, (ke_Value x, ke_Version x)) <$> nt_groups w 1 "k").

Lemma clerk_answers_witness :
  ∃ w', cl_put [cl_turn [] 0 NoAnswer; cl_turn [] 0 Answered] = Some (w', OK) ∧
    concludes (cl_net [cl_turn [] 0 NoAnswer; cl_turn [] 0 Answered]) w' (definite OK) (put_reply 1 "k" "mine" 0 OK).
Proof.
  set (w := cl_net _). eexists. split; [vm_compute; reflexivity|].
  apply (proj2 (proj2 (clerk_answers (λ _, false) 1 "k" "mine" 5 0 w ltac:(by repeat constructor)))).
  vm_compute. reflexivity.
Defined.

(** The comment of [doPut] says that a Put whose first call is answered with
    ErrVersion was certainly not executed.  The router repeats a request whose
    answer is late at the next replica; the second execution meets the version
    the first one has written: Put returns ErrVersion and the value is stored. *)
Theorem errversion_though_executed :
  cl_show (cl_put [cl_turn [] 1 Answered]) = Some (ErrVersion, Some ("mine", 6)).
Proof. by vm_compute. Qed.

(** Put is documented to write only if the version matches.  After a call that
    was never executed, the version another client has produced in the meantime
    is read and used for the retry: the acknowledged write of the other client is
    overwritten and Put returns OK. *)
Theorem refresh_overwrites :
  let other := (1, ReqPut (put_args "k" "theirs" 5 0)) in
  cl_show (cl_put [cl_turn [] 0 NoAnswer; cl_turn [other] 0 Answered; cl_turn [] 0 Answered; cl_turn [] 0 Answered]) =
    Some (OK, Some ("mine", 7)).
Proof. by vm_compute. Qed.
