(* ===== verification/Migrator.v ===== *)
(** * pkg/sharding/migrator.go: moving data between groups

    The calls of the two routers and of the clients of single servers are records
    of operations that pass a state [W], the world outside.  A call of a router
    gives an error text or a response; a call of a server's client an error text
    or the text of the response's error field. *)
From stdpp Require Import prelude gmap sorting strings pretty.
From stdpp Require Import options.
From S2P Require Import Prelude KvApi Topology Pb Router.
Local Open Scope Z_scope.

Record MigrationPlanItem := {
  mp_Key : string; mp_Value : string; mp_Version : Z; mp_SourceGroup : Z; mp_TargetGroup : Z }.
Record MigrationStats := mkMigStats {
  ms_Planned : Z; ms_Migrated : Z; ms_Skipped : Z; ms_DeletedFromSrc : Z; ms_Failed : Z; ms_LastErrorMessage : string }.

(** The operations of a router on a group. *)
Record router_ops (W : Type) := {
  ro_get : Z → string → W → W * (string + GetResponse);
  ro_put : Z → string → string → Z → W → W * (string + PutResponse);
  ro_delete : Z → string → W → W * (string + DeleteResponse);
  ro_scan : Z → string → Z → W → W * (string + list KeyValue) }.
Arguments ro_get {W} _.
Arguments ro_put {W} _.
Arguments ro_delete {W} _.
Arguments ro_scan {W} _.

(** The operations of a connection to one server. *)
Record server_ops (W : Type) := {
  so_set : SetShardStateRequest → W → W * (string + string);
  so_states : W → W * (string + list ShardStateEntry);
  so_cleanup : Z → list CleanupShardKey → W → W * (string + CleanupShardResponse) }.
Arguments so_set {W} _.
Arguments so_states {W} _.
Arguments so_cleanup {W} _.

(** ** Planning *)

Definition plan_le (x y : MigrationPlanItem) : Prop :=
  (mp_SourceGroup x = mp_SourceGroup y ∧ String.le (mp_Key x) (mp_Key y)) ∨ mp_SourceGroup x < mp_SourceGroup y.
#[global] Instance plan_le_dec x y : Decision (plan_le x y).
Proof. unfold plan_le. apply _. Defined.
Definition sort_plan (plan : list MigrationPlanItem) : list MigrationPlanItem := merge_sort plan_le plan.

Inductive plan_result := PlanError (e : string) | PlanFull (plan : list MigrationPlanItem) | PlanMore (plan : list MigrationPlanItem).
Section plan.
Context {W : Type} (source : router_ops W) (resolve : string → Z) (prefix : string) (limit : Z).

(** The loop over the entries of one group. *)
Fixpoint plan_items (sourceGID : Z) (items : list KeyValue) (plan : list MigrationPlanItem) : plan_result :=
  match items with
  | [] => PlanMore plan
  | item :: items =>
      let targetGID := resolve (kv_key item) in
      if decide (targetGID < 0) then PlanError "target router has no group for key"
      else if decide (targetGID = sourceGID) then plan_items sourceGID items plan
      else
        let plan := plan ++ [{| mp_Key := kv_key item; mp_Value := kv_value item; mp_Version := kv_version item;
                                mp_SourceGroup := sourceGID; mp_TargetGroup := targetGID |}] in
        if decide (0 < limit ∧ limit ≤ Z.of_nat (length plan)) then PlanFull plan
        else plan_items sourceGID items plan
  end.
Fixpoint plan_groups (gids : list Z) (plan : list MigrationPlanItem) (w : W) : W * (string + list MigrationPlanItem) :=
  match gids with
  | [] => (w, inr (sort_plan plan))
  | gid :: gids =>
      let '(w, res) := ro_scan source gid prefix 0 w in
      match res with
      | inl e => (w, inl e)
      | inr items =>
          match plan_items gid items plan with
          | PlanError e => (w, inl e)
          | PlanFull plan => (w, inr (sort_plan plan))
          | PlanMore plan => plan_groups gids plan w
          end
      end
  end.
Definition BuildPlan (gids : list Z) (w : W) : W * (string + list MigrationPlanItem) := plan_groups gids [] w.
End plan.

(** ** Looking at responses *)

Definition migrationPutVersion (r : GetResponse) : Z :=
  if decide (GetResponse_error r = "ErrNoKey") then 0
  else if decide (GetResponse_error r = "OK") then GetResponse_version r else 0.
Definition migrationPutAccepted (r : PutResponse) : bool := bool_decide (PutResponse_error r = "OK").
Definition migrationDeleteAccepted (r : DeleteResponse) : bool :=
  bool_decide (DeleteResponse_error r = "OK" ∨ DeleteResponse_error r = "ErrNoKey").
Definition migrationGetAccepted (r : GetResponse) : bool :=
  bool_decide (GetResponse_error r = "OK" ∨ GetResponse_error r = "ErrNoKey").
Definition migrationValueEquals (r : GetResponse) (item : MigrationPlanItem) : bool :=
  bool_decide (GetResponse_error r = "OK") && bool_decide (GetResponse_value r = mp_Value item).

Section migrate.
Context {W : Type} (source target : router_ops W).

Definition fetchGroupValue (router : router_ops W) (gid : Z) (key : string) (w : W) : W * (string + GetResponse) :=
  let '(w, res) := ro_get router gid key w in
  match res with
  | inl e => (w, inl e)
  | inr resp => if migrationGetAccepted resp then (w, inr resp)
                else (w, inl ("unexpected get response: " +:+ GetResponse_error resp))
  end.

Definition rollbackTarget (item : MigrationPlanItem) (before : GetResponse) (w : W) : W * option string :=
  if decide (GetResponse_error before = "ErrNoKey") then
    let '(w, res) := ro_delete target (mp_TargetGroup item) (mp_Key item) w in
    match res with
    | inl e => (w, Some e)
    | inr resp => if migrationDeleteAccepted resp then (w, None)
                  else (w, Some ("rollback delete target failed: " +:+ DeleteResponse_error resp))
    end
  else
    let '(w, res) := fetchGroupValue target (mp_TargetGroup item) (mp_Key item) w in
    match res with
    | inl e => (w, Some e)
    | inr current =>
        if decide (GetResponse_error current ≠ "OK") then (w, Some ("rollback get current target failed: " +:+ GetResponse_error current))
        else
          let '(w, res) := ro_put target (mp_TargetGroup item) (mp_Key item) (GetResponse_value before) (GetResponse_version current) w in
          match res with
          | inl e => (w, Some e)
          | inr resp => if migrationPutAccepted resp then (w, None)
                        else (w, Some ("rollback restore target failed: " +:+ PutResponse_error resp))
          end
    end.

Definition deleteSourceWithVerify (item : MigrationPlanItem) (w : W) : W * option string :=
  let '(w, res) := fetchGroupValue source (mp_SourceGroup item) (mp_Key item) w in
  match res with
  | inl e => (w, Some e)
  | inr srcBefore =>
      if decide (GetResponse_error srcBefore ≠ "OK") then (w, Some "source key disappeared before delete")
      else if decide (GetResponse_value srcBefore ≠ mp_Value item) then (w, Some ("source value changed for key " +:+ mp_Key item))
      else
        let '(w, res) := ro_delete source (mp_SourceGroup item) (mp_Key item) w in
        match res with
        | inl e => (w, Some e)
        | inr delResp =>
            if negb (migrationDeleteAccepted delResp) then (w, Some ("delete source failed: " +:+ DeleteResponse_error delResp))
            else
              let '(w, res) := fetchGroupValue source (mp_SourceGroup item) (mp_Key item) w in
              match res with
              | inl e => (w, Some e)
              | inr srcAfter =>
                  if decide (GetResponse_error srcAfter ≠ "ErrNoKey") then (w, Some "source key still exists after delete") else (w, None)
              end
        end
  end.

(** ** [ExecutePlan] *)

Definition failed (msg : string) (s : MigrationStats) : MigrationStats :=
  mkMigStats (ms_Planned s) (ms_Migrated s) (ms_Skipped s) (ms_DeletedFromSrc s) (ms_Failed s + 1) msg.
Definition skipped (s : MigrationStats) : MigrationStats :=
  mkMigStats (ms_Planned s) (ms_Migrated s) (ms_Skipped s + 1) (ms_DeletedFromSrc s) (ms_Failed s) (ms_LastErrorMessage s).
Definition migrated (s : MigrationStats) : MigrationStats :=
  mkMigStats (ms_Planned s) (ms_Migrated s + 1) (ms_Skipped s) (ms_DeletedFromSrc s) (ms_Failed s) (ms_LastErrorMessage s).
Definition deleted (s : MigrationStats) : MigrationStats :=
  mkMigStats (ms_Planned s) (ms_Migrated s) (ms_Skipped s) (ms_DeletedFromSrc s + 1) (ms_Failed s) (ms_LastErrorMessage s).

(** The part of a round after the put was accepted. *)
Definition after_put (item : MigrationPlanItem) (deleteSource : bool) (targetBefore : GetResponse) (w : W) (s : MigrationStats)
    : W * MigrationStats :=
  let '(w, res) := fetchGroupValue target (mp_TargetGroup item) (mp_Key item) w in
  if match res with inl _ => true | inr targetAfter => negb (migrationValueEquals targetAfter item) end then
    let '(w, _) := rollbackTarget item targetBefore w in
    (w, failed (match res with inl e => e | inr _ => "target verify failed after put" end) s)
  else
    let s := migrated s in
    if negb deleteSource then (w, s)
    else
      let '(w, err) := deleteSourceWithVerify item w in
      match err with
      | Some err =>
          let '(w, rollbackErr) := rollbackTarget item targetBefore w in
          (w, failed (match rollbackErr with
                      | Some e => err +:+ "; rollback failed: " +:+ e
                      | None => err +:+ "; rollback applied"
                      end) s)
      | None => (w, deleted s)
      end.

(** One round of the loop. *)
Definition execute_item (deleteSource : bool) (item : MigrationPlanItem) (w : W) (s : MigrationStats) : W * MigrationStats :=
  let '(w, res) := fetchGroupValue source (mp_SourceGroup item) (mp_Key item) w in
  match res with
  | inl e => (w, failed e s)
  | inr sourceBefore =>
  if decide (GetResponse_error sourceBefore = "ErrNoKey") then (w, skipped s)
  else if decide (GetResponse_value sourceBefore ≠ mp_Value item) then (w, failed ("source value changed for key " +:+ mp_Key item +:+ ", plan stale") s)
  else
  let '(w, res) := fetchGroupValue target (mp_TargetGroup item) (mp_Key item) w in
  match res with
  | inl e => (w, failed e s)
  | inr targetBefore =>
  if migrationValueEquals targetBefore item then
    if deleteSource then
      let '(w, err) := deleteSourceWithVerify item w in
      match err with
      | Some e => (w, failed e s)
      | None => (w, migrated (deleted s))
      end
    else (w, skipped s)
  else
    let '(w, res) := ro_put target (mp_TargetGroup item) (mp_Key item) (mp_Value item) (migrationPutVersion targetBefore) w in
    match res with
    | inl e => (w, failed e s)
    | inr putResp =>
        if negb (migrationPutAccepted putResp) then (w, failed (PutResponse_error putResp) s)
        else after_put item deleteSource targetBefore w s
    end
  end
  end.

(** [cancelled] is [ctx.Err()]. *)
Fixpoint execute_items (cancelled : W → option string) (deleteSource : bool) (plan : list MigrationPlanItem) (w : W) (s : MigrationStats)
    : W * MigrationStats * option string :=
  match plan with
  | [] => (w, s, if decide (0 < ms_Failed s) then Some ("migration finished with " +:+ pretty (ms_Failed s) +:+ " failures") else None)
  | item :: plan =>
      match cancelled w with
      | Some e => (w, mkMigStats (ms_Planned s) (ms_Migrated s) (ms_Skipped s) (ms_DeletedFromSrc s) (ms_Failed s) e, Some e)
      | None => let '(w, s) := execute_item deleteSource item w s in execute_items cancelled deleteSource plan w s
      end
  end.
Definition ExecutePlan (cancelled : W → option string) (plan : list MigrationPlanItem) (deleteSource : bool) (w : W)
    : W * MigrationStats * option string :=
  execute_items cancelled deleteSource plan w (mkMigStats (Z.of_nat (length plan)) 0 0 0 0 "").
End migrate.

(** ** [MigrateShardOnline] *)

(** The address of the first replica that says it is the leader; [status] is the
    answer of a replica that could be dialled. *)
Fixpoint connectToKVService (status : string → option bool) (addrs : list string) : option string :=
  match addrs with
  | [] => None
  | addr :: addrs => if decide (status addr = Some true) then Some addr else connectToKVService status addrs
  end.
Definition shardKey (Sum64String : string → Z) (key : string) (numShards : Z) : Z := Sum64String key mod numShards.

Record onlineCopiedItem := { oc_item : MigrationPlanItem; oc_before : GetResponse }.
Record remoteShardState := { rs_state : ShardState; rs_targetGroup : Z }.

Section online.
Context {W : Type} (Sum64String : string → Z) (source target : router_ops W).

Definition setRemoteShardState (client : server_ops W) (req : SetShardStateRequest) (w : W) : W * option string :=
  let '(w, res) := so_set client req w in
  match res with
  | inl e => (w, Some e)
  | inr text => if decide (text ≠ "") then (w, Some ("set shard state: " +:+ text)) else (w, None)
  end.
Definition readRemoteShardState (client : server_ops W) (shardID : Z) (w : W) : W * (string + remoteShardState) :=
  let '(w, res) := so_states client w in
  match res with
  | inl e => (w, inl e)
  | inr entries =>
      match filter (λ entry, sse_shard_id entry = shardID) entries with
      | entry :: _ => (w, inr {| rs_state := sse_state entry; rs_targetGroup := sse_target_group entry |})
      | [] => (w, inl ("shard " +:+ pretty shardID +:+ " not found"))
      end
  end.
Definition restoreRemoteShardState (client : server_ops W) (shardID : Z) (original : remoteShardState) (epoch : Z) (w : W) : W * option string :=
  setRemoteShardState client {| ssr_shard_id := wrapS32 shardID; ssr_state := rs_state original; ssr_target_group := rs_targetGroup original;
                                ssr_topology_epoch := epoch; ssr_target_replicas := [] |} w.
Definition combineMigrationErrors (primary : string) (rollback : option string) : string :=
  match rollback with None => primary | Some e => primary +:+ "; rollback failed: " +:+ e end.

Definition first_err (a b : option string) : option string := match a with Some _ => a | None => b end.
(** The copies are rolled back last first. *)
Fixpoint rollback_copies (copied : list onlineCopiedItem) (err : option string) (w : W) : W * option string :=
  match copied with
  | [] => (w, err)
  | c :: copied => let '(w, e) := rollbackTarget target (oc_item c) (oc_before c) w in rollback_copies copied (first_err err e) w
  end.
Definition rollbackOnlineMigration (src tgt : server_ops W) (srcEpoch tgtEpoch shardID : Z) (sourceOriginal targetOriginal : remoteShardState)
    (phase1Done phase2Done : bool) (copied : list onlineCopiedItem) (w : W) : W * option string :=
  let '(w, err) := rollback_copies (reverse copied) None w in
  let '(w, err) := if phase2Done then let '(w, e) := restoreRemoteShardState src shardID sourceOriginal (wrapS64 (srcEpoch + 1)) w in (w, first_err err e)
                   else (w, err) in
  if phase1Done then let '(w, e) := restoreRemoteShardState tgt shardID targetOriginal (wrapS64 (tgtEpoch + 1)) w in (w, first_err err e)
  else (w, err).

(** Whether the migration of a shard concerns the key. *)
Definition concerns (numShards shardID : Z) (prefix key : string) : bool :=
  bool_decide (shardKey Sum64String key numShards = shardID) && (bool_decide (prefix = "") || has_prefix prefix key).

(** One entry of [bulkCopyShard]: nothing to do, copied, or an error. *)
Definition copy_item (sourceGID targetGID : Z) (item : KeyValue) (w : W) : W * (string + option onlineCopiedItem) :=
  let key := kv_key item in
  let sourceItem := {| mp_Key := key; mp_Value := kv_value item; mp_Version := kv_version item;
                       mp_SourceGroup := sourceGID; mp_TargetGroup := targetGID |} in
  let '(w, res) := fetchGroupValue source sourceGID key w in
  match res with
  | inl e => (w, inl e)
  | inr sourceBefore =>
  if decide (GetResponse_error sourceBefore ≠ "OK" ∨ GetResponse_value sourceBefore ≠ kv_value item)
  then (w, inl ("source value changed for key " +:+ key))
  else
  let '(w, res) := fetchGroupValue target targetGID key w in
  match res with
  | inl e => (w, inl e)
  | inr targetBefore =>
  if migrationValueEquals targetBefore sourceItem then (w, inr None)
  else
  let '(w, res) := ro_put target targetGID key (kv_value item) (migrationPutVersion targetBefore) w in
  match res with
  | inl e => (w, inl ("put to target failed key=" +:+ key +:+ ": " +:+ e))
  | inr resp =>
  if negb (migrationPutAccepted resp) then (w, inl ("put to target failed key=" +:+ key +:+ ": " +:+ PutResponse_error resp))
  else
  let '(w, res) := fetchGroupValue target targetGID key w in
  match res with
  | inl e => (w, inl e)
  | inr after => if migrationValueEquals after sourceItem then (w, inr (Some {| oc_item := sourceItem; oc_before := targetBefore |}))
                 else (w, inl ("target verify failed for key " +:+ key))
  end end end end.
Fixpoint copy_items (numShards shardID sourceGID targetGID : Z) (prefix : string) (items : list KeyValue) (copied : list onlineCopiedItem) (w : W)
    : W * list onlineCopiedItem * option string :=
  match items with
  | [] => (w, copied, None)
  | item :: items =>
      if negb (concerns numShards shardID prefix (kv_key item)) then copy_items numShards shardID sourceGID targetGID prefix items copied w
      else
        let '(w, res) := copy_item sourceGID targetGID item w in
        match res with
        | inl e => (w, copied, Some e)
        | inr None => copy_items numShards shardID sourceGID targetGID prefix items copied w
        | inr (Some c) => copy_items numShards shardID sourceGID targetGID prefix items (copied ++ [c]) w
        end
  end.
Definition bulkCopyShard (numShards shardID sourceGID targetGID : Z) (prefix : string) (w : W) : W * list onlineCopiedItem * option string :=
  let '(w, res) := ro_scan source sourceGID "" 0 w in
  match res with
  | inl e => (w, [], Some ("scan source failed: " +:+ e))
  | inr items => copy_items numShards shardID sourceGID targetGID prefix items [] w
  end.

Definition cleanShardData (src : server_ops W) (numShards shardID sourceGID : Z) (prefix : string) (w : W) : W * option string :=
  let '(w, res) := ro_scan source sourceGID "" 0 w in
  match res with
  | inl e => (w, Some e)
  | inr items =>
      let keys := (λ item, {| CleanupShardKey_Key := kv_key item; CleanupShardKey_ExpectedVersion := kv_version item |}) <$>
                  filter (λ item, concerns numShards shardID prefix (kv_key item) = true) items in
      if decide (keys = []) then (w, None)
      else
        let '(w, res) := so_cleanup src (wrapS32 shardID) keys w in
        match res with
        | inl e => (w, Some e)
        | inr resp => if decide (CleanupShardResponse_error resp ≠ "OK")
                      then (w, Some ("cleanup source shard failed: " +:+ CleanupShardResponse_error resp)) else (w, None)
        end
  end.
Definition containsGroupID (groupIDs : list Z) (wanted : Z) : bool := bool_decide (wanted ∈ groupIDs).

Definition set_request (shardID : Z) (state : ShardState) (targetGroup epoch : Z) (replicas : list string) : SetShardStateRequest :=
  {| ssr_shard_id := wrapS32 shardID; ssr_state := state; ssr_target_group := wrapS32 targetGroup; ssr_topology_epoch := epoch;
     ssr_target_replicas := replicas |}.

(** Phases 3 to 6, once the double writes have begun. *)
Definition migrate_copy (src tgt : server_ops W) (r : ShardRouter) (tgtEpoch shardID sourceGID targetGID : Z) (targetReplicas : list string)
    (prefix : string) (sourceOriginal targetOriginal : remoteShardState) (nextEpoch : Z) (w : W) : W * ShardRouter * option string :=
  let undo primary copied w :=
    let '(w, e) := rollbackOnlineMigration src tgt (TopologyEpoch r) tgtEpoch shardID sourceOriginal targetOriginal true true copied w in
    (w, r, Some (combineMigrationErrors primary e)) in
  let '(w, copied, err) := bulkCopyShard (TopologyNumShards r) shardID sourceGID targetGID prefix w in
  match err with
  | Some e => undo ("phase 3 bulk copy failed: " +:+ e) copied w
  | None =>
  let '(w, err) := setRemoteShardState tgt (set_request shardID OWNED 0 nextEpoch []) w in
  match err with
  | Some e => undo ("phase 4 target.OWNED failed: " +:+ e) copied w
  | None =>
  let nextEpoch := wrapS64 (nextEpoch + 1) in
  let '(w, err) := setRemoteShardState src (set_request shardID ABSENT targetGID nextEpoch targetReplicas) w in
  match err with
  | Some e => undo ("phase 5 source.ABSENT failed: " +:+ e) copied w
  | None =>
  let '(w, err) := cleanShardData src (TopologyNumShards r) shardID sourceGID prefix w in
  match err with
  | Some e => (w, r, Some ("phase 6 clean source data failed: " +:+ e))
  | None =>
      if containsGroupID (router_GroupIDs r) targetGID then
        match rt_topology r with
        | Some st =>
            let '(st, ok) := MoveShard st shardID targetGID in
            (w, with_topology (Some st) r,
             if ok : bool then None else Some ("update source topology ownership failed for shard " +:+ pretty shardID))
        | None => (w, r, None)
        end
      else (w, r, None)
  end end end end.

(** [src] and [tgt] are the connections, an error text when there is no leader;
    [r] is the source router. *)
Definition MigrateShardOnline (src tgt : string + server_ops W) (r : ShardRouter) (tgtEpoch : Z) (shardID sourceGID targetGID : Z)
    (targetReplicas : list string) (prefix : string) (w : W) : W * ShardRouter * option string :=
  match src with
  | inl e => (w, r, Some ("connect to source group " +:+ pretty sourceGID +:+ ": " +:+ e))
  | inr src =>
  match tgt with
  | inl e => (w, r, Some ("connect to target group " +:+ pretty targetGID +:+ ": " +:+ e))
  | inr tgt =>
  let '(w, res) := readRemoteShardState src shardID w in
  match res with
  | inl e => (w, r, Some ("read source shard state: " +:+ e))
  | inr sourceOriginal =>
  let '(w, res) := readRemoteShardState tgt shardID w in
  match res with
  | inl e => (w, r, Some ("read target shard state: " +:+ e))
  | inr targetOriginal =>
  let nextEpoch := wrapS64 (TopologyEpoch r + 1) in
  let '(w, err) := setRemoteShardState tgt (set_request shardID IMPORTING sourceGID nextEpoch []) w in
  match err with
  | Some e => (w, r, Some ("phase 1 target.IMPORTING failed: " +:+ e))
  | None =>
  let nextEpoch := wrapS64 (nextEpoch + 1) in
  let '(w, err) := setRemoteShardState src (set_request shardID MIGRATING targetGID nextEpoch targetReplicas) w in
  match err with
  | Some e =>
      let '(w, _) := restoreRemoteShardState tgt shardID targetOriginal (wrapS64 (nextEpoch + 1)) w in
      (w, r, Some ("phase 2 source.MIGRATING failed: " +:+ e))
  | None =>
      migrate_copy src tgt r tgtEpoch shardID sourceGID targetGID targetReplicas prefix sourceOriginal targetOriginal
        (wrapS64 (nextEpoch + 1)) w
  end end end end end end.
End online.
