(* ===== verification/MigratorProps.v ===== *)
(** * What a migration does to the data

    The calls of the migrator are seen through an interface: a router whose calls
    may fail or be executed without an answer, but whose accepted answers tell the
    truth about the keys that nobody else writes.  The theorems about
    [BuildPlan] and [ExecutePlan] are proved against it; [MigratorNet] shows that the
    groups of [Net] satisfy it. *)
From stdpp Require Import prelude gmap sorting strings pretty.
From stdpp Require Import options.
From S2P Require Import Prelude KvApi Topology Pb Router Migrator.
Local Open Scope Z_scope.

Lemma filter_agree {A} (P Q : A → Prop) `{!∀ x, Decision (P x)} `{!∀ x, Decision (Q x)} (l : list A) :
  (∀ x, x ∈ l → P x ↔ Q x) → filter P l = filter Q l.
Proof.
  induction l as [|x l IH]; intros Hl; [done|]. rewrite !filter_cons, IH by (intros; apply Hl; by right).
  pose proof (Hl x ltac:(by left)). destruct (decide (P x)), (decide (Q x)); naive_solver.
Qed.

Lemma filter_False {A} (l : list A) : filter (λ _, False) l = [].
Proof. induction l; [done|]. by rewrite filter_cons, decide_False by tauto. Qed.

(** ** The interface *)

Section interface.
Context {W : Type}.
(** The worlds considered, the value and version that a group holds for a key,
    and the keys nobody but the migrator writes. *)
Variables (ok : W → Prop) (entry : W → Z → string → option (string * Z)) (keys : string → Prop).

Definition same (w w' : W) : Prop := ∀ g k, keys k → entry w' g k = entry w g k.
(** Only key [k] of group [g] may have changed, and then as [P] says. *)
Definition changes (g : Z) (k : string) (w w' : W) (P : option (string * Z) → Prop) : Prop :=
  (∀ g' k', keys k' → (g', k') ≠ (g, k) → entry w' g' k' = entry w g' k') ∧ (entry w' g k = entry w g k ∨ P (entry w' g k)).
Definition holds (v : string) (e : option (string * Z)) : Prop := fst <$> e = Some v.

Record lawful_router (R : router_ops W) : Prop := {
  lr_get g k w w' r : ro_get R g k w = (w', r) → ok w → keys k → ok w' ∧ same w w' ∧
    match r with
    | inl _ => True
    | inr resp => (GetResponse_error resp = "OK" → entry w g k = Some (GetResponse_value resp, GetResponse_version resp)) ∧
                  (GetResponse_error resp = "ErrNoKey" → entry w g k = None)
    end;
  lr_put g k v ver w w' r : ro_put R g k v ver w = (w', r) → ok w → keys k → ok w' ∧ changes g k w w' (holds v) ∧
    match r with inl _ => True | inr resp => PutResponse_error resp = "OK" → holds v (entry w' g k) end;
  lr_delete g k w w' r : ro_delete R g k w = (w', r) → ok w → keys k → ok w' ∧ changes g k w w' (.= None) ∧
    match r with
    | inl _ => True
    | inr resp => DeleteResponse_error resp = "OK" ∨ DeleteResponse_error resp = "ErrNoKey" → entry w' g k = None
    end;
  lr_scan g prefix w w' r : ro_scan R g prefix 0 w = (w', r) → ok w → ok w' ∧ same w w' ∧
    match r with
    | inl _ => True
    | inr items => NoDup (kv_key <$> items) ∧ ∀ k, keys k → has_prefix prefix k = true →
        ∀ v n, entry w g k = Some (v, n) ↔ ∃ x, x ∈ items ∧ kv_key x = k ∧ kv_value x = v ∧ kv_version x = n
    end }.
End interface.

(** ** One item of a plan *)

Lemma holds_eq v e : holds v e ↔ ∃ n, e = Some (v, n).
Proof. unfold holds. destruct e as [[u n]|]; cbn; naive_solver. Qed.

Section execute.
Context {W : Type} (ok : W → Prop) (entry : W → Z → string → option (string * Z)) (keys : string → Prop).
Variables (source target : router_ops W).
Context (Hsource : lawful_router ok entry keys source) (Htarget : lawful_router ok entry keys target).
Local Abbreviation same := (same entry keys).
Local Abbreviation changes := (changes entry keys).

Lemma same_refl w : same w w.
Proof. by intros g k _. Qed.
Lemma same_trans w1 w2 w3 : same w1 w2 → same w2 w3 → same w1 w3.
Proof. intros H1 H2 g k Hk. by rewrite (H2 g k Hk), (H1 g k Hk). Qed.

(** An accepted read. *)
Lemma fetch_spec R g k w w' r : lawful_router ok entry keys R → fetchGroupValue R g k w = (w', r) → ok w → keys k → ok w' ∧ same w w' ∧
  match r with
  | inl _ => True
  | inr resp => (GetResponse_error resp = "OK" ∧ entry w g k = Some (GetResponse_value resp, GetResponse_version resp)) ∨
                (GetResponse_error resp = "ErrNoKey" ∧ entry w g k = None)
  end.
Proof.
  intros HR. unfold fetchGroupValue. destruct (ro_get R g k w) as [w1 res] eqn:E. intros H Hok Hk.
  destruct (lr_get _ _ _ _ HR _ _ _ _ _ E Hok Hk) as (Hok1 & Hs & Hr). destruct res as [e|resp]; [by injection H as <- <-|].
  destruct Hr as [H1 H2]. destruct (migrationGetAccepted resp) eqn:Ha; injection H as <- <-; [|done]. split; [done|]. split; [done|].
  unfold migrationGetAccepted in Ha. apply bool_decide_eq_true in Ha as [Ha|Ha]; auto.
Qed.

(** What the target was before the item is told by an accepted read. *)
Definition was (w : W) (item : MigrationPlanItem) (before : GetResponse) : Prop :=
  (GetResponse_error before = "OK" ∧ holds (GetResponse_value before) (entry w (mp_TargetGroup item) (mp_Key item))) ∨
  (GetResponse_error before = "ErrNoKey" ∧ entry w (mp_TargetGroup item) (mp_Key item) = None).
(** The values (not the versions) of the item at the target and the source. *)
Definition tgt (w : W) (item : MigrationPlanItem) : option string := fst <$> entry w (mp_TargetGroup item) (mp_Key item).
Definition src (w : W) (item : MigrationPlanItem) : option string := fst <$> entry w (mp_SourceGroup item) (mp_Key item).
(** Nothing else changes. *)
Definition frame (item : MigrationPlanItem) (w w' : W) : Prop :=
  ∀ g k, keys k → (k = mp_Key item → g ≠ mp_SourceGroup item ∧ g ≠ mp_TargetGroup item) → entry w' g k = entry w g k.

Lemma frame_trans item w1 w2 w3 : frame item w1 w2 → frame item w2 w3 → frame item w1 w3.
Proof. intros H1 H2 g k Hk Hn. by rewrite (H2 g k Hk Hn), (H1 g k Hk Hn). Qed.
Lemma same_frame item w w' : same w w' → frame item w w'.
Proof. intros H g k Hk _. by apply H. Qed.
Lemma changes_frame item g w w' P : g = mp_SourceGroup item ∨ g = mp_TargetGroup item → changes g (mp_Key item) w w' P → frame item w w'.
Proof. intros Hg [H _] g' k Hk Hn. apply H; [done|]. intros [= -> ->]. destruct (Hn eq_refl). naive_solver. Qed.
Lemma same_src item w w' : same w w' → keys (mp_Key item) → src w' item = src w item.
Proof. intros H Hk. unfold src. by rewrite H. Qed.
Lemma same_tgt item w w' : same w w' → keys (mp_Key item) → tgt w' item = tgt w item.
Proof. intros H Hk. unfold tgt. by rewrite H. Qed.

(** Rolling back only concerns the target, which stays as it is or becomes what
    [before] says. *)
Definition restored (before : GetResponse) (e : option (string * Z)) : Prop :=
  (GetResponse_error before = "ErrNoKey" ∧ e = None) ∨ (GetResponse_error before ≠ "ErrNoKey" ∧ holds (GetResponse_value before) e).
Lemma same_changes g k w w' w'' P : keys k → same w w' → changes g k w' w'' P → changes g k w w'' P.
Proof. intros Hk Hs [H1 H2]. split; [intros g' k' Hk' Hne; by rewrite H1, Hs|]. by rewrite <-(Hs g k Hk). Qed.
Lemma changes_same g k w w' w'' (P : option (string * Z) → Prop) : keys k → changes g k w w' P → same w' w'' → changes g k w w'' P.
Proof. intros Hk [H1 H2] Hs. split; [intros g' k' Hk' Hne; by rewrite Hs, H1|]. by rewrite (Hs g k Hk). Qed.
Lemma rollback_changes item before w w' e : rollbackTarget target item before w = (w', e) → ok w → keys (mp_Key item) →
  ok w' ∧ changes (mp_TargetGroup item) (mp_Key item) w w' (restored before).
Proof using Htarget.
  intros H Hok Hk. unfold rollbackTarget in H. destruct (decide (GetResponse_error before = "ErrNoKey")) as [Hb|Hb].
  - destruct (ro_delete target _ _ w) as [w1 res] eqn:E. destruct (lr_delete _ _ _ _ Htarget _ _ _ _ _ E Hok Hk) as (Hok1 & Hch & _).
    assert (w' = w1) as -> by (destruct res as [|resp]; [|destruct (migrationDeleteAccepted resp)]; by injection H).
    split; [done|]. destruct Hch as [Hch Hch']. split; [done|]. destruct Hch'; [by left|right; by left].
  - destruct (fetchGroupValue target _ _ w) as [w1 res] eqn:E. destruct (fetch_spec _ _ _ _ _ _ Htarget E Hok Hk) as (Hok1 & Hs & _).
    assert (∀ w2, w2 = w1 → ok w2 ∧ changes (mp_TargetGroup item) (mp_Key item) w w2 (restored before)) as Hstop.
    { intros w2 ->. split; [done|]. split; [intros; by apply Hs|left; by apply Hs]. }
    destruct res as [|current]; [injection H as <- _; by apply Hstop|]. case_decide; [injection H as <- _; by apply Hstop|].
    destruct (ro_put target _ _ _ _ w1) as [w2 res] eqn:E2. destruct (lr_put _ _ _ _ Htarget _ _ _ _ _ _ _ E2 Hok1 Hk) as (Hok2 & Hch & _).
    assert (w' = w2) as -> by (destruct res as [|resp]; [|destruct (migrationPutAccepted resp)]; by injection H).
    split; [done|]. eapply same_changes; [done..|]. destruct Hch as [Hch Hch']. split; [done|]. destruct Hch'; [by left|right; by right].
Qed.
Lemma restored_was w0 item before e : was w0 item before → restored before e → fst <$> e = tgt w0 item.
Proof.
  unfold tgt. intros [[H1 H2]|[H1 H2]] [[H3 H4]|[H3 H4]]; [by rewrite H1 in H3| | |done]; [|by rewrite H4, H2].
  unfold holds in *. by rewrite H4, H2.
Qed.
Lemma rollback_spec item before w0 w w' e : rollbackTarget target item before w = (w', e) → ok w → keys (mp_Key item) →
  mp_SourceGroup item ≠ mp_TargetGroup item → was w0 item before →
  ok w' ∧ frame item w w' ∧ src w' item = src w item ∧ (tgt w' item = tgt w item ∨ tgt w' item = tgt w0 item).
Proof using Htarget.
  intros H Hok Hk Hne Hwas. destruct (rollback_changes _ _ _ _ _ H Hok Hk) as [Hok' Hch].
  split_and!; [done|by eapply changes_frame; [right|]| |].
  - unfold src. rewrite (proj1 Hch); [done|done|]. by intros [= ?].
  - destruct (proj2 Hch) as [He|Hr]; [left; unfold tgt; by rewrite He|right; by eapply restored_was].
Qed.

(** Deleting at the source: the key is gone or kept, it is gone when there is no
    error, and it only goes if it held the value. *)
Lemma delete_source_spec item w w' e : deleteSourceWithVerify source item w = (w', e) → ok w → keys (mp_Key item) →
  mp_SourceGroup item ≠ mp_TargetGroup item →
  ok w' ∧ frame item w w' ∧ tgt w' item = tgt w item ∧
  (src w' item = src w item ∨ (src w item = Some (mp_Value item) ∧ src w' item = None)) ∧
  (e = None → src w item = Some (mp_Value item) ∧ src w' item = None).
Proof using Hsource.
  intros H Hok Hk Hne. unfold deleteSourceWithVerify in H.
  destruct (fetchGroupValue source _ _ w) as [w1 res] eqn:E. destruct (fetch_spec _ _ _ _ _ _ Hsource E Hok Hk) as (Hok1 & Hs & Hr).
  assert (∀ err, (w1, Some err) = (w', e) → ok w' ∧ frame item w w' ∧ tgt w' item = tgt w item ∧
    (src w' item = src w item ∨ (src w item = Some (mp_Value item) ∧ src w' item = None)) ∧
    (e = None → src w item = Some (mp_Value item) ∧ src w' item = None)) as Hstop.
  { intros err [= <- <-]. split_and!; [done|by apply same_frame|by apply same_tgt|left; by apply same_src|done..]. }
  destruct res as [err|before]; [by eapply Hstop|]. case_decide as Hb; [by eapply Hstop|].
  destruct Hr as [[_ Hr]|[Hb' _]]; [|by rewrite Hb' in Hb]. case_decide as Hv; [by eapply Hstop|].
  assert (src w item = Some (mp_Value item)) as Hsrc by (unfold src; by rewrite Hr, <-Hv).
  clear Hstop. destruct (ro_delete source _ _ w1) as [w2 res] eqn:E2. destruct (lr_delete _ _ _ _ Hsource _ _ _ _ _ E2 Hok1 Hk) as (Hok2 & Hch & Hd).
  assert (frame item w w2) as Hf2 by (eapply frame_trans; [by apply same_frame|by eapply changes_frame; [left|]]).
  assert (tgt w2 item = tgt w item) as Ht2 by (unfold tgt; rewrite (proj1 Hch); [by rewrite Hs|done|intros [= ?]; by apply Hne]).
  assert (src w2 item = src w item ∨ src w2 item = None) as Hs2.
  { unfold src. destruct (proj2 Hch) as [-> | ->]; [rewrite Hs by done|]; auto. }
  assert (∀ err w2', ok w2' → same w2 w2' → (w2', Some err) = (w', e) → ok w' ∧ frame item w w' ∧ tgt w' item = tgt w item ∧
    (src w' item = src w item ∨ (src w item = Some (mp_Value item) ∧ src w' item = None)) ∧
    (e = None → src w item = Some (mp_Value item) ∧ src w' item = None)) as Hstop.
  { intros err w2' Hok' Hs' [= <- <-]. rewrite !(same_src item w2 w2'), (same_tgt item w2 w2') by done.
    split_and!; [done|eapply frame_trans; [done|by apply same_frame]|done|destruct Hs2; auto|done..]. }
  destruct res as [err|resp]; [by eapply (Hstop _ w2); [|apply same_refl|]|].
  destruct (migrationDeleteAccepted resp) eqn:Ha; cbn [negb] in H; [|by eapply (Hstop _ w2); [|apply same_refl|]].
  destruct (fetchGroupValue source _ _ w2) as [w3 res] eqn:E3. destruct (fetch_spec _ _ _ _ _ _ Hsource E3 Hok2 Hk) as (Hok3 & Hs3 & Hr3).
  destruct res as [err|after]; [by eapply (Hstop _ w3)|]. case_decide; [by eapply (Hstop _ w3)|]. injection H as <- <-.
  assert (src w3 item = None) as Hnone.
  { rewrite (same_src item w2 w3) by done. unfold src. rewrite Hd; [done|]. unfold migrationDeleteAccepted in Ha. by apply bool_decide_eq_true in Ha. }
  split_and!; [done|eapply frame_trans; [done|by apply same_frame]|by rewrite (same_tgt item w2 w3)|by right|done].
Qed.

(** What one round does: the source keeps the key unless it held the planned value
    and is to be deleted; the target keeps its value or gets the planned one, which
    the source then held; and a round that is not counted as failed has nothing to
    move or has moved it. *)
Record item_result (deleteSource : bool) (item : MigrationPlanItem) (w w' : W) (s s' : MigrationStats) : Prop := {
  ir_ok : ok w';
  ir_frame : frame item w w';
  ir_src : src w' item = src w item ∨ (deleteSource = true ∧ src w item = Some (mp_Value item) ∧ src w' item = None);
  ir_tgt : tgt w' item = tgt w item ∨ (src w item = Some (mp_Value item) ∧ tgt w' item = Some (mp_Value item));
  ir_count : (ms_Failed s' = ms_Failed s + 1) ∨
    (ms_Failed s' = ms_Failed s ∧
     (src w item = None ∨ (src w item = Some (mp_Value item) ∧ tgt w' item = Some (mp_Value item) ∧ (deleteSource = true → src w' item = None)))) }.

Lemma untouched ds item w w' s msg : ok w' → same w w' → keys (mp_Key item) → item_result ds item w w' s (failed msg s).
Proof.
  intros Hok Hs Hk. split; [done|by apply same_frame|left; by apply same_src|left; by apply same_tgt|by left].
Qed.
(** The item's failure after a rollback. *)
Lemma rolled_back ds item before w0 w w' s msg e : rollbackTarget target item before w = (w', e) → ok w → keys (mp_Key item) →
  mp_SourceGroup item ≠ mp_TargetGroup item → was w0 item before →
  frame item w0 w → src w0 item = Some (mp_Value item) → tgt w item = Some (mp_Value item) →
  src w item = src w0 item ∨ (ds = true ∧ src w item = None) →
  item_result ds item w0 w' s (failed msg s).
Proof using Htarget.
  intros H Hok Hk Hne Hwas Hf Hsrc Htgt Hs. destruct (rollback_spec _ _ _ _ _ _ H Hok Hk Hne Hwas) as (Hok' & Hf' & Hs' & Ht').
  split; [done|by eapply frame_trans| | |by left].
  - rewrite Hs'. destruct Hs as [->|[-> ->]]; auto.
  - rewrite Htgt in Ht'. destruct Ht'; auto.
Qed.

Lemma after_put_spec ds item before w0 w w' s s' : after_put source target item ds before w s = (w', s') → ok w → keys (mp_Key item) →
  mp_SourceGroup item ≠ mp_TargetGroup item → was w0 item before →
  frame item w0 w → src w0 item = Some (mp_Value item) → src w item = src w0 item → tgt w item = Some (mp_Value item) →
  item_result ds item w0 w' s s'.
Proof using Hsource Htarget.
  intros H Hok Hk Hne Hwas Hf Hsrc Hs Ht. unfold after_put in H.
  destruct (fetchGroupValue target _ _ w) as [w1 res] eqn:E. destruct (fetch_spec _ _ _ _ _ _ Htarget E Hok Hk) as (Hok1 & Hs1 & _).
  assert (frame item w0 w1) as Hf1 by (eapply frame_trans; [done|by apply same_frame]).
  assert (src w1 item = src w0 item) as Hsrc1 by (by rewrite (same_src item w w1)).
  assert (tgt w1 item = Some (mp_Value item)) as Ht1 by (by rewrite (same_tgt item w w1)).
  destruct (match res with inl _ => true | inr a => _ end).
  { destruct (rollbackTarget _ _ _ w1) as [w2 e] eqn:E2. injection H as <- <-. eapply rolled_back; eauto. }
  destruct ds; cbn [negb] in H.
  - destruct (deleteSourceWithVerify source item w1) as [w2 e] eqn:E2.
    destruct (delete_source_spec _ _ _ _ E2 Hok1 Hk Hne) as (Hok2 & Hf2 & Ht2 & Hs2 & Hdone).
    assert (frame item w0 w2) as Hf02 by (by eapply frame_trans). destruct e as [err|].
    + destruct (rollbackTarget _ _ _ w2) as [w3 e] eqn:E3. injection H as <- <-.
      assert (item_result true item w0 w3 (migrated s) (failed (match e with Some e => err +:+ "; rollback failed: " +:+ e | None => err +:+ "; rollback applied" end) (migrated s))) as [].
      { eapply rolled_back; eauto; [by rewrite Ht2|]. rewrite Hsrc1 in Hs2. destruct Hs2 as [?|[_ ?]]; auto. }
      by split.
    + injection H as <- <-. destruct (Hdone eq_refl) as [_ Hnone].
      split; [done|done|right; done|right; by rewrite Ht2|right; split; [done|right; split_and!; [done|by rewrite Ht2|done]]].
  - injection H as <- <-. split; [done|done|by left|by right|right; split; [done|right; done]].
Qed.

Lemma execute_item_spec ds item w w' s s' : execute_item source target ds item w s = (w', s') → ok w → keys (mp_Key item) →
  mp_SourceGroup item ≠ mp_TargetGroup item → item_result ds item w w' s s'.
Proof using Hsource Htarget.
  intros H Hok Hk Hne. unfold execute_item in H.
  destruct (fetchGroupValue source _ _ w) as [w1 res] eqn:E. destruct (fetch_spec _ _ _ _ _ _ Hsource E Hok Hk) as (Hok1 & Hs1 & Hr).
  destruct res as [e|before]; [injection H as <- <-; by apply untouched|].
  destruct Hr as [[He Hr]|[He Hr]]; rewrite He in H.
  2:{ rewrite decide_True in H by done. injection H as <- <-. split; [done|by apply same_frame|left; by apply same_src|left; by apply same_tgt|right].
      split; [done|]. left. unfold src. by rewrite Hr. }
  rewrite decide_False in H by done. case_decide as Hv; [injection H as <- <-; by apply untouched|].
  assert (src w item = Some (mp_Value item)) as Hsrc by (unfold src; by rewrite Hr, <-Hv).
  destruct (fetchGroupValue target _ _ w1) as [w2 res] eqn:E2. destruct (fetch_spec _ _ _ _ _ _ Htarget E2 Hok1 Hk) as (Hok2 & Hs2 & Hr2).
  assert (same w w2) as Hs by (by eapply same_trans).
  destruct res as [e|tb]; [injection H as <- <-; by apply untouched|].
  assert (was w item tb) as Hwas.
  { destruct Hr2 as [[? Hr2]|[? Hr2]]; rewrite Hs1 in Hr2 by done; [left; split; [done|]; by rewrite Hr2|by right]. }
  destruct (migrationValueEquals tb item) eqn:Heq.
  - assert (tgt w2 item = Some (mp_Value item)) as Ht2.
    { rewrite (same_tgt item w w2) by done. unfold migrationValueEquals in Heq. apply andb_true_iff in Heq as [H1 H2].
      apply bool_decide_eq_true in H1, H2. destruct Hwas as [[_ Hw]|[Hw _]]; [|by rewrite Hw in H1]. unfold tgt. by rewrite Hw, H2. }
    destruct ds.
    + destruct (deleteSourceWithVerify source item w2) as [w3 e] eqn:E3.
      destruct (delete_source_spec _ _ _ _ E3 Hok2 Hk Hne) as (Hok3 & Hf3 & Ht3 & Hs3 & Hdone).
      rewrite (same_src item w w2) in Hs3, Hdone by done.
      assert (frame item w w3) by (eapply frame_trans; [by apply same_frame|done]).
      assert (tgt w3 item = tgt w item) by (by rewrite Ht3, (same_tgt item w w2)).
      destruct e; injection H as <- <-; (split; [done|done|naive_solver|by left|]); [by left|right; cbn; split; [done|right]].
      split_and!; [done|by rewrite Ht3|naive_solver].
    + injection H as <- <-. split; [done|by apply same_frame|left; by apply same_src|left; by apply same_tgt|right; split; [done|by right]].
  - destruct (ro_put target _ _ _ _ w2) as [w3 res] eqn:E3. destruct (lr_put _ _ _ _ Htarget _ _ _ _ _ _ _ E3 Hok2 Hk) as (Hok3 & Hch & Hput).
    assert (frame item w w3) as Hf3 by (eapply frame_trans; [by apply same_frame|by eapply changes_frame; [right|]]).
    assert (src w3 item = src w item) as Hs3.
    { unfold src. rewrite (proj1 Hch); [by rewrite Hs|done|]. by intros [= ?]. }
    assert (∀ msg, item_result ds item w w3 s (failed msg s)) as Hstop.
    { intros msg. split; [done|done|by left| |by left]. unfold tgt. destruct (proj2 Hch) as [-> |Hh]; [left; by rewrite Hs|right; done]. }
    destruct res as [e|resp]; [injection H as <- <-; apply Hstop|].
    destruct (migrationPutAccepted resp) eqn:Ha; cbn [negb] in H; [|injection H as <- <-; apply Hstop].
    eapply after_put_spec; eauto. apply Hput. unfold migrationPutAccepted in Ha. by apply bool_decide_eq_true in Ha.
Qed.

(** ** The plan *)

Variable cancelled : W → option string.

(** The value the plan wanted to move is neither at the source nor at the target. *)
Definition lost (w w' : W) (item : MigrationPlanItem) : Prop :=
  src w item = Some (mp_Value item) ∧ src w' item ≠ Some (mp_Value item) ∧ tgt w' item ≠ Some (mp_Value item).
#[local] Instance lost_dec w w' item : Decision (lost w w' item).
Proof. unfold lost. apply _. Defined.
Definition movable (item : MigrationPlanItem) : Prop := keys (mp_Key item) ∧ mp_SourceGroup item ≠ mp_TargetGroup item.
(** The effects an item can have, and what it means that it is dealt with. *)
Definition item_effect (deleteSource : bool) (w w' : W) (item : MigrationPlanItem) : Prop :=
  (src w' item = src w item ∨ (deleteSource = true ∧ src w item = Some (mp_Value item) ∧ src w' item = None)) ∧
  (tgt w' item = tgt w item ∨ (src w item = Some (mp_Value item) ∧ tgt w' item = Some (mp_Value item))).
Definition item_done (deleteSource : bool) (w w' : W) (item : MigrationPlanItem) : Prop :=
  src w item = None ∨
  (src w item = Some (mp_Value item) ∧ tgt w' item = Some (mp_Value item) ∧ (deleteSource = true → src w' item = None)).
(** Keys outside the plan. *)
Definition outside (plan : list MigrationPlanItem) (w w' : W) : Prop :=
  ∀ g k, keys k → k ∉ mp_Key <$> plan → entry w' g k = entry w g k.

Lemma item_moved item w1 w2 : (∀ g, entry w2 g (mp_Key item) = entry w1 g (mp_Key item)) → src w2 item = src w1 item ∧ tgt w2 item = tgt w1 item.
Proof. intros H. unfold src, tgt. by rewrite !H. Qed.

Lemma execute_items_spec ds plan : ∀ w s w' s' err, execute_items source target cancelled ds plan w s = (w', s', err) →
  ok w → NoDup (mp_Key <$> plan) → Forall movable plan →
  ok w' ∧ Forall (item_effect ds w w') plan ∧ outside plan w w' ∧
  Z.of_nat (length (filter (lost w w') plan)) ≤ ms_Failed s' - ms_Failed s ∧
  (err = None → ms_Failed s' ≤ 0) ∧ (err = None → ms_Failed s' = ms_Failed s → Forall (item_done ds w w') plan).
Proof using Hsource Htarget.
  induction plan as [|item plan IH]; intros w s w' s' err H Hok Hnd Hmov; cbn [execute_items] in H.
  { injection H as <- <- <-. split_and!; [done|constructor|by intros g k _ _|cbn; lia|case_decide; [done|lia]|constructor]. }
  destruct (cancelled w) as [e|].
  { injection H as <- <- <-. split_and!; [done| |by intros g k _ _| |done|done].
    - apply Forall_forall. intros i _. by split; left.
    - rewrite (filter_agree _ (λ _, False)) by (unfold lost; naive_solver). rewrite filter_False. cbn. lia. }
  destruct (execute_item source target ds item w s) as [w1 s1] eqn:E.
  apply Forall_cons in Hmov as [[Hk Hne] Hmov]. apply NoDup_cons in Hnd as [Hni Hnd].
  destruct (execute_item_spec _ _ _ _ _ _ E Hok Hk Hne) as [Hok1 Hf Hs Ht Hc].
  destruct (IH _ _ _ _ _ H Hok1 Hnd Hmov) as (Hok' & Heff & Hout & Hlost & Hnone & Hdone).
  assert (src w' item = src w1 item ∧ tgt w' item = tgt w1 item) as [Hs1 Ht1] by (apply item_moved; intros g; by apply Hout).
  assert (∀ i, i ∈ plan → src w1 i = src w i ∧ tgt w1 i = tgt w i) as Hrest.
  { intros i Hi. apply item_moved. intros g. apply Hf.
    - rewrite Forall_forall in Hmov. by apply (Hmov i).
    - intros Heq. destruct Hni. rewrite <-Heq. by apply list_elem_of_fmap_2. }
  assert (filter (lost w w') plan = filter (lost w1 w') plan) as Hfil.
  { apply filter_agree. intros i Hi. unfold lost. by destruct (Hrest i Hi) as [-> _]. }
  split_and!.
  - done.
  - constructor; [unfold item_effect; by rewrite Hs1, Ht1|]. rewrite Forall_forall in *. intros i Hi. unfold item_effect.
    destruct (Hrest i Hi) as [<- <-]. by apply Heff.
  - intros g k Hkk Hnin. rewrite fmap_cons, not_elem_of_cons in Hnin. destruct Hnin. rewrite (Hout g k) by done. by apply Hf.
  - rewrite filter_cons, Hfil. destruct (decide (lost w w' item)) as [Hl|Hl]; cbn [length]; [|destruct Hc as [Hc|[Hc _]]; lia].
    destruct Hc as [Hc|[Hc Hd]]; [lia|]. exfalso. unfold lost in Hl. rewrite Hs1, Ht1 in Hl. naive_solver.
  - done.
  - intros He Hz. assert (ms_Failed s ≤ ms_Failed s1) by (destruct Hc as [?|[? _]]; lia).
    destruct Hc as [Hc|[Hc Hd]]; [exfalso; pose proof (Nat2Z.is_nonneg (length (filter (lost w1 w') plan))); lia|].
    constructor; [unfold item_done; by rewrite Hs1, Ht1|]. specialize (Hdone He ltac:(lia)). rewrite Forall_forall in *.
    intros i Hi. unfold item_done. destruct (Hrest i Hi) as [<- _]. by apply Hdone.
Qed.

(** C6: Executing a migration plan while nobody else writes the planned keys and
    none of them expires (the delete at the source does not test the version, so
    a concurrent write would be lost). Each key is in the plan once, and its
    source and target groups differ. However calls fail or are executed without
    being answered: keys outside the plan that nobody else writes stay as they
    are; a planned key leaves the source only if deletion was asked for and the
    source held the planned value when the execution started; the target keeps
    its value or gets the planned one; the values that end up neither at the
    source nor at the target are no more than the failures the statistics
    report; and if no error is returned, every planned key the source had had
    the planned value there, which is now at the target (and, with deletion,
    gone from the source). *)
Theorem execute_plan_outcome plan deleteSource w w' stats err :
  ExecutePlan source target cancelled plan deleteSource w = (w', stats, err) →
  ok w → NoDup (mp_Key <$> plan) → Forall movable plan →
  Forall (item_effect deleteSource w w') plan ∧ outside plan w w' ∧
  Z.of_nat (length (filter (lost w w') plan)) ≤ ms_Failed stats ∧
  (err = None → Forall (item_done deleteSource w w') plan).
Proof using Hsource Htarget.
  intros H Hok Hnd Hmov. destruct (execute_items_spec _ _ _ _ _ _ _ H Hok Hnd Hmov) as (_ & He & Ho & Hl & Hn & Hd). cbn in Hl, Hd.
  split_and!; [done|done|lia|]. intros Herr. apply Hd; [done|]. specialize (Hn Herr).
  pose proof (Nat2Z.is_nonneg (length (filter (lost w w') plan))). lia.
Qed.
End execute.

(** ** Making a plan *)

#[global] Instance plan_le_trans : Transitive plan_le.
Proof.
  unfold plan_le. intros x y z [[E1 L1]|L1] [[E2 L2]|L2]; [left|right; lia..]. split; [lia|by etransitivity].
Qed.
#[global] Instance plan_le_total : Total plan_le.
Proof.
  unfold plan_le. intros x y. destruct (Z.lt_total (mp_SourceGroup x) (mp_SourceGroup y)) as [?|[?|?]]; [by left; right| |by right; right].
  destruct (total String.le (mp_Key x) (mp_Key y)); [left|right]; left; done.
Qed.

Section plan.
Context {W : Type} (ok : W → Prop) (entry : W → Z → string → option (string * Z)) (keys : string → Prop).
Variables (source : router_ops W) (resolve : string → Z) (prefix : string) (limit : Z).

(** The item for an entry of a group. *)
Definition plan_item (gid : Z) (x : KeyValue) : MigrationPlanItem :=
  {| mp_Key := kv_key x; mp_Value := kv_value x; mp_Version := kv_version x; mp_SourceGroup := gid; mp_TargetGroup := resolve (kv_key x) |}.
Definition moves (gid : Z) (items : list KeyValue) : list MigrationPlanItem :=
  plan_item gid <$> filter (λ x, resolve (kv_key x) ≠ gid) items.
Definition room (plan : list MigrationPlanItem) : Prop := 0 < limit → Z.of_nat (length plan) < limit.

Lemma plan_items_spec gid items : ∀ plan, room plan →
  match plan_items resolve limit gid items plan with
  | PlanError _ => True
  | PlanFull plan' => 0 < limit ∧ Z.of_nat (length plan') = limit ∧ ∃ n, plan' = plan ++ take n (moves gid items)
  | PlanMore plan' => plan' = plan ++ moves gid items ∧ room plan'
  end.
Proof.
  clear ok entry keys source prefix. unfold moves. induction items as [|x items IH]; intros plan Hroom; cbn [plan_items]; [by rewrite app_nil_r|].
  destruct (decide (resolve (kv_key x) < 0)); [done|]. rewrite filter_cons.
  destruct (decide (resolve (kv_key x) = gid)) as [E|N]; [rewrite (decide_False (P := resolve (kv_key x) ≠ gid)) by tauto; by apply IH|].
  rewrite (decide_True (P := resolve (kv_key x) ≠ gid)) by done. fold (plan_item gid x). set (plan1 := plan ++ [plan_item gid x]).
  assert (Z.of_nat (length plan1) = Z.of_nat (length plan) + 1) as Hlen by (unfold plan1; rewrite length_app; cbn; lia).
  destruct (decide (0 < limit ∧ limit ≤ Z.of_nat (length plan1))) as [Hfull|Hmore].
  - split; [lia|]. split; [specialize (Hroom ltac:(lia)); lia|]. by exists 1%nat.
  - assert (room plan1) as Hroom1 by (intros ?; lia). specialize (IH plan1 Hroom1). destruct (plan_items _ _ _ _ plan1); [done| |].
    + destruct IH as (? & ? & m & ->). split_and!; [done..|]. exists (S m). unfold plan1. by rewrite <-app_assoc.
    + destruct IH as [-> ?]. split; [|done]. unfold plan1. by rewrite <-app_assoc.
Qed.

(** An item that belongs in a plan. *)
Definition planned (gids : list Z) (w : W) (item : MigrationPlanItem) : Prop :=
  mp_SourceGroup item ∈ gids ∧ entry w (mp_SourceGroup item) (mp_Key item) = Some (mp_Value item, mp_Version item) ∧
  mp_TargetGroup item = resolve (mp_Key item) ∧ mp_TargetGroup item ≠ mp_SourceGroup item.

Context (Hsource : lawful_router ok entry keys source).

Lemma moves_planned gid items w w' item : ro_scan source gid prefix 0 w = (w', inr items) → ok w → keys (mp_Key item) →
  has_prefix prefix (mp_Key item) = true → item ∈ moves gid items ↔ planned [gid] w item.
Proof using Hsource.
  intros H Hok Hk Hp. destruct (lr_scan _ _ _ _ Hsource _ _ _ _ _ H Hok) as (_ & _ & _ & Hitems).
  unfold moves, planned. rewrite list_elem_of_fmap, list_elem_of_singleton. split.
  - intros (x & -> & [Hx Hin]%list_elem_of_filter). cbn in *. split_and!; [done| |done|done]. apply (Hitems _ Hk Hp). by exists x.
  - intros (Hg & He & Ht & Hne). rewrite Hg in He. apply (Hitems _ Hk Hp) in He as (x & Hx & Hkey & Hv & Hn). exists x.
    split; [unfold plan_item; destruct item; cbn in *; by subst|]. apply list_elem_of_filter. split; [|done]. rewrite Hkey. congruence.
Qed.
Lemma planned_same gids w w' item : keys (mp_Key item) → same entry keys w w' → planned gids w' item ↔ planned gids w item.
Proof. intros Hk Hs. unfold planned. by rewrite Hs. Qed.
Lemma planned_cons gid gids w item : planned (gid :: gids) w item ↔ planned [gid] w item ∨ planned gids w item.
Proof. unfold planned. rewrite elem_of_cons, list_elem_of_singleton. tauto. Qed.

Lemma plan_groups_spec gids : ∀ plan w w' res, plan_groups source resolve prefix limit gids plan w = (w', inr res) → ok w → room plan →
  ok w' ∧ same entry keys w w' ∧ (0 < limit → Z.of_nat (length res) ≤ limit) ∧
  ∃ new, res = sort_plan (plan ++ new) ∧
    ∀ item, keys (mp_Key item) → has_prefix prefix (mp_Key item) = true →
      (item ∈ new → planned gids w item) ∧ (limit ≤ 0 → planned gids w item → item ∈ new).
Proof using Hsource.
  induction gids as [|gid gids IH]; intros plan w w' res H Hok Hroom; cbn [plan_groups] in H.
  { injection H as <- <-. split_and!; [done|by intros ???| |].
    - intros Hl. specialize (Hroom Hl). unfold sort_plan. rewrite (merge_sort_Permutation plan_le plan). lia.
    - exists []. rewrite app_nil_r. split; [done|]. intros item _ _. split; [by intros ?%not_elem_of_nil|]. by intros _ [?%not_elem_of_nil _]. }
  destruct (ro_scan source gid prefix 0 w) as [w1 r] eqn:E. destruct r as [e|items]; [done|].
  destruct (lr_scan _ _ _ _ Hsource _ _ _ _ _ E Hok) as (Hok1 & Hs1 & _).
  pose proof (plan_items_spec gid items plan Hroom) as Hpi. destruct (plan_items _ _ gid items plan) as [|p|p]; [done| |].
  - injection H as <- <-. destruct Hpi as (Hl & Hlen & n & ->). split_and!; [done|done| |].
    + intros _. unfold sort_plan. rewrite (merge_sort_Permutation plan_le _). lia.
    + eexists. split; [done|]. intros item Hk Hp. split; [|lia]. intros Hin. apply planned_cons. left.
      eapply moves_planned; [exact E|done..|]. rewrite <-(take_drop n (moves gid items)). apply elem_of_app. by left.
  - destruct Hpi as [-> Hroom1]. destruct (IH _ _ _ _ H Hok1 Hroom1) as (Hok' & Hs' & Hlen & new & -> & Hnew).
    split_and!; [done|intros g k Hk; by rewrite Hs', Hs1|done|]. exists (moves gid items ++ new). split; [by rewrite app_assoc|].
    intros item Hk Hp. destruct (Hnew item Hk Hp) as [H1 H2]. rewrite (planned_same _ w w1) in H1, H2 by done.
    rewrite elem_of_app, planned_cons, (moves_planned _ _ _ _ _ E Hok Hk Hp). naive_solver.
Qed.

(** Making a migration plan changes nothing.  The plan is in the order of
    source groups and keys and has no more items than the limit; every item it
    has for a key that nobody writes meanwhile is an entry of a source group whose
    key belongs to another group in the target topology, with its value and
    version; and without a limit none of those entries is missing. *)
Theorem build_plan_exact gids w w' plan :
  BuildPlan source resolve prefix limit gids w = (w', inr plan) → ok w →
  same entry keys w w' ∧ StronglySorted plan_le plan ∧ (0 < limit → Z.of_nat (length plan) ≤ limit) ∧
  ∀ item, keys (mp_Key item) → has_prefix prefix (mp_Key item) = true →
    (item ∈ plan → planned gids w item) ∧ (limit ≤ 0 → planned gids w item → item ∈ plan).
Proof using Hsource.
  intros H Hok. destruct (plan_groups_spec _ _ _ _ _ H Hok ltac:(by intros ?)) as (_ & Hs & Hl & new & -> & Hnew).
  split_and!; [done|apply StronglySorted_merge_sort; apply _|done|]. intros item Hk Hp.
  unfold sort_plan. rewrite (merge_sort_Permutation plan_le _). by apply Hnew.
Qed.
End plan.
