(* ===== verification/MigratorOnline.v ===== *)
(** * Moving a shard online

    [MigrateShardOnline] against the interface of [MigratorProps] and one for the
    connections to single servers. *)
From stdpp Require Import prelude gmap sorting strings pretty.
From stdpp Require Import options.
From S2P Require Import Prelude KvApi Topology Pb Router Migrator MigratorProps.
Local Open Scope Z_scope.

Section interface.
Context {W : Type} (ok : W → Prop) (entry : W → Z → string → option (string * Z)) (keys : string → Prop).

(** A clean-up removes all its keys from the group. *)
Definition cleaned (gid : Z) (cks : list CleanupShardKey) (w w' : W) : Prop :=
  ∀ g k, keys k → entry w' g k = if decide (g = gid ∧ k ∈ CleanupShardKey_Key <$> cks) then None else entry w g k.
Record lawful_server (gid : Z) (S : server_ops W) : Prop := {
  ls_set req w w' r : so_set S req w = (w', r) → ok w → ok w' ∧ same entry keys w w';
  ls_states w w' r : so_states S w = (w', r) → ok w → ok w' ∧ same entry keys w w';
  ls_cleanup shard cks w w' r : so_cleanup S shard cks w = (w', r) → ok w → ok w' ∧
    (same entry keys w w' ∨ cleaned gid cks w w') ∧
    match r with inl _ => True | inr resp => CleanupShardResponse_error resp = "OK" → cleaned gid cks w w' end }.
End interface.

Section online.
Context {W : Type} (ok : W → Prop) (entry : W → Z → string → option (string * Z)) (keys : string → Prop).
Variables (Sum64String : string → Z) (source target : router_ops W).
Context (Hsource : lawful_router ok entry keys source) (Htarget : lawful_router ok entry keys target).
Variables (numShards shardID sourceGID targetGID : Z) (prefix : string).
Local Abbreviation concerned k := (concerns Sum64String numShards shardID prefix k = true).
Context (Hne : sourceGID ≠ targetGID) (Hkeys : ∀ k, concerned k → keys k).
Local Abbreviation same := (same entry keys).
Local Abbreviation changes := (changes entry keys).

Definition value (w : W) (g : Z) (k : string) : option string := fst <$> entry w g k.

(** From [w0] on, only the target's entries of the shard have changed, and to
    values of the source. *)
Record progress (w0 w : W) : Prop := {
  pg_frame g k : keys k → (concerned k → g ≠ targetGID) → entry w g k = entry w0 g k;
  pg_target k : concerned k → value w targetGID k = value w0 targetGID k ∨
    (is_Some (value w0 sourceGID k) ∧ value w targetGID k = value w0 sourceGID k) }.

Lemma progress_start w : progress w w.
Proof. split; [done|by left]. Qed.
Lemma progress_same w0 w w' : progress w0 w → same w w' → progress w0 w'.
Proof using Hkeys. intros [H1 H2] Hs. split; [intros g k Hk Hc; by rewrite Hs, H1|]. intros k Hc. unfold value. rewrite Hs by auto. by apply H2. Qed.
(** A change of one key of the target. *)
Lemma progress_change w0 w w' k P : progress w0 w → changes targetGID k w w' P → concerned k →
  (P (entry w' targetGID k) → value w' targetGID k = value w0 targetGID k ∨
    (is_Some (value w0 sourceGID k) ∧ value w' targetGID k = value w0 sourceGID k)) → progress w0 w'.
Proof using Hkeys.
  intros [H1 H2] [Hc1 Hc2] Hk HP. split.
  - intros g k' Hk' Hg. rewrite Hc1; [by apply H1|done|]. intros [= -> ->]. by destruct (Hg Hk).
  - intros k' Hk'. destruct (decide (k' = k)) as [->|Hn].
    + destruct Hc2 as [He|HPe]; [|by apply HP].
      assert (value w' targetGID k = value w targetGID k) as -> by (unfold value; by rewrite He). by apply H2.
    + assert (value w' targetGID k' = value w targetGID k') as ->; [|by apply H2].
      unfold value. rewrite Hc1; [done|by apply Hkeys|]. by intros [= ?].
Qed.
Lemma progress_source w0 w k : progress w0 w → keys k → entry w sourceGID k = entry w0 sourceGID k.
Proof using Hne. intros H Hk. apply (pg_frame _ _ H); [done|]. intros _. apply Hne. Qed.

(** ** Copying *)

Definition good_copy (w0 : W) (c : onlineCopiedItem) : Prop :=
  concerned (mp_Key (oc_item c)) ∧ mp_TargetGroup (oc_item c) = targetGID ∧ was entry w0 (oc_item c) (oc_before c).
(** The key has been dealt with. *)
Definition arrived (w0 w : W) (x : KeyValue) : Prop :=
  value w0 sourceGID (kv_key x) = Some (kv_value x) ∧ value w targetGID (kv_key x) = Some (kv_value x).

Lemma copy_item_spec w0 item w w' r : copy_item source target sourceGID targetGID item w = (w', r) → ok w → progress w0 w →
  concerned (kv_key item) → entry w targetGID (kv_key item) = entry w0 targetGID (kv_key item) →
  ok w' ∧ progress w0 w' ∧ (∀ g k, keys k → k ≠ kv_key item → entry w' g k = entry w g k) ∧
  match r with
  | inl _ => True
  | inr None => arrived w0 w' item
  | inr (Some c) => arrived w0 w' item ∧ good_copy w0 c
  end.
Proof using Hsource Htarget Hne Hkeys.
  intros H Hok Hp Hc H0. pose proof (Hkeys _ Hc) as Hk. unfold copy_item in H. set (k := kv_key item) in *.
  destruct (fetchGroupValue source _ _ w) as [w1 res] eqn:E. destruct (fetch_spec _ _ _ _ _ _ _ _ _ Hsource E Hok Hk) as (Hok1 & Hs1 & Hr1).
  assert (∀ (w2 : W), ok w2 → same w w2 → ok w2 ∧ progress w0 w2 ∧ (∀ g k', keys k' → k' ≠ k → entry w2 g k' = entry w g k')) as Hstop.
  { intros w2 Hok2 Hs2. split_and!; [done|by eapply progress_same|]. intros g k' Hk' _. by apply Hs2. }
  destruct res as [e|sb]; [injection H as <- <-; by destruct (Hstop w1) as (? & ? & ?)|].
  destruct (decide (GetResponse_error sb ≠ "OK" ∨ _)) as [Hb|Hb]; [injection H as <- <-; by destruct (Hstop w1) as (? & ? & ?)|].
  assert (GetResponse_error sb = "OK" ∧ GetResponse_value sb = kv_value item) as [Hb1 Hb2] by (split; apply dec_stable; tauto).
  assert (value w0 sourceGID k = Some (kv_value item)) as Hsrc.
  { unfold value. rewrite <-(progress_source w0 w k Hp Hk). destruct Hr1 as [[_ Hr1]|[Hr1 _]]; [|by rewrite Hr1 in Hb1]. by rewrite Hr1, <-Hb2. }
  destruct (fetchGroupValue target _ _ w1) as [w2 res] eqn:E2. destruct (fetch_spec _ _ _ _ _ _ _ _ _ Htarget E2 Hok1 Hk) as (Hok2 & Hs2 & Hr2).
  assert (same w w2) as Hs by (by eapply same_trans).
  destruct res as [e|tb]; [injection H as <- <-; by destruct (Hstop w2) as (? & ? & ?)|].
  set (sourceItem := Build_MigrationPlanItem _ _ _ _ _) in *.
  assert (was entry w0 sourceItem tb) as Hwas.
  { unfold was. cbn [mp_TargetGroup mp_Key sourceItem]. rewrite <-H0, <-(Hs1 targetGID k Hk). destruct Hr2 as [[? Hr2]|[? Hr2]]; [left|right; done].
    split; [done|]. by rewrite Hr2. }
  destruct (migrationValueEquals tb sourceItem) eqn:Heq.
  { injection H as <- <-. destruct (Hstop w2) as (? & ? & ?); [done..|]. split_and!; [done..|]. split; [done|].
    unfold value. fold k. rewrite (Hs targetGID k Hk), H0. unfold migrationValueEquals in Heq. apply andb_true_iff in Heq as [Q1 Q2].
    apply bool_decide_eq_true in Q1, Q2. destruct Hwas as [[_ Hw]|[Hw _]]; [|by rewrite Hw in Q1].
    change (kv_value item) with (mp_Value sourceItem). rewrite <-Q2. exact Hw. }
  destruct (ro_put target _ _ _ _ w2) as [w3 res] eqn:E3. destruct (lr_put _ _ _ _ Htarget _ _ _ _ _ _ _ E3 Hok2 Hk) as (Hok3 & Hch & Hput).
  assert (∀ w4, ok w4 → same w3 w4 → ok w4 ∧ progress w0 w4 ∧ (∀ g k', keys k' → k' ≠ k → entry w4 g k' = entry w g k')) as Hafter.
  { intros w4 Hok4 Hs4. pose proof (changes_same _ _ _ _ _ _ _ _ Hk (same_changes _ _ _ _ _ _ _ _ Hk Hs Hch) Hs4) as Hch4.
    split_and!; [done| |].
    - eapply progress_change; [exact Hp|exact Hch4|done|]. intros Hh. right. rewrite Hsrc. split; [done|exact Hh].
    - intros g k' Hk' Hn. apply (proj1 Hch4); [done|]. by intros [= ? ?]. }
  assert (same w3 w3) as Hs33 by apply same_refl.
  destruct res as [e|resp]; [injection H as <- <-; by destruct (Hafter w3) as (? & ? & ?)|].
  destruct (migrationPutAccepted resp) eqn:Ha; cbn [negb] in H; [|injection H as <- <-; by destruct (Hafter w3) as (? & ? & ?)].
  unfold migrationPutAccepted in Ha. apply bool_decide_eq_true in Ha. specialize (Hput Ha).
  destruct (fetchGroupValue target _ _ w3) as [w4 res] eqn:E4. destruct (fetch_spec _ _ _ _ _ _ _ _ _ Htarget E4 Hok3 Hk) as (Hok4 & Hs4 & _).
  destruct (Hafter w4 Hok4 Hs4) as (? & ? & ?). destruct res as [e|after]; [by injection H as <- <-|].
  destruct (migrationValueEquals after sourceItem); injection H as <- <-; [|done]. split_and!; [done..| |done].
  split; [done|]. unfold value. fold k. by rewrite (Hs4 targetGID k Hk).
Qed.

Lemma copy_items_spec w0 items : ∀ copied w w' copied' err,
  copy_items Sum64String source target numShards shardID sourceGID targetGID prefix items copied w = (w', copied', err) →
  ok w → progress w0 w → NoDup (kv_key <$> items) → Forall (good_copy w0) copied →
  (∀ x, x ∈ items → concerned (kv_key x) → entry w targetGID (kv_key x) = entry w0 targetGID (kv_key x)) →
  ok w' ∧ progress w0 w' ∧ Forall (good_copy w0) copied' ∧ (∀ g k, keys k → k ∉ kv_key <$> items → entry w' g k = entry w g k) ∧
  (err = None → ∀ x, x ∈ items → concerned (kv_key x) → arrived w0 w' x).
Proof using Hsource Htarget Hne Hkeys.
  induction items as [|x items IH]; intros copied w w' copied' err H Hok Hp Hnd Hgood H0; cbn [copy_items] in H.
  { injection H as <- <- <-. split_and!; [done..|]. intros _ x Hx. by apply not_elem_of_nil in Hx. }
  apply NoDup_cons in Hnd as [Hni Hnd]. destruct (concerns _ _ _ _ (kv_key x)) eqn:Ec; cbn [negb] in H.
  - destruct (copy_item source target sourceGID targetGID x w) as [w1 r] eqn:E.
    destruct (copy_item_spec _ _ _ _ _ E Hok Hp Ec (H0 x ltac:(by left) Ec)) as (Hok1 & Hp1 & Hf1 & Hr).
    assert (∀ y, y ∈ items → kv_key y ≠ kv_key x) as Hother by (intros y Hy Heq; apply Hni; rewrite <-Heq; by apply list_elem_of_fmap_2).
    assert (∀ y, y ∈ items → concerned (kv_key y) → entry w1 targetGID (kv_key y) = entry w0 targetGID (kv_key y)) as H01.
    { intros y Hy Hc. rewrite Hf1; [|by apply Hkeys|by apply Hother]. apply H0; [by right|done]. }
    assert (∀ copied1, copy_items Sum64String source target numShards shardID sourceGID targetGID prefix items copied1 w1 = (w', copied', err) →
      Forall (good_copy w0) copied1 → arrived w0 w1 x →
      ok w' ∧ progress w0 w' ∧ Forall (good_copy w0) copied' ∧ (∀ g k, keys k → k ∉ kv_key <$> x :: items → entry w' g k = entry w g k) ∧
      (err = None → ∀ y, y ∈ x :: items → concerned (kv_key y) → arrived w0 w' y)) as Hrec.
    { intros copied1 Hrec Hg1 [Ha1 Ha2]. destruct (IH _ _ _ _ _ Hrec Hok1 Hp1 Hnd Hg1 H01) as (Hok' & Hp' & Hg' & Hf' & Hd').
      split_and!; [done..| |].
      - intros g k Hk Hnin. rewrite fmap_cons, not_elem_of_cons in Hnin. destruct Hnin. rewrite Hf' by done. by apply Hf1.
      - intros He y [->|Hy]%elem_of_cons Hc; [|by apply Hd']. split; [done|]. unfold value. rewrite Hf'; [exact Ha2|auto|done]. }
    destruct r as [e|[c|]]; [|destruct Hr as [Ha Hg]; eapply Hrec; [exact H| |done]; apply Forall_app; split; [done|by constructor]|by eapply Hrec].
    injection H as <- <- <-. split_and!; [done..| |done]. intros g k Hk Hnin. rewrite fmap_cons, not_elem_of_cons in Hnin. by apply Hf1; [|apply Hnin].
  - destruct (IH _ _ _ _ _ H Hok Hp Hnd Hgood) as (Hok' & Hp' & Hg' & Hf' & Hd'); [intros y Hy; apply H0; by right|].
    split_and!; [done..| |].
    + intros g k Hk Hnin. rewrite fmap_cons, not_elem_of_cons in Hnin. by apply Hf'; [|apply Hnin].
    + intros He y [->|Hy]%elem_of_cons Hc; [by rewrite Ec in Hc|by apply Hd'].
Qed.

Lemma has_prefix_nil k : has_prefix "" k = true.
Proof. by destruct k. Qed.

(** Everything of the shard is at the target. *)
Definition complete (w0 w : W) : Prop := ∀ k v, concerned k → value w0 sourceGID k = Some v → value w targetGID k = Some v.
Lemma bulk_copy_spec w0 w w' copied err :
  bulkCopyShard Sum64String source target numShards shardID sourceGID targetGID prefix w = (w', copied, err) → ok w → same w0 w →
  ok w' ∧ progress w0 w' ∧ Forall (good_copy w0) copied ∧ (err = None → complete w0 w').
Proof using Hsource Htarget Hne Hkeys.
  unfold bulkCopyShard. destruct (ro_scan source sourceGID "" 0 w) as [w1 res] eqn:E. intros H Hok Hs0.
  destruct (lr_scan _ _ _ _ Hsource _ _ _ _ _ E Hok) as (Hok1 & Hs & Hr).
  assert (same w0 w1) as Hs1 by (by eapply same_trans). assert (progress w0 w1) as Hp by (eapply progress_same; [apply progress_start|done]).
  destruct res as [e|items]; [by injection H as <- <- <-|]. destruct Hr as [Hnd Hitems].
  destruct (copy_items_spec w0 items _ _ _ _ _ H Hok1 Hp Hnd ltac:(constructor)) as (Hok' & Hp' & Hg & _ & Hd).
  { intros x _ Hc. by apply Hs1, Hkeys. }
  split_and!; [done..|]. intros He k v Hc Hv. unfold value in Hv. rewrite <-(Hs0 sourceGID k (Hkeys k Hc)) in Hv.
  destruct (entry w sourceGID k) as [[v' n]|] eqn:En; [|done]. cbn in Hv. injection Hv as ->.
  apply (Hitems k (Hkeys k Hc) (has_prefix_nil k)) in En as (x & Hx & <- & <- & _). by apply (Hd He x Hx Hc).
Qed.

(** ** Rolling back and cleaning up *)

Lemma rollback_copies_spec w0 copied : ∀ err w w' e, rollback_copies target copied err w = (w', e) → ok w → progress w0 w →
  Forall (good_copy w0) copied → ok w' ∧ progress w0 w'.
Proof using Htarget Hkeys.
  induction copied as [|c copied IH]; intros err w w' e H Hok Hp Hg; cbn [rollback_copies] in H; [by injection H as <- <-|].
  apply Forall_cons in Hg as [(Hc & Htg & Hwas) Hg]. destruct (rollbackTarget target _ _ w) as [w1 e1] eqn:E.
  destruct (rollback_changes _ _ _ _ Htarget _ _ _ _ _ E Hok (Hkeys _ Hc)) as [Hok1 Hch]. rewrite Htg in Hch.
  eapply IH; [exact H|done| |done]. eapply progress_change; [done|exact Hch|done|]. intros Hr. left.
  pose proof (restored_was _ _ _ _ _ Hwas Hr) as Hv. unfold tgt in Hv. by rewrite Htg in Hv.
Qed.

Variables (src tgt : server_ops W).
Context (Hsrc : lawful_server ok entry keys sourceGID src) (Htgt : lawful_server ok entry keys targetGID tgt).

Lemma set_remote_spec gid S req w w' e : lawful_server ok entry keys gid S → setRemoteShardState S req w = (w', e) → ok w → ok w' ∧ same w w'.
Proof.
  intros HS. unfold setRemoteShardState. destruct (so_set S req w) as [w1 r] eqn:E. intros H Hok.
  destruct (ls_set _ _ _ _ _ HS _ _ _ _ E Hok) as [Hok1 Hs]. destruct r as [|text]; [by injection H as <- <-|]. case_decide; by injection H as <- <-.
Qed.
Lemma read_remote_spec gid S i w w' r : lawful_server ok entry keys gid S → readRemoteShardState S i w = (w', r) → ok w → ok w' ∧ same w w'.
Proof.
  intros HS. unfold readRemoteShardState. destruct (so_states S w) as [w1 res] eqn:E. intros H Hok.
  destruct (ls_states _ _ _ _ _ HS _ _ _ E Hok) as [Hok1 Hs]. destruct res as [|entries]; [by injection H as <- <-|].
  destruct (filter _ entries); by injection H as <- <-.
Qed.
Lemma rollback_online_spec w0 e1 e2 so to p1 p2 copied w w' e :
  rollbackOnlineMigration target src tgt e1 e2 shardID so to p1 p2 copied w = (w', e) → ok w → progress w0 w → Forall (good_copy w0) copied →
  ok w' ∧ progress w0 w'.
Proof using Htarget Hkeys Hsrc Htgt.
  unfold rollbackOnlineMigration. destruct (rollback_copies target (reverse copied) None w) as [w1 err1] eqn:E. intros H Hok Hp Hg.
  destruct (rollback_copies_spec w0 _ _ _ _ _ E Hok Hp) as [Hok1 Hp1]; [by apply Forall_reverse|].
  destruct p2.
  - unfold restoreRemoteShardState in H. destruct (setRemoteShardState src _ w1) as [w2 e'] eqn:E2.
    destruct (set_remote_spec _ _ _ _ _ _ Hsrc E2 Hok1) as [Hok2 Hs2]. assert (progress w0 w2) as Hp2 by (by eapply progress_same).
    destruct p1; [|by injection H as <- <-]. destruct (setRemoteShardState tgt _ w2) as [w3 e''] eqn:E3.
    destruct (set_remote_spec _ _ _ _ _ _ Htgt E3 Hok2) as [Hok3 Hs3]. injection H as <- <-. split; [done|by eapply progress_same].
  - destruct p1; [|by injection H as <- <-]. unfold restoreRemoteShardState in H. destruct (setRemoteShardState tgt _ w1) as [w3 e''] eqn:E3.
    destruct (set_remote_spec _ _ _ _ _ _ Htgt E3 Hok1) as [Hok3 Hs3]. injection H as <- <-. split; [done|by eapply progress_same].
Qed.

(** The source loses nothing, or everything of the shard; without an error the latter. *)
Definition emptied (w w' : W) : Prop :=
  ∀ g k, keys k → entry w' g k = entry w g k ∨ (g = sourceGID ∧ concerned k ∧ entry w' g k = None).
Lemma clean_spec w w' err : cleanShardData Sum64String source src numShards shardID sourceGID prefix w = (w', err) → ok w →
  ok w' ∧ emptied w w' ∧ (err = None → ∀ k, concerned k → entry w' sourceGID k = None).
Proof using Hsource Hkeys Hsrc.
  unfold cleanShardData. destruct (ro_scan source sourceGID "" 0 w) as [w1 res] eqn:E. intros H Hok.
  destruct (lr_scan _ _ _ _ Hsource _ _ _ _ _ E Hok) as (Hok1 & Hs & Hr).
  assert (emptied w w1) as He1 by (intros g k Hk; left; by apply Hs).
  destruct res as [e|items]; [by injection H as <- <-|]. destruct Hr as [_ Hitems]. cbv zeta in H. set (cks := _ <$> _) in H.
  assert (∀ k, k ∈ CleanupShardKey_Key <$> cks ↔ concerned k ∧ k ∈ kv_key <$> items) as Hcks.
  { intros k. unfold cks. rewrite <-list_fmap_compose, !list_elem_of_fmap. cbn. setoid_rewrite list_elem_of_filter. naive_solver. }
  assert (∀ k, concerned k → entry w1 sourceGID k ≠ None → k ∈ CleanupShardKey_Key <$> cks) as Hall.
  { intros k Hc Hn. apply Hcks. split; [done|]. rewrite Hs in Hn by auto. destruct (entry w sourceGID k) as [[v n]|] eqn:En; [|done].
    apply (Hitems k (Hkeys k Hc) (has_prefix_nil k)) in En as (x & Hx & <- & _). by apply list_elem_of_fmap_2. }
  assert (∀ w2, cleaned entry keys sourceGID cks w1 w2 → emptied w w2 ∧ ∀ k, concerned k → entry w2 sourceGID k = None) as Hcl.
  { intros w2 Hc. split.
    - intros g k Hk. rewrite (Hc g k Hk). destruct (decide (g = sourceGID ∧ _)) as [[-> Hd]|]; [right|left; by apply Hs]. by apply Hcks in Hd as [? _].
    - intros k Hk. rewrite (Hc _ k (Hkeys k Hk)). destruct (decide (sourceGID = sourceGID ∧ _)) as [|Hd]; [done|].
      destruct (decide (entry w1 sourceGID k = None)) as [|Hn]; [done|]. destruct Hd. split; [done|by apply Hall]. }
  destruct (decide (cks = [])) as [Hnil|_].
  - injection H as <- <-. split_and!; [done..|]. intros _ k Hc. apply dec_stable. intros Hn. apply (Hall k Hc) in Hn. rewrite Hnil in Hn. by apply not_elem_of_nil in Hn.
  - destruct (so_cleanup src _ cks w1) as [w2 res] eqn:E2. destruct (ls_cleanup _ _ _ _ _ Hsrc _ _ _ _ _ E2 Hok1) as (Hok2 & Hor & Hres).
    assert (emptied w w2) as He2.
    { destruct Hor as [Hs2|Hc]; [|by apply Hcl]. intros g k Hk. left. by rewrite Hs2, Hs. }
    destruct res as [e|resp]; [by injection H as <- <-|]. case_decide as Hd; injection H as <- <-; [done|]. split_and!; [done..|]. intros _. by apply Hcl, Hres.
Qed.

(** ** The whole migration *)

(** Where the data is when a migration returns. *)
Record online_outcome (w w' : W) (err : option string) : Prop := {
  oo_ok : ok w';
  oo_frame g k : keys k → (concerned k → g ≠ sourceGID ∧ g ≠ targetGID) → entry w' g k = entry w g k;
  oo_safe : (∀ k, concerned k → entry w' sourceGID k = entry w sourceGID k) ∨ complete w w';
  oo_target k : concerned k → value w' targetGID k = value w targetGID k ∨
    (is_Some (value w sourceGID k) ∧ value w' targetGID k = value w sourceGID k);
  oo_done : err = None → complete w w' ∧ ∀ k, concerned k → entry w' sourceGID k = None }.

Lemma progress_outcome w0 w e : ok w → progress w0 w → online_outcome w0 w (Some e).
Proof using Hne Hkeys.
  intros Hok Hp. split; [done| |left|by apply Hp|done].
  - intros g k Hk Hn. apply Hp; [done|]. intros Hc. by apply Hn.
  - intros k Hc. apply progress_source; auto.
Qed.
Lemma emptied_outcome w0 w w' err : ok w' → progress w0 w → complete w0 w → emptied w w' →
  (err = None → ∀ k, concerned k → entry w' sourceGID k = None) → online_outcome w0 w' err.
Proof using Hne Hkeys.
  intros Hok Hp Hcomp Hem Hd. assert (∀ k, keys k → entry w' targetGID k = entry w targetGID k) as Ht.
  { intros k Hk. destruct (Hem targetGID k Hk) as [?|[? _]]; congruence. }
  assert (complete w0 w') as Hcomp'.
  { intros k v Hc Hv. unfold value. rewrite Ht by auto. by apply Hcomp. }
  split; [done| |by right| |by auto].
  - intros g k Hk Hn. destruct (Hem g k Hk) as [->|(-> & Hc & _)]; [apply Hp; [done|naive_solver]|naive_solver].
  - intros k Hc. unfold value at 1 4. rewrite Ht by auto. by apply Hp.
Qed.

Lemma migrate_copy_spec w0 r tgtEpoch reps so to epoch w w' r' err :
  migrate_copy Sum64String source target src tgt r tgtEpoch shardID sourceGID targetGID reps prefix so to epoch w = (w', r', err) →
  TopologyNumShards r = numShards → ok w → same w0 w → online_outcome w0 w' err.
Proof using Hsource Htarget Hne Hkeys Hsrc Htgt.
  unfold migrate_copy. intros H Hnum Hok Hs0. rewrite Hnum in H. cbv zeta in H.
  destruct (bulkCopyShard _ _ _ _ _ _ _ _ w) as [[w1 copied] err1] eqn:E1.
  destruct (bulk_copy_spec w0 _ _ _ _ E1 Hok Hs0) as (Hok1 & Hp1 & Hg & Hcomp).
  assert (∀ msg w2, ok w2 → progress w0 w2 →
    (let '(w3, e) := rollbackOnlineMigration target src tgt (TopologyEpoch r) tgtEpoch shardID so to true true copied w2 in
     (w3, r, Some (combineMigrationErrors msg e))) = (w', r', err) → online_outcome w0 w' err) as Hundo.
  { intros msg w2 Hok2 Hp2. destruct (rollbackOnlineMigration _ _ _ _ _ _ _ _ _ _ _ w2) as [w3 e] eqn:E. intros [= <- _ <-].
    destruct (rollback_online_spec _ _ _ _ _ _ _ _ _ _ _ E Hok2 Hp2 Hg) as [Hok3 Hp3]. by apply progress_outcome. }
  destruct err1 as [e|]; [by eapply Hundo|]. specialize (Hcomp eq_refl).
  destruct (setRemoteShardState tgt _ w1) as [w2 err2] eqn:E2. destruct (set_remote_spec _ _ _ _ _ _ Htgt E2 Hok1) as [Hok2 Hs2].
  assert (progress w0 w2) as Hp2 by (by eapply progress_same). destruct err2 as [e|]; [by eapply Hundo|].
  destruct (setRemoteShardState src _ w2) as [w3 err3] eqn:E3. destruct (set_remote_spec _ _ _ _ _ _ Hsrc E3 Hok2) as [Hok3 Hs3].
  assert (progress w0 w3) as Hp3 by (by eapply progress_same). destruct err3 as [e|]; [by eapply Hundo|].
  assert (complete w0 w3) as Hcomp3.
  { intros k v Hc Hv. unfold value. rewrite Hs3, Hs2 by auto. by apply Hcomp. }
  destruct (cleanShardData _ _ _ _ _ _ _ w3) as [w4 err4] eqn:E4. destruct (clean_spec _ _ _ E4 Hok3) as (Hok4 & Hem & Hd).
  destruct err4 as [e|]; [injection H as <- <- <-; by eapply emptied_outcome|]. specialize (Hd eq_refl).
  assert (w' = w4) as ->; [|by eapply emptied_outcome].
  destruct (containsGroupID _ _); [|by injection H as <- <- <-]. destruct (rt_topology r) as [st|]; [|by injection H as <- <- <-].
  destruct (MoveShard st shardID targetGID) as [st' ok']. by injection H as <- <- <-.
Qed.
End online.

(** [online_migration_safe] as a lemma for expansions. *)
Lemma online_migration_outcome {W} (ok : W → Prop) entry keys Sum64String (source target : router_ops W) src tgt r tgtEpoch
    shardID sourceGID targetGID reps prefix w w' r' err :
  lawful_router ok entry keys source → lawful_router ok entry keys target →
  (∀ S, src = inr S → lawful_server ok entry keys sourceGID S) → (∀ S, tgt = inr S → lawful_server ok entry keys targetGID S) →
  sourceGID ≠ targetGID → (∀ k, concerns Sum64String (TopologyNumShards r) shardID prefix k = true → keys k) → ok w →
  MigrateShardOnline Sum64String source target src tgt r tgtEpoch shardID sourceGID targetGID reps prefix w = (w', r', err) →
  online_outcome ok entry keys Sum64String (TopologyNumShards r) shardID sourceGID targetGID prefix w w' err.
Proof.
  intros Hso Hta Hsrc Htgt Hne Hkeys Hok H. unfold MigrateShardOnline in H.
  assert (∀ w1 e, ok w1 → same entry keys w w1 → online_outcome ok entry keys Sum64String (TopologyNumShards r) shardID sourceGID targetGID prefix w w1 (Some e)) as Hstop.
  { intros w1 e Hok1 Hs. apply progress_outcome; [done..|]. eapply progress_same; [done|apply progress_start|done]. }
  destruct src as [e|src]; [injection H as <- <- <-; apply Hstop; [done|apply same_refl]|]. specialize (Hsrc src eq_refl).
  destruct tgt as [e|tgt]; [injection H as <- <- <-; apply Hstop; [done|apply same_refl]|]. specialize (Htgt tgt eq_refl).
  destruct (readRemoteShardState src shardID w) as [w1 r1] eqn:E1. destruct (read_remote_spec _ _ _ _ _ _ _ _ _ Hsrc E1 Hok) as [Hok1 Hs1].
  destruct r1 as [e|so]; [injection H as <- <- <-; by apply Hstop|].
  destruct (readRemoteShardState tgt shardID w1) as [w2 r2] eqn:E2. destruct (read_remote_spec _ _ _ _ _ _ _ _ _ Htgt E2 Hok1) as [Hok2 Hs2].
  assert (same entry keys w w2) as Hsw2 by (by eapply same_trans). destruct r2 as [e|to]; [injection H as <- <- <-; by apply Hstop|].
  cbv zeta in H. destruct (setRemoteShardState tgt _ w2) as [w3 e3] eqn:E3. destruct (set_remote_spec _ _ _ _ _ _ _ _ _ Htgt E3 Hok2) as [Hok3 Hs3].
  assert (same entry keys w w3) as Hsw3 by (by eapply same_trans). destruct e3 as [e|]; [injection H as <- <- <-; by apply Hstop|].
  destruct (setRemoteShardState src _ w3) as [w4 e4] eqn:E4. destruct (set_remote_spec _ _ _ _ _ _ _ _ _ Hsrc E4 Hok3) as [Hok4 Hs4].
  assert (same entry keys w w4) as Hsw4 by (by eapply same_trans). destruct e4 as [e|]; [|by eapply (migrate_copy_spec ok entry keys Sum64String source target Hso Hta)].
  unfold restoreRemoteShardState in H. destruct (setRemoteShardState tgt _ w4) as [w5 e5] eqn:E5.
  destruct (set_remote_spec _ _ _ _ _ _ _ _ _ Htgt E5 Hok4) as [Hok5 Hs5]. injection H as <- <- <-. apply Hstop; [done|]. by eapply same_trans.
Qed.

(** C7: Moving the keys of a shard that have the given prefix (all of them when
    it is empty) from one group to another one online, with calls that fail or
    are executed without being answered, and with nobody else writing these keys
    and none of them expiring. Other keys that nobody else writes, those of the
    shard without the prefix included, stay as they are in every group, and so
    do these keys in other groups. However the migration ends, the source still
    has all its entries for these keys or the target has all their values, so
    that nothing is lost; what the target has for such a key is what it had or
    the source's value; and if no error is returned, the target has the source's
    value for each of these keys and the source has none of them. *)
Theorem online_migration_safe {W} (ok : W → Prop) entry keys Sum64String (source target : router_ops W) src tgt r tgtEpoch
    shardID sourceGID targetGID reps prefix w w' r' err :
  lawful_router ok entry keys source → lawful_router ok entry keys target →
  (∀ S, src = inr S → lawful_server ok entry keys sourceGID S) → (∀ S, tgt = inr S → lawful_server ok entry keys targetGID S) →
  sourceGID ≠ targetGID → (∀ k, concerns Sum64String (TopologyNumShards r) shardID prefix k = true → keys k) → ok w →
  MigrateShardOnline Sum64String source target src tgt r tgtEpoch shardID sourceGID targetGID reps prefix w = (w', r', err) →
  online_outcome ok entry keys Sum64String (TopologyNumShards r) shardID sourceGID targetGID prefix w w' err.
Proof. apply online_migration_outcome. Qed.
