(* ===== verification/MigratorNet.v ===== *)
(** * The groups of [Net] satisfy the migrator's interface

    Routers and servers over the abstract groups of [Net]: every call may be
    executed without being answered, refused or dropped, and other clients write
    other keys in between.  The last part has runs of the migrator. *)
From stdpp Require Import prelude gmap sorting strings pretty.
From stdpp Require Import options.
From S2P Require Import Prelude Json KvApi ExpiryHeap Store StoreProps ShardState Server ServerProps Topology Pb Router Grpc Net Client ClientProps Migrator MigratorProps MigratorOnline.
Local Open Scope Z_scope.

(** ** Cleaning up a shard, abstractly *)

Definition cleanup_matches (m : amap) (ck : CleanupShardKey) : Prop :=
  match m (CleanupShardKey_Key ck) with
  | None => wrapU64 (CleanupShardKey_ExpectedVersion ck) = 0
  | Some e => ke_Version e = wrapU64 (CleanupShardKey_ExpectedVersion ck)
  end.
#[global] Instance cleanup_matches_dec m ck : Decision (cleanup_matches m ck).
Proof. unfold cleanup_matches. destruct (m _); apply _. Defined.
Definition spec_cleanup (m : amap) (cks : list CleanupShardKey) : amap * Err :=
  if decide (Forall (cleanup_matches m) cks)
  then ((λ k, if decide (k ∈ CleanupShardKey_Key <$> cks) then None else m k), OK)
  else (m, ErrVersion).

Section cleanup.
Context {DB : Type} `{Badger DB}.
Variable Sum64String : string → Z.

Lemma WriteBatchWithCAS_spec (s : Store DB) ops s' e :
  NoDup (wb_Key <$> ops) → WriteBatchWithCAS s ops = (s', e) →
  let v := db_view (st_db s) in let v' := db_view (st_db s') in
  match e with
  | Some _ => s' = s
  | None => Forall (batch_pre v) ops ∧ Forall (λ op, v' !! wb_Key op = batch_post v op) ops ∧ ∀ k, k ∉ wb_Key <$> ops → v' !! k = v !! k
  end.
Proof.
  intros Hnd. unfold WriteBatchWithCAS. destruct (db_update s _) as [[s1 u] e1] eqn:Hu. intros [= <- <-]. cbn.
  apply db_update_cases in Hu.
  2:{ intros t b e' Hfn. destruct (writeBatchWithCASInTxn _ ops) as [t2 [?|]] eqn:Hw; simplify_eq; (eapply writeBatch_honest; [apply honest_refl|done]). }
  revert Hu. pose proof (writeBatch_spec {| t_view := db_view (st_db s); t_dirty := false |} ops Hnd) as Hs.
  destruct (writeBatchWithCASInTxn _ ops) as [t2 [err|]]; cbn in *; intros [_ Hu].
  - destruct e1 as [e1|]; [|by destruct Hu]. by destruct Hu as [-> _].
  - destruct e1 as [e1|]; [by destruct Hu as [-> _]|]. destruct Hu as (_ & Hv & _). by rewrite Hv.
Qed.

Lemma cleanup_ops_keys shardID cks ops : cleanup_ops Sum64String shardID cks = Some ops →
  ops = (λ ck, {| wb_Key := CleanupShardKey_Key ck; wb_Value := ""; wb_ExpectedVersion := wrapU64 (CleanupShardKey_ExpectedVersion ck);
                  wb_Expires := 0; wb_IsDelete := true |}) <$> cks.
Proof.
  revert ops. induction cks as [|ck cks IH]; intros ops H1; cbn [cleanup_ops] in H1; [by injection H1 as <-|].
  case_decide; [done|]. destruct (cleanup_ops _ _ cks) as [ops1|]; [|done]. cbn in H1. injection H1 as <-. cbn. f_equal. by apply IH.
Qed.

(** The server's clean-up is the abstract one, or nothing. *)
Lemma doCleanupShard_refines (kv : KVServer DB) args kv' r :
  NoDup (CleanupShardKey_Key <$> CleanupShardArgs_Keys args) → doCleanupShard Sum64String kv args = (kv', r) →
  if decide (CleanupShardReply_Err r = OK)
  then (spec_cleanup (contents kv) (CleanupShardArgs_Keys args)).2 = OK ∧
       ∀ k, contents kv' k = (spec_cleanup (contents kv) (CleanupShardArgs_Keys args)).1 k
  else contents kv' = contents kv.
Proof.
  intros Hnd. unfold doCleanupShard. destruct (killed kv); [by intros [= <- <-]|].
  destruct (cleanup_ops _ _ _) as [ops|] eqn:Hops; [|by intros [= <- <-]]. apply cleanup_ops_keys in Hops.
  assert (wb_Key <$> ops = CleanupShardKey_Key <$> CleanupShardArgs_Keys args) as Hk by (rewrite Hops, <-list_fmap_compose; done).
  destruct (WriteBatchWithCAS (kv_store kv) ops) as [s e] eqn:Hw. apply WriteBatchWithCAS_spec in Hw; [|by rewrite Hk].
  destruct e as [e|]; [subst s; by intros [= <- <-]|]. destruct Hw as (Hpre & Hpost & Hoth). intros [= <- <-]. rewrite decide_True by done.
  unfold spec_cleanup. assert (Forall (cleanup_matches (contents kv)) (CleanupShardArgs_Keys args)) as Hall.
  { rewrite Hops, Forall_fmap in Hpre. eapply Forall_impl; [exact Hpre|]. intros ck. unfold batch_pre, cleanup_matches, contents, entry_at. cbn.
    destruct (_ !! CleanupShardKey_Key ck) as [raw|]; [|done]. cbn. by destruct (unmarshal_kvEntry raw). }
  rewrite decide_True by done. split; [done|]. intros k. unfold contents, entry_at. cbn. case_decide as Hin.
  - rewrite <-Hk in Hin. apply list_elem_of_fmap in Hin as (op & -> & Hin). rewrite Forall_forall in Hpost. rewrite (Hpost op Hin).
    rewrite Hops in Hin. by apply list_elem_of_fmap in Hin as (ck & -> & _).
  - by rewrite Hoth by (by rewrite Hk).
Qed.
End cleanup.

(** ** Routers and servers over the abstract groups *)

Definition net_entry (w : net) (g : Z) (k : string) : option (string * Z) :=
  (λ e, (ke_Value e, wrapS64 (ke_Version e))) <$> nt_groups w g k.

(** The turn of a call that does not go through the log of requests. *)
Definition next_turn (w : net) : turn * net :=
  let t := default calm (head (nt_script w)) in
  (t, execute_others (tn_now t) (tn_others t) (mkNet (nt_groups w) (tail (nt_script w)) (nt_log w))).
Definition of_rpc {A} (r : net * option A) : net * (string + A) := (r.1, match r.2 with None => inl "rpc error" | Some a => inr a end).

(** [universe] lists the keys that a scan looks at. *)
Definition net_scan (universe : list string) (g : Z) (prefix : string) (limit : Z) (w : net) : net * (string + list KeyValue) :=
  let '(t, w) := next_turn w in
  match tn_kind t with
  | Answered =>
      let items := omap (λ k, if has_prefix prefix k then
        (λ e, {| kv_key := k; kv_value := ke_Value e; kv_version := wrapS64 (ke_Version e); kv_expires := ke_Expires e |}) <$> visible (tn_now t) (nt_groups w g) k
        else None) universe in
      (w, inr (if decide (0 < limit) then take (Z.to_nat limit) items else items))
  | Refused e => (w, inl (errReply e))
  | NoAnswer => (w, inl "rpc error")
  end.
Definition net_router (universe : list string) : router_ops net :=
  {| ro_get g k w := of_rpc (net_get g k w);
     ro_put g k v ver w := of_rpc (net_put g {| PutRequest_key := k; PutRequest_value := v; PutRequest_version := ver; PutRequest_ttl_seconds := 0 |} w);
     ro_delete g k w := of_rpc (net_delete g k w);
     ro_scan := net_scan universe |}.

(** The states of the shards are not part of the abstract groups: setting them
    succeeds or fails, and reading them gives [states]. *)
Definition execute_cleanup (g : Z) (cks : list CleanupShardKey) (w : net) : net * Err :=
  let '(m, e) := spec_cleanup (nt_groups w g) cks in (mkNet (set_group g m (nt_groups w)) (nt_script w) (nt_log w), e).
Definition net_cleanup (g : Z) (cks : list CleanupShardKey) (w : net) : net * (string + CleanupShardResponse) :=
  let '(t, w) := next_turn w in
  let w := Nat.iter (tn_lost t) (λ w, (execute_cleanup g cks w).1) w in
  match tn_kind t with
  | Answered =>
      let '(w, e) := execute_cleanup g cks w in
      (w, inr {| CleanupShardResponse_error := errReply e; CleanupShardResponse_deleted := 0 |})
  | Refused e => (w, inr {| CleanupShardResponse_error := errReply e; CleanupShardResponse_deleted := 0 |})
  | NoAnswer => (w, inl "rpc error")
  end.
Definition net_server (states : list ShardStateEntry) (g : Z) : server_ops net :=
  {| so_set _ w := let '(t, w) := next_turn w in
       (w, match tn_kind t with Answered => inr "" | Refused e => inr (errReply e) | NoAnswer => inl "rpc error" end);
     so_states w := let '(t, w) := next_turn w in
       (w, match tn_kind t with Answered => inr states | Refused e => inl (errReply e) | NoAnswer => inl "rpc error" end);
     so_cleanup _ cks w := net_cleanup g cks w |}.

(** ** The laws *)

Definition write_key (req : request) : option string :=
  match req with ReqPut a => Some (PutArgs_Key a) | ReqDelete a => Some (DeleteArgs_Key a) | _ => None end.
Lemma spec_step_frame now m req k : write_key req ≠ Some k → (spec_step now now m req).1 k = m k.
Proof.
  destruct req; cbn; try done; intros Hk.
  - destruct (cas_spec _ _ _ _) as [[post old] []]; cbn; [|done..]. unfold aset. by rewrite decide_False by naive_solver.
  - destruct (visible _ _ _); cbn; [|done]. unfold aset. by rewrite decide_False by naive_solver.
Qed.
Lemma execute_groups ours now g req w g' k : nt_groups (execute ours now g req w).1 g' k =
  if decide (g' = g) then (spec_step now now (nt_groups w g) req).1 k else nt_groups w g' k.
Proof. unfold execute. destruct (spec_step _ _ _ _) as [m rep]. cbn. unfold set_group. by case_decide. Qed.
Lemma execute_frame ours now g req w g' k : g' ≠ g ∨ write_key req ≠ Some k → nt_groups (execute ours now g req w).1 g' k = nt_groups w g' k.
Proof.
  intros H. rewrite execute_groups. case_decide as Hg; [|done]. subst g'. apply spec_step_frame. naive_solver.
Qed.

Section laws.
Variable keys : string → Prop.

Definition quiet_turn (t : turn) : Prop := Forall (λ gr : Z * request, ∀ k, write_key gr.2 = Some k → ¬ keys k) (tn_others t).
(** Nobody else writes the keys, whose entries do not expire. *)
Record net_ok (w : net) : Prop := {
  no_script : script_ok w;
  no_quiet : Forall quiet_turn (nt_script w);
  no_plain g k e : keys k → nt_groups w g k = Some e → ke_Expires e = 0 }.

Definition unchanged (w w' : net) : Prop := ∀ g k, keys k → nt_groups w' g k = nt_groups w g k.
Lemma unchanged_same w w' : unchanged w w' → same net_entry keys w w'.
Proof. intros H g k Hk. unfold net_entry. by rewrite H. Qed.
Lemma plain_visible w g k now : net_ok w → keys k → visible now (nt_groups w g) k = nt_groups w g k.
Proof.
  intros Hok Hk. unfold visible. destruct (nt_groups w g k) as [e|] eqn:E; [|done]. cbn.
  by rewrite (no_plain _ Hok g k e Hk E).
Qed.

Lemma others_unchanged now l : ∀ w, Forall (λ gr : Z * request, ∀ k, write_key gr.2 = Some k → ¬ keys k) l → unchanged w (execute_others now l w).
Proof.
  induction l as [|[g req] l IH]; intros w Hl; [by intros ???|]. apply Forall_cons in Hl as [Hq Hl]. intros g' k Hk.
  cbn [execute_others foldl]. etrans; [by apply IH|]. apply execute_frame. right. intros E. by apply (Hq k).
Qed.
Lemma script_split w : net_ok w → quiet_turn (default calm (head (nt_script w))) ∧ Forall quiet_turn (tail (nt_script w)) ∧
  Forall (λ t, match tn_kind t with Refused e => refusal e | _ => True end) (tail (nt_script w)) ∧
  (∀ e, tn_kind (default calm (head (nt_script w))) = Refused e → refusal e).
Proof.
  intros [H1 H2 _]. unfold script_ok in H1. destruct (nt_script w) as [|t ts]; cbn in *; [by repeat constructor|].
  apply Forall_cons in H1 as [H1 H1'], H2 as [H2 H2']. split_and!; [done..|]. intros e He. by rewrite He in H1.
Qed.
Lemma next_turn_ok w t w' : next_turn w = (t, w') → net_ok w → net_ok w' ∧ unchanged w w' ∧ (∀ e, tn_kind t = Refused e → refusal e).
Proof.
  unfold next_turn. intros [= <- <-] Hok. destruct (script_split w Hok) as (Hq & Hq' & Hr' & Hr). set (w1 := mkNet _ _ _).
  pose proof (others_unchanged (tn_now (default calm (head (nt_script w)))) _ w1 Hq) as Hun.
  destruct (execute_others_later (tn_now (default calm (head (nt_script w)))) (tn_others (default calm (head (nt_script w)))) w1) as [_ Hs].
  split_and!; [|done|done]. split; [unfold script_ok; by rewrite Hs|by rewrite Hs|].
  intros g k e Hk. rewrite Hun by done. by apply (no_plain _ Hok).
Qed.

(** What a call does to the one key of its request. *)
Lemma call_data g req k w w' r : call g req w = (w', r) → net_ok w → (∀ k', write_key req = Some k' → k' = k) →
  script_ok w' ∧ Forall quiet_turn (nt_script w') ∧
  (∀ g' k', keys k' → (g', k') ≠ (g, k) → nt_groups w' g' k' = nt_groups w g' k') ∧
  ∀ Q : option kvEntry → Prop, keys k → Q (nt_groups w g k) → (∀ now m, Q (m k) → Q ((spec_step now now m req).1 k)) →
    Q (nt_groups w' g k) ∧
    match r with
    | Some (inr rep) => ∃ now m, Q (m k) ∧ rep = (spec_step now now m req).2 ∧ nt_groups w' g k = (spec_step now now m req).1 k
    | Some (inl e) => refusal e
    | None => True
    end.
Proof.
  intros Hc Hok Hwk. unfold call in Hc.
  destruct (next_turn w) as [t w1] eqn:E1. destruct (next_turn_ok _ _ _ E1 Hok) as (Hok1 & Hun & Href).
  unfold next_turn in E1. injection E1 as Et Ew. cbv zeta in Hc. rewrite Et in Ew, Hc. rewrite Ew in Hc.
  assert (∀ n, nt_script (execute_lost (tn_now t) g req n w1) = nt_script w1 ∧
    (∀ g' k', keys k' → (g', k') ≠ (g, k) → nt_groups (execute_lost (tn_now t) g req n w1) g' k' = nt_groups w1 g' k') ∧
    ∀ Q : option kvEntry → Prop, Q (nt_groups w1 g k) → (∀ now m, Q (m k) → Q ((spec_step now now m req).1 k)) →
      Q (nt_groups (execute_lost (tn_now t) g req n w1) g k)) as Hlost.
  { unfold execute_lost. induction n as [|n (IH1 & IH2 & IH3)]; [done|]. rewrite Nat.iter_succ. split_and!.
    - by rewrite execute_script.
    - intros g' k' Hk' Hne. rewrite execute_frame; [by apply IH2|]. destruct (decide (g' = g)) as [->|]; [|by left].
      right. intros E. apply Hwk in E. by subst k'.
    - intros Q HQ Hstep. rewrite execute_groups, decide_True by done. apply Hstep. by apply IH3. }
  specialize (Hlost (tn_lost t)). set (w2 := execute_lost _ _ _ _ _) in *. destruct Hlost as (Hs2 & Hf2 & HQ2).
  assert (∀ g' k', keys k' → (g', k') ≠ (g, k) → nt_groups w2 g' k' = nt_groups w g' k') as Hf02 by (intros; rewrite Hf2 by done; by apply Hun).
  assert (script_ok w2 ∧ Forall quiet_turn (nt_script w2)) as [Hok2 Hq2].
  { unfold script_ok. rewrite Hs2. split; apply Hok1. }
  destruct (tn_kind t) as [|e|] eqn:Ek.
  - destruct (execute true (tn_now t) g req w2) as [w3 rep] eqn:E3. injection Hc as <- <-.
    pose proof (execute_script true (tn_now t) g req w2) as Hs3. rewrite E3 in Hs3. cbn in Hs3.
    assert (∀ g' k', nt_groups w3 g' k' = if decide (g' = g) then (spec_step (tn_now t) (tn_now t) (nt_groups w2 g) req).1 k' else nt_groups w2 g' k') as Hg3.
    { intros g' k'. rewrite <-(execute_groups true). by rewrite E3. }
    split_and!; [unfold script_ok; by rewrite Hs3|by rewrite Hs3| |].
    + intros g' k' Hk' Hne. rewrite <-(Hf02 g' k' Hk' Hne), Hg3. case_decide as Hg; [subst g'|done]. apply spec_step_frame. intros Hw%Hwk. by subst.
    + intros Q Hk HQ Hstep. rewrite Hg3, decide_True by done. rewrite <-Hun in HQ by done. specialize (HQ2 Q HQ Hstep). split; [by apply Hstep|].
      exists (tn_now t), (nt_groups w2 g). split_and!; [done| |done]. unfold execute in E3. destruct (spec_step _ _ _ _). by injection E3 as _ <-.
  - injection Hc as <- <-. split_and!; [done..|]. intros Q Hk HQ Hstep. rewrite <-Hun in HQ by done. split; [by apply HQ2|by apply Href].
  - injection Hc as <- <-. split_and!; [done..|]. intros Q Hk HQ Hstep. rewrite <-Hun in HQ by done. split; [by apply HQ2|done].
Qed.

Lemma visible_plain now m k : (∀ e, m k = Some e → ke_Expires e = 0) → visible now m k = m k.
Proof. clear keys. unfold visible. intros H. destruct (m k) as [e|] eqn:E; [|done]. cbn. by rewrite (H e eq_refl). Qed.
Lemma refusal_error e : refusal e → e ≠ OK ∧ errReply e ≠ "OK" ∧ errReply e ≠ "ErrNoKey".
Proof. by intros [->|[->| ->]]. Qed.
Lemma plain_after w w' g k : net_ok w → (∀ g' k', keys k' → (g', k') ≠ (g, k) → nt_groups w' g' k' = nt_groups w g' k') →
  (∀ e, nt_groups w' g k = Some e → ke_Expires e = 0) → script_ok w' → Forall quiet_turn (nt_script w') → net_ok w'.
Proof.
  intros Hok Hf Hk Hs Hq. split; [done..|]. intros g' k' e Hk' He. destruct (decide ((g', k') = (g, k))) as [[= -> ->]|Hne]; [by apply Hk|].
  rewrite Hf in He by done. by eapply (no_plain _ Hok).
Qed.

Lemma net_get_law g k w w' r : of_rpc (net_get g k w) = (w', r) → net_ok w → keys k → net_ok w' ∧ same net_entry keys w w' ∧
  match r with
  | inl _ => True
  | inr resp => (GetResponse_error resp = "OK" → net_entry w g k = Some (GetResponse_value resp, GetResponse_version resp)) ∧
                (GetResponse_error resp = "ErrNoKey" → net_entry w g k = None)
  end.
Proof.
  unfold net_get. destruct (call g _ w) as [w1 r1] eqn:E. intros [= <- <-] Hok Hk.
  destruct (call_data _ _ k _ _ _ E Hok) as (Hs & Hq & Hf & HQ); [done|].
  destruct (HQ (λ e, e = nt_groups w g k) Hk eq_refl) as [He Hr]; [by intros now m ?|].
  assert (net_ok w1) as Hok1 by (eapply plain_after; [done..|intros e; rewrite He; by apply (no_plain _ Hok)|done|done]).
  split; [done|]. split.
  { apply unchanged_same. intros g' k' Hk'. destruct (decide ((g', k') = (g, k))) as [[= -> ->]|Hne]; [done|by apply Hf]. }
  destruct r1 as [[e|rep]|]; cbn; [| |done].
  - destruct (refusal_error e Hr) as (H1 & H2 & H3). unfold grpc_Get, submitted. rewrite decide_True by done. cbn. by split.
  - destruct Hr as (now & m & Hm & -> & _). cbn [spec_step snd GetArgs_Key].
    rewrite (visible_plain now m k) by (intros e; rewrite Hm; by apply (no_plain _ Hok)). rewrite Hm. unfold net_entry. destruct (nt_groups w g k) as [e|]; cbn; by split.
Qed.

Lemma net_delete_law g k w w' r : of_rpc (net_delete g k w) = (w', r) → net_ok w → keys k → net_ok w' ∧
  changes net_entry keys g k w w' (.= None) ∧
  match r with
  | inl _ => True
  | inr resp => DeleteResponse_error resp = "OK" ∨ DeleteResponse_error resp = "ErrNoKey" → net_entry w' g k = None
  end.
Proof.
  unfold net_delete. destruct (call g _ w) as [w1 r1] eqn:E. intros [= <- <-] Hok Hk.
  destruct (call_data _ _ k _ _ _ E Hok) as (Hs & Hq & Hf & HQ); [by intros ? [= <-]|].
  destruct (HQ (λ e, e = nt_groups w g k ∨ e = None) Hk ltac:(by left)) as [He Hr].
  { intros now m Hm. cbn. destruct (visible now m k) as [e|] eqn:Ev; cbn; [|done]. unfold aset. rewrite decide_True by done. by right. }
  assert (net_ok w1) as Hok1 by (eapply plain_after; [done..| |done|done]; intros e; destruct He as [->| ->]; [by apply (no_plain _ Hok)|done]).
  split; [done|]. split.
  { split; [intros g' k' Hk' Hne; unfold net_entry; by rewrite Hf|]. unfold net_entry. destruct He as [->| ->]; [by left|by right]. }
  destruct r1 as [[e|rep]|]; cbn; [| |done].
  - destruct (refusal_error e Hr) as (H1 & H2 & H3). unfold grpc_Delete, submitted. rewrite decide_True by done. cbn. by intros [?|?].
  - destruct Hr as (now & m & Hm & -> & Hw). cbn in Hw. intros _. unfold net_entry. rewrite Hw.
    destruct (visible now m k) as [e|] eqn:Ev; cbn; [unfold aset; by rewrite decide_True by done|].
    rewrite (visible_plain now m k) in Ev; [by rewrite Ev|]. intros e. destruct Hm as [->| ->]; [by apply (no_plain _ Hok)|done].
Qed.

Lemma net_put_law g k v ver w w' r :
  of_rpc (net_put g {| PutRequest_key := k; PutRequest_value := v; PutRequest_version := ver; PutRequest_ttl_seconds := 0 |} w) = (w', r) →
  net_ok w → keys k → net_ok w' ∧ changes net_entry keys g k w w' (holds v) ∧
  match r with inl _ => True | inr resp => PutResponse_error resp = "OK" → holds v (net_entry w' g k) end.
Proof.
  unfold net_put. cbn [PutRequest_key PutRequest_value PutRequest_version PutRequest_ttl_seconds].
  destruct (call g _ w) as [w1 r1] eqn:E. intros [= <- <-] Hok Hk.
  destruct (call_data _ _ k _ _ _ E Hok) as (Hs & Hq & Hf & HQ); [by intros ? [= <-]|].
  assert (∀ now m, match (spec_step now now m (ReqPut {| PutArgs_Key := k; PutArgs_Value := v; PutArgs_Version := ver; PutArgs_TTL := 0 |})) with
    | (m', Some (RepPut rep)) => (PutReply_Err rep = OK ∧ ∃ n, m' k = Some {| ke_Value := v; ke_Version := n; ke_Expires := 0 |}) ∨
        (PutReply_Err rep ≠ OK ∧ m' k = m k) | _ => False end) as Hstep.
  { intros now m. cbn. destruct (visible now m k) as [c|]; cbn; case_decide; cbn; try (by right); left; split; try done;
      unfold aset; rewrite decide_True by done; eexists; done. }
  destruct (HQ (λ e, e = nt_groups w g k ∨ ∃ n, e = Some {| ke_Value := v; ke_Version := n; ke_Expires := 0 |}) Hk ltac:(by left)) as [He Hr].
  { intros now m Hm. specialize (Hstep now m). destruct (spec_step _ _ _ _) as [m' [[]|]]; try done. cbn. destruct Hstep as [[_ ?]|[_ ->]]; auto. }
  assert (net_ok w1) as Hok1.
  { eapply plain_after; [done..| |done|done]. intros e. destruct He as [->|[n ->]]; [by apply (no_plain _ Hok)|by intros [= <-]]. }
  split; [done|]. split.
  { split; [intros g' k' Hk' Hne; unfold net_entry; by rewrite Hf|]. unfold net_entry. destruct He as [->|[n ->]]; [by left|by right]. }
  destruct r1 as [[e|rep]|]; cbn [fmap option_fmap option_map]; [| |done].
  - destruct (refusal_error e Hr) as (H1 & H2 & H3). unfold grpc_Put, submitted. rewrite decide_True by done. done.
  - destruct Hr as (now & m & Hm & -> & Hw). specialize (Hstep now m). unfold grpc_Put, submitted.
    destruct (spec_step _ _ _ _) as [m' [[]|]]; try done. cbn in Hw |- *. unfold net_entry. rewrite Hw.
    destruct Hstep as [[_ [n ->]]|[Hne _]]; [done|]. rewrite decide_False by naive_solver. cbn. intros Herr. destruct Hne. match goal with |- ?e = _ => rewrite <-(mapPBErr_errReply e), Herr end. done.
Qed.

Lemma omap_keys (f : string → option KeyValue) l : NoDup l → (∀ k x, f k = Some x → kv_key x = k) → NoDup (kv_key <$> omap f l).
Proof.
  clear keys. intros Hnd Hf. induction l as [|k l IH]; [constructor|]. apply NoDup_cons in Hnd as [Hni Hnd]. cbn.
  destruct (f k) as [x|] eqn:E; [|by apply IH]. cbn. apply NoDup_cons. split; [|by apply IH]. rewrite (Hf k x E).
  intros (y & Hy & Hin)%list_elem_of_fmap. apply list_elem_of_omap in Hin as (k' & Hk' & E'). apply Hf in E'. by subst.
Qed.

Lemma net_router_lawful universe : NoDup universe → (∀ k, keys k → k ∈ universe) → lawful_router net_ok net_entry keys (net_router universe).
Proof.
  intros Hnd Huni. split; cbn [net_router ro_get ro_put ro_delete ro_scan].
  - apply net_get_law.
  - apply net_put_law.
  - apply net_delete_law.
  - intros g prefix w w' r H Hok. unfold net_scan in H. destruct (next_turn w) as [t w1] eqn:E.
    destruct (next_turn_ok _ _ _ E Hok) as (Hok1 & Hun & _). apply unchanged_same in Hun as Hs.
    destruct (tn_kind t); [|by injection H as <- <-..]. rewrite decide_False in H by lia. injection H as <- <-.
    split; [done|]. split; [done|]. split.
    + apply omap_keys; [done|]. intros k x. destruct (has_prefix prefix k); [|done]. destruct (visible _ _ k); [|done]. by intros [= <-].
    + intros k Hk Hp v n. rewrite <-(Hs g k Hk). unfold net_entry. split.
      * destruct (nt_groups w1 g k) as [e|] eqn:Ee; [|done]. intros [= <- <-].
        exists {| kv_key := k; kv_value := ke_Value e; kv_version := wrapS64 (ke_Version e); kv_expires := ke_Expires e |}.
        split; [|done]. apply list_elem_of_omap.
        exists k. split; [by apply Huni|]. rewrite Hp, (plain_visible w1) by done. by rewrite Ee.
      * intros (x & (k' & _ & Hx)%list_elem_of_omap & Hkey & Hv & Hn). destruct (has_prefix prefix k'); [|done].
        destruct (visible (tn_now t) (nt_groups w1 g) k') as [e|] eqn:Ee; [|done]. injection Hx as <-. cbn in *. subst k'.
        rewrite (plain_visible w1) in Ee by done. by rewrite Ee, <-Hv, <-Hn.
Qed.

Lemma cleanup_step g cks w : let w' := (execute_cleanup g cks w).1 in
  nt_script w' = nt_script w ∧ (∀ g' k, nt_groups w' g' k = nt_groups w g' k ∨ nt_groups w' g' k = None) ∧
  (if decide ((execute_cleanup g cks w).2 = OK) then cleaned net_entry keys g cks w w' else same net_entry keys w w').
Proof.
  unfold execute_cleanup, spec_cleanup. destruct (decide (Forall _ cks)); cbn; (split; [done|]); (split; [|]).
  - intros g' k. unfold set_group. case_decide; [subst g'|by left]. case_decide; auto.
  - intros g' k Hk. unfold net_entry. cbn. unfold set_group. repeat case_decide; naive_solver.
  - intros g' k. unfold set_group. case_decide; [subst g'|]; by left.
  - intros g' k Hk. unfold net_entry. cbn. unfold set_group. case_decide; [by subst g'|done].
Qed.
Lemma cleaned_again g cks w w' w'' : cleaned net_entry keys g cks w w' → (same net_entry keys w' w'' ∨ cleaned net_entry keys g cks w' w'') →
  cleaned net_entry keys g cks w w''.
Proof.
  intros H1 H2 g' k Hk. pose proof (H1 g' k Hk) as H1'. destruct H2 as [H2|H2]; rewrite (H2 g' k Hk), H1'; by case_decide.
Qed.
Lemma cleanup_ok g cks w : net_ok w → net_ok (execute_cleanup g cks w).1 ∧
  (same net_entry keys w (execute_cleanup g cks w).1 ∨ cleaned net_entry keys g cks w (execute_cleanup g cks w).1).
Proof.
  intros Hok. destruct (cleanup_step g cks w) as (Hs & Hg & Hc). split; [|case_decide; auto].
  split; [unfold script_ok; rewrite Hs; apply Hok|rewrite Hs; apply Hok|].
  intros g' k e Hk He. destruct (Hg g' k) as [Hg'|Hg']; rewrite Hg' in He; [by eapply (no_plain _ Hok)|done].
Qed.
Lemma net_server_lawful states g : lawful_server net_ok net_entry keys g (net_server states g).
Proof.
  split; cbn [net_server so_set so_states so_cleanup].
  - intros req w w' r. destruct (next_turn w) as [t w1] eqn:E. intros [= <- _] Hok.
    destruct (next_turn_ok _ _ _ E Hok) as (Hok1 & Hun & _). split; [done|by apply unchanged_same].
  - intros w w' r. destruct (next_turn w) as [t w1] eqn:E. intros [= <- _] Hok.
    destruct (next_turn_ok _ _ _ E Hok) as (Hok1 & Hun & _). split; [done|by apply unchanged_same].
  - intros _ cks w w' r H Hok. unfold net_cleanup in H. destruct (next_turn w) as [t w1] eqn:E.
    destruct (next_turn_ok _ _ _ E Hok) as (Hok1 & Hun & Href). apply unchanged_same in Hun.
    set (w2 := Nat.iter _ _ w1) in H.
    assert (net_ok w2 ∧ (same net_entry keys w1 w2 ∨ cleaned net_entry keys g cks w1 w2)) as [Hok2 Hc2].
    { unfold w2. clear H w2 Href E. induction (tn_lost t) as [|n [IH1 IH2]]; [split; [done|left; apply same_refl]|]. rewrite Nat.iter_succ.
      destruct (cleanup_ok g cks _ IH1) as [H1 H2]. split; [done|]. destruct IH2 as [IH2|IH2]; [|right; by eapply cleaned_again].
      destruct H2 as [H2|H2]; [left; by eapply same_trans|]. right. intros g' k Hk. rewrite (H2 g' k Hk). by rewrite (IH2 g' k Hk). }
    assert (∀ w3, cleaned net_entry keys g cks w1 w3 → cleaned net_entry keys g cks w w3) as Hc.
    { intros w3 Hc g' k Hk. rewrite (Hc g' k Hk). by rewrite (Hun g' k Hk). }
    assert (same net_entry keys w w2 ∨ cleaned net_entry keys g cks w w2) as Hc02.
    { destruct Hc2 as [Hc2|Hc2]; [left; by eapply same_trans|right; by apply Hc]. }
    destruct (tn_kind t) as [|e|].
    + destruct (execute_cleanup g cks w2) as [w3 e] eqn:E3. injection H as <- <-.
      destruct (cleanup_ok g cks w2 Hok2) as [Hok3 H3]. pose proof (cleanup_step g cks w2) as (_ & _ & Hstep). rewrite E3 in Hok3, H3, Hstep. cbn in Hok3, H3, Hstep.
      assert (∀ w4, cleaned net_entry keys g cks w2 w4 → cleaned net_entry keys g cks w w4) as Hc4.
      { intros w4 Hw4. destruct Hc02 as [Hs|Hcl]; [|by eapply cleaned_again; [|right]]. intros g' k Hk. rewrite (Hw4 g' k Hk). by rewrite (Hs g' k Hk). }
      split; [done|]. split.
      * destruct H3 as [H3|H3]; [|right; by apply Hc4]. destruct Hc02 as [Hs|Hcl]; [left; by eapply same_trans|right; by eapply cleaned_again; [|left]].
      * cbn. intros He. apply Hc4. rewrite decide_True in Hstep; [done|]. rewrite <-(mapPBErr_errReply e), He. done.
    + injection H as <- <-. split; [done|]. split; [done|]. cbn. intros He. by destruct (refusal_error e (Href e eq_refl)) as (_ & ? & _).
    + injection H as <- <-. done.
Qed.
End laws.

(** ** Runs *)

Definition mg_entry (v : string) (n : Z) : option kvEntry := Some {| ke_Value := v; ke_Version := n; ke_Expires := 0 |}.
(** Group 1 holds [k] and [a], group 2 an old value of [a]. *)
Definition mg_groups : Z → amap := λ g key,
  if decide (g = 1 ∧ key = "k") then mg_entry "v" 5 else if decide (g = 1 ∧ key = "a") then mg_entry "new" 7
  else if decide (g = 2 ∧ key = "a") then mg_entry "old" 3 else None.
Definition mg_universe : list string := ["a"; "k"].
Definition mg_net (kinds : list answer_kind) : net :=
  mkNet mg_groups ((λ kind, {| tn_others := [(1, ReqDelete {| DeleteArgs_Key := "z" |})]; tn_lost := 0; tn_kind := kind; tn_now := 10 |}) <$> kinds) [].
Definition mg_resolve (key : string) : Z := if decide (key = "z") then 1 else 2.
Definition mg_router : router_ops net := net_router mg_universe.
Definition mg_plan (w : net) : list MigrationPlanItem :=
  match (BuildPlan mg_router mg_resolve "" 0 [1; 2] w).2 with inl _ => [] | inr plan => plan end.
Definition mg_run (kinds : list answer_kind) : net * MigrationStats * option string :=
  ExecutePlan mg_router mg_router (λ _, None) (mg_plan (mg_net [])) true (mg_net kinds).
Definition mg_keys (k : string) : Prop := k ∈ mg_universe.

Lemma mg_lawful : lawful_router (net_ok mg_keys) net_entry mg_keys mg_router.
Proof. apply net_router_lawful; [|done]. apply (bool_decide_unpack _). by vm_compute. Qed.
Lemma mg_net_ok kinds : Forall (λ k, match k with Refused e => refusal e | _ => True end) kinds → net_ok mg_keys (mg_net kinds).
Proof.
  intros H. split; [by apply Forall_fmap| |].
  - apply Forall_fmap, Forall_true. intros kind. constructor; [|constructor]. intros k [= <-] Hk. unfold mg_keys in Hk. by set_unfold in Hk; destruct Hk as [|[|]].
  - intros g k e _. cbn. unfold mg_groups. repeat case_decide; by try intros [= <-].
Qed.
Definition mg_faults : list answer_kind := [Answered; Answered; Answered; Answered; NoAnswer].

Lemma execute_plan_outcome_witness :
  let w := mg_net mg_faults in let r := mg_run mg_faults in let plan := mg_plan (mg_net []) in
  Forall (item_effect net_entry true w r.1.1) plan ∧ outside net_entry mg_keys plan w r.1.1.
Proof.
  intros w r plan.
  assert (NoDup (mp_Key <$> plan)) as Hnd by (apply (bool_decide_unpack _); by vm_compute).
  assert (Forall (movable mg_keys) plan) as Hmov.
  { assert (plan = mg_plan (mg_net [])) as -> by done. vm_compute. repeat constructor; vm_compute; try done. }
  destruct (execute_plan_outcome (net_ok mg_keys) net_entry mg_keys mg_router mg_router mg_lawful mg_lawful (λ _, None) plan true
    w r.1.1 r.1.2 r.2 ltac:(unfold r, mg_run; fold w plan; by destruct (ExecutePlan _ _ _ _ _ _) as [[]]) (mg_net_ok mg_faults ltac:(by repeat constructor)) Hnd Hmov)
    as (H1 & H2 & _).
  by split.
Defined.
(** Without faults the plan is carried out. *)
Lemma mg_run_done : let r := mg_run [] in
  r.2 = None ∧ net_entry r.1.1 2 "k" = Some ("v", 1) ∧ net_entry r.1.1 2 "a" = Some ("new", 4) ∧
  net_entry r.1.1 1 "k" = None ∧ net_entry r.1.1 1 "a" = None.
Proof. by vm_compute. Qed.

Lemma build_plan_exact_witness :
  let w := mg_net [] in let r := BuildPlan mg_router mg_resolve "" 0 [1; 2] w in
  StronglySorted plan_le (mg_plan w) ∧
  {| mp_Key := "k"; mp_Value := "v"; mp_Version := 5; mp_SourceGroup := 1; mp_TargetGroup := 2 |} ∈ mg_plan w.
Proof.
  intros w r.
  destruct (build_plan_exact (net_ok mg_keys) net_entry mg_keys mg_router mg_resolve "" 0 mg_lawful [1; 2] w r.1 (mg_plan w)
    ltac:(unfold mg_plan, r; destruct (BuildPlan _ _ _ _ _ w) as [w1 [e|p]] eqn:E; [|done];
          exfalso; apply (f_equal (λ r, match r.2 with inl _ => true | inr _ => false end)) in E; vm_compute in E; done)
    (mg_net_ok [] ltac:(constructor))) as (_ & Hs & _ & Hin).
  split; [done|]. apply Hin; [by vm_compute; right; left|done|done|]. unfold planned. cbn. split_and!; [left|by vm_compute|done|done].
Defined.

(** A value is lost: the source's entry is deleted and this is acknowledged, but
    the read that verifies it fails; the error makes the migrator roll back, which
    deletes the copy. *)
Theorem migration_loses_key :
  let r := mg_run [Answered; Answered; Answered; Answered; Answered; Answered; Answered; Answered;
                   Answered; Answered; Answered; Answered; Answered; NoAnswer] in
  net_entry (mg_net []) 1 "k" = Some ("v", 5) ∧ net_entry r.1.1 1 "k" = None ∧ net_entry r.1.1 2 "k" = None ∧
  ms_LastErrorMessage r.1.2 = "rpc error; rollback applied".
Proof. by vm_compute. Qed.

(** Both keys are in shard 7, every other key is in shard 8. *)
Definition mg_hash (key : string) : Z := if decide (key ∈ mg_universe) then 7 else 8.
Definition mg_states : list ShardStateEntry := [{| sse_shard_id := 7; sse_state := OWNED; sse_target_group := 0 |}].
Definition mg_source_router : ShardRouter :=
  mkRouter {| sc_Groups := []; sc_NumShards := 0; sc_VirtualNodeCount := 0; sc_PreferredReplicas := 0; sc_ConnectTimeout := 0;
              sc_RequestTimeout := 0; sc_ShardToGroup := []; sc_TopologyEpoch := 0 |} None ∅ ∅ ∅ ∅ ∅ 0.
Definition mg_online (kinds : list answer_kind) : net * ShardRouter * option string :=
  MigrateShardOnline mg_hash mg_router mg_router (inr (net_server mg_states 1)) (inr (net_server mg_states 2)) mg_source_router 0 7 1 2 []
    "" (mg_net kinds).
Lemma mg_concerns k : concerns mg_hash (TopologyNumShards mg_source_router) 7 "" k = true → mg_keys k.
Proof.
  unfold concerns, shardKey, mg_hash. intros [H _]%andb_true_iff. apply bool_decide_eq_true in H. by destruct (decide (k ∈ mg_universe)).
Qed.
(** The verification of the second copy fails: the first copy is rolled back and
    the source keeps everything. *)
Definition mg_online_faults : list answer_kind :=
  [Answered; Answered; Answered; Answered; Answered; Answered; Answered; Answered; Answered; Answered; Answered; Answered; NoAnswer].
Lemma online_migration_safe_witness :
  let r := mg_online mg_online_faults in
  r.2 ≠ None ∧ net_entry r.1.1 2 "a" = Some ("old", 5) ∧
  online_outcome (net_ok mg_keys) net_entry mg_keys mg_hash 1024 7 1 2 "" (mg_net mg_online_faults) r.1.1 r.2.
Proof.
  intros r. split; [by vm_compute|]. split; [by vm_compute|].
  refine (online_migration_safe (net_ok mg_keys) net_entry mg_keys mg_hash mg_router mg_router (inr (net_server mg_states 1)) (inr (net_server mg_states 2))
    mg_source_router 0 7 1 2 [] "" (mg_net mg_online_faults) r.1.1 r.1.2 r.2 mg_lawful mg_lawful _ _ _ mg_concerns _ _).
  - intros S [= <-]. apply net_server_lawful.
  - intros S [= <-]. apply net_server_lawful.
  - done.
  - apply mg_net_ok. by repeat constructor.
  - unfold r, mg_online. by destruct (MigrateShardOnline _ _ _ _ _ _ _ _ _ _ _ _ _) as [[]].
Defined.
(** Without faults the shard moves. *)
Lemma mg_online_done : let r := mg_online [] in
  r.2 = None ∧ net_entry r.1.1 2 "k" = Some ("v", 1) ∧ net_entry r.1.1 2 "a" = Some ("new", 4) ∧
  net_entry r.1.1 1 "k" = None ∧ net_entry r.1.1 1 "a" = None.
Proof. by vm_compute. Qed.

(** Routers and migrators count as many shards as they are configured with, servers
    always 1024: with 16 shards a key with hash 20 is in shard 4 for the migrator,
    but the server refuses to clean it up there. *)
Theorem shard_count_mismatch :
  shardKey (λ _, 20) "k" 16 = 4 ∧
  cleanup_ops (λ _, 20) 4 [{| CleanupShardKey_Key := "k"; CleanupShardKey_ExpectedVersion := 1 |}] = None.
Proof. by vm_compute. Qed.
