(* ===== verification/KvMigrate.v ===== *)
(** * cmd/kvmigrate/main.go: the migration tool

    The configuration files are JSON documents, the runtime metadata a text.  The
    calls of a router, the connections to servers and the clock are arguments; the
    result is the exit code with the file that was written.  [None] is a panic of
    [NewShardRouter]. *)
From stdpp Require Import prelude gmap sorting strings pretty.
From stdpp Require Import options.
From S2P Require Import Prelude Json KvApi Topology Pb Router Migrator.
Local Open Scope Z_scope.

(** ** Configuration files *)

(** A nil slice is null. *)
Definition marshal_replicas (l : list string) : json := if decide (l = []) then JNull else JArr (JStr <$> l).
Definition marshal_jsonGroup (g : RaftGroupConfig) : json :=
  JObj (members [("group_id", false, JNum (rg_GroupID g)); ("replicas", false, marshal_replicas (rg_Replicas g));
                 ("leader_idx", false, JNum (rg_LeaderIdx g))]).
(** The document [writeConfig] writes. *)
Definition writeConfig (cfg : ShardingConfig) : json :=
  JObj (members
    [("groups", false, JArr (marshal_jsonGroup <$> sc_Groups cfg));
     ("virtual_node_count", false, JNum (sc_VirtualNodeCount cfg));
     ("connect_timeout_ms", false, JNum (ms (sc_ConnectTimeout cfg)));
     ("request_timeout_ms", false, JNum (ms (sc_RequestTimeout cfg)));
     ("preferred_replicas", false, JNum (sc_PreferredReplicas cfg));
     ("num_shards", false, JNum (sc_NumShards cfg));
     ("shard_to_group", bool_decide (sc_ShardToGroup cfg = []), JArr (JNum <$> sc_ShardToGroup cfg));
     ("topology_epoch", bool_decide (sc_TopologyEpoch cfg = 0), JNum (sc_TopologyEpoch cfg))]).

Definition unmarshal_jsonGroup (j : json) : option RaftGroupConfig :=
  m ← as_struct j;
  gid ← as_int64 (jfield "group_id" m); replicas ← as_slice as_string_elem (jfield "replicas" m);
  leader ← as_int64 (jfield "leader_idx" m);
  Some {| rg_GroupID := gid; rg_Replicas := replicas; rg_LeaderIdx := leader |}.
Definition timeout_of (ms : Z) : Z := if decide (0 < ms) then wrapS64 (ms * 1000000) else 0.
(** [content] is the file, [None] if it cannot be read. *)
Definition loadConfig (content : option json) : option ShardingConfig :=
  j ← content; m ← as_struct j;
  groups ← as_slice unmarshal_jsonGroup (jfield "groups" m);
  vnodes ← as_int64 (jfield "virtual_node_count" m);
  connect ← as_int64 (jfield "connect_timeout_ms" m);
  request ← as_int64 (jfield "request_timeout_ms" m);
  preferred ← as_int64 (jfield "preferred_replicas" m);
  num ← as_int64 (jfield "num_shards" m);
  owners ← as_slice as_int64_elem (jfield "shard_to_group" m);
  epoch ← as_int64 (jfield "topology_epoch" m);
  Some {| sc_Groups := groups; sc_NumShards := num; sc_VirtualNodeCount := vnodes; sc_PreferredReplicas := preferred;
          sc_ConnectTimeout := timeout_of connect; sc_RequestTimeout := timeout_of request;
          sc_ShardToGroup := owners; sc_TopologyEpoch := epoch |}.

(** ** Runtime metadata *)

Definition newline : Ascii.ascii := Ascii.ascii_of_nat 10.
Definition equals_sign : Ascii.ascii := Ascii.ascii_of_nat 61.
Definition comma : Ascii.ascii := Ascii.ascii_of_nat 44.
(** [strings.Split] at a character: never empty. *)
Fixpoint Split (c : Ascii.ascii) (s : string) : list string :=
  match s with
  | EmptyString => [EmptyString]
  | String a s =>
      if decide (a = c) then EmptyString :: Split c s
      else match Split c s with [] => [String a EmptyString] | x :: l => String a x :: l end
  end.
(** The parts before and after the first occurrence. *)
Fixpoint cut_at (c : Ascii.ascii) (s : string) : option (string * string) :=
  match s with
  | EmptyString => None
  | String a s => if decide (a = c) then Some (EmptyString, s) else '(x, y) ← cut_at c s; Some (String a x, y)
  end.
Definition metadata_line (meta : gmap string string) (line : string) : gmap string string :=
  let line := TrimSpace line in
  if decide (line = "") then meta
  else if has_prefix "#" line then meta
  else match cut_at equals_sign line with
       | Some (name, val) => if decide (name = "") then meta else <[TrimSpace name := TrimSpace val]> meta
       | None => meta
       end.
Definition loadRuntimeMetadata (raw : option string) : gmap string string :=
  match raw with None => ∅ | Some raw => foldl metadata_line ∅ (Split newline raw) end.

(** ** Flags *)

Record flags := {
  fl_source : string; fl_target : string; fl_prefix : string; fl_limit : Z; fl_dryRun : bool; fl_deleteSource : bool;
  fl_online : bool; fl_shard : Z; fl_sourceGroup : Z; fl_targetGroup : Z;
  fl_expandGroup : Z; fl_expandReplicas : string; fl_output : string }.
(** The two configuration files; [None] prints the usage. *)
Definition config_paths (meta : gmap string string) (f : flags) : option (string * string) :=
  let from_meta name path :=
    if decide (TrimSpace path = "") then
      let p := TrimSpace (default "" (meta !! name)) in if decide (p ≠ "") then p else path
    else path in
  let source := from_meta "SHARDING_CONFIG" (fl_source f) in
  let target := from_meta "SHARDING_NEXT_CONFIG" (fl_target f) in
  let target := if decide (TrimSpace target = "" ∧ TrimSpace source ≠ "") then source else target in
  if decide (source = "" ∨ target = "") then None else Some (source, target).
Definition containsGroup (cfg : ShardingConfig) (gid : Z) : bool := bool_decide (gid ∈ rg_GroupID <$> sc_Groups cfg).

(** ** The commands *)

Section main.
Context {W : Type} (Sum64String : string → Z) (dial : string → bool) (now : Z).
(** The calls of a router and its connections to the leader of a group. *)
Variable ops : ShardRouter → router_ops W.
Variable connect : ShardRouter → Z → string + server_ops W.
Variable cancelled : W → option string.
(** Whether a file can be written. *)
Variable writable : string → bool.

Definition exit_with (code : Z) (w : W) : W * (Z * option (string * json)) := (w, (code, None)).

(** The loop over the shards that move; the exit code is 1 for an error. *)
Fixpoint expand_shards (target : ShardRouter) (gid : Z) (prefix : string) (moved : list nat) (r : ShardRouter) (w : W) : W * bool :=
  match moved with
  | [] => (w, true)
  | shard :: moved =>
      let '(sourceGroup, ok) := router_GroupForShard r (Z.of_nat shard) in
      if negb ok then (w, false)
      else
        let '(w, r, err) := MigrateShardOnline Sum64String (ops r) (ops target) (connect r sourceGroup) (connect target gid) r
                              (TopologyEpoch target) (Z.of_nat shard) sourceGroup gid (groupReplicaAddrs target gid) prefix w in
        match err with
        | Some _ => (w, false)
        | None => expand_shards target gid prefix moved r w
        end
  end.
Definition expanded_config (cfg : ShardingConfig) (r : ShardRouter) (gid : Z) (replicas : list string) (owners : list Z) : ShardingConfig :=
  {| sc_Groups := sc_Groups cfg ++ [{| rg_GroupID := gid; rg_Replicas := replicas; rg_LeaderIdx := 0 |}];
     sc_NumShards := TopologyNumShards r; sc_VirtualNodeCount := sc_VirtualNodeCount cfg;
     sc_PreferredReplicas := sc_PreferredReplicas cfg; sc_ConnectTimeout := sc_ConnectTimeout cfg;
     sc_RequestTimeout := sc_RequestTimeout cfg; sc_ShardToGroup := owners; sc_TopologyEpoch := wrapS64 (TopologyEpoch r + 1) |}.
Definition expand (f : flags) (cfg : ShardingConfig) (r : ShardRouter) (w : W) : option (W * (Z * option (string * json))) :=
  let gid := fl_expandGroup f in
  if decide (TrimSpace (fl_expandReplicas f) = "" ∨ TrimSpace (fl_output f) = "") then Some (exit_with 2 w)
  else if containsGroup cfg gid then Some (exit_with 2 w)
  else
    let replicas := TrimSpace <$> Split comma (fl_expandReplicas f) in
    plan ← router_PlanAddGroup r gid replicas;
    match plan with
    | None => Some (exit_with 1 w)
    | Some (owners, moved) =>
        if decide (owners = []) then Some (exit_with 1 w)
        else
          let expandedCfg := expanded_config cfg r gid replicas owners in
          res ← NewShardRouter dial now expandedCfg;
          match res with
          | inl _ => Some (exit_with 1 w)
          | inr expandedRouter =>
              let '(w, ok) := expand_shards expandedRouter gid (fl_prefix f) moved r w in
              Some (if ok && writable (fl_output f) then (w, (0, Some (fl_output f, writeConfig expandedCfg))) else exit_with 1 w)
          end
    end.

Definition migrate_online (f : flags) (sourceCfg targetCfg : ShardingConfig) (source target : ShardRouter) (w : W)
    : W * (Z * option (string * json)) :=
  if decide (fl_sourceGroup f = fl_targetGroup f) then exit_with 2 w
  else if decide (TopologyNumShards source ≤ fl_shard f) then exit_with 2 w
  else if negb (containsGroup sourceCfg (fl_sourceGroup f)) || negb (containsGroup targetCfg (fl_targetGroup f)) then exit_with 2 w
  else if fl_dryRun f then exit_with 0 w
  else
    let '(w, _, err) := MigrateShardOnline Sum64String (ops source) (ops target) (connect source (fl_sourceGroup f))
                          (connect target (fl_targetGroup f)) source (TopologyEpoch target) (fl_shard f) (fl_sourceGroup f)
                          (fl_targetGroup f) (groupReplicaAddrs target (fl_targetGroup f)) (fl_prefix f) w in
    exit_with (if err then 1 else 0) w.
(** A target router of a configuration always resolves, see [resolve_known]. *)
Definition migrate_plan (f : flags) (source target : ShardRouter) (w : W) : W * (Z * option (string * json)) :=
  let '(w, res) := BuildPlan (ops source) (λ key, default (-1) (router_Resolve Sum64String target key)) (fl_prefix f) (fl_limit f)
                     (router_GroupIDs source) w in
  match res with
  | inl _ => exit_with 1 w
  | inr plan =>
      if fl_dryRun f then exit_with 0 w
      else
        let '(w, _, err) := ExecutePlan (ops source) (ops target) cancelled plan (fl_deleteSource f) w in
        exit_with (if err then 1 else 0) w
  end.

(** [read] gives the content of a configuration file. *)
Definition main (raw : option string) (read : string → option json) (f : flags) (w : W) : option (W * (Z * option (string * json))) :=
  match config_paths (loadRuntimeMetadata raw) f with
  | None => Some (exit_with 2 w)
  | Some (sourcePath, targetPath) =>
  if fl_online f && bool_decide (fl_shard f < 0 ∨ fl_sourceGroup f < 0 ∨ fl_targetGroup f < 0) then Some (exit_with 2 w)
  else
  match loadConfig (read sourcePath), loadConfig (read targetPath) with
  | Some sourceCfg, Some targetCfg =>
      res ← NewShardRouter dial now sourceCfg;
      match res with
      | inl _ => Some (exit_with 1 w)
      | inr source =>
          res ← NewShardRouter dial now targetCfg;
          match res with
          | inl _ => Some (exit_with 1 w)
          | inr target =>
              if decide (0 ≤ fl_expandGroup f) then expand f sourceCfg source w
              else if fl_online f then Some (migrate_online f sourceCfg targetCfg source target w)
              else Some (migrate_plan f source target w)
          end
      end
  | _, _ => Some (exit_with 1 w)
  end
  end.
End main.
