(* ===== verification/KvMigrateProps.v ===== *)
(** * Expanding the cluster

    The configuration files of the migration tool survive writing and loading, and
    an expansion that succeeds leaves a configuration under which every key it
    was asked to move is routed to its data. *)
From stdpp Require Import prelude gmap sorting strings pretty.
From stdpp Require Import options.
From S2P Require Import Prelude Json KvApi ExpiryHeap Store Server ServerProps Topology TopologyProps Pb Router RouterProps Net ClientProps Migrator MigratorProps MigratorOnline MigratorNet KvMigrate.
Local Open Scope Z_scope.

(** ** Configuration files *)

(** Numbers of type int, timeouts of whole milliseconds. *)
Record config_writable (cfg : ShardingConfig) : Prop := {
  cw_groups : Forall (λ g, isS64 (rg_GroupID g) ∧ isS64 (rg_LeaderIdx g)) (sc_Groups cfg);
  cw_shards : isS64 (sc_NumShards cfg); cw_virtual : isS64 (sc_VirtualNodeCount cfg); cw_preferred : isS64 (sc_PreferredReplicas cfg);
  cw_connect : ∃ n, sc_ConnectTimeout cfg = n * 1000000 ∧ 0 ≤ n ∧ n * 1000000 < 2 ^ 63;
  cw_request : ∃ n, sc_RequestTimeout cfg = n * 1000000 ∧ 0 ≤ n ∧ n * 1000000 < 2 ^ 63;
  cw_owners : Forall isS64 (sc_ShardToGroup cfg); cw_epoch : isS64 (sc_TopologyEpoch cfg) }.

Lemma timeout_whole n : 0 ≤ n → n * 1000000 < 2 ^ 63 → isS64 (Z.quot (n * 1000000) 1000000) ∧ timeout_of (Z.quot (n * 1000000) 1000000) = n * 1000000.
Proof.
  intros H1 H2. rewrite Z.quot_mul by lia. unfold timeout_of, isS64. split; [lia|].
  destruct (decide (0 < n)); [apply wrapS64_id; unfold isS64; lia|lia].
Qed.
Lemma field_at fs : NoDup fs.*1.*1 → ∀ (i : nat) n (b : bool) j, fs !! i = Some (n, b, j) → jfield n (members fs) = if b then None else Some j.
Proof. intros Hnd i n b j H. apply jfield_members; [done|]. by eapply list_elem_of_lookup_2. Qed.
Lemma group_roundtrip g : isS64 (rg_GroupID g) → isS64 (rg_LeaderIdx g) → unmarshal_jsonGroup (marshal_jsonGroup g) = Some g.
Proof.
  intros H1 H2. unfold unmarshal_jsonGroup, marshal_jsonGroup. cbn [as_struct mbind option_bind]. set (fs := [_; _; _]).
  assert (NoDup fs.*1.*1) as Hnd by (apply (bool_decide_unpack _); by vm_compute).
  rewrite (field_at fs Hnd 0 "group_id" _ _ eq_refl), (field_at fs Hnd 1 "replicas" _ _ eq_refl), (field_at fs Hnd 2 "leader_idx" _ _ eq_refl).
  rewrite !as_int64_num by done. cbn [mbind option_bind].
  assert (as_slice as_string_elem (Some (marshal_replicas (rg_Replicas g))) = Some (rg_Replicas g)) as ->; [|by destruct g].
  unfold marshal_replicas. case_decide as E; [by rewrite E|]. apply as_slice_arr. by apply Forall_true.
Qed.

(** A configuration that the tool writes is the one it loads. *)
Lemma config_reloaded cfg : config_writable cfg → loadConfig (Some (writeConfig cfg)) = Some cfg.
Proof.
  intros [Hg Hn Hv Hp (c & Ec & Hc1 & Hc2) (q & Eq & Hq1 & Hq2) Ho He]. unfold loadConfig, writeConfig.
  cbn [as_struct mbind option_bind]. set (fs := [_; _; _; _; _; _; _; _]).
  assert (NoDup fs.*1.*1) as Hnd by (apply (bool_decide_unpack _); by vm_compute).
  rewrite (field_at fs Hnd 0 "groups" _ _ eq_refl), (field_at fs Hnd 1 "virtual_node_count" _ _ eq_refl),
    (field_at fs Hnd 2 "connect_timeout_ms" _ _ eq_refl), (field_at fs Hnd 3 "request_timeout_ms" _ _ eq_refl),
    (field_at fs Hnd 4 "preferred_replicas" _ _ eq_refl), (field_at fs Hnd 5 "num_shards" _ _ eq_refl),
    (field_at fs Hnd 6 "shard_to_group" _ _ eq_refl), (field_at fs Hnd 7 "topology_epoch" _ _ eq_refl).
  rewrite as_slice_arr by (eapply Forall_impl; [exact Hg|]; intros g [? ?]; by apply group_roundtrip).
  rewrite as_slice_omit by (eapply Forall_impl; [exact Ho|]; intros z ?; by apply as_int64_num). rewrite as_int64_omit by done.
  unfold ms. destruct (timeout_whole c Hc1 Hc2) as [Rc Tc]. destruct (timeout_whole q Hq1 Hq2) as [Rq Tq]. rewrite Ec, Eq.
  rewrite !as_int64_num by done. cbn [mbind option_bind]. rewrite Tc, Tq, <-Ec, <-Eq. by destruct cfg.
Qed.

(** ** Moving the shards of an expansion *)

(** A group that the source router does not know does not change its topology. *)
Lemma online_router_same {W} Sum64String (source target : router_ops W) src tgt r e shardID sourceGID targetGID reps prefix w w' r' err :
  MigrateShardOnline Sum64String source target src tgt r e shardID sourceGID targetGID reps prefix w = (w', r', err) →
  targetGID ∉ router_GroupIDs r → r' = r.
Proof.
  intros H Hn. unfold MigrateShardOnline, migrate_copy in H. cbv zeta in H.
  assert (containsGroupID (router_GroupIDs r) targetGID = false) as Hc by (by apply bool_decide_eq_false). rewrite Hc in H.
  repeat case_match; by simplify_eq.
Qed.

Lemma new_router_ownership dial now cfg r : NewShardRouter dial now cfg = Some (inr r) → sc_ShardToGroup cfg ≠ [] →
  sc_NumShards cfg < 2 ^ 63 → ∃ st, rt_topology r = Some st ∧ tp_shardToGroup st = sc_ShardToGroup cfg ∧ tp_numShards st = sc_NumShards cfg.
Proof.
  intros H Ho Hn. unfold NewShardRouter in H. cbn [set_defaults sc_Groups sc_NumShards sc_ShardToGroup sc_TopologyEpoch] in H.
  case_decide as Hne; [done|]. destruct (register_groups _ _) as [|byID] eqn:Hreg; [done|].
  destruct (registered_groups _ _ Hreg Hne) as (Hd & Hby & Hrep & Hnd & Hbne). rewrite decide_False in H by done.
  destruct (NewShardTopologyWithOwnership _ _ _ _) as [[st|]|] eqn:Et; [|done|done]. cbn [mbind option_bind] in H.
  set (r0 := mkRouter _ _ _ _ _ _ _ _) in H.
  destruct (initConnections_ok dial r0 now (sc_Groups cfg) ∅ r0) as [_ Hok]; [by split|done|set_solver|done|].
  destruct (initConnections dial now (sc_Groups cfg) r0) as [[r1 [e|]]|] eqn:Ei; cbn in H; [done| |done]. injection H as <-.
  destruct (Hok r1 eq_refl) as [Ht _ _ _ _ _]. exists st. split; [done|].
  unfold NewShardTopologyWithOwnership in Et. case_bool_decide as Hb; [done|].
  destruct (new_topology_balanced (sc_NumShards cfg) (rg_Replicas <$> byID) Hbne Hn) as (st' & Hst' & _ & _ & Hnum & _).
  rewrite Hst' in Et. cbn in Et. destruct (forallb _ _); [|done]. injection Et as <-. cbn. split; [done|]. rewrite Hnum. case_decide; [lia|done].
Qed.

Section expand.
Context {W : Type} (ok : W → Prop) (entry : W → Z → string → option (string * Z)) (keys : string → Prop).
Variables (Sum64String : string → Z) (ops : ShardRouter → router_ops W) (connect : ShardRouter → Z → string + server_ops W).
Context (Hops : ∀ r, lawful_router ok entry keys (ops r)).
Context (Hconnect : ∀ r g S, connect r g = inr S → lawful_server ok entry keys g S).

Definition shard_of (r : ShardRouter) (k : string) : nat := Z.to_nat (shardKey Sum64String k (TopologyNumShards r)).

(** A key resolves to a group that the router knows. *)
Lemma resolved_group r k g : router_wf r → router_Resolve Sum64String r k = Some g → g ∈ router_GroupIDs r.
Proof.
  intros Hwf. destruct (rw_topology _ Hwf) as (st & Ht & Hst & Hdom).
  unfold router_Resolve, router_ResolveWithEpoch, ResolveWithEpoch. rewrite Ht.
  destruct (tp_shardToGroup st !! _) as [o|] eqn:Eo; [|done]. cbn. intros [= ->].
  unfold router_GroupIDs. rewrite sort_ints_perm, elem_of_elements, <-Hdom.
  pose proof (tw_owned _ Hst) as Ho. rewrite Forall_forall in Ho. apply Ho. by eapply list_elem_of_lookup_2.
Qed.

Lemma expand_shards_spec r target gid prefix moved : router_wf r → gid ∉ router_GroupIDs r → NoDup moved →
  (∀ k, shard_of r k ∈ moved → has_prefix prefix k = true → keys k) →
  ∀ w w', expand_shards Sum64String ops connect target gid prefix moved r w = (w', true) → ok w →
  (∀ g k, keys k → shard_of r k ∉ moved ∨ has_prefix prefix k = false → entry w' g k = entry w g k) ∧
  (∀ k v, shard_of r k ∈ moved → has_prefix prefix k = true → value entry w (router_GroupForShard r (Z.of_nat (shard_of r k))).1 k = Some v → value entry w' gid k = Some v).
Proof using Hops Hconnect.
  intros Hwf Hgid. destruct (rw_topology _ Hwf) as (st & Ht & Hst & Hdom).
  assert (0 < TopologyNumShards r) as Hnum by (unfold TopologyNumShards; rewrite Ht; pose proof (tw_pos _ Hst); lia).
  induction moved as [|s moved IH]; intros Hnd Hkeys w w' H Hok; cbn [expand_shards] in H.
  { injection H as <-. split; [done|]. intros k v Hk. by apply not_elem_of_nil in Hk. }
  apply NoDup_cons in Hnd as [Hs Hnd]. destruct (router_GroupForShard r (Z.of_nat s)) as [g okg] eqn:Hg.
  destruct okg; cbn [negb] in H; [|done]. destruct (MigrateShardOnline _ _ _ _ _ _ _ _ _ _ _ _ w) as [[w1 r1] err] eqn:E.
  pose proof (online_router_same _ _ _ _ _ _ _ _ _ _ _ _ _ _ _ _ E Hgid) as ->. destruct err as [e|]; [done|].
  assert (g ≠ gid) as Hne.
  { intros ->. apply Hgid. unfold router_GroupForShard in Hg. rewrite Ht in Hg. unfold GroupForShard in Hg. case_bool_decide as Hb; [done|].
    injection Hg as Hg. unfold router_GroupIDs. rewrite sort_ints_perm, elem_of_elements, <-Hdom. rewrite <-Hg.
    pose proof (tw_owned _ Hst) as Ho. rewrite Forall_forall in Ho. apply Ho.
    destruct (tp_shardToGroup st !! Z.to_nat (Z.of_nat s)) as [g|] eqn:El; [by eapply list_elem_of_lookup_2|]. apply lookup_ge_None in El. lia. }
  assert (∀ k, concerns Sum64String (TopologyNumShards r) (Z.of_nat s) prefix k = true ↔ shard_of r k = s ∧ has_prefix prefix k = true) as Hconc.
  { intros k. unfold concerns. rewrite andb_true_iff, orb_true_iff, !bool_decide_eq_true.
    assert (prefix = "" → has_prefix prefix k = true) as Hempty by (intros ->; apply has_prefix_nil). unfold shard_of.
    assert (0 ≤ shardKey Sum64String k (TopologyNumShards r)) by (apply Z.mod_pos_bound; lia). naive_solver lia. }
  assert (online_outcome ok entry keys Sum64String (TopologyNumShards r) (Z.of_nat s) g gid prefix w w1 None) as [Hok1 Hfr _ _ Hdone].
  { eapply (online_migration_outcome ok entry keys Sum64String (ops r) (ops target)); [apply Hops|apply Hops| | |done| |done|exact E].
    - intros S HS. by eapply Hconnect.
    - intros S HS. by eapply Hconnect.
    - intros k [Hc Hp]%Hconc. apply Hkeys; [|done]. rewrite Hc. by left. }
  destruct (Hdone eq_refl) as [Hcomp _].
  destruct (IH Hnd) with (w := w1) (w' := w') as [IH1 IH2]; [intros k Hk; apply Hkeys; by right|done|done|].
  assert (∀ g' k, keys k → shard_of r k ≠ s ∨ has_prefix prefix k = false → entry w1 g' k = entry w g' k) as Hother.
  { intros g' k Hk Hns. apply Hfr; [done|]. intros [? ?]%Hconc. destruct Hns; congruence. }
  split.
  - intros g' k Hk Hn. rewrite IH1, Hother; [done|done| |done|]; rewrite not_elem_of_cons in Hn; tauto.
  - intros k v Hin Hp Hv. assert (keys k) as Hk by by apply Hkeys. apply elem_of_cons in Hin as [Heq|Hin].
    + unfold value. rewrite IH1; [|done|left; by subst s]. apply Hcomp; [by apply Hconc|]. subst s. by rewrite Hg in Hv.
    + apply IH2; [done|done|]. unfold value. rewrite Hother; [exact Hv|done|]. left. by intros <-.
Qed.

(** What a plan says of the router's table. *)
Lemma planned_ownership r gid replicas owners moved : router_wf r → router_PlanAddGroup r gid replicas = Some (Some (owners, moved)) →
  gid ∉ router_GroupIDs r ∧ NoDup moved ∧ Forall (λ o, o = gid ∨ o ∈ router_Ownership r) owners ∧
  ∀ k g, router_Resolve Sum64String r k = Some g →
    owners !! shard_of r k = Some (if decide (shard_of r k ∈ moved) then gid else g) ∧
    (router_GroupForShard r (Z.of_nat (shard_of r k))).1 = g.
Proof.
  intros Hwf Hplan. destruct (rw_topology _ Hwf) as (st & Ht & Hst & Hdom). unfold router_PlanAddGroup in Hplan. rewrite Ht in Hplan.
  destruct (decide (is_Some (tp_groups st !! gid) ∨ replicas = [])) as [Hb|Hb]; [unfold PlanAddGroup in Hplan; by rewrite bool_decide_true in Hplan|].
  assert (tp_groups st !! gid = None) as Hgid by (apply eq_None_not_Some; tauto).
  destruct (plan_total st gid replicas Hst Hgid ltac:(tauto)) as (owners' & counts & moved' & E & [_ Hlen Hnd Hmv _ _ _] & _).
  rewrite E in Hplan. injection Hplan as -> ->. cbn [fst snd] in *. split; [|split; [done|]].
  { unfold router_GroupIDs. rewrite sort_ints_perm, elem_of_elements, <-Hdom. by apply not_elem_of_dom. }
  split.
  - apply Forall_lookup. intros i o Hi. destruct (lookup_lt_is_Some_2 (tp_shardToGroup st) i) as [o' Ho'].
    { rewrite <-Hlen. by eapply lookup_lt_Some. }
    rewrite (Hmv i o' Ho') in Hi. injection Hi as <-. case_decide; [by left|right]. unfold router_Ownership. rewrite Ht. by eapply list_elem_of_lookup_2.
  - intros k g. unfold router_Resolve, router_ResolveWithEpoch, ResolveWithEpoch, router_GroupForShard, GroupForShard. rewrite Ht.
    assert (Z.to_nat (shardForKey Sum64String st k) = shard_of r k) as -> by (unfold shard_of, TopologyNumShards; by rewrite Ht).
    destruct (tp_shardToGroup st !! shard_of r k) as [o|] eqn:Eo; [|done]. cbn. intros [= ->]. split; [by apply Hmv|].
    apply lookup_lt_Some in Eo as Hlt. rewrite bool_decide_false by lia. cbn. by rewrite Nat2Z.id, Eo.
Qed.

(** A router resolves by the ownership table of its configuration. *)
Lemma configured_resolve dial now cfg r k g : NewShardRouter dial now cfg = Some (inr r) → sc_NumShards cfg < 2 ^ 63 →
  sc_ShardToGroup cfg !! Z.to_nat (shardKey Sum64String k (sc_NumShards cfg)) = Some g → router_Resolve Sum64String r k = Some g.
Proof.
  intros H Hn Hg. destruct (new_router_ownership _ _ _ _ H) as (st & Ht & Ho & Hnum); [by intros E; rewrite E in Hg|done|].
  unfold router_Resolve, router_ResolveWithEpoch, ResolveWithEpoch, shardForKey. rewrite Ht, Ho, Hnum. unfold shardKey in Hg. by rewrite Hg.
Qed.

Lemma expanded_writable cfg r gid replicas owners : config_writable cfg → router_wf r → isS64 gid →
  Forall isS64 (router_Ownership r) → Forall (λ o, o = gid ∨ o ∈ router_Ownership r) owners →
  TopologyNumShards r < 2 ^ 63 → config_writable (expanded_config cfg r gid replicas owners).
Proof.
  intros [Hg _ Hv Hp Hc Hq _ _] Hwf Hgid Ho Hos Hn. destruct (rw_topology _ Hwf) as (st & Ht & [Hpos _ _ Hep] & _).
  unfold TopologyNumShards in Hn. rewrite Ht in Hn. split; cbn; try done.
  - apply Forall_app. split; [done|]. constructor; [|done]. split; [done|]. unfold isS64. cbn. lia.
  - unfold TopologyNumShards. rewrite Ht. unfold isS64. lia.
  - eapply Forall_impl; [exact Hos|]. intros o [->|Hin]; [done|]. rewrite Forall_forall in Ho. by apply Ho.
  - apply wrapS64_range.
Qed.

(** C8: an expansion that succeeds moves the data with the routing table, for
    the keys that have the prefix given to the tool (all keys when it is empty).
    When the tool exits with 0 it has written a configuration that loads again
    and from which a router can be made; and with every router made from it,
    each key resolves to its old group or to the new one; the group it resolves
    to holds its value, except for a key without the prefix in a moved shard,
    whose value stays in the old group. The calls of the migration may fail or
    be executed without an answer; the keys spoken of, among them all that are
    to move, are not written by anybody else and do not expire; the router is
    well formed, group ids and the numbers of the configuration fit int64, its
    timeouts are whole milliseconds, and there are fewer than 2^63 shards. *)
Theorem expansion_routes_data dial now writable f cfg r w w' path file :
  expand Sum64String dial now ops connect writable f cfg r w = Some (w', (0, Some (path, file))) →
  router_wf r → config_writable cfg → isS64 (fl_expandGroup f) → Forall isS64 (router_Ownership r) → TopologyNumShards r < 2 ^ 63 →
  ok w →
  (∀ owners moved k, router_PlanAddGroup r (fl_expandGroup f) (TrimSpace <$> Split comma (fl_expandReplicas f)) = Some (Some (owners, moved)) →
     shard_of r k ∈ moved → has_prefix (fl_prefix f) k = true → keys k) →
  path = fl_output f ∧ ∃ cfg', loadConfig (Some file) = Some cfg' ∧ (∃ r', NewShardRouter dial now cfg' = Some (inr r')) ∧
    ∀ dial' now' r', NewShardRouter dial' now' cfg' = Some (inr r') →
    ∀ k g v, keys k → router_Resolve Sum64String r k = Some g → value entry w g k = Some v →
    ∃ g', router_Resolve Sum64String r' k = Some g' ∧ (g' = g ∨ g' = fl_expandGroup f) ∧
      (g' = g ∨ has_prefix (fl_prefix f) k = true → value entry w' g' k = Some v) ∧
      (has_prefix (fl_prefix f) k = false → value entry w' g k = Some v).
Proof using Hops Hconnect.
  intros H Hwf Hcfg Hgid Ho Hn Hok Hkeys. unfold expand in H. case_decide; [done|]. destruct (containsGroup _ _); [done|].
  destruct (router_PlanAddGroup _ _ _) as [[[owners moved]|]|] eqn:Hplan; cbn in H; [|done|done].
  destruct (planned_ownership _ _ _ _ _ Hwf Hplan) as (Hnew & Hnd & Hos & Hres). case_decide as Hne; [done|].
  set (cfg' := expanded_config _ _ _ _ _) in H. destruct (NewShardRouter dial now cfg') as [[|target]|] eqn:Hr'; cbn in H; [done| |done].
  destruct (expand_shards _ _ _ _ _ _ _ _ w) as [w1 done] eqn:Emv.
  destruct done; [|done]. destruct (writable _); [|done]. cbn in H. injection H as <- <- <-. split; [done|].
  exists cfg'. split; [apply config_reloaded; by apply expanded_writable|]. split; [by exists target|].
  destruct (expand_shards_spec _ _ _ _ _ Hwf Hnew Hnd ltac:(intros k Hk; by eapply Hkeys) _ _ Emv Hok) as [Hfr Hmv].
  intros dial' now' r' Hnr k g v Hk Hg Hv. destruct (Hres k g Hg) as [Hown Hgrp].
  eexists. split; [eapply configured_resolve; [exact Hnr|done|exact Hown]|].
  assert (has_prefix (fl_prefix f) k = false → value entry w1 g k = Some v) as Hstay by (intros Hp; unfold value; rewrite Hfr; auto).
  destruct (decide (shard_of r k ∈ moved)) as [Hin|Hin]; (split; [by auto|split; [|exact Hstay]]).
  - intros [<-|Hp]; [|apply (Hmv k v Hin Hp); by rewrite Hgrp].
    exfalso. apply Hnew. eapply resolved_group; [exact Hwf|exact Hg].
  - intros _. unfold value. rewrite Hfr; auto.
Qed.
End expand.

(** ** A run *)

(** One group with ten shards; the keys of [mg_universe] are in shard 7, all others
    in shard 0. *)
Definition kx_hash (key : string) : Z := if decide (key ∈ mg_universe) then 7 else 0.
Definition kx_cfg : ShardingConfig :=
  {| sc_Groups := [{| rg_GroupID := 1; rg_Replicas := ["a1"; "a2"]; rg_LeaderIdx := 0 |}]; sc_NumShards := 10; sc_VirtualNodeCount := 150;
     sc_PreferredReplicas := 3; sc_ConnectTimeout := 2000000000; sc_RequestTimeout := 1200000000; sc_ShardToGroup := []; sc_TopologyEpoch := 0 |}.
Definition kx_router : ShardRouter :=
  match NewShardRouter (λ _, true) 0 kx_cfg with Some (inr r) => r | _ => mg_source_router end.
Definition kx_flags : flags :=
  {| fl_source := "now.json"; fl_target := ""; fl_prefix := ""; fl_limit := 0; fl_dryRun := true; fl_deleteSource := false; fl_online := false;
     fl_shard := -1; fl_sourceGroup := -1; fl_targetGroup := -1; fl_expandGroup := 2; fl_expandReplicas := "b1, b2"; fl_output := "next.json" |}.
Definition kx_states : list ShardStateEntry :=
  (λ i, {| sse_shard_id := Z.of_nat i; sse_state := OWNED; sse_target_group := 0 |}) <$> seq 0 10.
Definition kx_connect (r : ShardRouter) (g : Z) : string + server_ops net := inr (net_server kx_states g).
Definition kx_main (f : flags) (kinds : list answer_kind) : option (net * (Z * option (string * json))) :=
  main kx_hash (λ _, true) 0 (λ _, mg_router) kx_connect (λ _, None) (λ _, true) None
    (λ path, if decide (path = "now.json") then Some (writeConfig kx_cfg) else None) f (mg_net kinds).
(** The tool reads [now.json], moves shards 9 to 5, and writes [next.json]. *)
Definition kx_expand : option (net * (Z * option (string * json))) :=
  expand kx_hash (λ _, true) 0 (λ _, mg_router) kx_connect (λ _, true) kx_flags kx_cfg kx_router (mg_net []).
Definition kx_file : json := match kx_expand with Some (_, (_, Some (_, file))) => file | _ => JNull end.
Definition kx_after : net := match kx_expand with Some (w, _) => w | None => mg_net [] end.
Lemma kx_expand_run : kx_expand = Some (kx_after, (0, Some ("next.json", kx_file))).
Proof.
  unfold kx_after, kx_file. destruct kx_expand as [[w [c file]]|] eqn:E.
  - apply (f_equal (λ r, (λ r, (r.2.1, fst <$> r.2.2)) <$> r)) in E as E'. vm_compute in E'.
    injection E' as Ec Ef. destruct file as [[path file]|]; [|done]. injection Ef as Ef. by rewrite <-Ec, <-Ef.
  - apply (f_equal (λ r, fst <$> (snd <$> r))) in E. vm_compute in E. discriminate E.
Qed.
(** The whole tool, from its flags; [dry-run] is set and has no effect. *)
Theorem expansion_ignores_dry_run : let r := kx_main kx_flags [] in
  fl_dryRun kx_flags = true ∧ (snd <$> r) = Some (0, Some ("next.json", kx_file)) ∧
  (r ≫= λ r, net_entry r.1 2 "k") = Some ("v", 1) ∧ (r ≫= λ r, net_entry r.1 2 "a") = Some ("new", 4) ∧
  (r ≫= λ r, net_entry r.1 1 "k") = None ∧ (sc_ShardToGroup <$> loadConfig (Some kx_file)) = Some [1; 1; 1; 1; 1; 2; 2; 2; 2; 2].
Proof. by vm_compute. Qed.
Lemma kx_router_new : NewShardRouter (λ _, true) 0 kx_cfg = Some (inr kx_router).
Proof. vm_cast_no_check (eq_refl (Some (inr kx_router) : option (router_err + ShardRouter))). Qed.
Lemma kx_cfg_writable : config_writable kx_cfg.
Proof. split; cbn; try done; [by repeat constructor|by exists 2000|by exists 1200]. Qed.

Lemma kx_connect_lawful r g S : kx_connect r g = inr S → lawful_server (net_ok mg_keys) net_entry mg_keys g S.
Proof. intros [= <-]. apply net_server_lawful. Qed.
Lemma kx_ownership : router_Ownership kx_router = replicate 10 1.
Proof. by vm_compute. Qed.
Lemma kx_plan : router_PlanAddGroup kx_router 2 (TrimSpace <$> Split comma "b1, b2") = Some (Some ([1; 1; 1; 1; 1; 2; 2; 2; 2; 2], [9; 8; 7; 6; 5]%nat)).
Proof. by vm_compute. Qed.
Lemma kx_moved_keys owners moved k :
  router_PlanAddGroup kx_router 2 (TrimSpace <$> Split comma "b1, b2") = Some (Some (owners, moved)) → shard_of kx_hash kx_router k ∈ moved → mg_keys k.
Proof.
  rewrite kx_plan. intros [= _ <-] Hin. unfold mg_keys. destruct (decide (k ∈ mg_universe)) as [|Hn]; [done|]. exfalso.
  assert (shard_of kx_hash kx_router k = 0%nat) as E by (unfold shard_of, shardKey, kx_hash; by destruct (decide _)).
  rewrite E in Hin. by apply (bool_decide_pack _) in Hin.
Qed.
Lemma expansion_routes_data_witness : ∃ cfg', loadConfig (Some kx_file) = Some cfg' ∧
  ∀ r', NewShardRouter (λ _, true) 0 cfg' = Some (inr r') →
  ∃ g', router_Resolve kx_hash r' "k" = Some g' ∧ value net_entry kx_after g' "k" = Some "v".
Proof.
  destruct (expansion_routes_data (net_ok mg_keys) net_entry mg_keys kx_hash (λ _, mg_router) kx_connect (λ _, mg_lawful) kx_connect_lawful
    (λ _, true) 0 (λ _, true) kx_flags kx_cfg kx_router (mg_net []) kx_after "next.json" kx_file) as (_ & cfg' & Hload & _ & H).
  - exact kx_expand_run.
  - exact (new_router_wf _ _ kx_cfg _ eq_refl eq_refl kx_router_new).
  - exact kx_cfg_writable.
  - done.
  - rewrite kx_ownership. by repeat constructor.
  - by vm_compute.
  - apply mg_net_ok. constructor.
  - intros owners moved k Hp Hin _. by eapply kx_moved_keys.
  - exists cfg'. split; [done|]. intros r' Hr'.
    destruct (H (λ _, true) 0 r' Hr' "k" 1 "v") as (g' & H1 & _ & H2 & _); [apply (bool_decide_unpack _); by vm_compute|by vm_compute|by vm_compute|].
    exists g'. exact (conj H1 (H2 (or_intror eq_refl))).
Defined.

(** The new table is written only after the last shard has moved: when a call for
    shard 6 fails, the keys of shard 7 are in group 2 already and the tool exits
    without a configuration that says so. *)
Theorem failed_expansion_unrouted : let r := kx_main kx_flags (repeat Answered 40 ++ [NoAnswer]) in
  (snd <$> r) = Some (1, None) ∧ router_Resolve kx_hash kx_router "k" = Some 1 ∧
  (r ≫= λ r, net_entry r.1 1 "k") = None ∧ (r ≫= λ r, net_entry r.1 2 "k") = Some ("v", 1).
Proof. by vm_compute. Qed.
(** With a prefix only some keys of a shard move, but its owner changes for all. *)
Theorem prefixed_expansion_unrouted :
  let f := {| fl_source := "now.json"; fl_target := ""; fl_prefix := "a"; fl_limit := 0; fl_dryRun := false; fl_deleteSource := false; fl_online := false;
              fl_shard := -1; fl_sourceGroup := -1; fl_targetGroup := -1; fl_expandGroup := 2; fl_expandReplicas := "b1, b2"; fl_output := "next.json" |} in
  let r := kx_main f [] in
  (snd <$> r) = Some (0, Some ("next.json", kx_file)) ∧ shardKey kx_hash "k" 10 = 7 ∧
  (loadConfig (Some kx_file) ≫= λ cfg, sc_ShardToGroup cfg !! 7%nat) = Some 2 ∧
  (r ≫= λ r, net_entry r.1 1 "k") = Some ("v", 5) ∧ (r ≫= λ r, net_entry r.1 2 "k") = None.
Proof. by vm_compute. Qed.
