(* ===== verification/Kvcli.v ===== *)
(** * cmd/kvcli/main.go: the interactive client

    A line is parsed into a command; a command runs on the clerk's operations, the
    versions remembered and the watches started.  What is printed is a value, its
    formatting is left out.  The clerk's operations, the clock and the deadline of a
    retry are arguments. *)
From stdpp Require Import prelude gmap sorting strings pretty.
From stdpp Require Import options.
From S2P Require Import Prelude Json KvApi Topology Pb Router Client KvMigrate.
Local Open Scope Z_scope.

(** ** Start *)

(** [loadShardingConfig]: like the one of the migration tool, but the numbers of
    shards, the owners and the epoch are not read. *)
Definition loadShardingConfig (content : option json) : option ShardingConfig :=
  j ← content; m ← as_struct j;
  groups ← as_slice unmarshal_jsonGroup (jfield "groups" m);
  vnodes ← as_int64 (jfield "virtual_node_count" m);
  connect ← as_int64 (jfield "connect_timeout_ms" m);
  request ← as_int64 (jfield "request_timeout_ms" m);
  preferred ← as_int64 (jfield "preferred_replicas" m);
  Some {| sc_Groups := groups; sc_NumShards := 0; sc_VirtualNodeCount := vnodes; sc_PreferredReplicas := preferred;
          sc_ConnectTimeout := timeout_of connect; sc_RequestTimeout := timeout_of request; sc_ShardToGroup := []; sc_TopologyEpoch := 0 |}.

(** How the clerk is made: from a configuration file or from server addresses. *)
Inductive clerk_source := FromConfig (path : string) | FromServers (servers : list string).
Definition choose_clerk (meta : gmap string string) (exists_file : string → bool) (shardingConfig serversFlag : string) : clerk_source :=
  let from_flag := TrimSpace shardingConfig in
  let path :=
    if decide (from_flag = "") then
      let p := TrimSpace (default "" (meta !! "SHARDING_CONFIG")) in
      if decide (p ≠ "") then if exists_file p then p else "" else ""
    else from_flag in
  let servers :=
    if decide (TrimSpace serversFlag = "") then
      let s := TrimSpace (default "" (meta !! "RAFT_SERVERS")) in
      if decide (s ≠ "") then s else "127.0.0.1:15000,127.0.0.1:15001,127.0.0.1:15002"
    else TrimSpace serversFlag in
  if decide (path ≠ "") then FromConfig path else FromServers (TrimSpace <$> Split comma servers).
(** [None]: a panic, or the exit after an error. *)
Definition make_clerk (dial : string → bool) (now : Z) rpc (read : string → option json) (source : clerk_source)
    : option (ShardRouter * list (option router_err)) :=
  match source with
  | FromConfig path =>
      cfg ← loadShardingConfig (read path); res ← MakeShardedClerk dial now rpc cfg;
      match res with inl _ => None | inr clerk => Some clerk end
  | FromServers servers => MakeClerk dial now rpc servers
  end.

(** ** Parsing *)

(** [strings.Fields]. *)
Fixpoint fields_from (word : string) (s : string) : list string :=
  let flush := if decide (word = "") then [] else [word] in
  match s with
  | EmptyString => flush
  | String c s => if is_space c then flush ++ fields_from "" s else fields_from (word +:+ String c "") s
  end.
Definition Fields (s : string) : list string := fields_from "" s.
(** [strconv.Atoi] is [ParseInt] on a 64-bit machine; the conversion to int32 wraps. *)
Definition parseLimit (raw : string) : option Z := wrapS32 <$> ParseInt raw.

Inductive watch_mode := WatchKey | WatchPrefix.
Inductive command :=
  | CmdHelp | CmdExit
  | CmdGet (key : string)
  | CmdPut (key value : string) (version : option Z)
  | CmdPutTTL (key value : string) (ttl : Z) (version : option Z)
  | CmdDel (key : string)
  | CmdScan (prefix : string) (limit : Z)
  | CmdWatch (mode : watch_mode) (pattern : string)
  | CmdUnwatchAll | CmdUnwatch (id : Z) | CmdListWatch
  | CmdUsage (name : string) | CmdInvalid (what : string) | CmdUnknown.

Definition with_version (rest : list string) (k : option Z → command) : command :=
  match rest with
  | [raw] => match ParseInt raw with Some v => k (Some v) | None => CmdInvalid "version" end
  | _ => k None
  end.
Definition parse_put_ttl (args : list string) : command :=
  match args with
  | key :: value :: ttl :: rest =>
      if decide (length rest ≤ 1)%nat then
        match ParseInt ttl with Some ttl => with_version rest (CmdPutTTL key value ttl) | None => CmdInvalid "ttl_seconds" end
      else CmdUsage "put-ttl"
  | _ => CmdUsage "put-ttl"
  end.
Definition parse_watch (args : list string) : command :=
  match args with
  | [mode; pattern] =>
      let mode := ToLower mode in
      if decide (mode = "key") then CmdWatch WatchKey pattern
      else if decide (mode = "prefix") then CmdWatch WatchPrefix pattern else CmdUsage "watch"
  | _ => CmdUsage "watch"
  end.
Definition parse_unwatch (args : list string) : command :=
  match args with
  | [id] => if decide (ToLower id = "all") then CmdUnwatchAll
            else match ParseInt id with Some id => CmdUnwatch id | None => CmdInvalid "watch id" end
  | _ => CmdUsage "unwatch"
  end.
(** The switch over the first field. *)
Definition parse (name : string) (args : list string) : command :=
  let cmd := ToLower name in
  if decide (cmd = "help") then CmdHelp
  else if decide (cmd = "exit" ∨ cmd = "quit") then CmdExit
  else if decide (cmd = "get") then match args with [key] => CmdGet key | _ => CmdUsage "get" end
  else if decide (cmd = "put") then
    match args with
    | key :: value :: rest => if decide (length rest ≤ 1)%nat then with_version rest (CmdPut key value) else CmdUsage "put"
    | _ => CmdUsage "put"
    end
  else if decide (cmd = "put-ttl") then
    parse_put_ttl args
  else if decide (cmd = "del" ∨ cmd = "delete") then match args with [key] => CmdDel key | _ => CmdUsage "del" end
  else if decide (cmd = "scan") then
    match args with
    | [prefix] => CmdScan prefix 0
    | [prefix; raw] => match parseLimit raw with Some l => CmdScan prefix l | None => CmdInvalid "limit" end
    | _ => CmdUsage "scan"
    end
  else if decide (cmd = "watch") then parse_watch args
  else if decide (cmd = "unwatch") then parse_unwatch args
  else if decide (cmd = "list-watch") then CmdListWatch
  else CmdUnknown.

(** ** Running a command *)

Record clerk_ops (W Sub : Type) := {
  ck_Get : string → W → W * (string * Z * Z * Err);
  ck_Put : string → string → Z → W → W * Err;
  ck_PutWithTTL : string → string → Z → Z → W → W * Err;
  ck_Delete : string → W → W * Err;
  ck_Scan : string → Z → W → W * (list KeyValue * Err);
  ck_Watch : string → bool → W → W * (string + Sub);
  ck_Cancel : Sub → W → W }.
Arguments ck_Get {W Sub}. Arguments ck_Put {W Sub}. Arguments ck_PutWithTTL {W Sub}. Arguments ck_Delete {W Sub}.
Arguments ck_Scan {W Sub}. Arguments ck_Watch {W Sub}. Arguments ck_Cancel {W Sub}.

Record cli (Sub : Type) := mkCli { cl_watchers : gmap Z Sub; cl_nextWatchID : Z; cl_localVersion : gmap string Z }.
Arguments mkCli {Sub}. Arguments cl_watchers {Sub}. Arguments cl_nextWatchID {Sub}. Arguments cl_localVersion {Sub}.

Inductive expiry := NoExpiry | Expired (expires : Z) | Remaining (expires seconds : Z).
Inductive output :=
  | OutHelp | OutBye | OutUsage (name : string) | OutInvalid (what : string) | OutUnknown
  | OutGet (value : string) (version : Z) (e : expiry) | OutGetErr (value : string) (version : Z) (e : Err)
  | OutNoVersion (e : Err)
  | OutPut (ttl : option Z) (retries : Z) | OutPutErr (e : Err) | OutPutRefresh (e refresh : Err)
  | OutDelete (e : Err)
  | OutScan (items : list (KeyValue * expiry)) | OutScanErr (e : Err)
  | OutWatch (id : Z) (mode : watch_mode) (pattern : string) | OutWatchErr (e : string)
  | OutAllCanceled | OutCanceled (id : Z) | OutNoWatch (id : Z) | OutWatches (ids : list Z).

Definition show_expiry (now expires : Z) : expiry :=
  let remainingSec := wrapS64 (expires - now) `quot` 1000000000 in
  if decide (0 < expires) then if decide (0 < remainingSec) then Remaining expires remainingSec else Expired expires else NoExpiry.

Section run.
Context {W Sub : Type} (ck : clerk_ops W Sub).
Variable past_deadline : W → bool.
Variable clock : W → Z.
(** [sort.Slice] by key. *)
Variable sort_by_key : list KeyValue → list KeyValue.

Definition put_maxAttempts (explicit : bool) : Z := if explicit then 1 else 200.
(** What may have changed: errors after which the version is read again. *)
Definition retriable (e : Err) : bool := bool_decide (e = ErrVersion ∨ e = ErrMaybe ∨ e = ErrNoKey).
(** The retry loop of [put] and of [put-ttl]; the version it puts last if it is
    accepted.  [fuel] counts attempts, [None] if it does not suffice. *)
Fixpoint put_loop (fuel : nat) (ttl : option Z) (put : Z → W → W * Err) (key : string) (explicit : bool) (attempts version : Z) (w : W)
    : option (W * option Z * output) :=
  match fuel with
  | O => None
  | S fuel =>
      let attempts := attempts + 1 in
      let '(w, errCode) := put version w in
      if decide (errCode = OK) then Some (w, Some (wrapS64 (version + 1)), OutPut ttl (attempts - 1))
      else if explicit || negb (retriable errCode) || bool_decide (put_maxAttempts explicit ≤ attempts) || past_deadline w
      then Some (w, None, OutPutErr errCode)
      else
        let '(w, (_, ver, _, gerr)) := ck_Get ck key w in
        if decide (gerr = OK) then put_loop fuel ttl put key explicit attempts ver w
        else if decide (gerr = ErrNoKey) then put_loop fuel ttl put key explicit attempts 0 w
        else Some (w, None, OutPutRefresh errCode gerr)
  end.
(** The version of a put without one: remembered, or read. *)
Definition find_version (s : cli Sub) (key : string) (w : W) : W * (Err + Z) :=
  match cl_localVersion s !! key with
  | Some v => (w, inr v)
  | None =>
      let '(w, (_, ver, _, gerr)) := ck_Get ck key w in
      (w, if decide (gerr = OK) then inr ver else if decide (gerr = ErrNoKey) then inr 0 else inl gerr)
  end.
Definition run_put (s : cli Sub) (ttl : option Z) (put : Z → W → W * Err) (key : string) (version : option Z) (w : W)
    : option (W * cli Sub * output) :=
  let '(w, v) := match version with Some v => (w, inr v) | None => find_version s key w end in
  match v with
  | inl gerr => Some (w, s, OutNoVersion gerr)
  | inr v =>
      let explicit := bool_decide (is_Some version) in
      '(w, remembered, out) ← put_loop (Z.to_nat (put_maxAttempts explicit)) ttl put key explicit 0 v w;
      let s := match remembered with
               | Some v => mkCli (cl_watchers s) (cl_nextWatchID s) (<[key := v]> (cl_localVersion s))
               | None => s
               end in
      Some (w, s, out)
  end.
Definition cancel_all (s : cli Sub) (w : W) : W * cli Sub :=
  (foldr (λ '(_, sub), ck_Cancel ck sub) w (map_to_list (cl_watchers s)), mkCli ∅ (cl_nextWatchID s) (cl_localVersion s)).

(** One command; [None] never happens. *)
Definition exec_command (c : command) (s : cli Sub) (w : W) : option (W * cli Sub * output) :=
  match c with
  | CmdHelp => Some (w, s, OutHelp)
  | CmdExit => let '(w, s) := cancel_all s w in Some (w, s, OutBye)
  | CmdGet key =>
      let '(w, (val, ver, expires, e)) := ck_Get ck key w in
      Some (w, s, if decide (e = OK) then OutGet val ver (show_expiry (clock w) expires) else OutGetErr val ver e)
  | CmdPut key value version => run_put s None (ck_Put ck key value) key version w
  | CmdPutTTL key value ttl version => run_put s (Some ttl) (λ v, ck_PutWithTTL ck key value v ttl) key version w
  | CmdDel key =>
      let '(w, errCode) := ck_Delete ck key w in
      Some (w, if decide (errCode = OK ∨ errCode = ErrNoKey) then mkCli (cl_watchers s) (cl_nextWatchID s) (delete key (cl_localVersion s)) else s,
            OutDelete errCode)
  | CmdScan prefix limit =>
      let '(w, (items, e)) := ck_Scan ck prefix limit w in
      Some (w, s, if decide (e = OK) then OutScan ((λ item, (item, show_expiry (clock w) (kv_expires item))) <$> sort_by_key items) else OutScanErr e)
  | CmdWatch mode pattern =>
      let '(w, res) := ck_Watch ck pattern (match mode with WatchPrefix => true | WatchKey => false end) w in
      match res with
      | inl e => Some (w, s, OutWatchErr e)
      | inr sub =>
          let id := cl_nextWatchID s in
          Some (w, mkCli (<[id := sub]> (cl_watchers s)) (wrapS64 (id + 1)) (cl_localVersion s), OutWatch id mode pattern)
      end
  | CmdUnwatchAll => let '(w, s) := cancel_all s w in Some (w, s, OutAllCanceled)
  | CmdUnwatch id =>
      match cl_watchers s !! id with
      | None => Some (w, s, OutNoWatch id)
      | Some sub => Some (ck_Cancel ck sub w, mkCli (delete id (cl_watchers s)) (cl_nextWatchID s) (cl_localVersion s), OutCanceled id)
      end
  | CmdListWatch => Some (w, s, OutWatches (sort_ints (elements (dom (cl_watchers s)))))
  | CmdUsage name => Some (w, s, OutUsage name)
  | CmdInvalid what => Some (w, s, OutInvalid what)
  | CmdUnknown => Some (w, s, OutUnknown)
  end.

(** The loop over the lines of the input, to its end or to [exit]. *)
Fixpoint session (lines : list string) (s : cli Sub) (w : W) : option (W * cli Sub * list output) :=
  match lines with
  | [] => Some (w, s, [])
  | line :: lines =>
      match Fields (TrimSpace line) with
      | [] => session lines s w
      | name :: args =>
          let c := parse name args in
          '(w, s, out) ← exec_command c s w;
          if decide (ToLower name = "exit" ∨ ToLower name = "quit") then Some (w, s, [out])
          else '(w, s, outs) ← session lines s w; Some (w, s, out :: outs)
      end
  end.
Definition main_session (lines : list string) (w : W) : option (W * cli Sub * list output) := session lines (mkCli ∅ 1 ∅) w.
End run.
