(* ===== verification/KvcliProps.v ===== *)
(** * The interactive client

    Commands survive being written and parsed; a put reports success exactly for the
    write it made last and remembers its version; every watch that is started is
    cancelled at most once, and all of them by [exit].  Three runs show what the
    client gets wrong. *)
From Stdlib Require Import Ascii.
From stdpp Require Import prelude gmap sorting strings pretty.
From stdpp Require Import options.
From S2P Require Import Prelude Json JsonText KvApi Topology TopologyProps Pb Router RouterProps Client KvMigrate KvMigrateProps Kvcli.
Local Open Scope Z_scope.

(** ** Parsing *)

Definition word (s : string) : Prop := s ≠ "" ∧ Forall (λ c, is_space c = false) (String.list_ascii_of_string s).
Fixpoint line_of (ws : list string) : string := match ws with [] => "" | [w] => w | w :: ws => w +:+ " " +:+ line_of ws end.

Lemma app_cons_r (a : string) c b : (a +:+ String c "") +:+ b = a +:+ String c b.
Proof. induction a as [|x a IH]; [done|]. change (String x ((a +:+ String c "") +:+ b) = String x (a +:+ String c b)). by rewrite IH. Qed.
Lemma string_app_nil (a : string) : a +:+ "" = a.
Proof. induction a as [|x a IH]; [done|]. change (String x (a +:+ "") = String x a). by rewrite IH. Qed.
Lemma fields_word w : ∀ acc rest, Forall (λ c, is_space c = false) (String.list_ascii_of_string w) →
  fields_from acc (w +:+ rest) = fields_from (acc +:+ w) rest.
Proof.
  induction w as [|c w IH]; intros acc rest H; [by rewrite string_app_nil|]. apply Forall_cons in H as [Hc H].
  change (fields_from acc (String c (w +:+ rest)) = fields_from (acc +:+ String c w) rest). cbn [fields_from]. rewrite Hc, IH by done. by rewrite app_cons_r.
Qed.
Lemma fields_line ws : Forall word ws → Fields (line_of ws) = ws.
Proof.
  unfold Fields. induction ws as [|w ws IH]; intros H; [done|]. apply Forall_cons in H as [[Hne Hw] H].
  destruct ws as [|w' ws].
  - cbn [line_of]. rewrite <-(string_app_nil w) at 1. rewrite fields_word by done. cbn. by rewrite decide_False.
  - change (line_of (w :: w' :: ws)) with (w +:+ String " "%char (line_of (w' :: ws))). rewrite fields_word by done. cbn [fields_from].
    change (is_space " "%char) with true. cbn iota. change ("" +:+ w) with w. rewrite decide_False by done. by rewrite IH.
Qed.

(** A command as it is typed. *)
Definition render (c : command) : list string :=
  let version v := match v with Some v => [pretty v] | None => [] end in
  match c with
  | CmdHelp => ["help"] | CmdExit => ["exit"]
  | CmdGet key => ["get"; key]
  | CmdPut key value v => "put" :: key :: value :: version v
  | CmdPutTTL key value ttl v => "put-ttl" :: key :: value :: pretty ttl :: version v
  | CmdDel key => ["del"; key]
  | CmdScan prefix limit => ["scan"; prefix; pretty limit]
  | CmdWatch mode pattern => ["watch"; match mode with WatchKey => "key" | WatchPrefix => "prefix" end; pattern]
  | CmdUnwatchAll => ["unwatch"; "all"] | CmdUnwatch id => ["unwatch"; pretty id] | CmdListWatch => ["list-watch"]
  | CmdUsage _ | CmdInvalid _ | CmdUnknown => []
  end.
Definition typed (c : command) : Prop :=
  match c with
  | CmdGet k | CmdDel k | CmdWatch _ k => word k
  | CmdPut k v ver => word k ∧ word v ∧ from_option isS64 True ver
  | CmdPutTTL k v ttl ver => word k ∧ word v ∧ isS64 ttl ∧ from_option isS64 True ver
  | CmdScan p l => word p ∧ isS32 l
  | CmdUnwatch id => isS64 id
  | CmdUsage _ | CmdInvalid _ | CmdUnknown => False
  | _ => True
  end.

Lemma pretty_chars (z : Z) : pretty z ≠ "" ∧ Forall (λ c, is_digit c = true ∨ c = "-"%char) (String.list_ascii_of_string (pretty z)).
Proof.
  assert (∀ n : N, pretty n ≠ "" ∧ Forall (λ c, is_digit c = true) (String.list_ascii_of_string (pretty n))) as Hn.
  { intros n. split.
    - intros E. pose proof (parse_pretty_N n) as H. rewrite E in H. cbn in H. injection H as <-. done.
    - unfold pretty, pretty_N. case_decide; [by repeat constructor|]. by apply pretty_N_go_digits. }
  destruct z as [|p|p]; [by split; [|repeat constructor; left]| |].
  - destruct (Hn (N.pos p)) as [H1 H2]. split; [done|]. eapply Forall_impl; [exact H2|]. by left.
  - destruct (Hn (N.pos p)) as [_ H2]. split; [done|]. constructor; [by right|]. eapply Forall_impl; [exact H2|]. by left.
Qed.
Lemma digit_code c : is_digit c = true ∨ c = "-"%char → (45 ≤ Ascii.nat_of_ascii c ≤ 57)%nat.
Proof.
  intros [H| ->]; [|by vm_compute; lia]. unfold is_digit, digit_of in H. apply bool_decide_eq_true in H. destruct (decide _) as [Hd|]; [|by destruct H].
  unfold Ascii.nat_of_ascii. lia.
Qed.
Lemma word_number (z : Z) : word (pretty z).
Proof.
  destruct (pretty_chars z) as [Hne H]. split; [done|]. eapply Forall_impl; [exact H|]. intros c Hc%digit_code. unfold is_space. apply bool_decide_eq_false. lia.
Qed.
Lemma number_not_all (z : Z) : ToLower (pretty z) ≠ "all".
Proof.
  destruct (pretty_chars z) as [Hne H]. destruct (pretty z) as [|c s]; [done|]. apply Forall_cons in H as [Hc%digit_code _]. cbn. intros [= E _].
  unfold lower_ascii in E. rewrite bool_decide_false in E by lia. subst c. vm_compute in Hc. lia.
Qed.

Lemma parse_render c : typed c → match render c with name :: args => parse name args = c | [] => False end.
Proof.
  destruct c as [| |k|k v ver|k v ttl ver|k|p l|mode k| |id| | | |]; intros H; cbn [render typed] in *; try done.
  - destruct H as (_ & _ & Hv). destruct ver as [ver|]; [|done]. cbn in Hv |- *. unfold parse, with_version. cbn. by rewrite ParseInt_pretty.
  - destruct H as (_ & _ & Ht & Hv). destruct ver as [ver|]; unfold parse, with_version; cbn; by rewrite !ParseInt_pretty.
  - destruct H as [_ Hl]. unfold parse, parseLimit. cbn. rewrite ParseInt_pretty by (unfold isS32, isS64 in *; lia). cbn. by rewrite wrapS32_id.
  - by destruct mode.
  - change (parse_unwatch [pretty id] = CmdUnwatch id). unfold parse_unwatch. rewrite decide_False by apply number_not_all. by rewrite ParseInt_pretty.
Qed.
Lemma render_words c : typed c → Forall word (render c).
Proof.
  assert (∀ s, bool_decide (s ≠ "") && forallb (λ a, negb (is_space a)) (String.list_ascii_of_string s) = true → word s) as Hlit.
  { intros s [H1 H2]%andb_true_iff. apply bool_decide_eq_true in H1. split; [done|]. apply Forall_forall. intros a Ha. rewrite forallb_forall in H2.
    apply negb_true_iff, H2. by apply list_elem_of_In. }
  destruct c as [| |k|k v ver|k v ttl ver|k|p l|mode k| |id| | | |]; cbn [render typed]; intros H; try done; destruct_and?;
    repeat (constructor; [first [assumption|apply word_number|by apply Hlit|by destruct mode; apply Hlit]|]); try constructor.
  all: destruct ver; repeat constructor; apply word_number.
Qed.
(** Every command can be typed: its line is read as that command. *)
Lemma command_roundtrip c : typed c → match Fields (line_of (render c)) with name :: args => parse name args = c | [] => False end.
Proof. intros H. rewrite fields_line by (by apply render_words). by apply parse_render. Qed.

(** ** Putting *)

Section put.
Context {W Sub : Type} (ck : clerk_ops W Sub) (past_deadline : W → bool).
Local Abbreviation put_loop := (put_loop ck past_deadline).

(** What a put ends with: the last write and its answer. *)
Definition put_result (put : Z → W → W * Err) (ttl : option Z) (limit : Z) (w' : W) (remembered : option Z) (out : output) : Prop :=
  match out with
  | OutPut ttl' n => ttl' = ttl ∧ 0 ≤ n < limit ∧ ∃ v w1, put v w1 = (w', OK) ∧ remembered = Some (wrapS64 (v + 1))
  | OutPutErr e => remembered = None ∧ ∃ v w1, put v w1 = (w', e) ∧ e ≠ OK
  | OutPutRefresh e gerr => remembered = None ∧ e ≠ OK ∧ gerr ≠ OK ∧ gerr ≠ ErrNoKey
  | _ => False
  end.
Lemma put_loop_spec ttl put key fuel : ∀ attempts version w, 0 ≤ attempts < 200 → 200 - attempts ≤ Z.of_nat fuel →
  ∃ w' remembered out, put_loop fuel ttl put key false attempts version w = Some (w', remembered, out) ∧ put_result put ttl 200 w' remembered out.
Proof.
  induction fuel as [|fuel IH]; intros attempts version w Ha Hf; [lia|]. cbn [Kvcli.put_loop].
  destruct (put version w) as [w1 e] eqn:E. destruct (decide (e = OK)) as [->|He].
  { eexists _, _, _. split; [done|]. cbn. split_and!; [done|lia|lia|]. eauto. }
  destruct (_ || _) eqn:Hstop; [eexists _, _, _; split; [done|]; cbn; eauto|].
  cbn [orb] in Hstop. apply orb_false_iff in Hstop as [[_ Hm]%orb_false_iff _]. apply bool_decide_eq_false in Hm. cbn [put_maxAttempts] in Hm.
  destruct (ck_Get ck key w1) as [w2 [[[? ver] ?] gerr]]. destruct (decide (gerr = OK)); [apply IH; lia|].
  destruct (decide (gerr = ErrNoKey)); [apply IH; lia|]. eexists _, _, _. split; [done|]. done.
Qed.
Lemma put_once_spec ttl put key version w :
  put_loop (Z.to_nat (put_maxAttempts true)) ttl put key true 0 version w =
    Some (let '(w', e) := put version w in if decide (e = OK) then (w', Some (wrapS64 (version + 1)), OutPut ttl 0) else (w', None, OutPutErr e)).
Proof.
  cbn [put_maxAttempts]. change (Z.to_nat 1) with 1%nat. cbn [Kvcli.put_loop]. destruct (put version w) as [w1 e]. by destruct (decide (e = OK)).
Qed.

Lemma put_total s ttl put key version w : ∃ w' s' out, run_put ck past_deadline s ttl put key version w = Some (w', s', out).
Proof.
  unfold run_put. destruct version as [v|].
  - rewrite (bool_decide_true (is_Some (Some v))) by done. rewrite put_once_spec. cbn [mbind option_bind]. destruct (put v w) as [w1 e].
    destruct (decide (e = OK)); eauto.
  - destruct (find_version ck s key w) as [w1 [gerr|v]]; [eauto|]. rewrite (bool_decide_false (is_Some None)) by (by intros []).
    destruct (put_loop_spec ttl put key (Z.to_nat (put_maxAttempts false)) 0 v w1) as (w' & rem & out & E & _); [lia|cbn; lia|].
    rewrite E. cbn [mbind option_bind]. eauto.
Qed.

(** A put or put-ttl of the client always ends, after at most 200 writes; with an
    explicit version it makes exactly one, at that version.  It reports success only
    when the last write was accepted, and then remembers the version after the one
    written; it reports an error only when the last write was refused or the version
    could not be read, and then what it remembers does not change. *)
Theorem cli_put_contract s ttl put key version w :
  ∃ w' s' out, run_put ck past_deadline s ttl put key version w = Some (w', s', out) ∧
    (∀ v, version = Some v → w' = (put v w).1 ∧
       out = if decide ((put v w).2 = OK) then OutPut ttl 0 else OutPutErr (put v w).2) ∧
    (s' = s ∨ ∃ v w1 n, put v w1 = (w', OK) ∧ out = OutPut ttl n ∧ 0 ≤ n < 200 ∧
       s' = mkCli (cl_watchers s) (cl_nextWatchID s) (<[key := wrapS64 (v + 1)]> (cl_localVersion s))) ∧
    match out with
    | OutPut _ _ => ∃ v w1, put v w1 = (w', OK) ∧ cl_localVersion s' !! key = Some (wrapS64 (v + 1))
    | OutPutErr e => s' = s ∧ ∃ v w1, put v w1 = (w', e) ∧ e ≠ OK
    | OutPutRefresh e gerr => s' = s ∧ e ≠ OK ∧ gerr ≠ OK ∧ gerr ≠ ErrNoKey
    | OutNoVersion gerr => s' = s ∧ version = None ∧ gerr ≠ OK ∧ gerr ≠ ErrNoKey
    | _ => False
    end.
Proof.
  unfold run_put. destruct version as [v|].
  - rewrite (bool_decide_true (is_Some (Some v))) by done. rewrite put_once_spec. destruct (put v w) as [w1 e] eqn:E. cbn [mbind option_bind fst snd].
    destruct (decide (e = OK)) as [->|He]; eexists _, _, _; (split; [done|]).
    + split; [intros v' [= <-]; rewrite E; by rewrite decide_True|]. split.
      * right. exists v, w, 0. done.
      * exists v, w. split; [done|]. apply lookup_insert_eq.
    + split; [intros v' [= <-]; rewrite E; by rewrite decide_False|]. split; [by left|]. split; [done|]. eauto.
  - destruct (find_version ck s key w) as [w1 [gerr|v]] eqn:Ef.
    + eexists _, _, _. split; [done|]. split; [done|]. split; [by left|]. split; [done|]. split; [done|].
      unfold find_version in Ef. destruct (cl_localVersion s !! key); [done|]. destruct (ck_Get ck key w) as [? [[[? ?] ?] g]].
      repeat case_decide; by simplify_eq.
    + rewrite (bool_decide_false (is_Some None)) by (by intros []). 
      destruct (put_loop_spec ttl put key (Z.to_nat (put_maxAttempts false)) 0 v w1) as (w' & rem & out & E & H); [lia|cbn; lia|].
      rewrite E. cbn [mbind option_bind]. eexists _, _, _. split; [done|]. split; [done|]. destruct out; cbn [put_result] in H; try done.
      * destruct H as (-> & Hn & v' & w2 & Hp & ->). split; [right; eauto 10|]. exists v', w2. split; [done|]. apply lookup_insert_eq.
      * destruct H as (-> & H). split; [by left|done].
      * destruct H as (-> & H). split; [by left|done].
Qed.
End put.

(** ** Watches *)

Section watches.
Context {W Sub : Type} (ck : clerk_ops W Sub) (past_deadline : W → bool) (clock : W → Z) (sort_by_key : list KeyValue → list KeyValue).
(** The subscriptions opened and cancelled so far. *)
Variables (opened cancelled : W → list Sub).
Definition idle (w w' : W) : Prop := opened w' = opened w ∧ cancelled w' = cancelled w.
Record lawful_clerk : Prop := {
  lc_get key w : idle w (ck_Get ck key w).1;
  lc_put key value v w : idle w (ck_Put ck key value v w).1;
  lc_ttl key value v ttl w : idle w (ck_PutWithTTL ck key value v ttl w).1;
  lc_delete key w : idle w (ck_Delete ck key w).1;
  lc_scan prefix limit w : idle w (ck_Scan ck prefix limit w).1;
  lc_watch pattern prefix w : match ck_Watch ck pattern prefix w with
    | (w', inl _) => idle w w'
    | (w', inr sub) => opened w' = opened w ++ [sub] ∧ cancelled w' = cancelled w
    end;
  lc_cancel sub w : opened (ck_Cancel ck sub w) = opened w ∧ cancelled (ck_Cancel ck sub w) = cancelled w ++ [sub] }.
Context (Hck : lawful_clerk).

Record balanced (n : Z) (s : cli Sub) (w : W) : Prop := {
  bl_subs : opened w ≡ₚ cancelled w ++ (map_to_list (cl_watchers s)).*2;
  bl_ids : map_Forall (λ id _, 1 ≤ id < cl_nextWatchID s) (cl_watchers s);
  bl_next : 1 ≤ cl_nextWatchID s ≤ n }.

Lemma idle_trans w1 w2 w3 : idle w1 w2 → idle w2 w3 → idle w1 w3.
Proof. intros [A1 A2] [B1 B2]. split; congruence. Qed.
Lemma idle_balanced n s s' w w' : idle w w' → cl_watchers s' = cl_watchers s → cl_nextWatchID s' = cl_nextWatchID s → balanced n s w → balanced n s' w'.
Proof. intros [E1 E2] E3 E4 [H1 H2 H3]. split; rewrite ?E1, ?E2, ?E3, ?E4; done. Qed.
Lemma put_loop_idle ttl put key explicit fuel : (∀ v w, idle w (put v w).1) → ∀ attempts version w w' rem out,
  put_loop ck past_deadline fuel ttl put key explicit attempts version w = Some (w', rem, out) → idle w w'.
Proof using Hck.
  intros Hput. induction fuel as [|fuel IH]; intros attempts version w w' rem out H; [done|]. cbn [put_loop] in H.
  pose proof (Hput version w) as H1. destruct (put version w) as [w1 e]. cbn in H1. destruct (decide (e = OK)); [by simplify_eq|].
  destruct (_ || _); [by simplify_eq|]. pose proof (lc_get Hck key w1) as H2. destruct (ck_Get ck key w1) as [w2 [[[? ver] ?] gerr]]. cbn in H2.
  pose proof (idle_trans _ _ _ H1 H2). repeat case_decide; [by eapply idle_trans; [|by eapply IH]..|by simplify_eq].
Qed.
Lemma run_put_idle s ttl put key version w w' s' out : (∀ v w, idle w (put v w).1) →
  run_put ck past_deadline s ttl put key version w = Some (w', s', out) → idle w w' ∧ cl_watchers s' = cl_watchers s ∧ cl_nextWatchID s' = cl_nextWatchID s.
Proof using Hck.
  intros Hput. unfold run_put. destruct (match version with Some v => (w, inr v) | None => find_version ck s key w end) as [w1 v] eqn:Ev. intros H.
  assert (idle w w1) as H1.
  { destruct version; [by injection Ev as <- _|]. unfold find_version in Ev. destruct (cl_localVersion s !! key); [by injection Ev as <- _|].
    pose proof (lc_get Hck key w) as Hg. destruct (ck_Get ck key w) as [? [[[? ?] ?] ?]]. by injection Ev as <- _. }
  destruct v as [gerr|v]; [by simplify_eq|]. destruct (put_loop _ _ _ _ _ _ _ _ _ w1) as [[[w2 rem] o]|] eqn:E; [|done]. cbn in H. injection H as <- <- <-.
  split; [eapply idle_trans; [done|by eapply put_loop_idle]|by destruct rem].
Qed.
Lemma cancel_all_balanced n s w : balanced n s w → let r := cancel_all ck s w in balanced n r.2 r.1 ∧ cl_watchers r.2 = ∅ ∧ cl_nextWatchID r.2 = cl_nextWatchID s.
Proof using Hck.
  intros [H1 H2 H3] r. subst r. unfold cancel_all. cbn [fst snd cl_watchers cl_nextWatchID]. split; [|done].
  assert (∀ l, let w' := foldr (λ '(_, sub), ck_Cancel ck sub) w (l : list (Z * Sub)) in opened w' = opened w ∧ cancelled w' ≡ₚ cancelled w ++ l.*2) as Hc.
  { induction l as [|[id sub] l [IH1 IH2]]; cbn; [by rewrite app_nil_r|]. destruct (lc_cancel Hck sub (foldr (λ '(_, sub), ck_Cancel ck sub) w l)) as [E1 E2].
    rewrite E1, E2. split; [done|]. rewrite IH2. solve_Permutation. }
  destruct (Hc (map_to_list (cl_watchers s))) as [E1 E2]. split; cbn [cl_watchers cl_nextWatchID]; [|done|done].
  rewrite E1, E2, map_to_list_empty, app_nil_r. done.
Qed.

Lemma command_balanced n c s w : balanced n s w → n < 2 ^ 63 - 1 →
  ∃ w' s' out, exec_command ck past_deadline clock sort_by_key c s w = Some (w', s', out) ∧ balanced (n + 1) s' w' ∧ (c = CmdExit → cl_watchers s' = ∅ ∧ out = OutBye).
Proof using Hck.
  intros H Hn. assert (balanced (n + 1) s w) as H' by (destruct H as [? ? []]; split; [done..|lia]).
  assert (∀ w' s' out, (c = CmdExit → False) → exec_command ck past_deadline clock sort_by_key c s w = Some (w', s', out) → idle w w' → cl_watchers s' = cl_watchers s →
    cl_nextWatchID s' = cl_nextWatchID s → ∃ w' s' out, exec_command ck past_deadline clock sort_by_key c s w = Some (w', s', out) ∧ balanced (n + 1) s' w' ∧
      (c = CmdExit → cl_watchers s' = ∅ ∧ out = OutBye)) as Hidle.
  { intros w' s' out Hc E Hi E1 E2. exists w', s', out. split_and!; [done|by eapply idle_balanced|]. intros ->. by destruct Hc. }
  assert (∀ w, idle w w) as Hrefl by done.
  destruct c as [| |k|k v ver|k v ttl ver|k|p l|mode k| |id| | | |]; cbn [exec_command] in *.
  - by eapply Hidle.
  - destruct (cancel_all_balanced _ _ _ H') as (Hb & He & _). destruct (cancel_all ck s w) as [w1 s1]. eexists _, _, _. split; [done|]. done.
  - pose proof (lc_get Hck k w) as Hi. destruct (ck_Get ck k w) as [w1 [[[val ver] ex] e]]. by eapply Hidle.
  - destruct (put_total ck past_deadline s None (ck_Put ck k v) k ver w) as (w' & s' & out & E).
    destruct (run_put_idle _ _ _ _ _ _ _ _ _ (lc_put Hck k v) E) as (? & ? & ?). by eapply Hidle.
  - destruct (put_total ck past_deadline s (Some ttl) (λ x, ck_PutWithTTL ck k v x ttl) k ver w) as (w' & s' & out & E).
    destruct (run_put_idle _ _ _ _ _ _ _ _ _ (λ x, lc_ttl Hck k v x ttl) E) as (? & ? & ?). by eapply Hidle.
  - pose proof (lc_delete Hck k w) as Hi. destruct (ck_Delete ck k w) as [w1 e]. eapply Hidle; [done|done|done|by case_decide..].
  - pose proof (lc_scan Hck p l w) as Hi. destruct (ck_Scan ck p l w) as [w1 [items e]]. by eapply Hidle.
  - pose proof (lc_watch Hck k (match mode with WatchPrefix => true | WatchKey => false end) w) as Hi.
    destruct (ck_Watch ck k _ w) as [w1 [e|sub]]; [by eapply Hidle|]. destruct Hi as [E1 E2]. eexists _, _, _. split; [done|]. split; [|done].
    destruct H as [H1 H2 H3]. assert (cl_watchers s !! cl_nextWatchID s = None) as Hfr.
    { destruct (cl_watchers s !! cl_nextWatchID s) eqn:E; [|done]. apply H2 in E. lia. }
    rewrite wrapS64_id by (unfold isS64; lia). split; cbn [cl_watchers cl_nextWatchID]; [|intros i x [[<- <-]|[_ Hx%H2]]%lookup_insert_Some; lia|lia].
    rewrite E1, E2, map_to_list_insert, H1 by done. cbn. solve_Permutation.
  - destruct (cancel_all_balanced _ _ _ H') as (Hb & He & _). destruct (cancel_all ck s w) as [w1 s1]. eexists _, _, _. split; [done|]. done.
  - destruct (cl_watchers s !! id) as [sub|] eqn:E; [|by eapply Hidle]. eexists _, _, _. split; [done|]. split; [|done].
    destruct (lc_cancel Hck sub w) as [E1 E2]. destruct H' as [H1 H2 H3]. split; cbn [cl_watchers cl_nextWatchID]; [|by apply map_Forall_delete|done].
    rewrite E1, E2, H1, <-(map_to_list_delete _ _ _ E). cbn. solve_Permutation.
  - by eapply Hidle.
  - by eapply Hidle.
  - by eapply Hidle.
  - by eapply Hidle.
Qed.

Lemma parse_exit name args : ToLower name = "exit" ∨ ToLower name = "quit" → parse name args = CmdExit.
Proof. unfold parse. intros [->| ->]; done. Qed.
Lemma session_balanced lines : ∀ n s w, balanced n s w → n + Z.of_nat (length lines) < 2 ^ 63 →
  ∃ w' s' outs, session ck past_deadline clock sort_by_key lines s w = Some (w', s', outs) ∧
    opened w' ≡ₚ cancelled w' ++ (map_to_list (cl_watchers s')).*2 ∧
    (Exists (λ line, ∃ name args, Fields (TrimSpace line) = name :: args ∧ (ToLower name = "exit" ∨ ToLower name = "quit")) lines → cl_watchers s' = ∅).
Proof using Hck.
  induction lines as [|line lines IH]; intros n s w H Hn; cbn [session length] in *.
  { eexists _, _, _. split; [done|]. split; [apply H|]. by intros ?%Exists_nil. }
  destruct (Fields (TrimSpace line)) as [|name args] eqn:Ef.
  { destruct (IH n s w H ltac:(lia)) as (w' & s' & outs & E & Hb & Hx). exists w', s', outs. split_and!; [done..|].
    intros [(name & args & E' & _)|Hr]%Exists_cons; [by rewrite Ef in E'|by apply Hx]. }
  destruct (command_balanced n (parse name args) s w H ltac:(lia)) as (w1 & s1 & out & E & Hb & Hx). rewrite E. cbn [mbind option_bind].
  destruct (decide _) as [Hq|Hq].
  - eexists _, _, _. split; [done|]. split; [apply Hb|]. intros _. by apply Hx, parse_exit.
  - destruct (IH (n + 1) s1 w1 Hb ltac:(lia)) as (w' & s' & outs & E' & Hb' & Hx'). rewrite E'. cbn [mbind option_bind]. eexists _, _, _. split; [done|].
    split; [done|]. intros [(name' & args' & E'' & Hq')|Hr]%Exists_cons; [rewrite Ef in E''; by simplify_eq|by apply Hx'].
Qed.

(** A session of the client on any input ends at its last line or at the first
    exit; at its end the watches it has opened are those it has cancelled, each once,
    and those that are still listed; after an exit none is left. *)
Theorem cli_session_clean lines w : opened w = [] → cancelled w = [] → Z.of_nat (length lines) < 2 ^ 63 - 1 →
  ∃ w' s' outs, main_session ck past_deadline clock sort_by_key lines w = Some (w', s', outs) ∧
    opened w' ≡ₚ cancelled w' ++ (map_to_list (cl_watchers s')).*2 ∧
    (Exists (λ line, ∃ name args, Fields (TrimSpace line) = name :: args ∧ (ToLower name = "exit" ∨ ToLower name = "quit")) lines →
       opened w' ≡ₚ cancelled w').
Proof using Hck.
  intros Ho Hc Hn. destruct (session_balanced lines 1 (mkCli ∅ 1 ∅) w) as (w' & s' & outs & E & Hb & Hx); [|lia|].
  - split; cbn; [by rewrite Ho, Hc, map_to_list_empty|apply map_Forall_empty|lia].
  - exists w', s', outs. split_and!; [done..|]. intros He. by rewrite Hb, Hx, map_to_list_empty, app_nil_r.
Qed.
End watches.

(** ** Runs *)

(** A clerk of a single map; subscriptions are numbered. *)
Record memory := { mm_entries : gmap string (string * Z); mm_opened : list nat; mm_cancelled : list nat }.
Definition mm_put (key value : string) (version : Z) (w : memory) : memory * Err :=
  let current := from_option snd 0 (mm_entries w !! key) in
  if decide (current = version)
  then ({| mm_entries := <[key := (value, version + 1)]> (mm_entries w); mm_opened := mm_opened w; mm_cancelled := mm_cancelled w |}, OK)
  else (w, ErrVersion).
Definition mm_clerk : clerk_ops memory nat := {|
  ck_Get key w := (w, match mm_entries w !! key with Some (v, n) => (v, n, 0, OK) | None => ("", 0, 0, ErrNoKey) end);
  ck_Put := mm_put; ck_PutWithTTL key value version ttl := mm_put key value version;
  ck_Delete key w := ({| mm_entries := delete key (mm_entries w); mm_opened := mm_opened w; mm_cancelled := mm_cancelled w |}, OK);
  ck_Scan prefix limit w := (w, ([], OK));
  ck_Watch pattern prefix w := let id := length (mm_opened w) in
    ({| mm_entries := mm_entries w; mm_opened := mm_opened w ++ [id]; mm_cancelled := mm_cancelled w |}, inr id);
  ck_Cancel id w := {| mm_entries := mm_entries w; mm_opened := mm_opened w; mm_cancelled := mm_cancelled w ++ [id] |} |}.
Lemma mm_lawful : lawful_clerk mm_clerk mm_opened mm_cancelled.
Proof. split; try done; cbn; intros; unfold mm_put; by case_decide. Qed.
Definition mm_empty : memory := {| mm_entries := ∅; mm_opened := []; mm_cancelled := [] |}.
Definition mm_lines : list string :=
  ["watch key a"; "  put a x  "; "put a y"; ""; "watch prefix b"; "unwatch 1"; "put a z 7"; "LIST-WATCH"; "exit"; "get a"].
Lemma mm_session : match main_session mm_clerk (λ _, false) (λ _, 0) id mm_lines mm_empty with
  | Some (w, s, outs) => mm_entries w !! "a" = Some ("y", 2) ∧ mm_cancelled w = [0; 1]%nat ∧
      outs = [OutWatch 1 WatchKey "a"; OutPut None 0; OutPut None 0; OutWatch 2 WatchPrefix "b"; OutCanceled 1; OutPutErr ErrVersion; OutWatches [2]; OutBye]
  | None => False
  end.
Proof. by vm_compute. Qed.
Lemma cli_session_clean_witness : ∃ w' s' outs, main_session mm_clerk (λ _, false) (λ _, 0) id mm_lines mm_empty = Some (w', s', outs) ∧ mm_opened w' ≡ₚ mm_cancelled w'.
Proof.
  destruct (cli_session_clean mm_clerk (λ _, false) (λ _, 0) id mm_opened mm_cancelled mm_lawful mm_lines mm_empty eq_refl eq_refl ltac:(by vm_compute)) as (w' & s' & outs & E & _ & H).
  exists w', s', outs. split; [exact E|]. apply H. do 8 right. left. exists "exit", []. split; [by vm_compute|by left].
Defined.

(** A limit is cut to 32 bits: 2^32 asks for everything. *)
Theorem limit_wraps : parse "scan" ["p"; "4294967296"] = CmdScan "p" 0 ∧ parse "scan" ["p"; "4294967297"] = CmdScan "p" 1.
Proof. by vm_compute. Qed.

(** The client reads the groups of a configuration but not its table of owners. *)
Lemma cli_config cfg : config_writable cfg → loadShardingConfig (Some (writeConfig cfg)) =
  Some {| sc_Groups := sc_Groups cfg; sc_NumShards := 0; sc_VirtualNodeCount := sc_VirtualNodeCount cfg; sc_PreferredReplicas := sc_PreferredReplicas cfg;
          sc_ConnectTimeout := sc_ConnectTimeout cfg; sc_RequestTimeout := sc_RequestTimeout cfg; sc_ShardToGroup := []; sc_TopologyEpoch := 0 |}.
Proof.
  intros H. pose proof (config_reloaded cfg H) as E. unfold loadConfig, loadShardingConfig in *. cbn [as_struct mbind option_bind writeConfig] in *.
  destruct (as_slice unmarshal_jsonGroup _) as [gs|]; [|done]. cbn [mbind option_bind] in *.
  destruct (as_int64 (jfield "virtual_node_count" _)) as [vn|]; [|done]. cbn [mbind option_bind] in *.
  destruct (as_int64 (jfield "connect_timeout_ms" _)) as [ct|]; [|done]. cbn [mbind option_bind] in *.
  destruct (as_int64 (jfield "request_timeout_ms" _)) as [rt|]; [|done]. cbn [mbind option_bind] in *.
  destruct (as_int64 (jfield "preferred_replicas" _)) as [pr|]; [|done]. cbn [mbind option_bind] in *.
  destruct (as_int64 (jfield "num_shards" _)); [|done]. cbn [mbind option_bind] in *. destruct (as_slice as_int64_elem _); [|done]. cbn [mbind option_bind] in *.
  destruct (as_int64 (jfield "topology_epoch" _)); [|done]. cbn [mbind option_bind] in *. by injection E as <-.
Qed.
(** After the expansion of [KvMigrateProps] a key with hash 6 is in group 2; the
    client that reads the new configuration sends it to group 1. *)
Theorem cli_misroutes :
  (cfg ← loadConfig (Some kx_file); match NewShardRouter (λ _, true) 0 cfg with Some (inr r) => router_Resolve (λ _, 6) r "x" | _ => None end) = Some 2 ∧
  (cfg ← loadShardingConfig (Some kx_file); match NewShardRouter (λ _, true) 0 cfg with Some (inr r) => router_Resolve (λ _, 6) r "x" | _ => None end) = Some 1.
Proof. by vm_compute. Qed.
