(* ===== verification/Bootstrap.v ===== *)
(** * Bootstrap: the server process
      (src/cmd/server/main.go, src/pkg/kv/bootstrap.go, settings of
      src/pkg/kv/consensus.go and src/pkg/kv/grpc.go)

    The settings read from the environment, the addresses a node listens on, the
    start of a server ([StartKVServer] composed of [NewKVServer], [MakeRSM] and
    [RebuildLockTable]), the accept loop, the HTTP handlers and the order of the
    shutdown.  [os.Getenv] and [os.Stat] are arguments; listening sockets are
    taken to open. *)
From Stdlib Require Import Ascii.
From stdpp Require Import prelude gmap strings pretty.
From S2P Require Import Prelude Json JsonText KvApi ExpiryHeap Store ShardState Tx Wal Rsm Server KvMigrate Pb.
From stdpp Require Import options.
Local Open Scope Z_scope.

(** ** Settings *)

Section environment.
Variable getenv : string → string.
(** Whether [/data] is a directory. *)
Variable data_dir : bool.

Definition runtimeDataRoot : string :=
  let v := TrimSpace (getenv "KV_DATA_DIR") in
  if decide (v ≠ "") then v else if data_dir then "/data" else "data".

Definition leaseStatsEnabledFromEnv : bool :=
  let v := TrimSpace (ToLower (getenv "KV_LEASE_STATS")) in
  bool_decide (v = "1" ∨ v = "true" ∨ v = "yes" ∨ v = "on").

Definition boolEnvDefault (name : string) (def : bool) : bool :=
  let v := TrimSpace (ToLower (getenv name)) in
  if decide (v = "") then def
  else if decide (v = "1" ∨ v = "true" ∨ v = "yes" ∨ v = "on") then true
  else if decide (v = "0" ∨ v = "false" ∨ v = "no" ∨ v = "off") then false
  else def.

Definition leaseReadEnabledFromEnv : bool :=
  let v := TrimSpace (ToLower (getenv "KV_LEASE_READ")) in
  if decide (v = "") then true
  else if decide (v = "1" ∨ v = "true" ∨ v = "yes" ∨ v = "on") then true
  else if decide (v = "0" ∨ v = "false" ∨ v = "no" ∨ v = "off") then false
  else true.

Definition getenvInt (name : string) (def : Z) : Z :=
  let raw := TrimSpace (getenv name) in
  if decide (raw = "") then def else default def (ParseInt raw).

Definition getenvStr (name def : string) : string :=
  let raw := TrimSpace (getenv name) in
  if decide (raw = "") then def else raw.

(** ** The configuration of a node *)

Record node_config := {
  nc_nodeID : Z; nc_groupID : Z; nc_servers : list string; nc_rpcAddr : string;
  nc_httpAddr : string; nc_metricsAddr : string; nc_pprofAddr : string; nc_maxRaftState : Z;
  nc_dataDir : string }.

Inductive fatal := NoPeers | BadNodeID (nodeID : Z) (peers : nat).

(** [main] up to the persister. *)
Definition main_config : fatal + node_config :=
  let nodeID := getenvInt "NODE_ID" 0 in
  let groupID := getenvInt "GROUP_ID" 1 in
  let peers := TrimSpace (getenv "RAFT_PEERS") in
  if decide (peers = "") then inl NoPeers else
  let servers := TrimSpace <$> Split ","%char peers in
  if decide (nodeID < 0) then inl (BadNodeID nodeID (length servers)) else
  match servers !! Z.to_nat nodeID with
  | None => inl (BadNodeID nodeID (length servers))
  | Some rpcAddr =>
      inr {| nc_nodeID := nodeID; nc_groupID := groupID; nc_servers := servers; nc_rpcAddr := rpcAddr;
             nc_httpAddr := getenvStr "REST_LISTEN" "0.0.0.0:8001";
             nc_metricsAddr := getenvStr "METRICS_LISTEN" "0.0.0.0:9100";
             nc_pprofAddr := getenvStr "PPROF_LISTEN" "";
             nc_maxRaftState := getenvInt "MAX_RAFT_STATE" 1048576;
             nc_dataDir := runtimeDataRoot +:+ "/node-" +:+ pretty nodeID |}
  end.

(** ** Addresses *)

Fixpoint contains_char (c : ascii) (s : string) : bool :=
  match s with EmptyString => false | String a s => bool_decide (a = c) || contains_char c s end.
(** Split at the last occurrence of a character. *)
Fixpoint cut_last (c : ascii) (s : string) : option (string * string) :=
  match s with
  | EmptyString => None
  | String a s => match cut_last c s with
                  | Some (h, t) => Some (String a h, t)
                  | None => if bool_decide (a = c) then Some (EmptyString, s) else None
                  end
  end.

(** [net.SplitHostPort]; [None] is an error. *)
Definition SplitHostPort (hostport : string) : option (string * string) :=
  match hostport with
  | String "[" rest =>
      match cut_at "]" rest with
      | None => None
      | Some (host, after) =>
          match after with
          | String ":" port =>
              if contains_char ":" port || contains_char "[" host || contains_char "[" after || contains_char "]" after
              then None else Some (host, port)
          | _ => None
          end
      end
  | _ =>
      match cut_last ":" hostport with
      | None => None
      | Some (host, port) =>
          if contains_char ":" host || contains_char "[" hostport || contains_char "]" hostport
          then None else Some (host, port)
      end
  end.
(** [net.JoinHostPort] *)
Definition JoinHostPort (host port : string) : string :=
  if contains_char ":" host then "[" +:+ host +:+ "]:" +:+ port else host +:+ ":" +:+ port.

Definition grpcAddrFromRPC (addr : string) : string :=
  let explicit := TrimSpace (getenv "GRPC_LISTEN") in
  if decide (explicit ≠ "") then explicit else
  match SplitHostPort addr with
  | None => addr
  | Some (host, port) =>
      match ParseInt port with
      | None => addr
      | Some p => JoinHostPort host (pretty (wrapS64 (p + 1000)))
      end
  end.

Record NodeStatus := { ns_id : Z; ns_address : string; ns_is_leader : bool; ns_is_alive : bool }.
Record ClusterStatusResponse := {
  cs_leader_id : string; cs_nodes : list NodeStatus; cs_current_term : Z; cs_last_applied : Z;
  cs_group_id : Z; cs_topology_epoch : Z }.

Definition GetClusterStatus {DB} (kv : KVServer DB) (address : string) (state : Z * bool) (lastApplied : Z)
    : ClusterStatusResponse :=
  {| cs_leader_id := "node-" +:+ pretty (kv_me kv);
     cs_nodes := [{| ns_id := wrapS32 (kv_me kv); ns_address := grpcAddrFromRPC address;
                     ns_is_leader := state.2; ns_is_alive := negb (Server.killed kv) |}];
     cs_current_term := state.1; cs_last_applied := lastApplied;
     cs_group_id := wrapS32 (kv_groupID kv); cs_topology_epoch := 0 |}.
End environment.

(** The interceptor: a handler's answer, with the headers of the group. *)
Definition topoInterceptor {DB Req Resp} (kv : KVServer DB) (handler : Req → Resp) (req : Req)
    : Resp * list (string * string) :=
  (handler req, [("x-group-id", pretty (kv_groupID kv)); ("x-topology-epoch", pretty (TopologyEpoch kv))]).

(** ** The start of a server *)

Section start.
Context {DB : Type} `{Badger DB}.
Variable Sum64String : string → Z.
#[local] Existing Instance kv_state_machine.

(** The transaction manager has no router yet; an error of [RebuildLockTable]
    is only logged. *)
Definition StartKVServer (w : text → text → write_result) (k : nat) (env : kv_env) (envs : Z → kv_env) (now gid me maxraftstate : Z)
    (leaseRead : bool) (store : Store DB) (snapshot : option rsm_snapshot) (lastIncludedIndex : Z)
    (walLogger : option Logger) : option (RSM (KVServer DB)) :=
  let kvServer := NewKVServer me gid store in
  rsm ← @MakeRSM _ _ (kv_state_machine Sum64String) w k env envs now me maxraftstate leaseRead kvServer snapshot lastIncludedIndex walLogger;
  tm ← RebuildLockTable gid None (ke_order env) (kv_tm (rsm_sm rsm));
  Some (with_sm (kv_with_tm (rsm_sm rsm) tm) rsm).
End start.

(** [SetRouterAndRecover] of the transaction manager: the first router is kept,
    and the recovery runs with it once. *)
Definition SetRouterAndRecover {R A} (recover : R → A) (new : R) (router : option R) : option R * option A :=
  match router with
  | Some _ => (router, None)
  | None => (Some new, Some (recover new))
  end.

(** ** Serving *)

(** One round of the accept loop: whether the server was alive at the test, what
    [Accept] returned, and whether it was alive after. *)
Inductive accepted := Served (conn : nat) | Closed (conn : nat) | ListenerClosed.
Fixpoint accept_loop (rounds : list (bool * option nat * bool)) : list accepted :=
  match rounds with
  | [] => []
  | (alive, conn, alive') :: rounds =>
      if alive then
        match conn with
        | Some c => (if alive' then Served c else Closed c) :: accept_loop rounds
        | None => accept_loop rounds
        end
      else [ListenerClosed]
  end.

(** [/health] and [/ready]: the status and the body. *)
Definition http_health {DB} (kv : KVServer DB) : Z * string :=
  if negb (Server.killed kv) then (200, "ok") else (503, "server stopped" +:+ String newline "").
Definition http_ready {DB} (kv : KVServer DB) : Z * string :=
  if negb (Server.killed kv) then (200, "ready") else (503, "not ready" +:+ String newline "").

Definition println (s : string) : string := s +:+ String newline "".
Definition metric (name help : string) (v : Z) : string :=
  println ("# HELP " +:+ name +:+ " " +:+ help) +:+ println ("# TYPE " +:+ name +:+ " counter") +:+
  println (name +:+ " " +:+ pretty v).
Definition http_metrics (stats : ServerStats) : string :=
  metric "kvraft_total_requests" "Total requests processed" (TotalRequests stats) +:+
  metric "kvraft_total_reads" "Total read requests" (TotalReads stats) +:+
  metric "kvraft_total_writes" "Total write requests" (TotalWrites stats) +:+
  metric "kvraft_failed_requests" "Total failed requests" (FailedRequests stats) +:+
  metric "kvraft_watch_notifies" "Total watch notifications" (WatchNotifies stats).

(** What [main] does after the signal, in order. *)
Inductive shutdown_step := StopHTTP | StopMetrics | StopPprof | KillServer | ClosePersister.
Definition main_shutdown (cfg : node_config) : list shutdown_step :=
  [StopHTTP; StopMetrics] ++ (if decide (nc_pprofAddr cfg ≠ "") then [StopPprof] else []) ++ [KillServer; ClosePersister].
