(* ===== verification/BootstrapProps.v ===== *)
(** * BootstrapProps: settings, addresses and the start of a server *)
From Stdlib Require Import Ascii.
From stdpp Require Import prelude gmap strings pretty.
From S2P Require Import Prelude Json JsonText KvApi ExpiryHeap Store ShardState Tx TxProps Wal Rsm Server KvMigrate Pb Bootstrap.
From stdpp Require Import options.
Local Open Scope Z_scope.

(** ** Settings *)

(** The two readers of switches agree. *)
Lemma leaseRead_is_boolEnv getenv : leaseReadEnabledFromEnv getenv = boolEnvDefault getenv "KV_LEASE_READ" true.
Proof. done. Qed.

(** [main] goes on exactly when [RAFT_PEERS] is not blank and [NODE_ID] is the
    position of one of its parts, which is then the node's address. *)
Lemma main_config_spec getenv dd : let peers := TrimSpace (getenv "RAFT_PEERS") in
  let servers := TrimSpace <$> Split ","%char peers in let id := getenvInt getenv "NODE_ID" 0 in
  match main_config getenv dd with
  | inl NoPeers => peers = ""
  | inl (BadNodeID i n) => peers ≠ "" ∧ i = id ∧ n = length servers ∧ (id < 0 ∨ Z.of_nat (length servers) ≤ id)
  | inr c => peers ≠ "" ∧ 0 ≤ id ∧ nc_nodeID c = id ∧ nc_servers c = servers ∧ servers !! Z.to_nat id = Some (nc_rpcAddr c)
  end.
Proof.
  cbv zeta. unfold main_config. set (peers := TrimSpace (getenv "RAFT_PEERS")). set (id := getenvInt getenv "NODE_ID" 0).
  case_decide as Hp; [done|]. case_decide as Hi; [by split_and!; auto|].
  destruct ((TrimSpace <$> Split ","%char peers) !! Z.to_nat id) as [a|] eqn:E; [by split_and!; [done|lia|..]|].
  apply lookup_ge_None in E. split_and!; [done..|]. right. lia.
Qed.

(** ** Addresses *)

Lemma contains_app c s t : contains_char c (s +:+ t) = contains_char c s || contains_char c t.
Proof.
  induction s as [|a s IH]; [done|]. change (bool_decide (a = c) || contains_char c (s +:+ t) = (bool_decide (a = c) || contains_char c s) || contains_char c t).
  by rewrite IH, orb_assoc.
Qed.
Lemma contains_forall c s : Forall (λ a, a ≠ c) (String.list_ascii_of_string s) → contains_char c s = false.
Proof.
  induction s as [|a s IH]; [done|]. intros [Ha Hs]%Forall_cons. cbn. by rewrite bool_decide_false, IH.
Qed.
Lemma pretty_N_digits (n : N) : Forall (λ c, is_digit c = true) (String.list_ascii_of_string (pretty n)).
Proof. unfold pretty, pretty_N. case_decide; [by repeat constructor|]. by apply pretty_N_go_digits. Qed.
Lemma port_no_char c (p : Z) : 0 ≤ p → is_digit c = false → contains_char c (pretty p) = false.
Proof.
  intros Hp Hc. destruct p as [|p|p]; [| |lia].
  - change (pretty 0) with (pretty 0%N). apply contains_forall. eapply Forall_impl; [apply pretty_N_digits|]. intros a Ha ->. congruence.
  - change (pretty (Z.pos p)) with (pretty (N.pos p)). apply contains_forall. eapply Forall_impl; [apply pretty_N_digits|]. intros a Ha ->. congruence.
Qed.

Lemma cut_last_app c h t : contains_char c t = false → cut_last c (h +:+ String c t) = Some (h, t).
Proof.
  intros Ht. assert (cut_last c t = None) as Hn.
  { induction t as [|a t IH]; [done|]. cbn in Ht |- *. apply orb_false_iff in Ht as [Ha Ht]. by rewrite IH, Ha. }
  induction h as [|a h IH].
  - change (cut_last c (String c t) = Some ("", t)). cbn. rewrite Hn. by rewrite bool_decide_true.
  - change (match cut_last c (h +:+ String c t) with Some (h, t) => Some (String a h, t) | None => if bool_decide (a = c) then Some ("", h +:+ String c t) else None end = Some (String a h, t)).
    by rewrite IH.
Qed.
Lemma cut_at_app c h t : contains_char c h = false → cut_at c (h +:+ String c t) = Some (h, t).
Proof.
  induction h as [|a h IH]; intros Hh.
  - change (cut_at c (String c t) = Some ("", t)). cbn. by rewrite decide_True.
  - cbn in Hh. apply orb_false_iff in Hh as [Ha%bool_decide_eq_false Hh].
    change ((if decide (a = c) then Some ("", h +:+ String c t) else '(x, y) ← cut_at c (h +:+ String c t); Some (String a x, y)) = Some (String a h, t)).
    rewrite decide_False, IH by done. done.
Qed.

(** What [JoinHostPort] puts together, [SplitHostPort] takes apart. *)
Lemma split_join host port : contains_char "[" host = false → contains_char "]" host = false →
  contains_char ":" port = false → contains_char "[" port = false → contains_char "]" port = false →
  SplitHostPort (JoinHostPort host port) = Some (host, port).
Proof.
  intros H1 H2 P1 P2 P3. unfold JoinHostPort. destruct (contains_char ":" host) eqn:Hc.
  - change ("[" +:+ host +:+ "]:" +:+ port) with (String "[" (host +:+ String "]" (String ":" port))). unfold SplitHostPort.
    rewrite cut_at_app by done. cbn [contains_char]. by rewrite P1, P2, P3, H1.
  - assert (cut_last ":" (host +:+ ":" +:+ port) = Some (host, port)) as Hcut by (by apply cut_last_app).
    assert (contains_char "[" (host +:+ ":" +:+ port) = false) as Hl by (rewrite contains_app; change (":" +:+ port) with (String ":" port); cbn; by rewrite H1, P2).
    assert (contains_char "]" (host +:+ ":" +:+ port) = false) as Hr by (rewrite contains_app; change (":" +:+ port) with (String ":" port); cbn; by rewrite H2, P3).
    unfold SplitHostPort. destruct (host +:+ ":" +:+ port) as [|a s] eqn:E; [done|].
    assert (a ≠ "["%char) as Ha. { intros ->. done. }
    rewrite Hcut. rewrite Hc, Hl, Hr. cbn [orb]. destruct a as [[] [] [] [] [] [] [] []]; try done.
Qed.

(** A node's gRPC address is its raft address with the port raised by 1000,
    unless [GRPC_LISTEN] names one. *)
Lemma grpc_address getenv host p : TrimSpace (getenv "GRPC_LISTEN") = "" →
  contains_char "[" host = false → contains_char "]" host = false → 0 ≤ p < 2^63 - 1000 →
  grpcAddrFromRPC getenv (JoinHostPort host (pretty p)) = JoinHostPort host (pretty (p + 1000)).
Proof.
  intros He H1 H2 Hp. unfold grpcAddrFromRPC. rewrite He, decide_False by (intros Hn; by apply Hn).
  rewrite split_join; [|done|done|apply port_no_char; [lia|done]..].
  rewrite ParseInt_pretty by (unfold isS64; lia). by rewrite wrapS64_id by (unfold isS64; lia).
Qed.

(** Servers at different addresses get different gRPC addresses. *)
Theorem grpc_addresses_differ getenv host host' p p' : TrimSpace (getenv "GRPC_LISTEN") = "" →
  contains_char "[" host = false → contains_char "]" host = false →
  contains_char "[" host' = false → contains_char "]" host' = false →
  0 ≤ p < 2^63 - 1000 → 0 ≤ p' < 2^63 - 1000 →
  grpcAddrFromRPC getenv (JoinHostPort host (pretty p)) = grpcAddrFromRPC getenv (JoinHostPort host' (pretty p')) →
  host = host' ∧ p = p'.
Proof.
  intros He A1 A2 B1 B2 Hp Hp' E. rewrite !grpc_address in E by done. apply (f_equal SplitHostPort) in E.
  rewrite !split_join in E by (done || (apply port_no_char; [lia|done])). injection E as -> E. split; [done|].
  apply (f_equal ParseInt) in E. rewrite !ParseInt_pretty in E by (unfold isS64; lia). injection E. lia.
Qed.

(** ** The accept loop *)

(** Every accepted connection is served or closed; none is served after the
    server was killed. *)
Lemma accept_loop_handles rounds c : (∃ a, (true, Some c, a) ∈ rounds) → (∀ a b c', (a, c', b) ∈ rounds → a = true) →
  Served c ∈ accept_loop rounds ∨ Closed c ∈ accept_loop rounds.
Proof.
  induction rounds as [|[[al cn] al'] rounds IH]; intros [a Ha] Hall; [by apply elem_of_nil in Ha|].
  assert (al = true) as -> by (eapply (Hall al al' cn); by left). cbn [accept_loop].
  apply elem_of_cons in Ha as [[= <- <-]|Ha]; [destruct a; [left|right]; by left|].
  destruct IH as [H|H]; [by exists a|intros a' b c' Hin; eapply Hall; right; exact Hin|..];
    (destruct cn; [destruct al'|]; rewrite ?elem_of_cons; auto).
Qed.

(** ** The start *)

Section start.
Context {DB : Type} `{Badger DB}.
Variable Sum64String : string → Z.

(** Over a store whose transaction records are well formed, once the snapshot
    and the log have been applied the start returns, and then exactly the keys
    that undecided prepared transactions write are locked, each by its
    transaction: a prepared transaction keeps its locks over a restart. *)
Theorem start_holds_locks w k env envs now gid me mrs lease store sn lii wl r0 :
  @MakeRSM _ _ (kv_state_machine Sum64String) w k env envs now me mrs lease (NewKVServer me gid store) sn lii wl = Some r0 →
  (∀ l, ke_order env l ≡ₚ l) → tm_locked (kv_tm (rsm_sm r0)) = false → tx_inv (kv_tm (rsm_sm r0)) →
  write_sets_disjoint (kv_store (rsm_sm r0)) →
  ∃ r, StartKVServer Sum64String w k env envs now gid me mrs lease store sn lii wl = Some r ∧
    rsm_lastApplied r = rsm_lastApplied r0 ∧ tm_locked (kv_tm (rsm_sm r)) = false ∧ tx_inv (kv_tm (rsm_sm r)) ∧
    ∀ key t, tm_lockTable (kv_tm (rsm_sm r)) !! key = Some t ↔
      ∃ rec, GetTxRecord (kv_store (rsm_sm r0)) (txPreparePrefix +:+ t) ≫= unmarshal_prepared = Some rec ∧
        undecided gid None (kv_store (rsm_sm r0)) rec ∧ key ∈ WriteKey_Key <$> pr_WriteKeys rec.
Proof.
  intros Hm Hord Hl Hi Hd. unfold StartKVServer. rewrite Hm. cbn [mbind option_bind].
  destruct (RebuildLockTable_ok gid None (ke_order env) _ Hord Hl Hi) as (tm & E & Hl' & Hi' & _). rewrite E.
  destruct (RebuildLockTable_exact gid None (ke_order env) _ tm Hord Hl Hi Hd E) as [_ Hlk].
  eexists. split; [done|]. cbn. split_and!; [done|done|done|]. intros key t. rewrite Hlk. unfold kv_store. naive_solver.
Qed.
End start.
