(* ===== verification/Gob.v ===== *)
(** * Gob: the part of [encoding/gob] that pkg/raft relies on

    The hard state ([encodeHardState]/[readHardState]) is a gob stream of two
    [int] messages; its wire format is modelled byte for byte and shown to
    round trip.  A log command is an arbitrary Go value inside an interface
    field; its codec is the interface [GobCommand], which states the
    documented behaviour of [Encode] followed by [Decode]. *)
From stdpp Require Import prelude.
From S2P Require Import Prelude.
From stdpp Require Import options.
Local Open Scope Z_scope.

(** ** Unsigned and signed integers *)

(** Big-endian value of a byte string. *)
Definition be_get (bs : bytes) : Z := le_get (reverse bs).
Definition be_put (n : nat) (z : Z) : bytes := reverse (le_put n z).

(** [8 - bits.LeadingZeros64(x) >> 3]: the number of significant bytes. *)
Definition gob_bytelen (x : Z) : nat := Z.to_nat (Z.log2 x `div` 8 + 1).

(** [encoderState.encodeUint]. *)
Definition gob_encodeUint (x : Z) : bytes :=
  if bool_decide (x ≤ 127) then [x]
  else (256 - Z.of_nat (gob_bytelen x)) :: be_put (gob_bytelen x) x.

(** [encoderState.encodeInt]. *)
Definition gob_encodeInt (i : Z) : bytes :=
  gob_encodeUint (if bool_decide (i < 0) then 2 * (- i - 1) + 1 else 2 * i).

(** [decodeUint]: the value and the bytes left. *)
Definition gob_decodeUint (bs : bytes) : option (Z * bytes) :=
  match bs with
  | [] => None
  | b :: bs =>
      if bool_decide (b ≤ 127) then Some (b, bs)
      else
        let n := Z.to_nat (256 - b) in
        if bool_decide (n ≤ 8)%nat && bool_decide (n ≤ length bs)%nat
        then Some (be_get (take n bs), drop n bs) else None
  end.

(** [decodeInt]. *)
Definition gob_decodeInt (bs : bytes) : option (Z * bytes) :=
  '(x, rest) ← gob_decodeUint bs;
  Some (if Z.odd x then - (x `div` 2) - 1 else x `div` 2, rest).

(** ** Messages: [Encoder.Encode(v)] and [Decoder.Decode(&v)] for an [int] *)

(** The type id of [int] is 2; a value that is not a struct is preceded by a
    zero field delta. *)
Definition gob_int_body (v : Z) : bytes := gob_encodeInt 2 ++ [0] ++ gob_encodeInt v.
Definition gob_Encode_int (v : Z) : bytes :=
  gob_encodeUint (Z.of_nat (length (gob_int_body v))) ++ gob_int_body v.

Definition gob_Decode_int (bs : bytes) : option (Z * bytes) :=
  '(n, bs) ← gob_decodeUint bs;
  let n := Z.to_nat n in
  if bool_decide (n ≤ length bs)%nat then
    '(id, m) ← gob_decodeInt (take n bs);
    if bool_decide (id = 2) then
      '(delta, m) ← gob_decodeUint m;
      if bool_decide (delta = 0) then
        '(v, _) ← gob_decodeInt m;
        Some (v, drop n bs)
      else None
    else None
  else None.

(** ** Round trips *)

Lemma gob_bytelen_bounds x :
  128 ≤ x < 2^64 →
  (1 ≤ gob_bytelen x ≤ 8)%nat ∧ x < 256 ^ Z.of_nat (gob_bytelen x).
Proof.
  intros [Hlo Hhi]. unfold gob_bytelen.
  assert (0 ≤ Z.log2 x < 64).
  { split; [apply Z.log2_nonneg|]. apply Z.log2_lt_pow2; lia. }
  assert (0 ≤ Z.log2 x `div` 8 < 8).
  { split; [apply Z.div_pos; lia|]. apply Z.div_lt_upper_bound; lia. }
  split; [lia|]. rewrite Z2Nat.id by lia.
  change 256 with (2^8). rewrite <-Z.pow_mul_r by lia.
  apply Z.log2_lt_pow2; [lia|].
  pose proof (Z.div_mod (Z.log2 x) 8 ltac:(lia)).
  pose proof (Z.mod_pos_bound (Z.log2 x) 8 ltac:(lia)). lia.
Qed.

Lemma gob_uint_roundtrip x rest :
  isU64 x → gob_decodeUint (gob_encodeUint x ++ rest) = Some (x, rest).
Proof.
  unfold isU64. intros Hx. unfold gob_encodeUint. case_bool_decide.
  { simpl. by rewrite bool_decide_true by lia. }
  destruct (gob_bytelen_bounds x) as [Hn Hlt]; [lia|].
  assert (length (be_put (gob_bytelen x) x) = gob_bytelen x) as Hlen.
  { unfold be_put. by rewrite length_reverse, length_le_put. }
  cbn [app gob_decodeUint]. rewrite bool_decide_false by lia.
  replace (Z.to_nat (256 - (256 - Z.of_nat (gob_bytelen x)))) with (gob_bytelen x) by lia.
  rewrite !bool_decide_true by (rewrite ?length_app; lia). cbn [andb].
  rewrite take_app_length', drop_app_length' by done.
  unfold be_get, be_put. rewrite reverse_involutive, le_get_put.
  by rewrite Z.mod_small by lia.
Qed.

Lemma gob_int_roundtrip i rest :
  isS64 i → gob_decodeInt (gob_encodeInt i ++ rest) = Some (i, rest).
Proof.
  unfold isS64. intros Hi. unfold gob_decodeInt, gob_encodeInt.
  rewrite gob_uint_roundtrip by (unfold isU64; case_bool_decide; lia).
  cbn [mbind option_bind]. case_bool_decide.
  - replace (Z.odd (2 * (- i - 1) + 1)) with true
      by (rewrite Z.add_comm, Z.odd_add_mul_2; done).
    replace (2 * (- i - 1) + 1) with (1 + (- i - 1) * 2) by lia.
    rewrite Z.div_add by lia. change (1 `div` 2) with 0.
    by replace (- (0 + (- i - 1)) - 1) with i by lia.
  - replace (Z.odd (2 * i)) with false by (by rewrite Z.odd_mul).
    rewrite Z.mul_comm, Z.div_mul by lia. done.
Qed.

Lemma length_gob_encodeUint x : isU64 x → (length (gob_encodeUint x) ≤ 9)%nat.
Proof.
  unfold isU64, gob_encodeUint. intros ?. case_bool_decide; [simpl; lia|].
  unfold be_put. cbn [length]. rewrite length_reverse, length_le_put.
  destruct (gob_bytelen_bounds x); lia.
Qed.

Lemma length_gob_int_body v : isS64 v → (length (gob_int_body v) ≤ 11)%nat.
Proof.
  intros Hv. unfold gob_int_body. rewrite !length_app. unfold isS64 in Hv.
  pose proof (length_gob_encodeUint (if bool_decide (v < 0) then 2 * (- v - 1) + 1 else 2 * v)) as Hl.
  unfold gob_encodeInt at 2. change (length (gob_encodeInt 2)) with 1%nat.
  change (length [0]) with 1%nat.
  assert (isU64 (if bool_decide (v < 0) then 2 * (- v - 1) + 1 else 2 * v)).
  { unfold isU64. case_bool_decide; lia. }
  specialize (Hl ltac:(done)). lia.
Qed.

Lemma length_gob_Encode_int v : isS64 v → (length (gob_Encode_int v) ≤ 20)%nat.
Proof.
  intros Hv. unfold gob_Encode_int. rewrite length_app. pose proof (length_gob_int_body v Hv).
  pose proof (length_gob_encodeUint (Z.of_nat (length (gob_int_body v)))) as Hl.
  assert (isU64 (Z.of_nat (length (gob_int_body v)))) by (unfold isU64; lia).
  specialize (Hl ltac:(done)). lia.
Qed.

Lemma gob_Encode_Decode_int v rest :
  isS64 v → gob_Decode_int (gob_Encode_int v ++ rest) = Some (v, rest).
Proof.
  intros Hv. unfold gob_Decode_int, gob_Encode_int. pose proof (length_gob_int_body v Hv).
  rewrite <-app_assoc, gob_uint_roundtrip by (unfold isU64; lia).
  cbn [mbind option_bind]. rewrite Nat2Z.id.
  rewrite bool_decide_true by (rewrite length_app; lia).
  rewrite take_app_length, drop_app_length. unfold gob_int_body.
  rewrite gob_int_roundtrip by (unfold isS64; lia). cbn [mbind option_bind].
  rewrite bool_decide_true by done. cbn [app gob_decodeUint].
  rewrite bool_decide_true by lia. cbn [mbind option_bind].
  rewrite bool_decide_true by done.
  rewrite <-(app_nil_r (gob_encodeInt v)), gob_int_roundtrip by done. done.
Qed.

(** The documented example of the format: 7 is encoded as [03 04 00 0e]. *)
Example gob_seven : gob_Encode_int 7 = [3; 4; 0; 14].
Proof. reflexivity. Qed.

(** ** Commands *)

(** Encoding and decoding of [persistedCommandEnvelope{Value: c}].  [Encode]
    fails on a value whose type is not registered; what it writes is not empty
    and [Decode] gives the value back.  The decoder returns [Some None] for an
    envelope whose interface is nil. *)
Class GobCommand (Cmd : Type) := {
  gob_encode : Cmd → option bytes;
  gob_decode : bytes → option (option Cmd);
  gob_encode_nonempty c bs : gob_encode c = Some bs → bs ≠ [];
  gob_encode_decode c bs : gob_encode c = Some bs → gob_decode bs = Some (Some c);
}.

(** A codec for integer commands, built on the stream format above. *)
#[global, program] Instance gob_command_Z : GobCommand Z := {
  gob_encode c := if bool_decide (isS64 c) then Some (gob_Encode_int c) else None;
  gob_decode bs := '(v, _) ← gob_Decode_int bs; Some (Some v);
}.
Next Obligation.
  cbn beta. intros c bs H ->. case_bool_decide; [|done]. injection H as H.
  pose proof (gob_Encode_Decode_int c [] ltac:(done)) as H1.
  by rewrite app_nil_r, H in H1.
Qed.
Next Obligation.
  cbn beta. intros c bs H. case_bool_decide; simplify_eq.
  pose proof (gob_Encode_Decode_int c [] ltac:(done)) as H1.
  rewrite app_nil_r in H1. by rewrite H1.
Qed.
