(* ===== verification/Persister.v ===== *)
(** * Persister: the file persister (src/pkg/persister/file.go)

    Delta frames ([buildAppendFrame], [applyRaftAppendPayload],
    [replayDeltaFrames], [composeRaftState]), generations ([commitGeneration],
    [loadManifest], [discoverLatestCompleteGeneration]), the worker's [flush],
    and the reads.  The directory is a finite map from file names to contents;
    a file name is an inductive value instead of the formatted string
    ([PersisterFiles] has the strings).  [durableWrite] (write to a temporary
    file, fsync, rename, fsync of the directory) is one atomic step, which
    [DiskProps] justifies; an operation that makes several of them is the list of
    its steps, so that a crash can be placed between any two. *)
From stdpp Require Import prelude gmap.
From S2P Require Import Prelude.
From stdpp Require Import options.
Local Open Scope Z_scope.

(** ** [crc32.ChecksumIEEE] *)

Definition crc32_bit (c : Z) : Z :=
  if Z.odd c then Z.lxor (Z.shiftr c 1) 0xEDB88320 else Z.shiftr c 1.
Definition crc32_byte (c b : Z) : Z := Nat.iter 8 crc32_bit (Z.lxor c b).
Definition ChecksumIEEE (bs : bytes) : Z :=
  Z.lxor (foldl crc32_byte 0xFFFFFFFF bs) 0xFFFFFFFF.

(** The check value of the CRC catalogue: the checksum of "123456789". *)
Example crc32_check : ChecksumIEEE [49;50;51;52;53;54;55;56;57] = 0xCBF43926.
Proof. reflexivity. Qed.

(** ** Frames *)

Definition appendFrameMagic : Z := 0x52414644.
Definition appendFrameHeaderSize : nat := 16.
Definition raftAppendPayloadMagic : Z := 0x52504131.
Definition raftAppendPayloadHeaderSize : nat := 28.

Definition buildAppendFrame (payload : bytes) : bytes :=
  le_put 4 appendFrameMagic ++ le_put 4 (Z.of_nat (length payload)) ++
  le_put 4 (ChecksumIEEE payload) ++ le_put 4 0 ++ payload.

(** [payload[a:b]] read as a little-endian number. *)
Definition u_at (a b : nat) (bs : bytes) : Z := le_get (slice a b bs).

Lemma u_at_app a b n z pre post :
  length pre = a → b = (a + n)%nat →
  u_at a b (pre ++ le_put n z ++ post) = z `mod` 256 ^ Z.of_nat n.
Proof.
  intros <- ->. unfold u_at. rewrite slice_app_r by lia.
  rewrite slice_app_l by (rewrite length_le_put; lia).
  replace (length pre - length pre)%nat with 0%nat by lia.
  replace (length pre + n - length pre)%nat with n by lia.
  rewrite <-(app_nil_r (le_put n z)), slice_prefix by (by rewrite length_le_put).
  apply le_get_put.
Qed.

Lemma slice_mid a b pre mid post :
  length pre = a → b = (a + length mid)%nat → slice a b (pre ++ mid ++ post) = mid.
Proof.
  intros <- ->. rewrite slice_app_r by lia.
  replace (length pre - length pre)%nat with 0%nat by lia.
  apply slice_prefix. lia.
Qed.

(** The state after the payload and whether it was applied. *)
Definition applyRaftAppendPayload (state payload : bytes) : bytes * bool :=
  if bool_decide (length payload < raftAppendPayloadHeaderSize)%nat then (state, false)
  else if negb (bool_decide (u_at 0 4 payload = raftAppendPayloadMagic)) then (state, false)
  else
    let prevLen := wrapS64 (u_at 4 12 payload) in
    let newLen := wrapS64 (u_at 12 20 payload) in
    let headerLen := u_at 20 24 payload in
    let deltaLen := u_at 24 28 payload in
    if negb (bool_decide (prevLen = Z.of_nat (length state))) then (state, false)
    else if bool_decide (headerLen ≤ 0) || bool_decide (prevLen < headerLen) then (state, false)
    else if bool_decide (deltaLen < 0) then (state, false)
    else if negb (bool_decide (28 + headerLen + deltaLen = Z.of_nat (length payload)))
         then (state, false)
    else if negb (bool_decide (newLen = prevLen + deltaLen)) then (state, false)
    else
      let h := Z.to_nat headerLen in
      let headerPatch := slice 28 (28 + h) payload in
      let delta := drop (28 + h) payload in
      let state := headerPatch ++ drop h state in
      if bool_decide (deltaLen = 0) then (state, true)
      else let state := state ++ delta in
           (state, bool_decide (Z.of_nat (length state) = newLen)).

(** The loop of [replayDeltaFrames], with fuel: every frame is at least 16
    bytes long, so [length delta + 1] rounds are enough. *)
Fixpoint replay_loop (fuel : nat) (state delta : bytes) (offset : nat) : bytes * nat :=
  match fuel with
  | O => (state, offset)
  | S fuel =>
    if bool_decide (length delta - offset < appendFrameHeaderSize)%nat then (state, offset)
    else if negb (bool_decide (u_at offset (offset + 4) delta = appendFrameMagic))
         then (state, offset)
    else
      let payloadLen := u_at (offset + 4) (offset + 8) delta in
      let expectedCRC := u_at (offset + 8) (offset + 12) delta in
      if bool_decide (payloadLen < 0) ||
         bool_decide (Z.of_nat (length delta - offset) < 16 + payloadLen)
      then (state, offset)
      else
        let n := Z.to_nat payloadLen in
        let payload := slice (offset + 16) (offset + 16 + n) delta in
        if negb (bool_decide (ChecksumIEEE payload = expectedCRC)) then (state, offset)
        else
          let '(nextState, ok) := applyRaftAppendPayload state payload in
          if ok then replay_loop fuel nextState delta (offset + 16 + n)
          else (state, offset)
  end.

Definition replayDeltaFrames (base delta : bytes) : bytes * nat :=
  replay_loop (S (length delta)) base delta 0.

(** ** The directory *)

Inductive fname :=
  | RaftStateBin          (* raft-state.bin, used when there is no manifest *)
  | HardStateBin
  | SnapshotBin
  | ManifestJson
  | RaftStateGen (gen : N)   (* raft-state.%020d.bin *)
  | DeltaGen (gen : N)       (* raft-state.delta.%020d.wal *)
  | SnapGen (gen : N).       (* snapshot.%020d.bin *)

#[global] Instance fname_eq_dec : EqDecision fname.
Proof. solve_decision. Defined.
#[global] Instance fname_countable : Countable fname.
Proof.
  refine (inj_countable'
    (λ f, match f with
          | RaftStateBin => inl 0%N | HardStateBin => inl 1%N
          | SnapshotBin => inl 2%N | ManifestJson => inl 3%N
          | RaftStateGen g => inr (inl g)
          | DeltaGen g => inr (inr (inl g))
          | SnapGen g => inr (inr (inr g))
          end : N + (N + (N + N)))
    (λ s, match s with
          | inl 0%N => RaftStateBin | inl 1%N => HardStateBin
          | inl 2%N => SnapshotBin | inl _ => ManifestJson
          | inr (inl g) => RaftStateGen g
          | inr (inr (inl g)) => DeltaGen g
          | inr (inr (inr g)) => SnapGen g
          end) _).
  by intros [].
Defined.

(** The fields of [persisterManifest] that are read back; [None] is the empty
    string.  [UpdatedAt] is written and never read. *)
Record persisterManifest := {
  m_Generation : N;
  m_RaftStateRel : option fname;
  m_RaftDeltaRel : option fname;
  m_SnapshotRel : option fname;
}.
Definition empty_manifest : persisterManifest :=
  {| m_Generation := 0; m_RaftStateRel := None; m_RaftDeltaRel := None; m_SnapshotRel := None |}.

(** A file is bytes, or the manifest (its JSON is parsed once, at load). *)
Inductive content :=
  | Data (bs : bytes)
  | Manifest (m : persisterManifest)
  | Garbage.               (* a manifest.json that [json.Unmarshal] rejects *)

Abbreviation directory := (gmap fname content) (only parsing).

(** [os.ReadFile] with its error ignored: the empty slice. *)
Definition ReadFile (d : directory) (f : option fname) : bytes :=
  match f with
  | Some f => match d !! f with Some (Data bs) => bs | _ => [] end
  | None => []
  end.

Record FilePersister := {
  fp_dir : directory;
  fp_manifest : persisterManifest;
  fp_deltaCompactBytes : Z;
}.

Definition defaultDeltaRel (gen : N) : fname := DeltaGen gen.

Definition currentRaftStatePath (m : persisterManifest) : fname :=
  default RaftStateBin (m_RaftStateRel m).
Definition currentRaftDeltaPath (m : persisterManifest) : option fname :=
  match m_RaftDeltaRel m with
  | Some f => Some f
  | None => if bool_decide (0 < m_Generation m)%N then Some (defaultDeltaRel (m_Generation m))
            else None
  end.
Definition currentSnapshotPath (m : persisterManifest) : fname :=
  default SnapshotBin (m_SnapshotRel m).

Definition composeRaftState (d : directory) (base : fname) (delta : option fname) : bytes * nat :=
  let b := ReadFile d (Some base) in
  match delta with
  | None => (b, O)
  | Some f => let dl := ReadFile d (Some f) in
              if bool_decide (dl = []) then (b, O) else replayDeltaFrames b dl
  end.

Definition ReadRaftState (fp : FilePersister) : bytes :=
  (composeRaftState (fp_dir fp) (currentRaftStatePath (fp_manifest fp))
     (currentRaftDeltaPath (fp_manifest fp))).1.
Definition ReadSnapshot (fp : FilePersister) : bytes :=
  ReadFile (fp_dir fp) (Some (currentSnapshotPath (fp_manifest fp))).
Definition ReadHardState (fp : FilePersister) : bytes :=
  ReadFile (fp_dir fp) (Some HardStateBin).

Definition file_size (d : directory) (f : fname) : option nat :=
  match d !! f with Some (Data bs) => Some (length bs) | _ => None end.
Definition RaftStateSize (fp : FilePersister) : Z :=
  match file_size (fp_dir fp) (currentRaftStatePath (fp_manifest fp)) with
  | None => 0
  | Some n =>
      Z.of_nat n +
      match currentRaftDeltaPath (fp_manifest fp) with
      | Some dl => Z.of_nat (default 0%nat (file_size (fp_dir fp) dl))
      | None => 0
      end
  end.

(** ** Loading *)

Definition raft_gens (d : directory) : list N :=
  omap (λ kv, match kv.1 with RaftStateGen g => Some g | _ => None end) (map_to_list d).

Definition discoverLatestCompleteGeneration (d : directory) : persisterManifest :=
  let complete := filter (λ g, is_Some (d !! SnapGen g)) (raft_gens d) in
  let best := foldr N.max 0%N complete in
  if bool_decide (best = 0)%N then empty_manifest
  else {| m_Generation := best;
          m_RaftStateRel := Some (RaftStateGen best);
          m_RaftDeltaRel := Some (DeltaGen best);
          m_SnapshotRel := Some (SnapGen best) |}.

(** The manifest chosen at start and the directory (a missing delta file is
    created). *)
Definition loadManifest (d : directory) : persisterManifest * directory :=
  match d !! ManifestJson with
  | None =>
      let m := discoverLatestCompleteGeneration d in
      (if bool_decide (0 < m_Generation m)%N && bool_decide (m_RaftDeltaRel m = None)
       then {| m_Generation := m_Generation m; m_RaftStateRel := m_RaftStateRel m;
               m_RaftDeltaRel := Some (defaultDeltaRel (m_Generation m));
               m_SnapshotRel := m_SnapshotRel m |}
       else m, d)
  | Some (Manifest m) =>
      match m_RaftStateRel m, m_SnapshotRel m with
      | Some rs, Some sn =>
          let dl := default (defaultDeltaRel (m_Generation m)) (m_RaftDeltaRel m) in
          let m := {| m_Generation := m_Generation m; m_RaftStateRel := Some rs;
                      m_RaftDeltaRel := Some dl; m_SnapshotRel := Some sn |} in
          match d !! rs, d !! sn with
          | Some _, Some _ =>
              (m, match d !! dl with Some _ => d | None => <[dl := Data []]> d end)
          | _, _ => (discoverLatestCompleteGeneration d, d)
          end
      | _, _ => (discoverLatestCompleteGeneration d, d)
      end
  | Some _ => (discoverLatestCompleteGeneration d, d)
  end.

Definition NewFilePersister (d : directory) : FilePersister :=
  let '(m, d) := loadManifest d in
  {| fp_dir := d; fp_manifest := m; fp_deltaCompactBytes := 4 * 1024 * 1024 |}.

(** ** Writing *)

(** The durable writes [commitGeneration] makes, in order, and the manifest
    it installs in memory when all have succeeded. *)
Definition commitGeneration_steps (m : persisterManifest) (raftstate : bytes)
    (snapshot : option bytes) : list (fname * content) * persisterManifest :=
  let nextGen := (m_Generation m + 1)%N in
  let snap_writes :=
    match snapshot with
    | Some s => [(SnapGen nextGen, Data s)]
    | None => match m_SnapshotRel m with
              | None => [(SnapGen nextGen, Data [])]
              | Some _ => []
              end
    end in
  let snapshotRel :=
    match snapshot with
    | Some _ => SnapGen nextGen
    | None => default (SnapGen nextGen) (m_SnapshotRel m)
    end in
  let m' := {| m_Generation := nextGen; m_RaftStateRel := Some (RaftStateGen nextGen);
               m_RaftDeltaRel := Some (DeltaGen nextGen); m_SnapshotRel := Some snapshotRel |} in
  ((RaftStateGen nextGen, Data raftstate) :: snap_writes ++
   [(DeltaGen nextGen, Data []); (ManifestJson, Manifest m')], m').

Definition run_writes (ws : list (fname * content)) (d : directory) : directory :=
  foldl (λ d w, <[w.1 := w.2]> d) d ws.

Definition commitGeneration (fp : FilePersister) (raftstate : bytes)
    (snapshot : option bytes) : FilePersister :=
  let '(ws, m) := commitGeneration_steps (fp_manifest fp) raftstate snapshot in
  {| fp_dir := run_writes ws (fp_dir fp); fp_manifest := m;
     fp_deltaCompactBytes := fp_deltaCompactBytes fp |}.

(** [EnqueueSave] copies its arguments with [append([]byte(nil), s...)], which
    turns an empty snapshot into nil. *)
Definition EnqueueSave_snapshot (snapshot : option bytes) : option bytes :=
  match snapshot with Some [] => None | s => s end.

Definition frames (payloads : list bytes) : bytes := concat (buildAppendFrame <$> payloads).

(** [commitAppendRaftState]: [None] is the error of opening an empty path. *)
Definition commitAppendRaftState (fp : FilePersister) (payloads : list bytes)
    : option FilePersister :=
  if bool_decide (payloads = []) then Some fp else
  match currentRaftDeltaPath (fp_manifest fp) with
  | None => None
  | Some dl =>
      let delta := ReadFile (fp_dir fp) (Some dl) ++ frames payloads in
      let fp := {| fp_dir := <[dl := Data delta]> (fp_dir fp);
                   fp_manifest := fp_manifest fp;
                   fp_deltaCompactBytes := fp_deltaCompactBytes fp |} in
      if bool_decide (fp_deltaCompactBytes fp ≤ 0) then Some fp
      else if bool_decide (Z.of_nat (length delta) < fp_deltaCompactBytes fp) then Some fp
      else
        let '(state, _) := composeRaftState (fp_dir fp)
                             (currentRaftStatePath (fp_manifest fp)) (Some dl) in
        if bool_decide (state = []) then Some fp
        else Some (commitGeneration fp state None)
  end.

Definition commitHardState (fp : FilePersister) (hardstate : bytes) : FilePersister :=
  {| fp_dir := <[HardStateBin := Data hardstate]> (fp_dir fp);
     fp_manifest := fp_manifest fp; fp_deltaCompactBytes := fp_deltaCompactBytes fp |}.

(** The worker's [flush] of one round: the last hard state, then the last full
    save, then all the appends.  Every request of a batch is acknowledged with
    the result of its group. *)
Definition flush (fp : FilePersister) (hardBatch : list bytes)
    (batch : list (bytes * option bytes)) (appendBatch : list bytes) : option FilePersister :=
  let fp := match last hardBatch with Some h => commitHardState fp h | None => fp end in
  let fp := match last batch with Some (rs, sn) => commitGeneration fp rs sn | None => fp end in
  commitAppendRaftState fp appendBatch.
