(* ===== verification/PersisterProps.v ===== *)
(** * PersisterProps: crash behaviour of the file persister

    Appending: whatever part of the appended frames a crash leaves in the
    delta file, recovery gives the state after the frames that are complete.
    Generations: a crash between any two durable writes of a full save leaves
    the state before it or the state it saves.  Two theorems record the cases
    in which acknowledged frames are not recovered. *)
From stdpp Require Import prelude gmap.
From S2P Require Import Prelude Persister.
From stdpp Require Import options.
Local Open Scope Z_scope.

(** ** Checksums and frames *)

Lemma lxor_u32 a b : 0 ≤ a < 2^32 → 0 ≤ b < 2^32 → 0 ≤ Z.lxor a b < 2^32.
Proof.
  intros Ha Hb. assert (0 ≤ Z.lxor a b) by (apply Z.lxor_nonneg; lia).
  split; [done|]. destruct (decide (Z.lxor a b = 0)) as [->|]; [lia|].
  apply Z.log2_lt_pow2; [lia|].
  eapply Z.le_lt_trans; [apply Z.log2_lxor; lia|].
  apply Z.max_lub_lt.
  - destruct (decide (a = 0)) as [->|]; [done|]. apply Z.log2_lt_pow2; lia.
  - destruct (decide (b = 0)) as [->|]; [done|]. apply Z.log2_lt_pow2; lia.
Qed.

Lemma crc32_bit_u32 c : 0 ≤ c < 2^32 → 0 ≤ crc32_bit c < 2^32.
Proof.
  intros Hc. assert (0 ≤ Z.shiftr c 1 < 2^32).
  { rewrite Z.shiftr_div_pow2 by lia. change (2^1) with 2.
    split; [apply Z.div_pos; lia|]. apply Z.div_lt_upper_bound; lia. }
  unfold crc32_bit. case_match; [|done]. by apply lxor_u32.
Qed.

Definition is_byte (b : Z) : Prop := 0 ≤ b < 256.

Lemma crc32_byte_u32 c b : 0 ≤ c < 2^32 → is_byte b → 0 ≤ crc32_byte c b < 2^32.
Proof.
  intros Hc Hb. unfold crc32_byte, is_byte in *.
  assert (0 ≤ Z.lxor c b < 2^32) as Hx by (apply lxor_u32; lia).
  generalize dependent (Z.lxor c b). intros x Hx.
  generalize 8%nat. intros n. induction n as [|n IH]; simpl; [done|].
  by apply crc32_bit_u32.
Qed.

Lemma ChecksumIEEE_u32 bs : Forall is_byte bs → 0 ≤ ChecksumIEEE bs < 2^32.
Proof.
  intros Hbs. unfold ChecksumIEEE. apply lxor_u32; [|lia].
  assert (0 ≤ 0xFFFFFFFF < 2^32) as Hc by lia. revert Hc. generalize 0xFFFFFFFF.
  induction Hbs as [|b bs Hb _ IH]; intros c Hc; simpl; [done|].
  apply IH. by apply crc32_byte_u32.
Qed.

(** What [EnqueueAppendRaftState] is given: bytes, fewer than [2^32]. *)
Definition payload_ok (p : bytes) : Prop :=
  Forall is_byte p ∧ Z.of_nat (length p) < 2^32.

Lemma length_buildAppendFrame p : length (buildAppendFrame p) = (16 + length p)%nat.
Proof. unfold buildAppendFrame. rewrite !length_app, !length_le_put. lia. Qed.

(** One round of the loop on a complete frame. *)
Lemma replay_frame fuel state pre p rest :
  payload_ok p →
  replay_loop (S fuel) state (pre ++ buildAppendFrame p ++ rest) (length pre) =
  let '(s', ok) := applyRaftAppendPayload state p in
  if ok then replay_loop fuel s' (pre ++ buildAppendFrame p ++ rest) (length pre + 16 + length p)
  else (state, length pre).
Proof.
  intros [Hb Hlen]. cbn [replay_loop].
  assert (length (pre ++ buildAppendFrame p ++ rest) - length pre
          = 16 + length p + length rest)%nat as Hd.
  { rewrite !length_app, length_buildAppendFrame. lia. }
  rewrite Hd. rewrite bool_decide_false by (unfold appendFrameHeaderSize; lia).
  unfold buildAppendFrame. rewrite <-!app_assoc.
  rewrite (u_at_app (length pre) (length pre + 4) 4) by lia.
  rewrite (bool_decide_true (appendFrameMagic `mod` 256 ^ Z.of_nat 4 = appendFrameMagic)) by done.
  cbn [negb].
  assert (∀ a n z post, u_at (length pre + length a) (length pre + length a + n)
            (pre ++ a ++ le_put n z ++ post) = z `mod` 256 ^ Z.of_nat n) as Hu.
  { intros a n z post. rewrite (app_assoc pre a). apply u_at_app; [by rewrite length_app|done]. }
  pose proof (Hu (le_put 4 appendFrameMagic) 4%nat) as Hu1.
  pose proof (Hu (le_put 4 appendFrameMagic ++ le_put 4 (Z.of_nat (length p))) 4%nat) as Hu2.
  rewrite ?length_app, ?length_le_put, <-?Nat.add_assoc in Hu1.
  rewrite ?length_app, ?length_le_put, <-?Nat.add_assoc in Hu2.
  cbn [Nat.add] in Hu1, Hu2. rewrite Hu1.
  specialize (Hu2 (ChecksumIEEE p)). setoid_rewrite <-app_assoc in Hu2. rewrite Hu2.
  change (256 ^ Z.of_nat 4) with (2^32). pose proof (ChecksumIEEE_u32 p Hb).
  rewrite !Z.mod_small by lia. rewrite !bool_decide_false by lia. cbn [orb].
  rewrite Nat2Z.id.
  assert (slice (length pre + 16) (length pre + 16 + length p)
     (pre ++ le_put 4 appendFrameMagic ++ le_put 4 (Z.of_nat (length p)) ++
      le_put 4 (ChecksumIEEE p) ++ le_put 4 0 ++ p ++ rest) = p) as Hs.
  { pose proof (slice_mid (length pre + 16) (length pre + 16 + length p)
      (pre ++ le_put 4 appendFrameMagic ++ le_put 4 (Z.of_nat (length p)) ++
       le_put 4 (ChecksumIEEE p) ++ le_put 4 0) p rest) as Hm.
    rewrite !length_app, !length_le_put, <-!app_assoc in Hm. apply Hm; lia. }
  rewrite Hs. rewrite bool_decide_true by done. cbn [negb]. done.
Qed.

(** A part of a frame ends the replay. *)
Lemma replay_torn fuel state pre p q r :
  payload_ok p → buildAppendFrame p = q ++ r → r ≠ [] →
  replay_loop fuel state (pre ++ q) (length pre) = (state, length pre).
Proof.
  intros [Hb Hlen] Hq Hr. destruct fuel as [|fuel]; [done|]. cbn [replay_loop].
  pose proof (length_buildAppendFrame p) as Hl. rewrite Hq, length_app in Hl.
  assert (length r ≠ 0)%nat by (by destruct r).
  replace (length (pre ++ q) - length pre)%nat with (length q) by (rewrite length_app; lia).
  case_bool_decide as H16; [done|]. unfold appendFrameHeaderSize in H16.
  case_match; [done|].
  assert (u_at (length pre + 4) (length pre + 8) (pre ++ q) = Z.of_nat (length p)) as ->.
  { pose proof (u_at_app (length pre + 4) (length pre + 8) 4 (Z.of_nat (length p))
      (pre ++ le_put 4 appendFrameMagic) (le_put 4 (ChecksumIEEE p) ++ le_put 4 0 ++ p)) as Hu.
    change (256 ^ Z.of_nat 4) with (2^32) in Hu. rewrite Z.mod_small in Hu by lia.
    rewrite <-Hu by (rewrite ?length_app, ?length_le_put; lia).
    unfold u_at. f_equal. rewrite <-app_assoc.
    change (le_put 4 appendFrameMagic ++ le_put 4 (Z.of_nat (length p)) ++
            le_put 4 (ChecksumIEEE p) ++ le_put 4 0 ++ p) with (buildAppendFrame p).
    rewrite Hq, app_assoc. symmetry. apply slice_app_l. rewrite length_app. lia. }
  by rewrite (bool_decide_true (Z.of_nat (length q) < _)), orb_true_r by lia.
Qed.

(** The payloads applied one after the other. *)
Fixpoint apply_all (state : bytes) (ps : list bytes) : option bytes :=
  match ps with
  | [] => Some state
  | p :: ps => let '(s, ok) := applyRaftAppendPayload state p in
               if ok then apply_all s ps else None
  end.

Lemma replay_frames ps : ∀ fuel state pre tail s',
  Forall payload_ok ps → apply_all state ps = Some s' → (length ps ≤ fuel)%nat →
  replay_loop fuel state (pre ++ frames ps ++ tail) (length pre) =
  replay_loop (fuel - length ps) s' (pre ++ frames ps ++ tail) (length pre + length (frames ps)).
Proof.
  induction ps as [|p ps IH]; intros fuel state pre tail s' Hok Happ Hf; simpl in Happ.
  { simplify_eq. cbn [length frames fmap list_fmap concat].
    by rewrite Nat.sub_0_r, Nat.add_0_r. }
  apply Forall_cons in Hok as [Hp Hok]. destruct fuel as [|fuel]; simpl in Hf; [lia|].
  change (frames (p :: ps)) with (buildAppendFrame p ++ frames ps). rewrite <-!app_assoc.
  rewrite replay_frame by done.
  destruct (applyRaftAppendPayload state p) as [s [|]]; [|done].
  rewrite (app_assoc pre). 
  replace (length pre + 16 + length p)%nat with (length (pre ++ buildAppendFrame p))
    by (rewrite length_app, length_buildAppendFrame; lia).
  rewrite (IH fuel s (pre ++ buildAppendFrame p) tail s') by (done || lia).
  cbn [length Nat.sub]. f_equal. rewrite !length_app. lia.
Qed.

Lemma length_frames ps : (length ps ≤ length (frames ps))%nat.
Proof.
  induction ps as [|p ps IH]; [done|].
  change (frames (p :: ps)) with (buildAppendFrame p ++ frames ps).
  rewrite length_app, length_buildAppendFrame. simpl. lia.
Qed.

(** Recovery of complete frames followed by a part of one. *)
Lemma replay_complete base ps p q r s' :
  Forall payload_ok ps → payload_ok p → apply_all base ps = Some s' →
  buildAppendFrame p = q ++ r → r ≠ [] →
  replayDeltaFrames base (frames ps ++ q) = (s', length (frames ps)).
Proof.
  intros Hps Hp Happ Hq Hr. unfold replayDeltaFrames.
  pose proof (replay_frames ps (S (length (frames ps ++ q))) base [] q s' Hps Happ) as Hf.
  cbn [app length Nat.add] in Hf. rewrite Hf.
  - by eapply replay_torn.
  - rewrite length_app. pose proof (length_frames ps). lia.
Qed.

Lemma replay_all base ps s' :
  Forall payload_ok ps → apply_all base ps = Some s' →
  replayDeltaFrames base (frames ps) = (s', length (frames ps)).
Proof.
  intros Hps Happ. pose proof (replay_complete base ps [] [] (buildAppendFrame []) s') as H.
  rewrite app_nil_r in H. by apply H.
Qed.

Lemma apply_all_app ps qs : ∀ s,
  apply_all s (ps ++ qs) = (apply_all s ps ≫= λ s', apply_all s' qs).
Proof.
  induction ps as [|p ps IH]; intros s; [done|]. cbn [app apply_all].
  destruct (applyRaftAppendPayload s p) as [s' [|]]; [apply IH|done].
Qed.

Lemma frames_app ps qs : frames (ps ++ qs) = frames ps ++ frames qs.
Proof. unfold frames. by rewrite fmap_app, concat_app. Qed.

(** A part of a sequence of frames is some complete frames and a proper part
    of the next one. *)
Lemma frames_prefix ps : ∀ q,
  q `prefix_of` frames ps →
  (q = frames ps) ∨
  ∃ ps1 p ps2 q' r, ps = ps1 ++ p :: ps2 ∧ q = frames ps1 ++ q' ∧
    buildAppendFrame p = q' ++ r ∧ r ≠ [].
Proof.
  induction ps as [|p ps IH]; intros q [r Hr].
  { left. cbn in Hr. symmetry in Hr. by apply app_eq_nil in Hr as [-> _]. }
  change (frames (p :: ps)) with (buildAppendFrame p ++ frames ps) in Hr.
  destruct (decide (length (buildAppendFrame p) ≤ length q)%nat) as [Hle|Hgt].
  - assert (q = buildAppendFrame p ++ drop (length (buildAppendFrame p)) q) as Hq.
    { rewrite <-(take_drop (length (buildAppendFrame p)) q) at 1. f_equal.
      apply (f_equal (take (length (buildAppendFrame p)))) in Hr.
      rewrite take_app_length, take_app_le in Hr by done. done. }
    rewrite Hq, <-app_assoc in Hr. apply app_inv_head in Hr.
    destruct (IH (drop (length (buildAppendFrame p)) q)) as [He|(ps1&p'&ps2&q'&r'&->&He&Hf&Hn)].
    + by exists r.
    + left. rewrite Hq, He. done.
    + right. exists (p :: ps1), p', ps2, q', r'. split_and!; try done.
      rewrite Hq, He, app_assoc. done.
  - right. exists [], p, ps, q, (drop (length q) (buildAppendFrame p)).
    assert (buildAppendFrame p = q ++ drop (length q) (buildAppendFrame p)) as Hq.
    { rewrite <-(take_drop (length q) (buildAppendFrame p)) at 1. f_equal.
      apply (f_equal (take (length q))) in Hr.
      rewrite take_app_length, take_app_le in Hr by lia. done. }
    split_and!; try done. intros Hn. rewrite Hn, app_nil_r in Hq. rewrite Hq in Hgt. lia.
Qed.

(** ** The state of a persister *)

(** In memory and on disk the same manifest, which names existing files of
    generations that have been written. *)
Record fp_wf (fp : FilePersister) : Prop := {
  wf_gen : (0 < m_Generation (fp_manifest fp))%N;
  wf_manifest : fp_dir fp !! ManifestJson = Some (Manifest (fp_manifest fp));
  wf_raft : m_RaftStateRel (fp_manifest fp) = Some (RaftStateGen (m_Generation (fp_manifest fp)));
  wf_delta : m_RaftDeltaRel (fp_manifest fp) = Some (DeltaGen (m_Generation (fp_manifest fp)));
  wf_snap : ∃ g, (g ≤ m_Generation (fp_manifest fp))%N ∧
    m_SnapshotRel (fp_manifest fp) = Some (SnapGen g) ∧ is_Some (fp_dir fp !! SnapGen g);
  wf_files : is_Some (fp_dir fp !! RaftStateGen (m_Generation (fp_manifest fp))) ∧
    is_Some (fp_dir fp !! DeltaGen (m_Generation (fp_manifest fp)));
}.

(** A directory in which nothing has been saved. *)
Definition fp_fresh (fp : FilePersister) : Prop :=
  fp_manifest fp = empty_manifest ∧ fp_dir fp !! ManifestJson = None ∧
  ∀ g, fp_dir fp !! RaftStateGen g = None ∧ fp_dir fp !! SnapGen g = None ∧
       fp_dir fp !! DeltaGen g = None.

(** The delta file holds complete frames that apply to the base. *)
Definition fp_clean (fp : FilePersister) (ps : list bytes) : Prop :=
  ∃ dl, currentRaftDeltaPath (fp_manifest fp) = Some dl ∧
    ReadFile (fp_dir fp) (Some dl) = frames ps ∧ Forall payload_ok ps ∧
    apply_all (ReadFile (fp_dir fp) (Some (currentRaftStatePath (fp_manifest fp)))) ps
      = Some (ReadRaftState fp).

Lemma compose_frames d base dl ps q :
  ReadFile d (Some dl) = frames ps ++ q →
  (composeRaftState d base (Some dl)).1 =
  (replayDeltaFrames (ReadFile d (Some base)) (frames ps ++ q)).1.
Proof.
  intros H. unfold composeRaftState. rewrite H. case_bool_decide as He; [|done].
  by rewrite He.
Qed.

Lemma reload_wf fp d :
  fp_wf fp →
  d !! ManifestJson = Some (Manifest (fp_manifest fp)) →
  (∀ f, is_Some (fp_dir fp !! f) → is_Some (d !! f)) →
  fp_manifest (NewFilePersister d) = fp_manifest fp ∧ fp_dir (NewFilePersister d) = d.
Proof.
  intros [Hg Hm Hr Hd (g & Hle & Hs & Hsd) [Hf1 Hf2]] Hm' Hdom.
  unfold NewFilePersister, loadManifest. rewrite Hm', Hr, Hs, Hd. cbn [default].
  destruct (Hdom _ Hf1) as [? ->], (Hdom _ Hsd) as [? ->], (Hdom _ Hf2) as [? E].
  cbn [from_option id]. rewrite E. cbn [fp_manifest fp_dir]. split; [|done].
  destruct (fp_manifest fp); simpl in *; congruence.
Qed.

Lemma read_insert_ne d f g c : f ≠ g → ReadFile (<[f := c]> d) (Some g) = ReadFile d (Some g).
Proof. intros. unfold ReadFile. by rewrite lookup_insert_ne. Qed.
Lemma read_insert d f bs : ReadFile (<[f := Data bs]> d) (Some f) = bs.
Proof. unfold ReadFile. by rewrite lookup_insert_eq. Qed.

Lemma frames_length_prefix ps1 ps2 :
  ps1 `prefix_of` ps2 → (length (frames ps1) ≤ length (frames ps2))%nat.
Proof. intros [r ->]. rewrite frames_app, length_app. lia. Qed.

(** The directory after a crash during the append of [q], a part of the new
    frames. *)
Definition crashed_append (fp : FilePersister) (ps0 : list bytes) (q : bytes) : directory :=
  <[DeltaGen (m_Generation (fp_manifest fp)) := Data (frames ps0 ++ q)]> (fp_dir fp).

Lemma reload_append fp ps0 q :
  fp_wf fp → fp_clean fp ps0 →
  ReadRaftState (NewFilePersister (crashed_append fp ps0 q)) =
    (replayDeltaFrames (ReadFile (fp_dir fp) (Some (currentRaftStatePath (fp_manifest fp))))
       (frames ps0 ++ q)).1 ∧
  ReadSnapshot (NewFilePersister (crashed_append fp ps0 q)) = ReadSnapshot fp.
Proof.
  intros Hwf (dl & Hdl & Hrd & _ & _). destruct (reload_wf fp (crashed_append fp ps0 q)) as [Hm Hd].
  { done. }
  { unfold crashed_append. rewrite lookup_insert_ne by done. apply Hwf. }
  { intros f Hf. unfold crashed_append. apply lookup_insert_is_Some'. by right. }
  unfold ReadRaftState, ReadSnapshot, currentSnapshotPath, currentRaftStatePath. rewrite Hm, Hd.
  destruct Hwf as [Hg _ Hr Hde (g & Hle & Hs & Hsd) _].
  unfold currentRaftDeltaPath in *. rewrite Hde, Hr, Hs. cbn [default from_option id].
  split.
  - rewrite (compose_frames _ _ _ ps0 q) by apply read_insert.
    unfold crashed_append. by rewrite read_insert_ne.
  - by apply read_insert_ne.
Qed.

Lemma append_crash fp ps0 ps q s1 :
  fp_wf fp → fp_clean fp ps0 → Forall payload_ok ps →
  apply_all (ReadRaftState fp) ps = Some s1 → q `prefix_of` frames ps →
  ∃ ps1, ps1 `prefix_of` ps ∧
    apply_all (ReadRaftState fp) ps1 =
      Some (ReadRaftState (NewFilePersister (crashed_append fp ps0 q))) ∧
    (∀ ps', ps' `prefix_of` ps → frames ps' `prefix_of` q → ps' `prefix_of` ps1) ∧
    ReadSnapshot (NewFilePersister (crashed_append fp ps0 q)) = ReadSnapshot fp.
Proof.
  intros Hwf Hcl Hok Hall Hq. destruct (reload_append fp ps0 q Hwf Hcl) as [-> ->].
  destruct Hcl as (dl & Hdl & Hrd & Hok0 & Happ0).
  destruct (frames_prefix ps q Hq) as [->|(ps1 & p & ps2 & q' & r & -> & -> & Hfr & Hr)].
  - exists ps. split_and!; try done.
    rewrite <-frames_app, (replay_all _ _ s1); [done|by apply Forall_app|].
    by rewrite apply_all_app, Happ0.
  - apply Forall_app in Hok as [Hok1 [Hp Hok2]%Forall_cons].
    rewrite apply_all_app in Hall.
    destruct (apply_all (ReadRaftState fp) ps1) as [s|] eqn:E; [|done].
    exists ps1. split_and!; try done; [by apply prefix_app_r| |].
    + rewrite app_assoc, <-frames_app, (replay_complete _ _ p q' r s); try done.
      * by apply Forall_app.
      * by rewrite apply_all_app, Happ0.
    + intros ps' [z Hz] Hpre. apply prefix_length in Hpre.
      destruct (prefix_weak_total ps' ps1 (ps1 ++ p :: ps2)) as [?|[w Hw]]; [by eexists|by eexists|done|].
      destruct w as [|p' w]; [by rewrite app_nil_r in Hw; subst|]. exfalso.
      subst ps'. rewrite <-app_assoc in Hz. apply app_inv_head in Hz. injection Hz as -> _.
      rewrite frames_app in Hpre. rewrite !length_app in Hpre.
      change (frames (p' :: w)) with (buildAppendFrame p' ++ frames w) in Hpre.
      rewrite length_app, Hfr, length_app in Hpre.
      assert (length r ≠ 0)%nat by (by destruct r). lia.
Qed.

(** crash during an append.  Whatever bytes of the new frames reached the
    delta file before the crash, the next start recovers the state after the
    frames appended before, and after exactly those new frames that are
    complete; the snapshot is untouched. *)
Theorem append_crash_prefix fp ps0 ps q s1 :
  fp_wf fp → fp_clean fp ps0 → Forall payload_ok ps →
  apply_all (ReadRaftState fp) ps = Some s1 → q `prefix_of` frames ps →
  ∃ ps1, ps1 `prefix_of` ps ∧
    apply_all (ReadRaftState fp) ps1 =
      Some (ReadRaftState (NewFilePersister (crashed_append fp ps0 q))) ∧
    (∀ ps', ps' `prefix_of` ps → frames ps' `prefix_of` q → ps' `prefix_of` ps1) ∧
    ReadSnapshot (NewFilePersister (crashed_append fp ps0 q)) = ReadSnapshot fp.
Proof. apply append_crash. Qed.

(** ** Generations *)

(** Writes to files of a later generation do not change what is read. *)
Definition later_file (gen : N) (f : fname) : Prop :=
  match f with RaftStateGen g | DeltaGen g | SnapGen g => (gen < g)%N | _ => False end.

Lemma run_writes_other ws : ∀ d f,
  (∀ w, w ∈ ws → w.1 ≠ f) → run_writes ws d !! f = d !! f.
Proof.
  induction ws as [|w ws IH]; intros d f Hf; [done|].
  change (run_writes (w :: ws) d) with (run_writes ws (<[w.1 := w.2]> d)).
  rewrite IH by (intros w' Hw'; apply Hf; by right).
  apply lookup_insert_ne. apply Hf. by left.
Qed.

Lemma run_writes_dom ws : ∀ d f, is_Some (d !! f) → is_Some (run_writes ws d !! f).
Proof.
  induction ws as [|w ws IH]; intros d f Hf; [done|].
  change (run_writes (w :: ws) d) with (run_writes ws (<[w.1 := w.2]> d)).
  apply IH. apply lookup_insert_is_Some'. by right.
Qed.

Lemma reload_same fp ws :
  fp_wf fp → (∀ w, w ∈ ws → later_file (m_Generation (fp_manifest fp)) w.1) →
  ReadRaftState (NewFilePersister (run_writes ws (fp_dir fp))) = ReadRaftState fp ∧
  ReadSnapshot (NewFilePersister (run_writes ws (fp_dir fp))) = ReadSnapshot fp.
Proof.
  intros Hwf Hws.
  assert (∀ f, ¬ later_file (m_Generation (fp_manifest fp)) f →
    run_writes ws (fp_dir fp) !! f = fp_dir fp !! f) as Hsame.
  { intros f Hf. apply run_writes_other. intros w Hw <-. by apply Hf, Hws. }
  destruct (reload_wf fp (run_writes ws (fp_dir fp))) as [Hm Hd]; [done|..].
  { rewrite Hsame by (simpl; tauto). apply Hwf. }
  { intros f. apply run_writes_dom. }
  destruct Hwf as [Hg _ Hr Hde (g & Hle & Hs & Hsd) _].
  unfold ReadRaftState, ReadSnapshot, currentSnapshotPath, currentRaftStatePath,
    currentRaftDeltaPath. rewrite Hm, Hd, Hde, Hr, Hs. cbn [default from_option id].
  unfold composeRaftState, ReadFile.
  rewrite !Hsame by (simpl; lia). done.
Qed.

Lemma commit_steps_shape m rs sn :
  ∃ sw m', commitGeneration_steps m rs sn =
    ((RaftStateGen (m_Generation m + 1), Data rs) :: sw ++
      [(DeltaGen (m_Generation m + 1), Data []); (ManifestJson, Manifest m')], m') ∧
    m_Generation m' = (m_Generation m + 1)%N ∧
    m_RaftStateRel m' = Some (RaftStateGen (m_Generation m + 1)) ∧
    m_RaftDeltaRel m' = Some (DeltaGen (m_Generation m + 1)) ∧
    ((sw = [] ∧ sn = None ∧ m_SnapshotRel m' = m_SnapshotRel m ∧ is_Some (m_SnapshotRel m)) ∨
     (∃ c, sw = [(SnapGen (m_Generation m + 1), Data c)] ∧
        m_SnapshotRel m' = Some (SnapGen (m_Generation m + 1)) ∧
        (sn = Some c ∨ sn = None ∧ c = [] ∧ m_SnapshotRel m = None))).
Proof.
  unfold commitGeneration_steps. eexists _, _. split; [reflexivity|]. cbn [m_Generation
    m_RaftStateRel m_RaftDeltaRel m_SnapshotRel]. split_and!; try done.
  destruct sn as [c|]; [right; exists c; by auto|].
  destruct (m_SnapshotRel m) as [f|]; [left|right; exists []].
  - split_and!; try done; by eexists.
  - split_and!; try done. right. by auto.
Qed.

(** A full save: what is read afterwards, and the invariant. *)
Lemma commitGeneration_spec fp rs sn :
  fp_wf fp ∨ fp_fresh fp →
  fp_wf (commitGeneration fp rs sn) ∧
  fp_clean (commitGeneration fp rs sn) [] ∧
  ReadRaftState (commitGeneration fp rs sn) = rs ∧
  ReadSnapshot (commitGeneration fp rs sn) =
    match sn with Some s => s | None =>
      match m_SnapshotRel (fp_manifest fp) with None => [] | Some _ => ReadSnapshot fp end end.
Proof.
  intros Hfp. unfold commitGeneration.
  destruct (commit_steps_shape (fp_manifest fp) rs sn)
    as (sw & m' & -> & Hg & Hr & Hd & Hsn).
  set (g := (m_Generation (fp_manifest fp) + 1)%N) in *.
  set (d := run_writes _ _).
  assert (d !! ManifestJson = Some (Manifest m') ∧ d !! DeltaGen g = Some (Data []) ∧
          d !! RaftStateGen g = Some (Data rs)) as (Hdm & Hdd & Hdr).
  { subst d. rewrite app_comm_cons. unfold run_writes. rewrite foldl_app. cbn [foldl fst snd].
    rewrite !lookup_insert_eq, lookup_insert_ne, lookup_insert_eq by done. split_and!; try done.
    rewrite !lookup_insert_ne by done.
    destruct Hsn as [(-> & _)|(c & -> & _)]; cbn [foldl fst snd];
      rewrite ?lookup_insert_ne by done; apply lookup_insert_eq. }
  assert (∃ gs, (gs ≤ g)%N ∧ m_SnapshotRel m' = Some (SnapGen gs) ∧
    d !! SnapGen gs = match sn with Some s => Some (Data s) | None =>
      match m_SnapshotRel (fp_manifest fp) with None => Some (Data [])
      | Some _ => fp_dir fp !! SnapGen gs end end ∧
    (sn = None → is_Some (m_SnapshotRel (fp_manifest fp)) →
       m_SnapshotRel (fp_manifest fp) = Some (SnapGen gs) ∧ is_Some (fp_dir fp !! SnapGen gs)))
    as (gs & Hgs & Hs & Hds & Hold).
  { destruct Hsn as [(-> & -> & Hs & [f Hf])|(c & -> & Hs & Hc)].
    - destruct Hfp as [Hwf|[Hem _]]; [|rewrite Hem in Hf; done].
      destruct (wf_snap _ Hwf) as (gs & Hle & Hs' & Hsd). exists gs. subst g.
      split_and!; [lia|congruence| |by auto].
      rewrite Hf. subst d. apply run_writes_other.
      intros w. cbn [app]. rewrite !elem_of_cons, elem_of_nil. intros [->|[->|[->|[]]]]; cbn; try done.
    - exists g. split_and!; [lia|done| |].
      + subst d. unfold run_writes. cbn [app foldl fst snd].
        rewrite 2!lookup_insert_ne by done. rewrite lookup_insert_eq.
        destruct Hc as [->|(-> & -> & ->)]; done.
      + intros -> [f Hf]. destruct Hc as [?|(_ & _ & ?)]; congruence. }
  assert (is_Some (d !! SnapGen gs)) as Hdsn.
  { rewrite Hds. destruct sn; [by eexists|].
    destruct (m_SnapshotRel (fp_manifest fp)); [by apply Hold|by eexists]. }
  split_and!.
  - split; cbn [fp_dir fp_manifest]; rewrite ?Hg; try done; [lia|by exists gs].
  - exists (DeltaGen g). unfold ReadRaftState, currentRaftDeltaPath, currentRaftStatePath.
    cbn [fp_dir fp_manifest]. rewrite Hd, Hr. cbn [default from_option id].
    unfold composeRaftState, ReadFile. by rewrite Hdd, Hdr.
  - unfold ReadRaftState, currentRaftDeltaPath, currentRaftStatePath.
    cbn [fp_dir fp_manifest]. rewrite Hd, Hr. cbn [default from_option id].
    unfold composeRaftState, ReadFile. by rewrite Hdd, Hdr.
  - unfold ReadSnapshot, currentSnapshotPath. cbn [fp_dir fp_manifest].
    rewrite Hs. cbn [default from_option id]. unfold ReadFile at 1. rewrite Hds.
    destruct sn; [done|]. destruct (m_SnapshotRel (fp_manifest fp)) as [f|] eqn:E; [|done].
    destruct Hold as [Hf _]; [done|by eexists|]. injection Hf as ->. done.
Qed.

Lemma discover_none d :
  (∀ g, is_Some (d !! RaftStateGen g) → d !! SnapGen g = None) →
  discoverLatestCompleteGeneration d = empty_manifest.
Proof.
  intros H. unfold discoverLatestCompleteGeneration.
  enough (filter (λ g, is_Some (d !! SnapGen g)) (raft_gens d) = []) as -> by done.
  destruct (filter _ _) as [|g l] eqn:E; [done|]. exfalso.
  assert (g ∈ filter (λ g, is_Some (d !! SnapGen g)) (raft_gens d)) as Hg
    by (rewrite E; by left).
  apply list_elem_of_filter in Hg as [Hs Hg]. unfold raft_gens in Hg.
  apply list_elem_of_omap in Hg as ([f c] & Hin & Hf). destruct f; simplify_eq/=.
  apply elem_of_map_to_list in Hin. rewrite H in Hs; [by destruct Hs|by eexists].
Qed.

(** With one complete generation, it is the one found. *)
Lemma discover_one d :
  (∀ g, is_Some (d !! RaftStateGen g) ↔ g = 1%N) → is_Some (d !! SnapGen 1) →
  discoverLatestCompleteGeneration d =
    {| m_Generation := 1; m_RaftStateRel := Some (RaftStateGen 1);
       m_RaftDeltaRel := Some (DeltaGen 1); m_SnapshotRel := Some (SnapGen 1) |}.
Proof.
  intros H Hs. unfold discoverLatestCompleteGeneration.
  set (l := filter _ _).
  assert (Forall (λ g, g = 1%N) l) as Hall.
  { apply Forall_forall. intros g. subst l. rewrite list_elem_of_filter. intros [_ Hg].
    apply list_elem_of_omap in Hg as ([f c] & Hin & Hf). destruct f; simplify_eq/=.
    apply elem_of_map_to_list in Hin. apply H. by eexists. }
  assert (1%N ∈ l) as Hin.
  { subst l. apply list_elem_of_filter. split; [done|].
    destruct (proj2 (H 1%N) eq_refl) as [c Hc].
    apply list_elem_of_omap. exists (RaftStateGen 1, c). split; [|done].
    by apply elem_of_map_to_list. }
  clearbody l. assert (foldr N.max 0%N l = 1%N) as ->; [|done].
  clear -Hall Hin. destruct l as [|g l]; [by apply elem_of_nil in Hin|]. clear Hin.
  revert g Hall. induction l as [|g' l IH]; intros g [-> Hall]%Forall_cons; [done|].
  cbn [foldr]. cbn [foldr] in IH. by rewrite IH.
Qed.

(** The first save, stopped by a crash. *)
Lemma first_save_crash d rs c m' ws1 ws2 :
  d !! ManifestJson = None →
  (∀ g, d !! RaftStateGen g = None ∧ d !! SnapGen g = None ∧ d !! DeltaGen g = None) →
  [(RaftStateGen 1, Data rs); (SnapGen 1, Data c); (DeltaGen 1, Data []); (ManifestJson, Manifest m')]
    = ws1 ++ ws2 → ws2 ≠ [] →
  let fp1 := NewFilePersister (run_writes ws1 d) in
  (ReadRaftState fp1 = ReadFile d (Some RaftStateBin) ∧
   ReadSnapshot fp1 = ReadFile d (Some SnapshotBin)) ∨
  (ReadRaftState fp1 = rs ∧ ReadSnapshot fp1 = c).
Proof.
  intros Hmj Hfree Hws Hne fp1.
  assert (∀ d', d' !! ManifestJson = None → ReadFile d' (Some RaftStateBin) = ReadFile d (Some RaftStateBin) →
    ReadFile d' (Some SnapshotBin) = ReadFile d (Some SnapshotBin) → (∀ g, d' !! SnapGen g = None) →
    ReadRaftState (NewFilePersister d') = ReadFile d (Some RaftStateBin) ∧
    ReadSnapshot (NewFilePersister d') = ReadFile d (Some SnapshotBin)) as Hold.
  { intros d' Hm <- <- Hs. unfold NewFilePersister, loadManifest.
    rewrite Hm, discover_none by (by intros). done. }
  assert (∀ d', d' !! ManifestJson = None → (∀ g, is_Some (d' !! RaftStateGen g) ↔ g = 1%N) →
    is_Some (d' !! SnapGen 1) → ReadFile d' (Some (RaftStateGen 1)) = rs →
    ReadFile d' (Some (SnapGen 1)) = c → ReadFile d' (Some (DeltaGen 1)) = [] →
    ReadRaftState (NewFilePersister d') = rs ∧ ReadSnapshot (NewFilePersister d') = c) as Hnew.
  { intros d' Hm Hr Hs <- <- Hdl. unfold NewFilePersister, loadManifest.
    rewrite Hm, discover_one by done. cbn [m_Generation m_RaftDeltaRel fst snd].
    rewrite (bool_decide_false (Some (DeltaGen 1) = None)), andb_false_r by done.
    unfold ReadRaftState, composeRaftState, currentRaftDeltaPath, currentRaftStatePath, ReadSnapshot,
      currentSnapshotPath. cbn [fp_dir fp_manifest m_RaftDeltaRel m_RaftStateRel m_SnapshotRel
      default from_option id]. by rewrite Hdl, bool_decide_true by done. }
  assert (∀ g, is_Some ((<[RaftStateGen 1:=Data rs]> d) !! RaftStateGen g) ↔ g = 1%N) as Hone.
  { intros g. destruct (decide (g = 1%N)) as [->|Hg].
    - rewrite lookup_insert_eq. split; [done|]. by eexists.
    - rewrite lookup_insert_ne by congruence. rewrite (proj1 (Hfree g)).
      split; [by intros []|done]. }
  destruct ws1 as [|w1 [|w2 [|w3 [|w4 ws1]]]]; simplify_list_eq;
    subst fp1; unfold run_writes; cbn [foldl fst snd].
  - left. apply Hold; try done. intros g. apply Hfree.
  - left. apply Hold; rewrite ?read_insert_ne, ?lookup_insert_ne by done; try done.
    intros g. rewrite lookup_insert_ne by done. apply Hfree.
  - right. apply Hnew; rewrite ?read_insert_ne, ?read_insert, ?lookup_insert_ne, ?lookup_insert_eq by done;
      try done.
    + intros g. rewrite lookup_insert_ne by done. apply Hone.
    + unfold ReadFile. by rewrite (proj2 (proj2 (Hfree 1%N))).
  - right. apply Hnew; rewrite ?read_insert_ne, ?read_insert, ?lookup_insert_ne, ?lookup_insert_eq by done;
      try done.
    intros g. rewrite !lookup_insert_ne by done. apply Hone.
  - by destruct ws1, ws2.
Qed.

(** Before its last write, a full save of a persister with a manifest only
    touches files of the next generation. *)
Lemma commit_steps_later m rs sn ws1 ws2 w :
  (commitGeneration_steps m rs sn).1 = ws1 ++ ws2 → ws2 ≠ [] → w ∈ ws1 →
  later_file (m_Generation m) w.1.
Proof.
  destruct (commit_steps_shape m rs sn) as (sw & m' & E & _ & _ & _ & Hsn).
  rewrite E. cbn [fst]. intros Hws Hne Hw.
  destruct (exists_last Hne) as (ws2' & l & ->).
  assert (w ∈ (RaftStateGen (m_Generation m + 1), Data rs) :: sw ++
      [(DeltaGen (m_Generation m + 1), Data [])]) as Hin.
  { replace ((RaftStateGen (m_Generation m + 1), Data rs) :: sw ++
      [(DeltaGen (m_Generation m + 1), Data []); (ManifestJson, Manifest m')])
      with (((RaftStateGen (m_Generation m + 1), Data rs) :: sw ++
        [(DeltaGen (m_Generation m + 1), Data [])]) ++ [(ManifestJson, Manifest m')]) in Hws
      by (cbn [app]; by rewrite <-app_assoc).
    rewrite app_assoc in Hws. apply app_inj_tail in Hws as [-> _]. apply elem_of_app. by left. }
  apply elem_of_cons in Hin as [->|Hin]; [simpl; lia|].
  apply elem_of_app in Hin as [Hin|Hin].
  - destruct Hsn as [(-> & _)|(c & -> & _)]; [by apply elem_of_nil in Hin|].
    apply list_elem_of_singleton in Hin as ->. simpl; lia.
  - apply list_elem_of_singleton in Hin as ->. simpl; lia.
Qed.

Lemma generation_crash fp rs sn ws1 ws2 :
  fp_wf fp ∨ fp_fresh fp →
  (commitGeneration_steps (fp_manifest fp) rs sn).1 = ws1 ++ ws2 →
  let fp1 := NewFilePersister (run_writes ws1 (fp_dir fp)) in
  let fp2 := commitGeneration fp rs sn in
  (ws2 ≠ [] ∧ ReadRaftState fp1 = ReadRaftState fp ∧ ReadSnapshot fp1 = ReadSnapshot fp) ∨
  (ReadRaftState fp1 = rs ∧ ReadSnapshot fp1 = ReadSnapshot fp2).
Proof.
  intros Hfp Hws fp1 fp2.
  destruct (commitGeneration_spec fp rs sn Hfp) as (Hwf2 & _ & Hrs & Hsnap2).
  destruct (decide (ws2 = [])) as [->|Hne].
  { right. rewrite app_nil_r in Hws.
    destruct (reload_same fp2 [] Hwf2) as [Hr1 Hs1]; [intros w Hw; by apply elem_of_nil in Hw|].
    assert (fp_dir fp2 = run_writes ws1 (fp_dir fp)) as Hd.
    { subst fp2. unfold commitGeneration. rewrite <-Hws. by destruct (commitGeneration_steps _ _ _). }
    change (run_writes [] (fp_dir fp2)) with (fp_dir fp2) in Hr1, Hs1.
    rewrite Hd in Hr1, Hs1. subst fp1. by rewrite Hr1, Hs1. }
  destruct Hfp as [Hwf|(Hm & Hmj & Hfree)].
  - left. split; [done|]. apply reload_same; [done|]. intros w Hw. by eapply commit_steps_later.
  - destruct (commit_steps_shape (fp_manifest fp) rs sn) as (sw & m' & E & _ & _ & _ & Hsn).
    rewrite E, Hm in Hws. rewrite Hm in Hsn, Hsnap2.
    destruct Hsn as [(_ & _ & _ & [? ?])|(c & -> & _ & Hc)]; [done|].
    destruct (first_save_crash (fp_dir fp) rs c m' ws1 ws2 Hmj Hfree Hws Hne) as [[H1 H2]|[H1 H2]].
    + left. split; [done|]. unfold ReadRaftState at 2, ReadSnapshot at 2. rewrite Hm. done.
    + right. split; [done|]. subst fp1 fp2. rewrite H2, Hsnap2.
      by destruct Hc as [->|(-> & -> & _)].
Qed.

(** crash during a full save.  A full save is a list of durable writes;
    wherever a crash stops it, the next start reads the raft state and the
    snapshot that were there before, or exactly those being saved; and when
    all the writes were made, those being saved. *)
Theorem generation_crash_atomic fp rs sn ws1 ws2 :
  fp_wf fp ∨ fp_fresh fp →
  (commitGeneration_steps (fp_manifest fp) rs sn).1 = ws1 ++ ws2 →
  let fp1 := NewFilePersister (run_writes ws1 (fp_dir fp)) in
  let fp2 := commitGeneration fp rs sn in
  (ws2 ≠ [] ∧ ReadRaftState fp1 = ReadRaftState fp ∧ ReadSnapshot fp1 = ReadSnapshot fp) ∨
  (ReadRaftState fp1 = rs ∧ ReadSnapshot fp1 = ReadSnapshot fp2).
Proof. apply generation_crash. Qed.

(** Writing the delta file of the current generation. *)
Definition appended (fp : FilePersister) (delta : bytes) : FilePersister :=
  {| fp_dir := <[DeltaGen (m_Generation (fp_manifest fp)) := Data delta]> (fp_dir fp); fp_manifest := fp_manifest fp;
     fp_deltaCompactBytes := fp_deltaCompactBytes fp |}.
Lemma appended_wf fp delta : fp_wf fp → fp_wf (appended fp delta).
Proof.
  intros Hwf. destruct (wf_snap _ Hwf) as (gs & Hgs & Hs & Hsd).
  split; cbn [appended fp_dir fp_manifest]; try apply Hwf.
  - rewrite lookup_insert_ne by done. apply Hwf.
  - exists gs. by rewrite lookup_insert_ne.
  - rewrite lookup_insert_ne, lookup_insert_eq by done. split; [apply Hwf|by eexists].
Qed.

Lemma wf_paths fp : fp_wf fp →
  currentRaftStatePath (fp_manifest fp) = RaftStateGen (m_Generation (fp_manifest fp)) ∧
  currentRaftDeltaPath (fp_manifest fp) = Some (DeltaGen (m_Generation (fp_manifest fp))).
Proof. intros Hwf. unfold currentRaftStatePath, currentRaftDeltaPath. by rewrite (wf_raft _ Hwf), (wf_delta _ Hwf). Qed.
Lemma clean_frames fp ps : fp_wf fp → fp_clean fp ps → ReadFile (fp_dir fp) (Some (DeltaGen (m_Generation (fp_manifest fp)))) = frames ps.
Proof. intros Hwf (dl & Hdl & Hrd & _). destruct (wf_paths _ Hwf) as [_ E]. rewrite E in Hdl. by simplify_eq. Qed.

(** Frames behind complete frames. *)
Lemma appended_reads fp ps0 ps s1 :
  fp_wf fp → fp_clean fp ps0 → Forall payload_ok ps → apply_all (ReadRaftState fp) ps = Some s1 →
  let fp1 := appended fp (frames (ps0 ++ ps)) in
  ReadRaftState fp1 = s1 ∧ ReadSnapshot fp1 = ReadSnapshot fp ∧ fp_clean fp1 (ps0 ++ ps) ∧
  (composeRaftState (fp_dir fp1) (currentRaftStatePath (fp_manifest fp)) (Some (DeltaGen (m_Generation (fp_manifest fp))))).1 = s1.
Proof.
  intros Hwf (dl & Hdl & Hrd & Hok0 & Happ0) Hok Hall fp1. destruct (wf_paths _ Hwf) as [Hrp Hdp]. rewrite Hdp in Hdl. injection Hdl as <-.
  set (gen := m_Generation (fp_manifest fp)) in *. destruct (wf_snap _ Hwf) as (gs & Hgs & Hs & Hsd).
  assert (Forall payload_ok (ps0 ++ ps)) as Hok1 by (by apply Forall_app).
  assert (apply_all (ReadFile (fp_dir fp) (Some (RaftStateGen gen))) (ps0 ++ ps) = Some s1) as Happ1.
  { rewrite <-Hrp, apply_all_app, Happ0. done. }
  assert ((composeRaftState (fp_dir fp1) (RaftStateGen gen) (Some (DeltaGen gen))).1 = s1) as Hcomp.
  { rewrite (compose_frames _ _ _ (ps0 ++ ps) []) by (rewrite app_nil_r; apply read_insert).
    cbn [fp1 appended fp_dir]. rewrite app_nil_r, read_insert_ne by done.
    by rewrite (replay_all _ _ s1). }
  assert (ReadRaftState fp1 = s1) as Hr1.
  { unfold ReadRaftState. cbn [fp1 appended fp_manifest]. by rewrite Hrp, Hdp. }
  split_and!; [done| | |by rewrite Hrp].
  - unfold ReadSnapshot, currentSnapshotPath. cbn [fp1 appended fp_manifest fp_dir]. rewrite Hs. by apply read_insert_ne.
  - exists (DeltaGen gen). split_and!; try done; [apply read_insert|].
    cbn [fp1 appended fp_manifest fp_dir]. rewrite Hr1, Hrp, read_insert_ne by done. done.
Qed.

(** an append is durable and exact.  Appending payloads to a persister
    whose delta file holds complete frames succeeds; what is read afterwards
    is the old state with the payloads applied in order, also when the append
    triggers a compaction into a new generation; the snapshot is kept and the
    persister stays well formed. *)
Theorem append_reads_back fp ps0 ps s1 :
  fp_wf fp → fp_clean fp ps0 → Forall payload_ok ps →
  apply_all (ReadRaftState fp) ps = Some s1 →
  ∃ fp' ps', commitAppendRaftState fp ps = Some fp' ∧ ReadRaftState fp' = s1 ∧
    ReadSnapshot fp' = ReadSnapshot fp ∧ fp_wf fp' ∧ fp_clean fp' ps'.
Proof.
  intros Hwf Hcl Hok Hall. destruct (appended_reads _ _ _ _ Hwf Hcl Hok Hall) as (Hr1 & Hs1 & Hcl1 & Hcomp).
  unfold commitAppendRaftState. case_bool_decide as Hps; [subst ps; simplify_eq/=; by exists fp, ps0|].
  destruct (wf_paths _ Hwf) as [Hrp Hdp]. rewrite Hdp, (clean_frames _ _ Hwf Hcl), <-frames_app.
  set (fp1 := appended fp (frames (ps0 ++ ps))) in *. pose proof (appended_wf fp (frames (ps0 ++ ps)) Hwf) as Hwf1. fold fp1 in Hwf1.
  set (fp1' := Build_FilePersister _ _ _). change fp1' with fp1. clear fp1'.
  case_bool_decide; [by exists fp1, (ps0 ++ ps)|]. case_bool_decide; [by exists fp1, (ps0 ++ ps)|].
  change (fp_manifest fp1) with (fp_manifest fp). destruct (composeRaftState _ _ _) as [st ?]. cbn [fst] in Hcomp. subst st.
  case_bool_decide; [by exists fp1, (ps0 ++ ps)|].
  destruct (commitGeneration_spec fp1 s1 None (or_introl Hwf1)) as (Hwf2 & Hcl2 & Hr2 & Hs2).
  exists (commitGeneration fp1 s1 None), []. split_and!; try done.
  rewrite Hs2, <-Hs1. destruct (wf_snap _ Hwf1) as (gs & _ & -> & _). done.
Qed.

(** ** Witnesses: a directory written by one full save of a 44-byte state *)

Definition wit_base : bytes := replicate 44 0.
Definition wit_fp : FilePersister :=
  commitGeneration (NewFilePersister ∅) wit_base (Some [7; 7]).
(** A payload that replaces the header by [h] and appends [delta]. *)
Definition wit_payload (prevLen : Z) (h : Z) (delta : bytes) : bytes :=
  le_put 4 raftAppendPayloadMagic ++ le_put 8 prevLen ++
  le_put 8 (prevLen + Z.of_nat (length delta)) ++ le_put 4 44 ++
  le_put 4 (Z.of_nat (length delta)) ++ replicate 44 h ++ delta.
Definition wit_p1 : bytes := wit_payload 44 1 [5; 6].
Definition wit_p2 : bytes := wit_payload 46 2 [9].

Lemma wit_fp_wf : fp_wf wit_fp ∧ fp_clean wit_fp [].
Proof.
  destruct (commitGeneration_spec (NewFilePersister ∅) wit_base (Some [7; 7])) as (H1 & H2 & _).
  - right. split_and!; [done..|]. by intros g.
  - done.
Qed.

Lemma wit_payloads_ok : Forall payload_ok [wit_p1; wit_p2].
Proof.
  repeat constructor; vm_compute; try done; by split.
Qed.

Lemma append_crash_prefix_witness :
  ReadRaftState (NewFilePersister (crashed_append wit_fp []
    (take 95 (frames [wit_p1; wit_p2])))) = replicate 44 1 ++ [5; 6] ∧
  ∃ ps1, ps1 `prefix_of` [wit_p1; wit_p2] ∧
    apply_all (ReadRaftState wit_fp) ps1 =
      Some (ReadRaftState (NewFilePersister (crashed_append wit_fp []
        (take 95 (frames [wit_p1; wit_p2]))))) ∧
    (∀ ps', ps' `prefix_of` [wit_p1; wit_p2] →
       frames ps' `prefix_of` take 95 (frames [wit_p1; wit_p2]) → ps' `prefix_of` ps1) ∧
    ReadSnapshot (NewFilePersister (crashed_append wit_fp []
        (take 95 (frames [wit_p1; wit_p2])))) = ReadSnapshot wit_fp.
Proof.
  split; [vm_compute; reflexivity|].
  apply (append_crash_prefix wit_fp [] [wit_p1; wit_p2] _ (replicate 44 2 ++ [5; 6; 9])).
  - apply wit_fp_wf.
  - apply wit_fp_wf.
  - apply wit_payloads_ok.
  - vm_compute. reflexivity.
  - exists (drop 95 (frames [wit_p1; wit_p2])). symmetry. apply take_drop.
Defined.

Lemma append_reads_back_witness :
  ∃ fp' ps', commitAppendRaftState wit_fp [wit_p1; wit_p2] = Some fp' ∧
    ReadRaftState fp' = replicate 44 2 ++ [5; 6; 9] ∧
    ReadSnapshot fp' = ReadSnapshot wit_fp ∧ fp_wf fp' ∧ fp_clean fp' ps'.
Proof.
  apply (append_reads_back wit_fp []).
  - apply wit_fp_wf.
  - apply wit_fp_wf.
  - apply wit_payloads_ok.
  - vm_compute. reflexivity.
Defined.

Lemma generation_crash_atomic_witness :
  let ws := (commitGeneration_steps (fp_manifest wit_fp) [1; 2; 3] (Some [4])).1 in
  let fp1 := NewFilePersister (run_writes (take 3 ws) (fp_dir wit_fp)) in
  (drop 3 ws ≠ [] ∧ ReadRaftState fp1 = ReadRaftState wit_fp ∧
     ReadSnapshot fp1 = ReadSnapshot wit_fp) ∨
  (ReadRaftState fp1 = [1; 2; 3] ∧
     ReadSnapshot fp1 = ReadSnapshot (commitGeneration wit_fp [1; 2; 3] (Some [4]))).
Proof.
  apply (generation_crash_atomic wit_fp [1; 2; 3] (Some [4])).
  - left. apply wit_fp_wf.
  - symmetry. apply take_drop.
Defined.

(** ** A torn frame is not removed *)

(** The directory a crash leaves after 95 of the bytes of two frames. *)
Definition torn_fp : FilePersister :=
  NewFilePersister (crashed_append wit_fp [] (take 95 (frames [wit_p1; wit_p2]))).

(** recovery skips a torn frame at the end of the delta file but leaves
    its bytes there (the valid length that [composeRaftState] returns is not
    used).  The next append writes behind them: it is acknowledged, it applies
    to the recovered state, and the start after that does not find it. *)
Theorem torn_tail_hides_acked :
  ∃ fp', flush torn_fp [] [] [wit_p2] = Some fp' ∧
    applyRaftAppendPayload (ReadRaftState torn_fp) wit_p2 = (replicate 44 2 ++ [5; 6; 9], true) ∧
    ReadRaftState (NewFilePersister (fp_dir fp')) = replicate 44 1 ++ [5; 6].
Proof.
  eexists. split; [vm_compute; reflexivity|]. split; vm_compute; reflexivity.
Qed.
