(* ===== verification/PersisterWorker.v ===== *)
(** * PersisterWorker: the worker of the file persister (src/pkg/persister/file.go)

    Clients put requests into three buffered channels; one worker moves them into
    batches, commits the batches and answers the requests through their done
    channels.  The done channels of hard-state requests and of state requests
    (full saves and appends) are numbered in the order in which the requests are
    sent.  A client reads the channels under the lock and sends later, so a send
    can happen at any time, also after [Close].  Writes succeed; a crash is a
    directory in the middle of a flush. *)
From stdpp Require Import prelude gmap.
From S2P Require Import Prelude Persister.
From stdpp Require Import options.
Local Open Scope Z_scope.

Inductive persist_err := ErrPersisterClosed | ErrPersisterStopping | ErrOpenDelta.

Record saveRequest := { sr_raftstate : bytes; sr_snapshot : option bytes; sr_done : nat }.
Record hardStateRequest := { hr_hardstate : bytes; hr_done : nat }.
Record appendStateRequest := { ar_data : bytes; ar_done : nat }.

(** The contents of the three channels, and the three batches. *)
Record requests := mkReqs {
  rq_save : list saveRequest; rq_hard : list hardStateRequest; rq_append : list appendStateRequest }.
Definition no_requests : requests := mkReqs [] [] [].

(** A done channel: open and empty, or with its answer and closed. *)
Abbreviation done_chan := (option (option persist_err)) (only parsing).

Record persister := mkPersister {
  ps_fp : FilePersister;
  ps_closed : bool;
  ps_running : bool;       (* the channel fields are not nil *)
  ps_queue : requests;
  ps_batch : requests;     (* the worker's local batches *)
  ps_stop : bool;          (* stopCh is closed *)
  ps_workerDone : bool;    (* workerDone is closed *)
  ps_hardDone : list done_chan;
  ps_stateDone : list done_chan }.

Definition defaultBatchSize : nat := 64.
Definition chanSize : nat := 1024.

Definition with_queue (q : requests) (p : persister) : persister :=
  mkPersister (ps_fp p) (ps_closed p) (ps_running p) q (ps_batch p) (ps_stop p) (ps_workerDone p) (ps_hardDone p) (ps_stateDone p).
Definition with_batch (b : requests) (p : persister) : persister :=
  mkPersister (ps_fp p) (ps_closed p) (ps_running p) (ps_queue p) b (ps_stop p) (ps_workerDone p) (ps_hardDone p) (ps_stateDone p).

Definition startWorkerLocked (p : persister) : persister :=
  if ps_running p then p
  else mkPersister (ps_fp p) (ps_closed p) true no_requests no_requests false false (ps_hardDone p) (ps_stateDone p).
(** [NewFilePersister] with its worker. *)
Definition newPersister (d : gmap fname content) : persister :=
  startWorkerLocked (mkPersister (NewFilePersister d) false false no_requests no_requests false false [] []).

(** ** Clients *)

(** What an enqueue returns: an answered channel, or the request's. *)
Inductive enqueued := Immediate (e : persist_err) | Waiting (done : nat).

Definition refuses (p : persister) : bool := ps_closed p || negb (ps_running p).
(** The select of an enqueue; [pick] chooses when both cases are ready.  [None]:
    neither is, the client waits. *)
Definition select_send (room stop pick : bool) : option bool :=
  match room, stop with
  | true, true => Some pick
  | true, false => Some true
  | false, true => Some false
  | false, false => None
  end.

Definition send_save (raftstate : bytes) (snapshot : option bytes) (p : persister) : persister :=
  let q := ps_queue p in let id := length (ps_stateDone p) in
  let r := {| sr_raftstate := raftstate; sr_snapshot := EnqueueSave_snapshot snapshot; sr_done := id |} in
  mkPersister (ps_fp p) (ps_closed p) (ps_running p) (mkReqs (rq_save q ++ [r]) (rq_hard q) (rq_append q)) (ps_batch p)
    (ps_stop p) (ps_workerDone p) (ps_hardDone p) (ps_stateDone p ++ [None]).
Definition send_append (data : bytes) (p : persister) : persister :=
  let q := ps_queue p in let id := length (ps_stateDone p) in
  let r := {| ar_data := data; ar_done := id |} in
  mkPersister (ps_fp p) (ps_closed p) (ps_running p) (mkReqs (rq_save q) (rq_hard q) (rq_append q ++ [r])) (ps_batch p)
    (ps_stop p) (ps_workerDone p) (ps_hardDone p) (ps_stateDone p ++ [None]).
Definition send_hard (hardstate : bytes) (p : persister) : persister :=
  let q := ps_queue p in let id := length (ps_hardDone p) in
  let r := {| hr_hardstate := hardstate; hr_done := id |} in
  mkPersister (ps_fp p) (ps_closed p) (ps_running p) (mkReqs (rq_save q) (rq_hard q ++ [r]) (rq_append q)) (ps_batch p)
    (ps_stop p) (ps_workerDone p) (ps_hardDone p ++ [None]) (ps_stateDone p).

(** The whole call, when nothing happens between the check and the select. *)
Definition enqueue {A} (channel : requests → list A) (dones : persister → list done_chan) (send : persister → persister) (pick : bool) (p : persister)
    : option (persister * enqueued) :=
  if refuses p then Some (p, Immediate ErrPersisterClosed)
  else
    sent ← select_send (bool_decide (length (channel (ps_queue p)) < chanSize)%nat) (ps_stop p) pick;
    Some (if sent : bool then (send p, Waiting (length (dones p))) else (p, Immediate ErrPersisterStopping)).
Definition EnqueueSave (pick : bool) (raftstate : bytes) (snapshot : option bytes) : persister → option (persister * enqueued) :=
  enqueue rq_save ps_stateDone (send_save raftstate snapshot) pick.
Definition EnqueueAppendRaftState (pick : bool) (data : bytes) : persister → option (persister * enqueued) :=
  enqueue rq_append ps_stateDone (send_append data) pick.
Definition EnqueueSaveHardState (pick : bool) (hardstate : bytes) : persister → option (persister * enqueued) :=
  enqueue rq_hard ps_hardDone (send_hard hardstate) pick.

Definition stopWorkerLocked (p : persister) : persister * bool :=
  (mkPersister (ps_fp p) (ps_closed p) false (ps_queue p) (ps_batch p) (ps_stop p) (ps_workerDone p) (ps_hardDone p) (ps_stateDone p),
   ps_running p).
(** [Close] up to its wait for [workerDone]. *)
Definition Close (p : persister) : persister :=
  if ps_closed p then p
  else
    let '(p, running) := stopWorkerLocked p in
    mkPersister (ps_fp p) true (ps_running p) (ps_queue p) (ps_batch p) (ps_stop p || running) (ps_workerDone p) (ps_hardDone p) (ps_stateDone p).
(** Whether [Close] returns: it is closed already, or the worker has ended. *)
Definition Close_returns (p : persister) : bool := ps_workerDone p.

(** ** The worker *)

(** [done <- err; close(done)] for every request of a batch: [None] is the panic
    of a send on a closed channel. *)
Fixpoint answer (err : option persist_err) (ids : list nat) (dones : list done_chan) : option (list done_chan) :=
  match ids with
  | [] => Some dones
  | id :: ids =>
      match dones !! id with
      | Some None => answer err ids (<[id := Some err]> dones)
      | _ => None
      end
  end.

(** The three parts of [flush]: hard states, full saves, appends.  Of the first two
    only the last request of the batch is committed. *)
Definition flush_hard (p : persister) : option persister :=
  let b := ps_batch p in
  let fp := match last (rq_hard b) with Some r => commitHardState (ps_fp p) (hr_hardstate r) | None => ps_fp p end in
  hardDone ← answer None (hr_done <$> rq_hard b) (ps_hardDone p);
  Some (mkPersister fp (ps_closed p) (ps_running p) (ps_queue p) (mkReqs (rq_save b) [] (rq_append b)) (ps_stop p) (ps_workerDone p)
          hardDone (ps_stateDone p)).
Definition flush_save (p : persister) : option persister :=
  let b := ps_batch p in
  let fp := match last (rq_save b) with Some r => commitGeneration (ps_fp p) (sr_raftstate r) (sr_snapshot r) | None => ps_fp p end in
  stateDone ← answer None (sr_done <$> rq_save b) (ps_stateDone p);
  Some (mkPersister fp (ps_closed p) (ps_running p) (ps_queue p) (mkReqs [] (rq_hard b) (rq_append b)) (ps_stop p) (ps_workerDone p)
          (ps_hardDone p) stateDone).
Definition flush_append (p : persister) : option persister :=
  let b := ps_batch p in
  let '(fp, err) :=
    match commitAppendRaftState (ps_fp p) (ar_data <$> rq_append b) with
    | Some fp => (fp, None)
    | None => (ps_fp p, Some ErrOpenDelta)
    end in
  stateDone ← answer err (ar_done <$> rq_append b) (ps_stateDone p);
  Some (mkPersister fp (ps_closed p) (ps_running p) (ps_queue p) (mkReqs (rq_save b) (rq_hard b) []) (ps_stop p) (ps_workerDone p)
          (ps_hardDone p) stateDone).
Definition worker_flush (p : persister) : option persister :=
  p ← flush_hard p; p ← flush_save p; flush_append p.

(** What can happen: a send, [Close], and the cases of the worker's select. *)
Inductive event :=
  | EvSave (raftstate : bytes) (snapshot : option bytes)
  | EvHard (hardstate : bytes)
  | EvAppend (data : bytes)
  | EvClose
  | TakeSave | TakeHard | TakeAppend | Tick | Stop.
Inductive outcome := Blocked | Panic | Next (p : persister).
Definition proceed (o : option persister) : outcome := match o with None => Panic | Some p => Next p end.

(** A request moves from a channel into its batch. *)
Definition take_save (p : persister) : option persister :=
  let q := ps_queue p in let b := ps_batch p in
  match rq_save q with
  | [] => None
  | r :: rest => Some (with_batch (mkReqs (rq_save b ++ [r]) (rq_hard b) (rq_append b)) (with_queue (mkReqs rest (rq_hard q) (rq_append q)) p))
  end.
Definition take_hard (p : persister) : option persister :=
  let q := ps_queue p in let b := ps_batch p in
  match rq_hard q with
  | [] => None
  | r :: rest => Some (with_batch (mkReqs (rq_save b) (rq_hard b ++ [r]) (rq_append b)) (with_queue (mkReqs (rq_save q) rest (rq_append q)) p))
  end.
Definition take_append (p : persister) : option persister :=
  let q := ps_queue p in let b := ps_batch p in
  match rq_append q with
  | [] => None
  | r :: rest => Some (with_batch (mkReqs (rq_save b) (rq_hard b) (rq_append b ++ [r])) (with_queue (mkReqs (rq_save q) (rq_hard q) rest) p))
  end.
Definition flush_if {A} (batch : list A) (p : persister) : option persister :=
  if decide (defaultBatchSize ≤ length batch)%nat then worker_flush p else Some p.
Definition worker_end (p : persister) : persister :=
  mkPersister (ps_fp p) (ps_closed p) (ps_running p) (ps_queue p) (ps_batch p) (ps_stop p) true (ps_hardDone p) (ps_stateDone p).

(** One round of [runWorker]. *)
Definition worker_round (ev : event) (p : persister) : outcome :=
  if ps_workerDone p then Blocked
  else
    match ev with
    | TakeSave => match take_save p with None => Blocked | Some p => proceed (flush_if (rq_save (ps_batch p)) p) end
    | TakeHard => match take_hard p with None => Blocked | Some p => proceed (flush_if (rq_hard (ps_batch p)) p) end
    | TakeAppend => match take_append p with None => Blocked | Some p => proceed (flush_if (rq_append (ps_batch p)) p) end
    | Tick => proceed (worker_flush p)
    | Stop => if ps_stop p then proceed (worker_end <$> worker_flush p) else Blocked
    | _ => Blocked
    end.
Definition exec (ev : event) (p : persister) : outcome :=
  match ev with
  | EvSave rs sn => if decide (length (rq_save (ps_queue p)) < chanSize)%nat then Next (send_save rs sn p) else Blocked
  | EvHard h => if decide (length (rq_hard (ps_queue p)) < chanSize)%nat then Next (send_hard h p) else Blocked
  | EvAppend data => if decide (length (rq_append (ps_queue p)) < chanSize)%nat then Next (send_append data p) else Blocked
  | EvClose => Next (Close p)
  | _ => worker_round ev p
  end.
Fixpoint exec_all (evs : list event) (p : persister) : outcome :=
  match evs with
  | [] => Next p
  | ev :: evs => match exec ev p with Next p => exec_all evs p | o => o end
  end.

(** ** Crashes *)

(** The directory when the process dies: between two writes of a full save, in
    the middle of an append, or between two writes of its compaction. *)
Inductive crash (p : persister) : gmap fname content → Prop :=
  | crash_idle : crash p (fp_dir (ps_fp p))
  | crash_save r ws1 ws2 :
      rq_hard (ps_batch p) = [] → last (rq_save (ps_batch p)) = Some r →
      (commitGeneration_steps (fp_manifest (ps_fp p)) (sr_raftstate r) (sr_snapshot r)).1 = ws1 ++ ws2 →
      crash p (run_writes ws1 (fp_dir (ps_fp p)))
  | crash_append dl q :
      rq_hard (ps_batch p) = [] → rq_save (ps_batch p) = [] → rq_append (ps_batch p) ≠ [] → currentRaftDeltaPath (fp_manifest (ps_fp p)) = Some dl →
      q `prefix_of` frames (ar_data <$> rq_append (ps_batch p)) →
      crash p (<[dl := Data (ReadFile (fp_dir (ps_fp p)) (Some dl) ++ q)]> (fp_dir (ps_fp p)))
  | crash_compact dl ws1 ws2 :
      let payloads := ar_data <$> rq_append (ps_batch p) in
      let d := <[dl := Data (ReadFile (fp_dir (ps_fp p)) (Some dl) ++ frames payloads)]> (fp_dir (ps_fp p)) in
      let state := (composeRaftState d (currentRaftStatePath (fp_manifest (ps_fp p))) (Some dl)).1 in
      rq_hard (ps_batch p) = [] → rq_save (ps_batch p) = [] → rq_append (ps_batch p) ≠ [] → currentRaftDeltaPath (fp_manifest (ps_fp p)) = Some dl → state ≠ [] →
      (commitGeneration_steps (fp_manifest (ps_fp p)) state None).1 = ws1 ++ ws2 →
      crash p (run_writes ws1 d).
