(* ===== verification/PersisterWorkerProps.v ===== *)
(** * PersisterWorkerProps: what an acknowledgement of the persister means

    Whatever the order in which the worker takes requests and wherever it crashes,
    an acknowledged hard state is recovered or replaced by a later one.  For full
    saves and appends this holds when a client does not have requests of both
    kinds under way; two runs show why it needs to be so. *)
From stdpp Require Import prelude gmap.
From S2P Require Import Prelude Persister PersisterProps PersisterWorker.
From stdpp Require Import options.
Local Open Scope Z_scope.

(** ** Answers *)

Lemma answer_seq e m : ∀ n (a : list done_chan) k, length a = n →
  answer e (seq n m) (a ++ replicate (m + k) None) = Some (a ++ replicate m (Some e) ++ replicate k None).
Proof.
  induction m as [|m IH]; intros n a k Ha; [done|]. cbn [seq answer Nat.add replicate].
  rewrite lookup_app_r, Ha, Nat.sub_diag by lia. cbn. rewrite insert_app_r_alt, Ha, Nat.sub_diag by lia. cbn.
  change (Some e :: replicate (m + k) None) with ([Some e] ++ replicate (m + k) (None : done_chan)). rewrite app_assoc, IH by (rewrite length_app; cbn; lia).
  by rewrite <-app_assoc.
Qed.
Lemma answer_any e ids : ∀ dones, NoDup ids → (∀ i, i ∈ ids → dones !! i = Some None) →
  ∃ dones', answer e ids dones = Some dones' ∧ length dones' = length dones ∧
    ∀ i, dones' !! i = if decide (i ∈ ids) then Some (Some e) else dones !! i.
Proof.
  induction ids as [|id ids IH]; intros dones Hnd Hids; cbn [answer].
  { exists dones. split_and!; [done..|]. intros i. by rewrite decide_False by apply not_elem_of_nil. }
  apply NoDup_cons in Hnd as [Hni Hnd]. pose proof (Hids id ltac:(by left)) as Hid. rewrite Hid.
  destruct (IH (<[id := Some e]> dones) Hnd) as (dones' & E & Hl & Hd).
  { intros i Hi. rewrite list_lookup_insert_ne by (by intros ->). apply Hids. by right. }
  exists dones'. split; [done|]. split; [by rewrite Hl, length_insert|]. intros i. rewrite Hd. destruct (decide (i ∈ ids)) as [Hi|Hi].
  - by rewrite (decide_True (P := i ∈ id :: ids)) by (by right).
  - destruct (decide (i = id)) as [->|Hne].
    + rewrite (decide_True (P := id ∈ id :: ids)) by left. apply list_lookup_insert_eq. by eapply lookup_lt_Some.
    + rewrite (decide_False (P := i ∈ id :: ids)) by (by intros [?|?]%elem_of_cons). by apply list_lookup_insert_ne.
Qed.

(** ** Runs *)

(** The state requests sent, in the order of their done channels. *)
Inductive state_req := Save (raftstate : bytes) | Append (data : bytes).
Definition hards_of (ev : event) : list bytes := match ev with EvHard h => [h] | _ => [] end.
Definition states_of (ev : event) : list state_req :=
  match ev with EvSave rs _ => [Save rs] | EvAppend data => [Append data] | _ => [] end.

(** A part of a flush, in their order. *)
Definition flush_part (p p' : persister) : Prop :=
  flush_hard p = Some p' ∨ (rq_hard (ps_batch p) = [] ∧ flush_save p = Some p') ∨
  (rq_hard (ps_batch p) = [] ∧ rq_save (ps_batch p) = [] ∧ flush_append p = Some p').
Definition takes (p p' : persister) : Prop := take_save p = Some p' ∨ take_hard p = Some p' ∨ take_append p = Some p'.
(** Runs of clients that keep to [disc], with the requests sent.  The worker's rounds
    are also cut into their parts, so that every state in the middle of a round is
    reached. *)
Inductive reaches (disc : list state_req → persister → event → Prop) (p0 : persister) : list bytes → list state_req → persister → Prop :=
  | reach_start : reaches disc p0 [] [] p0
  | reach_event hs ss p ev p' : reaches disc p0 hs ss p → disc ss p ev → exec ev p = Next p' →
      reaches disc p0 (hs ++ hards_of ev) (ss ++ states_of ev) p'
  | reach_part hs ss p p' : reaches disc p0 hs ss p → takes p p' ∨ flush_part p p' → reaches disc p0 hs ss p'.
Definition any_client (_ : list state_req) (_ : persister) (_ : event) : Prop := True.

Definition pend_hard (p : persister) : list hardStateRequest := rq_hard (ps_batch p) ++ rq_hard (ps_queue p).
Definition pend_save (p : persister) : list saveRequest := rq_save (ps_batch p) ++ rq_save (ps_queue p).
Definition pend_append (p : persister) : list appendStateRequest := rq_append (ps_batch p) ++ rq_append (ps_queue p).

(** Runs that are given as lists of events. *)
Fixpoint keeps (disc : list state_req → persister → event → Prop) (ss : list state_req) (evs : list event) (p : persister) : Prop :=
  match evs with
  | [] => True
  | ev :: evs => disc ss p ev ∧ match exec ev p with Next p => keeps disc (ss ++ states_of ev) evs p | _ => False end
  end.
Lemma keeps_reaches disc p0 evs : ∀ hs ss p p', reaches disc p0 hs ss p → keeps disc ss evs p → exec_all evs p = Next p' →
  reaches disc p0 (hs ++ (evs ≫= hards_of)) (ss ++ (evs ≫= states_of)) p'.
Proof.
  induction evs as [|ev evs IH]; intros hs ss p p' Hr Hk E; cbn in *; [injection E as <-; by rewrite !app_nil_r|].
  destruct Hk as [Hd Hk]. destruct (exec ev p) as [| |p1] eqn:E1; [done..|]. rewrite !app_assoc. eapply IH; [|done|done].
  by eapply reach_event.
Qed.

(** A call of a client that puts its request into the channel is an event. *)
Lemma enqueue_is_event {A} channel dones send pick p p' r (ev : event) :
  enqueue (A := A) channel dones send pick p = Some (p', r) →
  exec ev p = (if decide (length (channel (ps_queue p)) < chanSize)%nat then Next (send p) else Blocked) →
  match r with
  | Waiting id => exec ev p = Next p' ∧ id = length (dones p)
  | Immediate e => p' = p ∧ e = if refuses p then ErrPersisterClosed else ErrPersisterStopping
  end.
Proof.
  unfold enqueue, select_send. destruct (refuses p); [by intros [= <- <-] _|]. case_bool_decide; destruct (ps_stop p), pick;
    cbn [mbind option_bind]; try done; intros [= <- <-] He; try done; by rewrite He, decide_True.
Qed.
Lemma flush_files p p' fp : worker_flush p = Some p' →
  flush (ps_fp p) (hr_hardstate <$> rq_hard (ps_batch p)) ((λ r, (sr_raftstate r, sr_snapshot r)) <$> rq_save (ps_batch p))
    (ar_data <$> rq_append (ps_batch p)) = Some fp → ps_fp p' = fp.
Proof.
  unfold worker_flush, flush_hard, flush_save, flush_append, flush. rewrite !fmap_last. destruct (answer _ _ (ps_hardDone p)); [|done]. cbn [mbind option_bind ps_fp ps_batch rq_save rq_append ps_stateDone].
  destruct (answer None _ (ps_stateDone p)) as [dn|]; [|done]. cbn [mbind option_bind ps_fp ps_batch rq_save rq_append ps_stateDone]. intros H E.
  destruct (last (rq_hard _)), (last (rq_save _)); cbn [fmap option_fmap option_map] in E; rewrite E in H; destruct (answer _ _ dn); cbn in H; simplify_eq; done.
Qed.

(** ** Files and crashes *)

Definition fp_start (fp : FilePersister) : Prop := fp_wf fp ∨ fp_fresh fp.

Lemma hard_commit fp h : fp_start fp → fp_start (commitHardState fp h).
Proof.
  intros [[H1 H2 H3 H4 (g & Hg & Hs & Hd) [H6 H7]]|(H1 & H2 & H3)]; [left|right].
  - split; cbn [commitHardState fp_dir fp_manifest]; rewrite ?lookup_insert_ne by done; try done. exists g. by rewrite lookup_insert_ne.
  - split_and!; cbn [commitHardState fp_dir fp_manifest]; [done|by rewrite lookup_insert_ne|]. intros g. rewrite !lookup_insert_ne by done. apply H3.
Qed.
Lemma hard_commit_clean fp h ps : fp_wf fp → fp_clean fp ps → fp_clean (commitHardState fp h) ps ∧ ReadRaftState (commitHardState fp h) = ReadRaftState fp.
Proof.
  intros Hwf (dl & Hdl & Hrd & Hok & Happ). assert (dl = DeltaGen (m_Generation (fp_manifest fp))) as ->.
  { unfold currentRaftDeltaPath in Hdl. rewrite (wf_delta _ Hwf) in Hdl. by simplify_eq. }
  assert (currentRaftStatePath (fp_manifest fp) = RaftStateGen (m_Generation (fp_manifest fp))) as Hrp
    by (unfold currentRaftStatePath; by rewrite (wf_raft _ Hwf)).
  assert (ReadRaftState (commitHardState fp h) = ReadRaftState fp) as Hr.
  { unfold ReadRaftState, composeRaftState. cbn [commitHardState fp_dir fp_manifest]. by rewrite Hdl, Hrp, !read_insert_ne. }
  split; [|done]. exists (DeltaGen (m_Generation (fp_manifest fp))). split_and!; [done|rewrite <-Hrd; by apply read_insert_ne|done|].
  rewrite Hr. cbn [commitHardState fp_dir fp_manifest]. rewrite Hrp, read_insert_ne by done. by rewrite <-Hrp.
Qed.
Lemma hard_commit_fresh fp h : fp_fresh fp → ReadRaftState (commitHardState fp h) = ReadRaftState fp.
Proof.
  intros (Hm & _). unfold ReadRaftState, composeRaftState. cbn [commitHardState fp_dir fp_manifest]. rewrite Hm. cbn. apply read_insert_ne. done.
Qed.

(** The files that are not the hard state. *)
Lemma commit_steps_hard m rs sn ws1 ws2 w : (commitGeneration_steps m rs sn).1 = ws1 ++ ws2 → w ∈ ws1 → w.1 ≠ HardStateBin.
Proof.
  destruct (commit_steps_shape m rs sn) as (sw & m' & E & _ & _ & _ & Hsn). rewrite E. cbn [fst]. intros Hws Hw.
  assert (w ∈ ws1 ++ ws2) as Hin by (apply elem_of_app; by left). rewrite <-Hws in Hin.
  destruct Hsn as [(-> & _)|(c & -> & _)]; cbn in Hin; rewrite !elem_of_cons, elem_of_nil in Hin; destruct_or!; subst; done.
Qed.
Lemma read_run_writes ws d f : (∀ w, w ∈ ws → w.1 ≠ f) → ReadFile (run_writes ws d) (Some f) = ReadFile d (Some f).
Proof. intros H. unfold ReadFile. by rewrite run_writes_other. Qed.
Lemma run_writes_lookup ws : ∀ d f c, run_writes ws d !! f = Some c → (f, c) ∈ ws ∨ d !! f = Some c.
Proof.
  induction ws as [|w ws IH]; intros d f c H; [by right|]. change (run_writes (w :: ws) d) with (run_writes ws (<[w.1 := w.2]> d)) in H.
  destruct (IH _ _ _ H) as [Hin|Hd]; [left; by right|]. destruct (decide (f = w.1)) as [->|Hne].
  - rewrite lookup_insert_eq in Hd. injection Hd as <-. left. destruct w. by left.
  - rewrite lookup_insert_ne in Hd by done. by right.
Qed.

(** Manifests that name a delta file of their own. *)
Definition manifest_ok (d : gmap fname content) : Prop :=
  ∀ m, d !! ManifestJson = Some (Manifest m) → ∃ g, m_RaftDeltaRel m = Some (DeltaGen g).
Lemma start_manifest fp : fp_start fp → manifest_ok (fp_dir fp).
Proof. intros [[_ H _ Hd _ _]|(_ & H & _)] m Hm; rewrite H in Hm; [injection Hm as <-; eauto|done]. Qed.
Lemma commit_steps_manifest d m rs sn ws1 ws2 : (commitGeneration_steps m rs sn).1 = ws1 ++ ws2 → manifest_ok d → manifest_ok (run_writes ws1 d).
Proof.
  destruct (commit_steps_shape m rs sn) as (sw & m' & E & _ & _ & Hdl & Hsn). rewrite E. cbn [fst]. intros Hws Hd m1 H.
  apply run_writes_lookup in H as [Hin|H]; [|by apply Hd]. assert ((ManifestJson, Manifest m1) ∈ ws1 ++ ws2) as Hin' by (apply elem_of_app; by left).
  rewrite <-Hws in Hin'. destruct Hsn as [(-> & _)|(c & -> & _)]; cbn in Hin'; rewrite !elem_of_cons, elem_of_nil in Hin';
    destruct_or!; simplify_eq; eauto.
Qed.
Lemma reload_hard d : manifest_ok d → ReadHardState (NewFilePersister d) = ReadFile d (Some HardStateBin).
Proof.
  intros Hm. unfold NewFilePersister, loadManifest. destruct (d !! ManifestJson) as [[|m|]|] eqn:E; [done| |done|done].
  destruct (Hm m E) as [g Hg]. rewrite Hg. cbn [default from_option id]. destruct (m_RaftStateRel m) as [rs|]; [|done]. destruct (m_SnapshotRel m) as [sn|]; [|done].
  destruct (d !! rs) eqn:E1; [|done]. destruct (d !! sn) eqn:E2; [|done]. destruct (d !! DeltaGen g) eqn:E3; [done|]. unfold ReadHardState. cbn [fp_dir]. by apply read_insert_ne.
Qed.

Lemma generation_hard fp rs sn : ReadFile (fp_dir (commitGeneration fp rs sn)) (Some HardStateBin) = ReadFile (fp_dir fp) (Some HardStateBin).
Proof.
  unfold commitGeneration. destruct (commitGeneration_steps _ _ _) as [ws m] eqn:E. cbn [fp_dir]. apply read_run_writes.
  intros w Hw. eapply (commit_steps_hard _ _ _ ws []); [by rewrite app_nil_r, E|done].
Qed.
Lemma wf_delta_path fp dl : fp_start fp → currentRaftDeltaPath (fp_manifest fp) = Some dl →
  fp_wf fp ∧ dl = DeltaGen (m_Generation (fp_manifest fp)).
Proof.
  intros [Hwf|(-> & _)] H; [|done]. split; [done|]. unfold currentRaftDeltaPath in H. rewrite (wf_delta _ Hwf) in H. by simplify_eq.
Qed.
Lemma append_start fp ps fp' : fp_start fp → commitAppendRaftState fp ps = Some fp' →
  fp_start fp' ∧ ReadFile (fp_dir fp') (Some HardStateBin) = ReadFile (fp_dir fp) (Some HardStateBin).
Proof.
  intros Hfp. unfold commitAppendRaftState. case_bool_decide; [by intros [= <-]|]. destruct (currentRaftDeltaPath _) as [dl|] eqn:Hdl; [|done].
  destruct (wf_delta_path _ _ Hfp Hdl) as [Hwf ->]. set (delta := _ ++ _).
  pose proof (appended_wf fp delta Hwf) as Hwf1. set (fp1 := Build_FilePersister _ _ _). change fp1 with (appended fp delta).
  assert (ReadFile (fp_dir (appended fp delta)) (Some HardStateBin) = ReadFile (fp_dir fp) (Some HardStateBin)) as Hh by (by apply read_insert_ne).
  case_bool_decide; [intros [= <-]; split; [by left|done]|]. case_bool_decide; [intros [= <-]; split; [by left|done]|].
  destruct (composeRaftState _ _ _) as [state ?]. case_bool_decide; [intros [= <-]; split; [by left|done]|]. intros [= <-].
  split; [left; apply commitGeneration_spec; by left|]. by rewrite generation_hard.
Qed.
Lemma crash_keeps_hard p d : fp_start (ps_fp p) → crash p d → ReadHardState (NewFilePersister d) = ReadHardState (ps_fp p).
Proof.
  intros Hfp Hc. pose proof (start_manifest _ Hfp) as Hm. unfold ReadHardState at 2. destruct Hc as [|r ws1 ws2 _ _ Hws|dl q _ _ _ Hdl _|dl ws1 ws2 pl d st _ _ _ Hdl _ Hws].
  - by apply reload_hard.
  - rewrite reload_hard by (by eapply commit_steps_manifest). apply read_run_writes. intros w. by eapply commit_steps_hard.
  - destruct (wf_delta_path _ _ Hfp Hdl) as [_ ->]. rewrite reload_hard; [by apply read_insert_ne|].
    intros m. rewrite lookup_insert_ne by done. apply Hm.
  - destruct (wf_delta_path _ _ Hfp Hdl) as [_ ->]. rewrite reload_hard.
    + rewrite read_run_writes by (intros w; by eapply commit_steps_hard). by apply read_insert_ne.
    + eapply commit_steps_manifest; [done|]. intros m. unfold d. rewrite lookup_insert_ne by done. apply Hm.
Qed.

(** ** The invariant, for any clients *)

Definition state_ids (p : persister) : list nat := (sr_done <$> pend_save p) ++ (ar_done <$> pend_append p).
Record safe (h0 : bytes) (hs : list bytes) (p : persister) : Prop := {
  sf_fp : fp_start (ps_fp p);
  sf_hard : ∃ n, hr_done <$> pend_hard p = seq n (length (pend_hard p)) ∧
    ps_hardDone p = replicate n (Some None) ++ replicate (length (pend_hard p)) None ∧
    hr_hardstate <$> pend_hard p = drop n hs ∧ (n ≤ length hs)%nat ∧
    ReadHardState (ps_fp p) = default h0 (last (take n hs));
  sf_ids : NoDup (state_ids p);
  sf_open : ∀ i, ps_stateDone p !! i = Some None ↔ i ∈ state_ids p }.

(** What the invariant depends on. *)
Definition view (p : persister) := (ps_fp p, pend_hard p, pend_save p, pend_append p, ps_hardDone p, ps_stateDone p).
Lemma safe_view h0 hs p p' : view p' = view p → safe h0 hs p → safe h0 hs p'.
Proof.
  intros H [H1 H2 H3 H4]. injection H as E1 E2 E3 E4 E5 E6. unfold state_ids in *.
  split; [by rewrite E1|by rewrite E1, E2, E5|unfold state_ids; by rewrite E3, E4|unfold state_ids; by rewrite E3, E4, E6].
Qed.
Lemma takes_view p p' : takes p p' → view p' = view p.
Proof.
  unfold takes, take_save, take_hard, take_append, view, pend_hard, pend_save, pend_append. destruct p as [? ? ? [s h a] [s' h' a'] ? ? ? ?]; cbn.
  intros [H|[H|H]]; [destruct s|destruct h|destruct a]; simplify_eq; cbn; by rewrite <-app_assoc.
Qed.
Lemma end_view p : view (worker_end p) = view p.
Proof. done. Qed.
Lemma close_view p : view (Close p) = view p.
Proof. unfold Close. by destruct (ps_closed p). Qed.

Lemma flush_hard_safe h0 hs p : safe h0 hs p → ∃ p', flush_hard p = Some p' ∧ safe h0 hs p'.
Proof.
  intros [Hfp (n & Hids & Hd & Hst & Hn & Hr) Hnd Hop]. unfold flush_hard, pend_hard in *. set (b := rq_hard (ps_batch p)) in *.
  rewrite fmap_app, length_app, seq_app in Hids. apply app_inj_1 in Hids as [Hb Hq]; [|by rewrite length_fmap, length_seq].
  rewrite Hb, Hd, length_app, answer_seq by (by rewrite length_replicate). cbn [mbind option_bind]. eexists. split; [done|].
  rewrite app_assoc, <-replicate_add in *.
  split; cbn [ps_fp ps_hardDone ps_stateDone]; [|exists (n + length b)%nat; cbn [pend_hard ps_batch ps_queue rq_hard app]|done|done].
  - destruct (last b) as [r|]; [by apply hard_commit|done].
  - rewrite length_app in Hd. split_and!; [done|done| | |].
    + rewrite <-drop_drop, <-Hst, fmap_app. by rewrite drop_app_length' by (by rewrite length_fmap).
    + assert (length (drop n hs) = length b + length (rq_hard (ps_queue p)))%nat as Hl by (by rewrite <-Hst, length_fmap, length_app).
      rewrite length_drop in Hl. lia.
    + assert (take (length b) (drop n hs) = hr_hardstate <$> b) as Ht
        by (rewrite <-Hst, fmap_app; by rewrite take_app_length' by (by rewrite length_fmap)).
      rewrite <-take_take_drop, Ht, last_app, fmap_last. destruct (last b) as [r|]; [apply read_insert|done].
Qed.
Lemma flush_save_safe h0 hs p : safe h0 hs p → ∃ p', flush_save p = Some p' ∧ safe h0 hs p'.
Proof.
  intros [Hfp Hh Hnd Hop]. unfold flush_save. set (b := rq_save (ps_batch p)).
  assert (state_ids p ≡ₚ (sr_done <$> b) ++ (sr_done <$> rq_save (ps_queue p)) ++ (ar_done <$> pend_append p)) as Hids
    by (unfold state_ids, pend_save; by rewrite fmap_app, <-app_assoc).
  rewrite Hids in Hnd. apply NoDup_app in Hnd as (Hnd1 & Hdis & Hnd2).
  destruct (answer_any None (sr_done <$> b) (ps_stateDone p) Hnd1) as (dones & E & _ & Hdn).
  { intros i Hi. apply Hop. rewrite Hids. apply elem_of_app. by left. }
  rewrite E. cbn [mbind option_bind]. eexists. split; [done|]. split; cbn [ps_fp ps_hardDone ps_stateDone].
  - destruct (last b) as [r|]; [left; by apply commitGeneration_spec|done].
  - destruct Hh as (n & H1 & H2 & H3 & H4 & H5). exists n. split_and!; try done. rewrite <-H5. unfold ReadHardState.
    destruct (last b) as [r|]; [apply generation_hard|done].
  - unfold state_ids. cbn. done.
  - intros i. rewrite Hdn. unfold state_ids. cbn. destruct (decide (i ∈ sr_done <$> b)) as [Hi|Hi].
    + split; [done|]. intros H. by destruct (Hdis i Hi).
    + rewrite Hop, Hids, elem_of_app. tauto.
Qed.
Lemma flush_append_safe h0 hs p : safe h0 hs p → ∃ p', flush_append p = Some p' ∧ safe h0 hs p'.
Proof.
  intros [Hfp Hh Hnd Hop]. unfold flush_append. set (b := rq_append (ps_batch p)).
  assert (state_ids p ≡ₚ (ar_done <$> b) ++ (sr_done <$> pend_save p) ++ (ar_done <$> rq_append (ps_queue p))) as Hids
    by (unfold state_ids, pend_append; rewrite fmap_app; fold b; solve_Permutation).
  rewrite Hids in Hnd. apply NoDup_app in Hnd as (Hnd1 & Hdis & Hnd2).
  assert (∃ fp err, match commitAppendRaftState (ps_fp p) (ar_data <$> b) with Some fp => (fp, None) | None => (ps_fp p, Some ErrOpenDelta) end = (fp, err) ∧
    fp_start fp ∧ ReadHardState fp = ReadHardState (ps_fp p)) as (fp & err & -> & Hfp' & Hr).
  { destruct (commitAppendRaftState _ _) as [fp|] eqn:E; [|by eexists _, _]. destruct (append_start _ _ _ Hfp E). by eexists _, _. }
  destruct (answer_any err (ar_done <$> b) (ps_stateDone p) Hnd1) as (dones & E & _ & Hdn).
  { intros i Hi. apply Hop. rewrite Hids. apply elem_of_app. by left. }
  rewrite E. cbn [mbind option_bind]. eexists. split; [done|]. split; cbn [ps_fp ps_hardDone ps_stateDone].
  - done.
  - destruct Hh as (n & H1 & H2 & H3 & H4 & H5). exists n. split_and!; try done. by rewrite <-H5.
  - unfold state_ids. cbn. done.
  - intros i. rewrite Hdn. unfold state_ids. cbn. destruct (decide (i ∈ ar_done <$> b)) as [Hi|Hi].
    + split; [done|]. intros H. by destruct (Hdis i Hi).
    + rewrite Hop, Hids, elem_of_app. tauto.
Qed.
Lemma worker_flush_safe h0 hs p : safe h0 hs p → ∃ p', worker_flush p = Some p' ∧ safe h0 hs p'.
Proof.
  intros H. unfold worker_flush. destruct (flush_hard_safe _ _ _ H) as (p1 & -> & H1). cbn.
  destruct (flush_save_safe _ _ _ H1) as (p2 & -> & H2). cbn. by apply flush_append_safe.
Qed.

Lemma send_hard_safe h0 hs p h : safe h0 hs p → safe h0 (hs ++ [h]) (send_hard h p).
Proof.
  intros [Hfp (n & Hids & Hd & Hst & Hn & Hr) Hnd Hop]. split; [done| |done|done]. exists n.
  assert (pend_hard (send_hard h p) = pend_hard p ++ [{| hr_hardstate := h; hr_done := length (ps_hardDone p) |}]) as ->
    by (unfold pend_hard; cbn; by rewrite app_assoc).
  rewrite !fmap_app, length_app, seq_app, Hids, Hst, drop_app_le, take_app_le, length_app by done. cbn. split_and!; try done.
  - do 2 f_equal. by rewrite Hd, length_app, !length_replicate.
  - by rewrite Hd, <-app_assoc, replicate_add.
  - lia.
Qed.
Lemma open_app (dones : list done_chan) i : (dones ++ [None]) !! i = Some None ↔ dones !! i = Some None ∨ i = length dones.
Proof.
  rewrite lookup_app. destruct (dones !! i) as [x|] eqn:E.
  - split; [by left|]. intros [?| ->]; [done|]. by rewrite lookup_ge_None_2 in E by lia.
  - apply lookup_ge_None in E. destruct (decide (i = length dones)) as [->|Hne]; [rewrite Nat.sub_diag; cbn; tauto|].
    split; [|intros [?|?]; done]. destruct (i - length dones)%nat as [|k] eqn:Ek; [lia|]. by destruct k.
Qed.
Lemma send_state_safe h0 hs p p' : safe h0 hs p → ps_fp p' = ps_fp p → pend_hard p' = pend_hard p → ps_hardDone p' = ps_hardDone p →
  ps_stateDone p' = ps_stateDone p ++ [None] → state_ids p' ≡ₚ length (ps_stateDone p) :: state_ids p → safe h0 hs p'.
Proof.
  intros [Hfp Hh Hnd Hop] E1 E2 E3 E4 Hids. split; [by rewrite E1|by rewrite E1, E2, E3|rewrite Hids; apply NoDup_cons; split; [|done]|].
  - rewrite <-Hop, lookup_ge_None_2 by lia. done.
  - intros i. rewrite E4, Hids, open_app, elem_of_cons, Hop. tauto.
Qed.

Lemma exec_safe h0 hs p ev : safe h0 hs p →
  match exec ev p with Blocked => True | Panic => False | Next p' => safe h0 (hs ++ hards_of ev) p' end.
Proof.
  intros H. destruct ev as [rs sn|h|data| | | | | |]; cbn [exec hards_of]; rewrite ?app_nil_r.
  - case_decide; [|done]. eapply send_state_safe; [done..|]. unfold state_ids, pend_save. cbn. rewrite !fmap_app. cbn. solve_Permutation.
  - case_decide; [|done]. by apply send_hard_safe.
  - case_decide; [|done]. eapply send_state_safe; [done..|]. unfold state_ids, pend_append. cbn. rewrite !fmap_app. cbn. solve_Permutation.
  - eapply safe_view; [apply close_view|done].
  - unfold worker_round. destruct (ps_workerDone p); [done|]. destruct (take_save p) as [p1|] eqn:E; [|done].
    assert (safe h0 hs p1) as H1 by (eapply safe_view; [apply takes_view; by left|done]). unfold flush_if. case_decide; [|done].
    by destruct (worker_flush_safe _ _ _ H1) as (p2 & -> & H2).
  - unfold worker_round. destruct (ps_workerDone p); [done|]. destruct (take_hard p) as [p1|] eqn:E; [|done].
    assert (safe h0 hs p1) as H1 by (eapply safe_view; [apply takes_view; right; by left|done]). unfold flush_if. case_decide; [|done].
    by destruct (worker_flush_safe _ _ _ H1) as (p2 & -> & H2).
  - unfold worker_round. destruct (ps_workerDone p); [done|]. destruct (take_append p) as [p1|] eqn:E; [|done].
    assert (safe h0 hs p1) as H1 by (eapply safe_view; [apply takes_view; right; by right|done]). unfold flush_if. case_decide; [|done].
    by destruct (worker_flush_safe _ _ _ H1) as (p2 & -> & H2).
  - unfold worker_round. destruct (ps_workerDone p); [done|]. by destruct (worker_flush_safe _ _ _ H) as (p2 & -> & H2).
  - unfold worker_round. destruct (ps_workerDone p); [done|]. destruct (ps_stop p); [|done].
    destruct (worker_flush_safe _ _ _ H) as (p2 & -> & H2). cbn. by eapply safe_view; [apply end_view|].
Qed.
Lemma part_safe h0 hs p p' : flush_part p p' → safe h0 hs p → safe h0 hs p'.
Proof.
  intros [E|[(_ & E)|(_ & _ & E)]] H; [destruct (flush_hard_safe _ _ _ H) as (? & E' & ?)|destruct (flush_save_safe _ _ _ H) as (? & E' & ?)|
    destruct (flush_append_safe _ _ _ H) as (? & E' & ?)]; rewrite E in E'; by simplify_eq.
Qed.
Lemma start_safe d : fp_start (NewFilePersister d) → safe (ReadHardState (NewFilePersister d)) [] (newPersister d).
Proof. intros H. split; [done| |constructor|]. - by exists 0%nat. - intros i. by rewrite elem_of_nil. Qed.
Lemma reaches_safe disc d hs ss p : fp_start (NewFilePersister d) → reaches disc (newPersister d) hs ss p →
  safe (ReadHardState (NewFilePersister d)) hs p.
Proof.
  intros Hd. induction 1 as [|hs ss p ev p' _ IH _ E|hs ss p p' _ IH [Ht|Hf]].
  - by apply start_safe.
  - pose proof (exec_safe _ _ _ ev IH) as H. by rewrite E in H.
  - eapply safe_view; [by apply takes_view|done].
  - by eapply part_safe.
Qed.

(** ** Every request can be answered *)

Definition worker_events : list event := [TakeSave; TakeHard; TakeAppend; Tick].
Definition queued (p : persister) : nat := length (rq_save (ps_queue p)) + length (rq_hard (ps_queue p)) + length (rq_append (ps_queue p)).

Lemma flush_shape p p' : worker_flush p = Some p' →
  ps_queue p' = ps_queue p ∧ ps_batch p' = no_requests ∧ ps_workerDone p' = ps_workerDone p ∧
  length (ps_hardDone p') = length (ps_hardDone p) ∧ length (ps_stateDone p') = length (ps_stateDone p).
Proof.
  assert (∀ e ids ds ds', answer e ids ds = Some ds' → length ds' = length ds) as Hlen.
  { intros e ids. induction ids as [|i ids IH]; intros ds ds' H; cbn in H; [by simplify_eq|]. case_match; [|done]. case_match; [done|].
    apply IH in H. by rewrite H, length_insert. }
  unfold worker_flush, flush_hard, flush_save, flush_append. destruct (answer _ _ (ps_hardDone p)) as [d1|] eqn:E1; [|done]. cbn.
  destruct (answer None _ (ps_stateDone p)) as [d2|] eqn:E2; [|done]. cbn. intros H. case_match. destruct (answer _ _ d2) as [d3|] eqn:E3; [|done].
  injection H as <-. apply Hlen in E1, E2, E3. cbn. split_and!; try done; congruence.
Qed.
Lemma round_takes {A} h0 hs p ev p1 (b : list A) : safe h0 hs p → takes p p1 → exec ev p = proceed (flush_if b p1) → hards_of ev = [] →
  ∃ p', exec ev p = Next p' ∧ safe h0 hs p' ∧ queued p = S (queued p') ∧ ps_workerDone p' = ps_workerDone p ∧
    length (ps_hardDone p') = length (ps_hardDone p) ∧ length (ps_stateDone p') = length (ps_stateDone p).
Proof.
  intros H Ht E Hev. pose proof (exec_safe _ _ _ ev H) as He.
  assert (queued p = S (queued p1) ∧ ps_workerDone p1 = ps_workerDone p ∧ ps_hardDone p1 = ps_hardDone p ∧ ps_stateDone p1 = ps_stateDone p) as (Hq & Hw & Hh & Hs).
  { unfold takes, take_save, take_hard, take_append in Ht. unfold queued. destruct p as [? ? ? [s h a] [s' h' a'] ? ? ? ?]; cbn in *.
    destruct Ht as [Ht|[Ht|Ht]]; [destruct s|destruct h|destruct a]; simplify_eq; cbn; split_and!; try done; lia. }
  rewrite E in *. unfold flush_if in *. case_decide; cbn in *; rewrite Hev, ?app_nil_r in He; [|exists p1; by rewrite Hh, Hs].
  destruct (worker_flush p1) as [p2|] eqn:Ef; [|done]. cbn in *. destruct (flush_shape _ _ Ef) as (F1 & F2 & F3 & F4 & F5).
  exists p2. split_and!; try done; [unfold queued in *; by rewrite F1|by rewrite F3|congruence|congruence].
Qed.
Lemma queue_taken p : queued p ≠ 0%nat → ps_workerDone p = false →
  ∃ ev p1 (n : nat), ev ∈ worker_events ∧ takes p p1 ∧ exec ev p = proceed (flush_if (replicate n ()) p1) ∧ hards_of ev = [].
Proof.
  intros Hq Hw. unfold takes, exec, worker_round, worker_events. rewrite Hw.
  assert (∀ {A} (l : list A) p1, flush_if l p1 = flush_if (replicate (length l) ()) p1) as Hfl by (intros; unfold flush_if; by rewrite length_replicate).
  destruct (take_save p) as [p1|] eqn:E1; [exists TakeSave, p1; rewrite Hfl; eexists; split_and!; [set_solver|by left|done..]|].
  destruct (take_hard p) as [p1|] eqn:E2; [exists TakeHard, p1; rewrite Hfl; eexists; split_and!; [set_solver|by right; left|done..]|].
  destruct (take_append p) as [p1|] eqn:E3; [exists TakeAppend, p1; rewrite Hfl; eexists; split_and!; [set_solver|by right; right|done..]|].
  exfalso. apply Hq. unfold take_save, take_hard, take_append, queued in *. repeat case_match; done.
Qed.
Lemma drain h0 hs n : ∀ p, queued p = n → safe h0 hs p → ps_workerDone p = false →
  ∃ evs p', exec_all evs p = Next p' ∧ Forall (λ ev, ev ∈ worker_events) evs ∧ safe h0 hs p' ∧ pend_hard p' = [] ∧ state_ids p' = [] ∧
    length (ps_hardDone p') = length (ps_hardDone p) ∧ length (ps_stateDone p') = length (ps_stateDone p).
Proof.
  induction n as [|n IH]; intros p Hq H Hw.
  - destruct (worker_flush_safe _ _ _ H) as (p' & E & H'). destruct (flush_shape _ _ E) as (F1 & F2 & F3 & F4 & F5).
    exists [Tick], p'. cbn [exec_all exec]. unfold worker_round. rewrite Hw, E. cbn [proceed].
    unfold queued in Hq. unfold pend_hard, state_ids, pend_save, pend_append. rewrite F1, F2. cbn.
    assert (rq_save (ps_queue p) = [] ∧ rq_hard (ps_queue p) = [] ∧ rq_append (ps_queue p) = []) as (-> & -> & ->) by (split_and!; apply length_zero_iff_nil; lia).
    split_and!; try done. repeat constructor.
  - destruct (queue_taken p) as (ev & p1 & k & Hev & Ht & E & Hh); [lia|done|].
    destruct (round_takes h0 hs p ev p1 _ H Ht E Hh) as (p2 & E2 & H2 & Hq2 & Hw2 & L1 & L2).
    destruct (IH p2) as (evs & p' & E' & Hevs & H' & Hp1 & Hp2 & L1' & L2'); [lia|done|congruence|].
    exists (ev :: evs), p'. cbn [exec_all]. rewrite E2. split_and!; try done; [by constructor|congruence|congruence].
Qed.
Lemma all_answered h0 hs p i : safe h0 hs p → pend_hard p = [] → state_ids p = [] → ps_hardDone p !! i ≠ Some None ∧ ps_stateDone p !! i ≠ Some None.
Proof.
  intros [_ (n & _ & Hd & _) _ Hop] Hh Hs. split.
  - rewrite Hd, Hh. cbn. rewrite app_nil_r. intros Hi. by apply lookup_replicate in Hi as [? _].
  - intros Hi. apply Hop in Hi. rewrite Hs in Hi. by apply elem_of_nil in Hi.
Qed.

(** C34: The persister's worker, under any requests of any clients: it never answers
    twice (a panic); wherever a crash stops it, a restart reads the hard state of
    the last of the first n requests, where n is past every request that has been
    acknowledged; and as long as the worker runs, there is a schedule of its rounds
    that answers every request sent. *)
Theorem hard_state_recovered d hs ss p :
  fp_wf (NewFilePersister d) ∨ fp_fresh (NewFilePersister d) → reaches any_client (newPersister d) hs ss p →
  (∀ ev, exec ev p ≠ Panic) ∧
  (∀ d', crash p d' → ∃ n, (n ≤ length hs)%nat ∧
     ReadHardState (NewFilePersister d') = default (ReadHardState (NewFilePersister d)) (last (take n hs)) ∧
     ∀ i, ps_hardDone p !! i = Some (Some None) → (i < n)%nat) ∧
  (ps_workerDone p = false → ∃ evs p', exec_all evs p = Next p' ∧ Forall (λ ev, ev ∈ worker_events) evs ∧
     length (ps_hardDone p') = length (ps_hardDone p) ∧ length (ps_stateDone p') = length (ps_stateDone p) ∧
     ∀ i, ps_hardDone p' !! i ≠ Some None ∧ ps_stateDone p' !! i ≠ Some None).
Proof.
  intros Hd Hr. pose proof (reaches_safe _ _ _ _ _ Hd Hr) as H. split_and!.
  - intros ev E. pose proof (exec_safe _ _ _ ev H) as He. by rewrite E in He.
  - intros d' Hc. rewrite (crash_keeps_hard p d' (sf_fp _ _ _ H) Hc). destruct (sf_hard _ _ _ H) as (n & _ & Hdn & _ & Hn & Hrd).
    exists n. split_and!; [done|done|]. intros i Hi. rewrite Hdn, lookup_app_Some in Hi. destruct Hi as [[_ Hi]%lookup_replicate|[_ [? _]%lookup_replicate]]; done.
  - intros Hw. destruct (drain _ _ _ p eq_refl H Hw) as (evs & p' & E & Hevs & H' & Hp1 & Hp2 & L1 & L2).
    exists evs, p'. split_and!; try done. intros i. by eapply all_answered.
Qed.

(** Two hard states, of which the first has been written and acknowledged. *)
Definition hard_run : list event := [EvHard [1]; EvHard [2]; TakeHard; Tick; TakeHard].
Lemma hard_state_recovered_witness : ∃ p, exec_all hard_run (newPersister ∅) = Next p ∧
  ∃ n, ReadHardState (NewFilePersister (fp_dir (ps_fp p))) = default [] (last (take n [[1]; [2]])) ∧ (0 < n)%nat.
Proof.
  eexists. split; [vm_compute; reflexivity|].
  match goal with |- ∃ n, ReadHardState (NewFilePersister (fp_dir (ps_fp ?q))) = _ ∧ _ => set (p := q) end.
  assert (reaches any_client (newPersister ∅) ([] ++ (hard_run ≫= hards_of)) ([] ++ (hard_run ≫= states_of)) p) as Hr
    by (eapply keeps_reaches; [constructor|vm_compute; tauto|vm_compute; reflexivity]).
  assert (fp_wf (NewFilePersister ∅) ∨ fp_fresh (NewFilePersister ∅)) as Hd by (right; split_and!; [done..|]; by intros g).
  destruct (hard_state_recovered ∅ _ _ p Hd Hr) as (_ & H & _).
  destruct (H _ (crash_idle p)) as (n & _ & Hn & Ha). exists n. split; [exact Hn|]. apply Ha. by vm_compute.
Defined.
