(* ===== verification/Disk.v ===== *)
(** * Disk: the file system under the persister (src/pkg/persister/file.go)

    The system calls [durableWrite], [syncDir] and [commitAppendRaftState] make,
    on a directory whose entries point to inodes.  Data reaches the platter at
    [File.Sync], directory entries at the [Sync] of the directory; what a crash
    leaves behind is a relation ([crash]): any part of the directory operations
    since the last directory sync, and of every file the synced bytes followed
    by anything no longer than what was written.  Every call can fail. *)
From Stdlib Require Import Ascii.
From stdpp Require Import prelude gmap strings pretty.
From S2P Require Import Prelude Persister.
From stdpp Require Import options.

(** ** The file system *)

Record inode := { i_synced : bytes; i_data : bytes }.

Inductive dirop :=
  | Link (name : string) (i : nat)
  | Unlink (name : string)
  | Rename (old new : string) (i : nat).

Definition apply_op (d : gmap string nat) (o : dirop) : gmap string nat :=
  match o with
  | Link n i => <[n := i]> d
  | Unlink n => delete n d
  | Rename a b i => <[b := i]> (delete a d)
  end.
Definition apply_ops (d : gmap string nat) (os : list dirop) : gmap string nat := foldl apply_op d os.

Record FS := {
  fs_inodes : gmap nat inode;
  fs_durable : gmap string nat;    (* the directory at its last sync *)
  fs_pending : list dirop;         (* the operations on it since *)
  fs_next : nat;
  fs_fsyncCount : nat;             (* FilePersister.fsyncCount *)
}.
Definition fs_dir (s : FS) : gmap string nat := apply_ops (fs_durable s) (fs_pending s).

(** ** A crash *)

Definition inode_crash (f : inode) (c : bytes) : Prop :=
  i_synced f `prefix_of` c ∧ (length c ≤ length (i_data f))%nat.

(** The files [v] are in the directory [d]. *)
Definition shows (s : FS) (d : gmap string nat) (v : gmap string bytes) : Prop :=
  ∀ n, option_Forall2 (λ i c, ∃ f, fs_inodes s !! i = Some f ∧ inode_crash f c) (d !! n) (v !! n).
Definition crash (s : FS) (v : gmap string bytes) : Prop :=
  ∃ os, sublist os (fs_pending s) ∧ shows s (apply_ops (fs_durable s) os) v.
(** A crash that loses no directory operation. *)
Definition crash_all (s : FS) (v : gmap string bytes) : Prop := shows s (fs_dir s) v.

(** What a reader sees without a crash. *)
Definition read_view (s : FS) (n : string) : option bytes := i ← fs_dir s !! n; i_data <$> fs_inodes s !! i.

(** ** System calls: the state after the call and its result *)

Definition with_inode (s : FS) (i : nat) (f : inode) : FS :=
  {| fs_inodes := <[i := f]> (fs_inodes s); fs_durable := fs_durable s; fs_pending := fs_pending s;
     fs_next := fs_next s; fs_fsyncCount := fs_fsyncCount s |}.
Definition with_op (s : FS) (o : dirop) : FS :=
  {| fs_inodes := fs_inodes s; fs_durable := fs_durable s; fs_pending := fs_pending s ++ [o];
     fs_next := fs_next s; fs_fsyncCount := fs_fsyncCount s |}.
Definition new_file (s : FS) (n : string) : FS :=
  let i := fs_next s in
  {| fs_inodes := <[i := {| i_synced := []; i_data := [] |}]> (fs_inodes s); fs_durable := fs_durable s;
     fs_pending := fs_pending s ++ [Link n i]; fs_next := S i; fs_fsyncCount := fs_fsyncCount s |}.

(** [os.OpenFile] with [O_CREATE|O_EXCL]. *)
Definition os_create_excl (fails : bool) (n : string) (s : FS) : FS * option nat :=
  if fails then (s, None) else
  match fs_dir s !! n with Some _ => (s, None) | None => (new_file s n, Some (fs_next s)) end.
(** [os.OpenFile] with [O_CREATE|O_APPEND]. *)
Definition os_open_append (fails : bool) (n : string) (s : FS) : FS * option nat :=
  if fails then (s, None) else
  match fs_dir s !! n with Some i => (s, Some i) | None => (new_file s n, Some (fs_next s)) end.
(** [File.Write] at the end of the file; [Some k]: the write fails after [k] bytes. *)
Definition os_write (fails : option nat) (i : nat) (data : bytes) (s : FS) : FS * bool :=
  let put bs := match fs_inodes s !! i with
                | Some f => with_inode s i {| i_synced := i_synced f; i_data := i_data f ++ bs |}
                | None => s end in
  match fails with Some k => (put (take k data), false) | None => (put data, true) end.
Definition os_fsync (fails : bool) (i : nat) (s : FS) : FS * bool :=
  if fails then (s, false) else
  (match fs_inodes s !! i with
   | Some f => with_inode s i {| i_synced := i_data f; i_data := i_data f |}
   | None => s end, true).
Definition os_close (fails : bool) (s : FS) : FS * bool := (s, negb fails).
Definition os_remove (fails : bool) (n : string) (s : FS) : FS * bool :=
  if fails then (s, false) else
  match fs_dir s !! n with Some _ => (with_op s (Unlink n), true) | None => (s, false) end.
Definition os_rename (fails : bool) (a b : string) (s : FS) : FS * bool :=
  if fails then (s, false) else
  match fs_dir s !! a with Some i => (with_op s (Rename a b i), true) | None => (s, false) end.
Definition os_open_dir (fails : bool) (s : FS) : FS * bool := (s, negb fails).
Definition os_sync_dir (fails : bool) (s : FS) : FS * bool :=
  if fails then (s, false) else
  ({| fs_inodes := fs_inodes s; fs_durable := fs_dir s; fs_pending := [];
      fs_next := fs_next s; fs_fsyncCount := fs_fsyncCount s |}, true).
(** [atomic.AddInt64(&fp.fsyncCount, 1)]. *)
Definition count_fsync (s : FS) : FS * unit :=
  ({| fs_inodes := fs_inodes s; fs_durable := fs_durable s; fs_pending := fs_pending s;
      fs_next := fs_next s; fs_fsyncCount := S (fs_fsyncCount s) |}, ()).

(** ** Programs: the states passed through, the last state, the result *)

Definition prog (A : Type) : Type := FS → list FS * FS * A.
Definition sys {A} (f : FS → FS * A) : prog A := λ s, let '(s', a) := f s in ([s'], s', a).
Definition pret {A} (a : A) : prog A := λ s, ([], s, a).
Definition pbind {A B} (p : prog A) (k : A → prog B) : prog B := λ s,
  let '(t, s1, a) := p s in let '(t', s2, b) := k a s1 in (t ++ t', s2, b).

Declare Scope prog_scope.
Delimit Scope prog_scope with prog.
Notation "x <- p ;; k" := (pbind p (λ x, k)) (at level 100, p at next level, right associativity) : prog_scope.
Notation "p ;; k" := (pbind p (λ _, k)) (at level 100, right associativity) : prog_scope.
Local Open Scope prog_scope.

Definition trace {A} (p : prog A) (s : FS) : list FS := s :: (p s).1.1.
Definition final {A} (p : prog A) (s : FS) : FS := (p s).1.2.
Definition result {A} (p : prog A) (s : FS) : A := (p s).2.

(** ** [syncDir], [durableWrite] *)

Inductive werror :=
  | ErrCreateTemp | ErrWriteTemp | ErrSyncTemp | ErrCloseTemp | ErrRename | ErrSyncDir
  | ErrOpenDelta | ErrAppendDelta | ErrSyncDelta | ErrCloseDelta.

#[global] Instance werror_eq_dec : EqDecision werror.
Proof. solve_decision. Defined.

(** Which calls fail. *)
Record faults := {
  f_create : bool; f_write : option nat; f_sync : bool; f_close : bool; f_remove : bool;
  f_rename : bool; f_opendir : bool; f_syncdir : bool }.
Definition no_faults : faults :=
  {| f_create := false; f_write := None; f_sync := false; f_close := false; f_remove := false;
     f_rename := false; f_opendir := false; f_syncdir := false |}.

Definition syncDir (ft : faults) : prog bool :=
  ok <- sys (os_open_dir (f_opendir ft)) ;;
  if negb ok then pret false else
  ok <- sys (os_sync_dir (f_syncdir ft)) ;;
  if negb ok then pret false else
  sys count_fsync ;; pret true.

(** The temporary name: a dot, the base name, [.tmp.] and the time in nanoseconds. *)
Definition tmpPath (target : string) (now : N) : string := ("." +:+ target +:+ ".tmp." +:+ pretty now)%string.

Definition durableWrite (ft : faults) (now : N) (target : string) (data : bytes) : prog (option werror) :=
  let tmp := tmpPath target now in
  o <- sys (os_create_excl (f_create ft) tmp) ;;
  match o with
  | None => pret (Some ErrCreateTemp)
  | Some i =>
      ok <- sys (os_write (f_write ft) i data) ;;
      if negb ok then
        sys (os_close (f_close ft)) ;; sys (os_remove (f_remove ft) tmp) ;; pret (Some ErrWriteTemp)
      else
      ok <- sys (os_fsync (f_sync ft) i) ;;
      if negb ok then
        sys (os_close (f_close ft)) ;; sys (os_remove (f_remove ft) tmp) ;; pret (Some ErrSyncTemp)
      else
      sys count_fsync ;;
      ok <- sys (os_close (f_close ft)) ;;
      if negb ok then sys (os_remove (f_remove ft) tmp) ;; pret (Some ErrCloseTemp) else
      ok <- sys (os_rename (f_rename ft) tmp target) ;;
      if negb ok then sys (os_remove (f_remove ft) tmp) ;; pret (Some ErrRename) else
      ok <- syncDir ft ;;
      pret (if ok then None else Some ErrSyncDir)
  end.

(** A sequence of durable writes that stops at the first error
    ([commitGeneration] makes three or four). *)
Fixpoint durableWrites (ws : list (faults * N * string * bytes)) : prog (option werror) :=
  match ws with
  | [] => pret None
  | (ft, now, target, data) :: ws =>
      e <- durableWrite ft now target data ;;
      match e with Some e => pret (Some e) | None => durableWrites ws end
  end.

(** The writing part of [commitAppendRaftState]: open, one write per frame,
    sync, close.  [fw] says at which frame the write fails, if any. *)
Fixpoint append_frames (fw : option (nat * nat)) (i : nat) (payloads : list bytes) : prog bool :=
  match payloads with
  | [] => pret true
  | p :: payloads =>
      ok <- sys (os_write (match fw with Some (O, k) => Some k | _ => None end) i (buildAppendFrame p)) ;;
      if negb ok then pret false
      else append_frames (match fw with Some (S n, k) => Some (n, k) | _ => None end) i payloads
  end.

Definition appendDelta (ft : faults) (fw : option (nat * nat)) (delta : string) (payloads : list bytes)
    : prog (option werror) :=
  o <- sys (os_open_append (f_create ft) delta) ;;
  match o with
  | None => pret (Some ErrOpenDelta)
  | Some i =>
      ok <- append_frames fw i payloads ;;
      if negb ok then sys (os_close (f_close ft)) ;; pret (Some ErrAppendDelta) else
      ok <- sys (os_fsync (f_sync ft) i) ;;
      if negb ok then sys (os_close (f_close ft)) ;; pret (Some ErrSyncDelta) else
      sys count_fsync ;;
      ok <- sys (os_close (f_close ft)) ;;
      pret (if ok then None else Some ErrCloseDelta)
  end.

(** ** Names a program other than [durableWrite] looks at *)

Definition is_temp (n : string) : bool := match n with String c _ => bool_decide (c = "."%char) | _ => false end.
(** The files other than temporary ones. *)
Definition vis (v : gmap string bytes) : gmap string bytes := filter (λ kv, is_temp kv.1 = false) v.
