(* ===== verification/DiskProps.v ===== *)
(** * DiskProps: [durableWrite] is atomic and durable

    Whatever calls fail and wherever the machine stops, the target of a
    [durableWrite] has its old or its new content and no other file changes;
    once the call has returned nil the new content is there.  A sequence of
    durable writes therefore leaves a prefix of itself. *)
From Stdlib Require Import Ascii.
From stdpp Require Import prelude gmap strings pretty.
From S2P Require Import Prelude Persister Disk.
From stdpp Require Import options.

(** ** Well-formed disks *)

Definition op_inode (o : dirop) : option nat :=
  match o with Link _ i | Rename _ _ i => Some i | Unlink _ => None end.

Record fs_wf (s : FS) : Prop := {
  wf_fresh : ∀ i, (fs_next s ≤ i)%nat → fs_inodes s !! i = None;
  wf_synced : ∀ i f, fs_inodes s !! i = Some f → i_synced f `prefix_of` i_data f;
  wf_durable : ∀ n i, fs_durable s !! n = Some i → is_Some (fs_inodes s !! i);
  wf_ops : ∀ o i, o ∈ fs_pending s → op_inode o = Some i → is_Some (fs_inodes s !! i) }.

Lemma apply_ops_inode os : ∀ d n i, apply_ops d os !! n = Some i →
  d !! n = Some i ∨ ∃ o, o ∈ os ∧ op_inode o = Some i.
Proof.
  induction os as [|o os IH]; intros d n i H; [by left|].
  destruct (IH _ _ _ H) as [Hd|(o' & ? & ?)]; [|right; exists o'; by rewrite elem_of_cons; auto].
  destruct o as [m j|m|a b j]; cbn [apply_op] in Hd.
  - apply lookup_insert_Some in Hd as [[_ <-]|[_ ?]]; [right; exists (Link m j); set_solver|by left].
  - apply lookup_delete_Some in Hd as [_ ?]. by left.
  - apply lookup_insert_Some in Hd as [[_ <-]|[_ Hd]]; [right; exists (Rename a b j); set_solver|].
    apply lookup_delete_Some in Hd as [_ ?]. by left.
Qed.
Lemma apply_ops_app d os os' : apply_ops d (os ++ os') = apply_ops (apply_ops d os) os'.
Proof. apply foldl_app. Qed.

Lemma dir_inode s os n i : fs_wf s → sublist os (fs_pending s) → apply_ops (fs_durable s) os !! n = Some i →
  is_Some (fs_inodes s !! i).
Proof.
  intros Hwf Hsub [Hd|(o & Ho & Hi)]%apply_ops_inode; [by eapply wf_durable|].
  eapply wf_ops; [done| |exact Hi]. by eapply elem_of_sublist.
Qed.
Lemma inode_old s i : fs_wf s → is_Some (fs_inodes s !! i) → i ≠ fs_next s.
Proof. intros Hwf [f Hf] ->. by rewrite (wf_fresh _ Hwf) in Hf by done. Qed.

Lemma inode_crash_clean bs c : inode_crash {| i_synced := bs; i_data := bs |} c → c = bs.
Proof. intros [[k ->] Hl]. cbn in Hl. rewrite length_app in Hl. destruct k; cbn in Hl; [by rewrite app_nil_r|lia]. Qed.
Lemma inode_crash_data f : i_synced f `prefix_of` i_data f → inode_crash f (i_data f).
Proof. by split. Qed.

Lemma lookup_vis v n : vis v !! n = if is_temp n then None else v !! n.
Proof.
  unfold vis. destruct (is_temp n) eqn:E.
  - apply map_lookup_filter_None. right. intros x _. cbn. by rewrite E.
  - destruct (v !! n) eqn:Hv.
    + by apply map_lookup_filter_Some_2.
    + apply map_lookup_filter_None. by left.
Qed.

(** ** Between two crash views *)

(** [s] is [s0] with at most the file of the next inode added: its inode, and
    directory operations on the temporary name [tmp] and the renaming to
    [target], which comes only when the data is synced. *)
Definition ext_op (s : FS) (i : nat) (tmp target : string) (data : bytes) (o : dirop) : Prop :=
  match o with
  | Link n j => n = tmp ∧ j = i
  | Unlink n => n = tmp
  | Rename a b j => a = tmp ∧ b = target ∧ j = i ∧ fs_inodes s !! i = Some {| i_synced := data; i_data := data |}
  end.

Lemma ext_ops_dir s i tmp target data os : ∀ d, Forall (ext_op s i tmp target data) os →
  (∀ n, n ≠ tmp → apply_ops d os !! n = d !! n) ∨
  (fs_inodes s !! i = Some {| i_synced := data; i_data := data |} ∧
   ∀ n, n ≠ tmp → apply_ops d os !! n = <[target := i]> d !! n).
Proof.
  induction os as [|o os IH] using rev_ind; intros d Hos; [by left|].
  apply Forall_app in Hos as [Hos Ho]. apply Forall_inv in Ho. rewrite apply_ops_app. cbn [apply_ops foldl].
  destruct o as [m j|m|a b j]; cbn [ext_op apply_op] in *.
  - destruct Ho as [-> ->]. destruct (IH d Hos) as [H|[Hf H]]; [left|right; split; [done|]];
      intros n Hn; (rewrite lookup_insert_ne by done); by apply H.
  - subst m. destruct (IH d Hos) as [H|[Hf H]]; [left|right; split; [done|]];
      intros n Hn; (rewrite lookup_delete_ne by done); by apply H.
  - destruct Ho as (-> & -> & -> & Hf). right. split; [done|]. intros n Hn.
    destruct (decide (n = target)) as [->|Hnt]; [by rewrite !lookup_insert_eq|].
    rewrite !lookup_insert_ne, lookup_delete_ne by done.
    destruct (IH d Hos) as [H|[_ H]]; rewrite H by done; [done|by rewrite lookup_insert_ne].
Qed.

(** The view [v] of the directory [d], with other contents where [ok] is false. *)
Definition rebase (s : FS) (ok : string → bool) (v : gmap string bytes) (d : gmap string nat) : gmap string bytes :=
  map_imap (λ n i, if ok n then v !! n else i_data <$> fs_inodes s !! i) d.

Lemma rebase_shows s0 s ok v d d' : fs_wf s0 → (∀ j, is_Some (fs_inodes s0 !! j) → fs_inodes s !! j = fs_inodes s0 !! j) →
  (∀ n i, d !! n = Some i → is_Some (fs_inodes s0 !! i)) → shows s d' v →
  (∀ n, ok n = true → d' !! n = d !! n) → shows s0 d (rebase s0 ok v d).
Proof.
  intros Hwf Hag Hd Hv Hok n. unfold rebase. rewrite map_lookup_imap. destruct (d !! n) as [i|] eqn:Hn; [|constructor].
  destruct (Hd _ _ Hn) as [f Hf]. cbn [mbind option_bind]. destruct (ok n) eqn:Eok.
  - specialize (Hv n). rewrite (Hok n Eok), Hn in Hv. inversion Hv as [? c (f' & Hf' & Hc)|]; subst. constructor. exists f. split; [done|].
    rewrite Hag, Hf in Hf' by eauto. by injection Hf' as ->.
  - rewrite Hf. constructor. exists f. split; [done|]. apply inode_crash_data. by eapply wf_synced.
Qed.
Lemma rebase_vis s ok v d n : ok n = true → is_Some (d !! n) → rebase s ok v d !! n = v !! n.
Proof. intros E [i Hi]. unfold rebase. rewrite map_lookup_imap, Hi. cbn. by rewrite E. Qed.
Lemma rebase_none s ok v d n : d !! n = None → rebase s ok v d !! n = None.
Proof. intros E. unfold rebase. by rewrite map_lookup_imap, E. Qed.

Lemma shows_None s d v n : shows s d v → d !! n = None → v !! n = None.
Proof. intros H E. specialize (H n). rewrite E in H. by inversion H. Qed.

(** A view of a directory that differs from [d] only in temporary names is one of [d]. *)
Lemma view_same s0 s d d' v : fs_wf s0 → (∀ j, is_Some (fs_inodes s0 !! j) → fs_inodes s !! j = fs_inodes s0 !! j) →
  (∀ n i, d !! n = Some i → is_Some (fs_inodes s0 !! i)) → shows s d' v →
  (∀ n, is_temp n = false → d' !! n = d !! n) → ∃ v0, shows s0 d v0 ∧ vis v = vis v0.
Proof.
  intros Hwf Hag Hd Hv H. exists (rebase s0 (λ n, negb (is_temp n)) v d). split.
  { eapply rebase_shows; [done..|]. intros n Hn%negb_true_iff. by apply H. }
  apply map_eq. intros n. rewrite !lookup_vis. destruct (is_temp n) eqn:En; [done|].
  destruct (d !! n) eqn:Hn; [by rewrite rebase_vis by (by rewrite ?En)|].
  rewrite rebase_none by done. eapply shows_None; [done|]. by rewrite H.
Qed.
(** So is one of a directory with one new file, less that file. *)
Lemma view_new s0 s d d' v i target data : fs_wf s0 → is_temp target = false →
  (∀ j, is_Some (fs_inodes s0 !! j) → fs_inodes s !! j = fs_inodes s0 !! j) →
  (∀ n i, d !! n = Some i → is_Some (fs_inodes s0 !! i)) → shows s d' v →
  fs_inodes s !! i = Some {| i_synced := data; i_data := data |} →
  (∀ n, is_temp n = false → d' !! n = <[target := i]> d !! n) →
  ∃ v0, shows s0 d v0 ∧ vis v = <[target := data]> (vis v0).
Proof.
  intros Hwf Htgt Hag Hd Hv Hf H. exists (rebase s0 (λ n, negb (is_temp n) && bool_decide (n ≠ target)) v d). split.
  { eapply rebase_shows; [done..|]. intros n [Hn%negb_true_iff Hne%bool_decide_eq_true]%andb_true_iff.
    rewrite H by done. by rewrite lookup_insert_ne. }
  apply map_eq. intros n. destruct (decide (n = target)) as [->|Hne].
  { rewrite lookup_insert_eq, lookup_vis, Htgt. specialize (Hv target).
    rewrite H, lookup_insert_eq in Hv by done. inversion Hv as [? c (f & Hf' & Hc) Ei Ec|]; subst.
    rewrite Hf in Hf'. injection Hf' as <-. by rewrite (inode_crash_clean _ _ Hc). }
  rewrite lookup_insert_ne by done. rewrite !lookup_vis. destruct (is_temp n) eqn:En; [done|].
  destruct (d !! n) eqn:Hn; [by rewrite rebase_vis by (rewrite ?En, ?bool_decide_eq_true_2; done)|].
  rewrite rebase_none by done. eapply shows_None; [done|]. rewrite H by done. by rewrite lookup_insert_ne.
Qed.

(** A view of [d] followed by operations of the call is a view of [d], with or
    without the new content of the target. *)
Lemma ext_view s0 s i tmp target data d os v : fs_wf s0 → is_temp tmp = true → is_temp target = false →
  (∀ j, is_Some (fs_inodes s0 !! j) → fs_inodes s !! j = fs_inodes s0 !! j) →
  (∀ n i, d !! n = Some i → is_Some (fs_inodes s0 !! i)) →
  Forall (ext_op s i tmp target data) os → shows s (apply_ops d os) v →
  ∃ v0, shows s0 d v0 ∧ (vis v = vis v0 ∨ vis v = <[target := data]> (vis v0)).
Proof.
  intros Hwf Htmp Htgt Hag Hd Hos Hv.
  destruct (ext_ops_dir s i tmp target data os d Hos) as [H|[Hf H]].
  - destruct (view_same s0 s d (apply_ops d os) v) as (v0 & ? & ?); [done..| |eauto]. intros n Hn. apply H. congruence.
  - destruct (view_new s0 s d (apply_ops d os) v i target data) as (v0 & ? & ?); [done..| |eauto]. intros n Hn. apply H. congruence.
Qed.

(** ** The states of one [durableWrite] *)

(** [s0] with a new file and the directory operations [os]. *)
Definition added (s0 : FS) (f : inode) (os : list dirop) (c : nat) : FS :=
  {| fs_inodes := <[fs_next s0 := f]> (fs_inodes s0); fs_durable := fs_durable s0; fs_pending := fs_pending s0 ++ os;
     fs_next := S (fs_next s0); fs_fsyncCount := c |}.
Definition dir_synced (s : FS) (c : nat) : FS :=
  {| fs_inodes := fs_inodes s; fs_durable := fs_dir s; fs_pending := []; fs_next := fs_next s; fs_fsyncCount := c |}.

Section calls.
Context (s0 : FS) (f : inode) (os : list dirop) (c : nat).
Lemma write_added fails data : os_write fails (fs_next s0) data (added s0 f os c) =
  (added s0 {| i_synced := i_synced f; i_data := i_data f ++ match fails with Some k => take k data | None => data end |} os c,
   match fails with Some _ => false | None => true end).
Proof.
  unfold os_write, with_inode, added. cbn.  rewrite lookup_insert_eq. destruct fails; by rewrite insert_insert_eq.
Qed.
Lemma fsync_added fails : os_fsync fails (fs_next s0) (added s0 f os c) =
  (if fails then added s0 f os c else added s0 {| i_synced := i_data f; i_data := i_data f |} os c, negb fails).
Proof.
  unfold os_fsync. destruct fails; [done|]. unfold with_inode, added. cbn.  by rewrite lookup_insert_eq, insert_insert_eq.
Qed.
Lemma count_added : count_fsync (added s0 f os c) = (added s0 f os (S c), ()).
Proof. done. Qed.
Lemma op_added o : with_op (added s0 f os c) o = added s0 f (os ++ [o]) c.
Proof. unfold with_op, added. cbn. by rewrite <-app_assoc. Qed.
End calls.

Lemma dir_added s0 f tmp c : fs_dir (added s0 f [Link tmp (fs_next s0)] c) !! tmp = Some (fs_next s0).
Proof. unfold fs_dir, added. cbn [fs_durable fs_pending]. rewrite apply_ops_app. cbn. apply lookup_insert_eq. Qed.
Lemma remove_added fails s0 f tmp c : os_remove fails tmp (added s0 f [Link tmp (fs_next s0)] c) =
  (added s0 f (if fails then [Link tmp (fs_next s0)] else [Link tmp (fs_next s0); Unlink tmp]) c, negb fails).
Proof. unfold os_remove. destruct fails; [done|]. by rewrite dir_added, op_added. Qed.
Lemma rename_added fails s0 f tmp target c : os_rename fails tmp target (added s0 f [Link tmp (fs_next s0)] c) =
  (added s0 f (if fails then [Link tmp (fs_next s0)] else [Link tmp (fs_next s0); Rename tmp target (fs_next s0)]) c, negb fails).
Proof. unfold os_rename. destruct fails; [done|]. by rewrite dir_added, op_added. Qed.

Definition clean (data : bytes) : inode := {| i_synced := data; i_data := data |}.

(** The states a call passes through. *)
Inductive during (s0 : FS) (tmp target : string) (data : bytes) : FS → Prop :=
  | During_start : during s0 tmp target data s0
  | During_temp f c os : i_synced f `prefix_of` i_data f →
      (os = [Link tmp (fs_next s0)] ∨ os = [Link tmp (fs_next s0); Unlink tmp]) →
      during s0 tmp target data (added s0 f os c)
  | During_renamed c :
      during s0 tmp target data (added s0 (clean data) [Link tmp (fs_next s0); Rename tmp target (fs_next s0)] c)
  | During_synced c c' :
      during s0 tmp target data
        (dir_synced (added s0 (clean data) [Link tmp (fs_next s0); Rename tmp target (fs_next s0)] c) c').
#[local] Hint Constructors during : core.
#[local] Hint Resolve prefix_nil : core.

(** The last state, by the result. *)
Definition ended (s0 : FS) (tmp target : string) (data : bytes) (r : option werror) (s : FS) : Prop :=
  match r with
  | None => ∃ c c', s = dir_synced (added s0 (clean data) [Link tmp (fs_next s0); Rename tmp target (fs_next s0)] c) c'
  | Some ErrSyncDir => ∃ c, s = added s0 (clean data) [Link tmp (fs_next s0); Rename tmp target (fs_next s0)] c
  | Some _ => s = s0 ∨ ∃ f c os, s = added s0 f os c ∧ i_synced f `prefix_of` i_data f ∧
      (os = [Link tmp (fs_next s0)] ∨ os = [Link tmp (fs_next s0); Unlink tmp])
  end.

Lemma create_added fails tmp s0 : os_create_excl fails tmp s0 = (s0, None) ∨
  os_create_excl fails tmp s0 = (added s0 (clean []) [Link tmp (fs_next s0)] (fs_fsyncCount s0), Some (fs_next s0)).
Proof. unfold os_create_excl. destruct fails; [by left|]. destruct (fs_dir s0 !! tmp); [by left|by right]. Qed.

Lemma sync_dir_synced fails s : os_sync_dir fails s = (if fails then s else dir_synced s (fs_fsyncCount s), negb fails).
Proof. by destruct fails. Qed.
Lemma count_synced s c : count_fsync (dir_synced s c) = (dir_synced s (S c), ()).
Proof. done. Qed.

Ltac leaf E := cbn [app] in E; injection E as <- <- <-; cbn [ended];
  split; [repeat (apply Forall_cons_2; [by eauto 6|]); apply Forall_nil_2|by eauto 8].

Lemma durableWrite_steps ft now target data s0 t s r : durableWrite ft now target data s0 = (t, s, r) →
  Forall (during s0 (tmpPath target now) target data) (s0 :: t) ∧ ended s0 (tmpPath target now) target data r s.
Proof.
  unfold durableWrite, syncDir, pbind, sys, pret. set (tmp := tmpPath target now).
  destruct (create_added (f_create ft) tmp s0) as [-> | ->]; [intros E; leaf E|].
  rewrite write_added. cbn [clean i_data i_synced app].
  destruct (f_write ft) as [k|]; cbn [negb os_close].
  { rewrite remove_added. destruct (f_remove ft); intros E; leaf E. }
  rewrite fsync_added. destruct (f_sync ft); cbn [negb os_close].
  { rewrite remove_added. destruct (f_remove ft); intros E; leaf E. }
  rewrite count_added. cbn [i_data i_synced]. destruct (f_close ft); cbn [negb os_close].
  { rewrite remove_added. destruct (f_remove ft); intros E; leaf E. }
  rewrite rename_added. destruct (f_rename ft); cbn [negb].
  { rewrite remove_added. destruct (f_remove ft); intros E; leaf E. }
  destruct (f_opendir ft); cbn [os_open_dir negb]; [intros E; leaf E|].
  rewrite sync_dir_synced. destruct (f_syncdir ft); cbn [negb]; [intros E; leaf E|].
  rewrite count_synced. intros E; leaf E.
Qed.

(** ** What a crash leaves *)

Lemma added_agree s0 f os c j : fs_wf s0 → is_Some (fs_inodes s0 !! j) → fs_inodes (added s0 f os c) !! j = fs_inodes s0 !! j.
Proof. intros Hwf Hj. cbn. rewrite lookup_insert_ne; [done|]. intros E. by apply (inode_old s0 j). Qed.
Lemma added_some s0 f os c j : is_Some (fs_inodes s0 !! j) → is_Some (fs_inodes (added s0 f os c) !! j).
Proof. intros Hj. cbn. destruct (decide (j = fs_next s0)) as [->|]; [by rewrite lookup_insert_eq|by rewrite lookup_insert_ne]. Qed.

Lemma added_wf s0 f os c : fs_wf s0 → i_synced f `prefix_of` i_data f →
  (∀ o i, o ∈ os → op_inode o = Some i → i = fs_next s0) → fs_wf (added s0 f os c).
Proof.
  intros Hwf Hf Hos. split.
  - intros i Hi. cbn in *. rewrite lookup_insert_ne by lia. apply (wf_fresh _ Hwf). lia.
  - intros i g. cbn. intros [[_ <-]|[_ Hg]]%lookup_insert_Some; [done|]. by eapply wf_synced.
  - intros n i Hn. apply added_some. by eapply wf_durable.
  - intros o i [Ho|Ho]%elem_of_app Hi; [apply added_some; by eapply wf_ops|]. rewrite (Hos _ _ Ho Hi). cbn. by rewrite lookup_insert_eq.
Qed.
Lemma dir_synced_wf s c : fs_wf s → fs_wf (dir_synced s c).
Proof.
  intros Hwf. split; cbn; [apply (wf_fresh _ Hwf)|apply (wf_synced _ Hwf)| |by intros o i Ho%elem_of_nil].
  intros n i. by apply dir_inode.
Qed.

Lemma ops_of_call s0 tmp target o i : op_inode o = Some i →
  ∀ os, o ∈ os → (os = [Link tmp (fs_next s0)] ∨ os = [Link tmp (fs_next s0); Unlink tmp] ∨
    os = [Link tmp (fs_next s0); Rename tmp target (fs_next s0)]) → i = fs_next s0.
Proof.
  intros Hi os Ho Hos. destruct Hos as [-> |[-> | ->]];
    repeat (apply elem_of_cons in Ho as [->|Ho]; [by simplify_eq/=|]); by apply elem_of_nil in Ho.
Qed.

Lemma during_wf s0 tmp target data s : fs_wf s0 → during s0 tmp target data s → fs_wf s.
Proof.
  intros Hwf [|f c os Hf Hos|c|c c']; [done| | |apply dir_synced_wf]; apply added_wf; try done; intros o i Ho Hi;
    eapply (ops_of_call s0 tmp target o i Hi); try done; tauto.
Qed.
Lemma ended_wf s0 tmp target data r s : fs_wf s0 → ended s0 tmp target data r s → fs_wf s.
Proof.
  intros Hwf H. apply (during_wf s0 tmp target data); [done|]. destruct r as [[]|]; cbn in H; naive_solver eauto 6.
Qed.

Lemma during_crash s0 tmp target data s v : fs_wf s0 → is_temp tmp = true → is_temp target = false →
  during s0 tmp target data s → crash s v →
  ∃ v0, crash s0 v0 ∧ (vis v = vis v0 ∨ vis v = <[target := data]> (vis v0)).
Proof.
  intros Hwf Htmp Htgt Hd. assert (∀ f os c, Forall (ext_op (added s0 f os c) (fs_next s0) tmp target data) os →
    crash (added s0 f os c) v → ∃ v0, crash s0 v0 ∧ (vis v = vis v0 ∨ vis v = <[target := data]> (vis v0))) as Hadd.
  { intros f os c Hos (ops & Hsub & Hv). apply sublist_app_r in Hsub as (o1 & o2 & -> & H1 & H2). rewrite apply_ops_app in Hv.
    destruct (ext_view s0 (added s0 f os c) (fs_next s0) tmp target data (apply_ops (fs_durable s0) o1) o2 v) as (v0 & ? & ?); try done.
    - intros j Hj. by apply added_agree.
    - intros n i. by apply dir_inode.
    - apply Forall_forall. intros o Ho. eapply Forall_forall; [exact Hos|]. by eapply elem_of_sublist.
    - exists v0. split; [by exists o1|done]. }
  destruct Hd as [|f c os Hf Hos|c|c c'].
  - intros Hv. eauto.
  - apply Hadd. destruct Hos as [-> | ->]; repeat constructor.
  - apply Hadd. repeat constructor. cbn. by rewrite lookup_insert_eq.
  - intros (ops & ->%sublist_nil_r & Hv). cbn [apply_ops foldl] in Hv. apply (Hadd (clean data) [Link tmp (fs_next s0); Rename tmp target (fs_next s0)] c).
    + repeat constructor. cbn. by rewrite lookup_insert_eq.
    + by eexists.
Qed.

Lemma ended_crash s0 tmp target data s v : fs_wf s0 → is_temp tmp = true → is_temp target = false →
  ended s0 tmp target data None s → crash s v → ∃ v0, crash_all s0 v0 ∧ vis v = <[target := data]> (vis v0).
Proof.
  intros Hwf Htmp Htgt (c & c' & ->) (ops & ->%sublist_nil_r & Hv). cbn [apply_ops foldl] in Hv.
  apply (view_new s0 (added s0 (clean data) [Link tmp (fs_next s0); Rename tmp target (fs_next s0)] c) (fs_dir s0) _ v (fs_next s0) target data) in Hv; try done.
  - intros j Hj. by apply added_agree.
  - intros n i. by apply dir_inode.
  - cbn. by rewrite lookup_insert_eq.
  - intros n Hn. cbn [dir_synced fs_durable]. unfold fs_dir, added. cbn [fs_durable fs_pending]. rewrite apply_ops_app. cbn [apply_ops foldl apply_op].
    destruct (decide (n = target)) as [->|]; [by rewrite !lookup_insert_eq|].
    by rewrite !lookup_insert_ne, lookup_delete_ne, lookup_insert_ne by congruence.
Qed.

Lemma is_temp_tmpPath target now : is_temp (tmpPath target now) = true.
Proof. done. Qed.

(** Whatever calls fail, a [durableWrite] to a name that is not temporary is
    atomic: what a crash leaves at any point of it is what a crash before it
    could have left, with the target's content old or new and no other file
    changed.  When it returns nil, every crash finds the new content, and
    every earlier operation on the directory is kept too. *)
Theorem durable_write_atomic ft now target data s0 : fs_wf s0 → is_temp target = false →
  let p := durableWrite ft now target data in
  (∀ s v, s ∈ trace p s0 → crash s v → ∃ v0, crash s0 v0 ∧ (vis v = vis v0 ∨ vis v = <[target := data]> (vis v0))) ∧
  (result p s0 = None → ∀ v, crash (final p s0) v → ∃ v0, crash_all s0 v0 ∧ vis v = <[target := data]> (vis v0)).
Proof.
  intros Hwf Htgt p. unfold trace, result, final. destruct (p s0) as [[t s] r] eqn:E.
  apply durableWrite_steps in E as [Hd He]. cbn [fst snd]. split.
  - intros s' v Hs. rewrite Forall_forall in Hd. eapply during_crash; [done|apply is_temp_tmpPath|done|by apply Hd].
  - intros -> v. by eapply ended_crash; [|apply is_temp_tmpPath|..].
Qed.

(** ** Disks with nothing outstanding but temporary files *)

Definition temp_op (o : dirop) : Prop :=
  match o with Link n _ | Unlink n => is_temp n = true | Rename _ _ _ => False end.
Record settled (s : FS) : Prop := {
  se_wf : fs_wf s;
  se_ops : Forall temp_op (fs_pending s);
  se_clean : ∀ n i f, is_temp n = false → fs_durable s !! n = Some i → fs_inodes s !! i = Some f → i_synced f = i_data f;
  se_inj : ∀ n m i, is_temp n = false → is_temp m = false → fs_durable s !! n = Some i → fs_durable s !! m = Some i → n = m }.

(** The files a reader finds, temporary ones apart. *)
Definition files (s : FS) : gmap string bytes := vis (omap (λ i, i_data <$> fs_inodes s !! i) (fs_dir s)).

Lemma temp_ops_dir os n : ∀ d, Forall temp_op os → is_temp n = false → apply_ops d os !! n = d !! n.
Proof.
  induction os as [|o os IH]; intros d Hos Hn; [done|]. apply Forall_cons in Hos as [Ho Hos]. cbn [apply_ops foldl].
  change (apply_ops (apply_op d o) os !! n = d !! n). rewrite IH by done.
  destruct o as [m j|m|]; cbn in *; [rewrite lookup_insert_ne by congruence|rewrite lookup_delete_ne by congruence|]; done.
Qed.
Lemma settled_dir s os n : settled s → sublist os (fs_pending s) → is_temp n = false →
  apply_ops (fs_durable s) os !! n = fs_durable s !! n.
Proof.
  intros Hs Hsub Hn. apply temp_ops_dir; [|done]. apply Forall_forall. intros o Ho.
  eapply Forall_forall; [apply (se_ops _ Hs)|]. by eapply elem_of_sublist.
Qed.
Lemma lookup_files s n : settled s → files s !! n =
  if is_temp n then None else i ← fs_durable s !! n; i_data <$> fs_inodes s !! i.
Proof.
  intros Hs. unfold files. rewrite lookup_vis. destruct (is_temp n) eqn:En; [done|].
  rewrite lookup_omap. unfold fs_dir. by rewrite (settled_dir s _ n Hs) by done.
Qed.

Lemma settled_crash s v : settled s → crash s v → vis v = files s.
Proof.
  intros Hs (os & Hsub & Hv). apply map_eq. intros n. rewrite lookup_files, lookup_vis by done.
  destruct (is_temp n) eqn:En; [done|]. specialize (Hv n). rewrite (settled_dir s os n Hs Hsub En) in Hv.
  destruct (fs_durable s !! n) as [i|] eqn:Hi; inversion Hv as [? c (f & Hf & Hc)|]; subst; [|done].
  cbn [mbind option_bind]. rewrite Hf. cbn. f_equal. destruct f as [sy da]. pose proof (se_clean _ Hs n i _ En Hi Hf) as E.
  cbn in E. subst sy. by apply inode_crash_clean.
Qed.
Lemma some_crash s : fs_wf s → ∃ v, crash_all s v.
Proof.
  intros Hwf. exists (rebase s (λ _, false) ∅ (fs_dir s)). intros n. unfold rebase. rewrite map_lookup_imap.
  destruct (fs_dir s !! n) as [i|] eqn:Hi; [|constructor]. cbn.
  destruct (dir_inode s (fs_pending s) n i Hwf (reflexivity _) Hi) as [f Hf]. rewrite Hf. constructor. exists f. split; [done|].
  apply inode_crash_data. by eapply wf_synced.
Qed.
Lemma crash_all_crash s v : crash_all s v → crash s v.
Proof. intros H. by exists (fs_pending s). Qed.

Lemma renamed_dir s0 tmp target data c n i : settled s0 → is_temp tmp = true → is_temp n = false →
  fs_dir (added s0 (clean data) [Link tmp (fs_next s0); Rename tmp target (fs_next s0)] c) !! n = Some i →
  (n = target ∧ i = fs_next s0) ∨ (n ≠ target ∧ fs_durable s0 !! n = Some i ∧ is_Some (fs_inodes s0 !! i)).
Proof.
  intros Hs Htmp Hn. unfold fs_dir. cbn [added fs_durable fs_pending]. rewrite apply_ops_app. cbn [apply_ops foldl apply_op].
  intros [[-> <-]|[Hne [_ [[-> _]|[_ Hi]]%lookup_insert_Some]%lookup_delete_Some]]%lookup_insert_Some; [by left|congruence|right].
  split_and!; [done|by rewrite <-(settled_dir s0 (fs_pending s0) n Hs)|by eapply (dir_inode _ _ _ _ (se_wf _ Hs))].
Qed.
Lemma settled_renamed s0 tmp target data c c' : settled s0 → is_temp tmp = true →
  let s := dir_synced (added s0 (clean data) [Link tmp (fs_next s0); Rename tmp target (fs_next s0)] c) c' in
  fs_wf s → settled s.
Proof.
  intros Hs Htmp s Hwf. split; [done|constructor| |].
  - intros n i g Hn Hi Hg. unfold s in *. cbn [dir_synced fs_durable fs_inodes] in *.
    apply renamed_dir in Hi as [[-> ->]|(Hne & Hi & Hj)]; [| |done..].
    + cbn in Hg. rewrite lookup_insert_eq in Hg. by injection Hg as <-.
    + rewrite added_agree in Hg; [by eapply (se_clean _ Hs)|apply Hs|done].
  - intros n m i Hn Hm Hi Hj. unfold s in *. cbn [dir_synced fs_durable] in *.
    apply renamed_dir in Hi as Hi'; [|done..]. apply renamed_dir in Hj as Hj'; [|done..].
    destruct Hi' as [[-> Ei]|(_ & Hi' & Hsi)], Hj' as [[-> Ej]|(_ & Hj' & Hsj)]; [done| | |by eapply (se_inj _ Hs)];
      exfalso; by apply (inode_old s0 i (se_wf _ Hs)).
Qed.

(** A call's result tells what is on the disk. *)
Lemma settled_write s0 tmp target data r s : settled s0 → is_temp tmp = true → is_temp target = false →
  ended s0 tmp target data r s →
  match r with
  | None => settled s ∧ files s = <[target := data]> (files s0)
  | Some ErrSyncDir => fs_wf s
  | Some _ => settled s ∧ files s = files s0
  end.
Proof.
  intros Hs Htmp Htgt He. pose proof (ended_wf _ _ _ _ _ _ (se_wf _ Hs) He) as Hwf. destruct r as [e|].
  - assert (e ≠ ErrSyncDir → s = s0 ∨ ∃ f c os, s = added s0 f os c ∧ Forall temp_op os) as H.
    { intros Hne. destruct e; try done; cbn in He; destruct He as [->|(f & c & os & -> & _ & [-> | ->])]; eauto;
        right; exists f, c; eexists; (split; [done|]); by repeat constructor. }
    destruct (decide (e = ErrSyncDir)) as [->|Hne]; [done|].
    assert (settled s ∧ files s = files s0); [|by destruct e].
    destruct (H Hne) as [->|(f & c & os & -> & Hos)]; [done|].
    assert (settled (added s0 f os c)) as Hs'.
    { split; [done|apply Forall_app; split; [apply (se_ops _ Hs)|done]| |apply (se_inj _ Hs)]. intros n i g Hn Hi Hg. eapply (se_clean _ Hs); [done..|].
      rewrite added_agree in Hg; [done|apply Hs|]. by eapply (wf_durable _ (se_wf _ Hs)). }
    split; [done|]. apply map_eq. intros n. rewrite !lookup_files by done. destruct (is_temp n); [done|].
    cbn [added fs_durable]. destruct (fs_durable s0 !! n) as [i|] eqn:Hi; [|done]. cbn [mbind option_bind].
    f_equal. apply (added_agree s0 f os c); [apply Hs|]. by eapply (wf_durable _ (se_wf _ Hs)).
  - assert (settled s) as Hs'.
    { destruct He as (c & c' & ->). by apply settled_renamed. }
    split; [done|]. destruct (some_crash s (se_wf _ Hs')) as [v Hv%crash_all_crash].
    destruct (ended_crash s0 tmp target data s v (se_wf _ Hs)) as (v0 & Hv0%crash_all_crash & E); [done..|].
    by rewrite <-(settled_crash s v), <-(settled_crash s0 v0).
Qed.

(** ** Sequences *)

Abbreviation write := (faults * N * string * bytes)%type (only parsing).
Definition write_all (ws : list write) (v : gmap string bytes) : gmap string bytes :=
  foldl (λ v w, let '(_, _, target, data) := w in <[target := data]> v) v ws.

Lemma durableWrites_prefix ws : ∀ s0 t s r, settled s0 → Forall (λ w : write, is_temp w.1.2 = false) ws →
  durableWrites ws s0 = (t, s, r) →
  (∀ s' v, s' ∈ s0 :: t → crash s' v → ∃ k, vis v = write_all (take k ws) (files s0)) ∧
  (r = None → settled s ∧ files s = write_all ws (files s0)).
Proof.
  induction ws as [|[[[ft now] target] data] ws IH]; intros s0 t s r Hs Hws.
  { intros [= <- <- <-]. split; [|done]. intros s' v ->%list_elem_of_singleton Hv. exists 0%nat. by apply settled_crash. }
  apply Forall_cons in Hws as [Htgt Hws]. cbn in Htgt. cbn [durableWrites]. unfold pbind.
  destruct (durableWrite ft now target data s0) as [[t1 s1] r1] eqn:E1.
  apply durableWrite_steps in E1 as [Hd He]. rewrite Forall_forall in Hd.
  assert (∀ s' v, s' ∈ s0 :: t1 → crash s' v → ∃ k, vis v = write_all (take k ((ft, now, target, data) :: ws)) (files s0)) as H1.
  { intros s' v Hs' Hv. destruct (during_crash s0 (tmpPath target now) target data s' v) as (v0 & Hv0 & H); [apply Hs|done|done|by apply Hd|done|].
    rewrite (settled_crash s0 v0 Hs Hv0) in H. destruct H as [-> | ->]; [by exists 0%nat|by exists 1%nat]. }
  pose proof (settled_write _ _ _ _ _ _ Hs (is_temp_tmpPath target now) Htgt He) as Hr.
  destruct r1 as [e|]; [intros [= <- <- <-]; rewrite app_nil_r; by split|].
  destruct Hr as [Hs1 Hf1]. destruct (durableWrites ws s1) as [[t2 s2] r2] eqn:E2. intros [= <- <- <-].
  destruct (IH _ _ _ _ Hs1 Hws E2) as [IH1 IH2]. split.
  - intros s' v H Hv. change (s' ∈ (s0 :: t1) ++ t2) in H. apply elem_of_app in H as [H|H]; [by eapply H1|].
    destruct (IH1 s' v) as [k Hk]; [by right|done|]. exists (S k). rewrite Hk, Hf1. done.
  - intros Hn. destruct (IH2 Hn) as [H2 H3]. split; [done|]. rewrite H3, Hf1. done.
Qed.

(** ** Appending *)

(** [s0] after bytes were appended to the file of inode [i], synced or not. *)
Definition grown (s0 : FS) (i : nat) (f : inode) (c : nat) : FS :=
  {| fs_inodes := <[i := f]> (fs_inodes s0); fs_durable := fs_durable s0; fs_pending := fs_pending s0;
     fs_next := fs_next s0; fs_fsyncCount := c |}.

Section append.
Context (s0 : FS) (n : string) (i : nat) (old : bytes).
Hypothesis Hs : settled s0.
Hypothesis Hn : is_temp n = false.
Hypothesis Hi : fs_durable s0 !! n = Some i.
Hypothesis Hold : fs_inodes s0 !! i = Some (clean old).

Lemma grown_same : s0 = grown s0 i (clean old) (fs_fsyncCount s0).
Proof using Hold. unfold grown. rewrite insert_id by done. by case s0. Qed.
Lemma write_grown f c fails data : os_write fails i data (grown s0 i f c) =
  (grown s0 i {| i_synced := i_synced f; i_data := i_data f ++ match fails with Some k => take k data | None => data end |} c,
   match fails with Some _ => false | None => true end).
Proof. unfold os_write, with_inode, grown. cbn. rewrite lookup_insert_eq. destruct fails; by rewrite insert_insert_eq. Qed.
Lemma fsync_grown f c fails : os_fsync fails i (grown s0 i f c) =
  (if fails then grown s0 i f c else grown s0 i (clean (i_data f)) c, negb fails).
Proof. unfold os_fsync. destruct fails; [done|]. unfold with_inode, grown. cbn. by rewrite lookup_insert_eq, insert_insert_eq. Qed.

Lemma grown_files_ne f c m : m ≠ n → is_temp m = false →
  (j ← fs_durable (grown s0 i f c) !! m; i_data <$> fs_inodes (grown s0 i f c) !! j) = files s0 !! m.
Proof using Hs Hn Hi Hold.
  intros Hm Ht. rewrite lookup_files, Ht by done. cbn. destruct (fs_durable s0 !! m) as [j|] eqn:Hj; [|done]. cbn.
  rewrite lookup_insert_ne; [done|]. intros ->. apply Hm. by eapply (se_inj _ Hs).
Qed.

(** The bytes after the synced ones are anyone's guess, the other files are
    as they were. *)
Lemma grown_crash f c v : i_synced f = old → crash (grown s0 i f c) v →
  ∃ junk, (length old + length junk ≤ length (i_data f))%nat ∧ vis v = <[n := old ++ junk]> (files s0).
Proof using Hs Hn Hi Hold.
  intros Hf (os & Hsub & Hv). cbn [grown fs_pending fs_durable] in *.
  pose proof (Hv n) as Hvn. rewrite (settled_dir s0 os n Hs Hsub Hn), Hi in Hvn.
  inversion Hvn as [? c0 (g & Hg & [[junk ->] Hl]) Ei Ec|]; subst. cbn in Hg. rewrite lookup_insert_eq in Hg. injection Hg as <-.
  exists junk. rewrite length_app in Hl. split; [done|]. apply map_eq. intros m. rewrite lookup_vis.
  destruct (decide (m = n)) as [->|Hm]; [by rewrite Hn, lookup_insert_eq|]. rewrite lookup_insert_ne by done.
  destruct (is_temp m) eqn:Em; [by rewrite lookup_files, Em by done|]. rewrite lookup_files, Em by done.
  specialize (Hv m). rewrite (settled_dir s0 os m Hs Hsub Em) in Hv.
  destruct (fs_durable s0 !! m) as [j|] eqn:Hj; inversion Hv as [? cm (g & Hg & Hc)|]; subst; [|done].
  cbn in Hg. rewrite lookup_insert_ne in Hg by (intros ->; apply Hm; by eapply (se_inj _ Hs)). cbn. rewrite Hg. cbn. f_equal.
  destruct g as [sy da]. pose proof (se_clean _ Hs m j _ Em Hj Hg) as E. cbn in E. subst sy. by apply inode_crash_clean.
Qed.

Lemma grown_settled data c : settled (grown s0 i (clean data) c) ∧ files (grown s0 i (clean data) c) = <[n := data]> (files s0).
Proof using Hs Hn Hi Hold.
  assert (settled (grown s0 i (clean data) c)) as Hs'.
  { destruct Hs as [[W1 W2 W3 W4] H2 H3 H4]. assert (∀ j, is_Some (fs_inodes s0 !! j) → is_Some (<[i := clean data]> (fs_inodes s0) !! j)) as Hex.
    { intros j Hj. destruct (decide (j = i)) as [->|]; [by rewrite lookup_insert_eq|by rewrite lookup_insert_ne]. }
    split; [split|..]; cbn; try done; [| | | |].
    - intros j Hj. rewrite lookup_insert_ne; [by apply W1|]. intros <-. by rewrite W1 in Hold.
    - intros j f [[_ <-]|[_ Hf]]%lookup_insert_Some; [done|by eapply W2].
    - intros m j Hj. apply Hex. by eapply W3.
    - intros o j Ho Hj. apply Hex. by eapply W4.
    - intros m j f Hm Hj [[_ <-]|[_ Hf]]%lookup_insert_Some; [done|by eapply H3]. }
  split; [done|]. apply map_eq. intros m. destruct (decide (m = n)) as [->|Hm].
  - rewrite lookup_insert_eq, lookup_files, Hn by done. cbn. rewrite Hi. cbn. by rewrite lookup_insert_eq.
  - rewrite lookup_insert_ne, lookup_files by done. destruct (is_temp m) eqn:Em; [by rewrite lookup_files, Em|].
    by apply grown_files_ne.
Qed.

(** [limit] bytes at most, the old ones synced. *)
Definition growing (limit : nat) (s : FS) : Prop :=
  ∃ f c, s = grown s0 i f c ∧ i_synced f = old ∧ (length (i_data f) ≤ limit)%nat.

Lemma append_frames_steps ps : ∀ fw f c t s r, append_frames fw i ps (grown s0 i f c) = (t, s, r) → i_synced f = old →
  Forall (growing (length (i_data f) + length (frames ps))) (s :: t) ∧
  (r = true → s = grown s0 i {| i_synced := old; i_data := i_data f ++ frames ps |} c).
Proof.
  induction ps as [|p ps IH]; intros fw f c t s r E Hf.
  { injection E as <- <- <-. change (frames []) with (@nil Z). rewrite app_nil_r. split; [|by destruct f; cbn in Hf; subst].
    repeat constructor. exists f, c. cbn. split_and!; [done|done|lia]. }
  assert (frames (p :: ps) = buildAppendFrame p ++ frames ps) as Hfr by done. cbn [append_frames] in E. unfold pbind, sys in E.
  rewrite write_grown in E. destruct (match fw with Some (0%nat, k) => Some k | _ => None end) as [k|] eqn:Ek; cbn [negb] in E.
  { injection E as <- <- <-. split; [|done]. assert (growing (length (i_data f) + length (frames (p :: ps)))
      (grown s0 i {| i_synced := i_synced f; i_data := i_data f ++ take k (buildAppendFrame p) |} c)); [|by repeat constructor].
    do 2 eexists. split_and!; [done|done|]. cbn [i_data]. rewrite Hfr, !length_app, length_take. lia. }
  destruct (append_frames _ _ _ _) as [[t2 s2] r2] eqn:E2. injection E as <- <- <-.
  apply IH in E2 as [H1 H2]; [|done]. cbn [i_data i_synced] in *. rewrite Hfr, app_assoc.
  assert (length (i_data f ++ buildAppendFrame p) + length (frames ps) = length (i_data f) + length (buildAppendFrame p ++ frames ps))%nat as El
    by (rewrite !length_app; lia).
  rewrite El in H1. split; [|done]. apply Forall_cons in H1 as [H1 H1']. apply Forall_cons_2; [done|]. apply Forall_cons_2; [|done].
  do 2 eexists. split_and!; [done|done|]. cbn [i_data]. rewrite length_app, <-El, length_app. lia.
Qed.

Lemma appendDelta_steps ft fw ps t s r : appendDelta ft fw n ps s0 = (t, s, r) →
  Forall (λ s', growing (length old + length (frames ps)) s' ∨ ∃ c, s' = grown s0 i (clean (old ++ frames ps)) c) (s0 :: t) ∧
  (r = None → ∃ c, s = grown s0 i (clean (old ++ frames ps)) c).
Proof using Hs Hn Hi Hold.
  assert (growing (length old + length (frames ps)) s0) as H0.
  { exists (clean old), (fs_fsyncCount s0). split_and!; [by apply grown_same|done|cbn; lia]. }
  assert (fs_dir s0 !! n = Some i) as Hdir by (unfold fs_dir; by rewrite (settled_dir s0 _ n Hs)).
  unfold appendDelta, pbind, sys, pret, os_open_append. rewrite Hdir.
  destruct (f_create ft); [intros [= <- <- <-]; by repeat constructor; auto|].
  rewrite grown_same at 1. destruct (append_frames _ _ _ _) as [[t1 s1] r1] eqn:E1.
  apply append_frames_steps in E1 as [H1 H2]; [|done]. apply Forall_cons in H1 as [Hs1 H1]. cbn [clean i_data] in *.
  destruct r1; cbn [negb os_close].
  - rewrite (H2 eq_refl) in *. rewrite fsync_grown. destruct (f_sync ft); cbn [negb].
    + intros [= <- <- <-]. split; [|done]. repeat (apply Forall_cons_2 || apply Forall_app_2 || apply Forall_nil_2); auto.
      eapply Forall_impl; [exact H1|auto].
    + intros [= <- <- <-]. split; [|intros _; by eexists].
      repeat (apply Forall_cons_2 || apply Forall_app_2 || apply Forall_nil_2); auto; try (right; by eexists).
      eapply Forall_impl; [exact H1|auto].
  - intros [= <- <- <-]. split; [|done]. repeat (apply Forall_cons_2 || apply Forall_app_2 || apply Forall_nil_2); auto.
    eapply Forall_impl; [exact H1|auto].
Qed.
End append.

(** An append to a delta file that a directory sync has made durable keeps
    the old bytes and every other file: a crash at any point of it leaves the
    old bytes followed by at most as many bytes as were to be appended.
    When it returns nil all the frames are on the disk. *)
Lemma append_on_disk ft fw n ps s0 old : settled s0 → is_temp n = false → files s0 !! n = Some old →
  let p := appendDelta ft fw n ps in
  (∀ s v, s ∈ trace p s0 → crash s v → ∃ junk, (length junk ≤ length (frames ps))%nat ∧ vis v = <[n := old ++ junk]> (files s0)) ∧
  (result p s0 = None → settled (final p s0) ∧ files (final p s0) = <[n := old ++ frames ps]> (files s0)).
Proof.
  intros Hs Hn Hold p. rewrite lookup_files, Hn in Hold by done. apply bind_Some in Hold as (i & Hi & Hold).
  apply fmap_Some in Hold as ([sy da] & Hf & ->). pose proof (se_clean _ Hs _ _ _ Hn Hi Hf) as E. cbn in E. subst sy.
  unfold trace, result, final. destruct (p s0) as [[t s] r] eqn:Ep. cbn [fst snd i_data].
  apply (appendDelta_steps s0 n i da Hs Hn Hi Hf) in Ep as [H1 H2]. split.
  - intros s' v Hs' Hv. rewrite Forall_forall in H1. destruct (H1 s' Hs') as [(f & c & -> & Hfs & Hl)|[c ->]].
    + destruct (grown_crash s0 n i da Hs Hn Hi Hf f c v Hfs Hv) as (junk & Hj & ->). exists junk. split; [lia|done].
    + exists (frames ps). split; [done|]. destruct (grown_settled s0 n i da Hs Hn Hi Hf (da ++ frames ps) c) as [Hg <-].
      by apply settled_crash.
  - intros ->. destruct H2 as [c ->]; [done|]. by apply (grown_settled s0 n i da).
Qed.

(** ** Witnesses *)

Definition empty_disk : FS :=
  {| fs_inodes := ∅; fs_durable := ∅; fs_pending := []; fs_next := 0; fs_fsyncCount := 0 |}.
Lemma empty_settled : settled empty_disk.
Proof. split; [split|..]; cbn; try done. - by intros o i Ho%elem_of_nil. Qed.

(** An append that has to create its delta file returns nil although the
    directory is not synced: a crash can lose the file with the data in it. *)
Theorem created_delta_lost : let p := appendDelta no_faults None "raft-state.delta.00000000000000000001.wal" [[1%Z]] in
  result p empty_disk = None ∧ crash (final p empty_disk) ∅.
Proof.
  split; [by vm_compute|]. exists []. split; [apply sublist_nil_l|]. intros n. change (option_Forall2 (λ i c, ∃ f,
    fs_inodes (final (appendDelta no_faults None "raft-state.delta.00000000000000000001.wal" [[1%Z]]) empty_disk) !! i = Some f ∧ inode_crash f c)
    ((∅ : gmap string nat) !! n) ((∅ : gmap string bytes) !! n)). rewrite !lookup_empty. constructor.
Qed.
