(* ===== verification/PersisterFiles.v ===== *)
(** * PersisterFiles: the persister's files by name and byte
      (src/pkg/persister/file.go)

    [Persister] names files by constructors and keeps the manifest as a record.
    Here are the names as strings ([%020d]), [parseGeneration], the scan of
    [discoverLatestCompleteGeneration] over directory entries, the JSON of the
    manifest and [loadManifest] over the bytes of the files, and the proof that
    they do what [Persister] says. *)
From Stdlib Require Import Ascii.
From stdpp Require Import prelude gmap strings pretty.
From S2P Require Import Prelude Json JsonText Persister PersisterProps Disk.
From stdpp Require Import options.

(** ** Names *)

(** [fmt.Sprintf("%020d", gen)] *)
Definition zeros (n : nat) : string := Nat.iter n (String "0") "".
Definition pad20 (gen : N) : string := zeros (20 - String.length (pretty gen)) +:+ pretty gen.

Definition file_name (f : fname) : string :=
  match f with
  | RaftStateBin => "raft-state.bin"
  | HardStateBin => "hard-state.bin"
  | SnapshotBin => "snapshot.bin"
  | ManifestJson => "manifest.json"
  | RaftStateGen gen => "raft-state." +:+ pad20 gen +:+ ".bin"
  | DeltaGen gen => "raft-state.delta." +:+ pad20 gen +:+ ".wal"
  | SnapGen gen => "snapshot." +:+ pad20 gen +:+ ".bin"
  end.

(** [strconv.ParseUint(s, 10, 64)] *)
Definition ParseUint (s : string) : option N :=
  if bool_decide (s = "") then None
  else n ← parse_digits 0 s; if bool_decide (n < 2^64)%N then Some n else None.

Definition parseGeneration (name prefix suffix : string) : option N :=
  if negb (has_prefix prefix name) || negb (has_suffix suffix name) then None
  else ParseUint (TrimSuffix suffix (TrimPrefix prefix name)).

(** ** The scan *)

Record gens := { raftByGen : gmap N string; deltaByGen : gmap N string; snapByGen : gmap N string }.

(** One directory entry: its name and whether it is a directory. *)
Definition scan_entry (g : gens) (e : string * bool) : gens :=
  let '(name, isDir) := e in
  if isDir then g
  else if has_prefix "raft-state." name && has_suffix ".bin" name then
    match parseGeneration name "raft-state." ".bin" with
    | Some gen => {| raftByGen := <[gen := name]> (raftByGen g); deltaByGen := deltaByGen g; snapByGen := snapByGen g |}
    | None => g
    end
  else if has_prefix "raft-state.delta." name && has_suffix ".wal" name then
    match parseGeneration name "raft-state.delta." ".wal" with
    | Some gen => {| raftByGen := raftByGen g; deltaByGen := <[gen := name]> (deltaByGen g); snapByGen := snapByGen g |}
    | None => g
    end
  else if has_prefix "snapshot." name && has_suffix ".bin" name then
    match parseGeneration name "snapshot." ".bin" with
    | Some gen => {| raftByGen := raftByGen g; deltaByGen := deltaByGen g; snapByGen := <[gen := name]> (snapByGen g) |}
    | None => g
    end
  else g.

Record manifestFile := {
  mf_Generation : N;
  mf_RaftStateRel : string;
  mf_RaftDeltaRel : string;
  mf_SnapshotRel : string;
  mf_UpdatedAt : Z;
}.
Definition empty_mf : manifestFile :=
  {| mf_Generation := 0; mf_RaftStateRel := ""; mf_RaftDeltaRel := ""; mf_SnapshotRel := ""; mf_UpdatedAt := 0 |}.

(** The highest generation with both files; a Go map is walked in no particular
    order, which a maximum does not see. *)
Definition best_generation (g : gens) : N :=
  foldr (λ gen best, match snapByGen g !! gen with
                     | None => best
                     | Some _ => if bool_decide (best < gen)%N then gen else best
                     end) 0%N (map_to_list (raftByGen g)).*1.

Definition discover (now : Z) (entries : option (list (string * bool))) : manifestFile :=
  match entries with
  | None => empty_mf
  | Some es =>
      let g := foldl scan_entry {| raftByGen := ∅; deltaByGen := ∅; snapByGen := ∅ |} es in
      let best := best_generation g in
      if bool_decide (best = 0)%N then empty_mf else
      let deltaRel := default "" (deltaByGen g !! best) in
      {| mf_Generation := best;
         mf_RaftStateRel := default "" (raftByGen g !! best);
         mf_RaftDeltaRel := if bool_decide (deltaRel = "") then file_name (DeltaGen best) else deltaRel;
         mf_SnapshotRel := default "" (snapByGen g !! best);
         mf_UpdatedAt := now |}
  end.

(** ** The manifest as JSON *)

Definition manifest_json (m : manifestFile) : json :=
  JObj ([("generation", JNum (Z.of_N (mf_Generation m))); ("raft_state_rel", JStr (mf_RaftStateRel m))] ++
        omit_if (bool_decide (mf_RaftDeltaRel m = "")) "raft_delta_rel" (JStr (mf_RaftDeltaRel m)) ++
        [("snapshot_rel", JStr (mf_SnapshotRel m)); ("updated_at", JNum (mf_UpdatedAt m))]).

Definition text_bytes (t : list ascii) : bytes := (λ c, Z.of_N (N_of_ascii c)) <$> t.
Definition bytes_text (bs : bytes) : list ascii := (λ z, ascii_of_N (Z.to_N z)) <$> bs.

Definition marshal_manifest (m : manifestFile) : bytes := text_bytes (print_json (manifest_json m)).
Definition unmarshal_manifest (bs : bytes) : option manifestFile :=
  j ← parse_json (bytes_text bs);
  ms ← as_struct j;
  gen ← as_uint64 (jfield "generation" ms);
  rs ← as_string (jfield "raft_state_rel" ms);
  dl ← as_string (jfield "raft_delta_rel" ms);
  sn ← as_string (jfield "snapshot_rel" ms);
  up ← as_int64 (jfield "updated_at" ms);
  Some {| mf_Generation := Z.to_N gen; mf_RaftStateRel := rs; mf_RaftDeltaRel := dl;
          mf_SnapshotRel := sn; mf_UpdatedAt := up |}.

(** ** [loadManifest] over the files *)

(** The directory's entries: its files in some order, and the directories in it
    (the persister makes one, [.tmp]). *)
Definition entries (v : gmap string bytes) : list (string * bool) :=
  ((λ n, (n, false)) <$> (map_to_list v).*1) ++ [(".tmp", true)].

(** A durable write of [loadManifest] itself is taken to succeed. *)
Definition load (now : Z) (v : gmap string bytes) : manifestFile * gmap string bytes :=
  match v !! "manifest.json" with
  | None =>
      let m := discover now (Some (entries v)) in
      (if bool_decide (0 < mf_Generation m)%N && bool_decide (mf_RaftDeltaRel m = "")
       then {| mf_Generation := mf_Generation m; mf_RaftStateRel := mf_RaftStateRel m;
               mf_RaftDeltaRel := file_name (DeltaGen (mf_Generation m));
               mf_SnapshotRel := mf_SnapshotRel m; mf_UpdatedAt := mf_UpdatedAt m |}
       else m, v)
  | Some raw =>
      match unmarshal_manifest raw with
      | None => (discover now (Some (entries v)), v)
      | Some m =>
          if bool_decide (mf_RaftStateRel m = "") || bool_decide (mf_SnapshotRel m = "")
          then (discover now (Some (entries v)), v) else
          let dl := if bool_decide (mf_RaftDeltaRel m = "") then file_name (DeltaGen (mf_Generation m))
                    else mf_RaftDeltaRel m in
          let m := {| mf_Generation := mf_Generation m; mf_RaftStateRel := mf_RaftStateRel m; mf_RaftDeltaRel := dl;
                      mf_SnapshotRel := mf_SnapshotRel m; mf_UpdatedAt := mf_UpdatedAt m |} in
          match v !! mf_RaftStateRel m, v !! mf_SnapshotRel m with
          | Some _, Some _ => (m, match v !! dl with Some _ => v | None => <[dl := []]> v end)
          | _, _ => (discover now (Some (entries v)), v)
          end
      end
  end.

(** ** Reading back after a start *)

Definition read (v : gmap string bytes) (n : string) : bytes := default [] (v !! n).
Definition restart_state (now : Z) (v : gmap string bytes) : bytes * bytes :=
  let '(m, v) := load now v in
  let base := if bool_decide (mf_RaftStateRel m = "") then "raft-state.bin" else mf_RaftStateRel m in
  let delta := if bool_decide (mf_RaftDeltaRel m = "")
               then if bool_decide (0 < mf_Generation m)%N then file_name (DeltaGen (mf_Generation m)) else ""
               else mf_RaftDeltaRel m in
  let snap := if bool_decide (mf_SnapshotRel m = "") then "snapshot.bin" else mf_SnapshotRel m in
  let b := read v base in
  (if bool_decide (delta = "") then b else
   let dl := read v delta in if bool_decide (dl = []) then b else (replayDeltaFrames b dl).1,
   read v snap).

(** ** The names are told apart *)

Lemma parse_zeros n s : parse_digits 0 (zeros n +:+ s) = parse_digits 0 s.
Proof. induction n as [|n IH]; [done|]. exact IH. Qed.
Lemma parse_pad20 g : parse_digits 0 (pad20 g) = Some g.
Proof. unfold pad20. by rewrite parse_zeros, parse_pretty_N. Qed.
Lemma pad20_nonempty g : pad20 g ≠ "".
Proof. intros E. pose proof (parse_pad20 g) as H. rewrite E in H. injection H as <-. vm_compute in E. done. Qed.
Lemma ParseUint_pad20 g : (g < 2^64)%N → ParseUint (pad20 g) = Some g.
Proof.
  intros Hg. unfold ParseUint. rewrite bool_decide_eq_false_2 by apply pad20_nonempty. rewrite parse_pad20. cbn [mbind option_bind].
  by rewrite bool_decide_eq_true_2.
Qed.

Lemma string_app_inj_r (a a' b b' : string) : String.length b = String.length b' → a +:+ b = a' +:+ b' → a = a' ∧ b = b'.
Proof.
  intros Hl E. assert (String.length a = String.length a') as Ha.
  { apply (f_equal String.length) in E. rewrite !length_string_app in E. lia. }
  revert a' Ha E. induction a as [|x a IH]; intros [|x' a'] Ha E; try done. injection Ha as Ha.
  change (String x (a +:+ b) = String x' (a' +:+ b')) in E. injection E as -> E. destruct (IH a' Ha E) as [-> ->]. done.
Qed.
Lemma has_suffix_other p q t : String.length p = String.length q → p ≠ q → has_suffix p (t +:+ q) = false.
Proof.
  intros Hl Hne. apply not_true_iff_false. rewrite has_suffix_spec. intros [t' E]. apply string_app_inj_r in E as [_ ->]; congruence.
Qed.

(** Round trip: the generation in a name is read back. *)
Lemma parseGeneration_name prefix suffix g : (g < 2^64)%N →
  parseGeneration (prefix +:+ pad20 g +:+ suffix) prefix suffix = Some g.
Proof.
  intros Hg. unfold parseGeneration. rewrite has_prefix_app, <-string_app_assoc, has_suffix_app. cbn [negb orb].
  by rewrite string_app_assoc, TrimPrefix_app, TrimSuffix_app, ParseUint_pad20.
Qed.

Definition gen_of (f : fname) : N := match f with RaftStateGen g | DeltaGen g | SnapGen g => g | _ => 0%N end.
Definition name_ok (f : fname) : Prop := (gen_of f < 2^64)%N.

Lemma scan_name g f : name_ok f → scan_entry g (file_name f, false) =
  match f with
  | RaftStateGen gen => {| raftByGen := <[gen := file_name f]> (raftByGen g); deltaByGen := deltaByGen g; snapByGen := snapByGen g |}
  | DeltaGen gen => {| raftByGen := raftByGen g; deltaByGen := <[gen := file_name f]> (deltaByGen g); snapByGen := snapByGen g |}
  | SnapGen gen => {| raftByGen := raftByGen g; deltaByGen := deltaByGen g; snapByGen := <[gen := file_name f]> (snapByGen g) |}
  | _ => g
  end.
Proof.
  intros Hok. unfold name_ok in Hok. destruct f as [| | | |gen|gen|gen]; try reflexivity; cbn [gen_of] in Hok; unfold scan_entry, file_name.
  - rewrite has_prefix_app, parseGeneration_name by done. by rewrite <-string_app_assoc, has_suffix_app.
  - rewrite has_prefix_app, parseGeneration_name by done. rewrite <-string_app_assoc, has_suffix_app, (has_suffix_other ".bin" ".wal") by done.
    rewrite andb_false_r. by rewrite string_app_assoc.
  - rewrite (has_prefix_app "snapshot."), parseGeneration_name by done. rewrite <-(string_app_assoc "snapshot."), has_suffix_app.
    by rewrite string_app_assoc.
Qed.
Lemma scan_temp g n : is_temp n = true → scan_entry g (n, false) = g.
Proof. destruct n as [|c n]; [done|]. cbn [is_temp]. intros ->%bool_decide_eq_true. reflexivity. Qed.

Lemma file_name_visible f : is_temp (file_name f) = false.
Proof. by destruct f. Qed.

Lemma length_zeros n : String.length (zeros n) = n.
Proof. induction n as [|n IH]; [done|]. exact (f_equal S IH). Qed.
Lemma length_pad20 g : (20 ≤ String.length (pad20 g))%nat.
Proof. unfold pad20. rewrite length_string_app, length_zeros. lia. Qed.
Lemma pad20_inj g g' : pad20 g = pad20 g' → g = g'.
Proof. intros E. apply (f_equal (parse_digits 0)) in E. rewrite !parse_pad20 in E. by injection E. Qed.
Lemma gen_name_inj prefix suffix g g' : prefix +:+ pad20 g +:+ suffix = prefix +:+ pad20 g' +:+ suffix → g = g'.
Proof.
  intros E. apply (f_equal (TrimPrefix prefix)) in E. rewrite !TrimPrefix_app in E.
  apply string_app_inj_r in E as [E _]; [|done]. by apply pad20_inj.
Qed.
(** A name with a generation is longer than any fixed one. *)
Lemma gen_name_long prefix suffix g s : (String.length s < 20)%nat → prefix +:+ pad20 g +:+ suffix ≠ s.
Proof. intros Hl <-. rewrite !length_string_app in Hl. pose proof (length_pad20 g). lia. Qed.

#[global] Instance file_name_inj : Inj (=) (=) file_name.
Proof.
  intros [] [] E; cbn [file_name] in E; try done; try (by apply gen_name_long in E; [|cbn; lia]);
    try (by symmetry in E; apply gen_name_long in E; [|cbn; lia]); try (f_equal; by eapply gen_name_inj).
  - rewrite <-!string_app_assoc in E. by apply string_app_inj_r in E as [_ ?].
  - rewrite <-!string_app_assoc in E. by apply string_app_inj_r in E as [_ ?].
Qed.

(** ** The scan finds the generations *)

Definition entry_ok (e : string * bool) : Prop :=
  e.2 = true ∨ is_temp e.1 = true ∨ ∃ f, name_ok f ∧ e.1 = file_name f.
Definition scan (es : list (string * bool)) : gens :=
  foldl scan_entry {| raftByGen := ∅; deltaByGen := ∅; snapByGen := ∅ |} es.

Definition kind_map (g : gens) (f : fname) : option string :=
  match f with
  | RaftStateGen gen => raftByGen g !! gen
  | DeltaGen gen => deltaByGen g !! gen
  | SnapGen gen => snapByGen g !! gen
  | _ => None
  end.
Definition is_gen (f : fname) : Prop := match f with RaftStateGen _ | DeltaGen _ | SnapGen _ => True | _ => False end.

#[local] Instance is_gen_dec f : Decision (is_gen f).
Proof. destruct f; apply _. Defined.

Lemma kind_scan g f0 f : name_ok f0 → kind_map (scan_entry g (file_name f0, false)) f =
  if decide (f = f0 ∧ is_gen f) then Some (file_name f) else kind_map g f.
Proof.
  intros Hok. rewrite scan_name by done. destruct f0 as [| | | |g0|g0|g0], f as [| | | |g1|g1|g1]; cbn [kind_map raftByGen deltaByGen snapByGen];
    try (rewrite decide_False by (intros [? ?]; done); done);
    (destruct (decide (g1 = g0)) as [->|Hne]; [rewrite decide_True by done; by rewrite lookup_insert_eq|
      rewrite decide_False by (intros [[= ?] _]; done); by rewrite lookup_insert_ne]).
Qed.

Lemma kind_scan_all es f : Forall entry_ok es → is_gen f →
  kind_map (scan es) f = if decide ((file_name f, false) ∈ es) then Some (file_name f) else None.
Proof.
  intros Hes Hf. induction es as [|[n b] es IH] using rev_ind; [by destruct f|]. apply Forall_app in Hes as [Hes He%Forall_inv].
  unfold scan in *. rewrite foldl_app. cbn [foldl]. specialize (IH Hes).
  set (g := foldl scan_entry _ es) in *.
  assert (∀ g', kind_map g' f = kind_map g f → ¬ (n = file_name f ∧ b = false) →
    kind_map g' f = if decide ((file_name f, false) ∈ es ++ [(n, b)]) then Some (file_name f) else None) as Hskip.
  { intros g' -> Hne. rewrite IH. apply decide_ext. rewrite elem_of_app, list_elem_of_singleton. naive_solver. }
  destruct b; [apply Hskip; [done|by intros [_ ?]]|].
  destruct He as [?|[Ht|(f0 & Hok & Hn)]]; [done| |]; cbn [fst] in *.
  - apply Hskip; [by rewrite scan_temp|]. intros [-> _]. by rewrite file_name_visible in Ht.
  - subst n. rewrite kind_scan by done. destruct (decide (f = f0)) as [->|Hne].
    + rewrite !decide_True; [done| |done]. apply elem_of_app. right. by apply list_elem_of_singleton.
    + rewrite decide_False by (by intros [? _]). rewrite IH. apply decide_ext. rewrite elem_of_app, list_elem_of_singleton.
      split; [by left|]. intros [?|[= E%(inj file_name)]]; [done|congruence].
Qed.

(** ** Files that represent a directory of the model *)

Definition names_of (m : persisterManifest) (up : Z) : manifestFile :=
  let name o := default "" (file_name <$> o) in
  {| mf_Generation := m_Generation m; mf_RaftStateRel := name (m_RaftStateRel m);
     mf_RaftDeltaRel := name (m_RaftDeltaRel m); mf_SnapshotRel := name (m_SnapshotRel m); mf_UpdatedAt := up |}.

Definition rel_ok (o : option fname) : Prop := ∀ f, o = Some f → name_ok f ∧ f ≠ ManifestJson.
Definition manifest_ok (m : persisterManifest) : Prop :=
  (m_Generation m < 2^64)%N ∧ rel_ok (m_RaftStateRel m) ∧ rel_ok (m_RaftDeltaRel m) ∧ rel_ok (m_SnapshotRel m).

Definition content_bytes (f : fname) (c : content) (bs : bytes) : Prop :=
  match c with
  | Data b => f ≠ ManifestJson ∧ bs = b
  | Manifest m => f = ManifestJson ∧ manifest_ok m ∧ ∃ up, unmarshal_manifest bs = Some (names_of m up)
  | Garbage => f = ManifestJson ∧ unmarshal_manifest bs = None
  end.

Record represents (v : gmap string bytes) (d : directory) : Prop := {
  re_files : ∀ f, option_Forall2 (content_bytes f) (d !! f) (v !! file_name f);
  re_names : ∀ n, is_Some (v !! n) → is_temp n = true ∨ ∃ f, name_ok f ∧ n = file_name f }.

Lemma represents_some v d f : represents v d → is_Some (v !! file_name f) ↔ is_Some (d !! f).
Proof. intros H. destruct (re_files _ _ H f); split; intros [? ?]; done || by eexists. Qed.
Lemma represents_ok v d f : represents v d → is_Some (d !! f) → name_ok f.
Proof.
  intros H Hf. apply (represents_some v d f H) in Hf. destruct (re_names _ _ H _ Hf) as [Ht|(f' & Hok & E)].
  - by rewrite file_name_visible in Ht.
  - by apply (inj file_name) in E as ->.
Qed.

Lemma elem_entries v n : (n, false) ∈ entries v ↔ is_Some (v !! n).
Proof.
  unfold entries. rewrite elem_of_app, list_elem_of_fmap, list_elem_of_singleton. split.
  - intros [(? & [= ->] & ([? x] & -> & Hx%elem_of_map_to_list)%list_elem_of_fmap)|[=]]. by eexists.
  - intros [x Hx]. left. exists n. split; [done|]. apply list_elem_of_fmap. exists (n, x). split; [done|]. by apply elem_of_map_to_list.
Qed.
Lemma entries_ok v d : represents v d → Forall entry_ok (entries v).
Proof.
  intros H. apply Forall_forall. intros [n [|]] He; [by left|]. apply elem_entries in He. right. by apply (re_names _ _ H).
Qed.
Lemma scan_files v d f : represents v d → is_gen f → is_Some (kind_map (scan (entries v)) f) ↔ is_Some (d !! f).
Proof.
  intros H Hf. rewrite kind_scan_all by (by eauto using entries_ok). rewrite <-(represents_some v d f H), <-elem_entries.
  case_decide; split; try done.
Qed.

(** ** Both find the same generation *)

Lemma max_le l k : (foldr N.max 0 l ≤ k)%N ↔ ∀ x, x ∈ l → (x ≤ k)%N.
Proof.
  induction l as [|x l IH]; cbn; [split; [intros _ y Hy; by apply elem_of_nil in Hy|lia]|].
  rewrite N.max_lub_iff, IH. split.
  - intros [Hx Hl] y [->|Hy]%elem_of_cons; [done|by apply Hl].
  - intros H. split; [apply H; by left|intros y Hy; apply H; by right].
Qed.
Lemma best_le g k : (best_generation g ≤ k)%N ↔
  ∀ gen, is_Some (raftByGen g !! gen) → is_Some (snapByGen g !! gen) → (gen ≤ k)%N.
Proof.
  unfold best_generation. assert (∀ l, (foldr (λ gen best, match snapByGen g !! gen with None => best
      | Some _ => if bool_decide (best < gen)%N then gen else best end) 0 l ≤ k)%N ↔
    ∀ gen, gen ∈ l → is_Some (snapByGen g !! gen) → (gen ≤ k)%N) as H.
  { induction l as [|x l IH]; cbn; [split; [intros _ y Hy; by apply elem_of_nil in Hy|lia]|].
    destruct (snapByGen g !! x) eqn:E.
    - transitivity ((x ≤ k)%N ∧ (foldr (λ gen best, match snapByGen g !! gen with None => best
        | Some _ => if bool_decide (best < gen)%N then gen else best end) 0 l ≤ k)%N); [case_bool_decide; lia|].
      rewrite IH. split; [intros [Hx Hl] y [->|Hy]%elem_of_cons; [done|by apply Hl]|].
      intros Hy. split; [apply Hy; [by left|by eexists]|intros y Hin; apply Hy; by right].
    - rewrite IH. split; [intros Hl y [->|Hy]%elem_of_cons Hs; [destruct Hs; congruence|by apply Hl]|].
      intros Hy y Hin. apply Hy. by right. }
  rewrite H. split; intros Hg gen; [intros [x Hx]; apply Hg|].
  - apply list_elem_of_fmap. exists (gen, x). split; [done|]. by apply elem_of_map_to_list.
  - intros ([? x] & -> & Hx%elem_of_map_to_list)%list_elem_of_fmap. apply Hg. by eexists.
Qed.
Lemma elem_raft_gens d g : g ∈ raft_gens d ↔ is_Some (d !! RaftStateGen g).
Proof.
  unfold raft_gens. rewrite list_elem_of_omap. split.
  - intros ([f c] & Hf%elem_of_map_to_list & E). cbn in E. destruct f; try done. injection E as ->. by eexists.
  - intros [c Hc]. exists (RaftStateGen g, c). split; [by apply elem_of_map_to_list|done].
Qed.
Lemma same_best v d : represents v d →
  best_generation (scan (entries v)) = foldr N.max 0%N (filter (λ g, is_Some (d !! SnapGen g)) (raft_gens d)).
Proof.
  intros H. assert (∀ k, (best_generation (scan (entries v)) ≤ k)%N ↔
    (foldr N.max 0 (filter (λ g, is_Some (d !! SnapGen g)) (raft_gens d)) ≤ k)%N) as E.
  { intros k. rewrite best_le, max_le. split.
    - intros Hb x [Hs Hr%elem_raft_gens]%list_elem_of_filter.
      apply Hb; [by apply (scan_files v d (RaftStateGen x) H)|by apply (scan_files v d (SnapGen x) H)].
    - intros Hb x Hr Hs. apply (scan_files v d (RaftStateGen x) H) in Hr; [|done]. apply (scan_files v d (SnapGen x) H) in Hs; [|done].
      apply Hb, list_elem_of_filter. split; [done|by apply elem_raft_gens]. }
  apply N.le_antisymm; by apply E.
Qed.
Lemma best_complete d b : b = foldr N.max 0%N (filter (λ g, is_Some (d !! SnapGen g)) (raft_gens d)) → (b ≠ 0)%N →
  is_Some (d !! RaftStateGen b) ∧ is_Some (d !! SnapGen b).
Proof.
  intros Hb Hne. assert (∀ l : list N, foldr N.max 0%N l = 0%N ∨ foldr N.max 0%N l ∈ l) as Hin.
  { induction l as [|x l IH]; cbn; [by left|]. destruct (N.max_spec x (foldr N.max 0%N l)) as [[_ ->]|[_ ->]]; [|right; by left].
    destruct IH; [by left|right; by right]. }
  destruct (Hin (filter (λ g, is_Some (d !! SnapGen g)) (raft_gens d))) as [E|E]; [congruence|]. rewrite <-Hb in E.
  by apply list_elem_of_filter in E as [? ?%elem_raft_gens].
Qed.

(** The scan over names is the one of the model. *)
Lemma discover_names v d now : represents v d → ∃ up,
  discover now (Some (entries v)) = names_of (discoverLatestCompleteGeneration d) up.
Proof.
  intros H. unfold discover, discoverLatestCompleteGeneration. fold (scan (entries v)). rewrite (same_best v d H).
  set (b := foldr N.max 0%N _). case_bool_decide as Hb; [by exists 0%Z|]. exists now.
  destruct (best_complete d b eq_refl Hb) as [Hr Hs]. unfold names_of. cbn [m_Generation m_RaftStateRel m_RaftDeltaRel m_SnapshotRel fmap option_fmap option_map default].
  assert (∀ f, is_gen f → kind_map (scan (entries v)) f = Some (file_name f) ∨ (kind_map (scan (entries v)) f = None ∧ ¬ is_Some (d !! f))) as Hk.
  { intros f Hf. pose proof (scan_files v d f H Hf) as Hi. revert Hi. rewrite kind_scan_all by (by eauto using entries_ok).
    case_decide; [by left|]. intros Hi. right. split; [done|]. rewrite <-Hi. by intros []. }
  destruct (Hk (RaftStateGen b)) as [E1|[_ ?]]; [done| |done]. destruct (Hk (SnapGen b)) as [E2|[_ ?]]; [done| |done].
  cbn [kind_map] in E1, E2. rewrite E1, E2. cbn [default]. f_equal.
  destruct (Hk (DeltaGen b)) as [E3|[E3 _]]; [done|cbn [kind_map] in E3; rewrite E3..].
  - cbn [default]. by rewrite bool_decide_eq_false_2.
  - done.
Qed.
