(* ===== verification/PersisterDisk.v ===== *)
(** * PersisterDisk: full saves and appends on the disk

    The layers of the persister put together: [commitGeneration] as
    [durableWrite]s of bytes to names on a disk whose calls fail and whose
    machine stops, read back by [loadManifest] over what is left. *)
From Stdlib Require Import Ascii.
From stdpp Require Import prelude gmap strings pretty.
From S2P Require Import Prelude Json JsonText Persister PersisterProps Disk DiskProps PersisterFiles.
From stdpp Require Import options.

(** ** The manifest's text is read back *)

Lemma bytes_text_bytes t : bytes_text (text_bytes t) = t.
Proof.
  unfold bytes_text, text_bytes. rewrite <-list_fmap_compose. rewrite <-(list_fmap_id t) at 2. apply list_fmap_ext. intros i c _.
  unfold compose. cbn. by rewrite N2Z.id, ascii_N_embedding.
Qed.
Lemma unmarshal_marshal m : (mf_Generation m < 2^64)%N → isS64 (mf_UpdatedAt m) → unmarshal_manifest (marshal_manifest m) = Some m.
Proof.
  intros Hg Hu. unfold unmarshal_manifest, marshal_manifest. rewrite bytes_text_bytes, parse_json_print.
  2: { unfold manifest_json, omit_if. by case_bool_decide. }
  cbn [mbind option_bind]. unfold manifest_json. cbn [as_struct mbind option_bind].
  assert (isU64 (Z.of_N (mf_Generation m))) as Hgz by (unfold isU64; lia).
  destruct m as [g rs dl sn up]. cbn [mf_Generation mf_RaftStateRel mf_RaftDeltaRel mf_SnapshotRel mf_UpdatedAt] in *.
  set (ms := _ ++ _). assert (jfield "generation" ms = Some (JNum (Z.of_N g)) ∧ jfield "raft_state_rel" ms = Some (JStr rs) ∧
    jfield "snapshot_rel" ms = Some (JStr sn) ∧ jfield "updated_at" ms = Some (JNum up) ∧
    as_string (jfield "raft_delta_rel" ms) = Some dl) as (-> & -> & -> & -> & ->).
  { unfold ms, omit_if. case_bool_decide as Hdl; split_and!; try reflexivity. by rewrite Hdl. }
  rewrite as_uint64_num, as_int64_num by done. cbn [mbind option_bind as_string]. by rewrite N2Z.id.
Qed.

(** ** Updates *)

Lemma represents_insert v d f c bs : represents v d → name_ok f → content_bytes f c bs →
  represents (<[file_name f := bs]> v) (<[f := c]> d).
Proof.
  intros H Hok Hc. split.
  - intros f'. destruct (decide (f' = f)) as [->|Hne]; [rewrite !lookup_insert_eq; by constructor|].
    assert (file_name f ≠ file_name f') by (by intros ?%(inj file_name); congruence).
    rewrite !lookup_insert_ne by done. apply (re_files _ _ H).
  - intros n [x [[<- _]|[_ Hn]]%lookup_insert_Some]; [right; by exists f|]. by apply (re_names _ _ H); eexists.
Qed.
Lemma represents_read v d f : represents v d → f ≠ ManifestJson → read v (file_name f) = ReadFile d (Some f).
Proof.
  intros H Hf. unfold read, ReadFile. destruct (re_files _ _ H f) as [c bs Hc|]; [|done].
  destruct c; cbn in *; [by destruct Hc as [_ ->]|by destruct Hc..].
Qed.
Lemma represents_vis v d : represents (vis v) d ↔ represents v d.
Proof.
  split; intros H; (split; [intros f; pose proof (re_files _ _ H f) as Hf; by rewrite lookup_vis, file_name_visible in *|]);
    intros n Hn; pose proof (re_names _ _ H n) as Hr; rewrite lookup_vis in *; destruct (is_temp n); [by left|auto|by left|auto].
Qed.

(** ** Loading *)

Lemma file_name_nonempty f : file_name f ≠ "".
Proof. by destruct f. Qed.
Lemma name_empty o : default "" (file_name <$> o) = "" ↔ o = None.
Proof. destruct o as [f|]; [|done]. cbn. pose proof (file_name_nonempty f). split; congruence. Qed.

Lemma discover_ok v d : represents v d → manifest_ok (discoverLatestCompleteGeneration d).
Proof.
  intros H. unfold discoverLatestCompleteGeneration. set (b := foldr N.max 0%N _).
  case_bool_decide as Hb; [by split_and!; [|intros f ?..]|].
  destruct (best_complete d b eq_refl Hb) as [Hr Hs]. pose proof (represents_ok _ _ _ H Hr) as Hok. unfold name_ok in Hok. cbn in Hok.
  split_and!; [done|by intros f [= <-]..].
Qed.

(** What is read from the disk is what the model loads. *)
Lemma load_represents v d now : represents v d → ∃ up,
  (load now v).1 = names_of (loadManifest d).1 up ∧ represents (load now v).2 (loadManifest d).2 ∧ manifest_ok (loadManifest d).1.
Proof.
  intros H. unfold load, loadManifest. destruct (discover_names v d now H) as [up0 Hdisc].
  pose proof (discover_ok v d H) as Hdok.
  assert (∃ up, discover now (Some (entries v)) = names_of (discoverLatestCompleteGeneration d) up ∧ represents v d ∧
    manifest_ok (discoverLatestCompleteGeneration d)) as Hfall by eauto. change "manifest.json" with (file_name ManifestJson).
  destruct (re_files _ _ H ManifestJson) as [c bs Hc|].
  2: { exists up0. rewrite Hdisc. cbn [fst snd]. split_and!; [|done|].
       - cbn [names_of mf_Generation mf_RaftDeltaRel]. rewrite (bool_decide_ext _ _ (name_empty _)).
         by destruct (bool_decide (0 < _)%N && _).
       - destruct (bool_decide _ && _); [|done]. destruct Hdok as (Hg & Hr & Hd & Hs). split_and!; try done.
         by intros f [= <-]. }
  destruct c as [b|m|]; [by destruct Hc| |]; cbn [content_bytes] in Hc.
  2: { destruct Hc as [_ ->]. exact Hfall. }
  destruct Hc as (_ & Hm & up & ->). cbn [names_of mf_RaftStateRel mf_SnapshotRel mf_RaftDeltaRel mf_Generation mf_UpdatedAt].
  rewrite !(bool_decide_ext _ _ (name_empty _)). destruct m as [g rs dl sn]. cbn [m_RaftStateRel m_SnapshotRel m_RaftDeltaRel m_Generation] in *.
  destruct rs as [rs|]; [|rewrite bool_decide_eq_true_2 by done; cbn [orb]; exact Hfall].
  destruct sn as [sn|]; [|rewrite (bool_decide_eq_true_2 (@None fname = None)) by done; rewrite orb_true_r; exact Hfall].
  rewrite (bool_decide_eq_false_2 (Some rs = None)), (bool_decide_eq_false_2 (Some sn = None)) by done. cbn [orb].
  assert ((if bool_decide (dl = None) then file_name (DeltaGen g) else default "" (file_name <$> dl)) =
    file_name (default (defaultDeltaRel g) dl)) as -> by (by destruct dl). cbn [fmap option_fmap option_map default id].
  destruct (re_files _ _ H rs) as [c1 b1 _|]; [|exact Hfall]. destruct (re_files _ _ H sn) as [c2 b2 _|]; [|exact Hfall].
  destruct Hm as (Hg & Hr & Hd & Hs). cbn in Hg, Hr, Hd, Hs.
  assert (name_ok (default (defaultDeltaRel g) dl) ∧ default (defaultDeltaRel g) dl ≠ ManifestJson) as [Hdn Hdm].
  { destruct dl as [dl|]; [by apply Hd|done]. }
  exists up. split; [done|]. split; [|by split; [done|split; [done|split; [intros f [= <-]|]]]]. cbn [snd].
  destruct (re_files _ _ H (default (defaultDeltaRel g) dl)); [done|]. by apply represents_insert.
Qed.

Lemma restart_represents v d now : represents v d →
  restart_state now v = (ReadRaftState (NewFilePersister d), ReadSnapshot (NewFilePersister d)).
Proof.
  intros H. destruct (load_represents v d now H) as (up & Hm & Hr & Hok). unfold restart_state, NewFilePersister.
  destruct (load now v) as [mf v'], (loadManifest d) as [m d']. cbn [fst snd] in *. subst mf.
  unfold ReadRaftState, ReadSnapshot. cbn [fp_dir fp_manifest names_of mf_RaftStateRel mf_SnapshotRel mf_RaftDeltaRel mf_Generation].
  rewrite !(bool_decide_ext _ _ (name_empty _)). destruct Hok as (Hg & Hrs & Hdl & Hsn).
  assert (∀ o dflt, rel_ok o → dflt ≠ ManifestJson →
    read v' (if bool_decide (o = None) then file_name dflt else default "" (file_name <$> o)) = ReadFile d' (Some (default dflt o))) as Hread.
  { intros [f|] dflt Hf Hd; cbn; apply represents_read; try done. by apply Hf. }
  change "raft-state.bin" with (file_name RaftStateBin). change "snapshot.bin" with (file_name SnapshotBin). rewrite !Hread by done.
  f_equal. unfold composeRaftState, currentRaftDeltaPath. fold (currentRaftStatePath m).
  destruct (m_RaftDeltaRel m) as [dl|] eqn:Edl.
  - cbn [fmap option_fmap option_map default id]. rewrite (bool_decide_eq_false_2 (Some dl = None)), (bool_decide_eq_false_2 (file_name dl = "")) by (done || apply file_name_nonempty).
    rewrite (represents_read v' d') by (done || by apply Hdl). by case_bool_decide.
  - rewrite (bool_decide_eq_true_2 (@None fname = None)) by done. destruct (bool_decide (0 < m_Generation m)%N); [|done].
    rewrite (bool_decide_eq_false_2 (file_name _ = "")) by apply file_name_nonempty. rewrite (represents_read v' d') by done. unfold defaultDeltaRel. by case_bool_decide.
Qed.

(** ** [commitGeneration] on the disk *)

(** The durable writes of [commitGeneration_steps] as bytes, with the time the
    manifest was written; [fts] are the faults and the clock of each. *)
Definition content_text (up : Z) (c : content) : bytes :=
  match c with Data bs => bs | Manifest m => marshal_manifest (names_of m up) | Garbage => [] end.
Fixpoint disk_writes (up : Z) (fts : list (faults * N)) (ws : list (fname * content)) : list (faults * N * string * bytes) :=
  match fts, ws with
  | (ft, now) :: fts, (f, c) :: ws => (ft, now, file_name f, content_text up c) :: disk_writes up fts ws
  | _, _ => []
  end.

Definition disk_commitGeneration (up : Z) (fts : list (faults * N)) (m : persisterManifest) (raftstate : bytes)
    (snapshot : option bytes) : prog (option werror) :=
  durableWrites (disk_writes up fts (commitGeneration_steps m raftstate snapshot).1).

Definition write_ok (w : fname * content) : Prop :=
  name_ok w.1 ∧ match w.2 with Data _ => w.1 ≠ ManifestJson | Manifest m => w.1 = ManifestJson ∧ manifest_ok m | Garbage => False end.

Lemma content_text_ok up f c : isS64 up → write_ok (f, c) → content_bytes f c (content_text up c).
Proof.
  intros Hup [_ Hc]. cbn [fst snd] in Hc. destruct c as [bs|m|]; [done| |done]. destruct Hc as [-> Hm]. cbn [content_bytes content_text].
  split; [done|]. split; [done|]. exists up. apply unmarshal_marshal; [exact (proj1 Hm)|exact Hup].
Qed.
Lemma run_disk_writes up ws : ∀ fts v d, isS64 up → Forall write_ok ws → (length ws ≤ length fts)%nat → represents v d →
  represents (write_all (disk_writes up fts ws) v) (run_writes ws d).
Proof.
  induction ws as [|[f c] ws IH]; intros [|[ft now] fts] v d Hup Hws Hl H; cbn in Hl; try done; try lia.
  apply Forall_cons in Hws as [Hw Hws]. cbn [disk_writes write_all foldl run_writes]. apply (IH fts); [done..|lia|].
  apply represents_insert; [done|by destruct Hw|by apply content_text_ok].
Qed.
Lemma take_disk_writes up ws : ∀ fts k, take k (disk_writes up fts ws) = disk_writes up (take k fts) (take k ws).
Proof.
  induction ws as [|[f c] ws IH]; intros [|[ft now] fts] [|k]; try done. cbn. by rewrite IH.
Qed.
Lemma disk_writes_visible up ws : ∀ fts, Forall (λ w : faults * N * string * bytes, is_temp w.1.2 = false) (disk_writes up fts ws).
Proof. induction ws as [|[f c] ws IH]; intros [|[ft now] fts]; cbn; try done. constructor; [apply file_name_visible|apply IH]. Qed.

Lemma commit_writes_ok m rs sn : (m_Generation m + 1 < 2^64)%N → rel_ok (m_SnapshotRel m) →
  Forall write_ok (commitGeneration_steps m rs sn).1.
Proof.
  intros Hg Hs. unfold commitGeneration_steps. cbn [fst].
  assert (∀ f, gen_of f = (m_Generation m + 1)%N → name_ok f) as Hok by (intros f Hf; unfold name_ok; by rewrite Hf).
  assert (∀ f bs, gen_of f = (m_Generation m + 1)%N → f ≠ ManifestJson → write_ok (f, Data bs)) as Hw by (by split; [apply Hok|]).
  assert (∀ f, gen_of f = (m_Generation m + 1)%N → f ≠ ManifestJson → rel_ok (Some f)) as Hr by (by intros f Hf Hne ? [= <-]; split; [apply Hok|]).
  apply Forall_cons_2; [by apply Hw|]. apply Forall_app_2.
  - destruct sn; [|destruct (m_SnapshotRel m)]; by repeat (apply Forall_cons_2; [by apply Hw|]).
  - apply Forall_cons_2; [by apply Hw|]. apply Forall_cons_2; [|done]. split; [done|]. cbn [fst snd]. split; [done|].
    split; [done|]. split; [by apply Hr|]. split; [by apply Hr|]. cbn [m_SnapshotRel].
    destruct sn; [by apply Hr|]. by destruct (m_SnapshotRel m); [|apply Hr].
Qed.

(** What is left of a full save after [k] of its writes, read back. *)
Lemma restart_prefix up fts ws d s0 now k v : represents (files s0) d → Forall write_ok ws → isS64 up → (length ws ≤ length fts)%nat →
  vis v = write_all (take k (disk_writes up fts ws)) (files s0) →
  let fp1 := NewFilePersister (run_writes (take k ws) d) in restart_state now v = (ReadRaftState fp1, ReadSnapshot fp1).
Proof.
  intros Hrep Hws Hup Hl Hv. apply restart_represents, represents_vis. rewrite Hv, take_disk_writes.
  apply run_disk_writes; [done|by apply Forall_take|rewrite !length_take; lia|done].
Qed.

Lemma save_on_disk fp rs sn up fts now s0 :
  fp_wf fp ∨ fp_fresh fp → settled s0 → represents (files s0) (fp_dir fp) →
  (m_Generation (fp_manifest fp) + 1 < 2^64)%N → rel_ok (m_SnapshotRel (fp_manifest fp)) → isS64 up → length fts = 4%nat →
  let p := disk_commitGeneration up fts (fp_manifest fp) rs sn in
  let before := (ReadRaftState fp, ReadSnapshot fp) in
  let after := (rs, ReadSnapshot (commitGeneration fp rs sn)) in
  (∀ s v, s ∈ trace p s0 → crash s v → restart_state now v = before ∨ restart_state now v = after) ∧
  (result p s0 = None → settled (final p s0) ∧ represents (files (final p s0)) (fp_dir (commitGeneration fp rs sn)) ∧
    ∀ v, crash (final p s0) v → restart_state now v = after).
Proof.
  intros Hfp Hs Hrep Hg Hsn Hup Hl p before after. pose proof (commit_writes_ok _ rs sn Hg Hsn) as Hws.
  assert (length (commitGeneration_steps (fp_manifest fp) rs sn).1 ≤ length fts)%nat as Hlen.
  { rewrite Hl. unfold commitGeneration_steps. cbn. rewrite length_app. destruct sn; [|destruct (m_SnapshotRel _)]; cbn; lia. }
  unfold trace, result, final. destruct (p s0) as [[t s] r] eqn:E. cbn [fst snd].
  destruct (durableWrites_prefix _ s0 t s r Hs (disk_writes_visible _ _ _) E) as [H1 H2]. split.
  - intros s' v Hs' Hv. destruct (H1 s' v Hs' Hv) as [k Hk].
    rewrite (restart_prefix up fts _ (fp_dir fp) s0 now k v) by done.
    destruct (generation_crash fp rs sn (take k (commitGeneration_steps (fp_manifest fp) rs sn).1)
      (drop k (commitGeneration_steps (fp_manifest fp) rs sn).1) Hfp) as [(_ & -> & ->)|[-> ->]]; [by rewrite take_drop|by left|by right].
  - intros Hr. destruct (H2 Hr) as [Hs' Hf]. assert (represents (files s) (fp_dir (commitGeneration fp rs sn))) as Hrep'.
    { unfold commitGeneration. destruct (commitGeneration_steps (fp_manifest fp) rs sn) as [ws m'] eqn:Es. cbn [fp_dir].
      rewrite Hf. by apply run_disk_writes. }
    split_and!; [done|done|]. intros v Hv. rewrite (restart_represents v (fp_dir (commitGeneration fp rs sn))).
    + destruct (commitGeneration_spec fp rs sn Hfp) as (Hwf & _ & Hrs & _).
      destruct (reload_same (commitGeneration fp rs sn) [] Hwf) as [E1 E2]; [by intros w Hw%elem_of_nil|].
      change (run_writes [] (fp_dir (commitGeneration fp rs sn))) with (fp_dir (commitGeneration fp rs sn)) in E1, E2. by rewrite E1, E2, Hrs.
    + apply represents_vis. by rewrite (settled_crash s v).
Qed.

(** C33: A full save on a disk where any call can fail and the machine can stop
    anywhere: if the disk represents the persister's directory, a restart over
    whatever a crash leaves reads the raft state and the snapshot from before, or
    those being saved; and when every [durableWrite] returned nil the disk
    represents the directory after the save, with nothing outstanding, so that
    every restart reads what was saved. *)
Theorem save_survives_crash fp rs sn up fts now s0 :
  fp_wf fp ∨ fp_fresh fp → settled s0 → represents (files s0) (fp_dir fp) →
  (m_Generation (fp_manifest fp) + 1 < 2^64)%N → rel_ok (m_SnapshotRel (fp_manifest fp)) → isS64 up → length fts = 4%nat →
  let p := disk_commitGeneration up fts (fp_manifest fp) rs sn in
  let before := (ReadRaftState fp, ReadSnapshot fp) in
  let after := (rs, ReadSnapshot (commitGeneration fp rs sn)) in
  (∀ s v, s ∈ trace p s0 → crash s v → restart_state now v = before ∨ restart_state now v = after) ∧
  (result p s0 = None → settled (final p s0) ∧ represents (files (final p s0)) (fp_dir (commitGeneration fp rs sn)) ∧
    ∀ v, crash (final p s0) v → restart_state now v = after).
Proof. apply save_on_disk. Qed.

(** ** [commitAppendRaftState] on the disk *)



(** ** Witnesses: the first save on an empty disk, then an append *)

Definition wit_fts : list (faults * N) := [(no_faults, 1); (no_faults, 2); (no_faults, 3); (no_faults, 4)]%N.
Definition wit_save : prog (option werror) := disk_commitGeneration 5 wit_fts (fp_manifest (NewFilePersister ∅)) wit_base (Some [7; 7]%Z).

Lemma empty_represents : represents (files empty_disk) (fp_dir (NewFilePersister ∅)).
Proof. split; [intros f; rewrite lookup_files by apply empty_settled; rewrite file_name_visible; constructor|]. intros n. rewrite lookup_files by apply empty_settled. destruct (is_temp n); by intros [? ?]. Qed.

Lemma durable_write_atomic_witness :
  result (durableWrite no_faults 1 "manifest.json" [1%Z]) empty_disk = None ∧
  ∀ v, crash (final (durableWrite no_faults 1 "manifest.json" [1%Z]) empty_disk) v →
    ∃ v0, crash_all empty_disk v0 ∧ vis v = <["manifest.json" := [1%Z]]> (vis v0).
Proof.
  split; [by vm_compute|]. apply (durable_write_atomic no_faults 1 "manifest.json" [1%Z] empty_disk); [apply empty_settled|done|by vm_compute].
Defined.

Lemma save_survives_crash_witness : result wit_save empty_disk = None ∧
  ∀ v, crash (final wit_save empty_disk) v → restart_state 9 v = (wit_base, [7; 7]%Z).
Proof.
  split; [by vm_compute|]. intros v Hv.
  destruct (save_survives_crash (NewFilePersister ∅) wit_base (Some [7; 7]%Z) 5 wit_fts 9 empty_disk) as [_ H].
  - right. split_and!; [done..|]. by intros g.
  - apply empty_settled.
  - apply empty_represents.
  - done.
  - by intros f.
  - done.
  - done.
  - destruct H as (_ & _ & H); [by vm_compute|]. rewrite (H v Hv). f_equal; by vm_compute.
Defined.

