(* ===== verification/RaftState.v ===== *)
(** * RaftState: the state of a Raft node and its persistence
    (src/pkg/raft/raft.go)

    The [Raft] record, the log indexing helpers, the incremental persistence
    cache, the encoding of the persistent state and its decoding, and the hard
    state.  [int] is [Z]; it is wrapped only where the code converts it to
    bytes.  A function returns [None] where the Go code panics (an index or a
    slice bound out of range).

    A request to the persister is a value of [disk_req]; the waiting for its
    completion is modelled by the callers.  The log entries of the code carry a
    cache of their encoded command ([commandBytes]) which encoding fills in. *)
From stdpp Require Import prelude.
From S2P Require Import Prelude Gob.
From stdpp Require Import options.
Local Open Scope Z_scope.

(** ** Slices with [int] indices *)

(** [s[i]]: [None] is the panic of an index out of range. *)
Definition zget {A} (l : list A) (i : Z) : option A :=
  if bool_decide (i < 0) then None else l !! Z.to_nat i.
(** [s[:i]] within the length. *)
Definition ztake {A} (i : Z) (l : list A) : option (list A) :=
  if bool_decide (0 ≤ i ≤ Z.of_nat (length l)) then Some (take (Z.to_nat i) l) else None.
(** [s[i:]]. *)
Definition zdrop {A} (i : Z) (l : list A) : option (list A) :=
  if bool_decide (0 ≤ i ≤ Z.of_nat (length l)) then Some (drop (Z.to_nat i) l) else None.
(** [s[i] = v]. *)
Definition zset {A} (l : list A) (i : Z) (v : A) : option (list A) :=
  if bool_decide (0 ≤ i < Z.of_nat (length l)) then Some (<[Z.to_nat i := v]> l) else None.
Definition zlen {A} (l : list A) : Z := Z.of_nat (length l).

(** ** Data *)

Inductive role := Follower | Candidate | Leader.
#[global] Instance role_eq_dec : EqDecision role.
Proof. solve_decision. Defined.

Record LogEntry (Cmd : Type) := mkEntry {
  le_Term : Z;
  le_Command : option Cmd;      (* None is the nil interface *)
  le_commandBytes : bytes;
}.
Arguments mkEntry {_} _ _ _.
Arguments le_Term {_} _.
Arguments le_Command {_} _.
Arguments le_commandBytes {_} _.

(** The fields [persistState .. persistQueuedLogCount]. *)
Record PersistCache := mkCache {
  persistState : bytes;
  persistEntryEnd : list Z;
  persistLogCount : Z;
  persistDirtyFrom : Z;
  persistReady : bool;
  persistPersistedLen : Z;
  persistPersistedLogCount : Z;
  persistQueuedLen : Z;
  persistQueuedLogCount : Z;
}.

(** Times are nanoseconds.  [leaseRaw] is the constant
    [time.Duration(float64(heartbeatInterval) * leaseRatio)].  [peers] is the
    number of peers.  [stateAtomic] and [leaseUntilUnixNano] are copies of
    [state] and [leaseUntil] kept by [setStateLocked]/[setLeaseUntilLocked]. *)
Record Raft (Cmd : Type) := mkRaft {
  me : Z;
  peers : nat;
  dead : bool;
  Votes : Z;
  state : role;
  electionTimeout : Z;
  lastHeard : Z;
  CurrentTerm : Z;
  VotedFor : Z;
  log : list (LogEntry Cmd);
  CommitIndex : Z;
  LastApplied : Z;
  persistedIndex : Z;
  nextIndex : list Z;
  matchIndex : list Z;
  leaseRaw : Z;
  leaseUntil : Z;
  lastIncludedIndex : Z;
  lastIncludedTerm : Z;
  cache : PersistCache;
}.
Arguments mkRaft {_} _ _ _ _ _ _ _ _ _ _ _ _ _ _ _ _ _ _ _ _.
Arguments me {_} _.
Arguments peers {_} _.
Arguments dead {_} _.
Arguments Votes {_} _.
Arguments state {_} _.
Arguments electionTimeout {_} _.
Arguments lastHeard {_} _.
Arguments CurrentTerm {_} _.
Arguments VotedFor {_} _.
Arguments log {_} _.
Arguments CommitIndex {_} _.
Arguments LastApplied {_} _.
Arguments persistedIndex {_} _.
Arguments nextIndex {_} _.
Arguments matchIndex {_} _.
Arguments leaseRaw {_} _.
Arguments leaseUntil {_} _.
Arguments lastIncludedIndex {_} _.
Arguments lastIncludedTerm {_} _.
Arguments cache {_} _.

(** What is handed to the persister. *)
Inductive disk_req :=
  | ReqSave (raftstate : bytes) (snapshot : option bytes)
  | ReqAppend (payload : bytes)
  | ReqHard (hardstate : bytes).

(** ** Field updates *)
Section updates.
Context {Cmd : Type}.
Implicit Types rf : Raft Cmd.
Definition set_dead v rf : Raft Cmd :=
  mkRaft (me rf) (peers rf) v (Votes rf) (state rf) (electionTimeout rf) (lastHeard rf)
    (CurrentTerm rf) (VotedFor rf) (log rf) (CommitIndex rf) (LastApplied rf) (persistedIndex rf)
    (nextIndex rf) (matchIndex rf) (leaseRaw rf) (leaseUntil rf) (lastIncludedIndex rf) (lastIncludedTerm rf) (cache rf).
Definition set_Votes v rf : Raft Cmd :=
  mkRaft (me rf) (peers rf) (dead rf) v (state rf) (electionTimeout rf) (lastHeard rf)
    (CurrentTerm rf) (VotedFor rf) (log rf) (CommitIndex rf) (LastApplied rf) (persistedIndex rf)
    (nextIndex rf) (matchIndex rf) (leaseRaw rf) (leaseUntil rf) (lastIncludedIndex rf) (lastIncludedTerm rf) (cache rf).
Definition set_state v rf : Raft Cmd :=
  mkRaft (me rf) (peers rf) (dead rf) (Votes rf) v (electionTimeout rf) (lastHeard rf)
    (CurrentTerm rf) (VotedFor rf) (log rf) (CommitIndex rf) (LastApplied rf) (persistedIndex rf)
    (nextIndex rf) (matchIndex rf) (leaseRaw rf) (leaseUntil rf) (lastIncludedIndex rf) (lastIncludedTerm rf) (cache rf).
Definition set_lastHeard v rf : Raft Cmd :=
  mkRaft (me rf) (peers rf) (dead rf) (Votes rf) (state rf) (electionTimeout rf) v
    (CurrentTerm rf) (VotedFor rf) (log rf) (CommitIndex rf) (LastApplied rf) (persistedIndex rf)
    (nextIndex rf) (matchIndex rf) (leaseRaw rf) (leaseUntil rf) (lastIncludedIndex rf) (lastIncludedTerm rf) (cache rf).
Definition set_CurrentTerm v rf : Raft Cmd :=
  mkRaft (me rf) (peers rf) (dead rf) (Votes rf) (state rf) (electionTimeout rf) (lastHeard rf)
    v (VotedFor rf) (log rf) (CommitIndex rf) (LastApplied rf) (persistedIndex rf)
    (nextIndex rf) (matchIndex rf) (leaseRaw rf) (leaseUntil rf) (lastIncludedIndex rf) (lastIncludedTerm rf) (cache rf).
Definition set_VotedFor v rf : Raft Cmd :=
  mkRaft (me rf) (peers rf) (dead rf) (Votes rf) (state rf) (electionTimeout rf) (lastHeard rf)
    (CurrentTerm rf) v (log rf) (CommitIndex rf) (LastApplied rf) (persistedIndex rf)
    (nextIndex rf) (matchIndex rf) (leaseRaw rf) (leaseUntil rf) (lastIncludedIndex rf) (lastIncludedTerm rf) (cache rf).
Definition set_log v rf : Raft Cmd :=
  mkRaft (me rf) (peers rf) (dead rf) (Votes rf) (state rf) (electionTimeout rf) (lastHeard rf)
    (CurrentTerm rf) (VotedFor rf) v (CommitIndex rf) (LastApplied rf) (persistedIndex rf)
    (nextIndex rf) (matchIndex rf) (leaseRaw rf) (leaseUntil rf) (lastIncludedIndex rf) (lastIncludedTerm rf) (cache rf).
Definition set_CommitIndex v rf : Raft Cmd :=
  mkRaft (me rf) (peers rf) (dead rf) (Votes rf) (state rf) (electionTimeout rf) (lastHeard rf)
    (CurrentTerm rf) (VotedFor rf) (log rf) v (LastApplied rf) (persistedIndex rf)
    (nextIndex rf) (matchIndex rf) (leaseRaw rf) (leaseUntil rf) (lastIncludedIndex rf) (lastIncludedTerm rf) (cache rf).
Definition set_LastApplied v rf : Raft Cmd :=
  mkRaft (me rf) (peers rf) (dead rf) (Votes rf) (state rf) (electionTimeout rf) (lastHeard rf)
    (CurrentTerm rf) (VotedFor rf) (log rf) (CommitIndex rf) v (persistedIndex rf)
    (nextIndex rf) (matchIndex rf) (leaseRaw rf) (leaseUntil rf) (lastIncludedIndex rf) (lastIncludedTerm rf) (cache rf).
Definition set_persistedIndex v rf : Raft Cmd :=
  mkRaft (me rf) (peers rf) (dead rf) (Votes rf) (state rf) (electionTimeout rf) (lastHeard rf)
    (CurrentTerm rf) (VotedFor rf) (log rf) (CommitIndex rf) (LastApplied rf) v
    (nextIndex rf) (matchIndex rf) (leaseRaw rf) (leaseUntil rf) (lastIncludedIndex rf) (lastIncludedTerm rf) (cache rf).
Definition set_nextIndex v rf : Raft Cmd :=
  mkRaft (me rf) (peers rf) (dead rf) (Votes rf) (state rf) (electionTimeout rf) (lastHeard rf)
    (CurrentTerm rf) (VotedFor rf) (log rf) (CommitIndex rf) (LastApplied rf) (persistedIndex rf)
    v (matchIndex rf) (leaseRaw rf) (leaseUntil rf) (lastIncludedIndex rf) (lastIncludedTerm rf) (cache rf).
Definition set_matchIndex v rf : Raft Cmd :=
  mkRaft (me rf) (peers rf) (dead rf) (Votes rf) (state rf) (electionTimeout rf) (lastHeard rf)
    (CurrentTerm rf) (VotedFor rf) (log rf) (CommitIndex rf) (LastApplied rf) (persistedIndex rf)
    (nextIndex rf) v (leaseRaw rf) (leaseUntil rf) (lastIncludedIndex rf) (lastIncludedTerm rf) (cache rf).
Definition set_leaseUntil v rf : Raft Cmd :=
  mkRaft (me rf) (peers rf) (dead rf) (Votes rf) (state rf) (electionTimeout rf) (lastHeard rf)
    (CurrentTerm rf) (VotedFor rf) (log rf) (CommitIndex rf) (LastApplied rf) (persistedIndex rf)
    (nextIndex rf) (matchIndex rf) (leaseRaw rf) v (lastIncludedIndex rf) (lastIncludedTerm rf) (cache rf).
Definition set_lastIncludedIndex v rf : Raft Cmd :=
  mkRaft (me rf) (peers rf) (dead rf) (Votes rf) (state rf) (electionTimeout rf) (lastHeard rf)
    (CurrentTerm rf) (VotedFor rf) (log rf) (CommitIndex rf) (LastApplied rf) (persistedIndex rf)
    (nextIndex rf) (matchIndex rf) (leaseRaw rf) (leaseUntil rf) v (lastIncludedTerm rf) (cache rf).
Definition set_lastIncludedTerm v rf : Raft Cmd :=
  mkRaft (me rf) (peers rf) (dead rf) (Votes rf) (state rf) (electionTimeout rf) (lastHeard rf)
    (CurrentTerm rf) (VotedFor rf) (log rf) (CommitIndex rf) (LastApplied rf) (persistedIndex rf)
    (nextIndex rf) (matchIndex rf) (leaseRaw rf) (leaseUntil rf) (lastIncludedIndex rf) v (cache rf).
Definition set_cache v rf : Raft Cmd :=
  mkRaft (me rf) (peers rf) (dead rf) (Votes rf) (state rf) (electionTimeout rf) (lastHeard rf)
    (CurrentTerm rf) (VotedFor rf) (log rf) (CommitIndex rf) (LastApplied rf) (persistedIndex rf)
    (nextIndex rf) (matchIndex rf) (leaseRaw rf) (leaseUntil rf) (lastIncludedIndex rf) (lastIncludedTerm rf) v.
End updates.

(** ** Log indexing *)
Section ops.
Context {Cmd : Type} `{GobCommand Cmd}.
Implicit Types rf : Raft Cmd.
Implicit Types e : LogEntry Cmd.

Definition getLastLogIndex rf : Z := lastIncludedIndex rf + zlen (log rf) - 1.

Definition getTerm rf (index : Z) : option Z :=
  if bool_decide (index ≤ lastIncludedIndex rf) then Some (lastIncludedTerm rf)
  else le_Term <$> zget (log rf) (index - lastIncludedIndex rf).

Definition getLastLogTerm rf : option Z :=
  if bool_decide (log rf = []) then Some (lastIncludedTerm rf)
  else getTerm rf (getLastLogIndex rf).

(** ** Bytes *)

Definition persistFormatMagic : Z := 0x4b565233.
Definition persistHeaderSize : Z := 44.

Definition makePersistHeader : bytes := le_put 4 persistFormatMagic ++ replicate 40 0.

(** The header with its five fields. *)
Definition persist_header (currentTerm votedFor lastIncludedIndex lastIncludedTerm logCount : Z)
    : bytes :=
  le_put 4 persistFormatMagic ++ le_put 8 (wrapU64 currentTerm) ++ le_put 8 (wrapU64 votedFor) ++
  le_put 8 (wrapU64 lastIncludedIndex) ++ le_put 8 (wrapU64 lastIncludedTerm) ++
  le_put 8 (wrapU64 logCount).

(** Overwrites the first 44 bytes; [None] when the buffer is shorter. *)
Definition putPersistHeaderFields (buf : bytes)
    (currentTerm votedFor lastIncludedIndex lastIncludedTerm logCount : Z) : option bytes :=
  if bool_decide (zlen buf < persistHeaderSize) then None
  else Some (persist_header currentTerm votedFor lastIncludedIndex lastIncludedTerm logCount
             ++ drop 44 buf).

Definition appendInt64LE (dst : bytes) (v : Z) : bytes := dst ++ le_put 8 (wrapU64 v).

(** The value and the new offset. *)
Definition readInt64LE (src : bytes) (offset : Z) : option (Z * Z) :=
  if bool_decide (offset < 0) || bool_decide (zlen src < offset + 8) then None
  else Some (wrapS64 (le_get (slice (Z.to_nat offset) (Z.to_nat offset + 8) src)), offset + 8).

(** ** Commands *)

Definition encodeCommandToBytes (command : option Cmd) : option bytes :=
  match command with
  | None => Some []
  | Some c => gob_encode c
  end.

Definition decodeCommandFromBytes (data : bytes) : option (option Cmd) :=
  if bool_decide (data = []) then Some None else gob_decode data.

(** The entry with its cache filled in, or [None] for the result [false]. *)
Definition ensureEntryCommandEncoded e : option (LogEntry Cmd) :=
  if negb (bool_decide (le_commandBytes e = [])) || bool_decide (le_Command e = None)
  then Some e
  else match encodeCommandToBytes (le_Command e) with
       | None => None
       | Some encoded => Some (mkEntry (le_Term e) (le_Command e) encoded)
       end.

(** ** The persistence cache *)

Definition initPersistCacheLocked (pc : PersistCache) : PersistCache :=
  mkCache makePersistHeader [] 0 0 true
    (persistPersistedLen pc) (persistPersistedLogCount pc)
    (persistQueuedLen pc) (persistQueuedLogCount pc).

Definition invalidatePersistCacheLocked : PersistCache := mkCache [] [] 0 0 false 0 0 0 0.

Definition with_dirty (d : Z) (pc : PersistCache) : PersistCache :=
  mkCache (persistState pc) (persistEntryEnd pc) (persistLogCount pc) d (persistReady pc)
    (persistPersistedLen pc) (persistPersistedLogCount pc)
    (persistQueuedLen pc) (persistQueuedLogCount pc).

Definition with_body (st : bytes) (ends : list Z) (n : Z) (pc : PersistCache) : PersistCache :=
  mkCache st ends n (persistDirtyFrom pc) (persistReady pc)
    (persistPersistedLen pc) (persistPersistedLogCount pc)
    (persistQueuedLen pc) (persistQueuedLogCount pc).

Definition canUsePersistAppend (st : bytes) (prevLen : Z) : bool :=
  if bool_decide (prevLen < persistHeaderSize) then false
  else if bool_decide (zlen st < prevLen) then false
  else bool_decide (persistHeaderSize ≤ zlen st).

Definition persistAppendPayloadMagic : Z := 0x52504131.

Definition buildPersistAppendPayload (st : bytes) (prevLen : Z) : option bytes :=
  if negb (canUsePersistAppend st prevLen) then None
  else
    let delta := drop (Z.to_nat prevLen) st in
    Some (le_put 4 persistAppendPayloadMagic ++ le_put 8 (wrapU64 prevLen) ++
          le_put 8 (wrapU64 (zlen st)) ++ le_put 4 persistHeaderSize ++
          le_put 4 (zlen delta) ++ take 44 st ++ delta).

Definition canPersistAppendLocked rf (snapshot : option bytes) (st : bytes)
    (dirtyFromBefore : Z) : bool :=
  match snapshot with
  | Some _ => false
  | None =>
      if negb (persistReady (cache rf)) then false
      else if bool_decide (zlen (log rf) < persistQueuedLogCount (cache rf)) then false
      else if bool_decide (dirtyFromBefore < persistQueuedLogCount (cache rf)) then false
      else canUsePersistAppend st (persistQueuedLen (cache rf))
  end.

Definition markPersistPersistedLocked (stateLen logCount : Z) (pc : PersistCache) : PersistCache :=
  let stateLen := Z.max stateLen 0 in
  let logCount := Z.max logCount 0 in
  mkCache (persistState pc) (persistEntryEnd pc) (persistLogCount pc) (persistDirtyFrom pc)
    (persistReady pc)
    (if bool_decide (persistPersistedLen pc < stateLen) then stateLen else persistPersistedLen pc)
    (if bool_decide (persistPersistedLogCount pc < logCount) then logCount
     else persistPersistedLogCount pc)
    (persistQueuedLen pc) (persistQueuedLogCount pc).

Definition markPersistQueuedLocked (stateLen logCount : Z) (pc : PersistCache) : PersistCache :=
  mkCache (persistState pc) (persistEntryEnd pc) (persistLogCount pc) (persistDirtyFrom pc)
    (persistReady pc) (persistPersistedLen pc) (persistPersistedLogCount pc)
    (Z.max stateLen 0) (Z.max logCount 0).

Definition markPersistDirtyFromLocked (pos : Z) rf : Raft Cmd :=
  if negb (persistReady (cache rf)) then rf
  else
    let pos := Z.max pos 0 in
    let pos := if bool_decide (zlen (log rf) < pos) then zlen (log rf) else pos in
    if bool_decide (pos < persistDirtyFrom (cache rf))
    then set_cache (with_dirty pos (cache rf)) rf else rf.

(** The result is the boolean and the cache; [None] is a panic. *)
Definition truncatePersistToLocked (keep : Z) (pc : PersistCache) : option (bool * PersistCache) :=
  if negb (persistReady pc) then Some (false, pc)
  else
    let keep := Z.max keep 0 in
    if bool_decide (keep = 0) then
      st ← ztake persistHeaderSize (persistState pc);
      Some (true, with_body st [] 0 pc)
    else if bool_decide (zlen (persistEntryEnd pc) < keep) then Some (false, pc)
    else
      end' ← zget (persistEntryEnd pc) (keep - 1);
      if bool_decide (end' < persistHeaderSize) || bool_decide (zlen (persistState pc) < end')
      then Some (false, pc)
      else
        st ← ztake end' (persistState pc);
        ends ← ztake keep (persistEntryEnd pc);
        Some (true, with_body st ends keep pc).

(** The cache with one more entry, and the entry with its command encoded. *)
Definition appendPersistEntryLocked (e : LogEntry Cmd) (pc : PersistCache)
    : option (LogEntry Cmd * PersistCache) :=
  match ensureEntryCommandEncoded e with
  | None => None
  | Some e =>
      let st := appendInt64LE (persistState pc) (le_Term e) in
      let st := appendInt64LE st (zlen (le_commandBytes e)) in
      let st := st ++ le_commandBytes e in
      Some (e, with_body st (persistEntryEnd pc ++ [zlen st]) (persistLogCount pc + 1) pc)
  end.

(** The loop [for rf.persistLogCount < len(rf.log)] over the entries from
    [persistLogCount] on: whether it ended, the entries (encoded as far as it
    went) and the cache. *)
Fixpoint append_entries (es : list (LogEntry Cmd)) (pc : PersistCache)
    : bool * list (LogEntry Cmd) * PersistCache :=
  match es with
  | [] => (true, [], pc)
  | e :: es =>
      match appendPersistEntryLocked e pc with
      | None => (false, e :: es, pc)
      | Some (e, pc) => let '(ok, es, pc) := append_entries es pc in (ok, e :: es, pc)
      end
  end.

Definition truncate_or_init (keep : Z) (pc : PersistCache) : option PersistCache :=
  '(ok, pc) ← truncatePersistToLocked keep pc;
  Some (if ok : bool then pc else initPersistCacheLocked pc).

(** [encodePersistentStateIncrementalLocked]: the node and the bytes, or no
    bytes for the result [false]; [None] is a panic. *)
Definition encodePersistentStateIncrementalLocked rf : option (Raft Cmd * option bytes) :=
  let pc := cache rf in
  let pc := if persistReady pc then pc else initPersistCacheLocked pc in
  let n := zlen (log rf) in
  let pc := if bool_decide (n < persistDirtyFrom pc) then with_dirty n pc else pc in
  pc ← (if bool_decide (n < persistLogCount pc) then truncate_or_init n pc else Some pc);
  pc ← (if bool_decide (persistDirtyFrom pc < persistLogCount pc)
        then truncate_or_init (persistDirtyFrom pc) pc else Some pc);
  rest ← zdrop (persistLogCount pc) (log rf);
  let '(ok, rest', pc) := append_entries rest pc in
  let rf := set_log (take (length (log rf) - length rest) (log rf) ++ rest') rf in
  if negb ok then Some (set_cache pc rf, None)
  else
    match putPersistHeaderFields (persistState pc) (CurrentTerm rf) (VotedFor rf)
            (lastIncludedIndex rf) (lastIncludedTerm rf) (zlen (log rf)) with
    | None => Some (set_cache pc rf, None)
    | Some st =>
        let pc := with_dirty (zlen (log rf))
                    (with_body st (persistEntryEnd pc) (persistLogCount pc) pc) in
        Some (set_cache pc rf, Some st)
    end.

(** [enqueuePersistLocked]: the request ([None] when encoding failed: the
    channel then holds an error), [stateLen] and [logCount]. *)
Definition enqueuePersistLocked (snapshot : option bytes) rf
    : option (Raft Cmd * option disk_req * Z * Z) :=
  let dirtyFromBefore := persistDirtyFrom (cache rf) in
  '(rf, st) ← encodePersistentStateIncrementalLocked rf;
  match st with
  | None => Some (set_cache invalidatePersistCacheLocked rf, None, -1, -1)
  | Some st =>
      let logCount := zlen (log rf) in
      let stateLen := zlen st in
      let rf' := set_cache (markPersistQueuedLocked stateLen logCount (cache rf)) rf in
      if canPersistAppendLocked rf snapshot st dirtyFromBefore then
        match buildPersistAppendPayload st (persistQueuedLen (cache rf)) with
        | Some payload => Some (rf', Some (ReqAppend payload), stateLen, logCount)
        | None => Some (rf', Some (ReqSave st snapshot), stateLen, logCount)
        end
      else Some (rf', Some (ReqSave st snapshot), stateLen, logCount)
  end.

(** [commitPersistResult] without an error (an error ends the process). *)
Definition commitPersistResult (stateLen logCount : Z) rf : Raft Cmd :=
  if bool_decide (0 ≤ stateLen)
  then set_cache (markPersistPersistedLocked stateLen logCount (cache rf)) rf else rf.

(** ** The hard state *)

Definition encodeHardState (currentTerm votedFor : Z) : bytes :=
  gob_Encode_int currentTerm ++ gob_Encode_int votedFor.

Definition enqueuePersistHardStateLocked rf : disk_req :=
  ReqHard (encodeHardState (CurrentTerm rf) (VotedFor rf)).

Definition readHardState (data : bytes) rf : Raft Cmd :=
  match ('(t, rest) ← gob_Decode_int data; '(v, _) ← gob_Decode_int rest; Some (t, v)) with
  | None => rf
  | Some (t, v) =>
      if bool_decide (CurrentTerm rf < t) ||
         (bool_decide (t = CurrentTerm rf) && negb (bool_decide (v = -1)))
      then set_VotedFor v (set_CurrentTerm t rf) else rf
  end.

(** ** Reading the persistent state *)

(** The loop of [readPersistBinary]: the entries, their ends and the offset. *)
Fixpoint read_entries (n : nat) (data : bytes) (offset : Z)
    : option (list (LogEntry Cmd) * list Z * Z) :=
  match n with
  | O => Some ([], [], offset)
  | S n =>
      '(term64, offset) ← readInt64LE data offset;
      '(cmdLen, offset) ← readInt64LE data offset;
      if bool_decide (cmdLen < 0) || bool_decide (zlen data - offset < cmdLen) then None
      else
        let cmdData := slice (Z.to_nat offset) (Z.to_nat (offset + cmdLen)) data in
        let offset := offset + cmdLen in
        cmd ← decodeCommandFromBytes cmdData;
        '(es, ends, offset') ← read_entries n data offset;
        Some (mkEntry term64 cmd cmdData :: es, offset :: ends, offset')
  end.

Definition header_field (a : nat) (data : bytes) : Z := wrapS64 (le_get (slice a (a + 8) data)).

(** [None] is the result [false]; the node is then unchanged. *)
Definition readPersistBinary (data : bytes) rf : option (Raft Cmd) :=
  if bool_decide (zlen data < persistHeaderSize) then None
  else if negb (bool_decide (le_get (slice 0 4 data) = persistFormatMagic)) then None
  else
    let logCount := header_field 36 data in
    if bool_decide (logCount < 0) then None
    else
      '(decodedLog, entryEnds, offset) ← read_entries (Z.to_nat logCount) data persistHeaderSize;
      if negb (bool_decide (offset = zlen data)) then None
      else
        let lit := header_field 28 data in
        let n := zlen decodedLog in
        let '(lg, pc) :=
          if bool_decide (decodedLog = [])
          then ([mkEntry lit None []], invalidatePersistCacheLocked)
          else (decodedLog, mkCache data entryEnds n n true (zlen data) n (zlen data) n) in
        Some (set_lastIncludedTerm lit (set_lastIncludedIndex (header_field 20 data)
               (set_log lg (set_VotedFor (header_field 12 data)
                 (set_CurrentTerm (header_field 4 data) (set_cache pc rf)))))).

Definition readPersist (data : bytes) rf : Raft Cmd :=
  match readPersistBinary data rf with
  | Some rf => rf
  | None => set_cache invalidatePersistCacheLocked rf
  end.

End ops.
