(* ===== verification/RaftStateProps.v ===== *)
(** * RaftStateProps: the incremental persistence of a Raft node is exact

    The node keeps a byte cache of its encoded log, re-encodes only what has
    changed and sends the persister either the whole state or a delta.  Here
    it is shown to be equivalent to encoding the whole state every time
    ([full_encode]): the bytes produced are those of the reference encoder,
    the deltas applied by the persister give the same bytes, and reading them
    back gives the term, the vote, the snapshot position and the log. *)
From stdpp Require Import prelude.
From S2P Require Import Prelude Gob Persister RaftState.
From stdpp Require Import options.
Local Open Scope Z_scope.

Section props.
Context {Cmd : Type} `{GobCommand Cmd}.
Implicit Types rf : Raft Cmd.
Implicit Types e : LogEntry Cmd.

(** ** The reference encoder *)

(** The bytes of the command of an entry, from its cache if it has one. *)
Definition entry_data e : bytes :=
  if bool_decide (le_commandBytes e = []) then default [] (encodeCommandToBytes (le_Command e))
  else le_commandBytes e.

Definition enc_entry e : bytes :=
  le_put 8 (wrapU64 (le_Term e)) ++ le_put 8 (wrapU64 (zlen (entry_data e))) ++ entry_data e.

Definition full_encode rf : bytes :=
  persist_header (CurrentTerm rf) (VotedFor rf) (lastIncludedIndex rf) (lastIncludedTerm rf)
    (zlen (log rf)) ++ concat (enc_entry <$> log rf).

(** An entry that can be written and read back: its command encodes (or its
    cache decodes) to the command it holds. *)
Definition entry_wf e : Prop :=
  isS64 (le_Term e) ∧ zlen (entry_data e) < 2^63 ∧
  is_Some (ensureEntryCommandEncoded e) ∧
  decodeCommandFromBytes (entry_data e) = Some (le_Command e).

(** The entry with its cache filled in. *)
Definition fill e : LogEntry Cmd := mkEntry (le_Term e) (le_Command e) (entry_data e).

Lemma ensure_fill e : is_Some (ensureEntryCommandEncoded e) → ensureEntryCommandEncoded e = Some (fill e).
Proof.
  unfold ensureEntryCommandEncoded, fill, entry_data. destruct e as [t c bs]; simpl.
  intros Hs. repeat case_bool_decide; simpl in *; subst; try done.
  - destruct c as [c|]; [|done]. simpl in *. destruct (gob_encode c); [done|]. by destruct Hs.
Qed.

Lemma entry_data_fill e : entry_data (fill e) = entry_data e.
Proof.
  destruct e as [t c bs]. unfold fill, entry_data. cbn [le_Term le_commandBytes le_Command].
  repeat case_bool_decide; done.
Qed.
Lemma enc_entry_fill e : enc_entry (fill e) = enc_entry e.
Proof. unfold enc_entry. by rewrite entry_data_fill. Qed.
Lemma enc_fill (es : list (LogEntry Cmd)) : enc_entry <$> (fill <$> es) = enc_entry <$> es.
Proof. rewrite <-list_fmap_compose. apply list_fmap_ext. intros. apply enc_entry_fill. Qed.

Lemma fill_idem (es : list (LogEntry Cmd)) : fill <$> (fill <$> es) = fill <$> es.
Proof.
  rewrite <-list_fmap_compose. apply list_fmap_ext. intros i [t c bs] _.
  unfold compose. unfold fill at 1. rewrite entry_data_fill. done.
Qed.

(** Logs that differ only in which command caches are filled in. *)
Definition log_equiv (l1 l2 : list (LogEntry Cmd)) : Prop := fill <$> l1 = fill <$> l2.
Local Infix "≡ₑ" := log_equiv (at level 70).

#[global] Instance log_equiv_equivalence : Equivalence log_equiv.
Proof. split; unfold log_equiv; intros ?; by intros; congruence || eauto using eq_trans. Qed.

Lemma log_equiv_length l1 l2 : l1 ≡ₑ l2 → length l1 = length l2.
Proof. intros E. apply (f_equal length) in E. by rewrite !length_fmap in E. Qed.
Lemma log_equiv_enc l1 l2 : l1 ≡ₑ l2 → enc_entry <$> l1 = enc_entry <$> l2.
Proof. intros E. by rewrite <-enc_fill, E, enc_fill. Qed.
Lemma log_equiv_terms l1 l2 : l1 ≡ₑ l2 → le_Term <$> l1 = le_Term <$> l2.
Proof.
  intros E. apply (f_equal (fmap le_Term)) in E. by rewrite <-!list_fmap_compose in E.
Qed.
Lemma log_equiv_commands l1 l2 : l1 ≡ₑ l2 → le_Command <$> l1 = le_Command <$> l2.
Proof.
  intros E. apply (f_equal (fmap le_Command)) in E. by rewrite <-!list_fmap_compose in E.
Qed.
Lemma entry_wf_equiv e e' : fill e = fill e' → entry_wf e → entry_wf e'.
Proof.
  unfold fill, entry_wf. intros [= Et Ec Ed] (Ht & Hl & Hs & Hd).
  rewrite Et in Ht. rewrite Ed in Hl, Hd. rewrite Ec in Hd. split_and!; try done. clear -Hd.
  unfold ensureEntryCommandEncoded, entry_data in *.
  destruct (bool_decide (le_commandBytes e' = [])); [|by eexists]. cbn [negb orb].
  case_bool_decide as Hc; [by eexists|].
  destruct (encodeCommandToBytes (le_Command e')); [by eexists|].
  cbn in Hd. congruence.
Qed.
Lemma log_equiv_wf l1 l2 : l1 ≡ₑ l2 → Forall entry_wf l1 → Forall entry_wf l2.
Proof.
  unfold log_equiv. revert l2. induction l1 as [|e l1 IH]; intros [|e' l2] E Hwf; try done.
  cbn [fmap list_fmap] in E. injection E as E1 E2 E3 E4. apply Forall_cons in Hwf as [Hw Hwf].
  constructor; [|by apply IH]. eapply entry_wf_equiv; [|done]. unfold fill. congruence.
Qed.

(** ** The shape of the cache *)

Fixpoint ends_from (s : Z) (chunks : list bytes) : list Z :=
  match chunks with [] => [] | c :: cs => s + zlen c :: ends_from (s + zlen c) cs end.

Lemma length_ends_from s chunks : length (ends_from s chunks) = length chunks.
Proof. revert s. induction chunks; intros; simpl; auto. Qed.

Lemma ends_from_app s c1 c2 :
  ends_from s (c1 ++ c2) = ends_from s c1 ++ ends_from (s + zlen (concat c1)) c2.
Proof.
  revert s. induction c1 as [|c cs IH]; intros s; cbn [app ends_from concat].
  { unfold zlen. simpl. by rewrite Z.add_0_r. }
  rewrite IH. do 3 f_equal. unfold zlen. rewrite length_app. lia.
Qed.

Lemma ends_from_take s n chunks : take n (ends_from s chunks) = ends_from s (take n chunks).
Proof.
  revert s n. induction chunks as [|c cs IH]; intros s n; destruct n; simpl; try done.
  by rewrite IH.
Qed.

Lemma ends_from_lookup s n chunks :
  (n < length chunks)%nat →
  ends_from s chunks !! n = Some (s + zlen (concat (take (S n) chunks))).
Proof.
  revert s n. induction chunks as [|c cs IH]; intros s n Hn; simpl in Hn; [lia|].
  destruct n as [|n]; cbn [ends_from lookup list_lookup take concat].
  - by rewrite app_nil_r.
  - rewrite IH by lia. f_equal. unfold zlen. cbn [take concat]. rewrite length_app.
    destruct cs; simpl in *; [lia|]. rewrite !length_app. lia.
Qed.

(** The cached bytes are a header and the chunks of some entries. *)
Definition body_ok (pc : PersistCache) (chunks : list bytes) : Prop :=
  persistReady pc = true ∧ persistEntryEnd pc = ends_from 44 chunks ∧
  persistLogCount pc = zlen chunks ∧
  ∃ hdr, length hdr = 44%nat ∧ persistState pc = hdr ++ concat chunks.

(** Up to [persistDirtyFrom] the chunks are those of the log. *)
Definition cache_inv (pc : PersistCache) (es : list (LogEntry Cmd)) : Prop :=
  0 ≤ persistDirtyFrom pc ≤ zlen es ∧ (persistReady pc = false → persistDirtyFrom pc = 0) ∧
  (persistReady pc = true → ∃ chunks, body_ok pc chunks ∧
     take (Z.to_nat (persistDirtyFrom pc)) chunks `prefix_of` (enc_entry <$> es)).

(** [d] are the bytes the persister will hold when the requests made so far
    have been carried out.  A delta can be based on them as far as the log has
    not changed. *)
Definition queue_inv (pc : PersistCache) (es : list (LogEntry Cmd)) (d : bytes) : Prop :=
  persistQueuedLen pc = 0 ∨
  persistReady pc = true ∧ persistQueuedLen pc = zlen d ∧
  ∃ hdr chunks, length hdr = 44%nat ∧ d = hdr ++ concat chunks ∧
    persistQueuedLogCount pc = zlen chunks ∧
    take (Z.to_nat (persistDirtyFrom pc)) chunks `prefix_of` (enc_entry <$> es).

Definition persist_inv rf (d : bytes) : Prop :=
  cache_inv (cache rf) (log rf) ∧ queue_inv (cache rf) (log rf) d.

(** Same fields outside the body. *)
Definition same_queue (pc pc' : PersistCache) : Prop :=
  persistDirtyFrom pc' = persistDirtyFrom pc ∧ persistReady pc' = persistReady pc ∧
  persistQueuedLen pc' = persistQueuedLen pc ∧ persistQueuedLogCount pc' = persistQueuedLogCount pc.

Lemma same_queue_trans a b c : same_queue a b → same_queue b c → same_queue a c.
Proof. unfold same_queue. intuition congruence. Qed.

Lemma truncate_spec pc chunks keep :
  body_ok pc chunks → 0 ≤ keep ≤ zlen chunks →
  ∃ pc', truncate_or_init keep pc = Some pc' ∧
    body_ok pc' (take (Z.to_nat keep) chunks) ∧ same_queue pc pc'.
Proof.
  intros (Hr & He & Hc & hdr & Hh & Hs) Hk.
  unfold truncate_or_init, truncatePersistToLocked. rewrite Hr, Hs, He. cbn [negb].
  rewrite Z.max_l by lia. unfold zlen in Hk. case_bool_decide as Hk0.
  { subst keep. unfold ztake. rewrite bool_decide_true.
    2: { unfold persistHeaderSize. rewrite length_app. lia. }
    cbn [mbind option_bind]. eexists. split; [reflexivity|]. split; [|done].
    change (Z.to_nat persistHeaderSize) with 44%nat.
    rewrite take_app_length' by done. split_and!; try done.
    exists hdr. simpl. by rewrite app_nil_r. }
  rewrite bool_decide_false by (unfold zlen; rewrite length_ends_from; lia).
  unfold zget. rewrite bool_decide_false by lia.
  rewrite ends_from_lookup by lia. cbn [mbind option_bind].
  replace (S (Z.to_nat (keep - 1))) with (Z.to_nat keep) by lia.
  assert (length (concat (take (Z.to_nat keep) chunks)) ≤ length (concat chunks))%nat as Hle.
  { rewrite <-(take_drop (Z.to_nat keep) chunks) at 2. rewrite concat_app, length_app. lia. }
  rewrite !bool_decide_false by (unfold persistHeaderSize, zlen; rewrite ?length_app; lia).
  cbn [orb]. unfold ztake.
  rewrite !bool_decide_true by (unfold zlen; rewrite ?length_app, ?length_ends_from; lia).
  cbn [mbind option_bind].
  eexists. split; [reflexivity|]. split; [|done].
  split_and!; try done.
  - apply ends_from_take.
  - cbn [with_body persistLogCount]. unfold zlen. rewrite length_take. lia.
  - exists hdr. split; [done|]. cbn [with_body persistState].
    rewrite take_app_ge by (unfold zlen; lia). f_equal.
    replace (Z.to_nat (44 + zlen (concat (take (Z.to_nat keep) chunks))) - length hdr)%nat
      with (length (concat (take (Z.to_nat keep) chunks))) by (unfold zlen; lia).
    rewrite <-(take_drop (Z.to_nat keep) chunks) at 2. rewrite concat_app.
    apply take_app_length.
Qed.

Lemma append_entries_spec es : ∀ pc chunks,
  body_ok pc chunks → Forall entry_wf es →
  ∃ pc', append_entries es pc = (true, fill <$> es, pc') ∧
    body_ok pc' (chunks ++ (enc_entry <$> es)) ∧ same_queue pc pc'.
Proof.
  induction es as [|e es IH]; intros pc chunks Hb Hwf.
  { exists pc. split_and!; try done. by rewrite app_nil_r. }
  apply Forall_cons in Hwf as [(Ht & Hl & He & Hd) Hwf].
  cbn [append_entries]. unfold appendPersistEntryLocked. rewrite ensure_fill by done.
  cbv zeta. cbn [le_Term le_commandBytes fill].
  destruct Hb as (Hr & Hends & Hc & hdr & Hh & Hs).
  set (st := appendInt64LE (appendInt64LE (persistState pc) (le_Term e)) (zlen (entry_data e))
               ++ entry_data e).
  assert (st = hdr ++ concat (chunks ++ [enc_entry e])) as Hst.
  { subst st. rewrite Hs, concat_app. unfold appendInt64LE. cbn [concat].
    unfold enc_entry. by rewrite app_nil_r, <-!app_assoc. }
  destruct (IH (with_body st (persistEntryEnd pc ++ [zlen st]) (persistLogCount pc + 1) pc)
               (chunks ++ [enc_entry e])) as (pc' & -> & Hb' & Hq); [|done|].
  { split_and!; try done.
    - cbn [with_body persistEntryEnd]. rewrite Hends, ends_from_app. f_equal.
      cbn [ends_from]. f_equal. rewrite Hst, concat_app. unfold zlen.
      rewrite !length_app. cbn [concat]. rewrite app_nil_r. lia.
    - cbn [with_body persistLogCount]. rewrite Hc. unfold zlen. rewrite length_app. simpl. lia.
    - exists hdr. by rewrite <-Hst. }
  exists pc'. split_and!; try done.
  by rewrite <-app_assoc in Hb'.
Qed.

Lemma length_persist_header a b c d k : length (persist_header a b c d k) = 44%nat.
Proof. unfold persist_header. by rewrite !length_app, !length_le_put. Qed.

(** The cache the encoder starts from: the one at hand, or a fresh one. *)
Lemma start_cache_spec pc es :
  cache_inv pc es →
  let pc0 := if persistReady pc then pc else initPersistCacheLocked pc in
  ∃ chunks, body_ok pc0 chunks ∧ 0 ≤ persistDirtyFrom pc0 ≤ zlen es ∧
    take (Z.to_nat (persistDirtyFrom pc0)) chunks `prefix_of` (enc_entry <$> es) ∧
    persistQueuedLen pc0 = persistQueuedLen pc ∧
    persistQueuedLogCount pc0 = persistQueuedLogCount pc.
Proof.
  intros (Hdirty & _ & Hcache). destruct (persistReady pc) eqn:Hr; cbv zeta.
  - destruct (Hcache eq_refl) as (chunks & Hb & Hpre). by exists chunks.
  - exists []. split_and!; try done; [|simpl; unfold zlen; lia|by rewrite take_nil; apply prefix_nil].
    split_and!; try done. exists makePersistHeader. by rewrite app_nil_r.
Qed.

(** Cutting the cache to [n] entries, when it holds more. *)
Lemma truncate_when pc chunks n :
  body_ok pc chunks → 0 ≤ n →
  ∃ pc', (if bool_decide (n < persistLogCount pc) then truncate_or_init n pc else Some pc) = Some pc' ∧
    body_ok pc' (take (Z.to_nat n) chunks) ∧ same_queue pc pc'.
Proof.
  intros Hb Hn. pose proof Hb as (_ & _ & Hc & _). case_bool_decide.
  - apply truncate_spec; [done|lia].
  - exists pc. rewrite take_ge by (unfold zlen in *; lia). by split_and!.
Qed.

(** Encoding incrementally gives the bytes of the reference encoder. *)
Lemma encode_spec rf :
  cache_inv (cache rf) (log rf) → Forall entry_wf (log rf) →
  ∃ lg pc, encodePersistentStateIncrementalLocked rf =
      Some (set_cache pc (set_log lg rf), Some (full_encode rf)) ∧ lg ≡ₑ log rf ∧
    body_ok pc (enc_entry <$> log rf) ∧ persistDirtyFrom pc = zlen (log rf) ∧
    persistQueuedLen pc = persistQueuedLen (cache rf) ∧
    persistQueuedLogCount pc = persistQueuedLogCount (cache rf).
Proof.
  intros Hinv Hwf. unfold encodePersistentStateIncrementalLocked. cbv zeta.
  destruct (start_cache_spec _ _ Hinv) as (chunks & Hb & Hd0 & Hpre & Hq1 & Hq2).
  set (pc0 := if persistReady (cache rf) then cache rf else _) in *. clearbody pc0.
  rewrite (bool_decide_false (zlen (log rf) < persistDirtyFrom pc0)) by lia.
  destruct (truncate_when pc0 chunks (zlen (log rf)) Hb) as (pc1 & -> & Hb1 & Hsq1); [lia|].
  cbn [mbind option_bind].
  destruct (truncate_when pc1 _ (persistDirtyFrom pc1) Hb1) as (pc2 & -> & Hb2 & Hsq2').
  { rewrite (proj1 Hsq1). lia. }
  pose proof (same_queue_trans _ _ _ Hsq1 Hsq2') as Hsq2. rewrite (proj1 Hsq1), take_take in Hb2.
  rewrite Nat.min_l in Hb2 by lia. set (chunks2 := take _ chunks) in *.
  assert (chunks2 `prefix_of` (enc_entry <$> log rf)) as Hpre2 by exact Hpre.
  clearbody chunks2. clear Hsq2'.
  cbn [mbind option_bind].
  pose proof Hb2 as (_ & _ & Hc2 & _). rewrite Hc2.
  pose proof (prefix_length _ _ Hpre2) as Hl2. rewrite length_fmap in Hl2.
  unfold zdrop. rewrite bool_decide_true by (unfold zlen; lia). cbn [mbind option_bind].
  replace (Z.to_nat (zlen chunks2)) with (length chunks2) by (unfold zlen; lia).
  destruct (append_entries_spec (drop (length chunks2) (log rf)) pc2 chunks2 Hb2)
    as (pc3 & -> & Hb3 & Hsq3); [by apply Forall_drop|].
  rewrite length_drop.
  replace (length (log rf) - (length (log rf) - length chunks2))%nat with (length chunks2) by lia.
  cbn [negb].
  assert (chunks2 ++ (enc_entry <$> drop (length chunks2) (log rf)) = enc_entry <$> log rf) as Hchunks.
  { destruct Hpre2 as [r Hr]. rewrite fmap_drop, Hr. by rewrite drop_app_length. }
  rewrite Hchunks in Hb3. destruct Hb3 as (Hr3 & He3 & Hc3 & hdr & Hh & Hs3).
  set (lg := take (length chunks2) (log rf) ++ (fill <$> drop (length chunks2) (log rf))).
  assert (lg ≡ₑ log rf) as Hlg.
  { subst lg. unfold log_equiv. rewrite fmap_app, fill_idem, <-fmap_app. by rewrite take_drop. }
  assert (zlen lg = zlen (log rf)) as Hlen by (unfold zlen; by rewrite (log_equiv_length _ _ Hlg)).
  cbn [set_log log CurrentTerm VotedFor lastIncludedIndex lastIncludedTerm].
  unfold putPersistHeaderFields. rewrite Hs3.
  rewrite bool_decide_false by (unfold persistHeaderSize, zlen; rewrite length_app; lia).
  rewrite drop_app_length' by done. rewrite Hlen.
  change (persist_header _ _ _ _ _ ++ concat (enc_entry <$> log rf)) with (full_encode rf).
  eexists lg, _. split; [reflexivity|]. split_and!; try done.
  - split_and!; try done.
    exists (persist_header (CurrentTerm rf) (VotedFor rf) (lastIncludedIndex rf)
      (lastIncludedTerm rf) (zlen (log rf))). split; [apply length_persist_header|done].
  - cbn. destruct Hsq2 as (_ & _ & E1 & _), Hsq3 as (_ & _ & E2 & _). congruence.
  - cbn. destruct Hsq2 as (_ & _ & _ & E1), Hsq3 as (_ & _ & _ & E2). congruence.
Qed.

(** ** Requests *)

(** The bytes the persister holds after a request: a full save replaces them,
    a delta is applied to them. *)
Definition apply_req (d : bytes) (req : disk_req) : option bytes :=
  match req with
  | ReqSave st _ => Some st
  | ReqAppend p => let '(st, ok) := applyRaftAppendPayload d p in if ok then Some st else None
  | ReqHard _ => Some d
  end.

(** The fields of a delta payload, read back at their offsets. *)
Lemma payload_fields m L N h n rest :
  let p := le_put 4 m ++ le_put 8 L ++ le_put 8 N ++ le_put 4 h ++ le_put 4 n ++ rest in
  u_at 0 4 p = m `mod` 2^32 ∧ u_at 4 12 p = L `mod` 2^64 ∧ u_at 12 20 p = N `mod` 2^64 ∧
  u_at 20 24 p = h `mod` 2^32 ∧ u_at 24 28 p = n `mod` 2^32 ∧ drop 28 p = rest ∧
  length p = (28 + length rest)%nat.
Proof.
  cbv zeta. split_and!.
  - by apply (u_at_app 0 4 4 m []).
  - by apply (u_at_app 4 12 8 L (le_put 4 m)).
  - rewrite (app_assoc (le_put 4 m)). by apply (u_at_app 12 20 8 N).
  - rewrite (app_assoc (le_put 4 m)), (app_assoc (le_put 4 m ++ _)). by apply (u_at_app 20 24 4 h).
  - rewrite (app_assoc (le_put 4 m)), (app_assoc (le_put 4 m ++ _)), (app_assoc ((le_put 4 m ++ _) ++ _)).
    by apply (u_at_app 24 28 4 n).
  - rewrite !app_assoc. apply drop_app_length'. by rewrite !length_app, !length_le_put.
  - rewrite !length_app, !length_le_put. lia.
Qed.

(** A delta from [hdr ++ body] to [hdr' ++ body ++ delta] is applied exactly. *)
Lemma payload_applies hdr hdr' body delta :
  length hdr = 44%nat → length hdr' = 44%nat →
  zlen (hdr' ++ body ++ delta) < 2^32 →
  ∃ p, buildPersistAppendPayload (hdr' ++ body ++ delta) (zlen (hdr ++ body)) = Some p ∧
    applyRaftAppendPayload (hdr ++ body) p = (hdr' ++ body ++ delta, true).
Proof.
  intros Hh Hh' Hlen. unfold zlen in Hlen. rewrite !length_app in Hlen.
  unfold buildPersistAppendPayload, canUsePersistAppend.
  rewrite !bool_decide_false, bool_decide_true
    by (unfold persistHeaderSize, zlen; rewrite ?length_app; lia).
  cbn [negb]. eexists. split; [reflexivity|].
  assert (drop (Z.to_nat (zlen (hdr ++ body))) (hdr' ++ body ++ delta) = delta) as ->.
  { unfold zlen. rewrite Nat2Z.id, app_assoc. apply drop_app_length'.
    rewrite !length_app. lia. }
  rewrite take_app_length' by done.
  set (L := zlen (hdr ++ body)). set (N := zlen (hdr' ++ body ++ delta)).
  assert (0 ≤ L < 2^32) as HL by (subst L; unfold zlen; rewrite length_app; lia).
  assert (N = L + zlen delta) as HN.
  { subst L N. unfold zlen. rewrite !length_app. lia. }
  assert (0 ≤ N < 2^32) by (subst N; unfold zlen; rewrite !length_app; lia).
  assert (0 ≤ zlen delta < 2^32) as Hdl by (unfold zlen; lia).
  destruct (payload_fields persistAppendPayloadMagic (wrapU64 L) (wrapU64 N) persistHeaderSize
    (zlen delta) (hdr' ++ delta)) as (F1 & F2 & F3 & F4 & F5 & Hd28 & Hlp).
  unfold wrapU64 in F2, F3. rewrite Z.mod_mod in F2, F3 by done. rewrite Z.mod_small in F5 by done.
  unfold applyRaftAppendPayload. set (p := le_put 4 _ ++ _) in *. clearbody p.
  change (u_at 0 4 p = raftAppendPayloadMagic) in F1. change (u_at 20 24 p = 44) in F4.
  change (u_at 4 12 p = wrapU64 L) in F2. change (u_at 12 20 p = wrapU64 N) in F3.
  rewrite length_app, Hh' in Hlp. rewrite F1, F2, F3, F4, F5.
  rewrite bool_decide_false by (unfold raftAppendPayloadHeaderSize; lia).
  rewrite !wrapS64_U64 by (unfold isS64; lia). cbn [negb].
  rewrite (bool_decide_true (raftAppendPayloadMagic = _)) by done. cbn [negb].
  rewrite (bool_decide_true (L = _)) by done. cbn [negb].
  rewrite !(bool_decide_false (44 ≤ 0)), (bool_decide_false (L < 44)), (bool_decide_false (zlen delta < 0))
    by (subst L; unfold zlen; rewrite ?length_app; lia).
  cbn [orb]. rewrite (bool_decide_true (28 + 44 + zlen delta = _)) by (unfold zlen; lia). cbn [negb].
  rewrite (bool_decide_true (N = L + zlen delta)) by done. cbn [negb].
  change (Z.to_nat 44) with 44%nat. unfold slice.
  change (28 + 44 - 28)%nat with 44%nat. rewrite <-drop_drop, Hd28.
  rewrite take_app_length', drop_app_length', drop_app_length' by done.
  case_bool_decide as E0.
  - unfold zlen in E0. destruct delta; [by rewrite app_nil_r|simpl in E0; lia].
  - rewrite <-app_assoc. by rewrite bool_decide_true.
Qed.

Lemma enqueue_spec rf d snapshot :
  persist_inv rf d → Forall entry_wf (log rf) → zlen (full_encode rf) < 2^32 →
  ∃ lg pc req, enqueuePersistLocked snapshot rf =
      Some (set_cache pc (set_log lg rf), Some req, zlen (full_encode rf), zlen (log rf)) ∧
    lg ≡ₑ log rf ∧ apply_req d req = Some (full_encode rf) ∧
    (is_Some snapshot → req = ReqSave (full_encode rf) snapshot) ∧
    cache_inv pc (log rf) ∧ queue_inv pc (log rf) (full_encode rf).
Proof.
  intros [Hc Hq] Hwf Hlen. unfold enqueuePersistLocked. cbv zeta.
  destruct (encode_spec rf Hc Hwf) as (lg & pc & -> & Hlg & Hb & Hd & Hq1 & Hq2).
  cbn [mbind option_bind set_cache set_log cache log].
  assert (zlen lg = zlen (log rf)) as Hz by (unfold zlen; by rewrite (log_equiv_length _ _ Hlg)).
  rewrite Hz.
  set (pc' := markPersistQueuedLocked (zlen (full_encode rf)) (zlen (log rf)) pc).
  assert (cache_inv pc' (log rf) ∧ queue_inv pc' (log rf) (full_encode rf)) as [Hc' Hq'].
  { split.
    - split; [cbn; rewrite Hd; unfold zlen; lia|]. split; [cbn; rewrite (proj1 Hb); done|].
      intros _. exists (enc_entry <$> log rf).
      split; [done|]. apply prefix_take.
    - right. split; [apply Hb|]. cbn [pc' markPersistQueuedLocked persistQueuedLen
        persistQueuedLogCount persistDirtyFrom].
      rewrite !Z.max_l by (unfold zlen; lia). split; [done|].
      eexists _, (enc_entry <$> log rf). split_and!;
        [apply length_persist_header|reflexivity|unfold zlen; by rewrite length_fmap|apply prefix_take]. }
  assert (∀ sn, apply_req d (ReqSave (full_encode rf) sn) = Some (full_encode rf)) as Hsave by done.
  case_match eqn:Happ.
  2: { exists lg, pc', (ReqSave (full_encode rf) snapshot). by split_and!. }
  unfold canPersistAppendLocked in Happ. destruct snapshot; [done|].
  cbn [set_cache set_log cache log] in Happ. rewrite Hq1, Hq2, Hz in Happ.
  destruct (negb (persistReady pc)); [done|].
  case_bool_decide as Hn1; [done|]. case_bool_decide as Hn2; [done|].
  destruct Hq as [Hq0|(Hrdy & HqL & hdr & chunks & Hh & -> & HqC & Hpre)].
  { rewrite Hq0 in Happ. done. }
  rewrite take_ge in Hpre by (unfold zlen in *; lia). destruct Hpre as [r Hr].
  assert (full_encode rf = persist_header (CurrentTerm rf) (VotedFor rf) (lastIncludedIndex rf)
    (lastIncludedTerm rf) (zlen (log rf)) ++ concat chunks ++ concat r) as Hfull.
  { unfold full_encode. by rewrite Hr, concat_app. }
  rewrite Hfull in Hlen.
  destruct (payload_applies hdr (persist_header (CurrentTerm rf) (VotedFor rf) (lastIncludedIndex rf)
    (lastIncludedTerm rf) (zlen (log rf))) (concat chunks) (concat r) Hh (length_persist_header _ _ _ _ _) Hlen)
    as (p & Hp & Hap).
  rewrite <-Hfull in Hp, Hap. rewrite Hq1, HqL, Hp.
  exists lg, pc', (ReqAppend p). split_and!; try done.
  cbn [apply_req]. by rewrite Hap.
Qed.

(** ** Reading back *)

Lemma readInt64LE_app pre v post :
  isS64 v → readInt64LE (pre ++ le_put 8 (wrapU64 v) ++ post) (zlen pre) = Some (v, zlen pre + 8).
Proof.
  intros Hv. unfold readInt64LE.
  rewrite !bool_decide_false by (unfold zlen; rewrite ?length_app, ?length_le_put; lia).
  cbn [orb]. unfold zlen at 1 2. rewrite Nat2Z.id.
  rewrite (slice_mid (length pre)) by (rewrite ?length_le_put; lia).
  by rewrite le_get_put8_signed.
Qed.

Lemma read_entries_spec es : ∀ pre post,
  Forall entry_wf es →
  read_entries (length es) (pre ++ concat (enc_entry <$> es) ++ post) (zlen pre) =
    Some (fill <$> es, ends_from (zlen pre) (enc_entry <$> es),
          zlen pre + zlen (concat (enc_entry <$> es))).
Proof.
  induction es as [|e es IH]; intros pre post Hwf.
  { cbn. unfold zlen at 3. simpl. by rewrite Z.add_0_r. }
  apply Forall_cons in Hwf as [(Ht & Hl & He & Hd) Hwf].
  rewrite !fmap_cons. cbn [length read_entries concat ends_from].
  set (b := entry_data e) in *.
  set (rest := concat (enc_entry <$> es)).
  assert (enc_entry e = le_put 8 (wrapU64 (le_Term e)) ++ le_put 8 (wrapU64 (zlen b)) ++ b) as He1 by done.
  assert (zlen (enc_entry e) = 16 + zlen b) as Hzl.
  { rewrite He1. unfold zlen. rewrite !length_app, !length_le_put. lia. }
  assert (0 ≤ zlen b) by (unfold zlen; lia).
  assert (pre ++ (enc_entry e ++ rest) ++ post =
    pre ++ le_put 8 (wrapU64 (le_Term e)) ++ (le_put 8 (wrapU64 (zlen b)) ++ b ++ rest ++ post)) as E1.
  { rewrite He1, <-!app_assoc. done. }
  rewrite E1, readInt64LE_app by done. cbn [mbind option_bind].
  assert (zlen pre + 8 = zlen (pre ++ le_put 8 (wrapU64 (le_Term e)))) as E2.
  { unfold zlen. rewrite length_app, length_le_put. lia. }
  rewrite E2, app_assoc, readInt64LE_app by (unfold isS64; lia). cbn [mbind option_bind].
  assert (zlen (pre ++ le_put 8 (wrapU64 (le_Term e))) + 8 =
          zlen ((pre ++ le_put 8 (wrapU64 (le_Term e))) ++ le_put 8 (wrapU64 (zlen b)))) as E3.
  { unfold zlen. rewrite !length_app, !length_le_put. lia. }
  rewrite E3, app_assoc. set (pre' := (pre ++ _) ++ _).
  rewrite !bool_decide_false by (unfold zlen; rewrite ?length_app; lia). cbn [orb].
  rewrite (slice_mid (Z.to_nat (zlen pre')) (Z.to_nat (zlen pre' + zlen b)) pre' b) by (unfold zlen; lia).
  rewrite Hd. cbn [mbind option_bind].
  assert (zlen pre' + zlen b = zlen (pre' ++ b)) as E4 by (unfold zlen; rewrite length_app; lia).
  rewrite E4, app_assoc. subst rest. rewrite IH by done. cbn [mbind option_bind].
  assert (zlen (pre' ++ b) = zlen pre + zlen (enc_entry e)) as E5.
  { rewrite Hzl. subst pre'. unfold zlen. rewrite !length_app, !length_le_put. lia. }
  rewrite E5.
  replace (zlen pre + zlen (enc_entry e ++ concat (enc_entry <$> es)))
    with (zlen pre + zlen (enc_entry e) + zlen (concat (enc_entry <$> es)))
    by (unfold zlen; rewrite length_app; lia).
  done.
Qed.

(** The integers of the header fit [int64]. *)
Definition meta_wf rf : Prop :=
  isS64 (CurrentTerm rf) ∧ isS64 (VotedFor rf) ∧ isS64 (lastIncludedIndex rf) ∧
  isS64 (lastIncludedTerm rf).

Lemma header_field_at a k pre z post :
  length pre = a → isS64 z → k = 8%nat →
  header_field a (pre ++ le_put k (wrapU64 z) ++ post) = z.
Proof.
  intros <- Hz ->. unfold header_field.
  rewrite (slice_mid (length pre)) by (rewrite ?length_le_put; lia). by apply le_get_put8_signed.
Qed.

Lemma header_fields a b c d k body :
  isS64 a → isS64 b → isS64 c → isS64 d → isS64 k →
  let data := persist_header a b c d k ++ body in
  le_get (slice 0 4 data) = persistFormatMagic ∧ header_field 4 data = a ∧
  header_field 12 data = b ∧ header_field 20 data = c ∧ header_field 28 data = d ∧
  header_field 36 data = k.
Proof.
  intros ????? data. subst data. unfold persist_header. rewrite <-!app_assoc.
  set (m := le_put 4 persistFormatMagic). split_and!.
  - rewrite slice_prefix by done. by apply le_get_put4.
  - by apply header_field_at.
  - rewrite (app_assoc m). by apply header_field_at.
  - rewrite 2!app_assoc. by apply header_field_at.
  - rewrite 3!app_assoc. by apply header_field_at.
  - rewrite 4!app_assoc. by apply header_field_at.
Qed.

(** Reading the encoding of a node gives its persistent fields. *)
Lemma read_full rf rf0 :
  meta_wf rf → Forall entry_wf (log rf) → log rf ≠ [] → zlen (full_encode rf) < 2^32 →
  ∃ pc, readPersistBinary (full_encode rf) rf0 =
    Some (set_lastIncludedTerm (lastIncludedTerm rf) (set_lastIncludedIndex (lastIncludedIndex rf)
      (set_log (fill <$> log rf) (set_VotedFor (VotedFor rf)
        (set_CurrentTerm (CurrentTerm rf) (set_cache pc rf0)))))) ∧
    cache_inv pc (log rf) ∧ queue_inv pc (log rf) (full_encode rf).
Proof.
  intros (H1 & H2 & H3 & H4) Hwf Hne Hlen. unfold readPersistBinary.
  assert (zlen (log rf) < 2^32) as Hll.
  { unfold full_encode, zlen in *. rewrite length_app in Hlen.
    enough (length (log rf) ≤ length (concat (enc_entry <$> log rf)))%nat by lia.
    generalize (log rf). intros l. induction l as [|e l IH]; [done|].
    rewrite fmap_cons. cbn [concat length]. rewrite length_app. unfold enc_entry at 1.
    rewrite !length_app, !length_le_put. lia. }
  destruct (header_fields (CurrentTerm rf) (VotedFor rf) (lastIncludedIndex rf)
    (lastIncludedTerm rf) (zlen (log rf)) (concat (enc_entry <$> log rf)))
    as (E0 & E1 & E2 & E3 & E4 & E5); try done; [unfold isS64, zlen in *; lia|].
  change (persist_header _ _ _ _ _ ++ concat (enc_entry <$> log rf)) with (full_encode rf) in *.
  assert (zlen (full_encode rf) = 44 + zlen (concat (enc_entry <$> log rf))) as Hz.
  { unfold full_encode, zlen. rewrite length_app, length_persist_header. lia. }
  rewrite bool_decide_false by (rewrite Hz; unfold persistHeaderSize, zlen; lia).
  rewrite E0, E1, E2, E3, E4, E5. rewrite bool_decide_true by done. cbn [negb].
  rewrite bool_decide_false by (unfold zlen; lia).
  replace (Z.to_nat (zlen (log rf))) with (length (log rf)) by (unfold zlen; lia).
  pose proof (read_entries_spec (log rf) (persist_header (CurrentTerm rf) (VotedFor rf)
    (lastIncludedIndex rf) (lastIncludedTerm rf) (zlen (log rf))) [] Hwf) as Hread.
  rewrite app_nil_r in Hread. fold (full_encode rf) in Hread.
  replace (zlen (persist_header (CurrentTerm rf) (VotedFor rf) (lastIncludedIndex rf)
    (lastIncludedTerm rf) (zlen (log rf)))) with persistHeaderSize in Hread
    by (unfold zlen at 1; by rewrite length_persist_header).
  rewrite Hread. cbn [mbind option_bind].
  rewrite bool_decide_true by (rewrite Hz; unfold persistHeaderSize, zlen; lia). cbn [negb].
  rewrite bool_decide_false by (by destruct (log rf)).
  eexists. split; [reflexivity|].
  replace (zlen (fill <$> log rf)) with (zlen (log rf)) by (unfold zlen; by rewrite length_fmap).
  split.
  - split; [cbn; unfold zlen; lia|]. split; [done|]. intros _. exists (enc_entry <$> log rf). split.
    + split_and!; try done; [cbn; unfold zlen; by rewrite length_fmap|].
      eexists. split; [apply length_persist_header|reflexivity].
    + apply prefix_take.
  - right. split_and!; try done. eexists _, (enc_entry <$> log rf).
    split_and!; [apply length_persist_header|reflexivity| |apply prefix_take].
    cbn. unfold zlen. by rewrite length_fmap.
Qed.

(** ** Changing the log *)

Lemma take_prefix_enc k p (chunks : list bytes) (es es' : list (LogEntry Cmd)) :
  (k ≤ p)%nat → (p ≤ length es)%nat → take p es' = take p es →
  take k chunks `prefix_of` (enc_entry <$> es) → take k chunks `prefix_of` (enc_entry <$> es').
Proof.
  intros Hk Hp He Hpre.
  assert (take k (enc_entry <$> es) = take k (enc_entry <$> es')) as Ht.
  { rewrite <-!fmap_take. f_equal. apply (f_equal (take k)) in He.
    by rewrite !take_take, !Nat.min_l in He by lia. }
  assert (take k chunks `prefix_of` take k (enc_entry <$> es)) as Hpre'.
  { destruct Hpre as [r Hr]. rewrite Hr. exists (take (k - length (take k chunks)) r).
    rewrite take_app. f_equal. rewrite take_take. by rewrite Nat.min_id. }
  rewrite Ht in Hpre'. etrans; [done|]. apply prefix_take.
Qed.

(** The log may be replaced by one that agrees with it on the first [p]
    entries, when the cache is marked dirty from a position not above [p]. *)
Lemma relog_inv pc pc' (es es' : list (LogEntry Cmd)) d p :
  cache_inv pc es → queue_inv pc es d →
  (p ≤ length es)%nat → (p ≤ length es')%nat → take p es' = take p es →
  0 ≤ persistDirtyFrom pc' ≤ Z.of_nat p → persistDirtyFrom pc' ≤ persistDirtyFrom pc →
  (∃ q, pc' = with_dirty q pc) →
  cache_inv pc' es' ∧ queue_inv pc' es' d.
Proof.
  intros (Hd & Hnr & Hc) Hq Hp Hp' He Hd' Hle [q ->]. cbn [with_dirty persistDirtyFrom] in *.
  assert (∀ chunks : list bytes, take (Z.to_nat (persistDirtyFrom pc)) chunks `prefix_of` (enc_entry <$> es) →
    take (Z.to_nat q) chunks `prefix_of` (enc_entry <$> es')) as Hpre.
  { intros chunks Hch. apply (take_prefix_enc _ p chunks es es'); [lia|done|done|].
    etrans; [|done]. replace (take (Z.to_nat q) chunks)
      with (take (Z.to_nat q) (take (Z.to_nat (persistDirtyFrom pc)) chunks))
      by (rewrite take_take; f_equal; lia).
    apply prefix_take. }
  split.
  - split_and!; cbn [with_dirty persistDirtyFrom persistReady]; [lia|unfold zlen; lia| |].
    + intros Hr. specialize (Hnr Hr). lia.
    + intros Hr. destruct (Hc Hr) as (chunks & Hb & Hch). exists chunks. split; [done|].
      by apply Hpre.
  - destruct Hq as [Hq|(Hr & HqL & hdr & chunks & ? & ? & ? & Hch)]; [by left|right].
    split_and!; try done. exists hdr, chunks. split_and!; try done. by apply Hpre.
Qed.

(** Marking, then replacing the log. *)
Lemma mark_relog rf es' d p :
  persist_inv rf d → (p ≤ length (log rf))%nat → (p ≤ length es')%nat →
  take p es' = take p (log rf) →
  persist_inv (set_log es' (markPersistDirtyFromLocked (Z.of_nat p) rf)) d.
Proof.
  intros [Hc Hq] Hp Hp' He. unfold persist_inv, markPersistDirtyFromLocked.
  pose proof Hc as (Hd & Hnr & _).
  assert (∃ q, with_dirty (persistDirtyFrom (cache rf)) (cache rf) = with_dirty q (cache rf)) as Hself
    by (by eexists).
  assert (cache rf = with_dirty (persistDirtyFrom (cache rf)) (cache rf)) as Hwd by (by destruct (cache rf)).
  destruct (persistReady (cache rf)) eqn:Hr; cbn [negb].
  - rewrite Z.max_l by lia.
    rewrite (bool_decide_false (zlen (log rf) < Z.of_nat p)) by (unfold zlen; lia).
    case_bool_decide; cbn [set_cache set_log cache log].
    + eapply (relog_inv (cache rf) _ (log rf) es' d p); try done; simpl; try lia. by eexists.
    + eapply (relog_inv (cache rf) _ (log rf) es' d p); try done; simpl; try lia. by eexists.
  - specialize (Hnr eq_refl). cbn [set_log cache log].
    eapply (relog_inv (cache rf) _ (log rf) es' d p); try done; simpl; try lia. by eexists.
Qed.

(** Replacing the log, then marking everything dirty. *)
Lemma relog_mark rf es' d :
  persist_inv rf d → persist_inv (markPersistDirtyFromLocked 0 (set_log es' rf)) d.
Proof.
  intros [Hc Hq]. unfold persist_inv, markPersistDirtyFromLocked. cbn [set_log cache log].
  pose proof Hc as (Hd & Hnr & _).
  assert (cache rf = with_dirty (persistDirtyFrom (cache rf)) (cache rf)) as Hwd by (by destruct (cache rf)).
  destruct (persistReady (cache rf)) eqn:Hr; cbn [negb].
  - rewrite Z.max_l by lia. rewrite (bool_decide_false (zlen es' < 0)) by (unfold zlen; lia).
    case_bool_decide; cbn [set_cache set_log cache log];
      apply (relog_inv (cache rf) _ (log rf) es' d 0); try done; simpl; try lia; by eexists.
  - specialize (Hnr eq_refl). cbn [set_log cache log].
    apply (relog_inv (cache rf) _ (log rf) es' d 0); try done; simpl; try lia. by eexists.
Qed.

(** [commitPersistResult] leaves what matters of the cache. *)
Lemma commitPersist_inv sl lc rf d : persist_inv rf d → persist_inv (commitPersistResult sl lc rf) d.
Proof.
  intros [(Hd & Hnr & Hc) Hq]. unfold commitPersistResult. case_bool_decide; [|by split].
  split; [|exact Hq]. split_and!; [apply Hd|apply Hd|done|exact Hc].
Qed.

End props.
