(* ===== verification/Raft.v ===== *)
(** * Raft: the handlers of a Raft node (src/pkg/raft/raft.go)

    One definition per critical section of the code (the code between taking
    and releasing [rf.mu]).  A handler returns the node, its reply and the
    requests it made to the persister, in order; a reply is sent after the
    requests have completed, and an error of the persister ends the process.
    [None] is a panic.  [now] is the value of [time.Now()] in nanoseconds.

    A remote call is split at the call: the section that builds the arguments
    ([heartbeat_prepare], [startElection]) and the section that handles the
    reply ([handleAppendReply], [handleInstallReply], [handleVoteResponse]). *)
From stdpp Require Import prelude.
From S2P Require Import Prelude Gob RaftState.
From stdpp Require Import options.
Local Open Scope Z_scope.

(** ** Messages *)

Record RequestVoteArgs := { rv_Term : Z; rv_CandidateId : Z; rv_LastLogIndex : Z; rv_LastLogTerm : Z }.
Record RequestVoteReply := { rvr_Term : Z; rvr_VoteGranted : bool }.

Record AppendEntriesArgs (Cmd : Type) := mkAE {
  ae_Term : Z; ae_LeaderId : Z; ae_PrevLogIndex : Z; ae_PrevLogTerm : Z;
  ae_Entries : list (LogEntry Cmd); ae_LeaderCommit : Z;
}.
Arguments mkAE {_} _ _ _ _ _ _.
Arguments ae_Term {_} _.
Arguments ae_LeaderId {_} _.
Arguments ae_PrevLogIndex {_} _.
Arguments ae_PrevLogTerm {_} _.
Arguments ae_Entries {_} _.
Arguments ae_LeaderCommit {_} _.
Record AppendEntriesReply := {
  aer_Term : Z; aer_Success : bool; aer_ConflictTerm : Z; aer_ConflictIndex : Z;
}.

Record InstallSnapshotArgs := {
  is_Term : Z; is_LeaderId : Z; is_LastIncludedIndex : Z; is_LastIncludedTerm : Z; is_Data : bytes;
}.

(** What is sent on [applyCh]. *)
Inductive ApplyMsg (Cmd : Type) :=
  | ApplyCommand (command : option Cmd) (index : Z)
  | ApplySnapshot (data : bytes) (term index : Z).
Arguments ApplyCommand {_} _ _.
Arguments ApplySnapshot {_} _ _ _.

Section raft.
Context {Cmd : Type} `{GobCommand Cmd}.
Implicit Types rf : Raft Cmd.

(** ** Roles, timers and leases *)

Definition setStateLocked (s : role) rf : Raft Cmd := set_state s rf.
Definition setLeaseUntilLocked (t : Z) rf : Raft Cmd := set_leaseUntil t rf.
Definition resetElectionTimer (now : Z) rf : Raft Cmd := set_lastHeard now rf.

Definition ms : Z := 1000000.

Definition leaseDurationLocked rf : Z :=
  let leaseDur := leaseRaw rf in
  let maxLease := electionTimeout rf - 20 * ms in
  let maxLease := if bool_decide (maxLease ≤ 0) then electionTimeout rf `quot` 2 else maxLease in
  let maxLease := if bool_decide (maxLease ≤ 0) then 100 * ms else maxLease in
  let leaseDur := if bool_decide (maxLease < leaseDur) then maxLease else leaseDur in
  if bool_decide (leaseDur ≤ 0) then 100 * ms else leaseDur.

Definition IsLeaderWithLease (now : Z) rf : bool :=
  if dead rf then false
  else if negb (bool_decide (state rf = Leader)) then false
  else bool_decide (now < leaseUntil rf).

Definition Kill rf : Raft Cmd := set_dead true rf.

Definition SyncAppliedIndex (index : Z) rf : Raft Cmd :=
  let index := if bool_decide (index < lastIncludedIndex rf) then lastIncludedIndex rf else index in
  let index := if bool_decide (getLastLogIndex rf < index) then getLastLogIndex rf else index in
  let rf := if bool_decide (CommitIndex rf < index) then set_CommitIndex index rf else rf in
  if bool_decide (LastApplied rf < index) then set_LastApplied index rf else rf.

(** Synchronous [persist]: the request, or [None] when encoding failed and the
    process exits. *)
Definition persist (snapshot : option bytes) rf : option (Raft Cmd * option disk_req) :=
  '(rf, req, stateLen, logCount) ← enqueuePersistLocked snapshot rf;
  Some (commitPersistResult stateLen logCount rf, req).

(** ** Votes *)

Definition RequestVote (now : Z) (args : RequestVoteArgs) rf
    : option (Raft Cmd * RequestVoteReply * list disk_req) :=
  if bool_decide (rv_Term args < CurrentTerm rf)
  then Some (rf, {| rvr_Term := CurrentTerm rf; rvr_VoteGranted := false |}, [])
  else
    let persistNeeded := bool_decide (CurrentTerm rf < rv_Term args) in
    let rf := if persistNeeded
              then set_VotedFor (-1) (setStateLocked Follower (set_CurrentTerm (rv_Term args) rf))
              else rf in
    lastTerm ← getLastLogTerm rf;
    if bool_decide (rv_LastLogTerm args < lastTerm) ||
       (bool_decide (rv_LastLogTerm args = lastTerm) &&
        bool_decide (rv_LastLogIndex args < getLastLogIndex rf))
    then Some (rf, {| rvr_Term := CurrentTerm rf; rvr_VoteGranted := false |},
               if persistNeeded then [enqueuePersistHardStateLocked rf] else [])
    else
      let granted := bool_decide (VotedFor rf = -1) || bool_decide (VotedFor rf = rv_CandidateId args) in
      let rf := if granted then set_VotedFor (rv_CandidateId args) rf else rf in
      let persistNeeded := persistNeeded || granted in
      let reply := {| rvr_Term := CurrentTerm rf; rvr_VoteGranted := granted |} in
      let rf := if granted then resetElectionTimer now rf else rf in
      Some (rf, reply, if persistNeeded then [enqueuePersistHardStateLocked rf] else []).

(** ** Replication: the follower *)

(** The search for the first index of the conflicting term. *)
Fixpoint conflict_first (fuel : nat) rf (conflictTerm index : Z) : option Z :=
  match fuel with
  | O => Some index
  | S fuel =>
      if bool_decide (lastIncludedIndex rf < index) then
        t ← getTerm rf (index - 1);
        if bool_decide (t = conflictTerm) then conflict_first fuel rf conflictTerm (index - 1)
        else Some index
      else Some index
  end.

(** Step 6: the number of entries that are there already, the node with the
    conflicting suffix removed, and whether something was removed. *)
Fixpoint remove_conflicts (es : list (LogEntry Cmd)) (index : Z) (i : nat) rf
    : option (nat * Raft Cmd * bool) :=
  match es with
  | [] => Some (i, rf, false)
  | e :: es =>
      if bool_decide (getLastLogIndex rf < index) then Some (i, rf, false)
      else
        t ← getTerm rf index;
        if bool_decide (t = le_Term e) then remove_conflicts es (index + 1) (S i) rf
        else
          let cut := Z.max (index - lastIncludedIndex rf) 1 in
          if bool_decide (cut < zlen (log rf)) then
            let rf := markPersistDirtyFromLocked cut rf in
            lg ← ztake cut (log rf);
            Some (i, set_log lg rf, true)
          else Some (i, rf, false)
  end.

Definition encode_if_possible (e : LogEntry Cmd) : LogEntry Cmd :=
  default e (ensureEntryCommandEncoded e).

(** The result of the locked part of [AppendEntries]; [aeo_persist] is the
    outcome of [enqueuePersistLocked] when it was called: the request ([None]
    when encoding failed), [persistStateLen] and [persistLogCount]. *)
Record AppendEntries_out := mkAEO {
  aeo_rf : Raft Cmd;
  aeo_reply : AppendEntriesReply;
  aeo_hard : list disk_req;
  aeo_persist : option (option disk_req * Z * Z);
}.

Definition AppendEntries (now : Z) (args : AppendEntriesArgs Cmd) rf : option AppendEntries_out :=
  let hardReq (needed : bool) rf := if needed then [enqueuePersistHardStateLocked rf] else [] in
  (* step 1 *)
  if bool_decide (ae_Term args < CurrentTerm rf)
  then Some (mkAEO rf {| aer_Term := CurrentTerm rf; aer_Success := false;
                         aer_ConflictTerm := 0; aer_ConflictIndex := 0 |} [] None)
  else
    (* step 2 *)
    let hardPersistNeeded := bool_decide (CurrentTerm rf < ae_Term args) in
    let rf := if hardPersistNeeded then set_VotedFor (-1) (set_CurrentTerm (ae_Term args) rf)
              else rf in
    let rf := setStateLocked Follower rf in
    (* step 3 *)
    let rf := resetElectionTimer now rf in
    let fail ct ci := Some (mkAEO rf {| aer_Term := CurrentTerm rf; aer_Success := false;
                                        aer_ConflictTerm := ct; aer_ConflictIndex := ci |}
                              (hardReq hardPersistNeeded rf) None) in
    (* step 4 *)
    if bool_decide (getLastLogIndex rf < ae_PrevLogIndex args)
    then fail (-1) (getLastLogIndex rf + 1)
    (* step 5 *)
    else if bool_decide (ae_PrevLogIndex args < lastIncludedIndex rf)
    then fail (-1) (lastIncludedIndex rf + 1)
    else
      prevTerm ← getTerm rf (ae_PrevLogIndex args);
      if negb (bool_decide (prevTerm = ae_PrevLogTerm args)) then
        ci ← conflict_first (Z.to_nat (ae_PrevLogIndex args - lastIncludedIndex rf)) rf
               prevTerm (ae_PrevLogIndex args);
        fail prevTerm ci
      else
        (* steps 6 and 7 *)
        '(i, rf, removed) ← remove_conflicts (ae_Entries args) (ae_PrevLogIndex args + 1) 0 rf;
        let appended := bool_decide (i < length (ae_Entries args))%nat in
        let rf := if appended then
                    let rf := markPersistDirtyFromLocked (zlen (log rf)) rf in
                    set_log (log rf ++ (encode_if_possible <$> drop i (ae_Entries args))) rf
                  else rf in
        '(rf, hard, pers) ←
          (if removed || appended then
             '(rf, req, stateLen, logCount) ← enqueuePersistLocked None rf;
             Some (rf, [], Some (req, stateLen, logCount))
           else Some (rf, hardReq hardPersistNeeded rf, None));
        (* step 8 *)
        let rf := if bool_decide (CommitIndex rf < ae_LeaderCommit args)
                  then set_CommitIndex (Z.min (ae_LeaderCommit args) (getLastLogIndex rf)) rf
                  else rf in
        Some (mkAEO rf {| aer_Term := CurrentTerm rf; aer_Success := true;
                          aer_ConflictTerm := 0; aer_ConflictIndex := 0 |} hard pers).

(** The part of [AppendEntries] after the persister has answered without an
    error ([finalize]). *)
Definition AppendEntries_finalize (stateLen logCount : Z) rf : Raft Cmd :=
  let rf := if bool_decide (0 ≤ logCount) then
              let coveredIndex := lastIncludedIndex rf + logCount - 1 in
              if bool_decide (persistedIndex rf < coveredIndex)
              then set_persistedIndex coveredIndex rf else rf
            else rf in
  commitPersistResult stateLen logCount rf.

(** ** Proposals *)

(** [Start]: the node, the result (index, term, leader) and, for a leader, the
    request and the arguments of [completePersistAsync]. *)
Definition Start (command : Cmd) rf
    : option (Raft Cmd * (Z * Z * bool) * option (option disk_req * Z * Z * Z)) :=
  if negb (bool_decide (state rf = Leader)) then Some (rf, (-1, CurrentTerm rf, false), None)
  else
    let index := getLastLogIndex rf + 1 in
    let term := CurrentTerm rf in
    let entry := mkEntry term (Some command) [] in
    let rf := markPersistDirtyFromLocked (zlen (log rf)) rf in
    let rf := set_log (log rf ++ [encode_if_possible entry]) rf in
    '(rf, req, stateLen, logCount) ← enqueuePersistLocked None rf;
    let coveredIndex := lastIncludedIndex rf + logCount - 1 in
    Some (rf, (index, term, true), Some (req, stateLen, logCount, coveredIndex)).

Definition completePersistAsync (stateLen logCount coveredIndex : Z) rf : Raft Cmd :=
  let rf := if bool_decide (persistedIndex rf < coveredIndex)
            then set_persistedIndex coveredIndex rf else rf in
  commitPersistResult stateLen logCount rf.

(** ** Snapshots *)

Definition Snapshot (index : Z) (snapshot : option bytes) rf : option (Raft Cmd * option (option disk_req)) :=
  if bool_decide (index ≤ lastIncludedIndex rf) then Some (rf, None)
  else if bool_decide (CommitIndex rf < index) then Some (rf, None)
  else
    let offset := index - lastIncludedIndex rf in
    e ← zget (log rf) offset;
    let lastTerm := le_Term e in
    rest ← (if bool_decide (offset + 1 < zlen (log rf)) then zdrop (offset + 1) (log rf) else Some []);
    let rf := set_log (mkEntry lastTerm None [] :: rest) rf in
    let rf := markPersistDirtyFromLocked 0 rf in
    let rf := set_lastIncludedTerm lastTerm (set_lastIncludedIndex index rf) in
    let rf := if bool_decide (LastApplied rf < index) then set_LastApplied index rf else rf in
    '(rf, req) ← persist snapshot rf;
    let rf := if bool_decide (persistedIndex rf < index) then set_persistedIndex index rf else rf in
    Some (rf, Some req).

(** An empty slice that has travelled in a gob message is nil. *)
Definition nil_if_empty (data : bytes) : option bytes :=
  if bool_decide (data = []) then None else Some data.

(** [InstallSnapshot]: the node, [reply.Term], the requests (a save that could
    not be encoded is [None]) and the message for the state machine. *)
Definition InstallSnapshot (now : Z) (args : InstallSnapshotArgs) rf
    : option (Raft Cmd * Z * list (option disk_req) * list (ApplyMsg Cmd)) :=
  let replyTerm := CurrentTerm rf in
  if bool_decide (is_Term args < CurrentTerm rf) then Some (rf, replyTerm, [], [])
  else
    let newer := bool_decide (CurrentTerm rf < is_Term args) in
    let rf := if newer
              then setLeaseUntilLocked 0 (setStateLocked Follower
                     (set_VotedFor (-1) (set_CurrentTerm (is_Term args) rf)))
              else rf in
    let hard := if newer then [Some (enqueuePersistHardStateLocked rf)] else [] in
    let rf := resetElectionTimer now rf in
    if bool_decide (is_LastIncludedIndex args ≤ lastIncludedIndex rf)
    then Some (rf, replyTerm, hard, [])
    else
      same ← (if bool_decide (is_LastIncludedIndex args ≤ getLastLogIndex rf)
              then t ← getTerm rf (is_LastIncludedIndex args);
                   Some (bool_decide (t = is_LastIncludedTerm args))
              else Some false);
      lg ← (if same : bool then
              let offset := is_LastIncludedIndex args - lastIncludedIndex rf in
              rest ← (if bool_decide (offset + 1 < zlen (log rf)) then zdrop (offset + 1) (log rf)
                      else Some []);
              Some (mkEntry (is_LastIncludedTerm args) None [] :: rest)
            else Some [mkEntry (is_LastIncludedTerm args) None []]);
      let rf := markPersistDirtyFromLocked 0 (set_log lg rf) in
      let rf := set_lastIncludedTerm (is_LastIncludedTerm args)
                  (set_lastIncludedIndex (is_LastIncludedIndex args) rf) in
      let rf := set_CommitIndex (Z.max (CommitIndex rf) (lastIncludedIndex rf)) rf in
      let rf := set_LastApplied (Z.max (LastApplied rf) (lastIncludedIndex rf)) rf in
      '(rf, req) ← persist (nil_if_empty (is_Data args)) rf;
      let rf := if bool_decide (persistedIndex rf < lastIncludedIndex rf)
                then set_persistedIndex (lastIncludedIndex rf) rf else rf in
      Some (rf, replyTerm, hard ++ [req],
            [ApplySnapshot (is_Data args) (lastIncludedTerm rf) (lastIncludedIndex rf)]).

(** ** Replication: the leader *)

Inductive heartbeat :=
  | SendNothing
  | SendInstall (args : InstallSnapshotArgs)
  | SendAppend (args : AppendEntriesArgs Cmd).

(** What [sendHeartbeats] sends to [server]; [snapshotData] is the result of
    [ReadSnapshot]. *)
Definition heartbeat_prepare (server : Z) (snapshotData : bytes) rf : option (Raft Cmd * heartbeat) :=
  next ← zget (nextIndex rf) server;
  if bool_decide (next ≤ lastIncludedIndex rf) then
    if bool_decide (snapshotData = []) then
      ni ← zset (nextIndex rf) server (lastIncludedIndex rf + 1);
      Some (set_nextIndex ni rf, SendNothing)
    else Some (rf, SendInstall {| is_Term := CurrentTerm rf; is_LeaderId := me rf;
                                  is_LastIncludedIndex := lastIncludedIndex rf;
                                  is_LastIncludedTerm := lastIncludedTerm rf;
                                  is_Data := snapshotData |})
  else
    let prevIndex := Z.max (next - 1) 0 in
    prevTerm ← (if bool_decide (prevIndex = lastIncludedIndex rf) then Some (lastIncludedTerm rf)
                else le_Term <$> zget (log rf) (prevIndex - lastIncludedIndex rf));
    let start := Z.max (next - lastIncludedIndex rf) 0 in
    entries ← zdrop start (log rf);
    Some (rf, SendAppend {| ae_Term := CurrentTerm rf; ae_LeaderId := me rf;
                            ae_PrevLogIndex := prevIndex; ae_PrevLogTerm := prevTerm;
                            ae_Entries := entries; ae_LeaderCommit := CommitIndex rf |}).

Definition stepDown (term : Z) rf : Raft Cmd :=
  set_VotedFor (-1) (setLeaseUntilLocked 0 (setStateLocked Follower (set_CurrentTerm term rf))).

Definition handleInstallReply (server : Z) (replyTerm : Z) rf : option (Raft Cmd * list disk_req) :=
  if bool_decide (CurrentTerm rf < replyTerm)
  then let rf := stepDown replyTerm rf in Some (rf, [enqueuePersistHardStateLocked rf])
  else
    ni ← zset (nextIndex rf) server (lastIncludedIndex rf + 1);
    mi ← zset (matchIndex rf) server (lastIncludedIndex rf);
    Some (set_matchIndex mi (set_nextIndex ni rf), []).

(** The last position of the leader's log with the term, searched from the
    end. *)
Definition last_of_term (t : Z) rf : option nat :=
  last (filter (λ i, le_Term <$> (log rf !! i) = Some t) (seq 0 (length (log rf)))).

(** Votes for index [N]: the leader's own only when it is on its disk. *)
Definition commit_count rf (N : Z) : Z :=
  (if bool_decide (N ≤ persistedIndex rf) then 1 else 0) +
  zlen (filter (λ i, Z.of_nat i ≠ me rf ∧ N ≤ default 0 (matchIndex rf !! i)) (seq 0 (peers rf))).

(** The loop over [N] from the last index down. *)
Fixpoint advance_loop (fuel : nat) rf (N : Z) : option (Raft Cmd) :=
  match fuel with
  | O => Some rf
  | S fuel =>
      if bool_decide (CommitIndex rf < N) && bool_decide (1 ≤ N) then
        if bool_decide (N = lastIncludedIndex rf) then advance_loop fuel rf (N - 1)
        else
          e ← zget (log rf) (N - lastIncludedIndex rf);
          if negb (bool_decide (le_Term e = CurrentTerm rf)) then advance_loop fuel rf (N - 1)
          else if bool_decide (Z.of_nat (peers rf) `quot` 2 < commit_count rf N)
               then Some (set_CommitIndex N rf)
               else advance_loop fuel rf (N - 1)
      else Some rf
  end.

Definition advanceCommit rf : option (Raft Cmd) :=
  advance_loop (Z.to_nat (getLastLogIndex rf - CommitIndex rf)) rf (getLastLogIndex rf).

(** The handling of the reply to [args]: the node, the new value of the
    round's [successCount] and the requests. *)
Definition handleAppendReply (now : Z) (server : Z) (args : AppendEntriesArgs Cmd)
    (reply : AppendEntriesReply) (successCount : Z) rf
    : option (Raft Cmd * Z * list disk_req) :=
  if negb (bool_decide (state rf = Leader)) || negb (bool_decide (ae_Term args = CurrentTerm rf))
  then Some (rf, successCount, [])
  else if bool_decide (CurrentTerm rf < aer_Term reply)
  then let rf := stepDown (aer_Term reply) rf in
       Some (rf, successCount, [enqueuePersistHardStateLocked rf])
  else
    '(rf, successCount) ←
      (if aer_Success reply then
         let m := ae_PrevLogIndex args + zlen (ae_Entries args) in
         mi ← zset (matchIndex rf) server m;
         ni ← zset (nextIndex rf) server (m + 1);
         let rf := set_nextIndex ni (set_matchIndex mi rf) in
         let n := successCount + 1 in
         let rf := if bool_decide (Z.of_nat (peers rf) `quot` 2 < n)
                   then setLeaseUntilLocked (now + leaseDurationLocked rf) rf else rf in
         Some (rf, n)
       else
         let next :=
           if bool_decide (aer_ConflictTerm reply = -1) then aer_ConflictIndex reply
           else match last_of_term (aer_ConflictTerm reply) rf with
                | Some i => if bool_decide (lastIncludedIndex rf + Z.of_nat i = -1)
                            then aer_ConflictIndex reply
                            else lastIncludedIndex rf + Z.of_nat i + 1
                | None => aer_ConflictIndex reply
                end in
         let next := if bool_decide (next < 1) then 1 else next in
         ni ← zset (nextIndex rf) server next;
         Some (set_nextIndex ni rf, successCount));
    rf ← advanceCommit rf;
    Some (rf, successCount, []).

(** ** Elections *)

Definition becomeLeader (now : Z) rf : option (Raft Cmd) :=
  let rf := setStateLocked Leader rf in
  let rf := setLeaseUntilLocked (now + leaseDurationLocked rf) rf in
  let rf := set_nextIndex (replicate (peers rf) (getLastLogIndex rf + 1)) rf in
  mi ← zset (replicate (peers rf) 0) (me rf) (getLastLogIndex rf);
  Some (set_matchIndex mi rf).

Definition handleVoteResponse (now : Z) (reply : RequestVoteReply) rf
    : option (Raft Cmd * list disk_req) :=
  if bool_decide (CurrentTerm rf < rvr_Term reply)
  then let rf := stepDown (rvr_Term reply) rf in Some (rf, [enqueuePersistHardStateLocked rf])
  else if bool_decide (rvr_Term reply < CurrentTerm rf) then Some (rf, [])
  else if negb (bool_decide (state rf = Candidate)) then Some (rf, [])
  else if rvr_VoteGranted reply then
    let rf := set_Votes (Votes rf + 1) rf in
    if bool_decide (Z.of_nat (peers rf) `quot` 2 < Votes rf)
    then rf ← becomeLeader now rf; Some (rf, [])
    else Some (rf, [])
  else Some (rf, []).

(** [startElection]: the node, the arguments sent to every other peer and the
    request, which completes before they are sent. *)
Definition startElection (now : Z) rf : option (Raft Cmd * RequestVoteArgs * disk_req) :=
  let rf := setLeaseUntilLocked 0 (setStateLocked Candidate rf) in
  let rf := set_VotedFor (me rf) (set_CurrentTerm (CurrentTerm rf + 1) rf) in
  let req := enqueuePersistHardStateLocked rf in
  let rf := resetElectionTimer now (set_Votes 1 rf) in
  rf ← (if bool_decide (Z.of_nat (peers rf) `quot` 2 < Votes rf) then becomeLeader now rf
        else Some rf);
  lastTerm ← getLastLogTerm rf;
  Some (rf, {| rv_Term := CurrentTerm rf; rv_CandidateId := me rf;
               rv_LastLogIndex := getLastLogIndex rf; rv_LastLogTerm := lastTerm |}, req).

(** The test of [ticker]. *)
Definition ticker_needStart (now : Z) rf : bool :=
  negb (bool_decide (state rf = Leader)) && bool_decide (electionTimeout rf < now - lastHeard rf).

(** ** Applying *)

(** The loop of [applier] under the lock: the node and the messages. *)
Fixpoint applier_loop (fuel : nat) rf : Raft Cmd * list (ApplyMsg Cmd) :=
  match fuel with
  | O => (rf, [])
  | S fuel =>
      if bool_decide (LastApplied rf < CommitIndex rf) &&
         bool_decide (LastApplied rf < persistedIndex rf) then
        let rf' := set_LastApplied (LastApplied rf + 1) rf in
        let index := LastApplied rf' in
        if bool_decide (index ≤ lastIncludedIndex rf') then applier_loop fuel rf'
        else
          let pos := index - lastIncludedIndex rf' in
          match (if bool_decide (pos < 1) then None else zget (log rf') pos) with
          | None => (rf, [])                    (* LastApplied--; break *)
          | Some e => let '(rf'', msgs) := applier_loop fuel rf' in
                      (rf'', ApplyCommand (le_Command e) index :: msgs)
          end
      else (rf, [])
  end.

Definition applier_batch rf : Raft Cmd * list (ApplyMsg Cmd) :=
  applier_loop (Z.to_nat (CommitIndex rf - LastApplied rf)) rf.

(** ** Creation *)

(** [Make]: [timeout] is the random election timeout and [ratio] the product
    of the heartbeat interval and the lease ratio; the last two arguments are
    what [ReadRaftState] and [ReadHardState] return. *)
Definition Make (npeers : nat) (self timeout now ratio : Z) (raftstate hardstate : bytes) : Raft Cmd :=
  let rf := mkRaft self npeers false 0 Follower timeout now 0 (-1) [mkEntry 0 None []] 0 0 0
              (replicate npeers 0) (replicate npeers 0) ratio now 0 0
              (mkCache [] [] 0 0 false 0 0 0 0) in
  let rf := readHardState hardstate (readPersist raftstate rf) in
  let rf := set_LastApplied (lastIncludedIndex rf) (set_CommitIndex (lastIncludedIndex rf) rf) in
  set_persistedIndex (lastIncludedIndex rf + zlen (log rf) - 1) rf.

(** ** Everything that can happen to a node *)

Inductive raft_event :=
  | EvRequestVote (now : Z) (args : RequestVoteArgs)
  | EvAppendEntries (now : Z) (args : AppendEntriesArgs Cmd)
  | EvFinalize (stateLen logCount : Z)
  | EvStart (command : Cmd)
  | EvPersisted (stateLen logCount coveredIndex : Z)
  | EvSnapshot (index : Z) (snapshot : option bytes)
  | EvInstallSnapshot (now : Z) (args : InstallSnapshotArgs)
  | EvHeartbeat (server : Z) (snapshotData : bytes)
  | EvInstallReply (server : Z) (replyTerm : Z)
  | EvAppendReply (now server : Z) (args : AppendEntriesArgs Cmd) (reply : AppendEntriesReply)
      (successCount : Z)
  | EvVoteResponse (now : Z) (reply : RequestVoteReply)
  | EvElection (now : Z)
  | EvApply
  | EvSyncApplied (index : Z)
  | EvKill.

(** The critical section of an event: the node and the requests made, in
    order ([None] for a request that could not be encoded). *)
Definition raft_exec (ev : raft_event) rf : option (Raft Cmd * list (option disk_req)) :=
  match ev with
  | EvRequestVote now args =>
      match RequestVote now args rf with
      | Some (rf, _, reqs) => Some (rf, Some <$> reqs) | None => None
      end
  | EvAppendEntries now args =>
      match AppendEntries now args rf with
      | Some o => Some (aeo_rf o, (Some <$> aeo_hard o) ++
                    match aeo_persist o with Some (req, _, _) => [req] | None => [] end)
      | None => None
      end
  | EvFinalize sl lc => Some (AppendEntries_finalize sl lc rf, [])
  | EvStart c =>
      match Start c rf with
      | Some (rf, _, pers) =>
          Some (rf, match pers with Some (req, _, _, _) => [req] | None => [] end)
      | None => None
      end
  | EvPersisted sl lc ci => Some (completePersistAsync sl lc ci rf, [])
  | EvSnapshot i sn =>
      match Snapshot i sn rf with
      | Some (rf, req) => Some (rf, match req with Some r => [r] | None => [] end)
      | None => None
      end
  | EvInstallSnapshot now args =>
      match InstallSnapshot now args rf with
      | Some (rf, _, reqs, _) => Some (rf, reqs) | None => None
      end
  | EvHeartbeat s d =>
      match heartbeat_prepare s d rf with Some (rf, _) => Some (rf, []) | None => None end
  | EvInstallReply s t =>
      match handleInstallReply s t rf with
      | Some (rf, reqs) => Some (rf, Some <$> reqs) | None => None
      end
  | EvAppendReply now s args r n =>
      match handleAppendReply now s args r n rf with
      | Some (rf, _, reqs) => Some (rf, Some <$> reqs) | None => None
      end
  | EvVoteResponse now r =>
      match handleVoteResponse now r rf with
      | Some (rf, reqs) => Some (rf, Some <$> reqs) | None => None
      end
  | EvElection now =>
      match startElection now rf with Some (rf, _, req) => Some (rf, [Some req]) | None => None end
  | EvApply => Some ((applier_batch rf).1, [])
  | EvSyncApplied i => Some (SyncAppliedIndex i rf, [])
  | EvKill => Some (Kill rf, [])
  end.

End raft.
Arguments raft_event _ : clear implicits.
Arguments heartbeat _ : clear implicits.
Arguments AppendEntries_out _ : clear implicits.
