(* ===== verification/RaftLemmas.v ===== *)
(** * RaftLemmas: what the building blocks of the Raft handlers do

    Frame lemmas for the persistence calls, the specification of the
    follower's log merge, and lemmas on log lookup that the properties share.
    The log is seen through [keys]: the term and the command of each entry,
    without the cache of the encoded command. *)
From stdpp Require Import prelude.
From S2P Require Import Prelude Gob RaftState Raft.
From stdpp Require Import options.
Local Open Scope Z_scope.

Section lemmas.
Context {Cmd : Type} `{GobCommand Cmd}.
Implicit Types rf : Raft Cmd.
Implicit Types e : LogEntry Cmd.

Definition key e : Z * option Cmd := (le_Term e, le_Command e).
Definition keys (es : list (LogEntry Cmd)) : list (Z * option Cmd) := key <$> es.

Lemma length_keys es : length (keys es) = length es.
Proof. apply length_fmap. Qed.

Lemma keys_length l1 l2 : keys l1 = keys l2 → length l1 = length l2.
Proof. intros E. by rewrite <-(length_keys l1), E, length_keys. Qed.

Lemma keys_terms l1 l2 : keys l1 = keys l2 → le_Term <$> l1 = le_Term <$> l2.
Proof.
  intros E. apply (f_equal (fmap fst)) in E. unfold keys in E. by rewrite <-!list_fmap_compose in E.
Qed.

Lemma keys_lookup l1 l2 i : keys l1 = keys l2 → key <$> l1 !! i = key <$> l2 !! i.
Proof. intros E. rewrite <-!list_lookup_fmap. fold (keys l1) (keys l2). by rewrite E. Qed.

Lemma some_bind {A B} (x : A) (f : A → option B) : Some x ≫= f = f x.
Proof. done. Qed.

(** ** Frames *)

Lemma ensure_key e e' : ensureEntryCommandEncoded e = Some e' → key e' = key e.
Proof.
  unfold ensureEntryCommandEncoded. intros E. case_match; simplify_eq; [done|].
  by destruct (encodeCommandToBytes (le_Command e)); simplify_eq.
Qed.
Lemma encode_if_possible_key e : key (encode_if_possible e) = key e.
Proof.
  unfold encode_if_possible. destruct (ensureEntryCommandEncoded e) eqn:E; [|done].
  by apply ensure_key in E.
Qed.
Lemma keys_encode_if_possible es : keys (encode_if_possible <$> es) = keys es.
Proof.
  unfold keys. rewrite <-list_fmap_compose. apply list_fmap_ext. intros.
  apply encode_if_possible_key.
Qed.

Lemma append_entries_keys es : ∀ pc ok es' pc',
  append_entries es pc = (ok, es', pc') → keys es' = keys es.
Proof.
  induction es as [|e es IH]; intros pc ok es' pc' E; simpl in E; [by simplify_eq|].
  unfold appendPersistEntryLocked in E.
  destruct (ensureEntryCommandEncoded e) as [e'|] eqn:Ee; [|by simplify_eq].
  destruct (append_entries es _) as [[ok0 es0] pc0] eqn:Er. simplify_eq.
  unfold keys. rewrite !fmap_cons. f_equal; [by apply ensure_key|]. by eapply IH.
Qed.

Lemma encode_frame rf rf' st :
  encodePersistentStateIncrementalLocked rf = Some (rf', st) →
  ∃ lg pc, rf' = set_cache pc (set_log lg rf) ∧ keys lg = keys (log rf).
Proof.
  unfold encodePersistentStateIncrementalLocked. cbv zeta. intros E.
  repeat (apply bind_Some in E as (? & ? & E)).
  destruct (append_entries _ _) as [[ok rest'] pc'] eqn:Er.
  apply append_entries_keys in Er.
  match goal with Hz : zdrop _ _ = Some _ |- _ => unfold zdrop in Hz; case_bool_decide; [|done] end.
  simplify_eq. rewrite length_drop in E.
  match type of E with context [set_log ?l rf] => set (lg := l) in E end.
  exists lg. assert (keys lg = keys (log rf)) as Hk.
  { subst lg. unfold keys in *. rewrite fmap_app, Er, <-fmap_app. f_equal.
    set (k := Z.to_nat _).
    replace (length (log rf) - (length (log rf) - k))%nat with (Nat.min k (length (log rf))) by lia.
    replace (take (k `min` length (log rf)) (log rf)) with (take k (log rf)); [by rewrite take_drop|].
    destruct (decide (k ≤ length (log rf))%nat); [by rewrite Nat.min_l by lia|].
    by rewrite !take_ge by lia. }
  repeat case_match; simplify_eq; eexists; by split.
Qed.

Lemma enqueue_frame snapshot rf rf' req sl lc :
  enqueuePersistLocked snapshot rf = Some (rf', req, sl, lc) →
  ∃ lg pc, rf' = set_cache pc (set_log lg rf) ∧ keys lg = keys (log rf) ∧
    (lc = zlen (log rf) ∨ lc = -1).
Proof.
  unfold enqueuePersistLocked. cbv zeta. intros E.
  apply bind_Some in E as ([rf1 st] & E1 & E).
  apply encode_frame in E1 as (lg & pc & -> & Hk). exists lg.
  assert (zlen lg = zlen (log rf)) as Hz by (unfold zlen; by rewrite (keys_length _ _ Hk)).
  repeat case_match; simplify_eq; eexists; split_and!; try done; simpl; auto.
Qed.

Lemma persist_frame snapshot rf rf' req :
  persist snapshot rf = Some (rf', req) →
  ∃ lg pc, rf' = set_cache pc (set_log lg rf) ∧ keys lg = keys (log rf).
Proof.
  unfold persist. intros E. apply bind_Some in E as ([[[rf1 r] sl] lc] & E1 & E). simplify_eq.
  apply enqueue_frame in E1 as (lg & pc & -> & Hk & _). exists lg.
  unfold commitPersistResult. case_bool_decide; eexists; by split.
Qed.

Lemma mark_dirty_frame pos rf : ∃ pc, markPersistDirtyFromLocked pos rf = set_cache pc rf.
Proof.
  unfold markPersistDirtyFromLocked. exists (cache (markPersistDirtyFromLocked pos rf)).
  unfold markPersistDirtyFromLocked. repeat case_match; try done; by destruct rf.
Qed.

(** ** Log lookup *)

Lemma getTerm_inside rf i :
  lastIncludedIndex rf < i →
  getTerm rf i = le_Term <$> log rf !! Z.to_nat (i - lastIncludedIndex rf).
Proof.
  intros Hi. unfold getTerm, zget. rewrite !bool_decide_false by lia. done.
Qed.

Lemma getTerm_is_Some rf i : i ≤ getLastLogIndex rf → is_Some (getTerm rf i).
Proof.
  intros Hi. unfold getTerm, zget. case_bool_decide; [by eexists|].
  rewrite bool_decide_false by lia. apply fmap_is_Some. apply lookup_lt_is_Some.
  unfold getLastLogIndex, zlen in Hi. lia.
Qed.

(** ** The merge rule of the follower *)

(** The reference definition of steps 6 and 7: keep what agrees, replace from
    the first disagreement on, and keep a longer log that agrees. *)
Fixpoint merge_suffix (s es : list (Z * option Cmd)) {struct es} : list (Z * option Cmd) :=
  match es with
  | [] => s
  | e :: es' =>
      match s with
      | [] => e :: es'
      | x :: s' => if bool_decide (x.1 = e.1) then x :: merge_suffix s' es' else e :: es'
      end
  end.

(** The outcome of [remove_conflicts] from position [pos] of the log: [k]
    entries of [es] were found, the log is now [lg], and, followed by the
    entries that were not found, it is the merge. *)
Definition conflicts_removed (pos : nat) es rf (k : nat) lg pc (removed : bool) : Prop :=
  (k ≤ length es)%nat ∧
  (removed = false → lg = log rf ∧ set_cache pc rf = rf) ∧
  (removed = true → (k < length es)%nat ∧ lg = take (pos + k) (log rf) ∧
     (pos + k < length (log rf))%nat ∧
     set_cache pc rf = markPersistDirtyFromLocked (Z.of_nat (pos + k)) rf) ∧
  ((pos ≤ length (log rf))%nat →
   keys (take pos (log rf)) ++ merge_suffix (keys (drop pos (log rf))) (keys es) =
     keys lg ++ keys (drop k es)) ∧
  ((k < length es)%nat → removed = true ∨ (length (log rf) ≤ pos + k)%nat) ∧
  (removed = true → ∃ x e, log rf !! (pos + k)%nat = Some x ∧ es !! k = Some e ∧
     le_Term x ≠ le_Term e).

Lemma conflicts_none pos es rf :
  es = [] ∨ (length (log rf) ≤ pos)%nat → conflicts_removed pos es rf 0 (log rf) (cache rf) false.
Proof.
  intros Hstop. split_and!; try done.
  - lia.
  - intros _. split; [done|]. by destruct rf.
  - intros Hle. rewrite drop_0. destruct Hstop as [->|Hge].
    + change (merge_suffix (keys (drop pos (log rf))) (keys [])) with (keys (drop pos (log rf))).
      change (keys []) with (@nil (Z * option Cmd)).
      rewrite app_nil_r. unfold keys. by rewrite <-fmap_app, take_drop.
    + rewrite take_ge, (drop_ge (log rf)) by lia. by destruct es.
  - destruct Hstop as [->|]; simpl; [lia|]. right. lia.
Qed.

Lemma conflicts_keep pos e es rf x k lg pc removed :
  log rf !! pos = Some x → le_Term x = le_Term e →
  conflicts_removed (S pos) es rf k lg pc removed →
  conflicts_removed pos (e :: es) rf (S k) lg pc removed.
Proof.
  intros Hx Ht (Hk & Hf & Hr & Hm & Hend & Hdiff). unfold conflicts_removed.
  replace (pos + S k)%nat with (S pos + k)%nat by lia. cbn [length].
  split_and!; try done; try lia.
  - intros Hrem. destruct (Hr Hrem) as (? & -> & ? & ?). split_and!; try done. lia.
  - apply lookup_lt_Some in Hx as Hlt. intros Hle. unfold keys at 2. rewrite (drop_S _ x) by done.
    rewrite fmap_cons. change (keys (e :: es)) with (key e :: keys es).
    cbn [merge_suffix key fst]. rewrite bool_decide_true by done.
    cbn [drop]. rewrite <-Hm by lia. rewrite (take_S_r _ _ x) by done.
    unfold keys. rewrite fmap_app, <-app_assoc. done.
  - intros ?. apply Hend. lia.
Qed.

Lemma conflicts_cut pos e es rf x pc :
  log rf !! pos = Some x → le_Term x ≠ le_Term e →
  markPersistDirtyFromLocked (Z.of_nat pos) rf = set_cache pc rf →
  conflicts_removed pos (e :: es) rf 0 (take pos (log rf)) pc true.
Proof.
  intros Hx Ht Hpc. apply lookup_lt_Some in Hx as Hlt. unfold conflicts_removed.
  rewrite !Nat.add_0_r. cbn [length]. split_and!; try done; try lia.
  - intros _. split_and!; try done. lia.
  - intros _. unfold keys at 2. rewrite (drop_S _ x) by done. rewrite fmap_cons.
    change (keys (e :: es)) with (key e :: keys es).
    cbn [merge_suffix key fst]. by rewrite bool_decide_false by done.
  - intros _. by exists x, e.
Qed.

Lemma remove_conflicts_spec es : ∀ pos i rf,
  (1 ≤ pos)%nat →
  ∃ k lg pc removed,
    remove_conflicts es (lastIncludedIndex rf + Z.of_nat pos) i rf =
      Some ((i + k)%nat, set_cache pc (set_log lg rf), removed) ∧
    conflicts_removed pos es rf k lg pc removed.
Proof.
  assert (∀ rf, set_cache (cache rf) (set_log (log rf) rf) = rf) as Hid by (by intros []).
  induction es as [|e es IH]; intros pos i rf Hpos; cbn [remove_conflicts].
  { exists 0%nat, (log rf), (cache rf), false. rewrite Nat.add_0_r, Hid.
    split; [done|]. apply conflicts_none. by left. }
  case_bool_decide as Hlast; unfold getLastLogIndex, zlen in Hlast.
  { exists 0%nat, (log rf), (cache rf), false. rewrite Nat.add_0_r, Hid.
    split; [done|]. apply conflicts_none. right. lia. }
  rewrite getTerm_inside by lia.
  replace (Z.to_nat (lastIncludedIndex rf + Z.of_nat pos - lastIncludedIndex rf)) with pos by lia.
  destruct (log rf !! pos) as [x|] eqn:Hx; [|apply lookup_ge_None in Hx; lia].
  cbn [fmap option_fmap option_map mbind option_bind]. case_bool_decide as Ht.
  - destruct (IH (S pos) (S i) rf) as (k & lg & pc & removed & E & Hc); [lia|].
    replace (lastIncludedIndex rf + Z.of_nat pos + 1)
      with (lastIncludedIndex rf + Z.of_nat (S pos)) by lia.
    exists (S k), lg, pc, removed. rewrite E. split; [|by eapply conflicts_keep].
    f_equal. f_equal. f_equal. lia.
  - replace (lastIncludedIndex rf + Z.of_nat pos - lastIncludedIndex rf) with (Z.of_nat pos) by lia.
    rewrite Z.max_l by lia. unfold zlen. rewrite bool_decide_true by lia.
    destruct (mark_dirty_frame (Z.of_nat pos) rf) as [pc Hpc]. rewrite Hpc.
    cbn [set_cache log]. unfold ztake. rewrite bool_decide_true by lia.
    cbn [mbind option_bind]. rewrite Nat2Z.id.
    exists 0%nat, (take pos (log rf)), pc, true. rewrite Nat.add_0_r.
    split; [done|]. by eapply conflicts_cut.
Qed.

End lemmas.
