(* ===== verification/RaftNode.v ===== *)
(** * RaftNode: what raft promises to the layer above (src/pkg/raft/types.go)

    [raft.Node] is the interface through which the replicated state machine uses
    a raft node.  [Node] has its operations (less [PersistBytes], which asks the
    persister), [NodeLaws] what they promise, and the instance shows that the
    node of raft.go keeps the promise.  The rounds of [leaderLoop] and
    [sendHeartbeats] are here too. *)
From stdpp Require Import prelude.
From S2P Require Import Prelude Gob RaftState Raft RaftLemmas.
From stdpp Require Import options.
Local Open Scope Z_scope.

Section accessors.
Context {Cmd : Type} `{GobCommand Cmd}.
Implicit Types rf : Raft Cmd.

Definition GetState rf : Z * bool := (CurrentTerm rf, bool_decide (state rf = Leader)).
Definition GetLastApplied rf : Z := LastApplied rf.
Definition GetLastIncludedIndex rf : Z := lastIncludedIndex rf.
Definition killed rf : bool := dead rf.

(** The peers [sendHeartbeats] starts a goroutine for. *)
Definition sendHeartbeats rf : list Z :=
  if negb (bool_decide (state rf = Leader)) then []
  else filter (λ i, i ≠ me rf) (Z.of_nat <$> seq 0 (peers rf)).

(** One round of [leaderLoop] after a tick or a trigger: [None] ends the loop. *)
Definition leaderLoop_round rf : option (list Z) :=
  if killed rf then None
  else if negb (bool_decide (state rf = Leader)) then None
  else Some (sendHeartbeats rf).
End accessors.

(** ** The interface *)

Class Node (N Cmd : Type) := {
  node_Start : Cmd → N → option (N * (Z * Z * bool));
  node_GetState : N → Z * bool;
  node_GetLastApplied : N → Z;
  node_Snapshot : Z → option bytes → N → option N;
  node_GetLastIncludedIndex : N → Z;
  node_SyncAppliedIndex : Z → N → N;
  node_Kill : N → N }.

(** A node is left alone by an operation, as far as the layer above can tell. *)
Definition same_node {N Cmd} `{!Node N Cmd} (n n' : N) : Prop :=
  node_GetState n' = node_GetState n ∧ node_GetLastApplied n' = node_GetLastApplied n ∧
  node_GetLastIncludedIndex n' = node_GetLastIncludedIndex n.

Class NodeLaws (N Cmd : Type) `{!Node N Cmd} := {
  (** Only a leader accepts a command, at its term, and its state is unchanged otherwise. *)
  start_refused c n : (node_GetState n).2 = false → node_Start c n = Some (n, (-1, (node_GetState n).1, false));
  start_accepted c n n' i tm ok : (node_GetState n).2 = true → node_Start c n = Some (n', (i, tm, ok)) →
    ok = true ∧ tm = (node_GetState n).1 ∧ same_node n n';
  (** Two commands accepted one after the other get consecutive indexes. *)
  start_next c c' n n' n'' i i' tm tm' : node_Start c n = Some (n', (i, tm, true)) →
    node_Start c' n' = Some (n'', (i', tm', true)) → i' = i + 1;
  (** A snapshot moves the covered index to the one given or not at all, and
      never makes it or the applied index smaller. *)
  snapshot_covers i s n n' : node_Snapshot i s n = Some n' →
    node_GetState n' = node_GetState n ∧
    ((n' = n ∧ same_node n n') ∨
     (node_GetLastIncludedIndex n < i ∧ node_GetLastIncludedIndex n' = i ∧
      node_GetLastApplied n' = Z.max (node_GetLastApplied n) i));
  (** Aligning the applied index raises it at most to the one given or the one covered. *)
  sync_raises i n : let n' := node_SyncAppliedIndex i n in
    node_GetState n' = node_GetState n ∧ node_GetLastIncludedIndex n' = node_GetLastIncludedIndex n ∧
    node_GetLastApplied n ≤ node_GetLastApplied n' ≤
      Z.max (node_GetLastApplied n) (Z.max i (node_GetLastIncludedIndex n));
  sync_again i n : node_SyncAppliedIndex i (node_SyncAppliedIndex i n) = node_SyncAppliedIndex i n;
  kill_same n : same_node n (node_Kill n) }.

Section instance.
Context {Cmd : Type} `{GobCommand Cmd}.
Implicit Types rf : Raft Cmd.

#[global] Instance raft_node : Node (Raft Cmd) Cmd := {|
  node_Start c rf := '(rf, r, _) ← Start c rf; Some (rf, r);
  node_GetState := GetState;
  node_GetLastApplied := GetLastApplied;
  node_Snapshot i s rf := '(rf, _) ← Snapshot i s rf; Some rf;
  node_GetLastIncludedIndex := GetLastIncludedIndex;
  node_SyncAppliedIndex := SyncAppliedIndex;
  node_Kill := Kill |}.

Lemma Start_leader c rf rf' r p : state rf = Leader → Start c rf = Some (rf', r, p) →
  r = (getLastLogIndex rf + 1, CurrentTerm rf, true) ∧
  ∃ lg pc, rf' = set_cache pc (set_log lg rf) ∧ length lg = S (length (log rf)).
Proof.
  intros Hl. unfold Start. rewrite bool_decide_true by done. cbn [negb]. cbv zeta. intros E.
  apply bind_Some in E as ([[[rf1 req] sl] lc] & E1 & E). injection E as <- <- _. split; [done|].
  apply enqueue_frame in E1 as (lg & pc & -> & Hk & _). apply keys_length in Hk. cbn in Hk.
  destruct (mark_dirty_frame (zlen (log rf)) rf) as [pc0 E0]. rewrite E0 in Hk |- *. rewrite length_app in Hk. cbn in Hk.
  exists lg, pc. split; [done|]. lia.
Qed.

Lemma Snapshot_frame i s rf rf' r : Snapshot i s rf = Some (rf', r) → rf' = rf ∨
  (lastIncludedIndex rf < i ∧ lastIncludedIndex rf' = i ∧ LastApplied rf' = Z.max (LastApplied rf) i ∧
   CurrentTerm rf' = CurrentTerm rf ∧ state rf' = state rf).
Proof.
  unfold Snapshot. case_bool_decide as Hi; [intros [= <- _]; by left|]. case_bool_decide; [intros [= <- _]; by left|]. cbv zeta. intros E.
  apply bind_Some in E as (e & _ & E). apply bind_Some in E as (rest & _ & E). apply bind_Some in E as ([rf1 req] & E1 & E).
  injection E as <- _. right. apply persist_frame in E1 as (lg & pc & -> & _).
  destruct (mark_dirty_frame 0 (set_log (mkEntry (le_Term e) None [] :: rest) rf)) as [pc0 E0]. rewrite E0.
  repeat case_bool_decide; cbn in *; (split_and!; [lia|done|lia|done|done]).
Qed.

(** The index [SyncAppliedIndex] aims at, and what it does with it. *)
Definition sync_index (i : Z) rf : Z :=
  let i := if bool_decide (i < lastIncludedIndex rf) then lastIncludedIndex rf else i in
  if bool_decide (getLastLogIndex rf < i) then getLastLogIndex rf else i.
Definition raise_applied (j : Z) rf : Raft Cmd :=
  let rf := if bool_decide (CommitIndex rf < j) then set_CommitIndex j rf else rf in
  if bool_decide (LastApplied rf < j) then set_LastApplied j rf else rf.
Lemma SyncAppliedIndex_raise i rf : SyncAppliedIndex i rf = raise_applied (sync_index i rf) rf.
Proof. done. Qed.
Lemma raise_again j rf : raise_applied j (raise_applied j rf) = raise_applied j rf.
Proof. unfold raise_applied. repeat (case_bool_decide; cbn in *); try done; lia. Qed.
Lemma sync_index_raise i j rf : sync_index i (raise_applied j rf) = sync_index i rf.
Proof. unfold raise_applied. by repeat case_bool_decide. Qed.

#[global] Instance raft_node_laws : NodeLaws (Raft Cmd) Cmd.
Proof.
  split.
  - intros c rf Hs. cbn in *. apply bool_decide_eq_false in Hs. unfold Start. by rewrite bool_decide_false.
  - intros c rf rf' i tm ok Hs E. cbn in *. apply bool_decide_eq_true in Hs. apply bind_Some in E as ([[rf1 r] p] & E1 & [= <- ->]).
    apply Start_leader in E1 as [[= -> -> ->] (lg & pc & -> & _)]; [|done]. by split_and!.
  - intros c c' rf rf' rf'' i i' tm tm' E E'. cbn in *. apply bind_Some in E as ([[rf1 r] p] & E1 & [= <- ->]).
    apply bind_Some in E' as ([[rf2 r'] p'] & E2 & [= <- ->]).
    assert (state rf = Leader) as Hl by (unfold Start in E1; case_bool_decide; [done|by simplify_eq/=]).
    apply Start_leader in E1 as [[= -> ->] (lg & pc & -> & Hlen)]; [|done].
    apply Start_leader in E2 as [[= -> ->] _]; [|done]. unfold getLastLogIndex, zlen. cbn. rewrite Hlen. lia.
  - intros i s rf rf' E. cbn in *. apply bind_Some in E as ([rf1 r] & E1 & [= <-]).
    apply Snapshot_frame in E1 as [->|(H1 & H2 & H3 & H4 & H5)]; [by split; [|left]|].
    split; [unfold GetState; by rewrite H4, H5|by right].
  - intros i rf. cbn. unfold SyncAppliedIndex, GetLastApplied, GetLastIncludedIndex, GetState.
    repeat case_bool_decide; cbn in *; split_and!; try done; lia.
  - intros i rf. cbn. rewrite !SyncAppliedIndex_raise, sync_index_raise. apply raise_again.
  - intros rf. by split_and!.
Qed.
End instance.

(** ** A client of the interface *)

(** A run of accepted commands: the node and the indexes they were given. *)
Fixpoint accepts {N Cmd} `{!Node N Cmd} (cs : list Cmd) (n : N) : option (N * list Z) :=
  match cs with
  | [] => Some (n, [])
  | c :: cs =>
      match node_Start c n with
      | Some (n, (i, _, true)) => match accepts cs n with Some (n, idxs) => Some (n, i :: idxs) | None => None end
      | _ => None
      end
  end.

(** Commands that a node accepts one after the other get consecutive indexes, so
    that the index under which the layer above waits for a command is its own. *)
Lemma accepted_indexes {N Cmd} `{NodeLaws N Cmd} (cs : list Cmd) : ∀ n n' idxs c n0 i tm,
  node_Start c n0 = Some (n, (i, tm, true)) → accepts cs n = Some (n', idxs) → idxs = seqZ (i + 1) (Z.of_nat (length cs)).
Proof.
  induction cs as [|c' cs IH]; intros n n' idxs c n0 i tm Hc E; cbn [accepts length] in E |- *; [by injection E as _ <-|].
  destruct (node_Start c' n) as [[n1 [[i1 tm1] [|]]]|] eqn:E1; try done.
  destruct (accepts cs n1) as [[n2 idxs']|] eqn:E2; [|done]. injection E as <- <-.
  rewrite Nat2Z.inj_succ, seqZ_cons by lia. pose proof (start_next _ _ _ _ _ _ _ _ _ Hc E1) as ->.
  f_equal. rewrite (IH _ _ _ _ _ _ _ E1 E2). f_equal; lia.
Qed.
