(* ===== verification/RaftInv.v ===== *)
(** * RaftInv: the invariant of a Raft node and of its disk

    [raft_wf] is the well-formedness of a node in memory; [disk_ok] relates it
    to what the persister holds when the requests made so far have been
    carried out: the bytes of the raft state ([d]) and of the hard state
    ([h]).  Every handler keeps both, never panics and never moves the term,
    the vote, the commit index or the applied index backwards
    ([exec_preserves]); the conditions on what the environment may send are
    collected in [event_ok]. *)
From stdpp Require Import prelude gmap.
From S2P Require Import Prelude Gob Persister RaftState RaftStateProps Raft RaftLemmas.
From stdpp Require Import options.
Local Open Scope Z_scope.

Section inv.
Context {Cmd : Type} `{GobCommand Cmd}.
Implicit Types rf : Raft Cmd.
Implicit Types e : LogEntry Cmd.

(** ** Terms and votes *)

(** [(t', v')] may follow [(t, v)]: a later term, or the same term with the
    same vote or a first vote. *)
Definition tv_le (a b : Z * Z) : Prop := a.1 < b.1 ∨ a.1 = b.1 ∧ (a.2 = -1 ∨ a.2 = b.2).

#[global] Instance tv_le_preorder : PreOrder tv_le.
Proof. split; [intros []|intros [] [] []]; unfold tv_le; simpl; lia. Qed.

Definition tv rf : Z * Z := (CurrentTerm rf, VotedFor rf).

(** What [readHardState] makes of the header of the raft state and the hard
    state. *)
Definition recover (s h : Z * Z) : Z * Z :=
  if bool_decide (s.1 < h.1) || (bool_decide (h.1 = s.1) && negb (bool_decide (h.2 = -1)))
  then h else s.

Lemma recover_hard s a b : tv_le s a → tv_le a b → recover s b = b.
Proof.
  destruct s, a, b. unfold tv_le, recover. simpl. intros ??.
  repeat case_bool_decide; simpl; try done; f_equal; lia.
Qed.
Lemma recover_state h a : tv_le h a → recover a h = a.
Proof.
  destruct h, a. unfold tv_le, recover. simpl. intros ?.
  repeat case_bool_decide; simpl; try done; f_equal; lia.
Qed.

(** ** The disk *)

(** The hard state file: empty, or the encoding of a term and a vote. *)
Definition hard_holds (h : bytes) (p : Z * Z) : Prop :=
  (h = [] ∧ p = (0, -1)) ∨ (h = encodeHardState p.1 p.2 ∧ isS64 p.1 ∧ isS64 p.2).

(** The raft state file: nothing yet, or the log and the snapshot position of
    the node with some term and vote. *)
Definition state_holds rf (d : bytes) (p : Z * Z) : Prop :=
  (d = [] ∧ p = (0, -1) ∧ persistQueuedLen (cache rf) = 0 ∧
   keys (log rf) = [(0, None)] ∧ lastIncludedIndex rf = 0 ∧ lastIncludedTerm rf = 0) ∨
  (d = full_encode (set_VotedFor p.2 (set_CurrentTerm p.1 rf)) ∧ 0 ≤ p.1 ∧ isS64 p.1 ∧ isS64 p.2).

Record disk_ok rf (d h : bytes) : Prop := {
  dk_inv : persist_inv rf d;
  dk_range : isS64 (lastIncludedIndex rf) ∧ isS64 (lastIncludedTerm rf) ∧
             isS64 (CurrentTerm rf) ∧ isS64 (VotedFor rf);
  dk_tv : ∃ s p, state_holds rf d s ∧ hard_holds h p ∧
    tv_le s (tv rf) ∧ tv_le p (tv rf) ∧ recover s p = tv rf;
}.

(** Carrying out a request. *)
Definition run_req (dh : bytes * bytes) (req : disk_req) : option (bytes * bytes) :=
  match req with
  | ReqHard b => Some (dh.1, b)
  | _ => d ← apply_req dh.1 req; Some (d, dh.2)
  end.
Definition run_reqs (reqs : list disk_req) (dh : bytes * bytes) : option (bytes * bytes) :=
  foldl (λ a r, a ≫= λ dh, run_req dh r) (Some dh) reqs.

(** ** The node *)

Record raft_wf rf : Prop := {
  rw_log : ∃ e es, log rf = e :: es ∧ le_Term e = lastIncludedTerm rf;
  rw_lii : 0 ≤ lastIncludedIndex rf ∧ 0 ≤ CurrentTerm rf;
  rw_commit : lastIncludedIndex rf ≤ CommitIndex rf ≤ getLastLogIndex rf;
  rw_applied : lastIncludedIndex rf ≤ LastApplied rf ≤ CommitIndex rf;
  rw_peers : 0 ≤ me rf < Z.of_nat (peers rf) ∧ length (nextIndex rf) = peers rf ∧
             length (matchIndex rf) = peers rf;
  rw_next : state rf = Leader → Forall (λ n, 1 ≤ n ≤ getLastLogIndex rf + 1) (nextIndex rf);
  rw_entries : Forall entry_wf (log rf);
}.

Definition node_inv rf (d h : bytes) : Prop := raft_wf rf ∧ disk_ok rf d h.

(** ** What the environment may do *)

(** Bytes an event can add to the encoded state. *)
Definition ev_size (ev : raft_event Cmd) : Z :=
  match ev with
  | EvAppendEntries _ args => zlen (concat (enc_entry <$> ae_Entries args))
  | EvStart c => zlen (enc_entry (mkEntry 0 (Some c) []))
  | _ => 16
  end.

(** A message whose encoding leaves the state below 4 GiB, with 64-bit values. *)
Definition ae_msg_ok (args : AppendEntriesArgs Cmd) rf : Prop :=
  zlen (full_encode rf) + zlen (concat (enc_entry <$> ae_Entries args)) < 2^32 ∧
  isS64 (ae_Term args) ∧ Forall entry_wf (ae_Entries args).

(** No entry of the message conflicts with a committed one.  The handler does
    not test this. *)
Definition agrees_committed (args : AppendEntriesArgs Cmd) rf : Prop :=
  ∀ i e, ae_Entries args !! i = Some e →
    lastIncludedIndex rf < ae_PrevLogIndex args + 1 + Z.of_nat i ≤ CommitIndex rf →
    getTerm rf (ae_PrevLogIndex args + 1 + Z.of_nat i) = Some (le_Term e).

Definition event_ok (ev : raft_event Cmd) rf : Prop :=
  zlen (full_encode rf) + ev_size ev < 2^32 ∧
  match ev with
  | EvRequestVote _ args => isS64 (rv_Term args) ∧ isS64 (rv_CandidateId args) ∧ 0 ≤ rv_CandidateId args
  | EvAppendEntries _ args =>
      isS64 (ae_Term args) ∧ Forall entry_wf (ae_Entries args) ∧ agrees_committed args rf
  | EvStart c => entry_wf (mkEntry (CurrentTerm rf) (Some c) [])
  | EvInstallSnapshot _ args =>
      isS64 (is_Term args) ∧ isS64 (is_LastIncludedIndex args) ∧ isS64 (is_LastIncludedTerm args) ∧
      (* no snapshot from a leader of the same term, none that disagrees with
         a committed entry *)
      (state rf = Leader → is_Term args ≠ CurrentTerm rf) ∧
      (lastIncludedIndex rf < is_LastIncludedIndex args ≤ CommitIndex rf →
         getTerm rf (is_LastIncludedIndex args) = Some (is_LastIncludedTerm args))
  | EvHeartbeat server _ => 0 ≤ server < Z.of_nat (peers rf)
  | EvInstallReply server t => 0 ≤ server < Z.of_nat (peers rf) ∧ isS64 t
  | EvAppendReply _ server args reply _ =>
      0 ≤ server < Z.of_nat (peers rf) ∧ isS64 (aer_Term reply) ∧
      (* the reply answers what this leader sent in this term *)
      (state rf = Leader → ae_Term args = CurrentTerm rf →
         if aer_Success reply
         then 0 ≤ ae_PrevLogIndex args ∧
              ae_PrevLogIndex args + zlen (ae_Entries args) ≤ getLastLogIndex rf
         else aer_ConflictIndex reply ≤ getLastLogIndex rf + 1)
  | EvVoteResponse _ reply => isS64 (rvr_Term reply)
  | EvElection _ => isS64 (CurrentTerm rf + 1) ∧ isS64 (me rf)
  | EvSnapshot i _ => isS64 i
  | _ => True
  end.

(** Nothing moves backwards. *)
Definition progress rf rf' : Prop :=
  tv_le (tv rf) (tv rf') ∧ CommitIndex rf ≤ CommitIndex rf' ∧ LastApplied rf ≤ LastApplied rf' ∧
  lastIncludedIndex rf ≤ lastIncludedIndex rf' ∧ me rf' = me rf ∧ peers rf' = peers rf.

Lemma progress_refl rf : progress rf rf.
Proof. split_and!; done || lia. Qed.
Lemma progress_trans a b c : progress a b → progress b c → progress a c.
Proof.
  unfold progress. intros (?&?&?&?&?&?) (?&?&?&?&?&?). split_and!; try lia; try congruence.
  by etrans.
Qed.

(** ** Sizes *)

Lemma zlen_full_encode rf : zlen (full_encode rf) = 44 + zlen (concat (enc_entry <$> log rf)).
Proof. unfold full_encode, zlen. rewrite length_app, length_persist_header. lia. Qed.

Lemma zlen_app {A} (l1 l2 : list A) : zlen (l1 ++ l2) = zlen l1 + zlen l2.
Proof. unfold zlen. rewrite length_app. lia. Qed.

Lemma concat_take_le k (es : list (LogEntry Cmd)) :
  zlen (concat (enc_entry <$> take k es)) ≤ zlen (concat (enc_entry <$> es)).
Proof.
  rewrite <-(take_drop k es) at 2. rewrite fmap_app, concat_app, zlen_app. unfold zlen. lia.
Qed.
Lemma concat_drop_le k (es : list (LogEntry Cmd)) :
  zlen (concat (enc_entry <$> drop k es)) ≤ zlen (concat (enc_entry <$> es)).
Proof.
  rewrite <-(take_drop k es) at 2. rewrite fmap_app, concat_app, zlen_app. unfold zlen. lia.
Qed.

(** ** Steps that leave the log alone *)

Lemma run_hard d h b : run_reqs [ReqHard b] (d, h) = Some (d, b).
Proof. done. Qed.

(** A new term or vote, with its hard state on disk. *)
Lemma disk_ok_hard rf rf' d h :
  disk_ok rf d h → log rf' = log rf → cache rf' = cache rf →
  lastIncludedIndex rf' = lastIncludedIndex rf → lastIncludedTerm rf' = lastIncludedTerm rf →
  tv_le (tv rf) (tv rf') → isS64 (CurrentTerm rf') → isS64 (VotedFor rf') →
  disk_ok rf' d (encodeHardState (CurrentTerm rf') (VotedFor rf')).
Proof.
  intros [[Hc Hq] (Hr1 & Hr2 & Hr3 & Hr4) (s & p & Hs & Hp & Hsl & Hpl & Hrec)] El Ec Ei Et Htv Ht Hv.
  split.
  - unfold persist_inv. by rewrite El, Ec.
  - by rewrite Ei, Et.
  - exists s, (tv rf'). split_and!.
    + destruct Hs as [(?&?&?&?&?&?)|(Hd&?&?&?)]; [left|right].
      * rewrite El, Ec, Ei, Et. done.
      * split_and!; try done. rewrite Hd. unfold full_encode. simpl. by rewrite El, Ei, Et.
    + right. done.
    + by etrans.
    + done.
    + by eapply recover_hard.
Qed.

(** Nothing durable changes. *)
Lemma disk_ok_quiet rf rf' d h :
  disk_ok rf d h → log rf' = log rf → cache rf' = cache rf →
  lastIncludedIndex rf' = lastIncludedIndex rf → lastIncludedTerm rf' = lastIncludedTerm rf →
  tv rf' = tv rf → disk_ok rf' d h.
Proof.
  intros [[Hc Hq] (Hr1 & Hr2 & Hr3 & Hr4) (s & p & Hs & Hp & Hsl & Hpl & Hrec)] El Ec Ei Et Htv.
  injection Htv as E1 E2. split.
  - unfold persist_inv. by rewrite El, Ec.
  - by rewrite Ei, Et, E1, E2.
  - exists s, p. unfold tv. rewrite E1, E2. split_and!; try done.
    destruct Hs as [(?&?&?&?&?&?)|(Hd&?&?&?)]; [left|right].
    + rewrite El, Ec, Ei, Et. done.
    + split_and!; try done. rewrite Hd. unfold full_encode. simpl. by rewrite El, Ei, Et.
Qed.

Lemma disk_ok_commitPersist sl lc rf d h : disk_ok rf d h → disk_ok (commitPersistResult sl lc rf) d h.
Proof.
  intros [Hi Hr (s & p & Hs & Ht)]. split.
  - by apply commitPersist_inv.
  - unfold commitPersistResult. by case_bool_decide.
  - exists s, p. unfold commitPersistResult. case_bool_decide; [|done]. split; [|exact Ht].
    destruct Hs as [?|?]; [by left|by right].
Qed.

(** ** Steps that change the log *)

(** The log of [rf] may be out of date on disk; writing it makes it exact. *)
Lemma disk_ok_save rf d h snapshot p :
  persist_inv rf d → Forall entry_wf (log rf) → zlen (full_encode rf) < 2^32 →
  isS64 (lastIncludedIndex rf) → isS64 (lastIncludedTerm rf) →
  isS64 (CurrentTerm rf) → isS64 (VotedFor rf) → 0 ≤ CurrentTerm rf →
  hard_holds h p → tv_le p (tv rf) →
  ∃ lg pc req, enqueuePersistLocked snapshot rf =
      Some (set_cache pc (set_log lg rf), Some req, zlen (full_encode rf), zlen (log rf)) ∧
    keys lg = keys (log rf) ∧ Forall entry_wf lg ∧ run_reqs [req] (d, h) = Some (full_encode rf, h) ∧
    disk_ok (set_cache pc (set_log lg rf)) (full_encode rf) h.
Proof.
  intros Hi Hwf Hlen H1 H2 H3 H4 H5 Hh Htv.
  destruct (enqueue_spec rf d snapshot Hi Hwf Hlen) as (lg & pc & req & E & Hlg & Hreq & _ & Hc & Hq).
  exists lg, pc, req. split; [done|].
  assert (keys lg = keys (log rf)) as Hk.
  { apply (f_equal (fmap key)) in Hlg. rewrite <-!list_fmap_compose in Hlg. exact Hlg. }
  assert (length lg = length (log rf)) as Hl by (by apply keys_length).
  assert (enc_entry <$> lg = enc_entry <$> log rf) as Henc by (by apply log_equiv_enc).
  split; [done|]. split; [by eapply log_equiv_wf|]. split.
  { destruct req as [st sn|pl|b].
    - change (run_reqs [ReqSave st sn] (d, h)) with (d' ← apply_req d (ReqSave st sn); Some (d', h)).
      by rewrite Hreq.
    - change (run_reqs [ReqAppend pl] (d, h)) with (d' ← apply_req d (ReqAppend pl); Some (d', h)).
      by rewrite Hreq.
    - unfold enqueuePersistLocked in E. cbv zeta in E.
      apply bind_Some in E as ([? ?] & _ & E). repeat case_match; simplify_eq. }
  split.
  - split; cbn [set_cache set_log cache log].
    + unfold cache_inv. unfold zlen. rewrite Hl, Henc. exact Hc.
    + unfold queue_inv. rewrite Henc. exact Hq.
  - done.
  - exists (tv rf), p. split_and!; try done.
    + right. split_and!; try done. unfold full_encode. simpl. unfold zlen. by rewrite Hl, Henc.
    + by apply recover_state.
Qed.

(** ** The handlers *)

(** The outcome of a critical section: no panic, every request can be carried
    out, the invariant holds again and nothing has moved backwards. *)
Definition step_ok rf (d h : bytes) (res : option (Raft Cmd * list (option disk_req))) : Prop :=
  ∃ rf' reqs d' h', res = Some (rf', Some <$> reqs) ∧ run_reqs reqs (d, h) = Some (d', h') ∧
    node_inv rf' d' h' ∧ progress rf rf'.

(** A change of role, timers, leases or term, with the log untouched. *)
Lemma raft_wf_role rf rf' :
  raft_wf rf → log rf' = log rf → lastIncludedIndex rf' = lastIncludedIndex rf →
  lastIncludedTerm rf' = lastIncludedTerm rf → CommitIndex rf' = CommitIndex rf →
  LastApplied rf' = LastApplied rf → me rf' = me rf → peers rf' = peers rf →
  nextIndex rf' = nextIndex rf → matchIndex rf' = matchIndex rf →
  (state rf' = Leader → state rf = Leader) → CurrentTerm rf ≤ CurrentTerm rf' → raft_wf rf'.
Proof.
  intros [] E1 E2 E3 E4 E5 E6 E7 E8 E9 Hs Ht.
  split; unfold getLastLogIndex in *; rewrite ?E1, ?E2, ?E3, ?E4, ?E5, ?E6, ?E7, ?E8, ?E9; auto; lia.
Qed.

Lemma step_hard rf rf' d h :
  node_inv rf d h → log rf' = log rf → cache rf' = cache rf →
  lastIncludedIndex rf' = lastIncludedIndex rf → lastIncludedTerm rf' = lastIncludedTerm rf →
  CommitIndex rf' = CommitIndex rf → LastApplied rf' = LastApplied rf →
  me rf' = me rf → peers rf' = peers rf → nextIndex rf' = nextIndex rf → matchIndex rf' = matchIndex rf →
  (state rf' = Leader → state rf = Leader) →
  tv_le (tv rf) (tv rf') → isS64 (CurrentTerm rf') → isS64 (VotedFor rf') →
  step_ok rf d h (Some (rf', Some <$> [enqueuePersistHardStateLocked rf'])).
Proof.
  intros [Hwf Hd] E1 E2 E3 E4 E5 E6 E7 E8 E9 E10 Hs Htv H1 H2.
  exists rf', [enqueuePersistHardStateLocked rf'], d, (encodeHardState (CurrentTerm rf') (VotedFor rf')).
  split_and!; try done.
  - split; [|by eapply disk_ok_hard]. eapply raft_wf_role; try done.
    unfold tv_le, tv in Htv. simpl in Htv. lia.
  - split_and!; done || lia || congruence.
Qed.

Lemma step_quiet rf rf' d h :
  node_inv rf d h → log rf' = log rf → cache rf' = cache rf →
  lastIncludedIndex rf' = lastIncludedIndex rf → lastIncludedTerm rf' = lastIncludedTerm rf →
  tv rf' = tv rf → raft_wf rf' →
  CommitIndex rf ≤ CommitIndex rf' → LastApplied rf ≤ LastApplied rf' →
  me rf' = me rf → peers rf' = peers rf → step_ok rf d h (Some (rf', [])).
Proof.
  intros [Hwf Hd] E1 E2 E3 E4 Etv Hwf' ? ? ? ?. exists rf', [], d, h.
  split_and!; try done.
  - split; [done|]. by eapply disk_ok_quiet.
  - split_and!; first [by rewrite Etv|lia|congruence].
Qed.

Lemma step_same rf d h : node_inv rf d h → step_ok rf d h (Some (rf, [])).
Proof. intros [Hwf Hd]. eapply step_quiet; try done; split; done. Qed.

Lemma getLastLogTerm_some rf : raft_wf rf → is_Some (getLastLogTerm rf).
Proof.
  intros Hwf. unfold getLastLogTerm. destruct (rw_log _ Hwf) as (e & es & El & _).
  rewrite bool_decide_false by (by rewrite El). apply getTerm_is_Some. lia.
Qed.

Lemma RequestVote_ok now args rf d h :
  node_inv rf d h → event_ok (EvRequestVote now args) rf →
  step_ok rf d h (raft_exec (EvRequestVote now args) rf).
Proof.
  intros Hn (_ & Hr1 & Hr2 & Hr3). cbn [raft_exec]. unfold RequestVote.
  case_bool_decide as Hstale; [by apply step_same|]. cbv zeta.
  set (rf1 := if bool_decide (CurrentTerm rf < rv_Term args) then _ else rf).
  assert (log rf1 = log rf ∧ lastIncludedIndex rf1 = lastIncludedIndex rf ∧
          lastIncludedTerm rf1 = lastIncludedTerm rf ∧ cache rf1 = cache rf ∧
          CommitIndex rf1 = CommitIndex rf ∧ LastApplied rf1 = LastApplied rf ∧ me rf1 = me rf ∧
          peers rf1 = peers rf ∧ nextIndex rf1 = nextIndex rf ∧ matchIndex rf1 = matchIndex rf ∧
          (state rf1 = Leader → state rf = Leader) ∧ CurrentTerm rf1 = rv_Term args ∧
          (bool_decide (CurrentTerm rf < rv_Term args) = true → VotedFor rf1 = -1) ∧
          (bool_decide (CurrentTerm rf < rv_Term args) = false → rf1 = rf))
    as (E1 & E2 & E3 & E4 & E5 & E6 & E7 & E8 & E9 & E10 & E11 & Et & Ev & Es).
  { subst rf1. case_bool_decide; simpl; split_and!; try done. lia. }
  clearbody rf1.
  destruct (getLastLogTerm_some rf) as [lt Elt]; [apply Hn|].
  assert (getLastLogTerm rf1 = Some lt) as ->.
  { unfold getLastLogTerm, getTerm, getLastLogIndex in *. by rewrite E1, E2, E3. }
  cbn [mbind option_bind]. pose proof (dk_range _ _ _ (proj2 Hn)) as (_ & _ & _ & Hvr).
  set (behind := bool_decide (rv_LastLogTerm args < lt) || _). destruct behind.
  - case_bool_decide as Hnew.
    + specialize (Ev eq_refl). eapply (step_hard rf rf1); try done.
      * unfold tv_le, tv. simpl. rewrite Et. lia.
      * by rewrite Et.
      * by rewrite Ev.
    + rewrite Es by done. by apply step_same.
  - set (granted := bool_decide (VotedFor rf1 = -1) || _).
    destruct granted eqn:Hg; subst granted.
    + rewrite orb_true_r. eapply (step_hard rf); try done.
      * unfold tv_le, tv. simpl. rewrite Et.
        destruct (decide (CurrentTerm rf < rv_Term args)) as [Hnew|Hnew]; [lia|].
        rewrite bool_decide_false in Es by done. specialize (Es eq_refl). subst rf1. apply orb_true_iff in Hg.
        rewrite !bool_decide_eq_true in Hg. lia.
      * simpl. by rewrite Et.
    + rewrite orb_false_r. destruct (bool_decide (CurrentTerm rf < rv_Term args)).
      * specialize (Ev eq_refl). rewrite Ev in Hg. done.
      * rewrite Es by done. by apply step_same.
Qed.

(** Replacing an element of the leader's arrays. *)
Lemma zset_some {A} (l : list A) i v : 0 ≤ i < zlen l → zset l i v = Some (<[Z.to_nat i := v]> l).
Proof. intros. unfold zset. by rewrite bool_decide_true. Qed.

Lemma stepDown_ok t rf d h :
  node_inv rf d h → CurrentTerm rf < t → isS64 t →
  step_ok rf d h (Some (stepDown t rf, Some <$> [enqueuePersistHardStateLocked (stepDown t rf)])).
Proof.
  intros Hn Hlt Ht. eapply (step_hard rf); try done. unfold tv_le, tv. simpl. lia.
Qed.

Lemma InstallReply_ok server t rf d h :
  node_inv rf d h → event_ok (EvInstallReply server t) rf →
  step_ok rf d h (raft_exec (EvInstallReply server t) rf).
Proof.
  intros Hn (_ & Hs & Ht). cbn [raft_exec]. unfold handleInstallReply.
  case_bool_decide; [by apply stepDown_ok|].
  pose proof (proj1 Hn) as Hwf. destruct (rw_peers _ Hwf) as (? & Hl1 & Hl2).
  rewrite !zset_some by (unfold zlen; lia). cbn [mbind option_bind fmap list_fmap].
  eapply step_quiet; try done. destruct Hwf. split; simpl; try done.
  - by rewrite !length_insert.
  - intros Hl. apply Forall_insert; [by apply rw_next0|].
    unfold getLastLogIndex in *. simpl. lia.
Qed.

(** The goroutines of [sendHeartbeats] do not test the role again: on a node
    that has lost the leadership and then part of its log, [nextIndex] can lie
    behind the end of the log, and the slice expression is out of range. *)
Definition stale_next (server : Z) rf : Prop :=
  state rf ≠ Leader ∧
  ∃ next, nextIndex rf !! Z.to_nat server = Some next ∧ getLastLogIndex rf + 1 < next.

Definition heartbeat_panics (ev : raft_event Cmd) rf : Prop :=
  match ev with EvHeartbeat server _ => stale_next server rf | _ => False end.

Lemma Heartbeat_panic server data rf :
  raft_wf rf → 0 ≤ server < Z.of_nat (peers rf) → stale_next server rf →
  raft_exec (EvHeartbeat server data) rf = None.
Proof.
  intros Hwf Hs (_ & next & Hnext & Hb). cbn [raft_exec]. unfold heartbeat_prepare.
  assert (zget (nextIndex rf) server = Some next) as ->
    by (unfold zget; by rewrite bool_decide_false by lia).
  cbn [mbind option_bind]. destruct (rw_lii _ Hwf), (rw_commit _ Hwf).
  unfold getLastLogIndex, zlen in *.
  rewrite bool_decide_false, Z.max_l, bool_decide_false by lia.
  unfold zget. rewrite bool_decide_false, lookup_ge_None_2 by lia. done.
Qed.

Lemma Heartbeat_ok server data rf d h :
  node_inv rf d h → event_ok (EvHeartbeat server data) rf → ¬ stale_next server rf →
  step_ok rf d h (raft_exec (EvHeartbeat server data) rf).
Proof.
  intros Hn (_ & Hs) Hstale. cbn [raft_exec]. unfold heartbeat_prepare.
  pose proof (proj1 Hn) as Hwf. destruct (rw_peers _ Hwf) as (? & Hl1 & Hl2).
  destruct (lookup_lt_is_Some_2 (nextIndex rf) (Z.to_nat server)) as [next Hnext]; [lia|].
  assert (zget (nextIndex rf) server = Some next) as ->
    by (unfold zget; by rewrite bool_decide_false by lia).
  cbn [mbind option_bind].
  assert (next ≤ getLastLogIndex rf + 1) as Hb.
  { destruct (decide (state rf = Leader)) as [Hlead|Hlead].
    - pose proof (Forall_lookup_1 _ _ _ _ (rw_next _ Hwf Hlead) Hnext) as Hb. simpl in Hb. lia.
    - destruct (decide (next ≤ getLastLogIndex rf + 1)); [done|].
      destruct Hstale. split; [done|]. exists next. split; [done|lia]. }
  case_bool_decide as Hle.
  - case_bool_decide; [|by apply step_same].
    rewrite zset_some by (unfold zlen; lia). cbn [mbind option_bind].
    eapply step_quiet; try done. destruct Hwf. split; simpl; try done.
    + by rewrite !length_insert.
    + intros Hl. apply Forall_insert; [by apply rw_next0|]. unfold getLastLogIndex in *. simpl. lia.
  - destruct (rw_lii _ Hwf). rewrite Z.max_l by lia.
    unfold getLastLogIndex, zlen in Hb.
    assert (∃ pt, (if bool_decide (next - 1 = lastIncludedIndex rf) then Some (lastIncludedTerm rf)
      else le_Term <$> zget (log rf) (next - 1 - lastIncludedIndex rf)) = Some pt) as [pt ->].
    { case_bool_decide; [by eexists|]. unfold zget. rewrite bool_decide_false by lia.
      destruct (lookup_lt_is_Some_2 (log rf) (Z.to_nat (next - 1 - lastIncludedIndex rf))) as [x ->]; [lia|].
      by eexists. }
    cbn [mbind option_bind]. rewrite Z.max_l by lia. unfold zdrop.
    rewrite bool_decide_true by lia. cbn [mbind option_bind]. by apply step_same.
Qed.

(** ** The commit rule *)

(** The servers known to store index [M]: another server up to its
    [matchIndex], the node itself up to what is on its disk. *)
Definition stores rf (M : Z) (i : nat) : Prop :=
  if bool_decide (Z.of_nat i = me rf) then M ≤ persistedIndex rf
  else ∃ m, matchIndex rf !! i = Some m ∧ M ≤ m.
#[global] Instance stores_dec rf M i : Decision (stores rf M i).
Proof.
  unfold stores. case_bool_decide; [apply _|]. destruct (matchIndex rf !! i) as [m|].
  - destruct (decide (M ≤ m)); [left; eauto|right; naive_solver].
  - right; naive_solver.
Defined.

(** Index [M] can be committed: an entry of the current term, and a strict
    majority of the servers [0 .. peers - 1] that store it. *)
Definition can_commit rf (M : Z) : Prop :=
  lastIncludedIndex rf < M ∧ getTerm rf M = Some (CurrentTerm rf) ∧
  ∃ Q : gset nat, (∀ i, i ∈ Q → (i < peers rf)%nat ∧ stores rf M i) ∧ (peers rf < 2 * size Q)%nat.

(** The votes that the loop counts are the number of these servers. *)
Lemma count_stores rf M (l : list nat) :
  NoDup l → Forall (λ i, (i < length (matchIndex rf))%nat) l →
  length (filter (stores rf M) l) =
  ((if bool_decide (me rf ∈ Z.of_nat <$> l ∧ (M ≤ persistedIndex rf)%Z) then 1 else 0) +
   length (filter (λ i, Z.of_nat i ≠ me rf ∧ (M ≤ default 0 (matchIndex rf !! i))%Z) l))%nat.
Proof.
  induction l as [|i l IH]; intros Hnd Hl; [by rewrite bool_decide_false by (by intros [?%elem_of_nil _])|].
  apply NoDup_cons in Hnd as [Hi Hnd]. apply Forall_cons in Hl as [Hil Hl]. specialize (IH Hnd Hl).
  rewrite !filter_cons. destruct (lookup_lt_is_Some_2 _ _ Hil) as [m Hm].
  destruct (decide (Z.of_nat i = me rf)) as [Hme|Hme].
  - assert (me rf ∉ Z.of_nat <$> l) as Hno.
    { rewrite <-Hme. intros (j & Hj & ?)%list_elem_of_fmap. apply Nat2Z.inj in Hj. congruence. }
    rewrite bool_decide_false in IH by tauto.
    rewrite (decide_False (P := Z.of_nat i ≠ me rf ∧ _)) by tauto.
    destruct (decide (M ≤ persistedIndex rf)).
    + rewrite decide_True by (unfold stores; by rewrite bool_decide_true).
      rewrite bool_decide_true; [cbn [length]; lia|]. split; [|done]. rewrite fmap_cons, Hme. left.
    + rewrite decide_False by (unfold stores; by rewrite bool_decide_true).
      rewrite bool_decide_false by tauto. exact IH.
  - assert (me rf ∈ Z.of_nat <$> i :: l ↔ me rf ∈ Z.of_nat <$> l) as Hin.
    { rewrite fmap_cons, elem_of_cons. split; [intros [?|?]; congruence|by right]. }
    rewrite (bool_decide_ext _ (me rf ∈ Z.of_nat <$> l ∧ M ≤ persistedIndex rf)) by (by rewrite Hin).
    destruct (decide (M ≤ m)).
    + rewrite decide_True, decide_True; [cbn [length]; lia|by rewrite Hm|].
      unfold stores. rewrite bool_decide_false by done. eauto.
    + rewrite decide_False, decide_False; [done|rewrite Hm; simpl; tauto|].
      unfold stores. rewrite bool_decide_false by done. intros (? & ? & ?). simplify_eq.
Qed.

Lemma commit_count_stores rf M :
  raft_wf rf → commit_count rf M = zlen (filter (stores rf M) (seq 0 (peers rf))).
Proof.
  intros Hwf. destruct (rw_peers _ Hwf) as (Hme & _ & Hlm). unfold zlen. rewrite count_stores.
  - unfold commit_count, zlen. rewrite Nat2Z.inj_add. f_equal.
    assert (me rf ∈ Z.of_nat <$> seq 0 (peers rf)).
    { apply list_elem_of_fmap. exists (Z.to_nat (me rf)). rewrite elem_of_seq. lia. }
    by repeat case_bool_decide; try tauto.
  - apply NoDup_seq.
  - apply Forall_forall. intros i Hi%elem_of_seq. lia.
Qed.

Lemma majority_counted rf M :
  raft_wf rf →
  Z.of_nat (peers rf) `quot` 2 < commit_count rf M ↔
  ∃ Q : gset nat, (∀ i, i ∈ Q → (i < peers rf)%nat ∧ stores rf M i) ∧ (peers rf < 2 * size Q)%nat.
Proof.
  intros Hwf. rewrite commit_count_stores by done. unfold zlen.
  rewrite Z.quot_div_nonneg by lia. pose proof (Z.div_mod (Z.of_nat (peers rf)) 2 ltac:(done)).
  pose proof (Z.mod_pos_bound (Z.of_nat (peers rf)) 2 ltac:(done)). set (l := filter _ _).
  assert (size (list_to_set l : gset nat) = length l) as Hsz.
  { apply size_list_to_set, NoDup_filter, NoDup_seq. }
  assert (∀ i, i ∈ l ↔ (i < peers rf)%nat ∧ stores rf M i) as Hl.
  { intros i. subst l. rewrite list_elem_of_filter, elem_of_seq. split; intros [? ?]; (split; [|first [done|lia]]); first [done|lia]. }
  split.
  - intros Hlt. exists (list_to_set l). split; [|rewrite Hsz; lia].
    intros i Hi%elem_of_list_to_set. by apply Hl.
  - intros (Q & HQ & Hlt). assert (size Q ≤ size (list_to_set l : gset nat))%nat; [|lia].
    apply subseteq_size. intros i Hi. apply elem_of_list_to_set, Hl. auto.
Qed.

Lemma advance_loop_spec rf : ∀ fuel N,
  raft_wf rf → N ≤ getLastLogIndex rf → N - CommitIndex rf ≤ Z.of_nat fuel →
  ∃ M, advance_loop fuel rf N = Some (if bool_decide (CommitIndex rf < M) then set_CommitIndex M rf else rf) ∧
    CommitIndex rf ≤ M ∧ (M = CommitIndex rf ∨ M ≤ N ∧ can_commit rf M) ∧
    (∀ M', M < M' ≤ N → ¬ can_commit rf M').
Proof.
  intros fuel. induction fuel as [|fuel IH]; intros N Hwf HN Hf; cbn [advance_loop].
  { exists (CommitIndex rf). rewrite bool_decide_false by lia. split_and!; try done; [by left|lia]. }
  destruct (rw_commit _ Hwf) as [Hc1 Hc2]. destruct (rw_lii _ Hwf) as [Hl0 _].
  case_bool_decide as HcN; cbn [andb].
  2: { exists (CommitIndex rf). rewrite bool_decide_false by lia. split_and!; try done; [by left|lia]. }
  rewrite (bool_decide_true (1 ≤ N)), (bool_decide_false (N = lastIncludedIndex rf)) by lia.
  unfold zget. rewrite (bool_decide_false (N - lastIncludedIndex rf < 0)) by lia.
  destruct (log rf !! Z.to_nat (N - lastIncludedIndex rf)) as [e|] eqn:He.
  2: { apply lookup_ge_None in He. unfold getLastLogIndex, zlen in HN. lia. }
  cbn [mbind option_bind].
  assert (getTerm rf N = Some (le_Term e)) as HgN by (rewrite getTerm_inside by lia; by rewrite He).
  assert (¬ can_commit rf N → ∃ M, advance_loop fuel rf (N - 1) =
      Some (if bool_decide (CommitIndex rf < M) then set_CommitIndex M rf else rf) ∧
    CommitIndex rf ≤ M ∧ (M = CommitIndex rf ∨ M ≤ N ∧ can_commit rf M) ∧
    (∀ M', M < M' ≤ N → ¬ can_commit rf M')) as Hrec.
  { intros Hnot. destruct (IH (N - 1)) as (M & E & HM & HM2 & HM3); [done|lia|lia|].
    exists M. split_and!; try done.
    - destruct HM2 as [?|[? ?]]; [by left|]. right. split; [lia|done].
    - intros M' HM'. destruct (decide (M' = N)) as [->|]; [done|]. apply HM3. lia. }
  case_bool_decide as Ht; cbn [negb].
  - case_bool_decide as Hcount.
    + exists N. rewrite bool_decide_true by lia. split_and!; try done; [lia| |lia].
      right. split; [lia|]. split_and!; [lia|by rewrite HgN, Ht|by apply majority_counted].
    + apply Hrec. by intros (_ & _ & ?%majority_counted).
  - apply Hrec. intros (_ & Hterm & _). congruence.
Qed.

Lemma advanceCommit_spec rf :
  raft_wf rf →
  ∃ M, advanceCommit rf = Some (if bool_decide (CommitIndex rf < M) then set_CommitIndex M rf else rf) ∧
    CommitIndex rf ≤ M ∧ (M = CommitIndex rf ∨ M ≤ getLastLogIndex rf ∧ can_commit rf M) ∧
    (∀ M', M < M' ≤ getLastLogIndex rf → ¬ can_commit rf M').
Proof.
  intros Hwf. unfold advanceCommit. apply advance_loop_spec; [done|lia|].
  destruct (rw_commit _ Hwf). lia.
Qed.

Lemma last_of_term_bound t rf i : last_of_term t rf = Some i → (i < length (log rf))%nat.
Proof.
  unfold last_of_term. intros Hl. apply last_Some_elem_of in Hl.
  apply list_elem_of_filter in Hl as [_ Hl]. apply elem_of_seq in Hl. lia.
Qed.

(** The committing tail of [handleAppendReply]. *)
Lemma advance_ok rf rf1 n d h :
  node_inv rf d h → raft_wf rf1 →
  log rf1 = log rf → cache rf1 = cache rf → lastIncludedIndex rf1 = lastIncludedIndex rf →
  lastIncludedTerm rf1 = lastIncludedTerm rf → tv rf1 = tv rf → CommitIndex rf1 = CommitIndex rf →
  LastApplied rf1 = LastApplied rf → me rf1 = me rf → peers rf1 = peers rf →
  step_ok rf d h
    match (rf ← advanceCommit rf1; Some (rf, n : Z, [])) with
    | Some (rf, _, reqs) => Some (rf, Some <$> (reqs : list disk_req)) | None => None
    end.
Proof.
  intros Hn Hwf E1 E2 E3 E4 E5 E6 E7 E8 E9.
  destruct (advanceCommit_spec rf1 Hwf) as (M & -> & HM & HM2 & _). cbn [mbind option_bind].
  change (Some <$> []) with (@nil (option disk_req)).
  assert (CommitIndex rf ≤ M) by lia.
  assert (M ≤ getLastLogIndex rf1) as HMl by (destruct (rw_commit _ Hwf); destruct HM2 as [->|[? _]]; lia).
  case_bool_decide.
  - eapply step_quiet; try done; simpl; try done; try lia. destruct Hwf. split; simpl; try done; try lia.
    unfold getLastLogIndex in *. simpl. lia.
  - eapply step_quiet; try done; lia.
Qed.

Lemma AppendReply_ok now server args reply n rf d h :
  node_inv rf d h → event_ok (EvAppendReply now server args reply n) rf →
  step_ok rf d h (raft_exec (EvAppendReply now server args reply n) rf).
Proof.
  intros Hn (_ & Hs & Ht & Hreply). cbn [raft_exec]. unfold handleAppendReply.
  case_bool_decide as Hlead; [|by apply step_same].
  case_bool_decide as Hterm; [|by apply step_same]. cbn [negb orb].
  specialize (Hreply Hlead Hterm).
  case_bool_decide as Hnew; [by apply stepDown_ok|].
  pose proof (proj1 Hn) as Hwf. destruct (rw_peers _ Hwf) as (? & Hl1 & Hl2).
  destruct (aer_Success reply).
  - rewrite !zset_some by (unfold zlen; lia). cbn [mbind option_bind].
    apply (advance_ok rf); try done; try (by case_bool_decide).
    assert (raft_wf (set_nextIndex
      (<[Z.to_nat server:=ae_PrevLogIndex args + zlen (ae_Entries args) + 1]> (nextIndex rf))
      (set_matchIndex (<[Z.to_nat server:=ae_PrevLogIndex args + zlen (ae_Entries args)]> (matchIndex rf)) rf)))
      as Hwf1.
    { destruct Hwf. split; simpl; try done.
      - by rewrite !length_insert.
      - intros _. apply Forall_insert; [by apply rw_next0|].
        unfold getLastLogIndex, zlen in *. simpl. lia. }
    case_bool_decide; [|done]. destruct Hwf1. by split.
  - cbv zeta. rewrite zset_some by (unfold zlen; lia). cbn [mbind option_bind].
    apply (advance_ok rf); try done. destruct Hwf. split; simpl; try done.
    + by rewrite !length_insert.
    + intros _. apply Forall_insert; [by apply rw_next0|].
      match goal with |- context [bool_decide (?x < 1)] => set (next := x) end.
      assert (next ≤ getLastLogIndex rf + 1) as Hbound.
      { subst next. case_bool_decide; [done|]. destruct (last_of_term _ rf) as [i|] eqn:Ei; [|done].
        case_bool_decide; [done|]. apply last_of_term_bound in Ei.
        unfold getLastLogIndex, zlen in *. lia. }
      unfold getLastLogIndex in *. simpl. case_bool_decide; lia.
Qed.

(** ** Elections *)

Lemma becomeLeader_ok now rf :
  raft_wf rf → ∃ rf', becomeLeader now rf = Some rf' ∧ raft_wf rf' ∧
    log rf' = log rf ∧ cache rf' = cache rf ∧ lastIncludedIndex rf' = lastIncludedIndex rf ∧
    lastIncludedTerm rf' = lastIncludedTerm rf ∧ tv rf' = tv rf ∧ CommitIndex rf' = CommitIndex rf ∧
    LastApplied rf' = LastApplied rf ∧ me rf' = me rf ∧ peers rf' = peers rf ∧ state rf' = Leader ∧
    Votes rf' = Votes rf.
Proof.
  intros Hwf. unfold becomeLeader. cbv zeta. cbn [set_nextIndex setLeaseUntilLocked set_leaseUntil
    setStateLocked set_state peers me].
  destruct (rw_peers _ Hwf) as (Hme & _ & _).
  rewrite zset_some by (unfold zlen; rewrite length_replicate; lia). cbn [mbind option_bind].
  eexists. split; [reflexivity|]. split_and!; try done.
  destruct Hwf. split; simpl; try done.
  - by rewrite length_insert, !length_replicate.
  - intros _. apply Forall_replicate. unfold getLastLogIndex, zlen in *. simpl. lia.
Qed.

Lemma VoteResponse_ok now reply rf d h :
  node_inv rf d h → event_ok (EvVoteResponse now reply) rf →
  step_ok rf d h (raft_exec (EvVoteResponse now reply) rf).
Proof.
  intros Hn (_ & Ht). cbn [raft_exec]. unfold handleVoteResponse.
  case_bool_decide; [by apply stepDown_ok|]. case_bool_decide; [by apply step_same|].
  case_bool_decide as Hst; cbn [negb]; [|by apply step_same].
  destruct (rvr_VoteGranted reply); [|by apply step_same]. cbv zeta.
  assert (raft_wf (set_Votes (Votes rf + 1) rf)) as Hwf by (destruct Hn as [[] _]; by split).
  case_bool_decide; [|by eapply step_quiet; try done; lia].
  destruct (becomeLeader_ok now _ Hwf) as (rf' & -> & Hwf' & ? & ? & ? & ? & ? & EC & EL & ? & ? & _).
  cbn [mbind option_bind]. eapply step_quiet; try done; simpl in *; lia.
Qed.

Lemma Election_ok now rf d h :
  node_inv rf d h → event_ok (EvElection now) rf → step_ok rf d h (raft_exec (EvElection now) rf).
Proof.
  intros Hn (_ & Ht & Hm). cbn [raft_exec]. unfold startElection. cbv zeta.
  set (rf1 := resetElectionTimer now _).
  assert (raft_wf rf1) as Hwf.
  { destruct Hn as [[] _]. split; simpl; try done. lia. }
  assert (tv_le (tv rf) (tv rf1)) as Htv by (left; simpl; lia).
  assert (∃ rf2, (if bool_decide (Z.of_nat (peers rf1) `quot` 2 < Votes rf1) then becomeLeader now rf1
        else Some rf1) = Some rf2 ∧ raft_wf rf2 ∧ log rf2 = log rf ∧ cache rf2 = cache rf ∧
      lastIncludedIndex rf2 = lastIncludedIndex rf ∧ lastIncludedTerm rf2 = lastIncludedTerm rf ∧
      tv rf2 = tv rf1 ∧ CommitIndex rf2 = CommitIndex rf ∧ LastApplied rf2 = LastApplied rf ∧
      me rf2 = me rf ∧ peers rf2 = peers rf)
    as (rf2 & E & Hwf2 & E1 & E2 & E3 & E4 & E5 & E6 & E7 & E8 & E9).
  { case_bool_decide.
    - destruct (becomeLeader_ok now _ Hwf) as (rf' & -> & Hwf' & ? & ? & ? & ? & ? & ? & ? & ? & ? & _).
      by exists rf'.
    - exists rf1. by split_and!. }
  change (Votes _) with (Votes rf1).
  rewrite E. cbn [mbind option_bind].
  destruct (getLastLogTerm_some rf2 Hwf2) as [lt ->]. cbn [mbind option_bind].
  injection E5 as E5a E5b.
  exists rf2, [enqueuePersistHardStateLocked rf1], d, (encodeHardState (CurrentTerm rf2) (VotedFor rf2)).
  split_and!; try done.
  - by rewrite E5a, E5b.
  - split; [done|]. eapply disk_ok_hard; try done; [apply Hn|..].
    + unfold tv. by rewrite E5a, E5b.
    + by rewrite E5a.
    + by rewrite E5b.
  - split_and!; try lia; try congruence. unfold tv. by rewrite E5a, E5b.
Qed.

(** ** Applying *)

(** The command at an index of the log. *)
Definition command_at rf (i : Z) : option Cmd :=
  zget (log rf) (i - lastIncludedIndex rf) ≫= le_Command.

Lemma applier_loop_spec : ∀ fuel rf,
  raft_wf rf → CommitIndex rf - LastApplied rf ≤ Z.of_nat fuel →
  let target := Z.max (LastApplied rf) (Z.min (CommitIndex rf) (persistedIndex rf)) in
  applier_loop fuel rf =
    (set_LastApplied target rf,
     (λ i, ApplyCommand (command_at rf i) i) <$> seqZ (LastApplied rf + 1) (target - LastApplied rf)).
Proof.
  intros fuel. induction fuel as [|fuel IH]; intros rf Hwf Hf target.
  { destruct (rw_applied _ Hwf). assert (target = LastApplied rf) as -> by lia.
    cbn. rewrite Z.sub_diag. by destruct rf. }
  cbn [applier_loop]. destruct (rw_applied _ Hwf) as [Ha1 Ha2]. destruct (rw_commit _ Hwf) as [Hc1 Hc2].
  destruct (decide (LastApplied rf < CommitIndex rf ∧ LastApplied rf < persistedIndex rf)) as [[Hlt1 Hlt2]|Hno].
  2: { assert (target = LastApplied rf) as Htgt by lia. rewrite Htgt.
       assert (bool_decide (LastApplied rf < CommitIndex rf) &&
         bool_decide (LastApplied rf < persistedIndex rf) = false) as ->.
       { apply andb_false_iff. rewrite !bool_decide_eq_false. lia. }
       rewrite Z.sub_diag. by destruct rf. }
  rewrite !bool_decide_true by lia. cbn [andb]. cbn [set_LastApplied LastApplied lastIncludedIndex log].
  rewrite (bool_decide_false (LastApplied rf + 1 ≤ lastIncludedIndex rf)),
    (bool_decide_false (LastApplied rf + 1 - lastIncludedIndex rf < 1)) by lia.
  unfold zget at 1. rewrite (bool_decide_false (LastApplied rf + 1 - lastIncludedIndex rf < 0)) by lia.
  destruct (log rf !! Z.to_nat (LastApplied rf + 1 - lastIncludedIndex rf)) as [e|] eqn:He.
  2: { apply lookup_ge_None in He. unfold getLastLogIndex, zlen in Hc2. lia. }
  assert (command_at rf (LastApplied rf + 1) = le_Command e) as Hcmd.
  { unfold command_at, zget. rewrite bool_decide_false by lia. by rewrite He. }
  fold (set_LastApplied (LastApplied rf + 1) rf).
  rewrite (IH (set_LastApplied (LastApplied rf + 1) rf)).
  2: { destruct Hwf. split; simpl; try done. lia. }
  2: { simpl. lia. }
  cbn [set_LastApplied LastApplied CommitIndex persistedIndex].
  replace (Z.max (LastApplied rf + 1) (Z.min (CommitIndex rf) (persistedIndex rf))) with target by lia.
  rewrite (seqZ_cons (LastApplied rf + 1)) by lia. rewrite fmap_cons, Hcmd.
  replace (Z.pred (target - LastApplied rf)) with (target - (LastApplied rf + 1)) by lia.
  done.
Qed.

Lemma applier_spec rf :
  raft_wf rf →
  let target := Z.max (LastApplied rf) (Z.min (CommitIndex rf) (persistedIndex rf)) in
  applier_batch rf =
    (set_LastApplied target rf,
     (λ i, ApplyCommand (command_at rf i) i) <$> seqZ (LastApplied rf + 1) (target - LastApplied rf)).
Proof.
  intros Hwf. apply applier_loop_spec; [done|]. destruct (rw_applied _ Hwf). lia.
Qed.

Lemma Apply_ok rf d h : node_inv rf d h → step_ok rf d h (raft_exec EvApply rf).
Proof.
  intros Hn. cbn [raft_exec]. rewrite applier_spec by apply Hn. cbn [fst].
  eapply step_quiet; try done; [|simpl; lia..]. destruct Hn as [[] _]. split; simpl; try done. lia.
Qed.

Lemma SyncApplied_ok i rf d h : node_inv rf d h → step_ok rf d h (raft_exec (EvSyncApplied i) rf).
Proof.
  intros Hn. cbn [raft_exec]. unfold SyncAppliedIndex. cbv zeta.
  set (i1 := if bool_decide (i < lastIncludedIndex rf) then _ else i).
  set (i2 := if bool_decide (getLastLogIndex rf < i1) then _ else i1).
  assert (lastIncludedIndex rf ≤ i2 ≤ getLastLogIndex rf) as Hi.
  { destruct (rw_commit _ (proj1 Hn)). subst i2 i1. repeat case_bool_decide; lia. }
  clearbody i2. clear i1.
  case_bool_decide; cbn [set_CommitIndex LastApplied]; case_bool_decide;
    simpl in *; (eapply step_quiet; try done; try (simpl; lia));
    destruct Hn as [[] _]; split; simpl; try done; unfold getLastLogIndex in *; simpl; lia.
Qed.

Lemma Kill_ok rf d h : node_inv rf d h → step_ok rf d h (raft_exec EvKill rf).
Proof. intros Hn. cbn [raft_exec]. eapply step_quiet; try done. destruct Hn as [[] _]. by split. Qed.

(** ** Completion of a persist request *)

Lemma step_commitPersist sl lc ci rf d h :
  node_inv rf d h →
  step_ok rf d h (Some (commitPersistResult sl lc (set_persistedIndex ci rf), [])).
Proof.
  intros [Hwf Hd]. exists (commitPersistResult sl lc (set_persistedIndex ci rf)), [], d, h.
  split_and!; try done.
  - split; [|by apply disk_ok_commitPersist; eapply disk_ok_quiet].
    unfold commitPersistResult. destruct Hwf. case_bool_decide; by split.
  - unfold commitPersistResult. case_bool_decide; split_and!; simpl; done || lia.
Qed.

Lemma set_persistedIndex_same rf : set_persistedIndex (persistedIndex rf) rf = rf.
Proof. by destruct rf. Qed.

Lemma Finalize_ok sl lc rf d h : node_inv rf d h → step_ok rf d h (raft_exec (EvFinalize sl lc) rf).
Proof.
  intros Hn. cbn [raft_exec]. unfold AppendEntries_finalize.
  repeat case_bool_decide; try (by apply step_commitPersist);
    rewrite <-(set_persistedIndex_same rf) at 2; by apply step_commitPersist.
Qed.

Lemma Persisted_ok sl lc ci rf d h :
  node_inv rf d h → step_ok rf d h (raft_exec (EvPersisted sl lc ci) rf).
Proof.
  intros Hn. cbn [raft_exec]. unfold completePersistAsync.
  case_bool_decide; [by apply step_commitPersist|].
  rewrite <-(set_persistedIndex_same rf) at 2. by apply step_commitPersist.
Qed.

(** ** Steps that write the log *)

Lemma entry_wf_encode e :
  entry_wf e → entry_wf (encode_if_possible e) ∧ enc_entry (encode_if_possible e) = enc_entry e.
Proof.
  intros Hwf. pose proof Hwf as (_ & _ & Hs & _). unfold encode_if_possible.
  rewrite ensure_fill by done. cbn [default from_option id]. split; [|apply enc_entry_fill].
  eapply entry_wf_equiv; [|exact Hwf]. unfold fill at 2. by rewrite entry_data_fill.
Qed.

Lemma entries_wf_encode es :
  Forall entry_wf es → Forall entry_wf (encode_if_possible <$> es) ∧
  enc_entry <$> (encode_if_possible <$> es) = enc_entry <$> es.
Proof.
  induction 1 as [|e es He _ [IH1 IH2]]; [done|]. destruct (entry_wf_encode e He).
  rewrite !fmap_cons. split; [by constructor|]. by f_equal.
Qed.

(** Entries written for a snapshot position. *)
Lemma dummy_wf t : isS64 t → entry_wf (mkEntry t None []).
Proof. intros. split_and!; try done. Qed.
Lemma dummy_size t : zlen (enc_entry (mkEntry t None [])) = 16.
Proof. done. Qed.

Lemma raft_wf_keys rf lg pc :
  raft_wf rf → keys lg = keys (log rf) → Forall entry_wf lg → raft_wf (set_cache pc (set_log lg rf)).
Proof.
  intros [] Hk Hl. pose proof (keys_length _ _ Hk) as Hlen.
  split; unfold getLastLogIndex, zlen in *; cbn [set_cache set_log log lastIncludedIndex
    lastIncludedTerm CurrentTerm CommitIndex LastApplied me peers nextIndex matchIndex state];
    rewrite ?Hlen; try done.
  destruct rw_log0 as (e & es & El & Ht). rewrite El in Hk. destruct lg as [|e' lg]; [done|].
  exists e', lg. split; [done|]. injection Hk as Hk1 _ _. congruence.
Qed.

(** Saving a node whose log has just been changed. *)
Lemma step_save rf rf1 d h snapshot :
  node_inv rf d h → raft_wf rf1 → persist_inv rf1 d → zlen (full_encode rf1) < 2^32 →
  isS64 (lastIncludedIndex rf1) → isS64 (lastIncludedTerm rf1) →
  isS64 (CurrentTerm rf1) → isS64 (VotedFor rf1) → progress rf rf1 →
  ∃ lg pc req, enqueuePersistLocked snapshot rf1 =
      Some (set_cache pc (set_log lg rf1), Some req, zlen (full_encode rf1), zlen (log rf1)) ∧
    keys lg = keys (log rf1) ∧ run_reqs [req] (d, h) = Some (full_encode rf1, h) ∧
    node_inv (set_cache pc (set_log lg rf1)) (full_encode rf1) h ∧
    progress rf (set_cache pc (set_log lg rf1)).
Proof.
  intros [Hwf Hd] Hwf1 Hi Hlen ? ? ? ? Hpr.
  destruct (dk_tv _ _ _ Hd) as (s & p & _ & Hp & _ & Hple & _).
  destruct (disk_ok_save rf1 d h snapshot p) as (lg & pc & req & E & Hk & Hlw & Hrun & Hdk); try done.
  { apply Hwf1. }
  { apply Hwf1. }
  { etrans; [done|]. apply Hpr. }
  exists lg, pc, req. split_and!; try done.
  split; [|done]. by apply raft_wf_keys.
Qed.

Lemma Start_ok c rf d h :
  node_inv rf d h → event_ok (EvStart c) rf → step_ok rf d h (raft_exec (EvStart c) rf).
Proof.
  intros Hn (Hsz & Hc). cbn [raft_exec]. unfold Start.
  case_bool_decide as Hlead; cbn [negb]; [|by apply step_same]. cbv zeta.
  pose proof Hn as [Hwf Hd]. destruct (entry_wf_encode _ Hc) as [Hew Hee].
  set (entry := encode_if_possible _) in *.
  set (rf0 := markPersistDirtyFromLocked (zlen (log rf)) rf).
  destruct (mark_dirty_frame (zlen (log rf)) rf) as [pc0 Hpc0].
  assert (log rf0 = log rf) as Hl0 by (subst rf0; by rewrite Hpc0). rewrite Hl0.
  set (rf1 := set_log (log rf ++ [entry]) rf0).
  pose proof (dk_range _ _ _ Hd) as (? & ? & ? & ?).
  assert (raft_wf rf1) as Hwf1.
  { subst rf1 rf0. rewrite Hpc0. destruct Hwf. split; unfold getLastLogIndex in *; simpl; try done.
    - destruct rw_log0 as (e & es & -> & ?). by exists e, (es ++ [entry]).
    - rewrite zlen_app. change (zlen [entry]) with 1. lia.
    - intros Hs. rewrite zlen_app. change (zlen [entry]) with 1.
      eapply Forall_impl; [by apply rw_next0|]. simpl. lia.
    - apply Forall_app. split; [done|]. by apply Forall_singleton. }
  destruct (step_save rf rf1 d h None) as (lg & pc & req & -> & Hk & Hrun & Hinv & Hpr); try done.
  { apply (mark_relog rf (log rf ++ [entry]) d (length (log rf))); [apply Hd|done| |].
    - rewrite length_app. lia.
    - by rewrite take_app_length, take_ge by lia. }
  { rewrite zlen_full_encode in *. cbn [ev_size] in Hsz. subst rf1. cbn [set_log log].
    rewrite fmap_app, concat_app, zlen_app. rewrite fmap_cons. cbn [concat].
    change (concat (enc_entry <$> [])) with (@nil Z). rewrite app_nil_r, Hee.
    change (zlen (enc_entry (mkEntry (CurrentTerm rf) (Some c) [])))
      with (zlen (enc_entry (mkEntry 0 (Some c) []))). lia. }
  all: try (subst rf1 rf0; rewrite Hpc0; done).
  cbn [mbind option_bind]. exists (set_cache pc (set_log lg rf1)), [req], (full_encode rf1), h.
  by split_and!.
Qed.

Lemma enqueue_not_hard snapshot rf rf' b sl lc :
  enqueuePersistLocked snapshot rf ≠ Some (rf', Some (ReqHard b), sl, lc).
Proof.
  unfold enqueuePersistLocked. cbv zeta. intros E.
  apply bind_Some in E as ([? ?] & _ & E). repeat case_match; simplify_eq.
Qed.

Lemma run_hard_then d h h2 d' req :
  run_reqs [req] (d, h) = Some (d', h) → (∀ b, req ≠ ReqHard b) →
  run_reqs [ReqHard h2; req] (d, h) = Some (d', h2).
Proof.
  intros Hrun Hn. destruct req as [st sn|pl|b]; [| |by destruct (Hn b)].
  - change (Some (st, h) = Some (d', h)) in Hrun. change (Some (st, h2) = Some (d', h2)). congruence.
  - change ((d0 ← apply_req d (ReqAppend pl); Some (d0, h)) = Some (d', h)) in Hrun.
    change ((d0 ← apply_req d (ReqAppend pl); Some (d0, h2)) = Some (d', h2)).
    destruct (apply_req d (ReqAppend pl)); [|done]. cbn [mbind option_bind] in *. congruence.
Qed.

(** The log kept by a snapshot at [index]: a dummy entry and what follows. *)
Definition snap_log (t offset : Z) (lg : list (LogEntry Cmd)) : list (LogEntry Cmd) :=
  mkEntry t None [] :: drop (Z.to_nat (offset + 1)) lg.

Lemma snap_rest offset (lg : list (LogEntry Cmd)) :
  0 ≤ offset →
  (if bool_decide (offset + 1 < zlen lg) then zdrop (offset + 1) lg else Some []) =
  Some (drop (Z.to_nat (offset + 1)) lg).
Proof.
  intros. case_bool_decide; unfold zlen in *.
  - unfold zdrop. by rewrite bool_decide_true by lia.
  - by rewrite drop_ge by lia.
Qed.

Lemma snap_size t offset (lg : list (LogEntry Cmd)) :
  zlen (concat (enc_entry <$> snap_log t offset lg)) ≤ 16 + zlen (concat (enc_entry <$> lg)).
Proof.
  unfold snap_log. rewrite fmap_cons. cbn [concat]. rewrite zlen_app.
  pose proof (concat_drop_le (Z.to_nat (offset + 1)) lg). rewrite dummy_size. lia.
Qed.

(** The common part of [Snapshot] and [InstallSnapshot]: [persist], then
    [persistedIndex]. *)
Lemma step_persist rf rf1 d h hreq snapshot :
  node_inv rf d h → raft_wf rf1 → persist_inv rf1 d → zlen (full_encode rf1) < 2^32 →
  isS64 (lastIncludedIndex rf1) → isS64 (lastIncludedTerm rf1) →
  isS64 (CurrentTerm rf1) → isS64 (VotedFor rf1) → progress rf rf1 →
  hreq = [] ∨ hreq = [enqueuePersistHardStateLocked rf1] →
  ∃ rf2 req, persist snapshot rf1 = Some (rf2, Some req) ∧
    lastIncludedIndex rf2 = lastIncludedIndex rf1 ∧ lastIncludedTerm rf2 = lastIncludedTerm rf1 ∧
    ∀ ci, step_ok rf d h (Some (if bool_decide (persistedIndex rf2 < ci) then set_persistedIndex ci rf2 else rf2,
                                Some <$> (hreq ++ [req]))).
Proof.
  intros Hn Hwf1 Hi Hlen H1 H2 H3 H4 Hpr Hh.
  destruct (step_save rf rf1 d h snapshot) as (lg & pc & req & E & Hk & Hrun & [Hwf2 Hd2] & Hpr2); try done.
  unfold persist. rewrite E. cbn [mbind option_bind].
  set (rf2 := commitPersistResult _ _ _).
  assert (lastIncludedIndex rf2 = lastIncludedIndex rf1 ∧ lastIncludedTerm rf2 = lastIncludedTerm rf1) as [E1 E2].
  { subst rf2. unfold commitPersistResult. by case_bool_decide. }
  exists rf2, req. split_and!; try done. intros ci.
  assert (∃ h', run_reqs (hreq ++ [req]) (d, h) = Some (full_encode rf1, h') ∧
    disk_ok (set_cache pc (set_log lg rf1)) (full_encode rf1) h') as (h' & Hrun' & Hd').
  { destruct Hh as [->| ->]; [by exists h|].
    exists (encodeHardState (CurrentTerm rf1) (VotedFor rf1)). split.
    - apply (run_hard_then d h); [done|]. intros b ->. by apply enqueue_not_hard in E.
    - destruct (disk_ok_save rf1 d (encodeHardState (CurrentTerm rf1) (VotedFor rf1)) snapshot (tv rf1))
        as (lg' & pc' & req' & E' & _ & _ & _ & Hd'); try done; [apply Hwf1|apply Hwf1|by right|].
      rewrite E in E'. by simplify_eq. }
  eexists _, (hreq ++ [req]), (full_encode rf1), h'. split_and!; [done|done| |].
  - split.
    + subst rf2. unfold commitPersistResult. destruct Hwf2. repeat case_bool_decide; by split.
    + apply (disk_ok_commitPersist (zlen (full_encode rf1)) (zlen (log rf1))) in Hd'.
      fold rf2 in Hd'. case_bool_decide; [|done]. by eapply disk_ok_quiet.
  - eapply progress_trans; [exact Hpr2|]. subst rf2. unfold commitPersistResult.
    repeat case_bool_decide; split_and!; done || (simpl; lia).
Qed.

(** The node with its log cut to a snapshot. *)
Lemma raft_wf_snap rf rf1 t index :
  raft_wf rf → lastIncludedIndex rf < index → isS64 t →
  log rf1 = snap_log t (index - lastIncludedIndex rf) (log rf) →
  lastIncludedIndex rf1 = index → lastIncludedTerm rf1 = t →
  0 ≤ CurrentTerm rf1 → me rf1 = me rf → peers rf1 = peers rf →
  nextIndex rf1 = nextIndex rf → matchIndex rf1 = matchIndex rf →
  (state rf1 = Leader → state rf = Leader ∧ index ≤ getLastLogIndex rf) →
  index ≤ CommitIndex rf1 → CommitIndex rf1 ≤ Z.max index (getLastLogIndex rf) →
  index ≤ LastApplied rf1 ≤ CommitIndex rf1 → raft_wf rf1.
Proof.
  intros [] Hidx Ht El Ei Et ? Em Ep En Ema Hs Hc Hc2 Ha.
  assert (getLastLogIndex rf1 = Z.max index (getLastLogIndex rf)) as Hlast.
  { unfold getLastLogIndex, zlen. rewrite El, Ei. unfold snap_log. cbn [length].
    rewrite length_drop. lia. }
  split.
  - rewrite El, Et. unfold snap_log. by eexists _, _.
  - rewrite Ei. lia.
  - rewrite Hlast, Ei. lia.
  - rewrite Ei. lia.
  - by rewrite Em, Ep, En, Ema.
  - intros Hl. destruct (Hs Hl). rewrite En, Hlast. eapply Forall_impl; [by apply rw_next0|].
    simpl. lia.
  - rewrite El. constructor; [by apply dummy_wf|]. by apply Forall_drop.
Qed.

(** What [Snapshot] hands to [persist]: the node with the log cut at [index],
    everything else of it kept. *)
Lemma snapshot_prepare index sn rf d h :
  node_inv rf d h → lastIncludedIndex rf < index ≤ CommitIndex rf →
  zlen (full_encode rf) + 16 < 2^32 →
  ∃ e rf1, log rf !! Z.to_nat (index - lastIncludedIndex rf) = Some e ∧ isS64 (le_Term e) ∧
    Snapshot index sn rf =
      ('(rf2, req) ← persist sn rf1;
       Some (if bool_decide (persistedIndex rf2 < index) then set_persistedIndex index rf2 else rf2,
             Some req)) ∧
    log rf1 = snap_log (le_Term e) (index - lastIncludedIndex rf) (log rf) ∧
    lastIncludedIndex rf1 = index ∧ lastIncludedTerm rf1 = le_Term e ∧ tv rf1 = tv rf ∧
    CommitIndex rf1 = CommitIndex rf ∧ progress rf rf1 ∧
    raft_wf rf1 ∧ persist_inv rf1 d ∧ zlen (full_encode rf1) < 2^32.
Proof.
  intros [Hwf Hd] Hidx Hsz. destruct (rw_commit _ Hwf) as [Hc1 Hc2].
  unfold Snapshot. rewrite !bool_decide_false by lia. cbv zeta.
  set (offset := index - lastIncludedIndex rf).
  assert (0 < offset) as Hoff by (subst offset; lia).
  unfold zget. rewrite (bool_decide_false (offset < 0)) by lia.
  destruct (log rf !! Z.to_nat offset) as [e|] eqn:He.
  2: { apply lookup_ge_None in He. unfold getLastLogIndex, zlen in Hc2. lia. }
  rewrite some_bind, snap_rest, some_bind by lia.
  change (mkEntry (le_Term e) None [] :: drop (Z.to_nat (offset + 1)) (log rf))
    with (snap_log (le_Term e) offset (log rf)).
  pose proof (Forall_lookup_1 _ _ _ _ (rw_entries _ Hwf) He) as (Hte & _).
  pose proof (relog_mark rf (snap_log (le_Term e) offset (log rf)) d (dk_inv _ _ _ Hd)) as Hinv0.
  destruct (mark_dirty_frame 0 (set_log (snap_log (le_Term e) offset (log rf)) rf)) as [pc0 Hpc0].
  rewrite Hpc0 in *.
  match goal with |- context [persist sn ?r] => set (rf1 := r) end.
  assert (log rf1 = snap_log (le_Term e) offset (log rf) ∧ cache rf1 = pc0 ∧ lastIncludedIndex rf1 = index ∧
    lastIncludedTerm rf1 = le_Term e ∧ tv rf1 = tv rf ∧ CommitIndex rf1 = CommitIndex rf ∧
    LastApplied rf1 = Z.max (LastApplied rf) index ∧ me rf1 = me rf ∧ peers rf1 = peers rf ∧
    nextIndex rf1 = nextIndex rf ∧ matchIndex rf1 = matchIndex rf ∧ state rf1 = state rf)
    as (E1 & E2 & E3 & E4 & E5 & E6 & E7 & E8 & E9 & E10 & E11 & E12).
  { subst rf1. case_bool_decide; simpl in *; split_and!; try done; lia. }
  exists e, rf1. clearbody rf1. split_and!; try done; try lia; try congruence.
  - split_and!; try lia; try congruence. by rewrite E5.
  - eapply (raft_wf_snap rf rf1 (le_Term e) index); try done; try lia.
    + injection E5 as -> _. apply (rw_lii _ Hwf).
    + intros. rewrite <-E12. split; [done|lia].
    + destruct (rw_applied _ Hwf). lia.
  - unfold persist_inv. rewrite E1, E2. exact Hinv0.
  - rewrite zlen_full_encode in *. rewrite E1. pose proof (snap_size (le_Term e) offset (log rf)). lia.
Qed.

Lemma Snapshot_ok index sn rf d h :
  node_inv rf d h → event_ok (EvSnapshot index sn) rf →
  step_ok rf d h (raft_exec (EvSnapshot index sn) rf).
Proof.
  intros Hn (Hsz & Hidx). cbn [raft_exec].
  destruct (decide (lastIncludedIndex rf < index ≤ CommitIndex rf)) as [Hin|Hout].
  2: { unfold Snapshot. case_bool_decide; [by apply step_same|].
       rewrite bool_decide_true by lia. by apply step_same. }
  destruct (snapshot_prepare index sn rf d h Hn Hin Hsz)
    as (e & rf1 & _ & Hte & -> & _ & E3 & E4 & E5 & _ & Hpr & Hwf1 & Hinv & Hlen).
  pose proof (dk_range _ _ _ (proj2 Hn)) as (_ & _ & ? & ?). injection E5 as E5a E5b.
  destruct (step_persist rf rf1 d h [] sn) as (rf2 & req & -> & _ & _ & Hstep);
    rewrite ?E3, ?E4, ?E5a, ?E5b; try done; [by left|].
  rewrite some_bind. apply Hstep.
Qed.

(** The node after the term of an accepted [InstallSnapshot] is adopted, and
    the request that saves it. *)
Definition is_enter (now : Z) (args : InstallSnapshotArgs) rf : Raft Cmd :=
  resetElectionTimer now
    (if bool_decide (CurrentTerm rf < is_Term args)
     then setLeaseUntilLocked 0 (setStateLocked Follower
            (set_VotedFor (-1) (set_CurrentTerm (is_Term args) rf)))
     else rf).

Definition is_hard (now : Z) (args : InstallSnapshotArgs) rf : list disk_req :=
  if bool_decide (CurrentTerm rf < is_Term args)
  then [enqueuePersistHardStateLocked (is_enter now args rf)] else [].

Lemma is_enter_facts now args rf :
  CurrentTerm rf ≤ is_Term args → (state rf = Leader → is_Term args ≠ CurrentTerm rf) →
  isS64 (VotedFor rf) →
  let rf0 := is_enter now args rf in
  log rf0 = log rf ∧ cache rf0 = cache rf ∧ lastIncludedIndex rf0 = lastIncludedIndex rf ∧
  lastIncludedTerm rf0 = lastIncludedTerm rf ∧ CurrentTerm rf0 = is_Term args ∧
  CommitIndex rf0 = CommitIndex rf ∧ LastApplied rf0 = LastApplied rf ∧ me rf0 = me rf ∧
  peers rf0 = peers rf ∧ nextIndex rf0 = nextIndex rf ∧ matchIndex rf0 = matchIndex rf ∧
  state rf0 ≠ Leader ∧ tv_le (tv rf) (tv rf0) ∧ isS64 (VotedFor rf0) ∧
  (is_Term args ≤ CurrentTerm rf → tv rf0 = tv rf).
Proof.
  intros Hle Hlead Hv. unfold is_enter, tv_le, tv. case_bool_decide; simpl; split_and!; try done; try lia.
  intros Hs. apply Hlead; [done|lia].
Qed.

(** A snapshot that is not newer than the node's own only brings its term. *)
Lemma is_old_ok now args rf d h :
  node_inv rf d h → event_ok (EvInstallSnapshot now args) rf → CurrentTerm rf ≤ is_Term args →
  step_ok rf d h (Some (is_enter now args rf, Some <$> is_hard now args rf)).
Proof.
  intros Hn (_ & Ht & _ & _ & Hlead & _) Hle.
  pose proof (dk_range _ _ _ (proj2 Hn)) as (_ & _ & _ & Hv).
  destruct (is_enter_facts now args rf Hle Hlead Hv)
    as (E1 & E2 & E3 & E4 & E5 & E6 & E7 & E8 & E9 & E10 & E11 & E12 & Htv & Hv0 & Hq).
  unfold is_hard. set (rf0 := is_enter now args rf) in *. clearbody rf0. case_bool_decide.
  - eapply (step_hard rf rf0); try done. by rewrite E5.
  - eapply (step_quiet rf rf0); try done; try lia; [apply Hq; lia|].
    eapply (raft_wf_role rf); try done; [apply Hn|lia].
Qed.

(** The entries kept behind the snapshot: those after it when the log holds
    its last entry, none otherwise; committed ones are kept in either case. *)
Lemma is_cut_spec idx st rf :
  lastIncludedIndex rf < idx → (idx ≤ CommitIndex rf → getTerm rf idx = Some st) →
  CommitIndex rf ≤ getLastLogIndex rf →
  ∃ same k,
    (if bool_decide (idx ≤ getLastLogIndex rf)
     then t ← getTerm rf idx; Some (bool_decide (t = st)) else Some false) = Some same ∧
    (if same : bool then
       rest ← (if bool_decide (idx - lastIncludedIndex rf + 1 < zlen (log rf))
               then zdrop (idx - lastIncludedIndex rf + 1) (log rf) else Some []);
       Some (mkEntry st None [] :: rest)
     else Some [mkEntry st None []]) = Some (mkEntry st None [] :: drop k (log rf)) ∧
    (idx ≤ CommitIndex rf → k = Z.to_nat (idx - lastIncludedIndex rf + 1)).
Proof.
  intros Hidx Hcom Hc. case_bool_decide as Hin.
  - destruct (getTerm_is_Some rf idx Hin) as [t' Ht']. rewrite Ht'. cbn [mbind option_bind].
    exists (bool_decide (t' = st)). case_bool_decide as Hst.
    + exists (Z.to_nat (idx - lastIncludedIndex rf + 1)). rewrite snap_rest by lia.
      split_and!; done.
    + exists (length (log rf)). rewrite drop_ge by lia. split_and!; try done.
      intros Hle. rewrite Hcom in Ht' by lia. congruence.
  - exists false, (length (log rf)). rewrite drop_ge by lia. split_and!; try done. lia.
Qed.

(** The node whose log starts at the installed snapshot. *)
Lemma raft_wf_install rf rf1 idx st k :
  raft_wf rf → lastIncludedIndex rf < idx → isS64 st →
  (idx ≤ CommitIndex rf → k = Z.to_nat (idx - lastIncludedIndex rf + 1)) →
  log rf1 = mkEntry st None [] :: drop k (log rf) →
  lastIncludedIndex rf1 = idx → lastIncludedTerm rf1 = st → 0 ≤ CurrentTerm rf1 →
  CommitIndex rf1 = Z.max (CommitIndex rf) idx → LastApplied rf1 = Z.max (LastApplied rf) idx →
  me rf1 = me rf → peers rf1 = peers rf → nextIndex rf1 = nextIndex rf →
  matchIndex rf1 = matchIndex rf → state rf1 ≠ Leader → raft_wf rf1.
Proof.
  intros [] Hidx Hst Hk G1 G3 G4 Hct G6 G7 G8 G9 G10 G11 G12. split; try done.
  - rewrite G1, G4. by eexists _, _.
  - rewrite G3. lia.
  - unfold getLastLogIndex in *. rewrite G1, G3, G6. unfold zlen in *. cbn [length].
    rewrite length_drop. destruct (decide (idx ≤ CommitIndex rf)) as [Hle|]; [rewrite (Hk Hle)|]; lia.
  - rewrite G3, G6, G7. lia.
  - by rewrite G8, G9, G10, G11.
  - rewrite G1. constructor; [by apply dummy_wf|]. by apply Forall_drop.
Qed.

Lemma InstallSnapshot_ok now args rf d h :
  node_inv rf d h → event_ok (EvInstallSnapshot now args) rf →
  step_ok rf d h (raft_exec (EvInstallSnapshot now args) rf).
Proof.
  intros Hn Hok. pose proof Hok as (Hsz & Ht & Hidx & Hlt & Hlead & Hcom).
  cbn [raft_exec]. unfold InstallSnapshot.
  case_bool_decide as Hstale; [by apply step_same|]. cbv zeta.
  pose proof Hn as [Hwf Hd]. destruct (rw_commit _ Hwf) as [Hc1 Hc2]. destruct (rw_applied _ Hwf) as [Ha1 Ha2].
  pose proof (dk_range _ _ _ Hd) as (? & ? & ? & Hv). destruct (rw_lii _ Hwf) as [Hl0 Ht0].
  assert (CurrentTerm rf ≤ is_Term args) as Hle by lia.
  pose proof (is_old_ok now args rf d h Hn Hok Hle) as Hrej.
  destruct (is_enter_facts now args rf Hle Hlead Hv)
    as (E1 & E2 & E3 & E4 & E5 & E6 & E7 & E8 & E9 & E10 & E11 & E12 & Htv & Hv0 & _).
  fold (is_enter now args rf). set (hard := if bool_decide (CurrentTerm rf < is_Term args) then _ else _).
  assert (hard = Some <$> is_hard now args rf) as ->.
  { subst hard. unfold is_hard, is_enter. by case_bool_decide. }
  assert (is_hard now args rf = [] ∨
    is_hard now args rf = [enqueuePersistHardStateLocked (is_enter now args rf)]) as Hh
    by (unfold is_hard; case_bool_decide; auto).
  set (rf0 := is_enter now args rf) in *. clearbody rf0.
  case_bool_decide as Hold; [exact Hrej|]. rewrite E3 in Hold.
  destruct (is_cut_spec (is_LastIncludedIndex args) (is_LastIncludedTerm args) rf0)
    as (same & k & -> & Hlg & Hk).
  { lia. }
  { unfold getTerm. rewrite E1, E3, E4. intros. apply Hcom. lia. }
  { unfold getLastLogIndex in *. rewrite E1, E3. lia. }
  rewrite some_bind, Hlg, some_bind, E1. rewrite E3, E6 in Hk. clear Hlg Hrej.
  set (lg := mkEntry (is_LastIncludedTerm args) None [] :: drop k (log rf)).
  pose proof (relog_mark rf0 lg d ltac:(unfold persist_inv; rewrite E1, E2; apply Hd)) as Hinv0.
  destruct (mark_dirty_frame 0 (set_log lg rf0)) as [pc0 Hpc0]. rewrite Hpc0 in *.
  match goal with |- context [persist _ ?r] => set (rf1 := r) end.
  destruct (step_persist rf rf1 d h (is_hard now args rf) (nil_if_empty (is_Data args)))
    as (rf2 & req & -> & F1 & F2 & Hstep); try done.
  - eapply (raft_wf_install rf rf1 (is_LastIncludedIndex args) (is_LastIncludedTerm args) k);
      try done; try lia; subst rf1; cbn; rewrite ?E5, ?E6, ?E7; done || lia.
  - rewrite zlen_full_encode in *. cbn [ev_size] in Hsz. change (log rf1) with lg. subst lg.
    rewrite fmap_cons. cbn [concat]. rewrite zlen_app, dummy_size.
    pose proof (concat_drop_le k (log rf)). lia.
  - cbn. by rewrite E5.
  - split_and!; cbn; try lia; try congruence. done.
  - rewrite some_bind, F1. change [Some req] with (Some <$> [req]). rewrite <-fmap_app. apply Hstep.
Qed.

(** ** AppendEntries *)

Lemma conflict_first_spec fuel : ∀ rf ct index,
  lastIncludedIndex rf ≤ index ≤ getLastLogIndex rf → index - lastIncludedIndex rf ≤ Z.of_nat fuel →
  ∃ ci, conflict_first fuel rf ct index = Some ci ∧ lastIncludedIndex rf ≤ ci ≤ index ∧
    (∀ j, ci ≤ j < index → getTerm rf j = Some ct) ∧
    (ci = lastIncludedIndex rf ∨ getTerm rf (ci - 1) ≠ Some ct).
Proof.
  induction fuel as [|fuel IH]; intros rf ct index Hi Hf; cbn [conflict_first].
  { exists index. split_and!; try lia; try done. }
  case_bool_decide as Hlt.
  2: { exists index. split_and!; try lia; try done. }
  destruct (getTerm_is_Some rf (index - 1)) as [t Ht]; [lia|]. rewrite Ht, some_bind.
  case_bool_decide as Htc.
  - subst t. destruct (IH rf ct (index - 1)) as (ci & E & Hb & Hall & Hend); [lia|lia|].
    exists ci. split_and!; try done; try lia.
    intros j Hj. destruct (decide (j = index - 1)) as [->|]; [done|]. apply Hall. lia.
  - exists index. split_and!; try lia; try done. right. congruence.
Qed.

(** The node after steps 2 and 3. *)
Definition ae_enter (now : Z) (args : AppendEntriesArgs Cmd) rf : Raft Cmd :=
  resetElectionTimer now (setStateLocked Follower
    (if bool_decide (CurrentTerm rf < ae_Term args)
     then set_VotedFor (-1) (set_CurrentTerm (ae_Term args) rf) else rf)).

(** The position in the slice of the entry after [PrevLogIndex]. *)
Definition ae_pos (args : AppendEntriesArgs Cmd) rf : nat :=
  Z.to_nat (ae_PrevLogIndex args + 1 - lastIncludedIndex rf).

(** The specification of the handler: what is answered and how the log
    changes, case by case. *)
Inductive ae_result (args : AppendEntriesArgs Cmd) rf (o : AppendEntries_out Cmd) : Prop :=
  | ae_stale :
      ae_Term args < CurrentTerm rf → aeo_rf o = rf → aer_Success (aeo_reply o) = false →
      aer_Term (aeo_reply o) = CurrentTerm rf → ae_result args rf o
  | ae_too_short :
      CurrentTerm rf ≤ ae_Term args → getLastLogIndex rf < ae_PrevLogIndex args →
      log (aeo_rf o) = log rf → CommitIndex (aeo_rf o) = CommitIndex rf →
      aeo_reply o = {| aer_Term := ae_Term args; aer_Success := false; aer_ConflictTerm := -1;
                       aer_ConflictIndex := getLastLogIndex rf + 1 |} → ae_result args rf o
  | ae_compacted :
      CurrentTerm rf ≤ ae_Term args → ae_PrevLogIndex args < lastIncludedIndex rf →
      log (aeo_rf o) = log rf → CommitIndex (aeo_rf o) = CommitIndex rf →
      aeo_reply o = {| aer_Term := ae_Term args; aer_Success := false; aer_ConflictTerm := -1;
                       aer_ConflictIndex := lastIncludedIndex rf + 1 |} → ae_result args rf o
  | ae_mismatch t ci :
      CurrentTerm rf ≤ ae_Term args →
      getTerm rf (ae_PrevLogIndex args) = Some t → t ≠ ae_PrevLogTerm args →
      log (aeo_rf o) = log rf → CommitIndex (aeo_rf o) = CommitIndex rf →
      aeo_reply o = {| aer_Term := ae_Term args; aer_Success := false; aer_ConflictTerm := t;
                       aer_ConflictIndex := ci |} →
      lastIncludedIndex rf ≤ ci ≤ ae_PrevLogIndex args →
      (∀ j, ci ≤ j ≤ ae_PrevLogIndex args → getTerm rf j = Some t) →
      (ci = lastIncludedIndex rf ∨ getTerm rf (ci - 1) ≠ Some t) → ae_result args rf o
  | ae_accepted :
      CurrentTerm rf ≤ ae_Term args →
      lastIncludedIndex rf ≤ ae_PrevLogIndex args ≤ getLastLogIndex rf →
      getTerm rf (ae_PrevLogIndex args) = Some (ae_PrevLogTerm args) →
      aer_Success (aeo_reply o) = true → aer_Term (aeo_reply o) = ae_Term args →
      lastIncludedIndex (aeo_rf o) = lastIncludedIndex rf →
      lastIncludedTerm (aeo_rf o) = lastIncludedTerm rf →
      keys (log (aeo_rf o)) = keys (take (ae_pos args rf) (log rf)) ++
        merge_suffix (keys (drop (ae_pos args rf) (log rf))) (keys (ae_Entries args)) →
      CommitIndex (aeo_rf o) = (if bool_decide (CommitIndex rf < ae_LeaderCommit args)
        then Z.min (ae_LeaderCommit args) (getLastLogIndex (aeo_rf o)) else CommitIndex rf) →
      ae_result args rf o.

Definition aeo_reqs (o : AppendEntries_out Cmd) : list (option disk_req) :=
  (Some <$> aeo_hard o) ++ match aeo_persist o with Some (req, _, _) => [req] | None => [] end.

(** The node after the log has been merged, before it is saved. *)
Lemma ae_merge_wf now args rf d h k lg :
  node_inv rf d h → ae_msg_ok args rf →
  lastIncludedIndex rf ≤ ae_PrevLogIndex args ≤ getLastLogIndex rf →
  (∃ j, (ae_pos args rf + k ≤ j)%nat ∧ lg = take j (log rf)) →
  CommitIndex rf < lastIncludedIndex rf + zlen lg →
  ∀ pc, raft_wf (set_log (lg ++ (encode_if_possible <$> drop k (ae_Entries args)))
                   (set_cache pc (ae_enter now args rf))).
Proof.
  intros [Hwf Hd] (Hsz & Ht & Hes) Hprev (j & Hj & ->) Hc pc.
  set (rf1 := set_log _ _).
  destruct (entries_wf_encode (drop k (ae_Entries args))) as [Hw1 _]; [by apply Forall_drop|].
  assert (log rf1 = take j (log rf) ++ (encode_if_possible <$> drop k (ae_Entries args)) ∧
    lastIncludedIndex rf1 = lastIncludedIndex rf ∧ lastIncludedTerm rf1 = lastIncludedTerm rf ∧
    CommitIndex rf1 = CommitIndex rf ∧ LastApplied rf1 = LastApplied rf ∧ me rf1 = me rf ∧
    peers rf1 = peers rf ∧ nextIndex rf1 = nextIndex rf ∧ matchIndex rf1 = matchIndex rf ∧
    state rf1 = Follower ∧ 0 ≤ CurrentTerm rf1)
    as (E1 & E2 & E3 & E4 & E5 & E6 & E7 & E8 & E9 & E10 & E11).
  { subst rf1. unfold ae_enter. destruct (rw_lii _ Hwf). case_bool_decide; simpl; split_and!; try done. lia. }
  clearbody rf1. destruct Hwf. split.
  - rewrite E1, E3. destruct rw_log0 as (e & es & El & Hh). unfold ae_pos in Hj. rewrite El.
    destruct j as [|j]; [lia|]. cbn [take app]. by eexists _, _.
  - rewrite E2. lia.
  - split; [rewrite E2, E4; lia|]. rewrite E4.
    unfold getLastLogIndex in *. rewrite E1, E2, zlen_app. unfold zlen in *. lia.
  - rewrite E2, E4, E5. lia.
  - by rewrite E6, E7, E8, E9.
  - by rewrite E10.
  - rewrite E1. apply Forall_app. split; [by apply Forall_take|done].
Qed.

Lemma ae_enter_facts now args rf :
  CurrentTerm rf ≤ ae_Term args →
  let rf1 := ae_enter now args rf in
  log rf1 = log rf ∧ cache rf1 = cache rf ∧ lastIncludedIndex rf1 = lastIncludedIndex rf ∧
  lastIncludedTerm rf1 = lastIncludedTerm rf ∧ CommitIndex rf1 = CommitIndex rf ∧
  LastApplied rf1 = LastApplied rf ∧ me rf1 = me rf ∧ peers rf1 = peers rf ∧
  nextIndex rf1 = nextIndex rf ∧ matchIndex rf1 = matchIndex rf ∧ state rf1 = Follower ∧
  CurrentTerm rf1 = ae_Term args ∧ tv_le (tv rf) (tv rf1) ∧
  (isS64 (VotedFor rf) → isS64 (VotedFor rf1)) ∧
  (bool_decide (CurrentTerm rf < ae_Term args) = false → tv rf1 = tv rf).
Proof.
  intros Hle. unfold ae_enter, tv_le, tv. case_bool_decide; simpl; split_and!; try done; try lia.
Qed.

(** A rejected call still records the new term. *)
Lemma ae_reject_ok now args rf d h reply :
  node_inv rf d h → CurrentTerm rf ≤ ae_Term args → isS64 (ae_Term args) →
  step_ok rf d h (Some (ae_enter now args rf,
    aeo_reqs (mkAEO (ae_enter now args rf) reply
      (if bool_decide (CurrentTerm rf < ae_Term args)
       then [enqueuePersistHardStateLocked (ae_enter now args rf)] else []) None))).
Proof.
  intros Hn Hle Ht.
  destruct (ae_enter_facts now args rf Hle)
    as (E1 & E2 & E3 & E4 & E5 & E6 & E7 & E8 & E9 & E10 & E11 & E12 & E13 & E14 & E15).
  unfold aeo_reqs. cbn [aeo_hard aeo_persist]. rewrite app_nil_r.
  set (rf1 := ae_enter now args rf) in *. clearbody rf1.
  pose proof (dk_range _ _ _ (proj2 Hn)) as (_ & _ & _ & Hv).
  destruct (bool_decide (CurrentTerm rf < ae_Term args)).
  - eapply (step_hard rf rf1); try done.
    + by rewrite E11.
    + by rewrite E12.
    + auto.
  - eapply (step_quiet rf rf1); try done; auto; try lia.
    eapply (raft_wf_role rf); try done; [apply Hn|by rewrite E11|lia].
Qed.

(** The tail of an accepted call: the commit index. *)
Lemma step_commit_tail rf rf1 reqs d h lc :
  step_ok rf d h (Some (rf1, reqs)) →
  step_ok rf d h (Some (if bool_decide (CommitIndex rf1 < lc)
    then set_CommitIndex (Z.min lc (getLastLogIndex rf1)) rf1 else rf1, reqs)).
Proof.
  intros (rf' & reqs' & d' & h' & E & Hrun & [Hwf Hd] & Hpr). injection E as <- ->.
  case_bool_decide; [|by exists rf1, reqs', d', h'].
  exists (set_CommitIndex (Z.min lc (getLastLogIndex rf1)) rf1), reqs', d', h'.
  destruct (rw_commit _ Hwf). split_and!; try done.
  - split; [|by eapply disk_ok_quiet]. destruct Hwf. split; simpl; try done; try lia.
    unfold getLastLogIndex in *. simpl. lia.
  - eapply progress_trans; [done|]. split_and!; done || (simpl; lia).
Qed.

(** The first half of steps 6 and 7 cuts the log at the first conflicting
    entry, which is above the commit index when the message agrees with the
    committed entries, and leaves the saved prefix described by the cache. *)
Lemma ae_cut_spec now args rf d h :
  node_inv rf d h → CurrentTerm rf ≤ ae_Term args →
  lastIncludedIndex rf ≤ ae_PrevLogIndex args ≤ getLastLogIndex rf →
  ∃ k lg pc removed,
    remove_conflicts (ae_Entries args) (ae_PrevLogIndex args + 1) 0 (ae_enter now args rf) =
      Some (k, set_cache pc (set_log lg (ae_enter now args rf)), removed) ∧
    (removed = true → (k < length (ae_Entries args))%nat) ∧
    (removed = false → set_cache pc (set_log lg (ae_enter now args rf)) = ae_enter now args rf) ∧
    keys (take (ae_pos args rf) (log rf)) ++
      merge_suffix (keys (drop (ae_pos args rf) (log rf))) (keys (ae_Entries args)) =
      keys lg ++ keys (drop k (ae_Entries args)) ∧
    (agrees_committed args rf → CommitIndex rf < lastIncludedIndex rf + zlen lg) ∧
    (∃ j, (ae_pos args rf + k ≤ j)%nat ∧ lg = take j (log rf)) ∧
    persist_inv (set_cache pc (set_log lg (ae_enter now args rf))) d.
Proof.
  intros [Hwf Hd] Hle Hprev. destruct (rw_commit _ Hwf) as [_ Hc2].
  destruct (ae_enter_facts now args rf Hle) as (E1 & E2 & E3 & _).
  set (rf1 := ae_enter now args rf) in *. set (pos := ae_pos args rf). clearbody rf1.
  assert (ae_PrevLogIndex args + 1 = lastIncludedIndex rf1 + Z.of_nat pos) as Hpos
    by (subst pos; unfold ae_pos; lia).
  assert (1 ≤ pos ≤ length (log rf))%nat as Hposb.
  { subst pos. unfold ae_pos, getLastLogIndex, zlen in *. lia. }
  assert (persist_inv rf1 d) as Hinv1 by (unfold persist_inv; rewrite E1, E2; apply Hd).
  rewrite Hpos. destruct (remove_conflicts_spec (ae_Entries args) pos 0 rf1)
    as (k & lg & pc & removed & -> & _ & Hnr & Hrm & Hmerge & _ & Hdiff); [lia|].
  rewrite E1 in *. exists k, lg, pc, removed. split; [done|].
  specialize (Hmerge ltac:(lia)). destruct removed.
  - destruct (Hrm eq_refl) as (Hkl & -> & Hlt & Hpc). destruct (Hdiff eq_refl) as (x & e & Hx & He & Hne).
    split_and!; try done.
    + intros Hcom. unfold zlen. rewrite length_take, Nat.min_l by lia.
      destruct (decide (ae_PrevLogIndex args + 1 + Z.of_nat k ≤ CommitIndex rf)) as [Hbad|]; [exfalso|lia].
      specialize (Hcom k e He ltac:(lia)). rewrite getTerm_inside in Hcom by lia.
      replace (Z.to_nat (ae_PrevLogIndex args + 1 + Z.of_nat k - lastIncludedIndex rf))
        with (pos + k)%nat in Hcom by lia.
      rewrite Hx in Hcom. simpl in Hcom. congruence.
    + by exists (pos + k)%nat.
    + change (persist_inv (set_log (take (pos + k) (log rf)) (set_cache pc rf1)) d). rewrite Hpc.
      apply mark_relog; rewrite ?E1, ?length_take; try lia; [done|]. by rewrite take_take, Nat.min_id.
  - destruct (Hnr eq_refl) as [-> Hpc].
    assert (set_cache pc (set_log (log rf) rf1) = rf1) as Hsame.
    { rewrite <-E1. transitivity (set_cache pc rf1); [by destruct rf1|done]. }
    rewrite Hsame. split_and!; try done; [unfold getLastLogIndex in Hc2; lia|].
    exists (pos + k + length (log rf))%nat. rewrite take_ge by lia. split; [lia|done].
Qed.

(** The second half appends the new entries to the cut log and saves the
    node. *)
Lemma ae_append_save now args rf d h k lg pc :
  node_inv rf d h → ae_msg_ok args rf → CurrentTerm rf ≤ ae_Term args →
  lastIncludedIndex rf ≤ ae_PrevLogIndex args ≤ getLastLogIndex rf →
  (∃ j, (ae_pos args rf + k ≤ j)%nat ∧ lg = take j (log rf)) →
  persist_inv (set_cache pc (set_log lg (ae_enter now args rf))) d →
  let rf2 := markPersistDirtyFromLocked (zlen lg) (set_cache pc (set_log lg (ae_enter now args rf))) in
  ∃ rf4 req stateLen logCount,
    enqueuePersistLocked None
      (set_log (log rf2 ++ (encode_if_possible <$> drop k (ae_Entries args))) rf2) =
      Some (rf4, Some req, stateLen, logCount) ∧
    keys (log rf4) = keys lg ++ keys (drop k (ae_Entries args)) ∧
    lastIncludedIndex rf4 = lastIncludedIndex rf ∧ lastIncludedTerm rf4 = lastIncludedTerm rf ∧
    CommitIndex rf4 = CommitIndex rf ∧ CurrentTerm rf4 = ae_Term args ∧
    (CommitIndex rf < lastIncludedIndex rf + zlen lg → step_ok rf d h (Some (rf4, [Some req]))).
Proof.
  intros Hn Hok Hle Hprev Hj Hinv. cbv zeta. pose proof Hok as (Hsz & Ht & Hes).
  destruct (ae_enter_facts now args rf Hle)
    as (_ & _ & E3 & E4 & E5 & E6 & E7 & E8 & _ & _ & _ & E12 & E13 & E14 & _).
  set (new := encode_if_possible <$> drop k (ae_Entries args)).
  destruct (entries_wf_encode (drop k (ae_Entries args))) as [Hnew Henc]; [by apply Forall_drop|].
  destruct (mark_dirty_frame (zlen lg) (set_cache pc (set_log lg (ae_enter now args rf)))) as [pc3 Hpc3].
  assert (CommitIndex rf < lastIncludedIndex rf + zlen lg →
    raft_wf (set_log (lg ++ new) (set_cache pc3 (ae_enter now args rf)))) as Hwf3
    by (intros; by eapply ae_merge_wf).
  assert (persist_inv (set_log (lg ++ new) (set_cache pc3 (ae_enter now args rf))) d) as Hinv3.
  { pose proof (mark_relog _ (lg ++ new) d (length lg) Hinv) as Hm. unfold zlen in Hpc3.
    rewrite Hpc3 in Hm. apply Hm; [done|rewrite length_app; lia|].
    by rewrite take_app_length, take_ge by (cbn [set_cache set_log log]; lia). }
  rewrite Hpc3. pose proof (dk_range _ _ _ (proj2 Hn)) as (R1 & R2 & _ & R4).
  set (rf1 := ae_enter now args rf) in *. clearbody rf1. clear Hpc3 Hinv.
  cbn [set_cache set_log log].
  change (set_log (lg ++ new) (set_cache pc3 (set_cache pc (set_log lg rf1))))
    with (set_log (lg ++ new) (set_cache pc3 rf1)).
  destruct Hj as (j & _ & Hj). fold new in Hnew, Henc.
  assert (zlen (full_encode (set_log (lg ++ new) (set_cache pc3 rf1))) < 2^32) as Hlen.
  { rewrite zlen_full_encode in *. cbn [set_log log]. rewrite fmap_app, concat_app, zlen_app, Henc, Hj.
    pose proof (concat_drop_le k (ae_Entries args)). pose proof (concat_take_le j (log rf)). lia. }
  destruct (enqueue_spec (set_log (lg ++ new) (set_cache pc3 rf1)) d None Hinv3)
    as (lg' & pc' & req & E & Hlg' & _); [|done|].
  { cbn [set_log log]. apply Forall_app. split; [|done]. rewrite Hj. apply Forall_take, Hn. }
  eexists _, req, _, _. split; [exact E|]. split_and!; try done.
  - cbn [set_cache set_log log]. apply (f_equal (fmap key)) in Hlg'. rewrite <-!list_fmap_compose in Hlg'.
    change (keys lg' = keys (lg ++ new)) in Hlg'. rewrite Hlg'. unfold keys at 1.
    rewrite fmap_app. f_equal. apply keys_encode_if_possible.
  - intros Hcut. destruct (step_save rf (set_log (lg ++ new) (set_cache pc3 rf1)) d h None)
      as (lg2 & pc2 & req2 & E2 & _ & Hrun & Hinv' & Hpr'); auto; cbn; rewrite ?E3, ?E4, ?E12; auto.
    + split_and!; cbn; try lia; try congruence. done.
    + rewrite E in E2. injection E2 as -> -> ->. by eexists _, [req2], _, h.
Qed.

(** Step 8 moves the commit index; the answer is then an acceptance. *)
Lemma ae_accept_result args rf rf1 reply hard pers :
  CurrentTerm rf ≤ ae_Term args →
  lastIncludedIndex rf ≤ ae_PrevLogIndex args ≤ getLastLogIndex rf →
  getTerm rf (ae_PrevLogIndex args) = Some (ae_PrevLogTerm args) →
  aer_Success reply = true → aer_Term reply = ae_Term args →
  lastIncludedIndex rf1 = lastIncludedIndex rf → lastIncludedTerm rf1 = lastIncludedTerm rf →
  CommitIndex rf1 = CommitIndex rf →
  keys (log rf1) = keys (take (ae_pos args rf) (log rf)) ++
    merge_suffix (keys (drop (ae_pos args rf) (log rf))) (keys (ae_Entries args)) →
  ae_result args rf (mkAEO (if bool_decide (CommitIndex rf < ae_LeaderCommit args)
    then set_CommitIndex (Z.min (ae_LeaderCommit args) (getLastLogIndex rf1)) rf1 else rf1)
    reply hard pers).
Proof.
  intros. apply ae_accepted; cbn [aeo_rf aeo_reply]; try done; by case_bool_decide.
Qed.

Lemma AppendEntries_spec now args rf d h :
  node_inv rf d h → ae_msg_ok args rf →
  ∃ o, AppendEntries now args rf = Some o ∧ ae_result args rf o ∧
    (agrees_committed args rf → step_ok rf d h (Some (aeo_rf o, aeo_reqs o))).
Proof.
  intros Hn Hok. pose proof Hok as (_ & Ht & _). unfold AppendEntries. cbv zeta.
  case_bool_decide as Hstale.
  { eexists. split; [reflexivity|]. split; [by apply ae_stale|]. intros _. by apply step_same. }
  assert (CurrentTerm rf ≤ ae_Term args) as Hle by lia.
  pose proof (λ reply, ae_reject_ok now args rf d h reply Hn Hle Ht) as Hrej.
  pose proof (λ k lg pc, ae_append_save now args rf d h k lg pc Hn Hok Hle) as Hsave.
  pose proof (ae_cut_spec now args rf d h Hn Hle) as Hcut.
  destruct (ae_enter_facts now args rf Hle) as (E1 & _ & E3 & E4 & E5 & _ & _ & _ & _ & _ & _ & E12 & _).
  fold (ae_enter now args rf).
  assert (∀ i, getTerm (ae_enter now args rf) i = getTerm rf i) as Egt
    by (intros; unfold getTerm; by rewrite E1, E3, E4).
  assert (getLastLogIndex (ae_enter now args rf) = getLastLogIndex rf) as Elast
    by (unfold getLastLogIndex; by rewrite E1, E3).
  set (rf1 := ae_enter now args rf) in *. clearbody rf1. rewrite Elast, E3, Egt, E12.
  set (newer := bool_decide (CurrentTerm rf < ae_Term args)) in *. clearbody newer.
  case_bool_decide as Hshort.
  { eexists. split; [reflexivity|]. split; [|intros _; apply Hrej]. by apply ae_too_short. }
  case_bool_decide as Hcompact.
  { eexists. split; [reflexivity|]. split; [|intros _; apply Hrej]. by apply ae_compacted. }
  destruct (getTerm_is_Some rf (ae_PrevLogIndex args)) as [t Hgt]; [lia|]. rewrite Hgt, some_bind.
  case_bool_decide as Hprev; cbn [negb].
  2: { destruct (conflict_first_spec (Z.to_nat (ae_PrevLogIndex args - lastIncludedIndex rf)) rf1 t
                  (ae_PrevLogIndex args)) as (ci & -> & Hb & Hall & Hend); [lia|lia|].
       rewrite some_bind. eexists. split; [reflexivity|]. split; [|intros _; apply Hrej].
       rewrite E3 in Hb, Hend. setoid_rewrite Egt in Hall. rewrite Egt in Hend.
       eapply (ae_mismatch args rf _ t ci); try done.
       intros j Hj. destruct (decide (j = ae_PrevLogIndex args)) as [->|]; [done|]. apply Hall. lia. }
  subst t. destruct Hcut as (k & lg & pc & removed & -> & Hrm & Hnr & Hmerge & Hcut & Hj & Hinv); [lia|].
  rewrite some_bind. cbv beta iota. case_bool_decide as Happ.
  - rewrite orb_true_r. change (log (set_cache pc (set_log lg rf1))) with lg.
    destruct (Hsave k lg pc) as (rf4 & req & sl & lc & -> & Hk & F1 & F2 & F3 & F4 & Hs); try done; [lia|].
    rewrite !some_bind. cbv beta iota. rewrite F3. eexists. split; [reflexivity|]. split.
    + apply ae_accept_result; try done; [lia|by cbn; case_bool_decide|]. by rewrite Hmerge.
    + intros Hcom. specialize (Hs (Hcut Hcom)).
      apply (step_commit_tail _ _ _ _ _ (ae_LeaderCommit args)) in Hs. rewrite F3 in Hs. exact Hs.
  - destruct removed; [specialize (Hrm eq_refl); lia|]. specialize (Hnr eq_refl). rewrite Hnr.
    cbn [orb]. rewrite some_bind. cbv beta iota. rewrite E5. eexists. split; [reflexivity|]. split.
    + apply ae_accept_result; try done; [lia|by cbn; case_bool_decide|].
      rewrite Hmerge, (drop_ge (ae_Entries args)), app_nil_r by lia.
      by rewrite <-Hnr.
    + intros _. pose proof (step_commit_tail rf rf1 _ d h (ae_LeaderCommit args)
        (Hrej {| aer_Term := 0; aer_Success := true; aer_ConflictTerm := 0; aer_ConflictIndex := 0 |})) as Hs.
      rewrite E5 in Hs. exact Hs.
Qed.

End inv.
