(* ===== verification/RaftProps.v ===== *)
(** * RaftProps: properties of a Raft node

    Runs of one node with its disk, restarts included ([node_reach]); that no
    handler panics and nothing moves backwards; what a restart recovers; the
    contracts of [AppendEntries], of the commit rule, of the applier and of
    snapshots; and two executions that show what the guards of the code do not
    exclude. *)
From stdpp Require Import prelude.
From S2P Require Import Prelude Gob Persister RaftState RaftStateProps Raft RaftLemmas RaftInv.
From stdpp Require Import options.
Local Open Scope Z_scope.

Section props.
Context {Cmd : Type} `{GobCommand Cmd}.
Implicit Types rf : Raft Cmd.

(** ** Restart *)

Lemma readHardState_spec h p rf :
  hard_holds h p → 0 ≤ CurrentTerm rf →
  readHardState h rf = set_VotedFor (recover (tv rf) p).2 (set_CurrentTerm (recover (tv rf) p).1 rf).
Proof.
  intros [[-> ->]|(-> & H1 & H2)] Ht.
  - unfold recover, tv. cbn [fst snd]. rewrite bool_decide_false by lia.
    rewrite (bool_decide_true (-1 = -1)) by done. rewrite andb_false_r. cbn. by destruct rf.
  - unfold readHardState, encodeHardState.
    rewrite gob_Encode_Decode_int by done. cbn [mbind option_bind].
    rewrite <-(app_nil_r (gob_Encode_int p.2)), gob_Encode_Decode_int by done. cbn [mbind option_bind].
    unfold recover, tv. cbn [fst snd]. case_match; [done|]. by destruct rf.
Qed.

Lemma fresh_wf n self timeout now ratio :
  0 ≤ self < Z.of_nat n → isS64 self →
  node_inv (Make (Cmd := Cmd) n self timeout now ratio [] []) [] [].
Proof.
  intros Hs _.
  assert (Make (Cmd := Cmd) n self timeout now ratio [] [] =
    mkRaft self n false 0 Follower timeout now 0 (-1) [mkEntry 0 None []] 0 0 0
      (replicate n 0) (replicate n 0) ratio now 0 0 invalidatePersistCacheLocked) as -> by reflexivity.
  split; split; cbn [log cache lastIncludedIndex lastIncludedTerm CurrentTerm VotedFor CommitIndex
    LastApplied me peers nextIndex matchIndex state].
  - by eexists _, _.
  - lia.
  - unfold getLastLogIndex, zlen. simpl. lia.
  - lia.
  - by rewrite !length_replicate.
  - done.
  - constructor; [|done]. by apply dummy_wf.
  - split; [split_and!; cbn; done|]. by left.
  - done.
  - exists (0, -1), (0, -1). split_and!; try done; [left; done|by left].
Qed.

(** What [readPersist] finds in the state file: the snapshot's position, the
    log and an earlier term and vote, whatever node reads it. *)
Lemma readPersist_recovers rf rf0 d s :
  raft_wf rf → isS64 (lastIncludedIndex rf) → isS64 (lastIncludedTerm rf) →
  state_holds rf d s → zlen (full_encode rf) < 2^32 →
  log rf0 = [mkEntry 0 None []] → cache rf0 = invalidatePersistCacheLocked →
  CurrentTerm rf0 = 0 → VotedFor rf0 = -1 → lastIncludedIndex rf0 = 0 → lastIncludedTerm rf0 = 0 →
  ∃ lg pc, readPersist d rf0 = set_lastIncludedTerm (lastIncludedTerm rf)
      (set_lastIncludedIndex (lastIncludedIndex rf) (set_log lg (set_VotedFor s.2
        (set_CurrentTerm s.1 (set_cache pc rf0))))) ∧
    keys lg = keys (log rf) ∧ Forall entry_wf lg ∧ cache_inv pc lg ∧ queue_inv pc lg d ∧
    0 ≤ s.1 ∧ isS64 s.1 ∧ isS64 s.2 ∧ (d = [] → persistQueuedLen pc = 0) ∧
    (d = [] ∨ lg = fill <$> log rf).
Proof.
  intros Hwf R1 R2 [(-> & -> & _ & Hk & Ei & Et)|(-> & S0 & S1 & S2)] Hlen F1 F2 F3 F4 F5 F6.
  - exists [mkEntry 0 None []], invalidatePersistCacheLocked. rewrite Ei, Et. split_and!; try done.
    + destruct rf0; simpl in *; by subst.
    + constructor; [by apply dummy_wf|done].
    + by left.
    + by left.
  - destruct (read_full (set_VotedFor s.2 (set_CurrentTerm s.1 rf)) rf0) as (pc & E & Hc & Hq).
    + by split_and!.
    + apply Hwf.
    + destruct (rw_log _ Hwf) as (e & es & El & _). simpl. by rewrite El.
    + rewrite zlen_full_encode in *. exact Hlen.
    + exists (fill <$> log rf), pc. unfold readPersist. rewrite E. split_and!; try done.
      * unfold keys. rewrite <-list_fmap_compose. by apply list_fmap_ext.
      * eapply log_equiv_wf; [|apply Hwf]. unfold log_equiv. by rewrite fill_idem.
      * unfold cache_inv, zlen. rewrite length_fmap, enc_fill. exact Hc.
      * unfold queue_inv. rewrite enc_fill. exact Hq.
      * by right.
Qed.

(** A follower with the log of a well-formed node, nothing committed beyond
    the snapshot, is well formed. *)
Lemma raft_wf_restarted rf rf2 :
  raft_wf rf → keys (log rf2) = keys (log rf) → Forall entry_wf (log rf2) →
  lastIncludedIndex rf2 = lastIncludedIndex rf → lastIncludedTerm rf2 = lastIncludedTerm rf →
  CurrentTerm rf2 = CurrentTerm rf → CommitIndex rf2 = lastIncludedIndex rf →
  LastApplied rf2 = lastIncludedIndex rf → me rf2 = me rf → peers rf2 = peers rf →
  nextIndex rf2 = replicate (peers rf) 0 → matchIndex rf2 = replicate (peers rf) 0 →
  state rf2 = Follower → raft_wf rf2.
Proof.
  intros [] Hk Hlg E3 E4 E5 E7 E8 E9 E10 E11 E12 E13. split; try done.
  - rewrite E4. destruct rw_log as (e & es & El & Ht). rewrite El in Hk.
    destruct (log rf2) as [|e' lg]; [done|]. exists e', lg. split; [done|].
    injection Hk as Hk1 _ _. congruence.
  - rewrite E3, E5. lia.
  - unfold getLastLogIndex, zlen in *. rewrite E3, E7, (keys_length _ _ Hk). lia.
  - rewrite E3, E7, E8. lia.
  - rewrite E9, E10, E11, E12, !length_replicate. lia.
  - by rewrite E13.
Qed.

(** Making a node from what another node has on disk. *)
Lemma Make_recovers rf d h timeout now ratio :
  node_inv rf d h → zlen (full_encode rf) < 2^32 →
  let rf' := Make (peers rf) (me rf) timeout now ratio d h in
  node_inv rf' d h ∧ tv rf' = tv rf ∧ keys (log rf') = keys (log rf) ∧
  lastIncludedIndex rf' = lastIncludedIndex rf ∧ lastIncludedTerm rf' = lastIncludedTerm rf ∧
  persistedIndex rf' = getLastLogIndex rf' ∧ CommitIndex rf' = lastIncludedIndex rf ∧
  me rf' = me rf ∧ peers rf' = peers rf.
Proof.
  intros [Hwf [Hinv (R1 & R2 & R3 & R4) (s & p & Hs & Hp & Hsl & Hpl & Hrec)]] Hlen rf'.
  subst rf'. unfold Make. cbv zeta.
  set (rf0 := mkRaft _ _ _ _ _ _ _ _ _ _ _ _ _ _ _ _ _ _ _ _).
  destruct (readPersist_recovers rf rf0 d s Hwf R1 R2 Hs Hlen)
    as (lg & pc & -> & Hk & Hlg & Hci & Hqi & S0 & S1 & S2 & Hnil & Hfill); try done.
  set (rf1 := set_lastIncludedTerm _ _).
  assert (tv rf1 = s) as Etv by (by destruct s).
  rewrite (readHardState_spec h p rf1 Hp) by done. rewrite Etv, Hrec.
  set (rf2 := set_persistedIndex _ _).
  assert (log rf2 = lg ∧ cache rf2 = pc ∧ lastIncludedIndex rf2 = lastIncludedIndex rf ∧
    lastIncludedTerm rf2 = lastIncludedTerm rf ∧ CurrentTerm rf2 = CurrentTerm rf ∧
    VotedFor rf2 = VotedFor rf) as (E1 & E2 & E3 & E4 & E5 & E6) by done.
  assert (raft_wf rf2) as Hwf2 by (by apply (raft_wf_restarted rf)).
  split; [|by split_and!; try done; destruct (tv rf)].
  split; [done|]. clearbody rf2. split.
  - unfold persist_inv. by rewrite E1, E2.
  - by rewrite E3, E4, E5, E6.
  - exists s, p. unfold tv. rewrite E5, E6. split_and!; try done.
    destruct Hs as [(-> & -> & _ & Hk0 & Ei & Et)|(Hd & _)]; [left|right].
    + rewrite E1, E2, E3, E4, Ei, Et, Hk. split_and!; try done. auto.
    + split_and!; try done. rewrite Hd. unfold full_encode. simpl. rewrite E1, E3, E4.
      destruct Hfill as [->|Hfill]; [|unfold zlen; by rewrite Hfill, length_fmap, enc_fill].
      apply (f_equal length) in Hd. unfold full_encode in Hd.
      rewrite length_app, length_persist_header in Hd. simpl in Hd. lia.
Qed.

(** ** Runs of a node with its disk *)

Lemma exec_preserves ev rf d h :
  node_inv rf d h → event_ok ev rf → ¬ heartbeat_panics ev rf → step_ok rf d h (raft_exec ev rf).
Proof.
  intros Hn Hok Hp. destruct ev.
  - by apply RequestVote_ok.
  - destruct Hok as (Hsz & Ht & Hes & Hcom).
    destruct (AppendEntries_spec now args rf d h Hn) as (o & E & _ & Hs); [done|].
    cbn [raft_exec]. rewrite E. by apply Hs.
  - by apply Finalize_ok.
  - by apply Start_ok.
  - by apply Persisted_ok.
  - by apply Snapshot_ok.
  - by apply InstallSnapshot_ok.
  - by apply Heartbeat_ok.
  - by apply InstallReply_ok.
  - by apply AppendReply_ok.
  - by apply VoteResponse_ok.
  - by apply Election_ok.
  - by apply Apply_ok.
  - by apply SyncApplied_ok.
  - by apply Kill_ok.
Qed.

Lemma exec_cases ev rf d h :
  node_inv rf d h → event_ok ev rf →
  (heartbeat_panics ev rf ∧ raft_exec ev rf = None) ∨ step_ok rf d h (raft_exec ev rf).
Proof.
  intros Hn Hok. assert (heartbeat_panics ev rf ∨ ¬ heartbeat_panics ev rf) as [Hp|Hp].
  - destruct ev; cbn; try tauto. unfold stale_next.
    destruct (decide (state rf = Leader)); [right; tauto|].
    destruct (nextIndex rf !! _) as [next|]; [|right; naive_solver].
    destruct (decide (getLastLogIndex rf + 1 < next)); [left; eauto|right; naive_solver].
  - left. split; [done|]. destruct ev; try done. apply Heartbeat_panic; [apply Hn|apply Hok|done].
  - right. by apply exec_preserves.
Qed.

(** A node [self] of [n] peers, from the first start on an empty disk; the
    requests of an event are carried out, and the process may be restarted on
    its disk at any time.  [d] and [h] are the contents of the raft state and
    of the hard state. *)
Inductive node_reach (n : nat) (self : Z) : Raft Cmd → bytes → bytes → Prop :=
  | nr_boot timeout now ratio :
      node_reach n self (Make n self timeout now ratio [] []) [] []
  | nr_step rf d h ev rf' reqs d' h' :
      node_reach n self rf d h → event_ok ev rf →
      raft_exec ev rf = Some (rf', Some <$> reqs) → run_reqs reqs (d, h) = Some (d', h') →
      node_reach n self rf' d' h'
  | nr_restart rf d h timeout now ratio :
      node_reach n self rf d h → zlen (full_encode rf) < 2^32 →
      node_reach n self (Make n self timeout now ratio d h) d h.

Lemma node_reach_inv n self rf d h :
  0 ≤ self < Z.of_nat n → isS64 self → node_reach n self rf d h →
  node_inv rf d h ∧ me rf = self ∧ peers rf = n.
Proof.
  intros Hs Hs64. induction 1 as [timeout now ratio|rf d h ev rf' reqs d' h' _ (IH & Em & Ep) Hok E Hrun
    |rf d h timeout now ratio _ (IH & Em & Ep) Hlen].
  - split; [by apply fresh_wf|done].
  - destruct (exec_cases ev rf d h IH Hok) as [[_ E1]|(rf1 & reqs1 & d1 & h1 & E1 & Hrun1 & Hinv & Hpr)];
      [congruence|].
    rewrite E1 in E. injection E as <- Er.
    assert (reqs1 = reqs) as -> by (by apply (inj (fmap (M := list) Some)) in Er).
    rewrite Hrun in Hrun1. simplify_eq. destruct Hpr as (_ & _ & _ & _ & -> & ->). done.
  - destruct (Make_recovers rf d h timeout now ratio IH Hlen) as (Hinv & _ & _ & _ & _ & _ & _ & ? & ?).
    rewrite Em, Ep in *. done.
Qed.

(** C2: the handlers and their one panic.  In every reachable state of a node
    (each event's requests carried out before the next event), for every event
    that meets [event_ok] (64-bit values, a state below 4 GiB, no message that
    contradicts a committed entry, no snapshot of a leader's own term, replies
    that answer what was sent): either it is a heartbeat goroutine running on a
    node that is no longer leader and whose [nextIndex] for the server lies
    behind the end of its log, and then it panics; or it is handled without an
    index out of range, all its persist requests can be carried out on the disk
    as it is, the invariant of node and disk holds again, and the term, the
    vote within a term, the commit index, the applied index and the snapshot
    index do not move backwards. *)
Theorem raft_panics_only_stale_heartbeat n self rf d h ev :
  0 ≤ self < Z.of_nat n → isS64 self → node_reach n self rf d h → event_ok ev rf →
  ((∃ server data next, ev = EvHeartbeat server data ∧ state rf ≠ Leader ∧
      nextIndex rf !! Z.to_nat server = Some next ∧ getLastLogIndex rf + 1 < next) ∧
   raft_exec ev rf = None) ∨
  ∃ rf' reqs d' h', raft_exec ev rf = Some (rf', Some <$> reqs) ∧
    run_reqs reqs (d, h) = Some (d', h') ∧ node_inv rf' d' h' ∧ progress rf rf'.
Proof.
  intros Hs Hs64 Hr Hok. destruct (node_reach_inv n self rf d h Hs Hs64 Hr) as (Hinv & _).
  destruct (exec_cases ev rf d h Hinv Hok) as [[Hp E]|Hstep]; [left|right; exact Hstep].
  split; [|done]. destruct ev; try done. destruct Hp as (? & next & ? & ?). by eexists _, _, next.
Qed.

(** C9: a restart recovers everything durable.  For every state of a node
    reached by events that meet [event_ok], the requests of each event (full
    saves, deltas and hard states) carried out in full and in order before the
    next event, and a state below 4 GiB: starting again from what is on disk
    gives the same term, vote, snapshot position and log, with all of the log
    counted as persisted.  Requests carried out in another order are not
    covered: [overtaken_entry_lost] shows a loss there. *)
Theorem restart_recovers n self rf d h timeout now ratio :
  0 ≤ self < Z.of_nat n → isS64 self → node_reach n self rf d h → zlen (full_encode rf) < 2^32 →
  let rf' := Make n self timeout now ratio d h in
  CurrentTerm rf' = CurrentTerm rf ∧ VotedFor rf' = VotedFor rf ∧
  keys (log rf') = keys (log rf) ∧ lastIncludedIndex rf' = lastIncludedIndex rf ∧
  lastIncludedTerm rf' = lastIncludedTerm rf ∧ persistedIndex rf' = getLastLogIndex rf.
Proof.
  intros Hs Hs64 Hr Hlen rf'. destruct (node_reach_inv n self rf d h Hs Hs64 Hr) as (Hinv & Em & Ep).
  destruct (Make_recovers rf d h timeout now ratio Hinv Hlen) as (_ & Htv & Hk & Hi & Ht & Hp & _).
  rewrite Em, Ep in *. fold rf' in Htv, Hk, Hi, Ht, Hp. injection Htv as ? ?.
  split_and!; try done. rewrite Hp. unfold getLastLogIndex, zlen. by rewrite Hi, (keys_length _ _ Hk).
Qed.

(** ** AppendEntries *)

(** The term and the command at an index. *)
Definition key_at rf (i : Z) : option (Z * option Cmd) :=
  keys (log rf) !! Z.to_nat (i - lastIncludedIndex rf).

Lemma merge_has_entries : ∀ (es s : list (Z * option Cmd)) i e,
  es !! i = Some e → fst <$> merge_suffix s es !! i = Some e.1.
Proof.
  induction es as [|x es IH]; intros s i e He; [done|]. cbn [merge_suffix].
  destruct s as [|y s]; [by rewrite He|]. case_bool_decide as Hxy.
  - destruct i as [|i]; simpl in *; [congruence|]. by apply IH.
  - by rewrite He.
Qed.

Lemma merge_keeps : ∀ (es s : list (Z * option Cmd)) i,
  (i < length s)%nat →
  (∀ j x y, (j ≤ i)%nat → es !! j = Some x → s !! j = Some y → y.1 = x.1) →
  merge_suffix s es !! i = s !! i.
Proof.
  induction es as [|x es IH]; intros s i Hi Hagree; [done|]. cbn [merge_suffix].
  destruct s as [|y s]; simpl in Hi; [lia|].
  rewrite bool_decide_true by (apply (Hagree 0%nat x y); [lia|done|done]).
  destruct i as [|i]; [done|]. simpl. apply IH; [lia|].
  intros j a b Hj Ha Hb. apply (Hagree (S j) a b); [lia|done|done].
Qed.

Lemma merge_same : ∀ (es s : list (Z * option Cmd)),
  (length es ≤ length s)%nat →
  (∀ j x y, es !! j = Some x → s !! j = Some y → y.1 = x.1) → merge_suffix s es = s.
Proof.
  induction es as [|x es IH]; intros s Hi Hagree; [done|]. cbn [merge_suffix].
  destruct s as [|y s]; simpl in Hi; [lia|].
  rewrite bool_decide_true by (by apply (Hagree 0%nat x y)).
  f_equal. apply IH; [lia|]. intros j a b Ha Hb. by apply (Hagree (S j) a b).
Qed.

(** The log after the entries [es] have been merged in at position [pos]. *)
Definition merged (pos : nat) (ks es : list (Z * option Cmd)) : list (Z * option Cmd) := take pos ks ++ merge_suffix (drop pos ks) es.
Lemma merged_has pos ks es i e : (pos ≤ length ks)%nat → es !! i = Some e → fst <$> merged pos ks es !! (pos + i)%nat = Some e.1.
Proof.
  intros Hp He. unfold merged. rewrite lookup_app_r; rewrite length_take, Nat.min_l by done; [|lia].
  replace (pos + i - pos)%nat with i by lia. by apply merge_has_entries.
Qed.
Lemma merged_keeps pos ks es q : (pos ≤ length ks)%nat → (q < length ks)%nat →
  (∀ j x y, (pos + j ≤ q)%nat → es !! j = Some x → ks !! (pos + j)%nat = Some y → y.1 = x.1) → merged pos ks es !! q = ks !! q.
Proof.
  intros Hp Hq Hagree. unfold merged. destruct (decide (q < pos)%nat).
  - rewrite lookup_app_l by (rewrite length_take; lia). by rewrite lookup_take_lt.
  - rewrite lookup_app_r; rewrite length_take, Nat.min_l by done; [|lia]. rewrite merge_keeps.
    + rewrite lookup_drop. f_equal. lia.
    + rewrite length_drop. lia.
    + intros j x y Hj Hx Hy. rewrite lookup_drop in Hy. apply (Hagree j x y); [lia|done|done].
Qed.
Lemma merged_same pos ks es : (∀ j x, es !! j = Some x → fst <$> ks !! (pos + j)%nat = Some x.1) → merged pos ks es = ks.
Proof.
  intros Hagree. unfold merged. rewrite merge_same; [apply take_drop| |].
  - rewrite length_drop. destruct es as [|x es]; [cbn; lia|].
    destruct (lookup_lt_is_Some_2 (x :: es) (length es)) as [y Hy]; [cbn; lia|]. specialize (Hagree _ _ Hy).
    destruct (ks !! _) as [z|] eqn:Hz in Hagree; [|done]. apply lookup_lt_Some in Hz. cbn. lia.
  - intros j x y Hx Hy. specialize (Hagree j x Hx). rewrite lookup_drop in Hy. rewrite Hy in Hagree. by injection Hagree.
Qed.

(** An accepted call merges the entries into the log at [ae_pos]. *)
Lemma accepted_merged args rf o :
  ae_result args rf o → aer_Success (aeo_reply o) = true →
  lastIncludedIndex rf ≤ ae_PrevLogIndex args ≤ getLastLogIndex rf ∧
  lastIncludedIndex (aeo_rf o) = lastIncludedIndex rf ∧
  (ae_pos args rf ≤ length (keys (log rf)))%nat ∧
  keys (log (aeo_rf o)) = merged (ae_pos args rf) (keys (log rf)) (keys (ae_Entries args)) ∧
  CommitIndex (aeo_rf o) = if bool_decide (CommitIndex rf < ae_LeaderCommit args)
    then Z.min (ae_LeaderCommit args) (getLastLogIndex (aeo_rf o)) else CommitIndex rf.
Proof.
  intros Hres Hsucc.
  destruct Hres as [|? ? ? ? Hrep|? ? ? ? Hrep|? ? ? ? ? ? ? Hrep|_ Hprev _ _ _ Hi _ Hkeys Hc];
    try (by rewrite Hrep in Hsucc); [congruence|].
  split_and!; try done; try lia.
  - rewrite length_keys. unfold ae_pos, getLastLogIndex, zlen in *. lia.
  - rewrite Hkeys. unfold merged, keys. by rewrite fmap_take, fmap_drop.
Qed.

Lemma keys_entry (es : list (LogEntry Cmd)) j x :
  keys es !! j = Some x → ∃ e, es !! j = Some e ∧ x = key e.
Proof. unfold keys. rewrite list_lookup_fmap. destruct (es !! j); naive_solver. Qed.

(** C11: the contract of [AppendEntries]. In every reachable state (reached by
    events that meet [event_ok], the disk requests of each carried out before
    the next) and for every message with 64-bit values whose encoding leaves the
    state below 4 GiB, contradicting committed entries or not, the handler does
    not panic, and the answer and the new log are those of the case analysis
    [ae_result]. When the call is accepted: every entry of the message is in the
    log at its index with its term; an index of the old log keeps its entry
    unless an entry of the message at or before it has another term than the log
    there, so a committed entry changes only if the message contradicts a
    committed one; the commit index becomes the smaller of the leader's and the
    last index of the log if the leader's is larger and stays otherwise, and if
    the message contradicts no committed entry it ends inside the log; and a log
    that already holds all the entries is left as it is. *)
Theorem append_entries_contract n self rf d h now args :
  0 ≤ self < Z.of_nat n → isS64 self → node_reach n self rf d h → ae_msg_ok args rf →
  ∃ o, AppendEntries now args rf = Some o ∧ ae_result args rf o ∧
    (aer_Success (aeo_reply o) = true →
     (∀ i e, ae_Entries args !! i = Some e →
        fst <$> key_at (aeo_rf o) (ae_PrevLogIndex args + 1 + Z.of_nat i) = Some (le_Term e)) ∧
     (∀ i, lastIncludedIndex rf < i ≤ getLastLogIndex rf →
        (∀ j e, ae_Entries args !! j = Some e → ae_PrevLogIndex args + 1 + Z.of_nat j ≤ i →
           getTerm rf (ae_PrevLogIndex args + 1 + Z.of_nat j) = Some (le_Term e)) →
        key_at (aeo_rf o) i = key_at rf i) ∧
     CommitIndex (aeo_rf o) = (if bool_decide (CommitIndex rf < ae_LeaderCommit args)
       then Z.min (ae_LeaderCommit args) (getLastLogIndex (aeo_rf o)) else CommitIndex rf) ∧
     (agrees_committed args rf → CommitIndex rf ≤ CommitIndex (aeo_rf o) ≤ getLastLogIndex (aeo_rf o)) ∧
     ((∀ i e, ae_Entries args !! i = Some e →
        fst <$> key_at rf (ae_PrevLogIndex args + 1 + Z.of_nat i) = Some (le_Term e)) →
      keys (log (aeo_rf o)) = keys (log rf))).
Proof.
  intros Hs Hs64 Hr Hok. destruct (node_reach_inv n self rf d h Hs Hs64 Hr) as (Hinv & _ & _).
  destruct (AppendEntries_spec now args rf d h Hinv Hok) as (o & E & Hres & Hstep).
  exists o. split; [done|]. split; [done|]. intros Hsucc.
  destruct (accepted_merged args rf o Hres Hsucc) as (Hprev & Hi & Hpos & Hm & Hc).
  set (pos := ae_pos args rf) in *.
  assert (Z.of_nat pos = ae_PrevLogIndex args + 1 - lastIncludedIndex rf) as Hposz by (subst pos; unfold ae_pos; lia).
  assert (∀ i, Z.to_nat (ae_PrevLogIndex args + 1 + Z.of_nat i - lastIncludedIndex rf) = (pos + i)%nat) as Hidx by lia.
  split_and!.
  - intros i e He. unfold key_at. rewrite Hi, Hidx, Hm. apply (merged_has _ _ _ _ (key e) Hpos).
    unfold keys. by rewrite list_lookup_fmap, He.
  - intros i Hic Hagree. unfold key_at. rewrite Hi, Hm.
    apply merged_keeps; [done|rewrite length_keys; unfold getLastLogIndex, zlen in Hic; lia|].
    intros j x y Hj Hx Hy. destruct (keys_entry _ j x Hx) as (e & He & ->).
    specialize (Hagree j e He ltac:(lia)). rewrite getTerm_inside, Hidx in Hagree by lia.
    destruct (keys_entry _ _ _ Hy) as (z & Hz & ->). rewrite Hz in Hagree. by injection Hagree.
  - done.
  - intros Hcom. destruct (Hstep Hcom) as (rf' & reqs & d' & h' & E' & _ & [Hwf' _] & Hpr).
    injection E' as <- _. split; [apply Hpr|apply Hwf'].
  - intros Hall. rewrite Hm. apply merged_same. intros j x Hx.
    destruct (keys_entry _ j x Hx) as (e & He & ->).
    specialize (Hall j e He). unfold key_at in Hall. by rewrite Hidx in Hall.
Qed.

(** ** Commit and apply *)

(** C12: the commit rule. In every reachable state (reached by events that meet
    [event_ok], the disk requests of each carried out before the next), the
    commit loop does not panic, changes only the commit index, and moves it to
    the highest index above it that holds an entry of the current term and that
    some set of more than half of the servers stores, where another server
    stores what its [matchIndex] covers and the node itself only what
    [persistedIndex] covers; when there is none above the commit index, nothing
    changes. *)
Theorem commit_rule n self rf d h :
  0 ≤ self < Z.of_nat n → isS64 self → node_reach n self rf d h →
  ∃ rf', advanceCommit rf = Some rf' ∧ CommitIndex rf ≤ CommitIndex rf' ≤ getLastLogIndex rf ∧
    rf' = set_CommitIndex (CommitIndex rf') rf ∧
    (CommitIndex rf' = CommitIndex rf ∨ can_commit rf (CommitIndex rf')) ∧
    (∀ M, CommitIndex rf' < M ≤ getLastLogIndex rf → ¬ can_commit rf M).
Proof.
  intros Hs Hs64 Hr. destruct (node_reach_inv n self rf d h Hs Hs64 Hr) as ([Hwf _] & _ & _).
  destruct (advanceCommit_spec rf Hwf) as (M & E & HM & HM2 & HM3).
  destruct (rw_commit _ Hwf) as [_ Hc].
  set (rf' := if bool_decide (CommitIndex rf < M) then _ else _) in E.
  assert (CommitIndex rf' = M ∧ rf' = set_CommitIndex M rf) as [Ec Es].
  { subst rf'. case_bool_decide; [done|]. assert (M = CommitIndex rf) as -> by lia. by destruct rf. }
  exists rf'. rewrite Ec. split_and!; try done; [|destruct HM2 as [?|[_ ?]]; auto].
  destruct HM2 as [->|[? _]]; lia.
Qed.

(** C13: the applier. In every reachable state (reached by events that meet
    [event_ok], the disk requests of each carried out before the next), one
    round delivers exactly the commands at the indices after [LastApplied] up to
    the smaller of the commit index and the persisted index, in order, each with
    its index, and advances [LastApplied] to the last one. *)
Theorem applier_contract n self rf d h :
  0 ≤ self < Z.of_nat n → isS64 self → node_reach n self rf d h →
  let target := Z.max (LastApplied rf) (Z.min (CommitIndex rf) (persistedIndex rf)) in
  (applier_batch rf).1 = set_LastApplied target rf ∧
  (applier_batch rf).2 =
    (λ i, ApplyCommand (key_at rf i ≫= snd) i) <$> seqZ (LastApplied rf + 1) (target - LastApplied rf).
Proof.
  intros Hs Hs64 Hr target. destruct (node_reach_inv n self rf d h Hs Hs64 Hr) as ([Hwf _] & _ & _).
  rewrite applier_spec by done. split; [done|]. cbn [snd].
  apply list_fmap_ext. intros j i Hj. apply lookup_seqZ in Hj as [-> Hj].
  f_equal. unfold command_at, key_at, zget. destruct (rw_applied _ Hwf) as [Ha _].
  rewrite bool_decide_false by lia. unfold keys. rewrite list_lookup_fmap.
  by destruct (log rf !! _).
Qed.

(** snapshots of the own state machine.  [Snapshot(index)] on a committed
    index keeps every entry after [index] and the term at [index], drops the
    rest, and hands the new raft state and the snapshot to the persister in
    one request. *)
Theorem snapshot_keeps_suffix n self rf d h index sn :
  0 ≤ self < Z.of_nat n → isS64 self → node_reach n self rf d h →
  event_ok (EvSnapshot index (Some sn)) rf → lastIncludedIndex rf < index ≤ CommitIndex rf →
  ∃ rf' req, Snapshot index (Some sn) rf = Some (rf', Some (Some req)) ∧
    req = ReqSave (full_encode rf') (Some sn) ∧
    lastIncludedIndex rf' = index ∧ getTerm rf' index = getTerm rf index ∧
    getLastLogIndex rf' = getLastLogIndex rf ∧ CommitIndex rf' = CommitIndex rf ∧
    ∀ i, index < i → key_at rf' i = key_at rf i.
Proof.
  intros Hs Hs64 Hr Hok Hidx. destruct (node_reach_inv n self rf d h Hs Hs64 Hr) as (Hinv & _ & _).
  destruct Hok as [Hsz _]. destruct (rw_commit _ (proj1 Hinv)) as [_ Hc2].
  destruct (snapshot_prepare index (Some sn) rf d h Hinv Hidx Hsz)
    as (e & rf1 & He & _ & -> & E1 & E3 & E4 & _ & E5 & _ & Hwf1 & Hinv1 & Hlen).
  set (offset := index - lastIncludedIndex rf) in *.
  destruct (enqueue_spec rf1 d (Some sn)) as (lg & pc & req & E & Hlg & _ & Hreq & _); try done;
    [apply Hwf1|].
  rewrite (Hreq ltac:(by eexists)) in E. unfold persist. rewrite E, !some_bind. cbv beta iota.
  set (rf2 := commitPersistResult _ _ _).
  set (rf3 := if bool_decide (persistedIndex rf2 < index) then _ else rf2).
  assert (log rf3 = lg ∧ lastIncludedIndex rf3 = index ∧ lastIncludedTerm rf3 = le_Term e ∧
    CommitIndex rf3 = CommitIndex rf ∧ full_encode rf3 = full_encode rf1) as (F1 & F2 & F3 & F4 & F5).
  { assert (full_encode (set_cache pc (set_log lg rf1)) = full_encode rf1) as Hf.
    { unfold full_encode. simpl. unfold zlen.
      by rewrite (log_equiv_enc _ _ Hlg), (log_equiv_length _ _ Hlg). }
    subst rf3 rf2. unfold commitPersistResult. repeat case_bool_decide; simpl; split_and!; try done. }
  clearbody rf3. eexists rf3, _. split; [reflexivity|].
  assert (keys lg = keys (snap_log (le_Term e) offset (log rf))) as Hk.
  { apply (f_equal (fmap key)) in Hlg. rewrite <-!list_fmap_compose in Hlg.
    change (keys lg = keys (log rf1)) in Hlg. by rewrite E1 in Hlg. }
  split_and!; try done.
  - by rewrite F5.
  - unfold getTerm at 1. rewrite F2, bool_decide_true by lia. rewrite F3.
    rewrite getTerm_inside by lia. fold offset. by rewrite He.
  - unfold getLastLogIndex, zlen in *. rewrite F1, F2, (keys_length _ _ Hk).
    unfold snap_log. cbn [length]. rewrite length_drop. lia.
  - intros i Hi. unfold key_at. rewrite F1, F2, Hk. unfold snap_log.
    replace (Z.to_nat (i - index)) with (S (Z.to_nat (i - index) - 1)) by lia.
    unfold keys. rewrite fmap_cons, fmap_drop, lookup_cons_ne_0 by done.
    rewrite lookup_drop. f_equal. lia.
Qed.

(** ** Backing up over a conflict *)

(** Terms do not decrease along the log. *)
Definition sorted_terms rf : Prop :=
  ∀ i j ti tj, lastIncludedIndex rf ≤ i ≤ j → getTerm rf i = Some ti → getTerm rf j = Some tj → ti ≤ tj.

Lemma log_term_getTerm rf i e :
  raft_wf rf → log rf !! i = Some e → getTerm rf (lastIncludedIndex rf + Z.of_nat i) = Some (le_Term e).
Proof.
  intros Hwf He. destruct i as [|i].
  - destruct (rw_log _ Hwf) as (x & es & El & Ht). rewrite El in He. simplify_eq/=.
    unfold getTerm. rewrite bool_decide_true by lia. by rewrite Ht.
  - rewrite getTerm_inside by lia.
    replace (Z.to_nat (lastIncludedIndex rf + Z.of_nat (S i) - lastIncludedIndex rf)) with (S i) by lia.
    by rewrite He.
Qed.

Lemma last_filter_seq (P : nat → Prop) `{∀ i, Decision (P i)} n :
  match last (filter P (seq 0 n)) with
  | Some i => P i ∧ ∀ j, (i < j < n)%nat → ¬ P j
  | None => ∀ j, (j < n)%nat → ¬ P j
  end.
Proof.
  induction n as [|n IH]; [simpl; lia|]. rewrite seq_S, filter_app, filter_cons, filter_nil. simpl.
  destruct (decide (P n)) as [Hp|Hp].
  - rewrite last_snoc. split; [done|lia].
  - rewrite app_nil_r. destruct (last _) as [i|].
    + destruct IH as [Hi Hj]. split; [done|]. intros j ?. destruct (decide (j = n)) as [->|]; [done|]. apply Hj. lia.
    + intros j ?. destruct (decide (j = n)) as [->|]; [done|]. apply IH. lia.
Qed.

Lemma last_of_term_cases t rf :
  match last_of_term t rf with
  | Some i => le_Term <$> log rf !! i = Some t ∧ ∀ j, (i < j)%nat → le_Term <$> log rf !! j ≠ Some t
  | None => ∀ j, le_Term <$> log rf !! j ≠ Some t
  end.
Proof.
  pose proof (last_filter_seq (λ i, le_Term <$> (log rf !! i) = Some t) (length (log rf))) as Hl.
  fold (last_of_term t rf) in Hl. destruct (last_of_term t rf) as [i|].
  - destruct Hl as [Hi Hj]. split; [done|]. intros j Hij Hs. apply (Hj j); [|done]. split; [done|].
    destruct (log rf !! j) eqn:E; [|done]. by apply lookup_lt_Some in E.
  - intros j Hs. apply (Hl j); [|done]. destruct (log rf !! j) eqn:E; [|done]. by apply lookup_lt_Some in E.
Qed.

(** What the leader makes of the rejection by [frf] of a call at [prev] with
    the term [pt]: the next index to try. *)
Inductive hint_next (prev pt : Z) rf (frf : Raft Cmd) (next : Z) : Prop :=
  | hn_short :                        (* the follower's log ends before *)
      getLastLogIndex frf < prev → next = Z.max 1 (getLastLogIndex frf + 1) →
      hint_next prev pt rf frf next
  | hn_known t i :                    (* the leader's last entry of the conflicting term *)
      getTerm frf prev = Some t → t ≠ pt →
      le_Term <$> log rf !! i = Some t → (∀ j, (i < j)%nat → le_Term <$> log rf !! j ≠ Some t) →
      next = lastIncludedIndex rf + Z.of_nat i + 1 → hint_next prev pt rf frf next
  | hn_unknown t ci :                 (* the follower's first entry of the conflicting term *)
      getTerm frf prev = Some t → t ≠ pt →
      t = -1 ∨ (∀ j, le_Term <$> log rf !! j ≠ Some t) →
      lastIncludedIndex frf ≤ ci ≤ prev → (∀ j, ci ≤ j ≤ prev → getTerm frf j = Some t) →
      (ci = lastIncludedIndex frf ∨ getTerm frf (ci - 1) ≠ Some t) →
      next = Z.max 1 ci → hint_next prev pt rf frf next.

(** The index that [handleAppendReply] computes from a rejection. *)
Definition reply_next rf (reply : AppendEntriesReply) : Z :=
  let next :=
    if bool_decide (aer_ConflictTerm reply = -1) then aer_ConflictIndex reply
    else match last_of_term (aer_ConflictTerm reply) rf with
         | Some i => if bool_decide (lastIncludedIndex rf + Z.of_nat i = -1)
                     then aer_ConflictIndex reply
                     else lastIncludedIndex rf + Z.of_nat i + 1
         | None => aer_ConflictIndex reply
         end in
  if bool_decide (next < 1) then 1 else next.

Lemma reply_next_hint rf frf args o :
  0 ≤ lastIncludedIndex rf → ae_result args frf o → aer_Success (aeo_reply o) = false →
  CurrentTerm frf ≤ ae_Term args → lastIncludedIndex frf ≤ ae_PrevLogIndex args →
  aer_Term (aeo_reply o) = ae_Term args ∧
  hint_next (ae_PrevLogIndex args) (ae_PrevLogTerm args) rf frf (reply_next rf (aeo_reply o)).
Proof.
  intros Hl Hres Hfail Hnew Hnc.
  assert (∀ x, (if bool_decide (x < 1) then 1 else x) = Z.max 1 x) as Hmax by (intros; case_bool_decide; lia).
  destruct Hres as [?|? ? ? ? Hrep|? ? ? ? Hrep|t ci ? Ht Hne ? ? Hrep Hb Hall Hend|? ? ? Hsucc];
    [lia| |lia| |congruence].
  - rewrite Hrep. split; [done|]. by apply hn_short; [|unfold reply_next; cbn; rewrite Hmax].
  - rewrite Hrep. split; [done|]. unfold reply_next. cbn.
    pose proof (last_of_term_cases t rf) as Hlast. rewrite Hmax. case_bool_decide.
    { apply (hn_unknown _ _ _ _ _ t ci); auto. }
    destruct (last_of_term t rf) as [i|].
    + destruct Hlast as [Hi Hj]. rewrite bool_decide_false, Z.max_r by lia.
      by apply (hn_known _ _ _ _ _ t i).
    + apply (hn_unknown _ _ _ _ _ t ci); auto.
Qed.

(** The hint stays inside the leader's log, and below the probed index when
    the conflicting term is older than the probed one or unknown. *)
Lemma hint_next_bounds rf frf prev pt next :
  raft_wf rf → 1 ≤ prev → lastIncludedIndex rf ≤ prev → getTerm rf prev = Some pt →
  hint_next prev pt rf frf next →
  1 ≤ next ≤ getLastLogIndex rf + 1 ∧
  (sorted_terms rf →
   (∀ t, getTerm frf prev = Some t → t < pt ∨ ∀ j, le_Term <$> log rf !! j ≠ Some t) → next ≤ prev).
Proof.
  intros Hwf Hp1 Hpl Hpt Hh. destruct (rw_lii _ Hwf) as [Hl0 _].
  assert (prev ≤ getLastLogIndex rf) as Hlast.
  { destruct (rw_commit _ Hwf). destruct (decide (prev ≤ lastIncludedIndex rf)) as [|Hgt]; [lia|].
    rewrite getTerm_inside in Hpt by lia.
    destruct (log rf !! _) eqn:Hlk in Hpt; [|done]. apply lookup_lt_Some in Hlk.
    unfold getLastLogIndex, zlen. lia. }
  destruct Hh as [? ->|t i Ht Hne Hi _ ->|t ci _ _ _ ? _ _ ->].
  - split; lia.
  - destruct (log rf !! i) as [e|] eqn:He; [|done]. injection Hi as Hi.
    pose proof (lookup_lt_Some _ _ _ He). split; [unfold getLastLogIndex, zlen; lia|].
    intros Hsorted Hold. destruct (Hold t Ht) as [Hlt|Hno].
    2: { specialize (Hno i). rewrite He in Hno. simpl in Hno. congruence. }
    pose proof (log_term_getTerm rf i e Hwf He) as Hgt.
    destruct (decide (prev ≤ lastIncludedIndex rf + Z.of_nat i)) as [Hge|]; [|lia].
    pose proof (Hsorted _ _ _ _ (conj Hpl Hge) Hpt Hgt). lia.
  - split; lia.
Qed.

(** C14: what a rejected [AppendEntries] tells the leader. A leader in a
    reachable state (reached by events that meet [event_ok], the disk requests
    of each carried out before the next), a message of its term whose
    [PrevLogIndex] is at least 1 and lies in its log (not before its snapshot)
    with the term the message carries, and a follower of no later term, whose
    snapshot does not reach beyond [PrevLogIndex], that rejects it. Handling the
    reply does not panic, and the new [nextIndex] is: the end of the follower's
    log if that is shorter; otherwise, if the leader has entries of the
    conflicting term, the index after the last of them; otherwise the first
    index from which the follower holds that term throughout up to
    [PrevLogIndex], so that a whole term of the follower is skipped (never less
    than 1). It lies inside the leader's log or just behind it. If moreover the
    terms of the leader's log do not decrease and the conflicting term is
    smaller than [PrevLogTerm] or unknown to the leader, it is at most
    [PrevLogIndex], below the [nextIndex] that the message was made from. *)
Theorem conflict_hint_progress n self rf d h frf o now server args count :
  0 ≤ self < Z.of_nat n → isS64 self → node_reach n self rf d h → state rf = Leader →
  ae_Term args = CurrentTerm rf → 0 ≤ server < Z.of_nat (peers rf) →
  1 ≤ ae_PrevLogIndex args → lastIncludedIndex rf ≤ ae_PrevLogIndex args →
  getTerm rf (ae_PrevLogIndex args) = Some (ae_PrevLogTerm args) →
  ae_result args frf o → aer_Success (aeo_reply o) = false →
  CurrentTerm frf ≤ ae_Term args → lastIncludedIndex frf ≤ ae_PrevLogIndex args →
  ∃ rf' next, handleAppendReply now server args (aeo_reply o) count rf = Some (rf', count, []) ∧
    nextIndex rf' !! Z.to_nat server = Some next ∧
    hint_next (ae_PrevLogIndex args) (ae_PrevLogTerm args) rf frf next ∧
    1 ≤ next ≤ getLastLogIndex rf + 1 ∧
    (sorted_terms rf →
     (∀ t, getTerm frf (ae_PrevLogIndex args) = Some t →
        t < ae_PrevLogTerm args ∨ ∀ j, le_Term <$> log rf !! j ≠ Some t) →
     next ≤ ae_PrevLogIndex args).
Proof.
  intros Hs Hs64 Hr Hlead Hterm Hsrv Hp1 Hplii Hpt Hres Hfail Hnew Hnc.
  destruct (node_reach_inv n self rf d h Hs Hs64 Hr) as ([Hwf _] & _ & _).
  destruct (reply_next_hint rf frf args o) as [Ert Hhint]; try done; [apply Hwf|].
  destruct (hint_next_bounds _ _ _ _ _ Hwf Hp1 Hplii Hpt Hhint) as [Hb Hold].
  unfold handleAppendReply. rewrite !bool_decide_true by done. cbn [negb orb].
  rewrite bool_decide_false by lia. rewrite Hfail. cbv zeta.
  fold (reply_next rf (aeo_reply o)). set (next := reply_next rf (aeo_reply o)) in *. clearbody next.
  destruct (rw_peers _ Hwf) as (_ & Hl1 & Hl2).
  rewrite zset_some by (unfold zlen; lia). rewrite some_bind, some_bind. cbv beta iota.
  set (rf1 := set_nextIndex _ rf).
  assert (raft_wf rf1) as Hwf1.
  { subst rf1. destruct Hwf. split; simpl; try done; [by rewrite length_insert|].
    intros _. apply Forall_insert; [by apply rw_next|]. unfold getLastLogIndex in *. simpl. lia. }
  destruct (advanceCommit_spec rf1 Hwf1) as (M & -> & _). rewrite some_bind.
  eexists _, next. split; [reflexivity|]. split; [|done].
  transitivity (nextIndex rf1 !! Z.to_nat server); [by case_bool_decide|].
  subst rf1. simpl. apply list_lookup_insert_eq. lia.
Qed.

End props.
