(* ===== verification/RaftRuns.v ===== *)
(** * RaftRuns: executions of Raft nodes

    Concrete runs of the model, with integers as commands: they instantiate
    the hypotheses of the theorems of RaftProps, and three of them record
    behaviours that the comments of the code exclude. *)
From stdpp Require Import prelude.
From S2P Require Import Prelude Gob Persister PersisterWorker RaftState RaftStateProps Raft RaftLemmas RaftInv RaftProps.
From stdpp Require Import options.
Local Open Scope Z_scope.

(** A node together with its disk. *)
Definition nstate : Type := Raft Z * bytes * bytes.

(** One event, its requests carried out. *)
Definition exec_disk (ev : raft_event Z) (s : nstate) : option nstate :=
  let '(rf, d, h) := s in
  match raft_exec ev rf with
  | None => None
  | Some (rf', reqs) =>
      match mapM id reqs with
      | None => None
      | Some reqs => match run_reqs reqs (d, h) with
                     | Some (d', h') => Some (rf', d', h') | None => None
                     end
      end
  end.

Definition reach (n : nat) (self : Z) (s : nstate) : Prop := node_reach n self s.1.1 s.1.2 s.2.

Lemma mapM_id_fmap {A} (l : list (option A)) l' : mapM id l = Some l' → l = Some <$> l'.
Proof.
  intros E%mapM_Some_1. induction E as [|x y l l' Hx _ IH]; [done|].
  rewrite fmap_cons, <-IH. by rewrite <-Hx.
Qed.

Lemma reach_step n self s ev s' :
  reach n self s → event_ok ev s.1.1 → exec_disk ev s = Some s' → reach n self s'.
Proof.
  unfold reach, exec_disk. destruct s as [[rf d] h], s' as [[rf' d'] h']. cbn [fst snd]. intros Hr Hok E.
  destruct (raft_exec ev rf) as [[rf1 reqs]|] eqn:E1; [|done].
  destruct (mapM id reqs) as [reqs'|] eqn:E2; [|done]. apply mapM_id_fmap in E2. subst reqs.
  destruct (run_reqs reqs' (d, h)) as [[d1 h1]|] eqn:E3; [|done]. simplify_eq.
  by eapply nr_step.
Qed.

Definition boot (n : nat) (self : Z) : nstate := (Make n self (300 * ms) 0 (120 * ms) [] [], [], []).
Lemma reach_boot n self : reach n self (boot n self).
Proof. apply nr_boot. Qed.

Definition next (ev : raft_event Z) (s : nstate) : nstate := default s (exec_disk ev s).

Lemma reach_next n self s ev :
  reach n self s → event_ok ev s.1.1 → reach n self (next ev s).
Proof.
  intros Hr Hok. unfold next. destruct (exec_disk ev s) eqn:E; [|done]. by eapply reach_step.
Qed.

(** A command is well formed as an entry of any term. *)
Lemma entry_wf_Z t c : isS64 t → isS64 c → entry_wf (mkEntry t (Some c) []).
Proof.
  intros Ht Hc. unfold entry_wf, entry_data, ensureEntryCommandEncoded.
  cbn [le_Term le_Command le_commandBytes encodeCommandToBytes gob_encode gob_command_Z].
  rewrite (bool_decide_true (isS64 c)) by done. cbn. split_and!; try done.
  - unfold zlen. pose proof (length_gob_Encode_int c Hc). lia.
  - unfold decodeCommandFromBytes. rewrite bool_decide_false.
    + apply (gob_encode_decode c). cbn. by rewrite bool_decide_true.
    + apply (gob_encode_nonempty c). cbn. by rewrite bool_decide_true.
Qed.

(** ** A leader of three nodes that commits a command *)

Definition grant (t : Z) : RequestVoteReply := {| rvr_Term := t; rvr_VoteGranted := true |}.
Definition accept (t : Z) : AppendEntriesReply :=
  {| aer_Term := t; aer_Success := true; aer_ConflictTerm := 0; aer_ConflictIndex := 0 |}.
Definition cmd (t c : Z) : LogEntry Z := mkEntry t (Some c) [].

Definition lead1 : nstate := next (EvElection (400 * ms)) (boot 3 0).
Definition lead2 : nstate := next (EvVoteResponse (410 * ms) (grant 1)) lead1.
Definition lead3 : nstate := next (EvStart 42) lead2.
Definition lead4 : nstate := next (EvPersisted 100 2 1) lead3.
Definition ack1 : AppendEntriesArgs Z :=
  {| ae_Term := 1; ae_LeaderId := 0; ae_PrevLogIndex := 0; ae_PrevLogTerm := 0;
     ae_Entries := [cmd 1 42]; ae_LeaderCommit := 0 |}.
Definition lead5 : nstate := next (EvAppendReply (420 * ms) 1 ack1 (accept 1) 1) lead4.

(** Closed decidable facts, by evaluation. *)
Ltac eval_dec := refine (bool_decide_unpack _ _); vm_compute; exact I.

Lemma lead1_reach : reach 3 0 lead1.
Proof. apply reach_next; [apply reach_boot|]. split; [eval_dec|]. split; eval_dec. Qed.
Lemma lead2_reach : reach 3 0 lead2.
Proof. apply reach_next; [apply lead1_reach|]. split; [eval_dec|]. eval_dec. Qed.
Lemma lead3_reach : reach 3 0 lead3.
Proof. apply reach_next; [apply lead2_reach|]. split; [eval_dec|]. apply entry_wf_Z; eval_dec. Qed.
Lemma lead4_reach : reach 3 0 lead4.
Proof. apply reach_next; [apply lead3_reach|]. split; [eval_dec|done]. Qed.
Lemma lead5_reach : reach 3 0 lead5.
Proof.
  apply reach_next; [apply lead4_reach|]. split; [eval_dec|]. split; [eval_dec|]. split; [eval_dec|].
  intros _ _. cbn [accept aer_Success]. eval_dec.
Qed.

(** The command is committed with one follower's copy and the own one. *)
Example lead5_committed : CommitIndex lead5.1.1 = 1 ∧ state lead5.1.1 = Leader ∧
  (applier_batch lead5.1.1).2 = [ApplyCommand (Some 42) 1].
Proof. vm_compute. done. Qed.

(** ** The theorems at these runs *)

Lemma self_ok : 0 ≤ 0 < Z.of_nat 3 ∧ isS64 0.
Proof. split; eval_dec. Qed.

Lemma restart_recovers_witness :
  let rf' := Make 3 0 (300 * ms) (500 * ms) (120 * ms) lead5.1.2 lead5.2 in
  CurrentTerm rf' = 1 ∧ VotedFor rf' = 0 ∧ keys (log rf') = [(0, None); (1, Some 42)] ∧
  lastIncludedIndex rf' = 0 ∧ lastIncludedTerm rf' = 0 ∧ persistedIndex rf' = 1.
Proof.
  apply (restart_recovers 3 0 lead5.1.1 lead5.1.2 lead5.2).
  - apply self_ok.
  - apply self_ok.
  - exact lead5_reach.
  - eval_dec.
Defined.

(** A second leader of term 2 sends a conflicting entry to a follower. *)
Definition fol_args1 : AppendEntriesArgs Z :=
  {| ae_Term := 1; ae_LeaderId := 0; ae_PrevLogIndex := 0; ae_PrevLogTerm := 0;
     ae_Entries := [cmd 1 10; cmd 1 20; cmd 1 30]; ae_LeaderCommit := 1 |}.
Definition fol_args2 : AppendEntriesArgs Z :=
  {| ae_Term := 2; ae_LeaderId := 2; ae_PrevLogIndex := 1; ae_PrevLogTerm := 1;
     ae_Entries := [cmd 2 21]; ae_LeaderCommit := 1 |}.
Definition fol1 : nstate := next (EvAppendEntries (10 * ms) fol_args1) (boot 3 1).
Definition fol2 : nstate := next (EvFinalize 200 4) fol1.

Lemma fol1_ok : event_ok (EvAppendEntries (10 * ms) fol_args1) (boot 3 1).1.1.
Proof.
  split; [eval_dec|]. split; [eval_dec|]. split; [by repeat (constructor; [apply entry_wf_Z; eval_dec|])|].
  intros i e _ [H1 H2]. vm_compute in H2. exfalso. by destruct i.
Qed.
Lemma fol2_reach : reach 3 1 fol2.
Proof.
  apply reach_next; [apply reach_next; [apply reach_boot|apply fol1_ok]|]. split; [eval_dec|done].
Qed.

(** A follower takes a message that replaces the entries after the first. *)
Lemma append_entries_contract_witness :
  ∃ o, AppendEntries (20 * ms) fol_args2 fol2.1.1 = Some o ∧ ae_result fol_args2 fol2.1.1 o ∧
    (aer_Success (aeo_reply o) = true →
     (∀ i e, ae_Entries fol_args2 !! i = Some e →
        fst <$> key_at (aeo_rf o) (1 + 1 + Z.of_nat i) = Some (le_Term e)) ∧
     (∀ i, 0 < i ≤ 3 →
        (∀ j e, ae_Entries fol_args2 !! j = Some e → 1 + 1 + Z.of_nat j ≤ i →
           getTerm fol2.1.1 (1 + 1 + Z.of_nat j) = Some (le_Term e)) →
        key_at (aeo_rf o) i = key_at fol2.1.1 i) ∧
     CommitIndex (aeo_rf o) = (if bool_decide (CommitIndex fol2.1.1 < 1)
       then Z.min 1 (getLastLogIndex (aeo_rf o)) else CommitIndex fol2.1.1) ∧
     (agrees_committed fol_args2 fol2.1.1 →
      CommitIndex fol2.1.1 ≤ CommitIndex (aeo_rf o) ≤ getLastLogIndex (aeo_rf o)) ∧
     ((∀ i e, ae_Entries fol_args2 !! i = Some e →
        fst <$> key_at fol2.1.1 (1 + 1 + Z.of_nat i) = Some (le_Term e)) →
      keys (log (aeo_rf o)) = keys (log fol2.1.1))).
Proof.
  apply (append_entries_contract 3 1 fol2.1.1 fol2.1.2 fol2.2 (20 * ms) fol_args2).
  - eval_dec.
  - eval_dec.
  - exact fol2_reach.
  - split; [eval_dec|]. split; [eval_dec|]. by repeat (constructor; [apply entry_wf_Z; eval_dec|]).
Defined.

Lemma commit_rule_witness :
  ∃ rf', advanceCommit lead5.1.1 = Some rf' ∧ 1 ≤ CommitIndex rf' ≤ getLastLogIndex lead5.1.1 ∧
    rf' = set_CommitIndex (CommitIndex rf') lead5.1.1 ∧
    (CommitIndex rf' = 1 ∨ can_commit lead5.1.1 (CommitIndex rf')) ∧
    (∀ M, CommitIndex rf' < M ≤ getLastLogIndex lead5.1.1 → ¬ can_commit lead5.1.1 M).
Proof.
  apply (commit_rule 3 0 lead5.1.1 lead5.1.2 lead5.2).
  - apply self_ok.
  - apply self_ok.
  - exact lead5_reach.
Defined.

Lemma applier_contract_witness :
  (applier_batch lead5.1.1).1 = set_LastApplied 1 lead5.1.1 ∧
  (applier_batch lead5.1.1).2 =
    (λ i, ApplyCommand (key_at lead5.1.1 i ≫= snd) i) <$> seqZ (0 + 1) (1 - 0).
Proof.
  apply (applier_contract 3 0 lead5.1.1 lead5.1.2 lead5.2).
  - apply self_ok.
  - apply self_ok.
  - exact lead5_reach.
Defined.

Lemma snapshot_keeps_suffix_witness :
  ∃ rf' req, Snapshot 1 (Some [9]) fol2.1.1 = Some (rf', Some (Some req)) ∧
    req = ReqSave (full_encode rf') (Some [9]) ∧ lastIncludedIndex rf' = 1 ∧
    getTerm rf' 1 = getTerm fol2.1.1 1 ∧ getLastLogIndex rf' = getLastLogIndex fol2.1.1 ∧
    CommitIndex rf' = CommitIndex fol2.1.1 ∧ ∀ i, 1 < i → key_at rf' i = key_at fol2.1.1 i.
Proof.
  apply (snapshot_keeps_suffix 3 1 fol2.1.1 fol2.1.2 fol2.2 1 [9]).
  - eval_dec.
  - eval_dec.
  - exact fol2_reach.
  - split; eval_dec.
  - eval_dec.
Defined.

(** The leader probes a follower whose log is empty. *)
Definition probe : AppendEntriesArgs Z :=
  {| ae_Term := 1; ae_LeaderId := 0; ae_PrevLogIndex := 1; ae_PrevLogTerm := 1;
     ae_Entries := []; ae_LeaderCommit := 1 |}.
Definition probe_out : AppendEntries_out Z :=
  default (mkAEO (boot 3 2).1.1 (accept 0) [] None) (AppendEntries (430 * ms) probe (boot 3 2).1.1).

Lemma lead5_log :
  lastIncludedIndex lead5.1.1 = 0 ∧ lastIncludedTerm lead5.1.1 = 0 ∧
  log lead5.1.1 = [mkEntry 0 None []; mkEntry 1 (Some 42) (gob_Encode_int 42)].
Proof. vm_compute. repeat split. Qed.

Lemma lead5_terms i t : getTerm lead5.1.1 i = Some t → (i ≤ 0 ∧ t = 0) ∨ (i = 1 ∧ t = 1).
Proof.
  destruct lead5_log as (E1 & E2 & E3). generalize dependent (lead5.1.1). intros rf E1 E2 E3.
  unfold getTerm. rewrite E1, E2, E3. case_bool_decide; [intros [= <-]; by left|].
  unfold zget. rewrite bool_decide_false by lia. rewrite Z.sub_0_r.
  destruct (Z.to_nat i) as [|[|k]] eqn:Ek; [lia| |done]. intros [= <-]. right. split; [lia|done].
Qed.

Lemma conflict_hint_progress_witness :
  ∃ rf' next, handleAppendReply (440 * ms) 2 probe (aeo_reply probe_out) 1 lead5.1.1 = Some (rf', 1, []) ∧
    nextIndex rf' !! 2%nat = Some next ∧ hint_next 1 1 lead5.1.1 (boot 3 2).1.1 next ∧
    1 ≤ next ≤ getLastLogIndex lead5.1.1 + 1 ∧
    (sorted_terms lead5.1.1 →
     (∀ t, getTerm (boot 3 2).1.1 1 = Some t → t < 1 ∨ ∀ j, le_Term <$> log lead5.1.1 !! j ≠ Some t) →
     next ≤ 1).
Proof.
  apply (conflict_hint_progress 3 0 lead5.1.1 lead5.1.2 lead5.2 (boot 3 2).1.1 probe_out (440 * ms) 2 probe 1).
  - apply self_ok.
  - apply self_ok.
  - exact lead5_reach.
  - vm_compute. reflexivity.
  - vm_compute. reflexivity.
  - eval_dec.
  - eval_dec.
  - eval_dec.
  - vm_compute. reflexivity.
  - apply ae_too_short; try (vm_compute; reflexivity). eval_dec.
  - vm_compute. reflexivity.
  - eval_dec.
  - eval_dec.
Defined.

(** The terms of that leader's log do not decrease. *)
Example lead5_sorted : sorted_terms lead5.1.1.
Proof. intros i j ti tj Hij Hi Hj. apply lead5_terms in Hi. apply lead5_terms in Hj. lia. Qed.

(** ** Applying an entry that is not on disk *)

(** [fol2] has persisted three entries of term 1.  The leader of term 2
    replaces entries 2 and 3 by one, then sends a third, committed entry. *)
Definition fol3 : nstate := next (EvAppendEntries (20 * ms) fol_args2) fol2.
Definition fol_args3 : AppendEntriesArgs Z :=
  {| ae_Term := 2; ae_LeaderId := 2; ae_PrevLogIndex := 2; ae_PrevLogTerm := 2;
     ae_Entries := [cmd 2 31]; ae_LeaderCommit := 3 |}.
Definition fol4 : nstate := next (EvAppendEntries (30 * ms) fol_args3) fol3.

Lemma fol3_ok : event_ok (EvAppendEntries (20 * ms) fol_args2) fol2.1.1.
Proof.
  split; [eval_dec|]. split; [eval_dec|].
  split; [by repeat (constructor; [apply entry_wf_Z; eval_dec|])|].
  intros i e _ [H1 H2]. exfalso. change (1 + 1 + Z.of_nat i ≤ 1) in H2. lia.
Qed.
Lemma fol3_reach : reach 3 1 fol3.
Proof. apply reach_next; [apply fol2_reach|apply fol3_ok]. Qed.

(** [persistedIndex] is not lowered when [AppendEntries] truncates the
    log, so the entries appended afterwards count as persisted before they
    are: in this reachable state the applier delivers index 3 while the
    request that writes it has only been queued, and a restart from the disk
    as it is ends at index 2.  The comments at the field and at [Start] say
    that this cannot happen. *)
Theorem applies_before_persisted :
  reach 3 1 fol3 ∧ event_ok (EvAppendEntries (30 * ms) fol_args3) fol3.1.1 ∧
  ApplyCommand (Some 31) 3 ∈ (applier_batch fol4.1.1).2 ∧
  getLastLogIndex (Make (Cmd := Z) 3 1 (300 * ms) (40 * ms) (120 * ms) fol3.1.2 fol3.2) = 2.
Proof.
  split; [apply fol3_reach|]. split; [|split].
  - split; [eval_dec|]. split; [eval_dec|].
    split; [by repeat (constructor; [apply entry_wf_Z; eval_dec|])|].
    intros i e _ [H1 H2]. exfalso. change (2 + 1 + Z.of_nat i ≤ 1) in H2. lia.
  - replace (applier_batch fol4.1.1).2
      with [ApplyCommand (Some 10) 1; ApplyCommand (Some 21) 2; ApplyCommand (Some 31) 3]
      by (vm_compute; reflexivity).
    repeat constructor.
  - vm_compute. reflexivity.
Qed.

(** ** A heartbeat from a node that is no longer leader *)

(** The leader of term 1 (with one entry that only it has) learns of term 2
    from a vote request after [sendHeartbeats] has tested its role and before
    the goroutine that builds the message has taken the lock. *)
Definition old_leader : nstate :=
  next (EvRequestVote (430 * ms)
          {| rv_Term := 2; rv_CandidateId := 1; rv_LastLogIndex := 0; rv_LastLogTerm := 0 |}) lead3.
(** Meanwhile the leader of term 2, node 1, has committed an entry at index 1
    with node 2. *)
Definition new_args : AppendEntriesArgs Z :=
  {| ae_Term := 2; ae_LeaderId := 1; ae_PrevLogIndex := 0; ae_PrevLogTerm := 0;
     ae_Entries := [cmd 2 77]; ae_LeaderCommit := 1 |}.
Definition follower2 : nstate := next (EvAppendEntries (425 * ms) new_args) (boot 3 2).

Definition stale_msg : AppendEntriesArgs Z :=
  match heartbeat_prepare 2 [] old_leader.1.1 with
  | Some (_, SendAppend args) => args
  | _ => probe
  end.

(** C40: the goroutines of [sendHeartbeats] do not test the role again under
    the lock and use the term of that moment.  Here a follower of term 2 sends
    an [AppendEntries] of term 2 with its old log; node 2 accepts it and
    replaces an entry that it has committed. *)
Theorem stale_heartbeat_erases_committed :
  reach 3 0 old_leader ∧ state old_leader.1.1 = Follower ∧
  heartbeat_prepare 2 [] old_leader.1.1 = Some (old_leader.1.1, SendAppend stale_msg) ∧
  ae_Term stale_msg = CurrentTerm old_leader.1.1 ∧
  reach 3 2 follower2 ∧ CommitIndex follower2.1.1 = 1 ∧
  key_at follower2.1.1 1 = Some (2, Some 77) ∧
  ∃ o, AppendEntries (435 * ms) stale_msg follower2.1.1 = Some o ∧
    aer_Success (aeo_reply o) = true ∧ CommitIndex (aeo_rf o) = 1 ∧
    key_at (aeo_rf o) 1 = Some (1, Some 42).
Proof.
  split. { apply reach_next; [apply lead3_reach|]. split; [eval_dec|]. split_and!; eval_dec. }
  split; [vm_compute; reflexivity|]. split; [vm_compute; reflexivity|].
  split; [vm_compute; reflexivity|]. split.
  { apply reach_next; [apply reach_boot|]. split; [eval_dec|]. split; [eval_dec|].
    split; [by repeat (constructor; [apply entry_wf_Z; eval_dec|])|].
    intros i e _ [H1 H2]. vm_compute in H2. exfalso. by destruct i. }
  split; [vm_compute; reflexivity|]. split; [vm_compute; reflexivity|].
  eexists. split; [vm_compute; reflexivity|]. vm_compute. repeat split.
Qed.

(** ** A heartbeat that panics *)

(** Node 0 has two entries of term 1 that no other node has, loses the
    leadership in term 2 and wins it back in term 3: [nextIndex] is 3 for every
    server.  The leader of term 4 then replaces both entries by one of term 2,
    while a goroutine of the last [sendHeartbeats] still waits for the lock. *)
Definition pan1 : nstate := next (EvStart 43) lead3.
Definition pan2 : nstate :=
  next (EvRequestVote (430 * ms)
          {| rv_Term := 2; rv_CandidateId := 1; rv_LastLogIndex := 0; rv_LastLogTerm := 0 |}) pan1.
Definition pan3 : nstate := next (EvElection (900 * ms)) pan2.
Definition pan4 : nstate := next (EvVoteResponse (910 * ms) (grant 3)) pan3.
Definition pan_args : AppendEntriesArgs Z :=
  {| ae_Term := 4; ae_LeaderId := 1; ae_PrevLogIndex := 0; ae_PrevLogTerm := 0;
     ae_Entries := [cmd 2 50]; ae_LeaderCommit := 0 |}.
Definition pan5 : nstate := next (EvAppendEntries (950 * ms) pan_args) pan4.

Lemma pan5_reach : reach 3 0 pan5.
Proof.
  apply reach_next; [apply reach_next; [apply reach_next; [apply reach_next; [apply reach_next|]|]|]|].
  - apply lead3_reach.
  - split; [eval_dec|]. apply entry_wf_Z; eval_dec.
  - split; [eval_dec|]. split_and!; eval_dec.
  - split; [eval_dec|]. split; eval_dec.
  - split; [eval_dec|]. eval_dec.
  - split; [eval_dec|]. split; [eval_dec|]. split; [by repeat (constructor; [apply entry_wf_Z; eval_dec|])|].
    intros i e _ [H1 H2]. exfalso. assert (CommitIndex pan4.1.1 = 0) as E by (vm_compute; reflexivity).
    rewrite E in H2. cbn [pan_args ae_PrevLogIndex] in H2. lia.
Qed.

Theorem stale_heartbeat_panics :
  reach 3 0 pan5 ∧ state pan4.1.1 = Leader ∧ state pan5.1.1 = Follower ∧
  nextIndex pan5.1.1 = [3; 3; 3] ∧ getLastLogIndex pan5.1.1 = 1 ∧
  event_ok (EvHeartbeat 2 []) pan5.1.1 ∧ raft_exec (EvHeartbeat 2 []) pan5.1.1 = None.
Proof.
  split; [apply pan5_reach|]. do 4 (split; [vm_compute; reflexivity|]).
  split; [split; eval_dec|]. vm_compute. reflexivity.
Qed.

(** The dichotomy at this state, where the goroutine panics. *)
Lemma raft_panics_only_stale_heartbeat_witness :
  ((∃ server data next, EvHeartbeat 2 [] = EvHeartbeat (Cmd := Z) server data ∧ state pan5.1.1 ≠ Leader ∧
      nextIndex pan5.1.1 !! Z.to_nat server = Some next ∧ getLastLogIndex pan5.1.1 + 1 < next) ∧
   raft_exec (EvHeartbeat 2 []) pan5.1.1 = None) ∨
  ∃ rf' reqs d' h', raft_exec (EvHeartbeat 2 []) pan5.1.1 = Some (rf', Some <$> reqs) ∧
    run_reqs reqs (pan5.1.2, pan5.2) = Some (d', h') ∧ node_inv rf' d' h' ∧ progress pan5.1.1 rf'.
Proof.
  apply (raft_panics_only_stale_heartbeat 3 0).
  - apply self_ok.
  - apply self_ok.
  - exact pan5_reach.
  - split; eval_dec.
Defined.

(** ** The order of a flush *)

Definition req_of (r : option (Raft Z * list (option disk_req))) : disk_req :=
  match r with Some (_, [Some q]) => q | _ => ReqHard [] end.
Definition save_of (q : disk_req) : bytes := match q with ReqSave st _ => st | _ => [] end.
Definition payload_of (q : disk_req) : bytes := match q with ReqAppend p => p | _ => [] end.

(** A leader proposes twice (a full save, then a delta [q2]); before the delta
    has been written it is deposed and its log is rewritten (a full save [q3]);
    one more entry arrives (a delta [q4]). *)
Definition ord1 : nstate := next (EvStart 42) lead2.
Definition ord2 : nstate := next (EvStart 43) ord1.
Definition ord_args3 : AppendEntriesArgs Z :=
  {| ae_Term := 2; ae_LeaderId := 1; ae_PrevLogIndex := 0; ae_PrevLogTerm := 0;
     ae_Entries := [cmd 2 50]; ae_LeaderCommit := 0 |}.
Definition ord3 : nstate := next (EvAppendEntries (450 * ms) ord_args3) ord2.
Definition ord_args4 : AppendEntriesArgs Z :=
  {| ae_Term := 2; ae_LeaderId := 1; ae_PrevLogIndex := 1; ae_PrevLogTerm := 2;
     ae_Entries := [cmd 2 60]; ae_LeaderCommit := 0 |}.
Definition ord4 : nstate := next (EvAppendEntries (460 * ms) ord_args4) ord3.
Definition q1 := req_of (raft_exec (EvStart 42) lead2.1.1).
Definition q2 := req_of (raft_exec (EvStart 43) ord1.1.1).
Definition q3 := req_of (raft_exec (EvAppendEntries (450 * ms) ord_args3) ord2.1.1).
Definition q4 := req_of (raft_exec (EvAppendEntries (460 * ms) ord_args4) ord3.1.1).

(** The worker writes [q1]; then [q2] and [q3] in one round; then [q4]. *)
Definition ord_disk : option FilePersister :=
  fp1 ← flush (NewFilePersister ∅) [lead2.2] [(save_of q1, None)] [];
  fp2 ← flush fp1 [] [(save_of q3, None)] [payload_of q2];
  flush fp2 [] [] [payload_of q4].

(** one round of the worker writes a full save before the deltas of the
    same round, also those that were queued before it.  The old delta then
    stands in the new delta file.  Here the two full saves have the same
    length, so recovery applies it to the new one: the entry that was removed
    from the log is back at index 2, after an entry of a later term, and the
    entry at index 2 that was written and acknowledged afterwards is lost. *)
Theorem stale_frame_replaces_acked :
  (∃ s3 p2 p4, q3 = ReqSave s3 None ∧ q2 = ReqAppend p2 ∧ q4 = ReqAppend p4) ∧
  keys (log ord4.1.1) = [(0, None); (2, Some 50); (2, Some 60)] ∧
  ∃ fp, ord_disk = Some fp ∧
    keys (log (Make (Cmd := Z) 3 0 (300 * ms) (500 * ms) (120 * ms)
      (ReadRaftState (NewFilePersister (fp_dir fp))) (ReadHardState fp))) =
      [(0, None); (2, Some 50); (1, Some 43)].
Proof.
  split; [|split].
  - eexists _, _, _. split_and!; vm_compute; reflexivity.
  - vm_compute. reflexivity.
  - eexists. split; [vm_compute; reflexivity|]. vm_compute. reflexivity.
Qed.

(** The same requests, each but the last two answered before the next: the delta
    [q4] and the full save [q3] it continues are under way together, and the worker
    takes the delta first. *)
Definition overtaking : list event :=
  [EvSave (save_of q1) None; TakeSave; Tick; EvAppend (payload_of q2); TakeAppend; Tick;
   EvSave (save_of q3) None; EvAppend (payload_of q4); TakeAppend; Tick; TakeSave; Tick].
Definition overtaken_disk :=
  match exec_all overtaking (newPersister ∅) with Next p => fp_dir (ps_fp p) | _ => fp_dir (NewFilePersister ∅) end.
(** every request has been acknowledged, but after a restart the last entry is not
    in the log. *)
Theorem overtaken_entry_lost :
  keys (log ord4.1.1) = [(0, None); (2, Some 50); (2, Some 60)] ∧
  (match exec_all overtaking (newPersister ∅) with Next p => ps_stateDone p | _ => [] end) = replicate 4 (Some None) ∧
  keys (log (Make (Cmd := Z) 3 0 (300 * ms) (500 * ms) (120 * ms) (ReadRaftState (NewFilePersister overtaken_disk)) lead2.2)) =
    [(0, None); (2, Some 50)].
Proof. split; [by vm_compute|]. split; by vm_compute. Qed.
