(* ===== verification/Election.v ===== *)
(** * Elections: what each handler does to role, term and vote

    Every handler of Raft.v either keeps role, term and vote count, or makes
    the node a follower, or is one of the three election handlers, whose effect
    is described exactly; and the hard-state saves a handler asks for carry the
    term and vote it ends with.  ElectionSafety.v composes these into the
    cluster. *)
From stdpp Require Import prelude gmap.
From S2P Require Import Prelude Gob Persister RaftState RaftStateProps Raft RaftLemmas RaftInv RaftProps.
From stdpp Require Import options.
Local Open Scope Z_scope.

Section calm.
Context {Cmd : Type} `{GobCommand Cmd}.
Implicit Types rf : Raft Cmd.

(** An event that is not part of an election leaves role, term, vote and vote
    count alone, or makes the node a follower. *)
Definition calm rf rf' : Prop :=
  me rf' = me rf ∧ peers rf' = peers rf ∧ tv_le (tv rf) (tv rf') ∧
  (state rf' = state rf ∧ CurrentTerm rf' = CurrentTerm rf ∧ Votes rf' = Votes rf ∨
   state rf' = Follower).

Lemma calm_same rf rf' :
  me rf' = me rf → peers rf' = peers rf → tv rf' = tv rf → state rf' = state rf →
  Votes rf' = Votes rf → calm rf rf'.
Proof.
  intros ?? E ??. split_and!; try done; [by rewrite E|]. left. injection E as ? _. done.
Qed.

(** The hard state requests among the requests of an event carry the term and
    vote the event ends with. *)
Definition hard_reqs_ok rf (reqs : list (option disk_req)) : Prop :=
  ∀ b, Some (ReqHard b) ∈ reqs → b = encodeHardState (CurrentTerm rf) (VotedFor rf).

Lemma remove_conflicts_frame es : ∀ index i rf k rf' b,
  remove_conflicts es index i rf = Some (k, rf', b) → ∃ pc lg, rf' = set_cache pc (set_log lg rf).
Proof.
  induction es as [|e es IH]; intros index i rf k rf' b E; cbn [remove_conflicts] in E.
  { simplify_eq. exists (cache rf'), (log rf'). by destruct rf'. }
  case_bool_decide.
  { simplify_eq. exists (cache rf'), (log rf'). by destruct rf'. }
  apply bind_Some in E as (t & _ & E). case_bool_decide; [by eapply IH|].
  case_bool_decide.
  - destruct (mark_dirty_frame (Z.max (index - lastIncludedIndex rf) 1) rf) as [pc Hpc]. rewrite Hpc in E.
    apply bind_Some in E as (lg & _ & E). simplify_eq. by exists pc, lg.
  - simplify_eq. exists (cache rf'), (log rf'). by destruct rf'.
Qed.

Lemma advance_loop_frame fuel : ∀ rf N rf',
  advance_loop fuel rf N = Some rf' → ∃ c, rf' = set_CommitIndex c rf.
Proof.
  induction fuel as [|fuel IH]; intros rf N rf' E; cbn [advance_loop] in E.
  { simplify_eq. exists (CommitIndex rf'). by destruct rf'. }
  destruct (_ && _) in E; [|simplify_eq; exists (CommitIndex rf'); by destruct rf'].
  case_bool_decide; [by eapply IH|]. apply bind_Some in E as (e & _ & E).
  destruct (negb _) in E; [by eapply IH|]. case_bool_decide; [|by eapply IH].
  simplify_eq. by eexists.
Qed.

Lemma applier_loop_frame fuel : ∀ rf, ∃ a, (applier_loop fuel rf).1 = set_LastApplied a rf.
Proof.
  induction fuel as [|fuel IH]; intros rf; cbn [applier_loop].
  { exists (LastApplied rf). by destruct rf. }
  assert (∃ a, (rf, @nil (ApplyMsg Cmd)).1 = set_LastApplied a rf) as Hsame
    by (exists (LastApplied rf); by destruct rf).
  destruct (_ && _); [|done]. case_bool_decide.
  - destruct (IH (set_LastApplied (LastApplied rf + 1) rf)) as [a Ha]. exists a. by rewrite Ha.
  - destruct (if bool_decide _ then _ else _) as [e|]; [|done].
    destruct (IH (set_LastApplied (LastApplied rf + 1) rf)) as [a Ha].
    destruct (applier_loop fuel _) as [rf2 msgs]. cbn [fst] in *. exists a. by rewrite Ha.
Qed.

(** The events of an election. *)
Definition election_event (ev : raft_event Cmd) : bool :=
  match ev with
  | EvRequestVote _ _ | EvVoteResponse _ _ | EvElection _ => true
  | _ => false
  end.

Lemma no_hard_reqs rf : hard_reqs_ok rf [].
Proof. intros b Hb. by apply elem_of_nil in Hb. Qed.

Lemma state_req_ok rf rf1 snapshot rf2 req sl lc :
  enqueuePersistLocked snapshot rf1 = Some (rf2, req, sl, lc) → hard_reqs_ok rf [req].
Proof.
  intros E b Hb. apply list_elem_of_singleton in Hb. subst req. by apply enqueue_not_hard in E.
Qed.

(** An event that touches neither role, term, vote nor votes and saves no
    hard state. *)
Lemma calm_quiet rf rf' :
  me rf' = me rf → peers rf' = peers rf → tv rf' = tv rf → state rf' = state rf →
  Votes rf' = Votes rf → calm rf rf' ∧ hard_reqs_ok rf' [].
Proof. intros. split; [by apply calm_same|apply no_hard_reqs]. Qed.

Lemma calm_trans_same rf rf1 rf2 :
  calm rf rf1 → me rf2 = me rf1 → peers rf2 = peers rf1 → tv rf2 = tv rf1 → state rf2 = state rf1 →
  Votes rf2 = Votes rf1 → calm rf rf2.
Proof.
  intros (?&?&Htv&Hc) Em Ep Et Es Ev. unfold calm. rewrite Em, Ep, Et, Es, Ev. by injection Et as -> _.
Qed.

(** A conditional hard-state request, seen from any node with the same term
    and vote. *)
Lemma hard_if_ok (newer : bool) rf1 rf2 :
  tv rf2 = tv rf1 →
  hard_reqs_ok rf2 (Some <$> (if newer then [enqueuePersistHardStateLocked rf1] else [])).
Proof.
  intros Etv b Hb. injection Etv as E1 E2. destruct newer; [|by apply elem_of_nil in Hb].
  apply list_elem_of_singleton in Hb. unfold enqueuePersistHardStateLocked in Hb.
  injection Hb as ->. by rewrite E1, E2.
Qed.

Lemma ae_enter_calm now args rf : CurrentTerm rf ≤ ae_Term args → calm rf (ae_enter now args rf).
Proof.
  intros Hle. destruct (ae_enter_facts now args rf Hle)
    as (_ & _ & _ & _ & _ & _ & Em & Ep & _ & _ & Es & _ & Htv & _).
  split_and!; try done. by right.
Qed.

(** Appending and saving only change the log and the cache. *)
Lemma append_save_frame (appended : bool) es rf1 pc lg :
  let rf2 := set_cache pc (set_log lg rf1) in
  ∃ pc' lg', (if appended then
      set_log (log (markPersistDirtyFromLocked (zlen (log rf2)) rf2) ++ es)
        (markPersistDirtyFromLocked (zlen (log rf2)) rf2)
    else rf2) = set_cache pc' (set_log lg' rf1).
Proof.
  cbv zeta. destruct appended; [|by eexists _, _].
  destruct (mark_dirty_frame (zlen (log (set_cache pc (set_log lg rf1)))) (set_cache pc (set_log lg rf1)))
    as [pc' ->]. by eexists _, _.
Qed.

Lemma AppendEntries_calm now args rf o :
  AppendEntries now args rf = Some o →
  calm rf (aeo_rf o) ∧
  hard_reqs_ok (aeo_rf o) (aeo_reqs o).
Proof.
  unfold AppendEntries. cbv zeta. intros E.
  case_bool_decide as Hst; [simplify_eq; by apply calm_quiet|].
  fold (ae_enter now args rf) in E.
  pose proof (ae_enter_calm now args rf ltac:(lia)) as Hc.
  set (newer := bool_decide (CurrentTerm rf < ae_Term args)) in *.
  set (rf1 := ae_enter now args rf) in *. clearbody rf1 newer.
  assert (∀ rep, calm rf rf1 ∧ hard_reqs_ok rf1 (aeo_reqs (mkAEO rf1 rep
    (if newer then [enqueuePersistHardStateLocked rf1] else []) None))) as Hfail.
  { intros rep. split; [done|]. unfold aeo_reqs. simpl. rewrite app_nil_r. by apply hard_if_ok. }
  case_bool_decide; [simplify_eq; apply Hfail|]. case_bool_decide; [simplify_eq; apply Hfail|].
  apply bind_Some in E as (t & _ & E). destruct (negb _).
  { apply bind_Some in E as (ci & _ & E). simplify_eq. apply Hfail. }
  apply bind_Some in E as ([[i rf2] removed] & Erc & E).
  apply remove_conflicts_frame in Erc as (pc2 & lg2 & ->).
  set (appended := bool_decide _) in E. clearbody appended. clear Hfail.
  destruct (append_save_frame appended (encode_if_possible <$> drop i (ae_Entries args)) rf1 pc2 lg2)
    as (pc3 & lg3 & E3). rewrite E3 in E.
  apply bind_Some in E as ([[rf3 hard] pers] & Ep & E). cbv beta iota in E.
  assert (∃ pc lg, rf3 = set_cache pc (set_log lg rf1) ∧
    hard_reqs_ok rf3 ((Some <$> hard) ++ match pers with Some (req, _, _) => [req] | None => [] end))
    as (pc4 & lg4 & -> & Hh).
  { destruct (removed || appended).
    - apply bind_Some in Ep as ([[[rf4 req] sl] lc] & Eq & Ep). simplify_eq.
      pose proof (state_req_ok rf3 _ _ _ _ _ _ Eq). apply enqueue_frame in Eq as (lg & pc & -> & _).
      by exists pc, lg.
    - simplify_eq. exists pc3, lg3. split; [done|]. rewrite app_nil_r. by apply hard_if_ok. }
  simplify_eq. cbn [aeo_rf]. unfold aeo_reqs. cbn [aeo_hard aeo_persist].
  split; [case_bool_decide; by apply (calm_trans_same rf rf1)|].
  intros b Hb. specialize (Hh b Hb). by case_bool_decide.
Qed.

Lemma stepDown_calm t rf :
  CurrentTerm rf < t →
  calm rf (stepDown t rf) ∧
  hard_reqs_ok (stepDown t rf) (Some <$> [enqueuePersistHardStateLocked (stepDown t rf)]).
Proof.
  intros Hlt. split.
  - split_and!; try done; [left; simpl; lia|by right].
  - intros b Hb. apply list_elem_of_singleton in Hb. unfold enqueuePersistHardStateLocked in Hb.
    by injection Hb as ->.
Qed.

Lemma persist_calm snapshot rf rf' req :
  persist snapshot rf = Some (rf', req) →
  (∃ lg pc, rf' = set_cache pc (set_log lg rf)) ∧ ∀ r, hard_reqs_ok r [req].
Proof.
  intros E. split; [apply persist_frame in E as (lg & pc & -> & _); by exists lg, pc|].
  intros r. unfold persist in E. apply bind_Some in E as ([[[rf1 q] sl] lc] & E1 & E). simplify_eq.
  by eapply state_req_ok.
Qed.

Lemma Snapshot_calm index sn rf rf' req :
  Snapshot index sn rf = Some (rf', req) →
  calm rf rf' ∧ hard_reqs_ok rf' (match req with Some r => [r] | None => [] end).
Proof.
  unfold Snapshot. intros E. case_bool_decide; [simplify_eq; by apply calm_quiet|].
  case_bool_decide; [simplify_eq; by apply calm_quiet|]. cbv zeta in E.
  apply bind_Some in E as (e & _ & E). apply bind_Some in E as (rest & _ & E).
  destruct (mark_dirty_frame 0 (set_log (mkEntry (le_Term e) None [] :: rest) rf)) as [pc0 Hpc0].
  rewrite Hpc0 in E. apply bind_Some in E as ([rf2 q] & Ep & E). cbv beta iota in E.
  apply persist_calm in Ep as [(lg & pc & Erf) Hreq]. simplify_eq.
  split; [|apply Hreq]. repeat case_bool_decide; by apply calm_same.
Qed.

Lemma InstallSnapshot_calm now args rf rf' t reqs msgs :
  InstallSnapshot now args rf = Some (rf', t, reqs, msgs) → calm rf rf' ∧ hard_reqs_ok rf' reqs.
Proof.
  unfold InstallSnapshot. intros E.
  case_bool_decide; [simplify_eq; by apply calm_quiet|]. cbv zeta in E.
  fold (is_enter now args rf) in E. set (hard := if bool_decide _ then [Some _] else []) in E.
  assert (∀ r, tv r = tv (is_enter now args rf) → hard_reqs_ok r hard) as Hhard.
  { intros r Etv. replace hard with (Some <$> is_hard now args rf).
    - by apply hard_if_ok.
    - subst hard. clear E. unfold is_hard, is_enter. by case_bool_decide. }
  assert (calm rf (is_enter now args rf)) as Hc.
  { clear E. unfold is_enter. case_bool_decide; [|by apply calm_same].
    split_and!; try done; [left; simpl; lia|by right]. }
  set (rf1 := is_enter now args rf) in *. clearbody rf1 hard.
  case_bool_decide; [injection E as <- _ <- _; split; [done|by apply Hhard]|].
  apply bind_Some in E as (same & _ & E). apply bind_Some in E as (lg & _ & E).
  destruct (mark_dirty_frame 0 (set_log lg rf1)) as [pc0 Hpc0]. rewrite Hpc0 in E.
  apply bind_Some in E as ([rf2 q] & Ep & E). cbv beta iota in E.
  apply persist_calm in Ep as [(lg2 & pc & Erf) Hreq]. simplify_eq.
  split.
  - case_bool_decide; by apply (calm_trans_same rf rf1).
  - intros b Hb. apply elem_of_app in Hb as [Hb|Hb].
    + eapply Hhard; [|done]. by case_bool_decide.
    + by apply (Hreq _ b).
Qed.

Lemma Start_calm c rf rf' r pers :
  Start c rf = Some (rf', r, pers) →
  calm rf rf' ∧ hard_reqs_ok rf' (match pers with Some (req, _, _, _) => [req] | None => [] end).
Proof.
  unfold Start. intros E. destruct (negb _) in E; [simplify_eq; by apply calm_quiet|].
  cbv zeta in E. destruct (mark_dirty_frame (zlen (log rf)) rf) as [pc Hpc]. rewrite Hpc in E.
  apply bind_Some in E as ([[[rf1 req] sl] lc] & Eq & E). simplify_eq.
  split; [|by eapply state_req_ok]. apply enqueue_frame in Eq as (lg & pc' & -> & _). by apply calm_same.
Qed.

Lemma heartbeat_calm server delay rf rf' q :
  heartbeat_prepare server delay rf = Some (rf', q) → calm rf rf'.
Proof.
  unfold heartbeat_prepare. intros E. destruct (zget (nextIndex rf) server) as [nx|]; [|done].
  cbn [mbind option_bind] in E. case_bool_decide.
  - case_bool_decide; [|by simplify_eq/=; apply calm_same].
    destruct (zset _ _ _); simplify_eq/=. by apply calm_same.
  - destruct (if bool_decide _ then _ else _); [|done]. cbn [mbind option_bind] in E.
    destruct (zdrop _ _); simplify_eq/=. by apply calm_same.
Qed.

Lemma other_calm ev rf rf' reqs :
  raft_exec ev rf = Some (rf', reqs) → election_event ev = false →
  calm rf rf' ∧ hard_reqs_ok rf' reqs.
Proof.
  intros E Hev. destruct ev; try done; cbn [raft_exec] in E.
  - destruct (AppendEntries now args rf) as [o|] eqn:Eo; [|done]. injection E as <- <-.
    by eapply AppendEntries_calm.
  - injection E as <- <-. unfold AppendEntries_finalize, commitPersistResult.
    repeat case_bool_decide; by apply calm_quiet.
  - destruct (Start command rf) as [[[rf1 r] pers]|] eqn:Es; [|done]. injection E as <- <-.
    by eapply Start_calm.
  - injection E as <- <-. unfold completePersistAsync, commitPersistResult.
    repeat case_bool_decide; by apply calm_quiet.
  - destruct (Snapshot index snapshot rf) as [[rf1 req]|] eqn:Es; [|done]. injection E as <- <-.
    by eapply Snapshot_calm.
  - destruct (InstallSnapshot now args rf) as [[[[rf1 t] q] m]|] eqn:Es; [|done]. injection E as <- <-.
    by eapply InstallSnapshot_calm.
  - destruct (heartbeat_prepare server snapshotData rf) as [[rf1 q]|] eqn:Eh; [|done]. injection E as <- <-.
    split; [by eapply heartbeat_calm|apply no_hard_reqs].
  - unfold handleInstallReply in E. case_bool_decide.
    { injection E as <- <-. by apply stepDown_calm. }
    destruct (zset (nextIndex rf) _ _); [|done]. destruct (zset (matchIndex rf) _ _); [|done].
    injection E as <- <-. by apply calm_quiet.
  - unfold handleAppendReply in E. destruct (_ || _) in E.
    { injection E as <- <-. by apply calm_quiet. }
    case_bool_decide.
    { injection E as <- <-. by apply stepDown_calm. }
    destruct (if aer_Success reply then _ else _) as [[rf1 n1]|] eqn:E1; [|done].
    cbn [mbind option_bind] in E. destruct (advanceCommit rf1) as [rf2|] eqn:E2; [|done].
    injection E as <- <-. split; [|apply no_hard_reqs].
    apply advance_loop_frame in E2 as [c ->].
    assert (me rf1 = me rf ∧ peers rf1 = peers rf ∧ tv rf1 = tv rf ∧ state rf1 = state rf ∧
            Votes rf1 = Votes rf) as (?&?&?&?&?).
    { destruct (aer_Success reply).
      - destruct (zset (matchIndex rf) _ _); [|done]. destruct (zset (nextIndex rf) _ _); [|done].
        cbn [mbind option_bind] in E1. simplify_eq/=. by case_bool_decide.
      - cbv zeta in E1. destruct (zset (nextIndex rf) _ _); [|done]. by simplify_eq/=. }
    by apply calm_same.
  - injection E as <- <-. destruct (applier_loop_frame (Z.to_nat (CommitIndex rf - LastApplied rf)) rf) as [a Ha].
    unfold applier_batch. rewrite Ha. by apply calm_quiet.
  - injection E as <- <-. split; [|apply no_hard_reqs]. unfold SyncAppliedIndex. cbv zeta.
    repeat case_bool_decide; by apply calm_same.
  - injection E as <- <-. by apply calm_quiet.
Qed.

(** ** The events of an election *)

(** A vote is given for the term of the request, recorded in the hard state,
    and it is the only vote of that term. *)
Lemma RequestVote_votes now args rf rf' reply reqs :
  RequestVote now args rf = Some (rf', reply, reqs) → 0 ≤ rv_CandidateId args →
  calm rf rf' ∧ hard_reqs_ok rf' (Some <$> reqs) ∧
  (rvr_VoteGranted reply = true →
     tv rf' = (rv_Term args, rv_CandidateId args) ∧ rvr_Term reply = rv_Term args ∧
     reqs = [enqueuePersistHardStateLocked rf']).
Proof.
  unfold RequestVote. intros E Hid.
  case_bool_decide as Hst; [simplify_eq; split_and!; [by apply calm_same|apply no_hard_reqs|done]|].
  cbv zeta in E. set (newer := bool_decide (CurrentTerm rf < rv_Term args)) in E.
  set (rf1 := if newer then _ else rf) in E.
  assert (calm rf rf1 ∧ CurrentTerm rf1 = rv_Term args ∧
    (VotedFor rf1 = -1 ∨ tv rf1 = tv rf ∧ state rf1 = state rf ∧ Votes rf1 = Votes rf)) as (Hc & Ht & Hv).
  { subst rf1. destruct newer eqn:Hnew.
    - apply bool_decide_eq_true in Hnew. split; [|split; [done|by left]].
      unfold calm. split_and!; try done; [left; simpl; lia|by right].
    - apply bool_decide_eq_false in Hnew. split_and!; [by apply calm_same|lia|by right]. }
  clearbody rf1.
  apply bind_Some in E as (lt & _ & E). destruct (_ || _) in E.
  { injection E as <- <- <-. split_and!; try done. destruct newer; [|apply no_hard_reqs].
    intros b Hb. apply list_elem_of_singleton in Hb. by injection Hb as ->. }
  destruct (bool_decide (VotedFor rf1 = -1) || bool_decide (VotedFor rf1 = rv_CandidateId args)) eqn:Hg.
  - rewrite orb_true_r in E. injection E as <- <- <-. split_and!.
    + destruct Hc as (Hm & Hp & Htv & Hrole). split_and!; try done.
      etrans; [exact Htv|]. right. split; [done|]. simpl.
      apply orb_true_iff in Hg. rewrite !bool_decide_eq_true in Hg. tauto.
    + intros b Hb. apply list_elem_of_singleton in Hb. by injection Hb as ->.
    + intros _. split_and!; try done. unfold tv. simpl. by rewrite Ht.
  - rewrite orb_false_r in E. injection E as <- <- <-. split_and!; try done.
    destruct newer; [|apply no_hard_reqs].
    intros b Hb. apply list_elem_of_singleton in Hb. by injection Hb as ->.
Qed.

Lemma becomeLeader_frame now rf rf' :
  becomeLeader now rf = Some rf' →
  me rf' = me rf ∧ peers rf' = peers rf ∧ tv rf' = tv rf ∧ Votes rf' = Votes rf ∧ state rf' = Leader.
Proof.
  unfold becomeLeader. cbv zeta. intros E. apply bind_Some in E as (mi & _ & E). by simplify_eq.
Qed.

Lemma startElection_votes now rf rf' args req :
  startElection now rf = Some (rf', args, req) →
  me rf' = me rf ∧ peers rf' = peers rf ∧ tv rf' = (CurrentTerm rf + 1, me rf) ∧ Votes rf' = 1 ∧
  req = enqueuePersistHardStateLocked rf' ∧ rv_Term args = CurrentTerm rf + 1 ∧
  rv_CandidateId args = me rf ∧
  (state rf' = Candidate ∨ state rf' = Leader ∧ Z.of_nat (peers rf) < 2 * 1).
Proof.
  unfold startElection. cbv zeta. intros E. set (rf1 := resetElectionTimer now _) in E.
  apply bind_Some in E as (rf2 & E2 & E). apply bind_Some in E as (lt & _ & E).
  injection E as <- <- <-. cbn [rv_Term rv_CandidateId].
  assert (me rf2 = me rf ∧ peers rf2 = peers rf ∧ tv rf2 = (CurrentTerm rf + 1, me rf) ∧ Votes rf2 = 1 ∧
    (state rf2 = Candidate ∨ state rf2 = Leader ∧ Z.of_nat (peers rf) < 2 * 1)) as (?&?&Htv&?&?).
  { case_bool_decide as Hq.
    - apply becomeLeader_frame in E2 as (E3 & E4 & E5 & E6 & E7).
      rewrite E3, E4, E5, E6, E7. split_and!; try done. right. split; [done|]. simpl in Hq.
      rewrite Z.quot_div_nonneg in Hq by lia. pose proof (Z.div_mod (Z.of_nat (peers rf)) 2).
      pose proof (Z.mod_pos_bound (Z.of_nat (peers rf)) 2). lia.
    - injection E2 as <-. split_and!; try done. by left. }
  injection Htv as Ht Hv. split_and!; try done.
  - unfold tv. by rewrite Ht, Hv.
  - unfold enqueuePersistHardStateLocked. simpl. by rewrite Ht, Hv.
Qed.

Lemma handleVoteResponse_votes now reply rf rf' reqs :
  handleVoteResponse now reply rf = Some (rf', reqs) →
  (calm rf rf' ∧ hard_reqs_ok rf' (Some <$> reqs) ∧
     ¬ (state rf' = Candidate ∧ rvr_Term reply = CurrentTerm rf' ∧ rvr_VoteGranted reply = true)) ∨
  (state rf = Candidate ∧ rvr_Term reply = CurrentTerm rf ∧ rvr_VoteGranted reply = true ∧ reqs = [] ∧
   me rf' = me rf ∧ peers rf' = peers rf ∧ tv rf' = tv rf ∧ Votes rf' = Votes rf + 1 ∧
   (state rf' = Candidate ∨ state rf' = Leader ∧ Z.of_nat (peers rf) < 2 * (Votes rf + 1))).
Proof.
  unfold handleVoteResponse. intros E. case_bool_decide as H1.
  { injection E as <- <-. left. destruct (stepDown_calm (rvr_Term reply) rf H1). split_and!; try done.
    by intros (? & _). }
  case_bool_decide as H2.
  { injection E as <- <-. left. split_and!; [by apply calm_same|apply no_hard_reqs|]. lia. }
  case_bool_decide as H3; cbn [negb] in E.
  2: { injection E as <- <-. left. split_and!; [by apply calm_same|apply no_hard_reqs|]. by intros (? & _). }
  destruct (rvr_VoteGranted reply).
  2: { injection E as <- <-. left. split_and!; [by apply calm_same|apply no_hard_reqs|]. by intros (_ & _ & ?). }
  cbv zeta in E. right. case_bool_decide as Hq.
  - apply bind_Some in E as (rf2 & E2 & E). injection E as <- <-.
    apply becomeLeader_frame in E2 as (-> & -> & -> & -> & ->). split_and!; try done; [lia|].
    right. split; [done|]. simpl in Hq.
    rewrite Z.quot_div_nonneg in Hq by lia. pose proof (Z.div_mod (Z.of_nat (peers rf)) 2).
    pose proof (Z.mod_pos_bound (Z.of_nat (peers rf)) 2). lia.
  - injection E as <- <-. split_and!; try done; [lia|]. by left.
Qed.

(** A restarted node is a follower with what [recover] gives. *)
Lemma Make_tv n self timeout now ratio d h s p :
  hard_holds h p → 0 ≤ s.1 → tv (Make (Cmd := Cmd) n self timeout now ratio d []) = s →
  let rf' := Make (Cmd := Cmd) n self timeout now ratio d h in
  tv rf' = recover s p ∧ state rf' = Follower ∧ me rf' = self ∧ peers rf' = n.
Proof.
  intros Hh Hs Etv. unfold Make in *. cbv zeta in *.
  set (rf0 := mkRaft _ _ _ _ _ _ _ _ _ _ _ _ _ _ _ _ _ _ _ _) in *.
  assert (∃ t v lg li lt pc, readPersist d rf0 = set_lastIncludedTerm lt (set_lastIncludedIndex li
    (set_log lg (set_VotedFor v (set_CurrentTerm t (set_cache pc rf0)))))) as (t & v & lg & li & lt & pc & E).
  { unfold readPersist. destruct (readPersistBinary d rf0) as [rf1|] eqn:E1.
    - unfold readPersistBinary in E1. repeat (case_match; try done).
      apply bind_Some in E1 as ([[dl ee] off] & _ & E1). repeat (case_match; try done).
      all: simplify_eq; by eexists _, _, _, _, _, _.
    - by exists 0, (-1), [mkEntry 0 None []], 0, 0, invalidatePersistCacheLocked. }
  rewrite E in *. change (readHardState [] ?x) with x in Etv.
  assert (s = (t, v)) as -> by (rewrite <-Etv; done). cbn [fst] in Hs.
  rewrite (readHardState_spec h p) by done. split_and!; try done.
  unfold tv. simpl. by destruct (recover (t, v) p).
Qed.

End calm.
