(* ===== verification/ElectionSafety.v ===== *)
(** * Election safety: at most one leader per term

    A cluster of nodes that run the handlers of Raft.v.  Vote requests and
    replies travel through a network that delays, reorders and loses them, and
    nodes crash at any moment and restart from their files.

    A critical section changes the node in memory and queues hard-state saves;
    a message that waits for its sender's save carries the number of saves that
    must have completed ([pk_need]).  The saves complete one by one; a crash
    loses the pending ones and the messages that were waiting for them.  The
    raft state file has a term and a vote in its header too: some value the
    node had since its last restart, in no particular order of saving.  What
    else happens to a node is unconstrained: any [AppendEntries], any snapshot,
    any reply, any client command. *)
From stdpp Require Import prelude gmap functions sorting.
From S2P Require Import Prelude Gob Persister RaftState RaftStateProps Raft RaftLemmas RaftInv RaftProps Election.
From stdpp Require Import options.
Local Open Scope Z_scope.

(** A vote request, or the reply to it. *)
Record packet := mkPacket {
  pk_cand : nat; pk_voter : nat; pk_args : RequestVoteArgs;
  pk_reply : option RequestVoteReply; pk_need : nat }.
Definition pk_sender (p : packet) : nat := if pk_reply p then pk_voter p else pk_cand p.

(** The bytes of the hard-state saves among the requests of an event. *)
Definition hard_saves (reqs : list (option disk_req)) : list bytes :=
  omap (λ r, match r with Some (ReqHard b) => Some b | _ => None end) reqs.

Section cluster.
Context {Cmd : Type} `{GobCommand Cmd}.
Variable n : nat.
Implicit Types rf : Raft Cmd.

(** A node: memory, term and vote in the header of the raft state file, the
    hard state file, the pending saves, the number of completed saves, and the
    terms and votes since the last restart. *)
Record node := mkNode {
  nd_rf : Raft Cmd; nd_state : Z * Z; nd_hard : bytes; nd_pending : list bytes;
  nd_done : nat; nd_past : list (Z * Z) }.

(** [cl_led] is the history of leaders: the terms in which a node has led. *)
Record cluster := mkCluster { cl_node : nat → node; cl_net : list packet; cl_led : list (Z * nat) }.

(** After a critical section. *)
Definition nd_exec rf' (reqs : list (option disk_req)) (nd : node) : node :=
  mkNode rf' (nd_state nd) (nd_hard nd) (nd_pending nd ++ hard_saves reqs) (nd_done nd)
    (tv rf' :: nd_past nd).
Definition nd_need (nd : node) : nat := nd_done nd + length (nd_pending nd).

Definition note (i : nat) rf (led : list (Z * nat)) : list (Z * nat) :=
  if bool_decide (state rf = Leader) then (CurrentTerm rf, i) :: led else led.

(** The requests of [startElection] to every other peer. *)
Definition broadcast (i : nat) (args : RequestVoteArgs) (need : nat) : list packet :=
  (λ v, mkPacket i v args None need) <$> filter (λ v, v ≠ i) (seq 0 n).

Definition delivered (c : cluster) (p : packet) : Prop :=
  (pk_need p ≤ nd_done (cl_node c (pk_sender p)))%nat.

(** Terms and votes that fit into an int. *)
Definition tv_fits (x : Z * Z) : Prop := isS64 x.1 ∧ isS64 x.2.

Inductive cl_step (c : cluster) : cluster → Prop :=
  | CElection i now rf' args req :
      (i < n)%nat → startElection now (nd_rf (cl_node c i)) = Some (rf', args, req) →
      tv_fits (tv rf') →
      cl_step c (mkCluster (<[i := nd_exec rf' [Some req] (cl_node c i)]> (cl_node c))
        (broadcast i args (nd_need (nd_exec rf' [Some req] (cl_node c i))) ++ cl_net c)
        (note i rf' (cl_led c)))
  | CRequest pre post p now rf' reply reqs :
      cl_net c = pre ++ p :: post → pk_reply p = None → delivered c p →
      RequestVote now (pk_args p) (nd_rf (cl_node c (pk_voter p))) = Some (rf', reply, reqs) →
      tv_fits (tv rf') →
      cl_step c (mkCluster
        (<[pk_voter p := nd_exec rf' (Some <$> reqs) (cl_node c (pk_voter p))]> (cl_node c))
        (mkPacket (pk_cand p) (pk_voter p) (pk_args p) (Some reply)
           (if bool_decide (reqs = []) then 0
            else nd_need (nd_exec rf' (Some <$> reqs) (cl_node c (pk_voter p)))) :: pre ++ post)
        (note (pk_voter p) rf' (cl_led c)))
  | CResponse pre post p now reply rf' reqs :
      cl_net c = pre ++ p :: post → pk_reply p = Some reply → delivered c p →
      handleVoteResponse now reply (nd_rf (cl_node c (pk_cand p))) = Some (rf', reqs) →
      tv_fits (tv rf') →
      cl_step c (mkCluster
        (<[pk_cand p := nd_exec rf' (Some <$> reqs) (cl_node c (pk_cand p))]> (cl_node c))
        (pre ++ post) (note (pk_cand p) rf' (cl_led c)))
  | CLose pre post p :
      cl_net c = pre ++ p :: post → cl_step c (mkCluster (cl_node c) (pre ++ post) (cl_led c))
  | COther i ev rf' reqs :
      (i < n)%nat → election_event ev = false →
      raft_exec ev (nd_rf (cl_node c i)) = Some (rf', reqs) → tv_fits (tv rf') →
      cl_step c (mkCluster (<[i := nd_exec rf' reqs (cl_node c i)]> (cl_node c)) (cl_net c)
        (note i rf' (cl_led c)))
  | CFlush i b rest :
      (i < n)%nat → nd_pending (cl_node c i) = b :: rest →
      cl_step c (mkCluster (<[i := mkNode (nd_rf (cl_node c i)) (nd_state (cl_node c i)) b rest
                                     (S (nd_done (cl_node c i))) (nd_past (cl_node c i))]> (cl_node c))
        (cl_net c) (cl_led c))
  | CSync i x :
      (i < n)%nat → x ∈ nd_past (cl_node c i) →
      cl_step c (mkCluster (<[i := mkNode (nd_rf (cl_node c i)) x (nd_hard (cl_node c i))
                                     (nd_pending (cl_node c i)) (nd_done (cl_node c i))
                                     (nd_past (cl_node c i))]> (cl_node c))
        (cl_net c) (cl_led c))
  | CCrash i timeout now ratio d :
      (i < n)%nat →
      tv (Make (Cmd := Cmd) n (Z.of_nat i) timeout now ratio d []) = nd_state (cl_node c i) →
      let rf' := Make n (Z.of_nat i) timeout now ratio d (nd_hard (cl_node c i)) in
      cl_step c (mkCluster (<[i := mkNode rf' (nd_state (cl_node c i)) (nd_hard (cl_node c i)) []
                                     (nd_done (cl_node c i)) [tv rf']]> (cl_node c))
        (filter (λ p, pk_sender p = i → (pk_need p ≤ nd_done (cl_node c i))%nat) (cl_net c))
        (cl_led c)).

Definition nd_init (i : nat) (timeout now ratio : Z) : node :=
  mkNode (Make (Cmd := Cmd) n (Z.of_nat i) timeout now ratio [] []) (0, -1) [] [] 0 [(0, -1)].
Definition cl_init (timeout : nat → Z) (now ratio : Z) : cluster :=
  mkCluster (λ i, nd_init i (timeout i) now ratio) [] [].

Definition cl_reach (c : cluster) : Prop :=
  ∃ timeout now ratio, rtc cl_step (cl_init timeout now ratio) c.

(** ** The invariant *)

(** The votes that are on disk, and for every term and candidate the voters
    whose reply the candidate has counted. *)
Implicit Types (votes : Z * nat → option Z) (counted : Z * nat → gset nat).

Definition cmp (x y : Z * Z) : Prop := tv_le x y ∨ tv_le y x.

(** Every term and vote a node has in its files, queue and past is on one
    chain that ends in its memory. *)
Record node_ok votes (i : nat) (nd : node) (p : Z * Z) (qs : list (Z * Z)) : Prop := {
  no_me : me (nd_rf nd) = Z.of_nat i ∧ peers (nd_rf nd) = n;
  no_hard : hard_holds (nd_hard nd) p;
  no_pending : nd_pending nd = (λ q, encodeHardState q.1 q.2) <$> qs;
  no_sorted : StronglySorted tv_le (p :: qs);
  no_cmp : ∀ x y, x ∈ nd_state nd :: p :: qs ++ nd_past nd →
                  y ∈ nd_state nd :: p :: qs ++ nd_past nd → cmp x y;
  no_below : ∀ x, x ∈ nd_state nd :: p :: qs ++ nd_past nd →
                  tv_le x (tv (nd_rf nd)) ∧ 0 ≤ x.1 ∧ tv_fits x;
  no_votes : ∀ t c, votes (t, i) = Some c → 0 ≤ c ∧ tv_le (t, c) p;
}.

(** Node [nd] has voted for [c] in term [t], on disk once [k] saves are done. *)
Definition cast votes (i : nat) (nd : node) (k : nat) (t : Z) (c : nat) : Prop :=
  if bool_decide (k ≤ nd_done nd)%nat then votes (t, i) = Some (Z.of_nat c)
  else nd_pending nd !! (k - nd_done nd - 1)%nat = Some (encodeHardState t (Z.of_nat c)).

Record packet_ok votes (nodes : nat → node) (p : packet) : Prop := {
  po_ids : (pk_cand p < n)%nat ∧ (pk_voter p < n)%nat ∧ pk_cand p ≠ pk_voter p ∧
           rv_CandidateId (pk_args p) = Z.of_nat (pk_cand p) ∧ tv_fits (rv_Term (pk_args p), Z.of_nat (pk_cand p));
  po_vote : match pk_reply p with
            | None => cast votes (pk_cand p) (nodes (pk_cand p)) (pk_need p) (rv_Term (pk_args p)) (pk_cand p)
            | Some r =>
                votes (rv_Term (pk_args p), pk_cand p) = Some (Z.of_nat (pk_cand p)) ∧
                (rvr_VoteGranted r = true →
                   rvr_Term r = rv_Term (pk_args p) ∧
                   cast votes (pk_voter p) (nodes (pk_voter p)) (pk_need p) (rv_Term (pk_args p)) (pk_cand p))
            end }.

Definition token (p : packet) : Z * nat * nat := (rv_Term (pk_args p), pk_cand p, pk_voter p).

(** The votes counted in the current term, and who has led. *)
Record role_ok counted (led : list (Z * nat)) (i : nat) rf : Prop := {
  ro_cand : state rf = Candidate →
            Votes rf = 1 + Z.of_nat (size (counted (CurrentTerm rf, i)));
  ro_lead : state rf = Leader → (CurrentTerm rf, i) ∈ led }.

Definition elected votes (t : Z) (i : nat) : Prop :=
  n = 1%nat ∨ ∃ Q : gset nat, (n < 2 * size Q)%nat ∧
    ∀ v, v ∈ Q → (v < n)%nat ∧ votes (t, v) = Some (Z.of_nat i).

Record cl_inv votes counted (c : cluster) : Prop := {
  ci_node : ∀ i, (i < n)%nat → ∃ p qs, node_ok votes i (cl_node c i) p qs;
  ci_role : ∀ i, (i < n)%nat → role_ok counted (cl_led c) i (nd_rf (cl_node c i));
  ci_net : ∀ p, p ∈ cl_net c → packet_ok votes (cl_node c) p;
  ci_fresh : ∀ p, p ∈ cl_net c → pk_voter p ∉ counted (rv_Term (pk_args p), pk_cand p);
  ci_nodup : NoDup (token <$> cl_net c);
  ci_counted : ∀ t i v, v ∈ counted (t, i) →
    (v < n)%nat ∧ v ≠ i ∧ votes (t, v) = Some (Z.of_nat i) ∧ votes (t, i) = Some (Z.of_nat i);
  ci_led : ∀ t i, (t, i) ∈ cl_led c → (i < n)%nat ∧ elected votes t i }.

(** ** The chain of one node *)

Lemma encodeHardState_inj a b : tv_fits a → tv_fits b →
  encodeHardState a.1 a.2 = encodeHardState b.1 b.2 → a = b.
Proof.
  intros [Ha1 Ha2] [Hb1 Hb2] E. unfold encodeHardState in E.
  pose proof (gob_Encode_Decode_int a.1 (gob_Encode_int a.2) Ha1) as H1. rewrite E in H1.
  rewrite gob_Encode_Decode_int in H1 by done. injection H1 as H1 H2.
  pose proof (gob_Encode_Decode_int a.2 [] Ha2) as H3. rewrite app_nil_r, <-H2 in H3.
  rewrite <-(app_nil_r (gob_Encode_int b.2)), gob_Encode_Decode_int in H3 by done.
  injection H3 as H3. destruct a, b. simpl in *. congruence.
Qed.

Lemma hard_saves_spec rf' reqs : hard_reqs_ok rf' reqs →
  hard_saves reqs = replicate (length (hard_saves reqs)) (encodeHardState (CurrentTerm rf') (VotedFor rf')).
Proof.
  intros Hh. symmetry. apply replicate_as_elem_of. split; [done|]. intros b Hb.
  unfold hard_saves in Hb. apply list_elem_of_omap in Hb as ([[]|] & Hin & E); simplify_eq. by apply Hh.
Qed.

Lemma StronglySorted_app_last l (x : Z * Z) k :
  StronglySorted tv_le l → (∀ y, y ∈ l → tv_le y x) → StronglySorted tv_le (l ++ replicate k x).
Proof.
  induction l as [|a l IH]; intros Hs Hx; simpl.
  - clear. induction k; constructor; [done|]. apply Forall_replicate. reflexivity.
  - inversion_clear Hs as [|? ? Hs' Hf]. constructor.
    + apply IH; [done|]. intros y Hy. apply Hx. by right.
    + apply Forall_app. split; [done|]. apply Forall_replicate. apply Hx. by left.
Qed.

Lemma node_exec_ok votes i nd p qs rf' reqs :
  node_ok votes i nd p qs → tv_le (tv (nd_rf nd)) (tv rf') → hard_reqs_ok rf' reqs → tv_fits (tv rf') →
  me rf' = me (nd_rf nd) → peers rf' = peers (nd_rf nd) →
  node_ok votes i (nd_exec rf' reqs nd) p (qs ++ replicate (length (hard_saves reqs)) (tv rf')).
Proof.
  intros Hn Hle Hh Hfit Em Ep. set (k := length (hard_saves reqs)).
  assert (∀ x, x ∈ nd_state nd :: p :: (qs ++ replicate k (tv rf')) ++ tv rf' :: nd_past nd →
    x = tv rf' ∨ x ∈ nd_state nd :: p :: qs ++ nd_past nd) as Hin.
  { intros x. rewrite !elem_of_cons, !elem_of_app, elem_of_replicate, elem_of_cons. tauto. }
  assert (∀ x, x ∈ nd_state nd :: p :: (qs ++ replicate k (tv rf')) ++ tv rf' :: nd_past nd →
    tv_le x (tv rf')) as Htop.
  { intros x [->|Hx]%Hin; [done|]. etrans; [by apply (no_below _ _ _ _ _ Hn)|done]. }
  split; cbn [nd_exec nd_rf nd_state nd_hard nd_pending nd_past].
  - destruct (no_me _ _ _ _ _ Hn) as [E1 E2]. split; congruence.
  - apply Hn.
  - rewrite fmap_app, <-(no_pending _ _ _ _ _ Hn). f_equal. rewrite fmap_replicate. by apply hard_saves_spec.
  - change (p :: qs ++ ?r) with ((p :: qs) ++ r). apply StronglySorted_app_last; [apply Hn|].
    intros y Hy. apply Htop. set_solver.
  - intros x y Hx Hy. destruct (Hin x Hx) as [->|Hx']; [right; by apply Htop|].
    destruct (Hin y Hy) as [->|Hy']; [left; by apply Htop|]. by apply (no_cmp _ _ _ _ _ Hn).
  - intros x Hx. split; [by apply Htop|]. destruct (Hin x Hx) as [->|Hx']; [|by apply (no_below _ _ _ _ _ Hn)].
    split; [|done]. destruct (no_below _ _ _ _ _ Hn p) as (H1 & H2 & _); [set_solver|].
    assert (tv_le p (tv rf')) as H3 by (by etrans). destruct H3 as [H3|[H3 _]]; lia.
  - apply Hn.
Qed.

Lemma cast_exec votes i nd rf' reqs k t c : cast votes i nd k t c → cast votes i (nd_exec rf' reqs nd) k t c.
Proof.
  unfold cast. cbn [nd_exec nd_done nd_pending]. case_bool_decide; [done|]. by apply lookup_app_l_Some.
Qed.

(** A vote in memory is on disk when the save that follows it is. *)
Lemma cast_now votes i nd rf' reqs c t :
  tv rf' = (t, Z.of_nat c) → Some (enqueuePersistHardStateLocked rf') ∈ reqs → hard_reqs_ok rf' reqs →
  cast votes i (nd_exec rf' reqs nd) (nd_need (nd_exec rf' reqs nd)) t c.
Proof.
  intros Etv Hin Hh. unfold cast, nd_need. cbn [nd_exec nd_done nd_pending].
  assert (0 < length (hard_saves reqs))%nat as Hl.
  { destruct (hard_saves reqs) eqn:E; [|simpl; lia]. exfalso.
    assert (encodeHardState (CurrentTerm rf') (VotedFor rf') ∈ hard_saves reqs) as Hx.
    { apply list_elem_of_omap. by eexists. }
    rewrite E in Hx. by apply elem_of_nil in Hx. }
  rewrite length_app, bool_decide_false by lia. rewrite lookup_app_r by lia.
  rewrite (hard_saves_spec rf' reqs) by done. rewrite length_replicate.
  injection Etv as <- <-. apply lookup_replicate_2. lia.
Qed.

(** The completion of a save records the vote. *)
Definition record_vote votes (i : nat) (q : Z * Z) : Z * nat → option Z :=
  if bool_decide (0 ≤ q.2) then <[(q.1, i) := Some q.2]> votes else votes.

Lemma record_vote_mono votes i nd p q qs k c :
  node_ok votes i nd p (q :: qs) → votes k = Some c → record_vote votes i q k = Some c.
Proof.
  intros Hn Hv. unfold record_vote. case_bool_decide as Hq; [|done].
  destruct (decide (k = (q.1, i))) as [->|Hne]; [|by rewrite fn_lookup_insert_ne].
  rewrite fn_lookup_insert. f_equal. destruct (no_votes _ _ _ _ _ Hn _ _ Hv) as [H0 Hle].
  pose proof (no_sorted _ _ _ _ _ Hn) as Hs. inversion_clear Hs as [|? ? _ Hf]. inversion_clear Hf as [|? ? Hpq _].
  assert (tv_le (q.1, c) q) as Hx by (by etrans). destruct Hx as [Hx|[_ [Hx|Hx]]]; simpl in Hx; lia.
Qed.

Lemma node_flush_ok votes i nd p q qs :
  node_ok votes i nd p (q :: qs) →
  node_ok (record_vote votes i q) i
    (mkNode (nd_rf nd) (nd_state nd) (encodeHardState q.1 q.2) ((λ q, encodeHardState q.1 q.2) <$> qs)
       (S (nd_done nd)) (nd_past nd)) q qs.
Proof.
  intros Hn. pose proof (no_sorted _ _ _ _ _ Hn) as Hs. inversion_clear Hs as [|? ? Hs' Hf].
  assert (tv_le p q) as Hpq by (by inversion_clear Hf).
  split; cbn [nd_rf nd_state nd_hard nd_pending nd_past].
  - apply Hn.
  - right. split; [done|]. apply (no_below _ _ _ _ _ Hn q). set_solver.
  - done.
  - done.
  - intros x y Hx Hy. apply (no_cmp _ _ _ _ _ Hn); set_solver.
  - intros x Hx. apply (no_below _ _ _ _ _ Hn). set_solver.
  - intros t c. unfold record_vote. case_bool_decide as Hq.
    + destruct (decide ((t, i) = (q.1, i))) as [E|Hne].
      * injection E as ->. rewrite fn_lookup_insert. intros [= <-]. split; [done|]. by destruct q.
      * rewrite fn_lookup_insert_ne by done. intros Hv. destruct (no_votes _ _ _ _ _ Hn _ _ Hv). split; [done|]. by etrans.
    + intros Hv. destruct (no_votes _ _ _ _ _ Hn _ _ Hv). split; [done|]. by etrans.
Qed.

Lemma cast_flush votes i nd p q qs k t c :
  node_ok votes i nd p (q :: qs) → tv_fits (t, Z.of_nat c) → cast votes i nd k t c →
  cast (record_vote votes i q) i
    (mkNode (nd_rf nd) (nd_state nd) (encodeHardState q.1 q.2) ((λ q, encodeHardState q.1 q.2) <$> qs)
       (S (nd_done nd)) (nd_past nd)) k t c.
Proof.
  intros Hn Hfit. unfold cast. cbn [nd_done nd_pending].
  destruct (decide (k ≤ nd_done nd)%nat) as [Hk|Hk].
  { rewrite !bool_decide_true by lia. by apply (record_vote_mono votes i nd p q qs). }
  rewrite (bool_decide_false (k ≤ nd_done nd)%nat) by done.
  rewrite (no_pending _ _ _ _ _ Hn). case_bool_decide as Hk'.
  - replace (k - nd_done nd - 1)%nat with 0%nat by lia. simpl. intros [= Eq].
    assert (q = (t, Z.of_nat c)) as ->.
    { apply encodeHardState_inj; [|done|done]. apply (no_below _ _ _ _ _ Hn). set_solver. }
    unfold record_vote. simpl. rewrite bool_decide_true by lia. by rewrite fn_lookup_insert.
  - replace (k - nd_done nd - 1)%nat with (S (k - S (nd_done nd) - 1))%nat by lia. done.
Qed.

Lemma cast_term votes i nd p qs k t c :
  node_ok votes i nd p qs → tv_fits (t, Z.of_nat c) → cast votes i nd k t c → t ≤ CurrentTerm (nd_rf nd).
Proof.
  intros Hn Hfit Hc. assert (tv_le (t, Z.of_nat c) (tv (nd_rf nd))) as Hle; [|destruct Hle as [?|[? _]]; simpl in *; lia].
  unfold cast in Hc. case_bool_decide.
  - destruct (no_votes _ _ _ _ _ Hn _ _ Hc) as [_ Hle]. etrans; [exact Hle|].
    apply (no_below _ _ _ _ _ Hn). set_solver.
  - rewrite (no_pending _ _ _ _ _ Hn) in Hc. apply list_lookup_fmap_Some in Hc as (q & E & Hq).
    apply list_elem_of_lookup_2 in Hq.
    destruct (no_below _ _ _ _ _ Hn q) as (Hle & _ & Hf); [set_solver|].
    by rewrite (encodeHardState_inj (t, Z.of_nat c) q Hfit Hf E).
Qed.

Lemma packet_mono votes votes' nodes nodes' p :
  packet_ok votes nodes p → (∀ k c, votes k = Some c → votes' k = Some c) →
  (tv_fits (rv_Term (pk_args p), Z.of_nat (pk_cand p)) →
   cast votes (pk_sender p) (nodes (pk_sender p)) (pk_need p) (rv_Term (pk_args p)) (pk_cand p) →
   cast votes' (pk_sender p) (nodes' (pk_sender p)) (pk_need p) (rv_Term (pk_args p)) (pk_cand p)) →
  packet_ok votes' nodes' p.
Proof.
  intros [Hid Hv] Hm Hc. split; [done|]. unfold pk_sender in Hc. destruct (pk_reply p) as [r|].
  - destruct Hv as [Hs Hg]. split; [by apply Hm|]. intros Hr. destruct (Hg Hr). split; [done|]. by apply Hc; [apply Hid|].
  - by apply Hc; [apply Hid|].
Qed.

Lemma packet_exec votes (nodes : nat → node) i rf' reqs p :
  packet_ok votes nodes p → packet_ok votes (<[i := nd_exec rf' reqs (nodes i)]> nodes) p.
Proof.
  intros Hp. eapply packet_mono; [exact Hp|done|]. intros _ Hc.
  destruct (decide (pk_sender p = i)) as [<-|Hne].
  - rewrite fn_lookup_insert. by apply cast_exec.
  - by rewrite fn_lookup_insert_ne.
Qed.

(** Every term for which a node has asked for votes is at most its own. *)
Lemma token_term votes counted c p :
  cl_inv votes counted c → p ∈ cl_net c →
  rv_Term (pk_args p) ≤ CurrentTerm (nd_rf (cl_node c (pk_cand p))).
Proof.
  intros Hi Hp. destruct (ci_net _ _ _ Hi p Hp) as [(H1 & H2 & _ & _ & Hfit) Hv].
  destruct (ci_node _ _ _ Hi _ H1) as (q & qs & Hn).
  destruct (pk_reply p) as [r|]; [|by eapply cast_term].
  destruct Hv as [Hv _]. eapply (cast_term _ _ _ _ _ 0); [done|done|].
  unfold cast. by rewrite bool_decide_true by lia.
Qed.
Lemma counted_term votes counted c t i v :
  cl_inv votes counted c → (i < n)%nat → v ∈ counted (t, i) → t ≤ CurrentTerm (nd_rf (cl_node c i)).
Proof.
  intros Hi Hn Hv. destruct (ci_counted _ _ _ Hi _ _ _ Hv) as (_ & _ & _ & Hs).
  destruct (ci_node _ _ _ Hi i Hn) as (p & qs & Hno).
  destruct (no_votes _ _ _ _ _ Hno _ _ Hs) as [_ Hle].
  assert (tv_le (t, Z.of_nat i) (tv (nd_rf (cl_node c i)))) as [?|[? _]]; simpl in *; [|lia..].
  etrans; [exact Hle|]. apply (no_below _ _ _ _ _ Hno). set_solver.
Qed.

Lemma note_subset i rf led x : x ∈ led → x ∈ note i rf led.
Proof. unfold note. case_bool_decide; set_solver. Qed.

(** ** One critical section of one node *)
Lemma exec_inv votes counted counted' c i rf' reqs net' :
  cl_inv votes counted c → (i < n)%nat →
  tv_le (tv (nd_rf (cl_node c i))) (tv rf') → hard_reqs_ok rf' reqs → tv_fits (tv rf') →
  me rf' = me (nd_rf (cl_node c i)) → peers rf' = peers (nd_rf (cl_node c i)) →
  (∀ t j, j ≠ i → counted' (t, j) = counted (t, j)) →
  (∀ t v, v ∈ counted' (t, i) →
     (v < n)%nat ∧ v ≠ i ∧ votes (t, v) = Some (Z.of_nat i) ∧ votes (t, i) = Some (Z.of_nat i)) →
  (state rf' = Candidate → Votes rf' = 1 + Z.of_nat (size (counted' (CurrentTerm rf', i)))) →
  (state rf' = Leader → elected votes (CurrentTerm rf') i) →
  (∀ p, p ∈ net' → packet_ok votes (<[i := nd_exec rf' reqs (cl_node c i)]> (cl_node c)) p) →
  (∀ p, p ∈ net' → pk_voter p ∉ counted' (rv_Term (pk_args p), pk_cand p)) → NoDup (token <$> net') →
  cl_inv votes counted' (mkCluster (<[i := nd_exec rf' reqs (cl_node c i)]> (cl_node c)) net'
    (note i rf' (cl_led c))).
Proof.
  intros Hi Hin Hle Hh Hfit Em Ep Hc1 Hc2 Hcand Hlead Hnet Hfr Hnd. split; cbn [cl_node cl_net cl_led]; try done.
  - intros j Hj. destruct (decide (i = j)) as [<-|Hne].
    + rewrite fn_lookup_insert. destruct (ci_node _ _ _ Hi i Hin) as (p & qs & Hn).
      exists p. eexists. by apply node_exec_ok.
    + rewrite fn_lookup_insert_ne by done. by apply (ci_node _ _ _ Hi).
  - intros j Hj. destruct (decide (i = j)) as [<-|Hne].
    + rewrite fn_lookup_insert. split; [done|]. cbn [nd_exec nd_rf]. intros Hl. unfold note.
      rewrite bool_decide_true by done. by left.
    + rewrite fn_lookup_insert_ne by done. destruct (ci_role _ _ _ Hi j Hj) as [H1 H2]. split.
      * rewrite Hc1 by done. done.
      * intros Hl. apply note_subset. by apply H2.
  - intros t j v. destruct (decide (i = j)) as [<-|Hne]; [apply Hc2|].
    rewrite Hc1 by done. apply (ci_counted _ _ _ Hi).
  - intros t j. unfold note. case_bool_decide as Hl; [|apply (ci_led _ _ _ Hi)].
    rewrite elem_of_cons. intros [[= -> ->]|Hx]; [|by apply (ci_led _ _ _ Hi)]. split; [done|by apply Hlead].
Qed.

(** A critical section that is no election. *)
Lemma calm_inv votes counted c i rf' reqs net' :
  cl_inv votes counted c → (i < n)%nat → calm (nd_rf (cl_node c i)) rf' →
  hard_reqs_ok rf' reqs → tv_fits (tv rf') →
  (∀ p, p ∈ net' → packet_ok votes (<[i := nd_exec rf' reqs (cl_node c i)]> (cl_node c)) p) →
  (∀ p, p ∈ net' → pk_voter p ∉ counted (rv_Term (pk_args p), pk_cand p)) → NoDup (token <$> net') →
  cl_inv votes counted (mkCluster (<[i := nd_exec rf' reqs (cl_node c i)]> (cl_node c)) net'
    (note i rf' (cl_led c))).
Proof.
  intros Hi Hin (Em & Ep & Htv & Hst) Hh Hfit Hnet Hfr Hnd. destruct (ci_role _ _ _ Hi i Hin) as [H1 H2].
  apply (exec_inv votes counted counted); try done.
  - intros t v. apply (ci_counted _ _ _ Hi).
  - destruct Hst as [(E1 & E2 & E3)|E1]; [|congruence]. rewrite E1, E2, E3. apply H1.
  - destruct Hst as [(E1 & E2 & E3)|E1]; [|congruence]. rewrite E1, E2. intros Hl.
    by apply (ci_led _ _ _ Hi), H2.
Qed.

(** ** The steps *)

Lemma elem_split (p p' : packet) pre post : p' ∈ pre ++ post → p' ∈ pre ++ p :: post.
Proof. set_solver. Qed.

Lemma election_inv votes counted c i now rf' args req :
  cl_inv votes counted c → (i < n)%nat →
  startElection now (nd_rf (cl_node c i)) = Some (rf', args, req) → tv_fits (tv rf') →
  cl_inv votes counted (mkCluster (<[i := nd_exec rf' [Some req] (cl_node c i)]> (cl_node c))
    (broadcast i args (nd_need (nd_exec rf' [Some req] (cl_node c i))) ++ cl_net c) (note i rf' (cl_led c))).
Proof.
  intros Hi Hin E Hfit. apply startElection_votes in E as (Em & Ep & Etv & Ev & Er & Et & Eid & Hst).
  destruct (ci_node _ _ _ Hi i Hin) as (p & qs & Hn). destruct (no_me _ _ _ _ _ Hn) as [Eme Epe].
  assert (CurrentTerm rf' = CurrentTerm (nd_rf (cl_node c i)) + 1) as ET by (by injection Etv).
  assert (hard_reqs_ok rf' [Some req]) as Hh.
  { intros b Hb. apply list_elem_of_singleton in Hb. subst req. by injection Hb. }
  assert (counted (CurrentTerm rf', i) = ∅) as Hnone.
  { apply set_eq. intros v. split; [|set_solver]. intros Hv. pose proof (counted_term _ _ _ _ _ _ Hi Hin Hv). lia. }
  assert (∀ q, q ∈ broadcast i args (nd_need (nd_exec rf' [Some req] (cl_node c i))) →
    ∃ v, (v < n)%nat ∧ v ≠ i ∧ q = mkPacket i v args None (nd_need (nd_exec rf' [Some req] (cl_node c i)))) as Hb.
  { intros q Hq. apply list_elem_of_fmap in Hq as (v & -> & Hv). apply list_elem_of_filter in Hv as [Hv Hs].
    apply elem_of_seq in Hs. exists v. split_and!; [lia|done|done]. }
  apply (exec_inv votes counted counted); try done.
  - rewrite Etv. left. simpl. lia.
  - intros t v. apply (ci_counted _ _ _ Hi).
  - intros _. rewrite Hnone, size_empty, Ev. done.
  - intros Hl. left. destruct Hst as [Hst|[_ Hst]]; [congruence|]. rewrite Epe in Hst. lia.
  - intros q [Hq|Hq]%elem_of_app; [|by apply packet_exec, (ci_net _ _ _ Hi)].
    apply Hb in Hq as (v & Hv & Hne & ->). split; cbn [pk_cand pk_voter pk_args pk_reply pk_need].
    + rewrite Eid, Eme, Et. split_and!; try done. rewrite <-ET.
      replace (Z.of_nat i) with (VotedFor rf'); [done|]. injection Etv as _ ->. done.
    + rewrite fn_lookup_insert. apply cast_now; [|set_solver|done]. by rewrite Etv, Et, Eme.
  - intros q [Hq|Hq]%elem_of_app; [|by apply (ci_fresh _ _ _ Hi)].
    apply Hb in Hq as (v & Hv & Hne & ->). cbn [pk_cand pk_voter pk_args]. rewrite Et, <-ET, Hnone. set_solver.
  - rewrite fmap_app. apply NoDup_app. split_and!; [| |apply Hi].
    + unfold broadcast. rewrite <-list_fmap_compose. apply NoDup_fmap_2_strong; [|apply NoDup_filter, NoDup_seq].
      intros x y _ _ [=]. done.
    + intros x Hx Hx'. apply list_elem_of_fmap in Hx as (q & -> & Hq). apply Hb in Hq as (v & _ & _ & ->).
      apply list_elem_of_fmap in Hx' as (q & E & Hq). unfold token in E. cbn [pk_cand pk_voter pk_args] in E.
      injection E as E1 E2 E3. pose proof (token_term _ _ _ _ Hi Hq) as Hle. rewrite <-E2 in Hle. lia.
Qed.

Lemma request_inv votes counted c pre post p now rf' reply reqs :
  cl_inv votes counted c → cl_net c = pre ++ p :: post → pk_reply p = None → delivered c p →
  RequestVote now (pk_args p) (nd_rf (cl_node c (pk_voter p))) = Some (rf', reply, reqs) → tv_fits (tv rf') →
  cl_inv votes counted (mkCluster
    (<[pk_voter p := nd_exec rf' (Some <$> reqs) (cl_node c (pk_voter p))]> (cl_node c))
    (mkPacket (pk_cand p) (pk_voter p) (pk_args p) (Some reply)
       (if bool_decide (reqs = []) then 0
        else nd_need (nd_exec rf' (Some <$> reqs) (cl_node c (pk_voter p)))) :: pre ++ post)
    (note (pk_voter p) rf' (cl_led c))).
Proof.
  intros Hi Enet Er Hd E Hfit.
  assert (p ∈ cl_net c) as Hp by (rewrite Enet; set_solver).
  destruct (ci_net _ _ _ Hi p Hp) as [Hids Hv]. destruct Hids as (H1 & H2 & Hne & Eid & Hf) eqn:Eh. clear Eh.
  rewrite Er in Hv. unfold delivered, pk_sender in Hd. rewrite Er in Hd.
  unfold cast in Hv. rewrite bool_decide_true in Hv by done.
  apply RequestVote_votes in E as (Hc & Hh & Hg); [|rewrite Eid; lia].
  pose proof (ci_nodup _ _ _ Hi) as Hnd. rewrite Enet, fmap_app, fmap_cons in Hnd.
  apply calm_inv; try done.
  - intros q [->|Hq]%elem_of_cons.
    + split; cbn [pk_cand pk_voter pk_args pk_reply pk_need]; [done|]. split; [done|]. intros Hr.
      destruct (Hg Hr) as (Etv & Et & ->). split; [done|]. rewrite fn_lookup_insert.
      rewrite bool_decide_false by done. apply cast_now; [by rewrite Etv, Eid|simpl; set_solver|done].
    + apply packet_exec, (ci_net _ _ _ Hi). rewrite Enet. by apply elem_split.
  - intros q [->|Hq]%elem_of_cons; [by apply (ci_fresh _ _ _ Hi p)|].
    apply (ci_fresh _ _ _ Hi). rewrite Enet. by apply elem_split.
  - rewrite fmap_cons, fmap_app. unfold token at 1. cbn [pk_cand pk_voter pk_args]. fold (token p).
    by rewrite Permutation_middle.
Qed.

Lemma response_inv votes counted c pre post p now reply rf' reqs :
  cl_inv votes counted c → cl_net c = pre ++ p :: post → pk_reply p = Some reply → delivered c p →
  handleVoteResponse now reply (nd_rf (cl_node c (pk_cand p))) = Some (rf', reqs) → tv_fits (tv rf') →
  ∃ counted', cl_inv votes counted' (mkCluster
    (<[pk_cand p := nd_exec rf' (Some <$> reqs) (cl_node c (pk_cand p))]> (cl_node c))
    (pre ++ post) (note (pk_cand p) rf' (cl_led c))).
Proof.
  intros Hi Enet Er Hd E Hfit.
  assert (p ∈ cl_net c) as Hp by (rewrite Enet; set_solver).
  assert (∀ q, q ∈ pre ++ post → q ∈ cl_net c) as Hsub by (intros q Hq; rewrite Enet; by apply elem_split).
  destruct (ci_net _ _ _ Hi p Hp) as [(H1 & H2 & Hne & Eid & Hf) Hv].
  rewrite Er in Hv. destruct Hv as [Hself Hg]. unfold delivered, pk_sender in Hd. rewrite Er in Hd.
  pose proof (ci_nodup _ _ _ Hi) as Hnd. rewrite Enet, fmap_app, fmap_cons in Hnd.
  rewrite <-Permutation_middle in Hnd. apply NoDup_cons in Hnd as [Htok Hnd]. rewrite <-fmap_app in Htok, Hnd.
  set (i := pk_cand p) in *.
  apply handleVoteResponse_votes in E as [(Hc & Hh & _)|(Hst & Et & Hgr & -> & Em & Ep & Etv & Ev & Hst')].
  { exists counted. apply calm_inv; try done.
    - intros q Hq. by apply packet_exec, (ci_net _ _ _ Hi), Hsub.
    - intros q Hq. by apply (ci_fresh _ _ _ Hi), Hsub. }
  destruct (Hg Hgr) as [Ert Hcast]. unfold cast in Hcast. rewrite bool_decide_true in Hcast by done.
  assert (CurrentTerm rf' = rv_Term (pk_args p)) as ET by (injection Etv as -> _; congruence).
  assert (CurrentTerm (nd_rf (cl_node c i)) = rv_Term (pk_args p)) as ET0 by congruence.
  set (t := rv_Term (pk_args p)) in *. set (Q := {[pk_voter p]} ∪ counted (t, i)).
  assert (size Q = S (size (counted (t, i)))) as HQ.
  { unfold Q. rewrite size_union by (pose proof (ci_fresh _ _ _ Hi p Hp); set_solver). by rewrite size_singleton. }
  destruct (ci_role _ _ _ Hi i H1) as [Hcnt _]. specialize (Hcnt Hst). rewrite ET0 in Hcnt.
  assert (∀ t' v, v ∈ (<[(t, i) := Q]> counted) (t', i) →
    (v < n)%nat ∧ v ≠ i ∧ votes (t', v) = Some (Z.of_nat i) ∧ votes (t', i) = Some (Z.of_nat i)) as Hcs.
  { intros t' v. destruct (decide ((t', i) = (t, i))) as [[= ->]|Hn].
    - rewrite fn_lookup_insert. unfold Q. rewrite elem_of_union, elem_of_singleton. intros [->|Hv].
      + split_and!; done.
      + by apply (ci_counted _ _ _ Hi).
    - rewrite fn_lookup_insert_ne by done. apply (ci_counted _ _ _ Hi). }
  exists (<[(t, i) := Q]> counted). apply (exec_inv votes counted); try done.
  - by rewrite Etv.
  - apply no_hard_reqs.
  - intros t' j Hj. rewrite fn_lookup_insert_ne; [done|]. congruence.
  - intros _. rewrite ET, fn_lookup_insert, HQ, Ev, Hcnt. lia.
  - intros Hl. destruct Hst' as [Hst'|[_ Hmaj]]; [congruence|]. right. exists ({[i]} ∪ Q).
    destruct (ci_node _ _ _ Hi i H1) as (q & qs & Hno). destruct (no_me _ _ _ _ _ Hno) as [_ Epe].
    assert (∀ v, v ∈ Q → v ≠ i) as HQi.
    { intros v Hv. apply (Hcs t). by rewrite fn_lookup_insert. }
    rewrite size_union by (intros v Hv1 Hv2; apply (HQi v Hv2); set_solver).
    rewrite size_singleton, HQ. rewrite Epe, Hcnt in Hmaj. split; [lia|].
    intros v. rewrite elem_of_union, elem_of_singleton, ET. intros [->|Hv]; [done|].
    destruct (Hcs t v) as (? & _ & ? & _); [by rewrite fn_lookup_insert|]. done.
  - intros q Hq. by apply packet_exec, (ci_net _ _ _ Hi), Hsub.
  - intros q Hq. pose proof (ci_fresh _ _ _ Hi q (Hsub q Hq)) as Hfr.
    destruct (decide ((rv_Term (pk_args q), pk_cand q) = (t, i))) as [Eq|Hn]; [|by rewrite fn_lookup_insert_ne by done].
    rewrite Eq in *. rewrite fn_lookup_insert. unfold Q. rewrite not_elem_of_union, not_elem_of_singleton.
    split; [|done]. intros Ev'. apply Htok. apply list_elem_of_fmap. exists q. split; [|done].
    unfold token. fold t i. injection Eq as -> ->. by rewrite Ev'.
Qed.

Lemma flush_inv votes counted c i b rest :
  cl_inv votes counted c → (i < n)%nat → nd_pending (cl_node c i) = b :: rest →
  ∃ votes', cl_inv votes' counted (mkCluster
    (<[i := mkNode (nd_rf (cl_node c i)) (nd_state (cl_node c i)) b rest
              (S (nd_done (cl_node c i))) (nd_past (cl_node c i))]> (cl_node c)) (cl_net c) (cl_led c)).
Proof.
  intros Hi Hin Epend. destruct (ci_node _ _ _ Hi i Hin) as (p & qs & Hn).
  pose proof (no_pending _ _ _ _ _ Hn) as Eq. rewrite Epend in Eq.
  destruct qs as [|q qs]; [done|]. injection Eq as -> ->. exists (record_vote votes i q).
  assert (∀ k a, votes k = Some a → record_vote votes i q k = Some a) as Hmono
    by (intros k a; by apply (record_vote_mono votes i (cl_node c i) p q qs)).
  split; cbn [cl_node cl_net cl_led]; try apply Hi.
  - intros j Hj. destruct (decide (i = j)) as [<-|Hne].
    + rewrite fn_lookup_insert. eexists _, _. by apply (node_flush_ok votes i _ p).
    + rewrite fn_lookup_insert_ne by done. destruct (ci_node _ _ _ Hi j Hj) as (p' & qs' & Hn'). exists p', qs'.
      destruct Hn' as [Hm ? ? ? ? ? Hv]. split; try done. intros t a Ha. apply Hv. revert Ha. unfold record_vote.
      case_bool_decide; [|done]. rewrite fn_lookup_insert_ne; [done|]. congruence.
  - intros j Hj. destruct (decide (i = j)) as [<-|Hne].
    + rewrite fn_lookup_insert. by apply (ci_role _ _ _ Hi).
    + rewrite fn_lookup_insert_ne by done. by apply (ci_role _ _ _ Hi).
  - intros k Hk. eapply packet_mono; [by apply (ci_net _ _ _ Hi)|done|]. intros Hfit Hc.
    destruct (decide (pk_sender k = i)) as [E|Hne].
    + rewrite E in *. rewrite fn_lookup_insert. exact (cast_flush votes i _ p q qs _ _ _ Hn Hfit Hc).
    + rewrite fn_lookup_insert_ne by done. unfold cast in *. case_bool_decide; [by apply Hmono|done].
  - intros t j v Hv. destruct (ci_counted _ _ _ Hi t j v Hv) as (? & ? & ? & ?). split_and!; auto.
  - intros t j Hj. destruct (ci_led _ _ _ Hi t j Hj) as [? [?|(Q & HQ & Hall)]]; (split; [done|]); [by left|].
    right. exists Q. split; [done|]. intros v Hv. destruct (Hall v Hv). auto.
Qed.

(** Replacing a node by one with the same role state, or by a restarted one. *)
Lemma replace_inv votes counted c i nd' net' :
  cl_inv votes counted c → (i < n)%nat → (∃ p qs, node_ok votes i nd' p qs) →
  (nd_rf nd' = nd_rf (cl_node c i) ∨ state (nd_rf nd') = Follower) →
  net' `sublist_of` cl_net c → (∀ p, p ∈ net' → packet_ok votes (<[i := nd']> (cl_node c)) p) →
  cl_inv votes counted (mkCluster (<[i := nd']> (cl_node c)) net' (cl_led c)).
Proof.
  intros Hi Hin Hn Hrf Hsub Hp. split; cbn [cl_node cl_net cl_led]; try apply Hi; try done.
  - intros j Hj. destruct (decide (i = j)) as [<-|Hne]; [by rewrite fn_lookup_insert|].
    rewrite fn_lookup_insert_ne by done. by apply (ci_node _ _ _ Hi).
  - intros j Hj. destruct (decide (i = j)) as [<-|Hne].
    + rewrite fn_lookup_insert. destruct Hrf as [->|E]; [by apply (ci_role _ _ _ Hi)|]. split; congruence.
    + rewrite fn_lookup_insert_ne by done. by apply (ci_role _ _ _ Hi).
  - intros p Hin'. apply (ci_fresh _ _ _ Hi). by eapply elem_of_sublist.
  - eapply sublist_NoDup; [apply (ci_nodup _ _ _ Hi)|]. by apply fmap_sublist.
Qed.

Lemma crash_inv votes counted c i timeout now ratio d :
  cl_inv votes counted c → (i < n)%nat →
  tv (Make (Cmd := Cmd) n (Z.of_nat i) timeout now ratio d []) = nd_state (cl_node c i) →
  let rf' := Make n (Z.of_nat i) timeout now ratio d (nd_hard (cl_node c i)) in
  cl_inv votes counted (mkCluster
    (<[i := mkNode rf' (nd_state (cl_node c i)) (nd_hard (cl_node c i)) []
              (nd_done (cl_node c i)) [tv rf']]> (cl_node c))
    (filter (λ p, pk_sender p = i → (pk_need p ≤ nd_done (cl_node c i))%nat) (cl_net c)) (cl_led c)).
Proof.
  intros Hi Hin Es rf'. destruct (ci_node _ _ _ Hi i Hin) as (p & qs & Hn).
  set (s := nd_state (cl_node c i)) in *.
  destruct (no_below _ _ _ _ _ Hn s) as (_ & Hs0 & Hsf); [set_solver|].
  destruct (no_below _ _ _ _ _ Hn p) as (_ & Hp0 & Hpf); [set_solver|].
  assert (cmp s p) as Hcmp by (apply (no_cmp _ _ _ _ _ Hn); set_solver).
  destruct (Make_tv (Cmd := Cmd) n (Z.of_nat i) timeout now ratio d (nd_hard (cl_node c i)) s p (no_hard _ _ _ _ _ Hn) Hs0 Es)
    as (Etv & Est & Eme & Epe). fold rf' in Etv, Est, Eme, Epe.
  assert (tv_le s (tv rf') ∧ tv_le p (tv rf') ∧ (tv rf' = s ∨ tv rf' = p)) as (Hs & Hp & Hor).
  { rewrite Etv. destruct Hcmp as [Hle|Hle].
    - rewrite (recover_hard s s p) by done. split_and!; [done|reflexivity|by right].
    - rewrite (recover_state p s) by done. split_and!; [reflexivity|done|by left]. }
  clearbody rf'. apply replace_inv; try done.
  - exists p, []. split; cbn [nd_rf nd_state nd_hard nd_pending nd_past]; try done; try apply Hn.
    + repeat constructor.
    + intros x y Hx Hy. assert (∀ z, z ∈ s :: p :: [] ++ [tv rf'] → z = s ∨ z = p) as Hz.
      { intros z. simpl. rewrite !elem_of_cons, elem_of_nil. naive_solver. }
      destruct (Hz x Hx) as [->| ->], (Hz y Hy) as [->| ->];
        first [by left|by destruct Hcmp; [right|left]|done].
    + intros x. simpl. rewrite !elem_of_cons, elem_of_nil. intros [->|[->|[->|[]]]]; [done..|].
      split; [reflexivity|]. by destruct Hor as [->| ->].
  - by right.
  - apply sublist_filter.
  - intros q [Hq Hin']%list_elem_of_filter. eapply packet_mono; [by apply (ci_net _ _ _ Hi)|done|]. intros _ Hc.
    destruct (decide (i = pk_sender q)) as [E|Hne]; [|by rewrite fn_lookup_insert_ne].
    rewrite <-E in *. rewrite fn_lookup_insert. unfold cast in *. cbn [nd_done].
    rewrite bool_decide_true in * by auto. done.
Qed.

Lemma step_inv votes counted c c' :
  cl_inv votes counted c → cl_step c c' → ∃ votes' counted', cl_inv votes' counted' c'.
Proof.
  intros Hi Hs. destruct Hs as [i now rf' args req|pre post p now rf' reply reqs|pre post p now reply rf' reqs
    |pre post p Enet|i ev rf' reqs Hin Hev E Hfit|i b rest Hin Hb|i x Hin Hx|i timeout now ratio d Hin E].
  - exists votes, counted. by eapply election_inv.
  - exists votes, counted. by eapply request_inv.
  - exists votes. by eapply response_inv.
  - exists votes, counted. split; cbn [cl_node cl_net cl_led]; try apply Hi.
    + intros q Hq. apply (ci_net _ _ _ Hi). rewrite Enet. by apply elem_split.
    + intros q Hq. apply (ci_fresh _ _ _ Hi). rewrite Enet. by apply elem_split.
    + pose proof (ci_nodup _ _ _ Hi) as Hnd. rewrite Enet, fmap_app, fmap_cons, <-Permutation_middle in Hnd.
      apply NoDup_cons in Hnd as [_ Hnd]. by rewrite fmap_app.
  - exists votes, counted. destruct (other_calm ev _ rf' reqs E Hev) as [Hc Hh].
    apply calm_inv; try done; try apply Hi. intros q Hq. by apply packet_exec, (ci_net _ _ _ Hi).
  - destruct (flush_inv votes counted c i b rest Hi Hin Hb) as [votes' H']. by exists votes', counted.
  - exists votes, counted. apply replace_inv; try done; [|by left|].
    + destruct (ci_node _ _ _ Hi i Hin) as (p & qs & []). exists p, qs.
      split; cbn [nd_rf nd_state nd_hard nd_pending nd_past]; try done; intros; [apply no_cmp0|apply no_below0]; set_solver.
    + intros q Hq. eapply packet_mono; [by apply (ci_net _ _ _ Hi)|done|]. intros _ Hc.
      destruct (decide (pk_sender q = i)) as [E|Hne]; [|by rewrite fn_lookup_insert_ne].
      rewrite E in *. by rewrite fn_lookup_insert.
  - exists votes, counted. by apply crash_inv.
Qed.

Lemma init_inv timeout now ratio : cl_inv (λ _, None) (λ _, ∅) (cl_init timeout now ratio).
Proof.
  split; cbn [cl_init cl_node cl_net cl_led]; try set_solver; [| |constructor].
  - intros i Hi. exists (0, -1), []. unfold nd_init.
    assert (∀ x : Z * Z, x ∈ (0, -1) :: (0, -1) :: [] ++ [(0, -1)] → x = (0, -1)) as Hx by set_solver.
    split; cbn [nd_rf nd_state nd_hard nd_pending nd_past]; try done.
    + by left.
    + repeat constructor.
    + intros x y ->%Hx ->%Hx. left. reflexivity.
    + intros x ->%Hx. split; [reflexivity|]. split; [done|]. by unfold tv_fits, isS64.
  - intros i Hi. by split.
Qed.

Lemma reach_inv c : cl_reach c → ∃ votes counted, cl_inv votes counted c.
Proof.
  intros (timeout & now & ratio & Hr).
  assert (∃ votes counted, cl_inv votes counted (cl_init timeout now ratio)) as Hi
    by (eexists _, _; apply init_inv).
  induction Hr as [c|c c1 c2 Hs _ IH]; [done|]. apply IH. destruct Hi as (votes & counted & Hi). by eapply step_inv.
Qed.

(** Two majorities of the nodes share a member. *)
Lemma majorities_meet (P Q : gset nat) :
  (∀ v, v ∈ P → (v < n)%nat) → (∀ v, v ∈ Q → (v < n)%nat) →
  (n < 2 * size P)%nat → (n < 2 * size Q)%nat → ∃ v, v ∈ P ∧ v ∈ Q.
Proof.
  intros HP HQ Hp Hq. destruct (decide (P ∩ Q = ∅)) as [E|Hne].
  - exfalso. assert (size (P ∪ Q) ≤ size (set_seq 0 n : gset nat))%nat as Hle.
    { apply subseteq_size. intros v. rewrite elem_of_union, elem_of_set_seq. intros [Hv|Hv]; [apply HP in Hv|apply HQ in Hv]; lia. }
    rewrite size_union in Hle by set_solver. rewrite size_set_seq in Hle. lia.
  - apply set_choose_L in Hne as [v Hv]. exists v. set_solver.
Qed.

(** C1: election safety.  In a cluster in which vote messages are delayed,
    reordered and lost, saves complete late, and nodes crash and restart from
    their files, no two nodes ever lead in the same term, neither at the same
    time nor at different times; and every node that leads is in the history. *)
Theorem election_safety c : cl_reach c →
  (∀ t i j, (t, i) ∈ cl_led c → (t, j) ∈ cl_led c → i = j) ∧
  (∀ i, (i < n)%nat → state (nd_rf (cl_node c i)) = Leader →
     (CurrentTerm (nd_rf (cl_node c i)), i) ∈ cl_led c).
Proof.
  intros (votes & counted & Hi)%reach_inv. split; [|intros i Hin; apply (ci_role _ _ _ Hi i Hin)].
  intros t i j H1 H2. destruct (ci_led _ _ _ Hi t i H1) as [Hi1 E1], (ci_led _ _ _ Hi t j H2) as [Hi2 E2].
  destruct E1 as [?|(P & HP & HPv)]; [lia|]. destruct E2 as [?|(Q & HQ & HQv)]; [lia|].
  destruct (majorities_meet P Q) as (v & Hv1 & Hv2); try done; [by apply HPv|by apply HQv|].
  destruct (HPv v Hv1) as [_ E1], (HQv v Hv2) as [_ E2]. rewrite E1 in E2. injection E2 as E2. lia.
Qed.

End cluster.

(** ** A run of three nodes

    Node 0 asks for votes, its save completes, node 1 votes, its save
    completes, and the reply makes node 0 the leader of term 1. *)
Lemma run_elects :
  ∃ c : cluster (Cmd := Z), cl_reach 3 c ∧ (1, 0%nat) ∈ cl_led c ∧
    state (nd_rf (cl_node c 0)) = Leader.
Proof.
  eexists. split.
  - exists (λ _, 300), 0, 0. eapply rtc_l.
    { apply (CElection 3 _ 0 400); [lia|vm_compute; reflexivity|by unfold tv_fits, isS64]. }
    eapply rtc_l.
    { apply (CFlush 3 _ 0); [lia|vm_compute; reflexivity]. }
    eapply rtc_l.
    { eapply (CRequest 3 _ [] _ _ 401); [vm_compute; reflexivity|reflexivity|vm_compute; lia
        |vm_compute; reflexivity|by unfold tv_fits, isS64]. }
    eapply rtc_l.
    { apply (CFlush 3 _ 1); [lia|vm_compute; reflexivity]. }
    eapply rtc_l.
    { eapply (CResponse 3 _ [] _ _ 402); [vm_compute; reflexivity|reflexivity|vm_compute; lia
        |vm_compute; reflexivity|by unfold tv_fits, isS64]. }
    apply rtc_refl.
  - split; [vm_compute; left|vm_compute; reflexivity].
Qed.

Lemma election_safety_witness :
  ∃ c : cluster (Cmd := Z), cl_reach 3 c ∧ (1, 0%nat) ∈ cl_led c ∧ (∀ j, (1, j) ∈ cl_led c → j = 0%nat).
Proof.
  destruct run_elects as (c & Hr & Hl & _). exists c. split; [exact Hr|]. split; [exact Hl|].
  intros j Hj. exact (proj1 (election_safety 3 c Hr) 1 j 0%nat Hj Hl).
Defined.
