(* ===== verification/RaftPeers.v ===== *)
(** * RaftPeers: the connections between raft servers (src/pkg/raft/raft.go)

    [callPeer] keeps one [net/rpc] client per peer address in a map that all
    goroutines share; [rpcMu] is held for the lookup, for storing a client that
    was just dialled, and for dropping one whose call failed, but not while
    dialling or calling.  A call is therefore a sequence of steps between which
    other calls run; the state keeps every connection ever dialled with the
    number of times it was closed.  [rpc.Dial] and [Client.Call] are outcomes of
    the environment. *)
From stdpp Require Import prelude gmap strings.
From S2P Require Import Prelude Json Pb.
From stdpp Require Import options.

(** ** The calls *)

Record conn := { cn_address : string; cn_closes : nat }.

Inductive call :=
  | Dialing (address : string)                  (* no client was cached *)
  | Dialed (address : string) (client : nat)    (* dialled, not stored yet *)
  | Calling (address : string) (client : nat)   (* in [client.Call] *)
  | Failed (address : string) (client : nat)    (* the call returned an error *)
  | Returned (ok : bool).

Record net := {
  n_conns : list conn;              (* every client ever dialled *)
  rpcClients : gmap string nat;     (* address to client *)
  n_calls : gmap nat call;          (* by goroutine *)
}.
Definition net_start : net := {| n_conns := []; rpcClients := ∅; n_calls := ∅ |}.

Definition with_call (w : net) (t : nat) (c : call) : net :=
  {| n_conns := n_conns w; rpcClients := rpcClients w; n_calls := <[t := c]> (n_calls w) |}.
(** [_ = client.Close()] *)
Definition add_close (x : conn) : conn := {| cn_address := cn_address x; cn_closes := S (cn_closes x) |}.
Definition close_conn (w : net) (c : nat) : net :=
  {| n_conns := alter add_close c (n_conns w);
     rpcClients := rpcClients w; n_calls := n_calls w |}.
Definition with_clients (w : net) (m : gmap string nat) : net :=
  {| n_conns := n_conns w; rpcClients := m; n_calls := n_calls w |}.

Section callPeer.
Context (me : Z) (peers : list string).

(** Up to the lookup under [rpcMu]. *)
Definition callPeer_lookup (t : nat) (server : Z) (w : net) : net :=
  if bool_decide (server = me) then with_call w t (Returned false)
  else if bool_decide (server < 0)%Z then with_call w t (Returned false)
  else match peers !! Z.to_nat server with
       | None => with_call w t (Returned false)
       | Some address =>
           match rpcClients w !! address with
           | Some client => with_call w t (Calling address client)
           | None => with_call w t (Dialing address)
           end
       end.
(** [rpc.Dial] returns. *)
Definition callPeer_dial (t : nat) (address : string) (dialled : bool) (w : net) : net :=
  if dialled then
    with_call {| n_conns := n_conns w ++ [{| cn_address := address; cn_closes := 0 |}];
                 rpcClients := rpcClients w; n_calls := n_calls w |} t (Dialed address (length (n_conns w)))
  else with_call w t (Returned false).
(** The client is stored, unless another goroutine has stored one meanwhile. *)
Definition callPeer_store (t : nat) (address : string) (newClient : nat) (w : net) : net :=
  match rpcClients w !! address with
  | Some existing => with_call (close_conn w newClient) t (Calling address existing)
  | None => with_call (with_clients w (<[address := newClient]> (rpcClients w))) t (Calling address newClient)
  end.
(** [client.Call] returns. *)
Definition callPeer_call (t : nat) (address : string) (client : nat) (ok : bool) (w : net) : net :=
  with_call w t (if ok then Returned true else Failed address client).
(** A client whose call failed is dropped, if it is still the cached one. *)
Definition callPeer_drop (t : nat) (address : string) (client : nat) (w : net) : net :=
  if bool_decide (rpcClients w !! address = Some client)
  then with_call (close_conn (with_clients w (delete address (rpcClients w))) client) t (Returned false)
  else with_call w t (Returned false).

(** One step of goroutine [t]: it starts a call or goes on with one. *)
Inductive event :=
  | Start_call (t : nat) (server : Z)
  | Goes_on (t : nat) (outcome : bool).

Definition step (ev : event) (w : net) : option net :=
  match ev with
  | Start_call t server =>
      match n_calls w !! t with
      | None | Some (Returned _) => Some (callPeer_lookup t server w)
      | _ => None
      end
  | Goes_on t o =>
      match n_calls w !! t with
      | Some (Dialing a) => Some (callPeer_dial t a o w)
      | Some (Dialed a c) => Some (callPeer_store t a c w)
      | Some (Calling a c) => Some (callPeer_call t a c o w)
      | Some (Failed a c) => Some (callPeer_drop t a c w)
      | _ => None
      end
  end.
Fixpoint run (evs : list event) (w : net) : option net :=
  match evs with [] => Some w | ev :: evs => w ← step ev w; run evs w end.
End callPeer.

(** ** The invariant *)

(** The clients a call still answers for. *)
Definition holds (c : call) : option (string * nat) :=
  match c with Dialed a k => Some (a, k) | _ => None end.
Definition refers (c : call) : option (string * nat) :=
  match c with Dialed a k | Calling a k | Failed a k => Some (a, k) | _ => None end.

Record net_ok (peers : list string) (w : net) : Prop := {
  ok_once : ∀ k x, n_conns w !! k = Some x → (cn_closes x ≤ 1)%nat ∧ cn_address x ∈ peers;
  ok_cached : ∀ a k, rpcClients w !! a = Some k → n_conns w !! k = Some {| cn_address := a; cn_closes := 0 |};
  ok_open : ∀ k a, n_conns w !! k = Some {| cn_address := a; cn_closes := 0 |} →
    rpcClients w !! a = Some k ∨ ∃ t, n_calls w !! t = Some (Dialed a k);
  ok_dialed : ∀ t a k, n_calls w !! t = Some (Dialed a k) →
    n_conns w !! k = Some {| cn_address := a; cn_closes := 0 |} ∧ rpcClients w !! a ≠ Some k ∧
    ∀ t' a' , t' ≠ t → ∀ c, n_calls w !! t' = Some c → refers c ≠ Some (a', k);
  ok_refers : ∀ t c a k, n_calls w !! t = Some c → refers c = Some (a, k) → ∃ x, n_conns w !! k = Some x ∧ cn_address x = a;
  ok_dialing : ∀ t a, n_calls w !! t = Some (Dialing a) → a ∈ peers }.

Section invariant.
Context (me : Z) (peers : list string).
Implicit Types (w : net) (t k : nat) (a : string).

Lemma dialed_not_cached w t a k a' : net_ok peers w → n_calls w !! t = Some (Dialed a k) → rpcClients w !! a' ≠ Some k.
Proof.
  intros H Ht Hc. destruct (ok_dialed _ _ H _ _ _ Ht) as (Hk & Hn & _). rewrite (ok_cached _ _ H _ _ Hc) in Hk. by injection Hk as ->.
Qed.

(** A goroutine that holds no connection moves on to a state in which it holds none. *)
Lemma with_call_ok w t c : net_ok peers w → (∀ a k, n_calls w !! t ≠ Some (Dialed a k)) →
  (∀ a k, c ≠ Dialed a k) → (∀ a, c = Dialing a → a ∈ peers) →
  (∀ a k, refers c = Some (a, k) → (∃ x, n_conns w !! k = Some x ∧ cn_address x = a) ∧ ∀ t' a', n_calls w !! t' ≠ Some (Dialed a' k)) →
  net_ok peers (with_call w t c).
Proof.
  intros H Hold Hc Hd Hr. split; cbn [with_call n_conns rpcClients n_calls].
  - apply (ok_once _ _ H).
  - apply (ok_cached _ _ H).
  - intros k a [?|[t' Ht']]%(ok_open _ _ H); [by left|right]. exists t'. rewrite lookup_insert_ne; [done|]. intros <-. by eapply Hold.
  - intros t' a k [[_ ?]|[Hne Ht']]%lookup_insert_Some; [by destruct (Hc a k)|].
    destruct (ok_dialed _ _ H _ _ _ Ht') as (H1 & H2 & H3). split_and!; [done|done|].
    intros t2 a2 Hne2 c2 [[<- <-]|[Hne3 Hc2]]%lookup_insert_Some; [|by eapply H3].
    intros Hrc. destruct (Hr _ _ Hrc) as [_ Hno]. by eapply Hno.
  - intros t' c' a k [[<- <-]|[_ Ht']]%lookup_insert_Some Hrc; [by apply Hr|by eapply ok_refers].
  - intros t' a [[_ E]|[_ Ht']]%lookup_insert_Some; [by apply Hd|by eapply ok_dialing].
Qed.

Lemma refers_not_dialed w t c a k : net_ok peers w → n_calls w !! t = Some c → refers c = Some (a, k) → (∀ a k, c ≠ Dialed a k) →
  ∀ t' a', n_calls w !! t' ≠ Some (Dialed a' k).
Proof.
  intros H Ht Hr Hnd t' a' Ht'. destruct (decide (t' = t)) as [->|Hne]; [rewrite Ht in Ht'; injection Ht' as ->; by eapply Hnd|].
  destruct (ok_dialed _ _ H _ _ _ Ht') as (_ & _ & H3). by eapply (H3 t a).
Qed.

Lemma lookup_ok w t server : net_ok peers w → (∀ a k, n_calls w !! t ≠ Some (Dialed a k)) →
  net_ok peers (callPeer_lookup me peers t server w).
Proof.
  intros H Hold. unfold callPeer_lookup. repeat case_bool_decide; [by apply with_call_ok..|].
  destruct (peers !! Z.to_nat server) as [a|] eqn:Ea; [|by apply with_call_ok].
  destruct (rpcClients w !! a) as [k|] eqn:Ek; apply with_call_ok; try done.
  - intros a' k' [= <- <-]. split; [eexists; split; [by eapply ok_cached|done]|]. intros t' a' Ht'. by eapply dialed_not_cached.
  - intros a' [= <-]. by eapply list_elem_of_lookup_2.
Qed.

Lemma dial_ok w t a o : net_ok peers w → n_calls w !! t = Some (Dialing a) → net_ok peers (callPeer_dial t a o w).
Proof.
  intros H Ht. unfold callPeer_dial. destruct o; [|apply with_call_ok; try done; congruence].
  assert (∀ k x, n_conns w !! k = Some x → (n_conns w ++ [{| cn_address := a; cn_closes := 0 |}]) !! k = Some x) as Hk.
  { intros k x Hx. by apply lookup_app_l_Some. }
  assert (∀ k x, n_conns w !! k = Some x → k ≠ length (n_conns w)) as Hlt by (by intros k x ?%lookup_lt_Some; lia).
  split; cbn [with_call n_conns rpcClients n_calls].
  - intros k x [Hx|[_ [_ <-]%list_lookup_singleton_Some]]%lookup_app_Some; [by eapply ok_once|]. split; [cbn; lia|]. by eapply ok_dialing.
  - intros a' k Hc. apply Hk. by eapply ok_cached.
  - intros k a' [Hx|[Hle [E Hx]%list_lookup_singleton_Some]]%lookup_app_Some.
    + destruct (ok_open _ _ H _ _ Hx) as [?|[t' Ht']]; [by left|right]. exists t'. rewrite lookup_insert_ne; [done|congruence].
    + right. exists t. injection Hx as <-. rewrite lookup_insert_eq. do 2 f_equal. lia.
  - intros t' a' k [[<- [= <- <-]]|[Hne Ht']]%lookup_insert_Some.
    + split_and!.
      * by rewrite lookup_app_r, Nat.sub_diag by lia.
      * intros Hc%(ok_cached _ _ H)%Hlt. done.
      * intros t2 a2 Hne c [[? _]|[_ Hc]]%lookup_insert_Some Hr; [congruence|]. destruct (ok_refers _ _ H _ _ _ _ Hc Hr) as (x & Hx%Hlt & _). done.
    + destruct (ok_dialed _ _ H _ _ _ Ht') as (H1 & H2 & H3). split_and!; [by apply Hk|done|].
      intros t2 a2 Hne2 c [[<- <-]|[_ Hc]]%lookup_insert_Some; [|by eapply H3]. cbn. intros [= _ E]. by apply Hlt in H1.
  - intros t' c a' k [[<- <-]|[_ Ht']]%lookup_insert_Some Hr.
    + injection Hr as <- <-. eexists. split; [by rewrite lookup_app_r, Nat.sub_diag by lia|done].
    + destruct (ok_refers _ _ H _ _ _ _ Ht' Hr) as (x & Hx & E). eauto.
  - intros t' a' [[_ ?]|[_ Ht']]%lookup_insert_Some; [done|by eapply ok_dialing].
Qed.

Lemma lookup_close (l : list conn) c k x : alter add_close c l !! k = Some x →
  (k ≠ c ∧ l !! k = Some x) ∨ (k = c ∧ ∃ y, l !! c = Some y ∧ x = add_close y).
Proof.
  destruct (decide (k = c)) as [->|Hne].
  - rewrite list_lookup_alter_eq. intros (y & Hy & ->)%fmap_Some. right. eauto.
  - rewrite list_lookup_alter_ne by done. by left.
Qed.
Lemma close_keeps (l : list conn) c k x : k ≠ c → l !! k = Some x → alter add_close c l !! k = Some x.
Proof. intros. by rewrite list_lookup_alter_ne. Qed.
Lemma close_address (l : list conn) c k x : l !! k = Some x →
  ∃ y, alter add_close c l !! k = Some y ∧ cn_address y = cn_address x.
Proof.
  intros Hx. destruct (decide (k = c)) as [->|Hne]; [|rewrite list_lookup_alter_ne by done; eauto].
  rewrite list_lookup_alter_eq, Hx. by eexists.
Qed.

(** A connection that nobody else answers for is closed and its goroutine moves on. *)
Lemma close_ok w m t c a k : net_ok peers w → n_conns w !! k = Some {| cn_address := a; cn_closes := 0 |} →
  (∀ a' k', m !! a' = Some k' ↔ rpcClients w !! a' = Some k' ∧ k' ≠ k) →
  (∀ t' a', t' ≠ t → n_calls w !! t' ≠ Some (Dialed a' k)) → (∀ a' k', n_calls w !! t = Some (Dialed a' k') → k' = k) →
  (∀ a k, c ≠ Dialed a k) → (∀ a, c ≠ Dialing a) →
  (∀ a' k', refers c = Some (a', k') → m !! a' = Some k') →
  net_ok peers (with_call (close_conn (with_clients w m) k) t c).
Proof.
  intros H Hk Hm Hoth Hown Hc1 Hc2 Hr. split; cbn [with_call close_conn with_clients n_conns rpcClients n_calls].
  - intros k' x [[_ Hx]|(-> & y & Hy & ->)]%lookup_close; [by eapply ok_once|]. rewrite Hk in Hy. injection Hy as <-.
    split; [cbn; lia|]. by apply (ok_once _ _ H _ _ Hk).
  - intros a' k' [Hc Hne]%Hm. apply close_keeps; [done|]. by eapply ok_cached.
  - intros k' a' [[Hne Hx]|(-> & y & Hy & [=])]%lookup_close.
    destruct (ok_open _ _ H _ _ Hx) as [Hcc|[t' Ht']]; [left; by apply Hm|right]. exists t'. rewrite lookup_insert_ne; [done|].
    intros <-. by apply Hne, (Hown a').
  - intros t' a' k' [[_ ?]|[Hne Ht']]%lookup_insert_Some; [by destruct (Hc1 a' k')|].
    destruct (ok_dialed _ _ H _ _ _ Ht') as (H1 & H2 & H3). assert (k' ≠ k) by (intros ->; by eapply Hoth).
    split_and!; [by apply close_keeps|by intros [? _]%Hm|].
    intros t2 a2 Hne2 c2 [[<- <-]|[_ Hc2']]%lookup_insert_Some; [|by eapply H3].
    intros [Hcc _]%Hr%Hm. by eapply dialed_not_cached.
  - intros t' c' a' k' [[<- <-]|[_ Ht']]%lookup_insert_Some Hrc.
    + apply Hr, Hm in Hrc as [Hcc Hne]. eexists. split; [apply close_keeps; [done|by eapply ok_cached]|done].
    + destruct (ok_refers _ _ H _ _ _ _ Ht' Hrc) as (x & Hx & <-). by apply close_address.
  - intros t' a' [[_ E]|[_ Ht']]%lookup_insert_Some; [by destruct (Hc2 a')|by eapply ok_dialing].
Qed.

Lemma store_ok w t a k : net_ok peers w → n_calls w !! t = Some (Dialed a k) → net_ok peers (callPeer_store t a k w).
Proof.
  intros H Ht. destruct (ok_dialed _ _ H _ _ _ Ht) as (Hk & Hn & Hu). unfold callPeer_store. destruct (rpcClients w !! a) as [e|] eqn:Ee.
  - replace (close_conn w k) with (close_conn (with_clients w (rpcClients w)) k) by done. eapply close_ok; [done|done| | | |done|done|].
    + intros a' k'. split; [|by intros [? _]]. intros Hc. split; [done|]. intros ->. by eapply dialed_not_cached.
    + intros t' a' Hne Ht'. by eapply (Hu t' a').
    + intros a' k'. rewrite Ht. by intros [= _ <-].
    + by intros a' k' [= <- <-].
  - split; cbn [with_call with_clients n_conns rpcClients n_calls].
    + apply (ok_once _ _ H).
    + intros a' k' [[<- <-]|[_ ?]]%lookup_insert_Some; [done|by eapply ok_cached].
    + intros k' a' Hx. destruct (ok_open _ _ H _ _ Hx) as [Hc|[t' Ht']].
      * left. rewrite lookup_insert_ne; [done|congruence].
      * destruct (decide (t' = t)) as [->|Hne]; [|right; exists t'; by rewrite lookup_insert_ne]. left.
        rewrite Ht in Ht'. injection Ht' as <- <-. by rewrite lookup_insert_eq.
    + intros t' a' k' [[_ ?]|[Hne Ht']]%lookup_insert_Some; [done|].
      destruct (ok_dialed _ _ H _ _ _ Ht') as (H1 & H2 & H3). assert (k' ≠ k) by (intros ->; by eapply (Hu t' a')).
      split_and!; [done| |].
      * intros [[_ ?]|[_ ?]]%lookup_insert_Some; congruence.
      * intros t2 a2 Hne2 c [[<- <-]|[_ Hc]]%lookup_insert_Some; [cbn; congruence|by eapply H3].
    + intros t' c a' k' [[<- <-]|[_ Ht']]%lookup_insert_Some Hr; [|by eapply ok_refers]. injection Hr as <- <-. by eexists.
    + intros t' a' [[_ ?]|[_ Ht']]%lookup_insert_Some; [done|by eapply ok_dialing].
Qed.

Lemma call_ok w t a k o : net_ok peers w → n_calls w !! t = Some (Calling a k) → net_ok peers (callPeer_call t a k o w).
Proof.
  intros H Ht. unfold callPeer_call. apply with_call_ok; [done|congruence|by destruct o|by destruct o|].
  intros a' k' Hr. destruct o; [done|]. injection Hr as <- <-. split; [by eapply ok_refers|]. by eapply refers_not_dialed.
Qed.

Lemma drop_ok w t a k : net_ok peers w → n_calls w !! t = Some (Failed a k) → net_ok peers (callPeer_drop t a k w).
Proof.
  intros H Ht. unfold callPeer_drop. case_bool_decide as Hc; [|apply with_call_ok; try done; congruence].
  pose proof (ok_cached _ _ H _ _ Hc) as Hk. eapply close_ok; [done|done| | | |done|done|done].
  - intros a' k'. rewrite lookup_delete_Some. split.
    + intros [Hne Hc']. split; [done|]. intros ->. apply Hne. pose proof (ok_cached _ _ H _ _ Hc') as Hk'. congruence.
    + intros [Hc' Hne]. split; [congruence|done].
  - intros t' a' Hne Ht'. by eapply dialed_not_cached.
  - intros a' k'. by rewrite Ht.
Qed.

Lemma step_ok ev w w' : net_ok peers w → step me peers ev w = Some w' → net_ok peers w'.
Proof.
  intros H. destruct ev as [t server|t o]; cbn; destruct (n_calls w !! t) as [[]|] eqn:Ht; intros E; try done; injection E as <-.
  - apply lookup_ok; [done|congruence].
  - apply lookup_ok; [done|congruence].
  - by apply dial_ok.
  - by apply store_ok.
  - by apply call_ok.
  - by apply drop_ok.
Qed.
Lemma run_ok evs : ∀ w w', net_ok peers w → run me peers evs w = Some w' → net_ok peers w'.
Proof.
  induction evs as [|ev evs IH]; intros w w' H E; [by injection E as <-|]. cbn in E. apply bind_Some in E as (w1 & E1 & E).
  by eapply IH; [eapply step_ok|].
Qed.
End invariant.

Lemma net_start_ok peers : net_ok peers net_start.
Proof. by split. Qed.

(** C38: However the calls of a server's goroutines interleave and whichever
    dials and calls fail, no connection is closed twice, the cached one of an
    address is an open connection to that address, and every open connection is the
    cached one of its address or was just dialled by a call that is about to
    store or close it.  When no call is between dialling and storing, there is
    at most one open connection per address, and none to an address that is not a
    peer's: none leaks. *)
Theorem peer_connections_kept me peers evs w : run me peers evs net_start = Some w →
  (∀ k x, n_conns w !! k = Some x → (cn_closes x ≤ 1)%nat ∧ cn_address x ∈ peers) ∧
  (∀ a k, rpcClients w !! a = Some k → n_conns w !! k = Some {| cn_address := a; cn_closes := 0 |}) ∧
  (∀ k a, n_conns w !! k = Some {| cn_address := a; cn_closes := 0 |} →
    rpcClients w !! a = Some k ∨ ∃ t, n_calls w !! t = Some (Dialed a k)) ∧
  ((∀ t a k, n_calls w !! t ≠ Some (Dialed a k)) → ∀ a k k',
    n_conns w !! k = Some {| cn_address := a; cn_closes := 0 |} → n_conns w !! k' = Some {| cn_address := a; cn_closes := 0 |} → k = k').
Proof.
  intros E. pose proof (run_ok me peers evs net_start w (net_start_ok peers) E) as H.
  split_and!; [apply (ok_once _ _ H)|apply (ok_cached _ _ H)|apply (ok_open _ _ H)|].
  intros Hno a k k' [H1|[t Ht]]%(ok_open _ _ H) [H2|[t' Ht']]%(ok_open _ _ H); try (by exfalso; eapply Hno). congruence.
Qed.

(** Two goroutines dial the same peer, one stores and the other closes its own;
    then the shared connection fails and only one of them drops it. *)
Definition wit_race : list event :=
  [Start_call 0 1; Start_call 1 1; Goes_on 0 true; Goes_on 1 true; Goes_on 0 true; Goes_on 1 true;
   Goes_on 0 false; Goes_on 1 false; Goes_on 1 true; Goes_on 0 true].
Lemma peer_connections_kept_witness : ∃ w, run 0 ["a"; "b"] wit_race net_start = Some w ∧
  n_conns w = [{| cn_address := "b"; cn_closes := 1 |}; {| cn_address := "b"; cn_closes := 1 |}] ∧
  ∀ a k, rpcClients w !! a = Some k → n_conns w !! k = Some {| cn_address := a; cn_closes := 0 |}.
Proof.
  eexists. split; [by vm_compute|]. split; [by vm_compute|].
  apply (peer_connections_kept 0 ["a"; "b"] wit_race). by vm_compute.
Defined.

(** ** Settings from the environment *)

(** [os.Getenv] as a function; [strconv.Atoi] is [ParseInt] at base 10 and 64 bits. *)
Definition ms_ns : Z := 1000000.
Definition durationMsFromEnv (getenv : string → string) (name : string) (def : Z) : Z :=
  let raw := TrimSpace (getenv name) in
  if decide (raw = "") then def else
  match ParseInt raw with
  | None => def
  | Some ms => if bool_decide (ms ≤ 0)%Z then def else wrapS64 (ms * ms_ns)
  end.
